(* ===== verification/_CoqProject ===== *)
-Q . S2P
Prelude.v
Mem.v
MemCopy.v
MemSet.v
MemCmp.v
CString.v
Lock.v
Bitmap.v
Addr.v
Physical.v
PhysicalInit.v
Frames.v
Paging.v
PagingWalk.v
PagingMap.v
PagingRange.v
Caching.v
Translate.v
Virtual.v
VirtualInit.v
UserMap.v
Spaces.v
VirtualAlloc.v
Destroy.v
Ctype.v
Strto.v
Stdio.v
Print.v
PrintText.v
PrintSpec.v
PrintNumber.v
PrintParse.v
PrintFormat.v
Logger.v
LogText.v
BuddyBits.v
BuddyPos.v
BuddyTree.v
BuddyRep.v
BuddyNodes.v
BuddyAlloc.v
Buddy.v
BuddyQuery.v
BuddyInv.v
BuddyMalloc.v
BuddyInit.v
BuddyData.v
BuddyWalk.v
BuddyChecks.v
BuddyResize.v
BuddySamples.v
Heap.v
Serial.v
Shares.v
PhysThreads.v
HeapThreads.v
Boot.v
Gdt.v
Trap.v
TrapLog.v
Cpuid.v
Uart.v
Entry.v
Interrupt.v
