(* ===== verification/Prelude.v ===== *)
(** * Phoebe: a verification library of the kernel and its C library

    Phoebe is a kernel for amd64 in C and C++ with a C library of its own.  The
    boot loader hands it a memory map; [memory::initialize] builds the physical
    page allocator, the kernel's page tables and the heap on it, and the
    descriptor tables and the serial port give it exceptions and a log.  This
    library translates that code into executable definitions and proves what each
    part does, bugs included: where the code does something else than it means
    to, the theorem states what it does.

    ** How the code is translated

    Machine integers are [Z] with their wrap-around written out ([u8], [u16],
    [u32], [u64], [s32], ...).  Memory is a finite map from addresses to bytes
    ([Mem.mem]); pointers are addresses, words are little-endian and an access
    outside the map is a [Fault].  A computation ends in an [outcome]: a value,
    [Fault], [Panic] (a failed assertion or [log_panik]), [Spin] (a lock taken
    again by its holder) or [NoFuel].  A [while] or [for] loop is [Prelude.loop]
    over a body that continues with a state ([inl]) or leaves ([inr]); one
    definition per loop, named [.._body].  Global variables are records that the
    operations pass on.  [returns o Q] says that [o] ends in a value with [Q], so
    that a theorem with [returns] is one of termination too.

    ** The parts

    [libc/string]: Mem (accesses), MemCopy ([memcpy], [memmove] and the word
    loops), MemSet, MemCmp, CString ([strlen], [strcmp], [strcpy], [strcat] and
    their bounded forms).

    [libc] above it: Ctype, Strto ([stdlib]: conversions, [abs], [div]), Stdio
    (streams), Print ([stdio/print.c] and the [printf] family), PrintText (what
    they write, as text).  PrintSpec is the C standard's [printf] on lists;
    PrintNumber, PrintParse and PrintFormat prove Print against it.  Logger
    ([kernel/logger.cpp], [logger.h], [styling.h], [assert.c]) writes the lines of
    the log with it; LogText reads the kernel's formats and renders them.

    Physical memory: Lock ([lock.hpp], as interleaved threads and as sequential
    operations), Bitmap ([bitmap.hpp], [assert.c]), Addr ([memory.hpp]), Physical
    and PhysicalInit ([memory/physical.cpp]: operations, then start-up).

    Address space: Frames is the interface through which the page tables use an
    allocator of frames (a class of operations and one of laws, with Physical as
    the instance); Paging ([arch/amd64/memory/paging.cpp], [paging.hpp],
    [mmu.hpp], [virtual.hpp]), PagingWalk (the tables in memory as a tree),
    PagingMap (one page), PagingRange (ranges), Virtual and VirtualInit
    ([memory/virtual.cpp]: operations, then start-up), VirtualAlloc (the search
    for a free range), Caching ([cpu/cpu.hpp]: the memory type a mapping's flags
    choose), Translate (the processor's walk of the tables, as a specification of
    what a page map means), UserMap (page maps for users, which share the kernel's
    half), Spaces (all page maps over one allocator, with calls on any of them) and
    Destroy (the end of a page map).

    Heap: BuddyBits, BuddyPos, BuddyTree, Buddy and BuddyQuery are the code of
    [memory/buddy_alloc.h] from the bits up to its interface.  BuddyRep says which
    bytes a tree is, BuddyNodes is the specification (a set of blocks), BuddyAlloc
    proves the tree against it, BuddyInv is the invariant of an allocator with
    its arena, and BuddyMalloc, BuddyInit, BuddyData, BuddyWalk, BuddyChecks and
    BuddyResize are the theorems of the operations (BuddyChecks: a free that
    checks, and the questions whether an arena is full and how large it is);
    BuddySamples has a small arena on which they are run.  Heap ([memory/heap.cpp], [memory.cpp], [libs/malloc.cpp],
    [libs/new.cpp]) puts the allocator into the address space, behind a mutex;
    Boot composes physical memory, address space and heap as [memory::initialize]
    does.

    Threads: Serial has calls whose bodies run under a ticket lock, from several
    threads, and Shares what the threads hold; PhysThreads and HeapThreads put
    physical memory and the heap under threads.

    Entry ([main.cpp], [arch.cpp]) is [kernel_main]: drivers, log, memory and
    tables, with the messages the initialisers send.

    Processor and devices: Gdt ([cpu/gdt.cpp], [cpu/idt.cpp], [cpu/cpu.cpp]: the
    tables), Interrupt ([cpu/idt.S]: the way into and out of a handler), Trap
    ([cpu/idt.cpp], [libs/trace.c], [libs/__cxa_atexit.c]: what handlers report),
    TrapLog (the same as text on the console), Cpuid ([cpu/features.cpp]), Uart ([drivers/uart/uart.cpp], [drivers.cpp]).

    ** What the theorems show

    - Block operations and strings: the word-at-a-time routines are their bytewise
      definitions for every alignment, overlap and length; what [memset] and
      [strcmp] do instead of what they should.
    - Text: [strtol] refines a parse of lists with clamping; [printf] of a number
      is read back by [strtol]; [vfprintf] writes the standard's text for any format
      of integers, characters, strings and pointers; a message of the log is one
      line, and a failed assertion or an exception leaves a report of known text
      on the console before the machine halts; how far [vsnprintf] writes past its
      bound.
    - Locks: mutual exclusion, and refinement of a queue of threads, for every
      interleaving.
    - Physical memory: start-up establishes the invariant with exactly the usable
      pages, allocation is next fit on the set of free pages, and freeing is its
      inverse; threads whose calls interleave never hold a page in common.
    - Page tables: mapping a page sets one entry of the abstract map and no other
      and makes its addresses translate; unmapping clears it; the same for
      ranges; start-up maps the kernel and the direct map; [virtual_allocate] is a
      first fit over the ranges without a valid entry; which memory type each
      mapping has; the splits of large pages, which never return; that
      the end of a page map frees its root only, again and again.  Against the
      page walk of the architecture manual: after mapping, mapping a range and
      changing flags, every address translates to the place, with the rights and
      the memory type the flags ask for, or as before.  A page map made for a user
    shares exactly the tables of the kernel's half; calls on any of the page maps,
    in any order, refine one mapping of that half for all and one of the lower half
    for each.
    - Heap: [buddy_malloc] and [buddy_free] refine a set of disjoint blocks,
      [buddy_init_alignment] and [buddy_embed_alignment] establish their
      invariant for arenas of any size, [buddy_calloc] and [buddy_realloc] treat
      contents right, the search is sound and complete, [buddy_resize] loses
      blocks.  For a client of [malloc], [calloc], [realloc] and [free]: after any
      run no two allocations overlap, none leaves the arena, and the next
      operation ends.  The same for threads whose calls interleave: every run of
      theirs is one of a single client, and never deadlocks.
    - Start-up as a whole: from the boot loader's memory map to an empty, working
      heap between the direct map and the kernel, with every mapping in place; and
      [kernel_main] with that, the gates of the interrupts and the transcript on
      the console.
      The heap is proved over the bytes the processor shows at its addresses; the
      frames behind them are those [fill_range] maps, of which only the first is
      certain to have been allocated for the heap
      ([Virtual.fill_range_maps_shifted]).
    - Processor: the words of the descriptor tables as the manual decodes them;
      the frame an interrupt builds is the C structure the handlers read, and the
      return undoes it; stack traces end; when the features and the serial port's
      set-up go wrong, and that output ends once the transmitter is ready.

    ** Bounds and fuel

    Where the source bounds a loop, its fuel is computed from that bound, so that
    no caller has to choose any: the length of a block for the memory routines,
    the number of pages of a range for the loops over pages, the number of tree
    nodes for the walks over a whole tree, 65 to 67 for loops that halve or double
    a 64-bit index or climb a tree of at most 64 levels, 256 to 258 for loops over
    a [uint8_t] or over the 256 vectors.  The theorems with [returns] prove it
    enough.  Loops without a bound of their own (strings, formats, the polling of
    the serial port) take fuel as an argument, and their theorems say how much is
    enough: one more than the bytes looked at, or than the polls until the chip is
    ready.  Trees of the buddy allocator have an order of at most 58, so that
    their bits are counted by 64-bit words; the theorems of the heap ask for fewer
    than 2^52 pages, which is more than an address space has.

    ** Parameters

    What is not code of the repository is an argument: the boot loader's answers
    (the class [Hhdm] for the offset of the direct map, [PagingMode] for the
    number of levels, the memory map and the kernel's file), the memory the
    processor sees through the page tables ([mmu], in Heap, with [Boot.mmu_shows]
    for what is relied on), the [cpuid] instruction, the chip behind the I/O
    ports, the addresses of the linker, of [isr_table] and of string literals
    ([lit], in Logger), and the vectors for which the processor pushes an error
    code.

    ** Not modelled

    The loads of table and segment registers in [gdt.S] and the macros of [asm.h]
    have no effect on memory; they are events.  [limine.c] is data for the boot
    loader.  The messages of failing page-table operations and of running out of
    memory are left out; those of start-up, of the exception handlers and of
    assertions are modelled.  Threads see memory sequentially consistent, and what
    clients store in their allocations while another thread is in the heap is left
    out.  A model ends where the code calls [halt].  The debug printers of the
    buddy allocator only print, and its change tracking is not compiled in.  Build
    files, linker scripts and headers that only declare have no behaviour. *)
From Stdlib Require Export ZArith Lia.
From stdpp Require Export base tactics option list list_numbers gmap numbers.
#[global] Open Scope Z_scope.

(** ** Outcomes of a computation *)

(** What running a piece of the kernel can end in: a value, an access outside
    the mapped memory or a read of a missing argument ([Fault]), a call of
    [log_panik], which halts the machine ([Panic]), a ticket lock taken again
    by its holder, which spins for ever ([Spin]), or a loop that used up the
    fuel it was run with ([NoFuel]). *)
Inductive outcome (A : Type) : Type :=
  | Ok (a : A)
  | Fault
  | Panic
  | Spin
  | NoFuel.
Arguments Ok {A} a.
Arguments Fault {A}.
Arguments Panic {A}.
Arguments Spin {A}.
Arguments NoFuel {A}.

#[global] Instance outcome_ret : MRet outcome := λ A, Ok.
#[global] Instance outcome_bind : MBind outcome := λ A B k o,
  match o with
  | Ok a => k a
  | Fault => Fault
  | Panic => Panic
  | Spin => Spin
  | NoFuel => NoFuel
  end.

(** [from_option o] is [Ok] of the value of [o], a fault when there is none. *)
Definition of_option {A} (o : option A) : outcome A :=
  match o with Some a => Ok a | None => Fault end.

(** [returns o Q]: the computation ends with a value that satisfies [Q]. *)
Definition returns {A} (o : outcome A) (Q : A → Prop) : Prop :=
  match o with Ok a => Q a | _ => False end.

(** A loop run with fuel: the body either goes on with a new loop state
    ([inl]) or leaves the loop with a result ([inr]). *)
Fixpoint loop {S R} (fuel : nat) (body : S → outcome (S + R)) (s : S) : outcome R :=
  match fuel with
  | O => NoFuel
  | Datatypes.S fuel' =>
      r ← body s;
      match r with
      | inl s' => loop fuel' body s'
      | inr v => Ok v
      end
  end.

(** A counted loop whose body cannot leave early. *)
Fixpoint repeat_n {S} (n : nat) (body : S → outcome S) (s : S) : outcome S :=
  match n with
  | O => Ok s
  | Datatypes.S n' => s' ← body s; repeat_n n' body s'
  end.

(** ** Machine integers *)

Definition u8 (x : Z) : Z := x mod 2 ^ 8.
Definition u16 (x : Z) : Z := x mod 2 ^ 16.
Definition u32 (x : Z) : Z := x mod 2 ^ 32.
Definition u64 (x : Z) : Z := x mod 2 ^ 64.

(** Two's complement reading of the low [w] bits. *)
Definition sw (w : Z) (x : Z) : Z := (x + 2 ^ (w - 1)) mod 2 ^ w - 2 ^ (w - 1).
Definition s8 (x : Z) : Z := sw 8 x.
Definition s16 (x : Z) : Z := sw 16 x.
Definition s32 (x : Z) : Z := sw 32 x.
Definition s64 (x : Z) : Z := sw 64 x.

(** C's truth value of a bit test, [x & mask]. *)
Definition has (x mask : Z) : bool := negb (Z.land x mask =? 0).

(** [byte_of w i] is the [i]-th byte of [w], counted from the low end. *)
Definition byte_of (w i : Z) : Z := (w / 2 ^ (8 * i)) mod 2 ^ 8.

(** * Lemmas *)

Lemma returns_ok {A} (a : A) (Q : A → Prop) : Q a → returns (Ok a) Q.
Proof. done. Qed.

Lemma returns_bind {A B} (o : outcome A) (k : A → outcome B) (Q : B → Prop) :
  returns o (λ a, returns (k a) Q) → returns (o ≫= k) Q.
Proof. by destruct o. Qed.

Lemma returns_mono {A} (o : outcome A) (P Q : A → Prop) :
  returns o P → (∀ a, P a → Q a) → returns o Q.
Proof. destruct o; naive_solver. Qed.

(** The computation ends with a value that satisfies [Q], or panics. *)
Definition or_panics {A} (o : outcome A) (Q : A → Prop) : Prop := o = Panic ∨ returns o Q.

Lemma or_panics_bind {A B} (o : outcome A) (k : A → outcome B) (Q : B → Prop) :
  or_panics o (λ a, or_panics (k a) Q) → or_panics (o ≫= k) Q.
Proof. unfold or_panics. destruct o; simpl; intuition discriminate. Qed.

Lemma or_panics_mono {A} (o : outcome A) (P Q : A → Prop) :
  or_panics o P → (∀ a, P a → Q a) → or_panics o Q.
Proof. intros [H|H] HPQ; [by left|right; by eapply returns_mono]. Qed.

Lemma returns_or_panics {A} (o : outcome A) (Q : A → Prop) : returns o Q → or_panics o Q.
Proof. by right. Qed.

Lemma returns_inv {A} (o : outcome A) (Q : A → Prop) :
  returns o Q → ∃ a, o = Ok a ∧ Q a.
Proof. destruct o; naive_solver. Qed.

Lemma returns_intro {A} (o : outcome A) (a : A) (Q : A → Prop) :
  o = Ok a → Q a → returns o Q.
Proof. by intros ->. Qed.

(** The computation does not end with a value. *)
Definition never_returns {A} (o : outcome A) : Prop := ∀ a, o ≠ Ok a.

Lemma never_bind_l {A B} (o : outcome A) (k : A → outcome B) :
  never_returns o → never_returns (o ≫= k).
Proof. intros H. destruct o; try done. by destruct (H a). Qed.

Lemma never_bind_r {A B} (o : outcome A) (k : A → outcome B) :
  (∀ a, never_returns (k a)) → never_returns (o ≫= k).
Proof. intros H. destruct o; try done. apply H. Qed.

Lemma bind_assoc {A B C} (o : outcome A) (f : A → outcome B) (k : B → outcome C) :
  ((o ≫= f) ≫= k) = (o ≫= λ a, f a ≫= k).
Proof. by destruct o. Qed.

Lemma bind_ok {A B} (a : A) (k : A → outcome B) : (Ok a ≫= k) = k a.
Proof. done. Qed.

Lemma loop_S {S R} n (body : S → outcome (S + R)) (s : S) :
  loop (Datatypes.S n) body s =
  (r ← body s; match r with inl s' => loop n body s' | inr x => Ok x end).
Proof. done. Qed.

(** The rule of total correctness for [loop]: an invariant and a measure that
    decreases at every turn. *)
Lemma loop_returns {S R} (body : S → outcome (S + R)) (I : S → Prop)
    (μ : S → nat) (Q : R → Prop) :
  (∀ s, I s → returns (body s) (λ r,
     match r with inl s' => I s' ∧ (μ s' < μ s)%nat | inr v => Q v end)) →
  ∀ fuel s, I s → (μ s < fuel)%nat → returns (loop fuel body s) Q.
Proof.
  intros Hbody fuel. induction fuel as [|fuel IH]; intros s HI Hμ; [lia|].
  simpl. apply returns_bind. eapply returns_mono; [by apply Hbody|].
  intros [s'|v]; [|done]. intros [HI' Hlt]. apply IH; [done|lia].
Qed.

(** The same for a loop that may panic. *)
Lemma loop_or_panics {S R} (body : S → outcome (S + R)) (I : S → Prop)
    (μ : S → nat) (Q : R → Prop) :
  (∀ s, I s → or_panics (body s) (λ r,
     match r with inl s' => I s' ∧ (μ s' < μ s)%nat | inr v => Q v end)) →
  ∀ fuel s, I s → (μ s < fuel)%nat → or_panics (loop fuel body s) Q.
Proof.
  intros Hbody fuel. induction fuel as [|fuel IH]; intros s HI Hμ; [lia|].
  simpl. apply or_panics_bind. eapply or_panics_mono; [by apply Hbody|].
  intros [s'|v]; [|by right]. intros [HI' Hlt]. apply IH; [done|lia].
Qed.

Lemma repeat_n_or_panics {S} (body : S → outcome S) (I : nat → S → Prop) n :
  (∀ i s, (i < n)%nat → I i s → or_panics (body s) (I (Datatypes.S i))) →
  ∀ s, I O s → or_panics (repeat_n n body s) (I n).
Proof.
  intros Hbody.
  cut (∀ k i s, (i + k = n)%nat → I i s → or_panics (repeat_n k body s) (I n)).
  { intros H s HI. by apply (H n O s). }
  induction k as [|k IH]; intros i s Hik HI; simpl.
  { right. by replace n with i by lia. }
  apply or_panics_bind. eapply or_panics_mono; [apply (Hbody i); [lia|done]|].
  intros s' HI'. apply (IH (Datatypes.S i)); [lia|done].
Qed.

Lemma repeat_n_returns {S} (body : S → outcome S) (I : nat → S → Prop) n :
  (∀ i s, (i < n)%nat → I i s → returns (body s) (I (Datatypes.S i))) →
  ∀ s, I O s → returns (repeat_n n body s) (I n).
Proof.
  intros Hbody.
  cut (∀ k i s, (i + k = n)%nat → I i s → returns (repeat_n k body s) (I n)).
  { intros H s HI. by apply (H n O s). }
  induction k as [|k IH]; intros i s Hik HI; simpl.
  { by replace n with i by lia. }
  apply returns_bind. eapply returns_mono; [apply (Hbody i); [lia|done]|].
  intros s' HI'. apply (IH (Datatypes.S i)); [lia|done].
Qed.

(** ** Machine integers *)

Lemma u8_small x : 0 ≤ x < 2 ^ 8 → u8 x = x.
Proof. apply Z.mod_small. Qed.
Lemma u16_small x : 0 ≤ x < 2 ^ 16 → u16 x = x.
Proof. apply Z.mod_small. Qed.
Lemma u32_small x : 0 ≤ x < 2 ^ 32 → u32 x = x.
Proof. apply Z.mod_small. Qed.
Lemma u64_small x : 0 ≤ x < 2 ^ 64 → u64 x = x.
Proof. apply Z.mod_small. Qed.
Lemma u8_range x : 0 ≤ u8 x < 2 ^ 8.
Proof. by apply Z.mod_pos_bound. Qed.
Lemma u32_range x : 0 ≤ u32 x < 2 ^ 32.
Proof. by apply Z.mod_pos_bound. Qed.
Lemma u64_range x : 0 ≤ u64 x < 2 ^ 64.
Proof. by apply Z.mod_pos_bound. Qed.

Lemma u8_idemp x : u8 (u8 x) = u8 x.
Proof. by rewrite u8_small by apply u8_range. Qed.

Lemma u64_add_l x y : u64 (u64 x + y) = u64 (x + y).
Proof. unfold u64. by rewrite Z.add_mod_idemp_l. Qed.

Lemma u64_sub_l x y : u64 (u64 x - y) = u64 (x - y).
Proof. unfold u64. by rewrite Zminus_mod_idemp_l. Qed.

Lemma sw_small w x :
  0 < w → - 2 ^ (w - 1) ≤ x < 2 ^ (w - 1) → sw w x = x.
Proof.
  intros Hw Hx. unfold sw.
  replace (2 ^ w) with (2 * 2 ^ (w - 1)).
  - rewrite Z.mod_small; lia.
  - rewrite <-Z.pow_succ_r by lia. f_equal. lia.
Qed.

Lemma s32_small x : - 2 ^ 31 ≤ x < 2 ^ 31 → s32 x = x.
Proof. intros. by apply sw_small. Qed.
Lemma s64_small x : - 2 ^ 63 ≤ x < 2 ^ 63 → s64 x = x.
Proof. intros. by apply sw_small. Qed.

Lemma has_pow2 x n : 0 ≤ n → has x (2 ^ n) = Z.testbit x n.
Proof.
  intros Hn. unfold has. destruct (Z.testbit x n) eqn:E.
  - apply negb_true_iff, Z.eqb_neq. intros H0.
    assert (Z.testbit (Z.land x (2 ^ n)) n = true) as H.
    { by rewrite Z.land_spec, E, Z.pow2_bits_true. }
    by rewrite H0, Z.bits_0 in H.
  - apply negb_false_iff, Z.eqb_eq. apply Z.bits_inj'. intros i Hi.
    rewrite Z.land_spec, Z.bits_0, Z.pow2_bits_eqb by lia.
    destruct (Z.eqb_spec n i) as [->|]; [by rewrite E|by rewrite andb_false_r].
Qed.

Lemma has_lor x a b : has x (Z.lor a b) = has x a || has x b.
Proof.
  unfold has. rewrite Z.land_lor_distr_r. rewrite <-negb_andb. f_equal.
  apply eq_true_iff_eq. by rewrite andb_true_iff, !Z.eqb_eq, Z.lor_eq_0_iff.
Qed.

Lemma has_land_l x y m : has x m = false → has (Z.land x y) m = false.
Proof.
  unfold has. rewrite !negb_false_iff, !Z.eqb_eq. intros H.
  by rewrite <-Z.land_assoc, (Z.land_comm y), Z.land_assoc, H.
Qed.

Lemma byte_of_range w i : 0 ≤ byte_of w i < 2 ^ 8.
Proof. by apply Z.mod_pos_bound. Qed.

Lemma byte_of_testbit w i k :
  0 ≤ i → 0 ≤ k → Z.testbit (byte_of w i) k = (k <? 8) && Z.testbit w (8 * i + k).
Proof.
  intros Hi Hk. unfold byte_of. destruct (Z.ltb_spec k 8).
  - rewrite Z.mod_pow2_bits_low by lia. rewrite Z.div_pow2_bits by lia.
    simpl. f_equal. lia.
  - rewrite Z.mod_pow2_bits_high by lia. done.
Qed.

(** Clearing the low [k] bits of a 64-bit word with a mask. *)
Lemma land_align k a :
  0 ≤ k ≤ 64 → 0 ≤ a < 2 ^ 64 → Z.land a (2 ^ 64 - 2 ^ k) = a / 2 ^ k * 2 ^ k.
Proof.
  intros Hk Ha.
  replace (2 ^ 64 - 2 ^ k) with (Z.shiftl (Z.ones (64 - k)) k).
  2:{ rewrite Z.shiftl_mul_pow2, Z.ones_equiv by lia.
      replace 64 with (64 - k + k) at 2 by lia. rewrite Z.pow_add_r by lia. lia. }
  rewrite <-Z.shiftr_div_pow2, <-Z.shiftl_mul_pow2 by lia.
  apply Z.bits_inj'. intros i Hi. rewrite Z.land_spec.
  rewrite !Z.shiftl_spec by lia.
  destruct (Z.ltb_spec i k).
  { rewrite !(Z.testbit_neg_r _ (i - k)) by lia. by rewrite andb_false_r. }
  rewrite Z.shiftr_spec by lia. replace (i - k + k) with i by lia.
  destruct (Z.ltb_spec i 64).
  - rewrite Z.ones_spec_low by lia. by rewrite andb_true_r.
  - rewrite Z.ones_spec_high by lia. rewrite andb_false_r.
    symmetry. apply Z.bits_above_log2; [lia|].
    destruct (Z.eq_dec a 0) as [->|]; [simpl; lia|].
    apply Z.log2_lt_pow2; [lia|]. apply Z.lt_le_trans with (2 ^ 64); [lia|].
    by apply Z.pow_le_mono_r.
Qed.

(** A decidable statement about every number of a range, by evaluation. *)
Lemma forall_range (P : Z → Prop) `{∀ x, Decision (P x)} a n :
  forallb (λ x, bool_decide (P x)) (seqZ a n) = true → ∀ x, a ≤ x < a + n → P x.
Proof.
  intros Hall x Hx. apply (bool_decide_eq_true (P x)).
  apply (proj1 (forallb_forall _ _) Hall x).
  apply list_elem_of_In, elem_of_seqZ. lia.
Qed.

(** ** Automation *)

(** Remove wrap-arounds whose argument is in range. *)
Ltac unwrap :=
  repeat match goal with
  | |- context [u64 ?x] => rewrite (u64_small x) by lia
  | |- context [u32 ?x] => rewrite (u32_small x) by lia
  | |- context [u8 ?x] => rewrite (u8_small x) by lia
  | |- context [s32 ?x] => rewrite (s32_small x) by lia
  | |- context [s64 ?x] => rewrite (s64_small x) by lia
  end.

(** [lia] with the defining equations of [/] and [mod]. *)
Ltac dlia := Z.div_mod_to_equations; lia.
Ltac dnia := Z.div_mod_to_equations; nia.

(** One step through the bind of a computation. *)
Ltac bind_step := apply returns_bind.

Create HintDb phoebe discriminated.
#[export] Hint Resolve u8_range u32_range u64_range byte_of_range : phoebe.
