(* ===== verification/Mem.v ===== *)
(** * Byte-addressed memory

    The memory every C routine of the kernel works on: a finite map from
    addresses to byte values.  An access to an address outside the map is a
    [Fault].  Words are little-endian, as [libc/string/memcopy.h] selects with
    [__BYTE_ORDER] on the only target of the kernel, amd64.  A [uint64_t] load
    or store is eight byte accesses at consecutive addresses. *)
From S2P Require Import Prelude.

Abbreviation mem := (gmap Z Z).

(** ** Accesses *)

Definition ld8 (m : mem) (a : Z) : outcome Z := of_option (m !! a).

Definition st8 (m : mem) (a v : Z) : outcome mem :=
  match m !! a with
  | Some _ => Ok (<[a := u8 v]> m)
  | None => Fault
  end.

Fixpoint ldn (n : nat) (m : mem) (a : Z) : outcome Z :=
  match n with
  | O => Ok 0
  | S n' => b ← ld8 m a; w ← ldn n' m (a + 1); Ok (b + 2 ^ 8 * w)
  end.

Fixpoint stn (n : nat) (m : mem) (a v : Z) : outcome mem :=
  match n with
  | O => Ok m
  | S n' => m' ← st8 m a v; stn n' m' (a + 1) (v / 2 ^ 8)
  end.

Definition ld64 (m : mem) (a : Z) : outcome Z := ldn 8 m a.
Definition st64 (m : mem) (a v : Z) : outcome mem := stn 8 m a v.

(** ** What the theorems say about memories *)

(** [n] bytes from [a] on can be accessed. *)
Definition mapped (m : mem) (a n : Z) : Prop :=
  ∀ x, a ≤ x < a + n → is_Some (m !! x).

(** Memory holds bytes. *)
Definition bytes_ok (m : mem) : Prop := ∀ x b, m !! x = Some b → 0 ≤ b < 2 ^ 8.

(** Memory is mapped in units of aligned words, as it is in units of pages. *)
Definition word_mapped (m : mem) : Prop :=
  ∀ x y, x / 8 = y / 8 → is_Some (m !! x) → is_Some (m !! y).

(** [m'] is [m] with the [n] bytes at [dst] replaced by those [m] has at [src]. *)
Definition copied (m m' : mem) (dst src n : Z) : Prop :=
  ∀ x, m' !! x = if decide (dst ≤ x < dst + n) then m !! (x - dst + src) else m !! x.

(** [m'] is [m] with the [n] bytes at [dst] set to [v]. *)
Definition filled (m m' : mem) (dst v n : Z) : Prop :=
  ∀ x, m' !! x = if decide (dst ≤ x < dst + n) then Some v else m !! x.

(** [m'] is [m] with the word [v] at [a]. *)
Definition stored (m m' : mem) (a v : Z) : Prop :=
  ∀ x, m' !! x = if decide (a ≤ x < a + 8) then Some (byte_of v (x - a)) else m !! x.

(** [m] holds the bytes [l] from [a] on. *)
Definition holds (m : mem) (a : Z) (l : list Z) : Prop :=
  ∀ i b, l !! i = Some b → m !! (a + Z.of_nat i) = Some b.

(** A memory with the bytes [l] at [a]. *)
Fixpoint mem_of (a : Z) (l : list Z) : mem :=
  match l with
  | [] => ∅
  | b :: l' => <[a := b]> (mem_of (a + 1) l')
  end.

(** * Lemmas *)

Lemma ld8_Some m a b : m !! a = Some b → ld8 m a = Ok b.
Proof. intros H. unfold ld8. by rewrite H. Qed.

Lemma ld8_returns m a (Q : Z → Prop) :
  is_Some (m !! a) → (∀ b, m !! a = Some b → Q b) → returns (ld8 m a) Q.
Proof. intros [b Hb] HQ. rewrite (ld8_Some _ _ _ Hb). by apply HQ. Qed.

Lemma st8_Some m a v : is_Some (m !! a) → st8 m a v = Ok (<[a := u8 v]> m).
Proof. intros [b Hb]. unfold st8. by rewrite Hb. Qed.

Lemma mapped_mono m a n a' n' :
  mapped m a n → a ≤ a' → a' + n' ≤ a + n → mapped m a' n'.
Proof. intros H ?? x ?. apply H. lia. Qed.

Lemma mapped_same_dom m m' a n :
  (∀ x, is_Some (m !! x) → is_Some (m' !! x)) → mapped m a n → mapped m' a n.
Proof. intros Hd H x Hx. by apply Hd, H. Qed.

(** A copy of mapped bytes keeps what is mapped, and keeps bytes bytes. *)
Lemma copied_mapped m m' dst src n x :
  mapped m src n → copied m m' dst src n → is_Some (m !! x) → is_Some (m' !! x).
Proof. intros Hs H Hx. rewrite H. case_decide; [apply Hs; lia|done]. Qed.

Lemma copied_bytes_ok m m' dst src n :
  bytes_ok m → copied m m' dst src n → bytes_ok m'.
Proof. intros Hm H x b. rewrite H. case_decide; apply Hm. Qed.

Lemma copied_0 m dst src n : n ≤ 0 → copied m m dst src n.
Proof. intros Hn x. rewrite decide_False by lia. done. Qed.

Lemma copied_unique m m1 m2 dst src n :
  copied m m1 dst src n → copied m m2 dst src n → m1 = m2.
Proof. intros H1 H2. apply map_eq. intros x. by rewrite H1, H2. Qed.

Lemma filled_bytes_ok m m' dst v n :
  bytes_ok m → 0 ≤ v < 2 ^ 8 → filled m m' dst v n → bytes_ok m'.
Proof.
  intros Hm ? H x b. rewrite H. case_decide; [by intros [= <-]|apply Hm].
Qed.

Lemma filled_mapped m m' dst v n x :
  filled m m' dst v n → is_Some (m !! x) → is_Some (m' !! x).
Proof. intros H Hx. rewrite H. case_decide; [by eexists|done]. Qed.

Lemma filled_0 m dst v n : n ≤ 0 → filled m m dst v n.
Proof. intros Hn x. rewrite decide_False by lia. done. Qed.

Lemma filled_trans m m1 m2 dst v n1 n2 :
  0 ≤ n1 → 0 ≤ n2 → filled m m1 dst v n1 → filled m1 m2 (dst + n1) v n2 →
  filled m m2 dst v (n1 + n2).
Proof.
  intros ?? H1 H2 x. rewrite H2, H1. repeat case_decide; try lia; done.
Qed.

Lemma filled_unique m m1 m2 dst v n :
  filled m m1 dst v n → filled m m2 dst v n → m1 = m2.
Proof. intros H1 H2. apply map_eq. intros x. by rewrite H1, H2. Qed.

(** ** Words *)

Lemma byte_of_0 w : byte_of w 0 = w mod 2 ^ 8.
Proof. unfold byte_of. change (2 ^ (8 * 0)) with 1. by rewrite Z.div_1_r. Qed.

Lemma byte_of_succ w i : 0 ≤ i → byte_of w (i + 1) = byte_of (w / 2 ^ 8) i.
Proof.
  intros Hi. unfold byte_of. rewrite Z.div_div by lia.
  rewrite <-Z.pow_add_r by lia. do 3 f_equal. lia.
Qed.

Lemma ldn_returns n m a :
  mapped m a (Z.of_nat n) → bytes_ok m →
  returns (ldn n m a) (λ w, 0 ≤ w < 2 ^ (8 * Z.of_nat n) ∧
    ∀ i, 0 ≤ i < Z.of_nat n → m !! (a + i) = Some (byte_of w i)).
Proof.
  revert a. induction n as [|n IH]; intros a Hm Hb; cbn [ldn].
  { split; [done|lia]. }
  bind_step. apply ld8_returns; [apply Hm; lia|]. intros b Hab.
  bind_step. eapply returns_mono.
  { apply IH; [|done]. eapply mapped_mono; [done|lia|lia]. }
  intros w [Hw Hwi]. cbn [returns]. pose proof (Hb _ _ Hab) as Hbr. split.
  { replace (8 * Z.of_nat (S n)) with (8 + 8 * Z.of_nat n) by lia.
    rewrite Z.pow_add_r by lia. lia. }
  intros i Hi. destruct (decide (i = 0)) as [->|].
  { rewrite Z.add_0_r, Hab, byte_of_0. f_equal. dlia. }
  replace i with (i - 1 + 1) at 2 by lia. rewrite byte_of_succ by lia.
  replace ((b + 2 ^ 8 * w) / 2 ^ 8) with w by dlia.
  rewrite <-Hwi by lia. f_equal. lia.
Qed.

Lemma stn_returns n m a v :
  mapped m a (Z.of_nat n) →
  returns (stn n m a v) (λ m', ∀ x, m' !! x =
    if decide (a ≤ x < a + Z.of_nat n) then Some (byte_of v (x - a)) else m !! x).
Proof.
  revert m a v. induction n as [|n IH]; intros m a v Hm; cbn [stn].
  { intros x. by rewrite decide_False by lia. }
  bind_step. rewrite st8_Some by (apply Hm; lia). simpl.
  eapply returns_mono.
  { apply IH. intros x Hx. rewrite lookup_insert_ne by lia. apply Hm. lia. }
  intros m' Hm' x. cbv beta in Hm'. rewrite Hm'.
  destruct (decide (x = a)) as [->|].
  { rewrite decide_False, decide_True by lia.
    by rewrite lookup_insert_eq, Z.sub_diag, byte_of_0. }
  rewrite lookup_insert_ne by done. repeat case_decide; try lia; [|done].
  rewrite <-byte_of_succ by lia. do 2 f_equal. lia.
Qed.

Lemma ld64_returns m a (Q : Z → Prop) :
  mapped m a 8 → bytes_ok m →
  (∀ w, 0 ≤ w < 2 ^ 64 → (∀ i, 0 ≤ i < 8 → m !! (a + i) = Some (byte_of w i)) → Q w) →
  returns (ld64 m a) Q.
Proof.
  intros Hm Hb HQ. eapply returns_mono; [by apply (ldn_returns 8)|].
  intros w [??]. by apply HQ.
Qed.

Lemma st64_returns m a v (Q : mem → Prop) :
  mapped m a 8 →
  (∀ m', (∀ x, m' !! x = if decide (a ≤ x < a + 8) then Some (byte_of v (x - a)) else m !! x) →
     Q m') →
  returns (st64 m a v) Q.
Proof. intros Hm HQ. eapply returns_mono; [by apply (stn_returns 8)|]. exact HQ. Qed.

(** Two words that have the same bytes are equal. *)
Lemma word_ext w1 w2 :
  0 ≤ w1 < 2 ^ 64 → 0 ≤ w2 < 2 ^ 64 →
  (∀ i, 0 ≤ i < 8 → byte_of w1 i = byte_of w2 i) → w1 = w2.
Proof.
  intros H1 H2 H. apply Z.bits_inj'. intros k Hk.
  destruct (Z.ltb_spec k 64).
  - specialize (H (k / 8) ltac:(dlia)).
    apply (f_equal (λ z, Z.testbit z (k mod 8))) in H.
    rewrite !byte_of_testbit in H by dlia.
    rewrite (proj2 (Z.ltb_lt (k mod 8) 8)) in H by dlia. simpl in H.
    by replace (8 * (k / 8) + k mod 8) with k in H by dlia.
  - rewrite <-(Z.mod_small w1 (2 ^ 64)), <-(Z.mod_small w2 (2 ^ 64)) by done.
    by rewrite !Z.mod_pow2_bits_high by lia.
Qed.

(** ** Unchanged words *)

Lemma ldn_same n m m' a :
  (∀ x, a ≤ x < a + Z.of_nat n → m' !! x = m !! x) → ldn n m' a = ldn n m a.
Proof.
  revert a. induction n as [|n IH]; intros a H; cbn [ldn]; [done|].
  unfold ld8. rewrite H by lia. rewrite IH; [done|]. intros x Hx. apply H. lia.
Qed.

Lemma ld64_same m m' a :
  (∀ x, a ≤ x < a + 8 → m' !! x = m !! x) → ld64 m' a = ld64 m a.
Proof. apply (ldn_same 8). Qed.

(** ** Words by their bytes *)

Lemma ld64_bytes m a w :
  bytes_ok m → 0 ≤ w < 2 ^ 64 →
  (∀ i, 0 ≤ i < 8 → m !! (a + i) = Some (byte_of w i)) → ld64 m a = Ok w.
Proof.
  intros Hb Hw Hx.
  destruct (returns_inv (ld64 m a) (λ v, v = w)) as (v & Hv & ->); [|done].
  apply ld64_returns; [|done|].
  - intros x Hx'. exists (byte_of w (x - a)). rewrite <-Hx by lia. f_equal. lia.
  - intros v Hv Hvx. apply word_ext; [done|done|]. intros i Hi.
    specialize (Hx i Hi). specialize (Hvx i Hi). congruence.
Qed.

Lemma ld64_zero m a :
  bytes_ok m → (∀ x, a ≤ x < a + 8 → m !! x = Some 0) → ld64 m a = Ok 0.
Proof.
  intros Hb Hx. apply ld64_bytes; [done|lia|]. intros i Hi. rewrite Hx by lia.
  unfold byte_of. by rewrite Z.div_0_l by (apply Z.pow_nonzero; lia).
Qed.

Lemma ld64_range m a v : bytes_ok m → mapped m a 8 → ld64 m a = Ok v → 0 ≤ v < 2 ^ 64.
Proof.
  intros Hb Hm Hv.
  assert (returns (ld64 m a) (λ w, 0 ≤ w < 2 ^ 64)) as Hr by by apply ld64_returns.
  by rewrite Hv in Hr.
Qed.

Lemma stored_bytes_ok m m' a v : bytes_ok m → stored m m' a v → bytes_ok m'.
Proof.
  intros Hm H x b. rewrite H. case_decide; [|apply Hm]. intros [= <-]. apply byte_of_range.
Qed.

Lemma stored_ld64 m m' a v :
  bytes_ok m → 0 ≤ v < 2 ^ 64 → stored m m' a v → ld64 m' a = Ok v.
Proof.
  intros Hb Hv H. apply ld64_bytes; [by eapply stored_bytes_ok|done|].
  intros i Hi. rewrite H, decide_True by lia. do 2 f_equal. lia.
Qed.

Lemma stored_ld64_ne m m' a v b :
  stored m m' a v → b + 8 ≤ a ∨ a + 8 ≤ b → ld64 m' b = ld64 m b.
Proof. intros H Hb. apply ld64_same. intros x Hx. rewrite H, decide_False by lia. done. Qed.

(** ** Concrete memories *)

Lemma mem_of_lookup_lt a l x : x < a → mem_of a l !! x = None.
Proof.
  revert a. induction l as [|b l IH]; intros a Hx; simpl; [done|].
  rewrite lookup_insert_ne by lia. apply IH. lia.
Qed.

Lemma mem_of_lookup a l x :
  a ≤ x → mem_of a l !! x = l !! Z.to_nat (x - a).
Proof.
  revert a. induction l as [|b l IH]; intros a Hx; simpl; [done|].
  destruct (decide (x = a)) as [->|].
  { by rewrite lookup_insert_eq, Z.sub_diag. }
  rewrite lookup_insert_ne by lia. rewrite IH by lia.
  replace (Z.to_nat (x - a)) with (S (Z.to_nat (x - (a + 1)))) by lia. done.
Qed.

Lemma mem_of_mapped a l n :
  n ≤ Z.of_nat (length l) → mapped (mem_of a l) a n.
Proof.
  intros Hn x Hx. rewrite mem_of_lookup by lia. apply lookup_lt_is_Some. lia.
Qed.

Lemma mem_of_is_Some a l x :
  is_Some (mem_of a l !! x) ↔ a ≤ x < a + Z.of_nat (length l).
Proof.
  destruct (decide (x < a)).
  - rewrite mem_of_lookup_lt by done. split; [by intros []|lia].
  - rewrite mem_of_lookup by lia. rewrite lookup_lt_is_Some. lia.
Qed.

Lemma mem_of_word_mapped a l :
  a mod 8 = 0 → Z.of_nat (length l) mod 8 = 0 → word_mapped (mem_of a l).
Proof. intros Ha Hl x y Hxy. rewrite !mem_of_is_Some. dlia. Qed.

Lemma mem_of_bytes_ok a l :
  Forall (λ b, 0 ≤ b < 2 ^ 8) l → bytes_ok (mem_of a l).
Proof.
  intros Hl x b. destruct (decide (x < a)); [by rewrite mem_of_lookup_lt|].
  rewrite mem_of_lookup by lia. intros Hb.
  exact (Forall_lookup_1 _ _ _ _ Hl Hb).
Qed.

Lemma mem_of_holds a l : holds (mem_of a l) a l.
Proof.
  intros i b Hb. rewrite mem_of_lookup by lia.
  by replace (Z.to_nat (a + Z.of_nat i - a)) with i by lia.
Qed.

#[export] Hint Resolve copied_bytes_ok filled_bytes_ok mem_of_holds : phoebe.
