(* ===== verification/MemCopy.v ===== *)
(** * Copying memory: [libc/string/memcopy.h], [memcopy.c], [memcpy.c], [memmove.c]

    A pointer is its 64-bit pattern, whichever of [uintptr_t] and [long int]
    the source gives it; all pointer and length arithmetic wraps at 64 bits.
    The routines read and write whole words once the destination is aligned,
    and merge two shifted source words when the source is not.  The theorems
    say that all of this amounts to replacing the bytes of the destination by
    those the source had before the call. *)
From S2P Require Import Prelude Mem.

(** ** [memcopy.h] *)

Definition OP_T_THRES : Z := 16.
Definition OPSIZ : Z := 8.

(** [-OPSIZ] as a [size_t], the mask of the aligned part. *)
Definition opsiz_mask : Z := u64 (- OPSIZ).

Definition MERGE (w0 sh_1 w1 sh_2 : Z) : Z :=
  Z.lor (Z.shiftr w0 sh_1) (u64 (Z.shiftl w1 sh_2)).

Definition BYTE_COPY_FWD (m : mem) (dst_bp src_bp nbytes : Z) : outcome (mem * Z * Z) :=
  repeat_n (Z.to_nat nbytes)
    (λ '(m, dst_bp, src_bp),
       x ← ld8 m src_bp;
       let src_bp := u64 (src_bp + 1) in
       m ← st8 m dst_bp x;
       let dst_bp := u64 (dst_bp + 1) in
       Ok (m, dst_bp, src_bp))
    (m, dst_bp, src_bp).

Definition BYTE_COPY_BWD (m : mem) (dst_ep src_ep nbytes : Z) : outcome (mem * Z * Z) :=
  repeat_n (Z.to_nat nbytes)
    (λ '(m, dst_ep, src_ep),
       let src_ep := u64 (src_ep - 1) in
       x ← ld8 m src_ep;
       let dst_ep := u64 (dst_ep - 1) in
       m ← st8 m dst_ep x;
       Ok (m, dst_ep, src_ep))
    (m, dst_ep, src_ep).

(** ** [memcopy.c]

    The [do ... while(len != 0)] loops take two words a turn; the fuel is one
    more than the number of turns of a non-zero even [len]. *)

Definition word_fuel (len : Z) : nat := S (Z.to_nat (len / 2)).

Definition _wordcopy_fwd_aligned (m : mem) (dstp srcp len : Z) : outcome mem :=
  let body '(m, dstp, srcp, len) :=
    a0 ← ld64 m srcp;
    a1 ← ld64 m (u64 (srcp + OPSIZ));
    m ← st64 m dstp a0;
    m ← st64 m (u64 (dstp + OPSIZ)) a1;
    let srcp := u64 (srcp + 2 * OPSIZ) in
    let dstp := u64 (dstp + 2 * OPSIZ) in
    let len := u64 (len - 2) in
    if len =? 0 then Ok (inr m) else Ok (inl (m, dstp, srcp, len)) in
  if has len 1 then
    w ← ld64 m srcp;
    m ← st64 m dstp w;
    if len =? 1 then Ok m else
    let srcp := u64 (srcp + OPSIZ) in
    let dstp := u64 (dstp + OPSIZ) in
    let len := u64 (len - 1) in
    loop (word_fuel len) body (m, dstp, srcp, len)
  else loop (word_fuel len) body (m, dstp, srcp, len).

Definition _wordcopy_fwd_dest_aligned (m : mem) (dstp srcp len : Z) : outcome mem :=
  let sh_1 := 8 * (srcp mod OPSIZ) in
  let sh_2 := 8 * OPSIZ - sh_1 in
  let srcp := Z.land srcp opsiz_mask in
  a0 ← ld64 m srcp;
  let body '(m, dstp, srcp, len, a0) :=
    a1 ← ld64 m (u64 (srcp + OPSIZ));
    a2 ← ld64 m (u64 (srcp + 2 * OPSIZ));
    m ← st64 m dstp (MERGE a0 sh_1 a1 sh_2);
    m ← st64 m (u64 (dstp + OPSIZ)) (MERGE a1 sh_1 a2 sh_2);
    let a0 := a2 in
    let srcp := u64 (srcp + 2 * OPSIZ) in
    let dstp := u64 (dstp + 2 * OPSIZ) in
    let len := u64 (len - 2) in
    if len =? 0 then Ok (inr m) else Ok (inl (m, dstp, srcp, len, a0)) in
  if has len 1 then
    a1 ← ld64 m (u64 (srcp + OPSIZ));
    m ← st64 m dstp (MERGE a0 sh_1 a1 sh_2);
    if len =? 1 then Ok m else
    let a0 := a1 in
    let srcp := u64 (srcp + OPSIZ) in
    let dstp := u64 (dstp + OPSIZ) in
    let len := u64 (len - 1) in
    loop (word_fuel len) body (m, dstp, srcp, len, a0)
  else loop (word_fuel len) body (m, dstp, srcp, len, a0).

Definition _wordcopy_bwd_aligned (m : mem) (dstp srcp len : Z) : outcome mem :=
  let body '(m, dstp, srcp, len) :=
    let srcp := u64 (srcp - 2 * OPSIZ) in
    let dstp := u64 (dstp - 2 * OPSIZ) in
    a1 ← ld64 m (u64 (srcp + OPSIZ));
    a0 ← ld64 m srcp;
    m ← st64 m (u64 (dstp + OPSIZ)) a1;
    m ← st64 m dstp a0;
    let len := u64 (len - 2) in
    if len =? 0 then Ok (inr m) else Ok (inl (m, dstp, srcp, len)) in
  if has len 1 then
    let srcp := u64 (srcp - OPSIZ) in
    let dstp := u64 (dstp - OPSIZ) in
    w ← ld64 m srcp;
    m ← st64 m dstp w;
    if len =? 1 then Ok m else
    let len := u64 (len - 1) in
    loop (word_fuel len) body (m, dstp, srcp, len)
  else loop (word_fuel len) body (m, dstp, srcp, len).

Definition _wordcopy_bwd_dest_aligned (m : mem) (dstp srcp len : Z) : outcome mem :=
  let sh_1 := 8 * (srcp mod OPSIZ) in
  let sh_2 := 8 * OPSIZ - sh_1 in
  let srcp := Z.land srcp opsiz_mask in
  a2 ← ld64 m srcp;
  let body '(m, dstp, srcp, len, a2) :=
    let srcp := u64 (srcp - 2 * OPSIZ) in
    let dstp := u64 (dstp - 2 * OPSIZ) in
    a1 ← ld64 m (u64 (srcp + OPSIZ));
    a0 ← ld64 m srcp;
    m ← st64 m (u64 (dstp + OPSIZ)) (MERGE a1 sh_1 a2 sh_2);
    m ← st64 m dstp (MERGE a0 sh_1 a1 sh_2);
    let a2 := a0 in
    let len := u64 (len - 2) in
    if len =? 0 then Ok (inr m) else Ok (inl (m, dstp, srcp, len, a2)) in
  if has len 1 then
    let srcp := u64 (srcp - OPSIZ) in
    let dstp := u64 (dstp - OPSIZ) in
    a1 ← ld64 m srcp;
    m ← st64 m dstp (MERGE a1 sh_1 a2 sh_2);
    if len =? 1 then Ok m else
    let a2 := a1 in
    let len := u64 (len - 1) in
    loop (word_fuel len) body (m, dstp, srcp, len, a2)
  else loop (word_fuel len) body (m, dstp, srcp, len, a2).

(** The two macros that choose between them; the result is the memory, the two
    advanced pointers and the bytes left. *)

Definition WORD_COPY_FWD (m : mem) (dst_bp src_bp nbytes : Z) : outcome (mem * Z * Z * Z) :=
  m ← (if src_bp mod OPSIZ =? 0
       then _wordcopy_fwd_aligned m dst_bp src_bp (nbytes / OPSIZ)
       else _wordcopy_fwd_dest_aligned m dst_bp src_bp (nbytes / OPSIZ));
  let src_bp := u64 (src_bp + Z.land nbytes opsiz_mask) in
  let dst_bp := u64 (dst_bp + Z.land nbytes opsiz_mask) in
  Ok (m, dst_bp, src_bp, nbytes mod OPSIZ).

Definition WORD_COPY_BWD (m : mem) (dst_ep src_ep nbytes : Z) : outcome (mem * Z * Z * Z) :=
  m ← (if src_ep mod OPSIZ =? 0
       then _wordcopy_bwd_aligned m dst_ep src_ep (nbytes / OPSIZ)
       else _wordcopy_bwd_dest_aligned m dst_ep src_ep (nbytes / OPSIZ));
  let src_ep := u64 (src_ep - Z.land nbytes opsiz_mask) in
  let dst_ep := u64 (dst_ep - Z.land nbytes opsiz_mask) in
  Ok (m, dst_ep, src_ep, nbytes mod OPSIZ).

(** ** [memcpy] and [memmove] *)

Definition memcpy (m : mem) (dest src length : Z) : outcome (mem * Z) :=
  let destp := dest in
  let srcp := src in
  '(m, destp, srcp, length) ←
    (if OP_T_THRES <=? length then
       let k := u64 (- destp) mod OPSIZ in
       let length := u64 (length - k) in
       '(m, destp, srcp) ← BYTE_COPY_FWD m destp srcp k;
       WORD_COPY_FWD m destp srcp length
     else Ok (m, destp, srcp, length));
  '(m, destp, srcp) ← BYTE_COPY_FWD m destp srcp length;
  Ok (m, dest).

Definition memmove (m : mem) (dest src length : Z) : outcome (mem * Z) :=
  let destp := dest in
  let srcp := src in
  if length <=? u64 (destp - srcp) then
    '(m, dest) ← memcpy m dest src length;
    Ok (m, dest)
  else
    let srcp := u64 (srcp + length) in
    let destp := u64 (destp + length) in
    '(m, destp, srcp, length) ←
      (if OP_T_THRES <=? length then
         let k := destp mod OPSIZ in
         let length := u64 (length - k) in
         '(m, destp, srcp) ← BYTE_COPY_BWD m destp srcp k;
         WORD_COPY_BWD m destp srcp length
       else Ok (m, destp, srcp, length));
    '(m, destp, srcp) ← BYTE_COPY_BWD m destp srcp length;
    Ok (m, dest).

(** * Lemmas *)

(** [w] is the word [m] holds at [a]. *)
Definition word_at (m : mem) (a w : Z) : Prop :=
  0 ≤ w < 2 ^ 64 ∧ ∀ i, 0 ≤ i < 8 → m !! (a + i) = Some (byte_of w i).

Lemma MERGE_range w0 w1 sh_1 sh_2 :
  0 ≤ w0 < 2 ^ 64 → 0 ≤ sh_1 → 0 ≤ MERGE w0 sh_1 w1 sh_2 < 2 ^ 64.
Proof.
  intros Hw Hs. unfold MERGE.
  assert (0 ≤ Z.shiftr w0 sh_1 < 2 ^ 64) as Hr.
  { rewrite Z.shiftr_div_pow2 by done.
    assert (0 < 2 ^ sh_1) by lia. split; [apply Z.div_pos; lia|].
    apply Z.div_lt_upper_bound; nia. }
  pose proof (u64_range (Z.shiftl w1 sh_2)) as Hl.
  rewrite <-(Z.mod_small _ _ Hr), <-(Z.mod_small _ _ Hl).
  rewrite <-!Z.land_ones, <-Z.land_lor_distr_l, Z.land_ones by lia.
  by apply Z.mod_pos_bound.
Qed.

Lemma MERGE_byte w0 w1 r i :
  0 < r < 8 → 0 ≤ i < 8 → 0 ≤ w0 < 2 ^ 64 →
  byte_of (MERGE w0 (8 * r) w1 (8 * OPSIZ - 8 * r)) i =
  if decide (i + r < 8) then byte_of w0 (i + r) else byte_of w1 (i + r - 8).
Proof.
  intros Hr Hi Hw. unfold OPSIZ. apply Z.bits_inj'. intros k Hk.
  rewrite byte_of_testbit by lia. unfold MERGE.
  rewrite Z.lor_spec, Z.shiftr_spec by lia.
  destruct (Z.ltb_spec k 8); simpl andb.
  2:{ case_decide; rewrite byte_of_testbit by lia;
        by rewrite (proj2 (Z.ltb_ge k 8)) by lia. }
  unfold u64. rewrite Z.mod_pow2_bits_low by lia. rewrite Z.shiftl_spec by lia.
  case_decide.
  - rewrite (Z.testbit_neg_r w1) by lia. rewrite orb_false_r.
    rewrite byte_of_testbit by lia. rewrite (proj2 (Z.ltb_lt k 8)) by lia.
    simpl. f_equal. lia.
  - rewrite <-(Z.mod_small w0 (2 ^ 64)) by done.
    rewrite Z.mod_pow2_bits_high by lia. simpl.
    rewrite byte_of_testbit by lia. rewrite (proj2 (Z.ltb_lt k 8)) by lia.
    simpl. f_equal. lia.
Qed.

(** The merge of two neighbouring words is the unaligned word across them. *)
Lemma word_at_MERGE m b r w0 w1 :
  0 < r < 8 → word_at m b w0 → word_at m (b + 8) w1 →
  word_at m (b + r) (MERGE w0 (8 * r) w1 (8 * OPSIZ - 8 * r)).
Proof.
  intros Hr [Hr0 H0] [Hr1 H1]. split; [apply MERGE_range; lia|].
  intros i Hi. rewrite MERGE_byte by lia. case_decide.
  - rewrite <-H0 by lia. f_equal. lia.
  - rewrite <-H1 by lia. f_equal. lia.
Qed.

Lemma copied_refl m D S k : k = 0 → copied m m D S k.
Proof. intros ->. by apply copied_0. Qed.

(** Reading a word of the original memory that the copy did not touch. *)
Lemma copied_ld64 m0 m D S k a (Q : Z → Prop) :
  bytes_ok m0 → copied m0 m D S k → mapped m0 a 8 → a + 8 ≤ D ∨ D + k ≤ a →
  (∀ w, word_at m0 a w → Q w) → returns (ld64 m a) Q.
Proof.
  intros Hb Hc Hm Ha HQ.
  assert (∀ x, a ≤ x < a + 8 → m !! x = m0 !! x) as He.
  { intros x Hx. rewrite Hc. by rewrite decide_False by lia. }
  apply ld64_returns; [|by eapply copied_bytes_ok|].
  { intros x Hx. rewrite He by lia. by apply Hm. }
  intros w Hw Hwi. apply HQ. split; [done|]. intros i Hi.
  rewrite <-He by lia. by apply Hwi.
Qed.

(** Extending a copy by a word, upwards and downwards. *)
Lemma copied_st64_up m0 m D S k w (Q : mem → Prop) :
  0 ≤ k → copied m0 m D S k → word_at m0 (S + k) w → mapped m (D + k) 8 →
  (∀ m', copied m0 m' D S (k + 8) → (∀ x, is_Some (m !! x) → is_Some (m' !! x)) → Q m') →
  returns (st64 m (D + k) w) Q.
Proof.
  intros Hk Hc [_ Hw] Hm HQ. apply st64_returns; [done|]. intros m' Hm'.
  apply HQ.
  - intros x. rewrite Hm', Hc. repeat case_decide; try lia; try done.
    rewrite <-Hw by lia. f_equal. lia.
  - intros x Hx. rewrite Hm'. by case_decide.
Qed.

Lemma copied_st64_down m0 m D S k w (Q : mem → Prop) :
  0 ≤ k → copied m0 m D S k → word_at m0 (S - 8) w → mapped m (D - 8) 8 →
  (∀ m', copied m0 m' (D - 8) (S - 8) (k + 8) →
     (∀ x, is_Some (m !! x) → is_Some (m' !! x)) → Q m') →
  returns (st64 m (D - 8) w) Q.
Proof.
  intros Hk Hc [_ Hw] Hm HQ. apply st64_returns; [done|]. intros m' Hm'.
  apply HQ.
  - intros x. rewrite Hm', Hc. repeat case_decide; try lia; try done.
    + rewrite <-Hw by lia. f_equal. lia.
    + f_equal. lia.
  - intros x Hx. rewrite Hm'. by case_decide.
Qed.

(** Two copies in a row are one, when the first leaves alone what the second
    reads. *)
Lemma copied_trans_up m m1 m2 D S k1 k2 :
  0 ≤ k1 → 0 ≤ k2 → D ≤ S ∨ S + k1 + k2 ≤ D →
  copied m m1 D S k1 → copied m1 m2 (D + k1) (S + k1) k2 →
  copied m m2 D S (k1 + k2).
Proof.
  intros ??? H1 H2 x. rewrite H2, !H1. repeat case_decide; try lia; try done.
  f_equal. lia.
Qed.

Lemma copied_trans_down m m1 m2 D S k1 k2 :
  0 ≤ k1 → 0 ≤ k2 → S ≤ D ∨ D + k1 + k2 ≤ S →
  copied m m1 (D + k2) (S + k2) k1 → copied m1 m2 D S k2 →
  copied m m2 D S (k1 + k2).
Proof.
  intros ??? H1 H2 x. rewrite H2, !H1. repeat case_decide; try lia; try done.
  f_equal. lia.
Qed.

Lemma word_mapped_copied m m' D S k :
  word_mapped m → mapped m S k → mapped m D k → copied m m' D S k → word_mapped m'.
Proof.
  intros Hw HS HD Hc x y Hxy Hx.
  assert (∀ z, is_Some (m' !! z) ↔ is_Some (m !! z)) as He.
  { intros z. rewrite Hc. case_decide; [|done].
    split; intros _; [apply HD|apply HS]; lia. }
  apply He, (Hw x y), He; done.
Qed.

(** The aligned word around a mapped byte is mapped. *)
Lemma word_mapped_at m x a :
  word_mapped m → is_Some (m !! x) → a = x / 8 * 8 → mapped m a 8.
Proof. intros Hw Hx -> y Hy. apply (Hw x y); [dlia|done]. Qed.

(** The aligned words that an unaligned range of words touches are mapped. *)
Lemma block_mapped m S n j :
  word_mapped m → mapped m S n → S mod 8 ≠ 0 → 0 < n → n mod 8 = 0 →
  0 ≤ j ≤ n → j mod 8 = 0 → mapped m (S - S mod 8 + j) 8.
Proof.
  intros Hw Hm HS Hn Hn8 Hj Hj8. destruct (decide (j = n)) as [->|].
  - apply (word_mapped_at m (S + n - 1)); [done|apply Hm; lia|dlia].
  - apply (word_mapped_at m (S + j)); [done|apply Hm; dlia|dlia].
Qed.

Lemma land_opsiz_mask a : 0 ≤ a < 2 ^ 64 → Z.land a opsiz_mask = a - a mod 8.
Proof.
  intros Ha. change opsiz_mask with (2 ^ 64 - 2 ^ 3). rewrite land_align by lia.
  change (2 ^ 3) with 8. dlia.
Qed.

Lemma has_1 x : has x 1 = negb (x mod 2 =? 0).
Proof.
  change 1 with (2 ^ 0). rewrite has_pow2 by lia. rewrite Z.bit0_odd, Zodd_mod.
  pose proof (Z.mod_pos_bound x 2). destruct (Z.eqb_spec (x mod 2) 0); simpl; lia.
Qed.

(** ** Byte loops *)

(** The ranges a copy works on: no wrap of the pointers, and mapped bytes. *)
Record copyable (m : mem) (D S n : Z) : Prop := Copyable {
  cp_len : 0 ≤ n;
  cp_dst : 0 ≤ D ∧ D + n < 2 ^ 64;
  cp_src : 0 ≤ S ∧ S + n < 2 ^ 64;
  cp_bytes : bytes_ok m;
  cp_mdst : mapped m D n;
  cp_msrc : mapped m S n;
}.

Lemma copyable_sub m D S n j k :
  0 ≤ j → 0 ≤ k → j + k ≤ n → copyable m D S n → copyable m (D + j) (S + j) k.
Proof.
  intros ??? []. split; try lia; try done.
  - apply (mapped_mono m D n); [done|lia|lia].
  - apply (mapped_mono m S n); [done|lia|lia].
Qed.

(** After a copy the rest of the ranges can still be copied. *)
Lemma copyable_copied m m' D S n D' S' k :
  copyable m D S n → mapped m S' k → copied m m' D' S' k → copyable m' D S n.
Proof.
  intros [] Hs Hc. split; try done; [by eapply copied_bytes_ok|..];
    (eapply mapped_same_dom; [|done]); intros x; by eapply copied_mapped.
Qed.

(** A whole run of a loop from the pieces the turns copy. *)
Lemma BYTE_COPY_FWD_returns m D S n (Q : mem * Z * Z → Prop) :
  copyable m D S n → D ≤ S ∨ S + n ≤ D →
  (∀ m', copied m m' D S n → Q (m', D + n, S + n)) →
  returns (BYTE_COPY_FWD m D S n) Q.
Proof.
  intros [] Hov HQ. unfold BYTE_COPY_FWD.
  eapply returns_mono; [eapply (repeat_n_returns _ (λ i '(m', d, s),
    copied m m' D S (Z.of_nat i) ∧ d = D + Z.of_nat i ∧ s = S + Z.of_nat i))|].
  - intros i [[m' d] s] Hi (Hc & -> & ->).
    bind_step. apply ld8_returns.
    { eapply copied_mapped; [|done|]; [|apply cp_msrc0; lia].
      eapply mapped_mono; [done|lia|lia]. }
    intros b Hb. bind_step. rewrite st8_Some.
    2:{ eapply copied_mapped; [|done|]; [|apply cp_mdst0; lia].
        eapply mapped_mono; [done|lia|lia]. }
    cbn [returns]. unwrap. split; [|lia].
    assert (m !! (S + Z.of_nat i) = Some b) as Hmb.
    { rewrite <-Hb, Hc. by rewrite decide_False by lia. }
    rewrite u8_small by (by eapply cp_bytes0). intros x.
    destruct (decide (x = D + Z.of_nat i)) as [->|].
    + rewrite lookup_insert_eq, decide_True by lia. rewrite <-Hmb. f_equal. lia.
    + rewrite lookup_insert_ne, Hc by done. repeat case_decide; try lia; done.
  - split; [by apply copied_0|lia].
  - intros [[m' d] s] (Hc & -> & ->). rewrite Z2Nat.id in * by lia. by apply HQ.
Qed.

Lemma BYTE_COPY_BWD_returns m D S n (Q : mem * Z * Z → Prop) :
  copyable m D S n → S ≤ D ∨ D + n ≤ S →
  (∀ m', copied m m' D S n → Q (m', D, S)) →
  returns (BYTE_COPY_BWD m (D + n) (S + n) n) Q.
Proof.
  intros [] Hov HQ. unfold BYTE_COPY_BWD.
  eapply returns_mono; [eapply (repeat_n_returns _ (λ i '(m', d, s),
    d = D + n - Z.of_nat i ∧ s = S + n - Z.of_nat i ∧ copied m m' d s (Z.of_nat i)))|].
  - intros i [[m' d] s] Hi (-> & -> & Hc).
    assert (mapped m (S + n - Z.of_nat i) (Z.of_nat i)) as Hms.
    { eapply mapped_mono; [done|lia|lia]. }
    bind_step. unwrap. apply ld8_returns.
    { eapply copied_mapped; [done..|]. apply cp_msrc0. lia. }
    intros b Hb. bind_step. rewrite st8_Some.
    2:{ eapply copied_mapped; [done..|]. apply cp_mdst0. lia. }
    cbn [returns]. split_and!; [lia|lia|].
    assert (m !! (S + n - Z.of_nat i - 1) = Some b) as Hmb.
    { rewrite <-Hb, Hc. by rewrite decide_False by lia. }
    rewrite u8_small by (by eapply cp_bytes0). intros x.
    destruct (decide (x = D + n - Z.of_nat i - 1)) as [->|].
    + rewrite lookup_insert_eq, decide_True by lia. rewrite <-Hmb. f_equal. lia.
    + rewrite lookup_insert_ne, Hc by done. repeat case_decide; try lia; try done.
      f_equal. lia.
  - split_and!; [lia|lia|by apply copied_0].
  - intros [[m' d] s] (-> & -> & Hc). rewrite Z2Nat.id in * by lia.
    replace (D + n - n) with D in * by lia. replace (S + n - n) with S in * by lia.
    by apply HQ.
Qed.

(** ** Word loops *)

Lemma step_up m D S n m' k w (Q : mem → Prop) a :
  copyable m D S n → 0 ≤ k → k + 8 ≤ n → copied m m' D S k → word_at m (S + k) w →
  a = D + k → (∀ m'', copied m m'' D S (k + 8) → Q m'') → returns (st64 m' a w) Q.
Proof.
  intros [] ?? Hc Hw -> HQ. eapply copied_st64_up; [lia|done|done| |by auto].
  intros x Hx. eapply copied_mapped; [|done|apply cp_mdst0; lia].
  apply (mapped_mono m S n); [done|lia|lia].
Qed.

Lemma step_down m D S n m' j w (Q : mem → Prop) a :
  copyable m D S n → 8 ≤ j ≤ n → copied m m' (D + j) (S + j) (n - j) →
  word_at m (S + j - 8) w → a = D + j - 8 →
  (∀ m'', copied m m'' (D + (j - 8)) (S + (j - 8)) (n - (j - 8)) → Q m'') →
  returns (st64 m' a w) Q.
Proof.
  intros [] ? Hc Hw -> HQ. eapply copied_st64_down; [|done|done| |].
  - lia.
  - intros x Hx. eapply copied_mapped; [|done|apply cp_mdst0; lia].
    apply (mapped_mono m S n); [done|lia|lia].
  - intros m'' Hc' _. apply HQ. intros x. rewrite (Hc' x).
    repeat case_decide; try lia; try done. f_equal. lia.
Qed.

(** Loads of a word of the original memory, in the two directions. *)
Lemma load_up m D S n m' k a b (Q : Z → Prop) :
  copyable m D S n → copied m m' D S k → mapped m a 8 → a + 8 ≤ D ∨ D + k ≤ a →
  b = a → (∀ w, word_at m a w → Q w) → returns (ld64 m' b) Q.
Proof. intros [] ??? ->. by eapply copied_ld64. Qed.

Lemma load_down m D S n m' j a b (Q : Z → Prop) :
  copyable m D S n → copied m m' (D + j) (S + j) (n - j) → mapped m a 8 →
  a + 8 ≤ D + j ∨ D + n ≤ a → b = a → (∀ w, word_at m a w → Q w) →
  returns (ld64 m' b) Q.
Proof. intros [] ??? ->. eapply copied_ld64; try done. lia. Qed.

Lemma load_now m a b (Q : Z → Prop) :
  bytes_ok m → mapped m a 8 → b = a → (∀ w, word_at m a w → Q w) →
  returns (ld64 m b) Q.
Proof.
  intros Hb Hm -> HQ. apply ld64_returns; [done..|]. intros w ??. by apply HQ.
Qed.

(** Entering a word loop on an even, non-zero number of words. *)
Lemma word_fuel_enough len : (Z.to_nat (len / 2) < word_fuel len)%nat.
Proof. unfold word_fuel. lia. Qed.

Section word_loops.
Context (m : mem) (D S L : Z).
Hypothesis HL : 1 ≤ L.
Hypothesis Hcp : copyable m D S (8 * L).
Hypothesis Hspace : 0 ≤ D ∧ D + 8 * L + 8 ≤ 2 ^ 64 ∧ 0 ≤ S ∧ S + 8 * L + 8 ≤ 2 ^ 64.

Let n := 8 * L.

Lemma src_word j : 0 ≤ j → j + 8 ≤ n → mapped m (S + j) 8.
Proof. intros. apply (mapped_mono m S n); [apply Hcp|lia|lia]. Qed.

Definition up_inv (m' : mem) (d s len : Z) : Prop :=
  d = D + 8 * (L - len) ∧ s = S + 8 * (L - len) ∧ 2 ≤ len ≤ L ∧ len mod 2 = 0 ∧
  copied m m' D S (8 * (L - len)).

Definition down_inv (m' : mem) (d s len : Z) : Prop :=
  d = D + 8 * len ∧ s = S + 8 * len ∧ 2 ≤ len ≤ L ∧ len mod 2 = 0 ∧
  copied m m' (D + 8 * len) (S + 8 * len) (n - 8 * len).

(** [_wordcopy_fwd_aligned] copies when the ranges do not overlap or the
    destination is the lower one. *)
Lemma wordcopy_fwd_aligned_returns (Q : mem → Prop) :
  D ≤ S ∨ S + n ≤ D → D mod 8 = 0 → S mod 8 = 0 →
  (∀ m', copied m m' D S n → Q m') →
  returns (_wordcopy_fwd_aligned m D S L) Q.
Proof.
  intros Hov HD HS HQ. unfold _wordcopy_fwd_aligned. set (body := λ '(_, _, _, _), _).
  assert (∀ m' d s len, up_inv m' d s len →
    returns (loop (word_fuel len) body (m', d, s, len)) Q) as Hloop.
  { intros m' d s len HI.
    apply (loop_returns _ (λ '(m', d, s, len), up_inv m' d s len)
             (λ '(_, _, _, len), Z.to_nat (len / 2))); [|done|apply word_fuel_enough].
    clear m' d s len HI. intros [[[m' d] s] len] (-> & -> & Hlen & Hev & Hc).
    remember (8 * (L - len)) as k eqn:Hk. unfold body, OPSIZ. unwrap.
    bind_step. eapply (load_up _ _ _ _ _ _ (S + k));
      [done|done|apply src_word; lia|lia|done|]. intros w0 Hw0.
    bind_step. eapply (load_up _ _ _ _ _ _ (S + (k + 8)));
      [done|done|apply src_word; lia|lia|lia|]. intros w1 Hw1.
    bind_step. eapply (step_up _ _ _ _ _ k); [done|lia|lia|done|done|done|]. intros m1 Hc1.
    bind_step. eapply (step_up _ _ _ _ _ (k + 8)); [done|lia|lia|done|done|lia|]. intros m2 Hc2.
    destruct (Z.eqb_spec (len - 2) 0); cbn [returns].
    - apply HQ. by replace n with (k + 8 + 8) by lia.
    - split; [|dlia]. unfold up_inv.
      replace (8 * (L - (len - 2))) with (k + 8 + 8) by lia.
      split_and!; [lia|lia|dlia|dlia|dlia|done]. }
  rewrite has_1. destruct (Z.eqb_spec (L mod 2) 0); simpl negb; cbv iota.
  { apply Hloop. unfold up_inv. rewrite Z.sub_diag.
    split_and!; [lia|lia|dlia|lia|done|by apply copied_0]. }
  bind_step. eapply (load_now _ (S + 0)); [apply Hcp|apply src_word; lia|lia|].
  intros w Hw. bind_step.
  eapply (step_up _ _ _ _ _ 0); [done|lia|lia|by apply copied_0|done|lia|].
  intros m1 Hc1. destruct (Z.eqb_spec L 1) as [->|]; [by apply HQ|].
  unfold OPSIZ. unwrap. apply Hloop. unfold up_inv.
  replace (8 * (L - (L - 1))) with 8 by lia. split_and!; [lia|lia|dlia|dlia|dlia|done].
Qed.

(** [_wordcopy_bwd_aligned] copies when the ranges do not overlap or the
    destination is the upper one. *)
Lemma wordcopy_bwd_aligned_returns (Q : mem → Prop) :
  S ≤ D ∨ D + n ≤ S → D mod 8 = 0 → S mod 8 = 0 →
  (∀ m', copied m m' D S n → Q m') →
  returns (_wordcopy_bwd_aligned m (D + n) (S + n) L) Q.
Proof.
  intros Hov HD HS HQ. unfold _wordcopy_bwd_aligned. set (body := λ '(_, _, _, _), _).
  assert (∀ m' d s len, down_inv m' d s len →
    returns (loop (word_fuel len) body (m', d, s, len)) Q) as Hloop.
  { intros m' d s len HI.
    apply (loop_returns _ (λ '(m', d, s, len), down_inv m' d s len)
             (λ '(_, _, _, len), Z.to_nat (len / 2))); [|done|apply word_fuel_enough].
    clear m' d s len HI. intros [[[m' d] s] len] (-> & -> & Hlen & Hev & Hc).
    remember (8 * len) as j eqn:Hj. unfold body, OPSIZ. unwrap.
    bind_step. eapply (load_down _ _ _ _ _ _ (S + (j - 8)));
      [done|done|apply src_word; lia|lia|lia|]. intros w1 Hw1.
    bind_step. eapply (load_down _ _ _ _ _ _ (S + (j - 8 - 8)));
      [done|done|apply src_word; lia|lia|lia|]. intros w0 Hw0.
    bind_step. eapply (step_down _ _ _ _ _ j);
      [done|lia|done|by rewrite <-Z.add_sub_assoc|lia|]. intros m1 Hc1.
    bind_step. eapply (step_down _ _ _ _ _ (j - 8));
      [done|lia|done|by rewrite <-Z.add_sub_assoc|lia|]. intros m2 Hc2.
    destruct (Z.eqb_spec (len - 2) 0); cbn [returns].
    - apply HQ. replace (j - 8 - 8) with 0 in Hc2 by lia.
      by rewrite !Z.add_0_r, Z.sub_0_r in Hc2.
    - split; [|dlia]. unfold down_inv.
      replace (8 * (len - 2)) with (j - 8 - 8) by lia.
      split_and!; [lia|lia|dlia|dlia|dlia|done]. }
  assert (copied m m (D + n) (S + n) (n - n)) as Hc0 by (apply copied_0; lia).
  rewrite has_1. destruct (Z.eqb_spec (L mod 2) 0); simpl negb; cbv iota.
  { apply Hloop. unfold down_inv. split_and!; [lia|lia|dlia|lia|done|done]. }
  unfold OPSIZ. unwrap. bind_step. eapply (load_now _ (S + (n - 8)));
    [apply Hcp|apply src_word; lia|lia|].
  intros w Hw. bind_step. eapply (step_down _ _ _ _ _ n);
    [done|lia|done|by rewrite <-Z.add_sub_assoc|lia|].
  intros m1 Hc1. destruct (Z.eqb_spec L 1) as [HL1|].
  { apply HQ. replace (n - 8) with 0 in Hc1 by lia.
    by rewrite !Z.add_0_r, Z.sub_0_r in Hc1. }
  unwrap. apply Hloop. unfold down_inv.
  replace (8 * (L - 1)) with (n - 8) by lia. split_and!; [lia|lia|dlia|dlia|dlia|done].
Qed.

(** The source is not aligned: the routines read the aligned words around it. *)
Context (Hwm : word_mapped m) (Hr : S mod 8 ≠ 0).

Let B := S - S mod 8.

Lemma src_block j : 0 ≤ j ≤ n → j mod 8 = 0 → mapped m (B + j) 8.
Proof.
  intros. apply (block_mapped m S n); try done; try (subst n; dlia). apply Hcp.
Qed.

Lemma src_merge j w0 w1 :
  word_at m (B + j) w0 → word_at m (B + (j + 8)) w1 →
  word_at m (S + j) (MERGE w0 (8 * (S mod 8)) w1 (8 * 8 - 8 * (S mod 8))).
Proof.
  intros H0 H1. replace (S + j) with (B + j + S mod 8) by (unfold B; lia).
  pose proof (Z.mod_pos_bound S 8). apply (word_at_MERGE _ _ (S mod 8)); [lia|done|].
  by replace (B + j + 8) with (B + (j + 8)) by lia.
Qed.

Definition up_merge_inv (m' : mem) (d s len a0 : Z) : Prop :=
  d = D + 8 * (L - len) ∧ s = B + 8 * (L - len) ∧ 2 ≤ len ≤ L ∧ len mod 2 = 0 ∧
  word_at m (B + 8 * (L - len)) a0 ∧ copied m m' D S (8 * (L - len)).

Lemma wordcopy_fwd_dest_aligned_returns (Q : mem → Prop) :
  D ≤ S ∨ S + n ≤ D → D mod 8 = 0 →
  (∀ m', copied m m' D S n → Q m') →
  returns (_wordcopy_fwd_dest_aligned m D S L) Q.
Proof.
  intros Hov HD HQ. unfold _wordcopy_fwd_dest_aligned.
  rewrite land_opsiz_mask by lia. fold B.
  assert (0 ≤ B ≤ S ∧ S < B + 8 ∧ B mod 8 = 0) as HB by (unfold B; dlia).
  bind_step. eapply (load_now _ (B + 0)); [apply Hcp|apply src_block; [lia|done]|lia|].
  intros w0 Hw0. set (body := λ '(_, _, _, _, _), _).
  assert (∀ m' d s len a0, up_merge_inv m' d s len a0 →
    returns (loop (word_fuel len) body (m', d, s, len, a0)) Q) as Hloop.
  { clear w0 Hw0. intros m' d s len a0 HI.
    apply (loop_returns _ (λ '(m', d, s, len, a0), up_merge_inv m' d s len a0)
             (λ '(_, _, _, len, _), Z.to_nat (len / 2))); [|done|apply word_fuel_enough].
    clear m' d s len a0 HI.
    intros [[[[m' d] s] len] a0] (-> & -> & Hlen & Hev & Ha0 & Hc).
    remember (8 * (L - len)) as k eqn:Hk. unfold body. unfold OPSIZ. unwrap.
    bind_step. eapply (load_up _ _ _ _ _ _ (B + (k + 8)));
      [done|done|apply src_block; [lia|dlia]|dlia|lia|]. intros w1 Hw1.
    bind_step. eapply (load_up _ _ _ _ _ _ (B + (k + 8 + 8)));
      [done|done|apply src_block; [lia|dlia]|dlia|lia|]. intros w2 Hw2.
    bind_step. eapply (step_up _ _ _ _ _ k);
      [done|lia|lia|done|by apply src_merge|done|]. intros m1 Hc1.
    bind_step. eapply (step_up _ _ _ _ _ (k + 8));
      [done|lia|lia|done|by apply src_merge|lia|]. intros m2 Hc2.
    destruct (Z.eqb_spec (len - 2) 0); cbn [returns].
    - apply HQ. by replace n with (k + 8 + 8) by lia.
    - split; [|dlia]. unfold up_merge_inv.
      replace (8 * (L - (len - 2))) with (k + 8 + 8) by lia.
      split_and!; [lia|lia|dlia|dlia|dlia|done|done]. }
  rewrite has_1. destruct (Z.eqb_spec (L mod 2) 0); simpl negb; cbv iota.
  { apply Hloop. unfold up_merge_inv. rewrite Z.sub_diag, Z.mul_0_r.
    split_and!; [lia|lia|dlia|lia|done|done|by apply copied_0]. }
  unfold OPSIZ. unwrap. bind_step. eapply (load_now _ (B + (0 + 8)));
    [apply Hcp|apply src_block; [lia|done]|lia|].
  intros w1 Hw1. bind_step.
  eapply (step_up _ _ _ _ _ 0); [done|lia|lia|by apply copied_0| |lia|].
  { by apply src_merge. }
  intros m1 Hc1. destruct (Z.eqb_spec L 1) as [->|]; [by apply HQ|].
  unfold OPSIZ. unwrap. apply Hloop. unfold up_merge_inv.
  replace (8 * (L - (L - 1))) with 8 by lia.
  split_and!; [lia|lia|dlia|dlia|dlia|done|done].
Qed.
Definition down_merge_inv (m' : mem) (d s len a2 : Z) : Prop :=
  d = D + 8 * len ∧ s = B + 8 * len ∧ 2 ≤ len ≤ L ∧ len mod 2 = 0 ∧
  word_at m (B + 8 * len) a2 ∧ copied m m' (D + 8 * len) (S + 8 * len) (n - 8 * len).

Lemma src_merge_down j w0 w1 :
  word_at m (B + (j - 8)) w0 → word_at m (B + j) w1 →
  word_at m (S + j - 8) (MERGE w0 (8 * (S mod 8)) w1 (8 * 8 - 8 * (S mod 8))).
Proof.
  intros H0 H1. replace (S + j - 8) with (S + (j - 8)) by lia.
  apply src_merge; [done|]. by replace (j - 8 + 8) with j by lia.
Qed.

Lemma wordcopy_bwd_dest_aligned_returns (Q : mem → Prop) :
  S ≤ D ∨ D + n ≤ S → D mod 8 = 0 →
  (∀ m', copied m m' D S n → Q m') →
  returns (_wordcopy_bwd_dest_aligned m (D + n) (S + n) L) Q.
Proof.
  intros Hov HD HQ. unfold _wordcopy_bwd_dest_aligned.
  rewrite land_opsiz_mask by lia.
  replace ((S + n) mod OPSIZ) with (S mod 8) by (unfold OPSIZ; dlia).
  replace (S + n - (S + n) mod 8) with (B + n) by (unfold B; dlia).
  assert (0 ≤ B ≤ S ∧ S < B + 8 ∧ B mod 8 = 0) as HB by (unfold B; dlia).
  bind_step. eapply (load_now _ (B + n));
    [apply Hcp|apply src_block; [lia|dlia]|lia|].
  intros wn Hwn. set (body := λ '(_, _, _, _, _), _).
  assert (∀ m' d s len a2, down_merge_inv m' d s len a2 →
    returns (loop (word_fuel len) body (m', d, s, len, a2)) Q) as Hloop.
  { clear wn Hwn. intros m' d s len a2 HI.
    apply (loop_returns _ (λ '(m', d, s, len, a2), down_merge_inv m' d s len a2)
             (λ '(_, _, _, len, _), Z.to_nat (len / 2))); [|done|apply word_fuel_enough].
    clear m' d s len a2 HI.
    intros [[[[m' d] s] len] a2] (-> & -> & Hlen & Hev & Ha2 & Hc).
    remember (8 * len) as j eqn:Hj. unfold body, OPSIZ. unwrap.
    bind_step. eapply (load_down _ _ _ _ _ _ (B + (j - 8)));
      [done|done|apply src_block; [lia|dlia]|dlia|lia|]. intros w1 Hw1.
    bind_step. eapply (load_down _ _ _ _ _ _ (B + (j - 8 - 8)));
      [done|done|apply src_block; [lia|dlia]|dlia|lia|]. intros w0 Hw0.
    bind_step. eapply (step_down _ _ _ _ _ j);
      [done|lia|done|by apply src_merge_down|lia|]. intros m1 Hc1.
    bind_step. eapply (step_down _ _ _ _ _ (j - 8));
      [done|lia|done|by apply src_merge_down|lia|]. intros m2 Hc2.
    destruct (Z.eqb_spec (len - 2) 0); cbn [returns].
    - apply HQ. replace (j - 8 - 8) with 0 in Hc2 by lia.
      by rewrite !Z.add_0_r, Z.sub_0_r in Hc2.
    - split; [|dlia]. unfold down_merge_inv.
      replace (8 * (len - 2)) with (j - 8 - 8) by lia.
      split_and!; [lia|lia|dlia|dlia|dlia|done|done]. }
  assert (copied m m (D + n) (S + n) (n - n)) as Hc0 by (apply copied_0; lia).
  rewrite has_1. destruct (Z.eqb_spec (L mod 2) 0); simpl negb; cbv iota.
  { apply Hloop. unfold down_merge_inv. split_and!; [lia|lia|dlia|lia|done|done|done]. }
  unfold OPSIZ. unwrap. bind_step. eapply (load_now _ (B + (n - 8)));
    [apply Hcp|apply src_block; [lia|dlia]|lia|].
  intros w1 Hw1. bind_step. eapply (step_down _ _ _ _ _ n);
    [done|lia|done|by apply src_merge_down|lia|].
  intros m1 Hc1. destruct (Z.eqb_spec L 1) as [HL1|].
  { apply HQ. replace (n - 8) with 0 in Hc1 by lia.
    by rewrite !Z.add_0_r, Z.sub_0_r in Hc1. }
  unwrap. apply Hloop. unfold down_merge_inv.
  replace (8 * (L - 1)) with (n - 8) by lia.
  split_and!; [lia|lia|dlia|dlia|dlia|done|done].
Qed.
End word_loops.

(** ** The copy macros and the library functions *)

(** What a caller of a copy routine owes: ranges that can be accessed and end
    at least a word below the top of the address space. *)
Record copy_pre (m : mem) (D S n : Z) : Prop := CopyPre {
  pre_copyable :> copyable m D S n;
  pre_words : word_mapped m;
  pre_dst : D + n + 8 ≤ 2 ^ 64;
  pre_src : S + n + 8 ≤ 2 ^ 64;
}.

Lemma copy_pre_sub m m' D S n D' S' i j k :
  0 ≤ j → 0 ≤ k → j + k ≤ n → copy_pre m D S n →
  D ≤ D' → D' + i ≤ D + n → S ≤ S' → S' + i ≤ S + n → copied m m' D' S' i →
  copy_pre m' (D + j) (S + j) k.
Proof.
  intros ??? [Hc Hw ??] ?????. 
  assert (mapped m S' i) by (apply (mapped_mono m S n); [apply Hc|lia|lia]).
  assert (mapped m D' i) by (apply (mapped_mono m D n); [apply Hc|lia|lia]).
  split; try lia.
  - apply copyable_sub with n; try lia. by apply (copyable_copied m m' D S n D' S' i).
  - by apply (word_mapped_copied m m' D' S' i).
Qed.

Lemma copy_pre_mono m D S n j k :
  0 ≤ j → 0 ≤ k → j + k ≤ n → copy_pre m D S n → copy_pre m (D + j) (S + j) k.
Proof.
  intros. apply (copy_pre_sub m m D S n D S 0); try done; try lia. by apply copied_0.
Qed.

Lemma copy_pre_prefix m D S n k : 0 ≤ k ≤ n → copy_pre m D S n → copy_pre m D S k.
Proof.
  intros ? H. rewrite <-(Z.add_0_r D), <-(Z.add_0_r S).
  apply copy_pre_mono with n; [lia..|done].
Qed.

Lemma WORD_COPY_FWD_returns m D S n (Q : mem * Z * Z * Z → Prop) :
  copy_pre m D S n → 8 ≤ n → D mod 8 = 0 → D ≤ S ∨ S + n ≤ D →
  (∀ m', copied m m' D S (8 * (n / 8)) →
     Q (m', D + 8 * (n / 8), S + 8 * (n / 8), n mod 8)) →
  returns (WORD_COPY_FWD m D S n) Q.
Proof.
  intros Hpre Hn HD Hov HQ. destruct (Hpre) as [[] Hw ??].
  assert (copyable m D S (8 * (n / 8))) as Hc.
  { rewrite <-(Z.add_0_r D), <-(Z.add_0_r S). apply copyable_sub with n; [dlia..|apply Hpre]. }
  unfold WORD_COPY_FWD. rewrite land_opsiz_mask by lia. unfold OPSIZ.
  replace (n - n mod 8) with (8 * (n / 8)) by dlia.
  bind_step. destruct (Z.eqb_spec (S mod 8) 0);
    [apply wordcopy_fwd_aligned_returns|apply wordcopy_fwd_dest_aligned_returns];
    try done; try dlia; intros m' Hm'; rewrite !u64_small by dlia; by apply HQ.
Qed.

Lemma WORD_COPY_BWD_returns m D S n (Q : mem * Z * Z * Z → Prop) :
  copy_pre m D S n → 8 ≤ n → (D + n) mod 8 = 0 → S ≤ D →
  (∀ m', copied m m' (D + n mod 8) (S + n mod 8) (8 * (n / 8)) →
     Q (m', D + n mod 8, S + n mod 8, n mod 8)) →
  returns (WORD_COPY_BWD m (D + n) (S + n) n) Q.
Proof.
  intros Hpre Hn HD Hov HQ. destruct (Hpre) as [[] Hw ??].
  assert (copyable m (D + n mod 8) (S + n mod 8) (8 * (n / 8))) as Hc.
  { apply copyable_sub with n; [dlia..|apply Hpre]. }
  unfold WORD_COPY_BWD. rewrite land_opsiz_mask by lia. unfold OPSIZ.
  replace (n - n mod 8) with (8 * (n / 8)) by dlia.
  replace (D + n) with (D + n mod 8 + 8 * (n / 8)) in * by dlia.
  replace (S + n) with (S + n mod 8 + 8 * (n / 8)) in * by dlia.
  bind_step. destruct (Z.eqb_spec ((S + n mod 8 + 8 * (n / 8)) mod 8) 0);
    [apply wordcopy_bwd_aligned_returns|apply wordcopy_bwd_dest_aligned_returns];
    try done; try dlia; intros m' Hm'; rewrite !u64_small by dlia;
    rewrite !Z.add_simpl_r; by apply HQ.
Qed.

Lemma memcpy_returns m D S n (Q : mem * Z → Prop) :
  copy_pre m D S n → D ≤ S ∨ S + n ≤ D →
  (∀ m', copied m m' D S n → Q (m', D)) →
  returns (memcpy m D S n) Q.
Proof.
  intros Hpre Hov HQ. destruct (Hpre) as [[] Hw ??]. unfold memcpy, OP_T_THRES.
  bind_step. destruct (Z.leb_spec 16 n).
  2:{ simpl. bind_step. apply BYTE_COPY_FWD_returns; [apply Hpre|done|].
      intros m' Hm'. by apply HQ. }
  set (k := u64 (- D) mod OPSIZ).
  assert (0 ≤ k < 8 ∧ (D + k) mod 8 = 0) as Hk.
  { subst k. unfold u64, OPSIZ. split; [by apply Z.mod_pos_bound|dlia]. }
  assert (copy_pre m D S k) as Hk0.
  { apply copy_pre_prefix with n; [lia|done]. }
  bind_step. apply BYTE_COPY_FWD_returns; [apply Hk0|lia|]. intros m1 Hm1. unwrap.
  destruct (Hk0) as [[]].
  apply WORD_COPY_FWD_returns;
    [apply (copy_pre_sub m m1 D S n D S k); try done; lia|lia|lia|lia|].
  intros m2 Hm2. set (l := 8 * ((n - k) / 8)) in *.
  assert (0 ≤ l ∧ k + l + (n - k) mod 8 = n) as Hl by (subst l; dlia).
  pose proof (Z.mod_pos_bound (n - k) 8 ltac:(lia)).
  assert (copied m m2 D S (k + l)) as Hm12.
  { apply (copied_trans_up m m1 m2); try done; lia. }
  bind_step. rewrite <-!(Z.add_assoc _ k l).
  apply BYTE_COPY_FWD_returns; [|lia|].
  { apply (copy_pre_sub m m2 D S n D S (k + l)); try done; lia. }
  intros m3 Hm3. apply HQ. replace n with (k + l + (n - k) mod 8) by lia.
  apply (copied_trans_up m m2 m3); try done; lia.
Qed.

(** The part of [memmove] that goes backward in words, from the ends. *)
Lemma memmove_bwd_words m D S n (Q : mem * Z * Z * Z → Prop) :
  copy_pre m D S n → S ≤ D → 16 ≤ n →
  (∀ m' r, 0 ≤ r < 8 → copied m m' (D + r) (S + r) (n - r) → Q (m', D + r, S + r, r)) →
  returns
    ('(m, destp, srcp) ← BYTE_COPY_BWD m (D + n) (S + n) ((D + n) mod OPSIZ);
     WORD_COPY_BWD m destp srcp (n - (D + n) mod OPSIZ)) Q.
Proof.
  intros Hpre Hov Hn HQ. destruct (Hpre) as [[] Hw ??].
  set (k := (D + n) mod OPSIZ).
  assert (0 ≤ k < 8 ∧ (D + (n - k)) mod 8 = 0) as Hk by (subst k; unfold OPSIZ; dlia).
  replace (D + n) with (D + (n - k) + k) by lia.
  replace (S + n) with (S + (n - k) + k) by lia.
  bind_step. apply BYTE_COPY_BWD_returns; [|lia|].
  { apply copyable_sub with n; try lia. apply Hpre. }
  intros m1 Hm1. assert (copy_pre m1 (D + 0) (S + 0) (n - k)) as Hpre1.
  { apply (copy_pre_sub m m1 D S n (D + (n - k)) (S + (n - k)) k); try done; lia. }
  rewrite !Z.add_0_r in Hpre1.
  apply WORD_COPY_BWD_returns; [done|lia|lia|done|].
  intros m2 Hm2. apply HQ; [by apply Z.mod_pos_bound|].
  replace (n - (n - k) mod 8) with (k + 8 * ((n - k) / 8)) by dlia.
  apply (copied_trans_down m m1 m2); try done; try dlia.
  by replace (D + (n - k) mod 8 + 8 * ((n - k) / 8)) with (D + (n - k)) by dlia;
    replace (S + (n - k) mod 8 + 8 * ((n - k) / 8)) with (S + (n - k)) by dlia.
Qed.

Lemma memmove_returns m D S n (Q : mem * Z → Prop) :
  copy_pre m D S n → (∀ m', copied m m' D S n → Q (m', D)) →
  returns (memmove m D S n) Q.
Proof.
  intros Hpre HQ. destruct (Hpre) as [[] Hw ??]. unfold memmove, OP_T_THRES.
  destruct (Z.leb_spec n (u64 (D - S))) as [Hd|Hd].
  { bind_step. apply memcpy_returns; [done| |].
    - destruct (decide (D ≤ S)); [by left|right]. rewrite u64_small in Hd by lia. lia.
    - intros m' Hm'. by apply HQ. }
  assert (S ≤ D) as Hov.
  { destruct (decide (S ≤ D)); [done|]. exfalso. revert Hd. unfold u64.
    rewrite <-(Z.mod_add _ 1) by lia. rewrite Z.mod_small by lia. lia. }
  unwrap. bind_step. destruct (Z.leb_spec 16 n).
  2:{ cbn [returns]. bind_step. apply BYTE_COPY_BWD_returns; [apply Hpre|by left|].
      intros m' Hm'. by apply HQ. }
  pose proof (Z.mod_pos_bound (D + n) OPSIZ ltac:(done)).
  rewrite (u64_small (n - _)) by (unfold OPSIZ in *; lia).
  apply memmove_bwd_words; [done..|]. intros m1 r Hr Hm1.
  bind_step. apply BYTE_COPY_BWD_returns; [|by left|].
  { rewrite <-(Z.add_0_r D), <-(Z.add_0_r S).
    apply (copy_pre_sub m m1 D S n (D + r) (S + r) (n - r)); try done; lia. }
  intros m2 Hm2. apply HQ. replace n with (n - r + r) by lia.
  apply (copied_trans_down m m1 m2); try done; lia.
Qed.

(** ** Concrete inputs *)

Lemma copy_pre_mem_of a l D S n :
  a mod 8 = 0 → Z.of_nat (length l) mod 8 = 0 → Forall (λ b, 0 ≤ b < 2 ^ 8) l →
  0 ≤ a → a + Z.of_nat (length l) + 8 ≤ 2 ^ 64 → 0 ≤ n →
  a ≤ D → D + n ≤ a + Z.of_nat (length l) →
  a ≤ S → S + n ≤ a + Z.of_nat (length l) → copy_pre (mem_of a l) D S n.
Proof.
  intros Ha Hl Hb ???????. split; try lia; [|by apply mem_of_word_mapped].
  split; try lia; [by apply mem_of_bytes_ok|..]; intros x Hx; apply mem_of_is_Some; lia.
Qed.

Definition sample_mem : mem := mem_of 4096 (seqZ 0 64).

Lemma sample_copy_pre D S n :
  0 ≤ n → 4096 ≤ D → D + n ≤ 4160 → 4096 ≤ S → S + n ≤ 4160 →
  copy_pre sample_mem D S n.
Proof.
  intros. apply copy_pre_mem_of; try done; try (simpl; lia).
  apply (bool_decide_unpack _). by vm_compute.
Qed.

(** * Properties *)

(** C13. [memmove] copies [n] bytes from [S] to [D] whatever the overlap of the
    two ranges, their alignment and the length: it returns [D], the bytes at
    [D] become those that were at [S] before the call, and no other byte of
    memory changes.  In particular no access leaves the mapped words around
    the two ranges, and every loop of the routine ends. *)
Theorem memmove_copies m D S n :
  copy_pre m D S n →
  ∃ m', memmove m D S n = Ok (m', D) ∧ copied m m' D S n.
Proof.
  intros Hpre.
  destruct (returns_inv _ (λ '(m', d), d = D ∧ copied m m' D S n)
    (memmove_returns m D S n _ Hpre (λ m' Hm', conj eq_refl Hm')))
    as ([m' d] & Hr & -> & Hm').
  by exists m'.
Qed.

Lemma memmove_copies_witness :
  copy_pre sample_mem 4101 4098 41 ∧
  ∃ m', memmove sample_mem 4101 4098 41 = Ok (m', 4101) ∧
        copied sample_mem m' 4101 4098 41.
Proof.
  split; [apply sample_copy_pre; lia|].
  apply memmove_copies. apply sample_copy_pre; lia.
Defined.

(** C29. [memcpy] has the same effect when the destination does not start
    inside the source: its fast path (aligning the destination, then copying
    words, merging two source words when the source is not aligned) is
    equivalent to a byte copy. *)
Theorem memcpy_copies m D S n :
  copy_pre m D S n → D ≤ S ∨ S + n ≤ D →
  ∃ m', memcpy m D S n = Ok (m', D) ∧ copied m m' D S n.
Proof.
  intros Hpre Hov.
  destruct (returns_inv _ (λ '(m', d), d = D ∧ copied m m' D S n)
    (memcpy_returns m D S n _ Hpre Hov (λ m' Hm', conj eq_refl Hm')))
    as ([m' d] & Hr & -> & Hm').
  by exists m'.
Qed.

Lemma memcpy_copies_witness :
  copy_pre sample_mem 4129 4098 29 ∧
  ∃ m', memcpy sample_mem 4129 4098 29 = Ok (m', 4129) ∧
        copied sample_mem m' 4129 4098 29.
Proof.
  split; [apply sample_copy_pre; lia|].
  apply memcpy_copies; [apply sample_copy_pre; lia|lia].
Defined.
