(* ===== verification/MemSet.v ===== *)
(** * Filling memory: [libc/string/memset.c]

    The routine fills words once the destination is aligned.  Its alignment
    loop counts down [len], which the next statement overwrites, instead of
    [length]; the theorems say exactly what is filled. *)
From S2P Require Import Prelude Mem MemCopy.

(** The fill byte repeated in a word. *)
Definition memset_word (c : Z) : Z :=
  let word := u8 c in
  let word := Z.lor word (u64 (Z.shiftl word 8)) in
  let word := Z.lor word (u64 (Z.shiftl word 16)) in
  if 4 <? OPSIZ
  then Z.lor word (u64 (Z.shiftl (u64 (Z.shiftl word 16)) 16))
  else word.

(** [while(destp % OPSIZ != 0)]; at most seven turns. *)
Definition memset_align (m : mem) (destp c len : Z) : outcome (mem * Z * Z) :=
  loop 8
    (λ '(m, destp, len),
       if destp mod OPSIZ =? 0 then Ok (inr (m, destp, len)) else
       m ← st8 m destp c;
       Ok (inl (m, u64 (destp + 1), u64 (len - 1))))
    (m, destp, len).

(** Eight words a turn. *)
Definition memset_unrolled (m : mem) (destp word len : Z) : outcome (mem * Z) :=
  repeat_n (Z.to_nat len)
    (λ '(m, destp),
       m ← st64 m destp word;
       m ← st64 m (u64 (destp + 1 * OPSIZ)) word;
       m ← st64 m (u64 (destp + 2 * OPSIZ)) word;
       m ← st64 m (u64 (destp + 3 * OPSIZ)) word;
       m ← st64 m (u64 (destp + 4 * OPSIZ)) word;
       m ← st64 m (u64 (destp + 5 * OPSIZ)) word;
       m ← st64 m (u64 (destp + 6 * OPSIZ)) word;
       m ← st64 m (u64 (destp + 7 * OPSIZ)) word;
       Ok (m, u64 (destp + 8 * OPSIZ)))
    (m, destp).

Definition memset_words (m : mem) (destp word len : Z) : outcome (mem * Z) :=
  repeat_n (Z.to_nat len)
    (λ '(m, destp), m ← st64 m destp word; Ok (m, u64 (destp + OPSIZ)))
    (m, destp).

Definition memset_bytes (m : mem) (destp c length : Z) : outcome (mem * Z) :=
  repeat_n (Z.to_nat length)
    (λ '(m, destp), m ← st8 m destp c; Ok (m, u64 (destp + 1)))
    (m, destp).

Definition memset (m : mem) (dest c length : Z) : outcome (mem * Z) :=
  let destp := dest in
  '(m, destp, length) ←
    (if 8 <=? length then
       let len := 0 in
       let word := memset_word c in
       '(m, destp, len) ← memset_align m destp c len;
       let len := length / (OPSIZ * 8) in
       '(m, destp) ← memset_unrolled m destp word len;
       let length := length mod (OPSIZ * 8) in
       let len := length / OPSIZ in
       '(m, destp) ← memset_words m destp word len;
       let length := length mod OPSIZ in
       Ok (m, destp, length)
     else Ok (m, destp, length));
  '(m, destp) ← memset_bytes m destp c length;
  Ok (m, dest).

(** * Lemmas *)

Lemma memset_word_byte c i : 0 ≤ i < 8 → byte_of (memset_word c) i = u8 c.
Proof.
  intros Hi. pose proof (u8_range c) as Hc.
  replace (memset_word c) with (memset_word (u8 c)) by (unfold memset_word; by rewrite u8_idemp).
  assert (∀ x, 0 ≤ x < 0 + 2048 → byte_of (memset_word (x / 8)) (x mod 8) = x / 8) as Hall.
  { apply (forall_range (λ x, byte_of (memset_word (x / 8)) (x mod 8) = x / 8)).
    by vm_compute. }
  specialize (Hall (8 * u8 c + i) ltac:(lia)).
  replace ((8 * u8 c + i) / 8) with (u8 c) in Hall by dlia.
  by replace ((8 * u8 c + i) mod 8) with i in Hall by dlia.
Qed.

(** A destination range that can be filled. *)
Record fillable (m : mem) (D n : Z) : Prop := Fillable {
  fl_len : 0 ≤ n;
  fl_dst : 0 ≤ D ∧ D + n < 2 ^ 64;
  fl_map : mapped m D n;
}.

Lemma fillable_filled m m' D n v D' k :
  fillable m D n → filled m m' D' v k → fillable m' D n.
Proof.
  intros [] Hf. split; [done..|]. eapply mapped_same_dom; [|done].
  intros x. by eapply filled_mapped.
Qed.

Lemma fillable_sub m D n j k :
  0 ≤ j → 0 ≤ k → j + k ≤ n → fillable m D n → fillable m (D + j) k.
Proof.
  intros ??? []. split; [lia|lia|]. apply (mapped_mono m D n); [done|lia|lia].
Qed.

(** One store extends the filled range. *)
Lemma fill_st8 m m0 D n k c a (Q : mem → Prop) :
  fillable m0 D n → filled m0 m D (u8 c) k → 0 ≤ k → k + 1 ≤ n → a = D + k →
  (∀ m', filled m0 m' D (u8 c) (k + 1) → Q m') → returns (st8 m a c) Q.
Proof.
  intros [] Hf ?? -> HQ. rewrite st8_Some.
  2:{ eapply filled_mapped; [done|]. apply fl_map0. lia. }
  apply HQ. intros x. destruct (decide (x = D + k)) as [->|].
  - by rewrite lookup_insert_eq, decide_True by lia.
  - rewrite lookup_insert_ne, Hf by done. repeat case_decide; try lia; done.
Qed.

Lemma fill_st64 m m0 D n k c a (Q : mem → Prop) :
  fillable m0 D n → filled m0 m D (u8 c) k → 0 ≤ k → k + 8 ≤ n → a = D + k →
  (∀ m', filled m0 m' D (u8 c) (k + 8) → Q m') → returns (st64 m a (memset_word c)) Q.
Proof.
  intros [] Hf ?? -> HQ. apply st64_returns.
  { intros x Hx. eapply filled_mapped; [done|]. apply fl_map0. lia. }
  intros m' Hm'. apply HQ. intros x. rewrite Hm', Hf.
  repeat case_decide; try lia; try done. by rewrite memset_word_byte by lia.
Qed.

Lemma memset_align_returns m D c len n (Q : mem * Z * Z → Prop) :
  fillable m D n → (- D) mod 8 ≤ n →
  (∀ m' len', filled m m' D (u8 c) ((- D) mod 8) → Q (m', D + (- D) mod 8, len')) →
  returns (memset_align m D c len) Q.
Proof.
  intros Hfl Hn HQ. destruct (Hfl) as [? ? _]. unfold memset_align.
  apply (loop_returns _ (λ '(m', d, _), ∃ k, 0 ≤ k ≤ (- D) mod 8 ∧ d = D + k ∧
     filled m m' D (u8 c) k) (λ '(_, d, _), Z.to_nat ((- d) mod 8))).
  2:{ exists 0. pose proof (Z.mod_pos_bound (- D) 8).
      split_and!; [lia|lia|lia|by apply filled_0]. }
  2:{ pose proof (Z.mod_pos_bound (- D) 8). lia. }
  intros [[m' d] len'] (k & Hk & -> & Hf). unfold OPSIZ.
  destruct (Z.eqb_spec ((D + k) mod 8) 0); cbn [returns].
  { replace k with ((- D) mod 8) in * by dlia. by apply HQ. }
  assert (k + 1 ≤ (- D) mod 8) by dlia.
  bind_step. eapply fill_st8; [done|done|lia|lia|done|]. intros m1 Hf1.
  unwrap. cbn [returns]. split; [|dlia].
  exists (k + 1). split_and!; [lia|dlia|lia|done].
Qed.

Lemma memset_bytes_returns m D c n (Q : mem * Z → Prop) :
  fillable m D n → (∀ m', filled m m' D (u8 c) n → Q (m', D + n)) →
  returns (memset_bytes m D c n) Q.
Proof.
  intros Hfl HQ. destruct (Hfl) as [? ? _]. unfold memset_bytes.
  eapply returns_mono; [eapply (repeat_n_returns _ (λ i '(m', d),
    d = D + Z.of_nat i ∧ filled m m' D (u8 c) (Z.of_nat i)))|].
  - intros i [m' d] Hi (-> & Hf). bind_step.
    eapply fill_st8; [done|done|lia|lia|done|]. intros m1 Hf1. unwrap.
    cbn [returns]. split; [lia|]. by replace (Z.of_nat (S i)) with (Z.of_nat i + 1) by lia.
  - split; [lia|by apply filled_0].
  - intros [m' d] (-> & Hf). rewrite Z2Nat.id in * by lia. by apply HQ.
Qed.

Lemma memset_words_returns m D c len (Q : mem * Z → Prop) :
  0 ≤ len → fillable m D (8 * len) →
  (∀ m', filled m m' D (u8 c) (8 * len) → Q (m', D + 8 * len)) →
  returns (memset_words m D (memset_word c) len) Q.
Proof.
  intros Hlen Hfl HQ. destruct (Hfl) as [? ? _]. unfold memset_words, OPSIZ.
  eapply returns_mono; [eapply (repeat_n_returns _ (λ i '(m', d),
    d = D + 8 * Z.of_nat i ∧ filled m m' D (u8 c) (8 * Z.of_nat i)))|].
  - intros i [m' d] Hi (-> & Hf). bind_step.
    eapply fill_st64; [done|done|lia|lia|done|]. intros m1 Hf1. unwrap.
    cbn [returns]. split; [lia|].
    by replace (8 * Z.of_nat (S i)) with (8 * Z.of_nat i + 8) by lia.
  - split; [lia|by apply filled_0].
  - intros [m' d] (-> & Hf). rewrite Z2Nat.id in * by lia. by apply HQ.
Qed.

Lemma memset_unrolled_returns m D c len (Q : mem * Z → Prop) :
  0 ≤ len → fillable m D (64 * len) →
  (∀ m', filled m m' D (u8 c) (64 * len) → Q (m', D + 64 * len)) →
  returns (memset_unrolled m D (memset_word c) len) Q.
Proof.
  intros Hlen Hfl HQ. destruct (Hfl) as [? ? _]. unfold memset_unrolled, OPSIZ.
  eapply returns_mono; [eapply (repeat_n_returns _ (λ i '(m', d),
    d = D + 64 * Z.of_nat i ∧ filled m m' D (u8 c) (64 * Z.of_nat i)))|].
  - intros i [m' d] Hi (-> & Hf). unwrap.
    do 8 (bind_step; eapply fill_st64;
      [done|done|lia|lia|lia|]; clear Hf; intros ? Hf).
    cbn [returns]. split; [lia|]. by
      replace (64 * Z.of_nat (S i)) with
        (64 * Z.of_nat i + 8 + 8 + 8 + 8 + 8 + 8 + 8 + 8) by lia.
  - split; [lia|by apply filled_0].
  - intros [m' d] (-> & Hf). rewrite Z2Nat.id in * by lia. by apply HQ.
Qed.

(** How far past the requested range the alignment loop makes it run. *)
Definition memset_excess (dest length : Z) : Z :=
  if 8 <=? length then (- dest) mod 8 else 0.

Lemma memset_returns m D c n (Q : mem * Z → Prop) :
  0 ≤ n → fillable m D (n + memset_excess D n) →
  (∀ m', filled m m' D (u8 c) (n + memset_excess D n) → Q (m', D)) →
  returns (memset m D c n) Q.
Proof.
  intros Hn Hfl HQ. unfold memset, memset_excess in *.
  bind_step. destruct (Z.leb_spec 8 n).
  2:{ rewrite Z.add_0_r in *. cbn [returns]. bind_step.
      apply memset_bytes_returns; [done|]. intros m' Hm'. by apply HQ. }
  set (k := (- D) mod 8) in *.
  assert (0 ≤ k < 8) as Hk by (by apply Z.mod_pos_bound).
  bind_step. apply memset_align_returns with (n + k); [done|fold k; lia|]. fold k.
  intros m1 _ H1. unfold OPSIZ.
  bind_step. apply memset_unrolled_returns; [dlia| |].
  { apply fillable_sub with (n + k); [lia|dlia|dlia|by eapply fillable_filled]. }
  intros m2 H2. assert (filled m m2 D (u8 c) (k + 64 * (n / (8 * 8)))) as H12.
  { eapply filled_trans; try done; dlia. }
  bind_step. rewrite <-(Z.add_assoc D k).
  apply memset_words_returns; [dlia| |].
  { apply fillable_sub with (n + k); [dlia|dlia|dlia|by eapply fillable_filled]. }
  intros m3 H3.
  assert (filled m m3 D (u8 c) (k + 64 * (n / (8 * 8)) + 8 * (n mod (8 * 8) / 8))) as H13.
  { eapply filled_trans; try done; dlia. }
  cbn [returns]. bind_step. rewrite <-(Z.add_assoc D (k + _)).
  apply memset_bytes_returns.
  { apply fillable_sub with (n + k); [dlia|dlia|dlia|by eapply fillable_filled]. }
  intros m4 H4. apply HQ.
  replace (n + k) with (k + 64 * (n / (8 * 8)) + 8 * (n mod (8 * 8) / 8)
    + n mod (8 * 8) mod 8) by dlia.
  eapply filled_trans; try done; dlia.
Qed.

(** * Properties *)

(** What [memset] writes, for every destination, length and fill value:
    exactly the [length] bytes it is asked for when the length is below eight
    or the destination is aligned, and [(-dest) mod 8] bytes more, past the end
    of the requested range, otherwise.  It returns [dest], all loops end, and
    nothing outside that range changes. *)
Theorem memset_extent m D c n :
  0 ≤ n → fillable m D (n + memset_excess D n) →
  ∃ m', memset m D c n = Ok (m', D) ∧ filled m m' D (u8 c) (n + memset_excess D n).
Proof.
  intros Hn Hfl.
  destruct (returns_inv _ (λ '(m', d), d = D ∧ filled m m' D (u8 c) (n + memset_excess D n))
    (memset_returns m D c n _ Hn Hfl (λ m' Hm', conj eq_refl Hm')))
    as ([m' d] & Hr & -> & Hm').
  by exists m'.
Qed.

Lemma sample_fillable D n : 0 ≤ n → 4096 ≤ D → D + n ≤ 4160 → fillable sample_mem D n.
Proof.
  intros. split; [lia|lia|]. intros x Hx. apply mem_of_is_Some.
  change (Z.of_nat (length (seqZ 0 64))) with 64. lia.
Qed.

(** At an unaligned destination the byte after the range is overwritten. *)
Lemma memset_extent_witness :
  fillable sample_mem 4099 (20 + memset_excess 4099 20) ∧
  memset_excess 4099 20 = 5 ∧
  ∃ m', memset sample_mem 4099 511 20 = Ok (m', 4099) ∧
        filled sample_mem m' 4099 (u8 511) (20 + memset_excess 4099 20).
Proof.
  assert (fillable sample_mem 4099 (20 + memset_excess 4099 20)) as Hf.
  { change (memset_excess 4099 20) with 5. apply sample_fillable; lia. }
  split; [exact Hf|]. split; [reflexivity|].
  apply (memset_extent sample_mem 4099 511 20); [lia|exact Hf].
Defined.
