(* ===== verification/MemCmp.v ===== *)
(** * Comparing memory: [libc/string/memcmp.c] and [memcmp_bytes] of [memcopy.c]

    The word loops of the source are entered in the middle with [goto].  Each
    label is a definition here that runs the code from that label to the end of
    the loop body and then either leaves the function ([inr]) or returns the
    state at the bottom of the turn ([inl]); falling through a label is calling
    the next definition.  The theorem says the whole is the bytewise
    comparison of the two ranges. *)
From S2P Require Import Prelude Mem MemCopy.

(** ** [memcmp_bytes]

    [do ... while(a0 == b0)] over the bytes of two words in memory order.  The
    loop has no bound of its own; with equal words it would run past them. *)
Definition memcmp_bytes (a b : Z) : outcome Z :=
  loop 8
    (λ i, if 8 <=? i then Fault else
          let a0 := byte_of a i in
          let b0 := byte_of b i in
          if a0 =? b0 then Ok (inl (i + 1)) else Ok (inr (s32 (a0 - b0))))
    0.

Definition CMP_LT_OR_GT (a b : Z) : outcome Z := memcmp_bytes a b.

(** ** [memcmp_common_alignment] *)

Record cca := Cca {
  cca_srcp1 : Z; cca_srcp2 : Z; cca_len : Z;
  cca_a0 : Z; cca_a1 : Z; cca_b0 : Z; cca_b1 : Z;
}.

Section common_alignment.
Context (m : mem).

Definition cca_do1 (s : cca) : outcome (cca + Z) :=
  let '(Cca srcp1 srcp2 len a0 a1 b0 b1) := s in
  a1 ← ld64 m (u64 (srcp1 + 3 * OPSIZ));
  b1 ← ld64 m (u64 (srcp2 + 3 * OPSIZ));
  if negb (a0 =? b0) then (r ← CMP_LT_OR_GT a0 b0; Ok (inr r)) else
  let srcp1 := u64 (srcp1 + 4 * OPSIZ) in
  let srcp2 := u64 (srcp2 + 4 * OPSIZ) in
  let len := u64 (len - 4) in
  Ok (inl (Cca srcp1 srcp2 len a0 a1 b0 b1)).

Definition cca_do2 (s : cca) : outcome (cca + Z) :=
  let '(Cca srcp1 srcp2 len a0 a1 b0 b1) := s in
  a0 ← ld64 m (u64 (srcp1 + 2 * OPSIZ));
  b0 ← ld64 m (u64 (srcp2 + 2 * OPSIZ));
  if negb (a1 =? b1) then (r ← CMP_LT_OR_GT a1 b1; Ok (inr r)) else
  cca_do1 (Cca srcp1 srcp2 len a0 a1 b0 b1).

Definition cca_do3 (s : cca) : outcome (cca + Z) :=
  let '(Cca srcp1 srcp2 len a0 a1 b0 b1) := s in
  a1 ← ld64 m (u64 (srcp1 + 1 * OPSIZ));
  b1 ← ld64 m (u64 (srcp2 + 1 * OPSIZ));
  if negb (a0 =? b0) then (r ← CMP_LT_OR_GT a0 b0; Ok (inr r)) else
  cca_do2 (Cca srcp1 srcp2 len a0 a1 b0 b1).

Definition cca_top (s : cca) : outcome (cca + Z) :=
  let '(Cca srcp1 srcp2 len a0 a1 b0 b1) := s in
  a0 ← ld64 m srcp1;
  b0 ← ld64 m srcp2;
  if negb (a1 =? b1) then (r ← CMP_LT_OR_GT a1 b1; Ok (inr r)) else
  cca_do3 (Cca srcp1 srcp2 len a0 a1 b0 b1).

(** The code after the loop. *)
Definition cca_do0 (s : cca) : outcome Z :=
  if negb (cca_a1 s =? cca_b1 s) then CMP_LT_OR_GT (cca_a1 s) (cca_b1 s) else Ok 0.

(** [while(len != 0)] at the bottom of a turn, then the code after it. *)
Definition cca_loop (r : cca + Z) : outcome Z :=
  match r with
  | inr v => Ok v
  | inl s =>
      loop (S (S (Z.to_nat (cca_len s))))
        (λ s, if cca_len s =? 0 then (v ← cca_do0 s; Ok (inr v)) else cca_top s) s
  end.

Definition memcmp_common_alignment (srcp1 srcp2 len : Z) : outcome Z :=
  if len mod 4 =? 3 then
    a1 ← ld64 m srcp1;
    b1 ← ld64 m srcp2;
    let srcp1 := u64 (srcp1 - OPSIZ) in
    let srcp2 := u64 (srcp2 - OPSIZ) in
    let len := u64 (len + 1) in
    r ← cca_do2 (Cca srcp1 srcp2 len 0 a1 0 b1);
    cca_loop r
  else if len mod 4 =? 0 then
    if (OP_T_THRES <=? 3 * OPSIZ) && (len =? 0) then Ok 0 else
    a0 ← ld64 m srcp1;
    b0 ← ld64 m srcp2;
    r ← cca_do3 (Cca srcp1 srcp2 len a0 0 b0 0);
    cca_loop r
  else if len mod 4 =? 1 then
    a1 ← ld64 m srcp1;
    b1 ← ld64 m srcp2;
    let srcp1 := u64 (srcp1 + OPSIZ) in
    let srcp2 := u64 (srcp2 + OPSIZ) in
    let len := u64 (len - 1) in
    let s := Cca srcp1 srcp2 len 0 a1 0 b1 in
    if (OP_T_THRES <=? 3 * OPSIZ) && (len =? 0) then cca_do0 s else
    r ← cca_top s;
    cca_loop r
  else
    a0 ← ld64 m srcp1;
    b0 ← ld64 m srcp2;
    let srcp1 := u64 (srcp1 - 2 * OPSIZ) in
    let srcp2 := u64 (srcp2 - 2 * OPSIZ) in
    let len := u64 (len + 2) in
    r ← cca_do1 (Cca srcp1 srcp2 len a0 0 b0 0);
    cca_loop r.
End common_alignment.

(** ** [memcmp_not_common_alignment] *)

Record nca := Nca {
  nca_srcp1 : Z; nca_srcp2 : Z; nca_len : Z;
  nca_a0 : Z; nca_a1 : Z; nca_a2 : Z; nca_a3 : Z;
  nca_b0 : Z; nca_b1 : Z; nca_b2 : Z; nca_b3 : Z;
}.

Section not_common_alignment.
Context (m : mem) (shl shr : Z).

Definition nca_do1 (s : nca) : outcome (nca + Z) :=
  let '(Nca srcp1 srcp2 len a0 a1 a2 a3 b0 b1 b2 b3) := s in
  a3 ← ld64 m (u64 (srcp1 + 3 * OPSIZ));
  b3 ← ld64 m (u64 (srcp2 + 3 * OPSIZ));
  let x := MERGE a1 shl a2 shr in
  if negb (x =? b2) then (r ← CMP_LT_OR_GT x b2; Ok (inr r)) else
  let srcp1 := u64 (srcp1 + 4 * OPSIZ) in
  let srcp2 := u64 (srcp2 + 4 * OPSIZ) in
  let len := u64 (len - 4) in
  Ok (inl (Nca srcp1 srcp2 len a0 a1 a2 a3 b0 b1 b2 b3)).

Definition nca_do2 (s : nca) : outcome (nca + Z) :=
  let '(Nca srcp1 srcp2 len a0 a1 a2 a3 b0 b1 b2 b3) := s in
  a2 ← ld64 m (u64 (srcp1 + 2 * OPSIZ));
  b2 ← ld64 m (u64 (srcp2 + 2 * OPSIZ));
  let x := MERGE a0 shl a1 shr in
  if negb (x =? b1) then (r ← CMP_LT_OR_GT x b1; Ok (inr r)) else
  nca_do1 (Nca srcp1 srcp2 len a0 a1 a2 a3 b0 b1 b2 b3).

Definition nca_do3 (s : nca) : outcome (nca + Z) :=
  let '(Nca srcp1 srcp2 len a0 a1 a2 a3 b0 b1 b2 b3) := s in
  a1 ← ld64 m (u64 (srcp1 + 1 * OPSIZ));
  b1 ← ld64 m (u64 (srcp2 + 1 * OPSIZ));
  let x := MERGE a3 shl a0 shr in
  if negb (x =? b0) then (r ← CMP_LT_OR_GT x b0; Ok (inr r)) else
  nca_do2 (Nca srcp1 srcp2 len a0 a1 a2 a3 b0 b1 b2 b3).

Definition nca_top (s : nca) : outcome (nca + Z) :=
  let '(Nca srcp1 srcp2 len a0 a1 a2 a3 b0 b1 b2 b3) := s in
  a0 ← ld64 m srcp1;
  b0 ← ld64 m srcp2;
  let x := MERGE a2 shl a3 shr in
  if negb (x =? b3) then (r ← CMP_LT_OR_GT x b3; Ok (inr r)) else
  nca_do3 (Nca srcp1 srcp2 len a0 a1 a2 a3 b0 b1 b2 b3).

Definition nca_do0 (s : nca) : outcome Z :=
  let x := MERGE (nca_a2 s) shl (nca_a3 s) shr in
  if negb (x =? nca_b3 s) then CMP_LT_OR_GT x (nca_b3 s) else Ok 0.

Definition nca_loop (r : nca + Z) : outcome Z :=
  match r with
  | inr v => Ok v
  | inl s =>
      loop (S (S (Z.to_nat (nca_len s))))
        (λ s, if nca_len s =? 0 then (v ← nca_do0 s; Ok (inr v)) else nca_top s) s
  end.
End not_common_alignment.

Definition memcmp_not_common_alignment (m : mem) (srcp1 srcp2 len : Z) : outcome Z :=
  let shl := 8 * (srcp1 mod OPSIZ) in
  let shr := 8 * OPSIZ - shl in
  let srcp1 := Z.land srcp1 opsiz_mask in
  if len mod 4 =? 3 then
    a0 ← ld64 m srcp1;
    a1 ← ld64 m (u64 (srcp1 + 1 * OPSIZ));
    b1 ← ld64 m srcp2;
    let srcp2 := u64 (srcp2 - 1 * OPSIZ) in
    let len := u64 (len + 1) in
    r ← nca_do2 m shl shr (Nca srcp1 srcp2 len a0 a1 0 0 0 b1 0 0);
    nca_loop m shl shr r
  else if len mod 4 =? 0 then
    if (OP_T_THRES <=? 3 * OPSIZ) && (len =? 0) then Ok 0 else
    a3 ← ld64 m srcp1;
    a0 ← ld64 m (u64 (srcp1 + 1 * OPSIZ));
    b0 ← ld64 m srcp2;
    let srcp1 := u64 (srcp1 + 1 * OPSIZ) in
    r ← nca_do3 m shl shr (Nca srcp1 srcp2 len a0 0 0 a3 b0 0 0 0);
    nca_loop m shl shr r
  else if len mod 4 =? 1 then
    a2 ← ld64 m srcp1;
    a3 ← ld64 m (u64 (srcp1 + 1 * OPSIZ));
    b3 ← ld64 m srcp2;
    let srcp1 := u64 (srcp1 + 2 * OPSIZ) in
    let srcp2 := u64 (srcp2 + 1 * OPSIZ) in
    let len := u64 (len - 1) in
    let s := Nca srcp1 srcp2 len 0 0 a2 a3 0 0 0 b3 in
    if (OP_T_THRES <=? 3 * OPSIZ) && (len =? 0) then nca_do0 shl shr s else
    r ← nca_top m shl shr s;
    nca_loop m shl shr r
  else
    a1 ← ld64 m srcp1;
    a2 ← ld64 m (u64 (srcp1 + 1 * OPSIZ));
    b2 ← ld64 m srcp2;
    let srcp1 := u64 (srcp1 - 1 * OPSIZ) in
    let srcp2 := u64 (srcp2 - 2 * OPSIZ) in
    let len := u64 (len + 2) in
    r ← nca_do1 m shl shr (Nca srcp1 srcp2 len 0 a1 a2 0 0 0 b2 0);
    nca_loop m shl shr r.

(** ** [memcmp] *)

(** The byte loop, [while(len != 0)]. *)
Definition memcmp_tail (m : mem) (srcp1 srcp2 len : Z) : outcome Z :=
  loop (S (Z.to_nat len))
    (λ '(srcp1, srcp2, len),
       if len =? 0 then Ok (inr 0) else
       a0 ← ld8 m srcp1;
       b0 ← ld8 m srcp2;
       let srcp1 := u64 (srcp1 + 1) in
       let srcp2 := u64 (srcp2 + 1) in
       let res := u64 (a0 - b0) in
       if negb (res =? 0) then Ok (inr (s32 res)) else
       Ok (inl (srcp1, srcp2, u64 (len - 1))))
    (srcp1, srcp2, len).

(** The loop that aligns the second pointer; [inr] returns from [memcmp]. *)
Definition memcmp_align (m : mem) (srcp1 srcp2 len : Z) : outcome (Z * Z * Z + Z) :=
  loop 8
    (λ '(srcp1, srcp2, len),
       if srcp2 mod OPSIZ =? 0 then Ok (inr (inl (srcp1, srcp2, len))) else
       a0 ← ld8 m srcp1;
       b0 ← ld8 m srcp2;
       let srcp1 := u64 (srcp1 + 1) in
       let srcp2 := u64 (srcp2 + 1) in
       let res := u64 (a0 - b0) in
       if negb (res =? 0) then Ok (inr (inr (s32 res))) else
       Ok (inl (srcp1, srcp2, u64 (len - 1))))
    (srcp1, srcp2, len).

Definition memcmp (m : mem) (s1 s2 len : Z) : outcome Z :=
  if OP_T_THRES <=? len then
    r ← memcmp_align m s1 s2 len;
    match r with
    | inr v => Ok v
    | inl (srcp1, srcp2, len) =>
        v ← (if srcp1 mod OPSIZ =? 0
             then memcmp_common_alignment m srcp1 srcp2 (len / OPSIZ)
             else memcmp_not_common_alignment m srcp1 srcp2 (len / OPSIZ));
        let res := u64 v in
        if negb (res =? 0) then Ok (s32 res) else
        let srcp1 := u64 (srcp1 + Z.land len opsiz_mask) in
        let srcp2 := u64 (srcp2 + Z.land len opsiz_mask) in
        memcmp_tail m srcp1 srcp2 (len mod OPSIZ)
    end
  else memcmp_tail m s1 s2 len.

(** ** The specification *)

(** [r] is what comparing the [n] bytes at [s1] and [s2] one by one gives: zero
    when they are the same, the difference of the first two that differ
    otherwise. *)
Definition same_bytes (m : mem) (s1 s2 n : Z) : Prop :=
  ∀ i, 0 ≤ i < n → m !! (s1 + i) = m !! (s2 + i).

Inductive cmp_result (m : mem) (s1 s2 n : Z) : Z → Prop :=
  | cmp_same : same_bytes m s1 s2 n → cmp_result m s1 s2 n 0
  | cmp_differ i a b :
      0 ≤ i < n → same_bytes m s1 s2 i →
      m !! (s1 + i) = Some a → m !! (s2 + i) = Some b → a ≠ b →
      cmp_result m s1 s2 n (a - b).

(** * Lemmas *)

Lemma memcmp_bytes_returns w1 w2 (Q : Z → Prop) :
  0 ≤ w1 < 2 ^ 64 → 0 ≤ w2 < 2 ^ 64 → w1 ≠ w2 →
  (∀ i, 0 ≤ i < 8 → (∀ j, 0 ≤ j < i → byte_of w1 j = byte_of w2 j) →
     byte_of w1 i ≠ byte_of w2 i → Q (byte_of w1 i - byte_of w2 i)) →
  returns (memcmp_bytes w1 w2) Q.
Proof.
  intros H1 H2 Hne HQ. unfold memcmp_bytes.
  apply (loop_returns _ (λ i, 0 ≤ i < 8 ∧ ∀ j, 0 ≤ j < i → byte_of w1 j = byte_of w2 j)
    (λ i, Z.to_nat (7 - i))); [|split; lia|lia].
  intros i [Hi Heq]. rewrite (proj2 (Z.leb_gt 8 i)) by lia.
  destruct (Z.eqb_spec (byte_of w1 i) (byte_of w2 i)) as [He|]; cbn [returns].
  - assert (∀ j, 0 ≤ j < i + 1 → byte_of w1 j = byte_of w2 j) as Heq'.
    { intros j Hj. destruct (decide (j = i)) as [->|]; [done|apply Heq; lia]. }
    destruct (decide (i = 7)) as [->|].
    { exfalso. apply Hne, word_ext; [done..|]. intros j Hj. apply Heq'. lia. }
    split; [split; [lia|done]|lia].
  - rewrite s32_small; [by apply HQ|].
    pose proof (byte_of_range w1 i). pose proof (byte_of_range w2 i). lia.
Qed.

Lemma same_bytes_le m s1 s2 n n' : n' ≤ n → same_bytes m s1 s2 n → same_bytes m s1 s2 n'.
Proof. intros ? H i Hi. apply H. lia. Qed.

(** Skipping a common prefix. *)
Lemma cmp_result_skip m s1 s2 n k r :
  0 ≤ k ≤ n → same_bytes m s1 s2 k → cmp_result m (s1 + k) (s2 + k) (n - k) r →
  cmp_result m s1 s2 n r.
Proof.
  intros Hk Hs [Hs'|i a b Hi Hs' Ha Hb Hne].
  - apply cmp_same. intros i Hi. destruct (decide (i < k)); [apply Hs; lia|].
    specialize (Hs' (i - k) ltac:(lia)).
    by replace (s1 + k + (i - k)) with (s1 + i) in Hs' by lia;
      replace (s2 + k + (i - k)) with (s2 + i) in Hs' by lia.
  - apply (cmp_differ _ _ _ _ (k + i)); [lia| |by rewrite Z.add_assoc..|done].
    intros j Hj. destruct (decide (j < k)); [apply Hs; lia|].
    specialize (Hs' (j - k) ltac:(lia)).
    by replace (s1 + k + (j - k)) with (s1 + j) in Hs' by lia;
      replace (s2 + k + (j - k)) with (s2 + j) in Hs' by lia.
Qed.

Lemma cmp_result_prefix m s1 s2 n k r :
  k ≤ n → r ≠ 0 → cmp_result m s1 s2 k r → cmp_result m s1 s2 n r.
Proof.
  intros Hk Hr H. revert Hr. destruct H as [?|i a b ?????]; [done|]. intros Hr. apply (cmp_differ _ _ _ _ i); try done. lia.
Qed.

#[local] Arguments nca_do1 : simpl never.
#[local] Arguments nca_do2 : simpl never.
#[local] Arguments nca_do3 : simpl never.

Section words.
Context (m : mem) (S1 S2 L : Z).
Hypothesis Hb : bytes_ok m.
Hypothesis Hm1 : mapped m S1 (8 * L).
Hypothesis Hm2 : mapped m S2 (8 * L).
Hypothesis Hspace : 0 ≤ S1 ∧ S1 + 8 * L + 8 ≤ 2 ^ 64 ∧ 0 ≤ S2 ∧ S2 + 8 * L + 8 ≤ 2 ^ 64.

(** The first [k] words are the same; the comparison of all [L] gives [v]. *)
Definition eqw (k : Z) : Prop := same_bytes m S1 S2 (8 * k).
Definition final (v : Z) : Prop := cmp_result m S1 S2 (8 * L) v.

Lemma eqw_succ k w : 0 ≤ k → eqw k → word_at m (S1 + 8 * k) w → word_at m (S2 + 8 * k) w →
  eqw (k + 1).
Proof.
  intros Hk He [_ H1] [_ H2] i Hi. destruct (decide (i < 8 * k)); [apply He; lia|].
  specialize (H1 (i - 8 * k) ltac:(lia)). specialize (H2 (i - 8 * k) ltac:(lia)).
  replace (S1 + 8 * k + (i - 8 * k)) with (S1 + i) in H1 by lia.
  replace (S2 + 8 * k + (i - 8 * k)) with (S2 + i) in H2 by lia. by rewrite H1, H2.
Qed.

Lemma cmp_word_differ k w1 w2 :
  0 ≤ k < L → eqw k → word_at m (S1 + 8 * k) w1 → word_at m (S2 + 8 * k) w2 →
  w1 ≠ w2 → returns (CMP_LT_OR_GT w1 w2) final.
Proof.
  intros Hk He [Hr1 H1] [Hr2 H2] Hne. apply memcmp_bytes_returns; try done.
  intros i Hi Heq Hd. apply (cmp_differ _ _ _ _ (8 * k + i)); [lia| | | |done].
  - intros j Hj. destruct (decide (j < 8 * k)); [apply He; lia|].
    specialize (H1 (j - 8 * k) ltac:(lia)). specialize (H2 (j - 8 * k) ltac:(lia)).
    rewrite Heq in H1 by lia.
    replace (S1 + 8 * k + (j - 8 * k)) with (S1 + j) in H1 by lia.
    replace (S2 + 8 * k + (j - 8 * k)) with (S2 + j) in H2 by lia. by rewrite H1, H2.
  - rewrite Z.add_assoc. by apply H1.
  - rewrite Z.add_assoc. by apply H2.
Qed.

(** The comparison of one word, in the middle of a turn. *)
Lemma cmp_step {X} k w1 w2 (cont : outcome (X + Z)) (Q : X + Z → Prop) :
  0 ≤ k < L → eqw k → word_at m (S1 + 8 * k) w1 → word_at m (S2 + 8 * k) w2 →
  (∀ v, final v → Q (inr v)) → (eqw (k + 1) → returns cont Q) →
  returns (if negb (w1 =? w2) then (r ← CMP_LT_OR_GT w1 w2; Ok (inr r)) else cont) Q.
Proof.
  intros Hk He H1 H2 Hd Hc. destruct (Z.eqb_spec w1 w2) as [->|]; simpl negb; cbv iota.
  - apply Hc. by apply eqw_succ with w2; [lia|..].
  - bind_step. eapply returns_mono; [by eapply cmp_word_differ|]. apply Hd.
Qed.

(** The comparison of the last word. *)
Lemma cmp_last k w1 w2 :
  L = k + 1 → 0 ≤ k → eqw k → word_at m (S1 + 8 * k) w1 → word_at m (S2 + 8 * k) w2 →
  returns (if negb (w1 =? w2) then CMP_LT_OR_GT w1 w2 else Ok 0) final.
Proof.
  intros HL Hk He H1 H2. destruct (Z.eqb_spec w1 w2) as [->|]; simpl negb; cbv iota.
  - apply cmp_same. rewrite HL. by apply eqw_succ with w2.
  - eapply cmp_word_differ; try done. lia.
Qed.

(** Loads of the [k]-th word of a range that starts at [S]. *)
Lemma load_word S k a (Q : Z → Prop) :
  mapped m S (8 * L) → 0 ≤ S → S + 8 * L + 8 ≤ 2 ^ 64 → 0 ≤ k < L →
  a = u64 (S + 8 * k) → (∀ w, word_at m (S + 8 * k) w → Q w) → returns (ld64 m a) Q.
Proof.
  intros Hm ??? -> HQ. rewrite u64_small by lia.
  apply load_now with (S + 8 * k); [done| |done|done].
  apply (mapped_mono m S (8 * L)); [done|lia|lia].
Qed.

(** ** Both pointers aligned *)

Definition cca_inv (s : cca) : Prop :=
  ∃ p, 1 ≤ p ≤ L ∧ (L - p) mod 4 = 0 ∧ cca_len s = L - p ∧
    cca_srcp1 s = u64 (S1 + 8 * p) ∧ cca_srcp2 s = u64 (S2 + 8 * p) ∧
    word_at m (S1 + 8 * (p - 1)) (cca_a1 s) ∧ word_at m (S2 + 8 * (p - 1)) (cca_b1 s) ∧
    eqw (p - 1).

Definition cca_post (len : Z) (r : cca + Z) : Prop :=
  match r with inl s => cca_inv s ∧ cca_len s = len - 4 | inr v => final v end.

Lemma cca_do1_returns p a0 a1 b0 b1 :
  -2 ≤ p → p + 4 ≤ L → (L - p) mod 4 = 0 → eqw (p + 2) →
  word_at m (S1 + 8 * (p + 2)) a0 → word_at m (S2 + 8 * (p + 2)) b0 →
  returns (cca_do1 m (Cca (u64 (S1 + 8 * p)) (u64 (S2 + 8 * p)) (L - p) a0 a1 b0 b1))
    (cca_post (L - p)).
Proof.
  intros Hp HpL Hmod He Ha Hb0. unfold cca_do1, OPSIZ. rewrite !u64_add_l.
  bind_step. apply (load_word S1 (p + 3)); [done|lia|lia|lia|f_equal; lia|].
  clear a1 b1. intros a1 Ha1.
  bind_step. apply (load_word S2 (p + 3)); [done|lia|lia|lia|f_equal; lia|]. intros b1 Hb1.
  apply (cmp_step (p + 2)); [lia|done|done|done|done|]. intros He'.
  rewrite (u64_small (L - p - 4)) by lia. cbn [returns cca_post]. split; [|done].
  exists (p + 4). replace (p + 4 - 1) with (p + 3) by lia.
  replace (p + 2 + 1) with (p + 3) in He' by lia.
  split_and!; simpl; try done; try dlia; f_equal; lia.
Qed.

Lemma cca_do2_returns p a0 a1 b0 b1 :
  -1 ≤ p → p + 4 ≤ L → (L - p) mod 4 = 0 → eqw (p + 1) →
  word_at m (S1 + 8 * (p + 1)) a1 → word_at m (S2 + 8 * (p + 1)) b1 →
  returns (cca_do2 m (Cca (u64 (S1 + 8 * p)) (u64 (S2 + 8 * p)) (L - p) a0 a1 b0 b1))
    (cca_post (L - p)).
Proof.
  intros Hp HpL Hmod He Ha Hb0. unfold cca_do2, OPSIZ. rewrite !u64_add_l.
  bind_step. apply (load_word S1 (p + 2)); [done|lia|lia|lia|f_equal; lia|].
  clear a0 b0. intros a0 Ha0.
  bind_step. apply (load_word S2 (p + 2)); [done|lia|lia|lia|f_equal; lia|]. intros b0 Hb0'.
  apply (cmp_step (p + 1)); [lia|done|done|done|done|]. intros He'.
  replace (p + 1 + 1) with (p + 2) in He' by lia. apply cca_do1_returns; try done. lia.
Qed.

Lemma cca_do3_returns p a0 a1 b0 b1 :
  0 ≤ p → p + 4 ≤ L → (L - p) mod 4 = 0 → eqw p →
  word_at m (S1 + 8 * p) a0 → word_at m (S2 + 8 * p) b0 →
  returns (cca_do3 m (Cca (u64 (S1 + 8 * p)) (u64 (S2 + 8 * p)) (L - p) a0 a1 b0 b1))
    (cca_post (L - p)).
Proof.
  intros Hp HpL Hmod He Ha Hb0. unfold cca_do3, OPSIZ. rewrite !u64_add_l.
  bind_step. apply (load_word S1 (p + 1)); [done|lia|lia|lia|f_equal; lia|].
  clear a1 b1. intros a1 Ha1.
  bind_step. apply (load_word S2 (p + 1)); [done|lia|lia|lia|f_equal; lia|]. intros b1 Hb1.
  apply (cmp_step p); [lia|done|done|done|done|]. intros He'.
  apply cca_do2_returns; try done. lia.
Qed.

Lemma cca_top_returns s :
  cca_inv s → cca_len s ≠ 0 → returns (cca_top m s) (cca_post (cca_len s)).
Proof.
  destruct s as [p1 p2 len a0 a1 b0 b1].
  intros (p & Hp & Hmod & Hlen & H1 & H2 & Ha & Hb1 & He) Hne. simpl in *. subst.
  bind_step. apply (load_word S1 p); [done|lia|lia|lia|done|]. clear a0 b0. intros a0 Ha0.
  bind_step. apply (load_word S2 p); [done|lia|lia|lia|done|]. intros b0 Hb0.
  apply (cmp_step (p - 1)); [lia|done|done|done|done|]. intros He'.
  replace (p - 1 + 1) with p in He' by lia.
  apply cca_do3_returns; try done; dlia.
Qed.

Lemma cca_loop_returns len r : cca_post len r → returns (cca_loop m r) final.
Proof.
  destruct r as [s|v]; [|done]. intros [Hs _]. unfold cca_loop.
  apply (loop_returns _ cca_inv (λ s, Z.to_nat (cca_len s))); [|done|lia].
  clear s Hs. intros s Hs. pose proof Hs as (p & Hp & _ & Hlen & _ & _ & Ha & Hb1 & He).
  destruct (Z.eqb_spec (cca_len s) 0).
  - bind_step. eapply returns_mono; [apply (cmp_last (p - 1)); try done; lia|]. done.
  - eapply returns_mono; [by apply cca_top_returns|].
    intros [s'|v]; [|done]. intros [Hs' Hl]. split; [done|lia].
Qed.

Lemma eqw_0 k : k ≤ 0 → eqw k.
Proof. intros ? i ?. lia. Qed.

Lemma memcmp_common_alignment_returns :
  1 ≤ L → returns (memcmp_common_alignment m S1 S2 L) final.
Proof.
  intros HL. unfold memcmp_common_alignment, OPSIZ, OP_T_THRES. simpl (16 <=? _).
  destruct (Z.eqb_spec (L mod 4) 3); [|destruct (Z.eqb_spec (L mod 4) 0);
    [|destruct (Z.eqb_spec (L mod 4) 1)]].
  - bind_step. apply (load_word S1 0); [done|lia|lia|lia|unwrap; lia|]. intros a1 Ha.
    bind_step. apply (load_word S2 0); [done|lia|lia|lia|unwrap; lia|]. intros b1 Hb1.
    bind_step. rewrite (u64_small (L + 1)) by lia.
    eapply returns_mono; [|apply cca_loop_returns].
    apply (cca_do2_returns (-1)); [lia|dlia|dlia|by apply eqw_0|done|done].
  - rewrite (proj2 (Z.eqb_neq L 0)) by lia. simpl andb. cbv iota.
    bind_step. apply (load_word S1 0); [done|lia|lia|lia|unwrap; lia|]. intros a0 Ha.
    bind_step. apply (load_word S2 0); [done|lia|lia|lia|unwrap; lia|]. intros b0 Hb0.
    bind_step. eapply returns_mono; [|apply (cca_loop_returns (L - 0))].
    pose proof (cca_do3_returns 0 a0 0 b0 0) as Hd. rewrite Z.mul_0_r, !Z.add_0_r in Hd.
    rewrite !u64_small, Z.sub_0_r in Hd by lia. rewrite Z.sub_0_r.
    rewrite Z.mul_0_r, Z.add_0_r in Ha, Hb0.
    apply Hd; [lia|dlia|done|by apply eqw_0|done|done].
  - bind_step. apply (load_word S1 0); [done|lia|lia|lia|unwrap; lia|]. intros a1 Ha.
    bind_step. apply (load_word S2 0); [done|lia|lia|lia|unwrap; lia|]. intros b1 Hb1.
    assert (cca_inv (Cca (u64 (S1 + 8)) (u64 (S2 + 8)) (u64 (L - 1)) 0 a1 0 b1)) as HI.
    { exists 1. rewrite (u64_small (L - 1)) by lia. split_and!; try done; try dlia.
      by apply eqw_0. }
    rewrite (u64_small (L - 1)) in * by lia.
    destruct (Z.eqb_spec (L - 1) 0); simpl andb; cbv iota.
    + apply (cmp_last 0); try done; [lia|by apply eqw_0].
    + bind_step. eapply returns_mono; [by apply cca_top_returns|].
      intros r. apply cca_loop_returns.
  - bind_step. apply (load_word S1 0); [done|lia|lia|lia|unwrap; lia|]. intros a0 Ha.
    bind_step. apply (load_word S2 0); [done|lia|lia|lia|unwrap; lia|]. intros b0 Hb0.
    bind_step. rewrite (u64_small (L + 2)) by lia.
    eapply returns_mono; [|apply cca_loop_returns].
    apply (cca_do1_returns (-2)); [lia|dlia|dlia|by apply eqw_0|done|done].
Qed.

(** ** The first pointer is not aligned *)

Context (Hwm : word_mapped m) (Hr : S1 mod 8 ≠ 0) (HL : 1 ≤ L).

Let B := S1 - S1 mod 8.
Let shl := 8 * (S1 mod 8).
Let shr := 8 * 8 - 8 * (S1 mod 8).

Lemma load_block k a (Q : Z → Prop) :
  0 ≤ k ≤ L → a = u64 (B + 8 * k) → (∀ w, word_at m (B + 8 * k) w → Q w) →
  returns (ld64 m a) Q.
Proof.
  intros Hk -> HQ. rewrite u64_small by (unfold B; dlia).
  apply load_now with (B + 8 * k); [done| |done|done].
  apply (block_mapped m S1 (8 * L)); try done; dlia.
Qed.

Lemma merge_word k w0 w1 :
  word_at m (B + 8 * k) w0 → word_at m (B + 8 * (k + 1)) w1 →
  word_at m (S1 + 8 * k) (MERGE w0 shl w1 shr).
Proof.
  intros H0 H1. replace (S1 + 8 * k) with (B + 8 * k + S1 mod 8) by (unfold B; lia).
  pose proof (Z.mod_pos_bound S1 8). apply (word_at_MERGE _ _ (S1 mod 8)); [lia|done|].
  by replace (B + 8 * k + 8) with (B + 8 * (k + 1)) by lia.
Qed.

Definition nca_inv (s : nca) : Prop :=
  ∃ p, 1 ≤ p ≤ L ∧ (L - p) mod 4 = 0 ∧ nca_len s = L - p ∧
    nca_srcp1 s = u64 (B + 8 * (p + 1)) ∧ nca_srcp2 s = u64 (S2 + 8 * p) ∧
    word_at m (B + 8 * (p - 1)) (nca_a2 s) ∧ word_at m (B + 8 * p) (nca_a3 s) ∧
    word_at m (S2 + 8 * (p - 1)) (nca_b3 s) ∧ eqw (p - 1).

Definition nca_post (len : Z) (r : nca + Z) : Prop :=
  match r with inl s => nca_inv s ∧ nca_len s = len - 4 | inr v => final v end.

Lemma nca_do1_returns p a0 a1 a2 a3 b0 b1 b2 b3 :
  -2 ≤ p → p + 4 ≤ L → (L - p) mod 4 = 0 → eqw (p + 2) →
  word_at m (B + 8 * (p + 2)) a1 → word_at m (B + 8 * (p + 3)) a2 →
  word_at m (S2 + 8 * (p + 2)) b2 →
  returns (nca_do1 m shl shr
    (Nca (u64 (B + 8 * (p + 1))) (u64 (S2 + 8 * p)) (L - p) a0 a1 a2 a3 b0 b1 b2 b3))
    (nca_post (L - p)).
Proof.
  intros Hp HpL Hmod He Ha1 Ha2 Hb2. unfold nca_do1, OPSIZ. rewrite !u64_add_l.
  bind_step. apply (load_block (p + 4)); [lia|f_equal; lia|].
  clear a3 b3. intros a3 Ha3.
  bind_step. apply (load_word S2 (p + 3)); [done|lia|lia|lia|f_equal; lia|]. intros b3 Hb3.
  apply (cmp_step (p + 2)); [lia|done| |done|done|].
  { apply merge_word; [done|]. by replace (p + 2 + 1) with (p + 3) by lia. }
  intros He'. rewrite (u64_small (L - p - 4)) by lia. cbn [returns nca_post]. split; [|done].
  exists (p + 4). replace (p + 4 - 1) with (p + 3) by lia.
  replace (p + 2 + 1) with (p + 3) in He' by lia.
  split_and!; simpl; try done; try dlia; f_equal; lia.
Qed.

Lemma nca_do2_returns p a0 a1 a2 a3 b0 b1 b2 b3 :
  -1 ≤ p → p + 4 ≤ L → (L - p) mod 4 = 0 → eqw (p + 1) →
  word_at m (B + 8 * (p + 1)) a0 → word_at m (B + 8 * (p + 2)) a1 →
  word_at m (S2 + 8 * (p + 1)) b1 →
  returns (nca_do2 m shl shr
    (Nca (u64 (B + 8 * (p + 1))) (u64 (S2 + 8 * p)) (L - p) a0 a1 a2 a3 b0 b1 b2 b3))
    (nca_post (L - p)).
Proof.
  intros Hp HpL Hmod He Ha0 Ha1 Hb1. unfold nca_do2, OPSIZ. rewrite !u64_add_l.
  bind_step. apply (load_block (p + 3)); [lia|f_equal; lia|].
  clear a2 b2. intros a2 Ha2.
  bind_step. apply (load_word S2 (p + 2)); [done|lia|lia|lia|f_equal; lia|]. intros b2 Hb2.
  apply (cmp_step (p + 1)); [lia|done| |done|done|].
  { apply merge_word; [done|]. by replace (p + 1 + 1) with (p + 2) by lia. }
  intros He'. replace (p + 1 + 1) with (p + 2) in He' by lia.
  eapply nca_do1_returns; try done. lia.
Qed.

Lemma nca_do3_returns p a0 a1 a2 a3 b0 b1 b2 b3 :
  0 ≤ p → p + 4 ≤ L → (L - p) mod 4 = 0 → eqw p →
  word_at m (B + 8 * p) a3 → word_at m (B + 8 * (p + 1)) a0 →
  word_at m (S2 + 8 * p) b0 →
  returns (nca_do3 m shl shr
    (Nca (u64 (B + 8 * (p + 1))) (u64 (S2 + 8 * p)) (L - p) a0 a1 a2 a3 b0 b1 b2 b3))
    (nca_post (L - p)).
Proof.
  intros Hp HpL Hmod He Ha3 Ha0 Hb0. unfold nca_do3, OPSIZ. rewrite !u64_add_l.
  bind_step. apply (load_block (p + 2)); [lia|f_equal; lia|].
  clear a1 b1. intros a1 Ha1.
  bind_step. apply (load_word S2 (p + 1)); [done|lia|lia|lia|f_equal; lia|]. intros b1 Hb1.
  apply (cmp_step p); [lia|done|by apply merge_word|done|done|].
  intros He'. apply nca_do2_returns; try done. lia.
Qed.

Lemma nca_top_returns s :
  nca_inv s → nca_len s ≠ 0 → returns (nca_top m shl shr s) (nca_post (nca_len s)).
Proof.
  destruct s as [p1 p2 len a0 a1 a2 a3 b0 b1 b2 b3].
  intros (p & Hp & Hmod & Hlen & H1 & H2 & Ha2 & Ha3 & Hb3 & He) Hne. simpl in *. subst.
  bind_step. apply (load_block (p + 1)); [lia|done|]. clear a0 b0. intros a0 Ha0.
  bind_step. apply (load_word S2 p); [done|lia|lia|lia|done|]. intros b0 Hb0.
  apply (cmp_step (p - 1)); [lia|done| |done|done|].
  { apply merge_word; [done|]. by replace (p - 1 + 1) with p by lia. }
  intros He'. replace (p - 1 + 1) with p in He' by lia.
  eapply nca_do3_returns; try done; dlia.
Qed.

Lemma nca_loop_returns len r : nca_post len r → returns (nca_loop m shl shr r) final.
Proof.
  destruct r as [s|v]; [|done]. intros [Hs _]. unfold nca_loop.
  apply (loop_returns _ nca_inv (λ s, Z.to_nat (nca_len s))); [|done|lia].
  clear s Hs. intros s Hs.
  pose proof Hs as (p & Hp & _ & Hlen & _ & _ & Ha2 & Ha3 & Hb3 & He).
  destruct (Z.eqb_spec (nca_len s) 0).
  - bind_step. eapply returns_mono; [|done].
    apply (cmp_last (p - 1)); try done; try lia.
    apply merge_word; [done|]. by replace (p - 1 + 1) with p by lia.
  - eapply returns_mono; [by apply nca_top_returns|].
    intros [s'|v]; [|done]. intros [Hs' Hl]. split; [done|lia].
Qed.

Lemma memcmp_not_common_alignment_returns :
  returns (memcmp_not_common_alignment m S1 S2 L) final.
Proof.
  unfold memcmp_not_common_alignment, OPSIZ, OP_T_THRES. simpl (16 <=? _).
  rewrite land_opsiz_mask by lia. fold B shl shr.
  assert (0 ≤ B ≤ S1) as HB by (unfold B; dlia).
  destruct (Z.eqb_spec (L mod 4) 3); [|destruct (Z.eqb_spec (L mod 4) 0);
    [|destruct (Z.eqb_spec (L mod 4) 1)]].
  - bind_step. apply (load_block 0); [lia|unwrap; lia|]. intros a0 Ha0.
    bind_step. apply (load_block 1); [lia|done|]. intros a1 Ha1.
    bind_step. apply (load_word S2 0); [done|lia|lia|lia|unwrap; lia|]. intros b1 Hb1.
    bind_step. rewrite (u64_small (L + 1)) by lia.
    eapply returns_mono; [|apply (nca_loop_returns (L - -1))].
    replace B with (u64 (B + 8 * (-1 + 1))) at 1 by (unwrap; lia).
    eapply (nca_do2_returns (-1)); [lia|dlia|dlia|by apply eqw_0|done|done|done].
  - rewrite (proj2 (Z.eqb_neq L 0)) by lia. simpl andb. cbv iota.
    bind_step. apply (load_block 0); [lia|unwrap; lia|]. intros a3 Ha3.
    bind_step. apply (load_block 1); [lia|done|]. intros a0 Ha0.
    bind_step. apply (load_word S2 0); [done|lia|lia|lia|unwrap; lia|]. intros b0 Hb0.
    bind_step. eapply returns_mono; [|apply (nca_loop_returns (L - 0))].
    replace S2 with (u64 (S2 + 8 * 0)) at 1 by (unwrap; lia).
    replace L with (L - 0) at 1 by lia.
    eapply (nca_do3_returns 0); [lia|dlia|dlia|by apply eqw_0|done|done|done].
  - bind_step. apply (load_block 0); [lia|unwrap; lia|]. intros a2 Ha2.
    bind_step. apply (load_block 1); [lia|done|]. intros a3 Ha3.
    bind_step. apply (load_word S2 0); [done|lia|lia|lia|unwrap; lia|]. intros b3 Hb3.
    rewrite (u64_small (L - 1)) by lia.
    assert (nca_inv (Nca (u64 (B + 2 * 8)) (u64 (S2 + 1 * 8)) (L - 1) 0 0 a2 a3 0 0 0 b3)) as HI.
    { exists 1. split_and!; try done; try dlia. by apply eqw_0. }
    destruct (Z.eqb_spec (L - 1) 0); simpl andb; cbv iota.
    + apply (cmp_last 0); try done; [lia|by apply eqw_0|by apply merge_word].
    + bind_step. eapply returns_mono; [by apply nca_top_returns|].
      intros r. apply nca_loop_returns.
  - bind_step. apply (load_block 0); [lia|unwrap; lia|]. intros a1 Ha1.
    bind_step. apply (load_block 1); [lia|done|]. intros a2 Ha2.
    bind_step. apply (load_word S2 0); [done|lia|lia|lia|unwrap; lia|]. intros b2 Hb2.
    bind_step. rewrite (u64_small (L + 2)) by lia.
    eapply returns_mono; [|apply (nca_loop_returns (L - -2))].
    eapply (nca_do1_returns (-2)); [lia|dlia|dlia|by apply eqw_0|done|done|done].
Qed.
End words.

(** ** The byte loops and the function *)

Lemma s32_u64 x : - 2 ^ 31 ≤ x < 2 ^ 31 → s32 (u64 x) = x.
Proof. intros Hx. unfold s32, sw, u64. dlia. Qed.

Lemma cmp_result_0 m s1 s2 n : cmp_result m s1 s2 n 0 → same_bytes m s1 s2 n.
Proof. intros H. inversion H as [|i a b ? ? ? ? ? Hab]; [done|lia]. Qed.

Lemma cmp_result_range m s1 s2 n r :
  bytes_ok m → cmp_result m s1 s2 n r → -255 ≤ r ≤ 255.
Proof.
  intros Hb [|i a b ? ? Ha Hb' ?]; [lia|].
  pose proof (Hb _ _ Ha). pose proof (Hb _ _ Hb'). lia.
Qed.

(** Two ranges that can be compared. *)
Record comparable (m : mem) (s1 s2 n : Z) : Prop := Comparable {
  cm_len : 0 ≤ n;
  cm_s1 : 0 ≤ s1 ∧ s1 + n + 8 ≤ 2 ^ 64;
  cm_s2 : 0 ≤ s2 ∧ s2 + n + 8 ≤ 2 ^ 64;
  cm_bytes : bytes_ok m;
  cm_words : word_mapped m;
  cm_m1 : mapped m s1 n;
  cm_m2 : mapped m s2 n;
}.

Lemma comparable_sub m s1 s2 n j k :
  0 ≤ j → 0 ≤ k → j + k ≤ n → comparable m s1 s2 n → comparable m (s1 + j) (s2 + j) k.
Proof.
  intros ??? []. split; try lia; try done.
  - apply (mapped_mono m s1 n); [done|lia|lia].
  - apply (mapped_mono m s2 n); [done|lia|lia].
Qed.

(** One turn of either byte loop, at byte [k] of the ranges. *)
Lemma cmp_byte_step {X Y} m s1 s2 n k (yes : Z → outcome (X + Y)) no (Q : X + Y → Prop) :
  comparable m s1 s2 n → 0 ≤ k < n → same_bytes m s1 s2 k →
  (∀ v, v ≠ 0 → cmp_result m s1 s2 n v → returns (yes v) Q) →
  (same_bytes m s1 s2 (k + 1) → returns no Q) →
  returns
    (a0 ← ld8 m (s1 + k);
     b0 ← ld8 m (s2 + k);
     if negb (u64 (a0 - b0) =? 0) then yes (s32 (u64 (a0 - b0))) else no) Q.
Proof.
  intros [] Hk Hs Hyes Hno.
  bind_step. apply ld8_returns; [apply cm_m3; lia|]. intros a Ha.
  bind_step. apply ld8_returns; [apply cm_m4; lia|]. intros b Hb.
  pose proof (cm_bytes0 _ _ Ha). pose proof (cm_bytes0 _ _ Hb).
  rewrite s32_u64 by lia. destruct (decide (a = b)) as [->|Hne].
  - rewrite Z.sub_diag. apply Hno. intros i Hi. destruct (decide (i = k)) as [->|].
    + by rewrite Ha, Hb.
    + apply Hs. lia.
  - assert (u64 (a - b) ≠ 0) as Hu.
    { intros Hu. apply Hne. assert (s32 (u64 (a - b)) = 0) as Hz by (by rewrite Hu).
      rewrite s32_u64 in Hz by lia. lia. }
    rewrite (proj2 (Z.eqb_neq _ _) Hu). apply Hyes; [lia|].
    by apply (cmp_differ _ _ _ _ k).
Qed.

Lemma memcmp_tail_returns m s1 s2 n :
  comparable m s1 s2 n → returns (memcmp_tail m s1 s2 n) (cmp_result m s1 s2 n).
Proof.
  intros Hc. destruct (Hc). unfold memcmp_tail.
  apply (loop_returns _ (λ '(p1, p2, len), ∃ k, 0 ≤ k ≤ n ∧ p1 = s1 + k ∧ p2 = s2 + k ∧
    len = n - k ∧ same_bytes m s1 s2 k) (λ '(_, _, len), Z.to_nat len)); [|by exists 0; split_and!; try lia; intros ? ?; lia|lia].
  intros [[p1 p2] len] (k & Hk & -> & -> & -> & Hs).
  destruct (Z.eqb_spec (n - k) 0).
  { cbn [returns]. apply cmp_same. by replace n with k by lia. }
  apply (cmp_byte_step m s1 s2 n k (λ v, Ok (inr v))); [done|lia|done|by intros|].
  intros Hs'. cbn [returns]. unwrap. split; [|lia].
  exists (k + 1). split_and!; try lia. done.
Qed.

Lemma memcmp_align_returns m s1 s2 n (Q : Z * Z * Z + Z → Prop) :
  comparable m s1 s2 n → 8 ≤ n →
  (∀ k, 0 ≤ k < 8 → (s2 + k) mod 8 = 0 → same_bytes m s1 s2 k →
     Q (inl (s1 + k, s2 + k, n - k))) →
  (∀ v, cmp_result m s1 s2 n v → Q (inr v)) →
  returns (memcmp_align m s1 s2 n) Q.
Proof.
  intros Hc Hn HQ1 HQ2. destruct (Hc). unfold memcmp_align.
  apply (loop_returns _ (λ '(p1, p2, len), ∃ k, 0 ≤ k ≤ (- s2) mod 8 ∧ p1 = s1 + k ∧
    p2 = s2 + k ∧ len = n - k ∧ same_bytes m s1 s2 k) (λ '(_, p2, _), Z.to_nat ((- p2) mod 8))).
  2:{ exists 0. pose proof (Z.mod_pos_bound (- s2) 8).
      split_and!; try lia. intros ? ?; lia. }
  2:{ pose proof (Z.mod_pos_bound (- s2) 8). lia. }
  intros [[p1 p2] len] (k & Hk & -> & -> & -> & Hs). unfold OPSIZ.
  pose proof (Z.mod_pos_bound (- s2) 8 ltac:(lia)).
  destruct (Z.eqb_spec ((s2 + k) mod 8) 0).
  { cbn [returns]. apply HQ1; try done. lia. }
  assert (k + 1 ≤ (- s2) mod 8) by dlia.
  apply (cmp_byte_step m s1 s2 n k (λ v, Ok (inr (inr v)))); [done|lia|done| |].
  { intros v _ Hv. by apply HQ2. }
  intros Hs'. cbn [returns]. unwrap. split; [|dlia].
  exists (k + 1). split_and!; try lia. done.
Qed.

Lemma memcmp_returns m s1 s2 n :
  comparable m s1 s2 n → returns (memcmp m s1 s2 n) (cmp_result m s1 s2 n).
Proof.
  intros Hc. pose proof Hc as []. unfold memcmp, OP_T_THRES.
  destruct (Z.leb_spec 16 n); [|by apply memcmp_tail_returns].
  bind_step. apply memcmp_align_returns; [done|lia| |done]. intros k Hk Hal Hs.
  set (l := 8 * ((n - k) / 8)).
  assert (8 ≤ l ∧ l ≤ n - k ∧ n - k - l = (n - k) mod 8) as Hl by (subst l; dlia).
  assert (comparable m (s1 + k) (s2 + k) l) as Hcl by (apply comparable_sub with n; lia || done).
  pose proof Hcl as [].
  bind_step. unfold OPSIZ.
  apply (returns_mono _ (cmp_result m (s1 + k) (s2 + k) l)).
  { destruct (Z.eqb_spec ((s1 + k) mod 8) 0);
      [apply memcmp_common_alignment_returns|apply memcmp_not_common_alignment_returns];
      try done; subst l; dlia. }
  intros v Hv. destruct (Z.eqb_spec (u64 v) 0) as [Hv0|Hv0]; simpl negb; cbv iota.
  - assert (v = 0) as ->.
    { apply cmp_result_range in Hv as ?; [|done].
      assert (s32 (u64 v) = 0) as Hz by (by rewrite Hv0). by rewrite s32_u64 in Hz by lia. }
    apply cmp_result_0 in Hv. rewrite land_opsiz_mask by lia.
    replace (n - k - (n - k) mod 8) with l by lia. unwrap.
    eapply returns_mono; [apply memcmp_tail_returns, comparable_sub with (n - k)|].
    { lia. } { dlia. } { lia. } { apply comparable_sub with n; lia || done. }
    intros r Hr. apply cmp_result_skip with k; [lia|done|].
    apply cmp_result_skip with l; [lia|done|]. by replace (n - k - l) with ((n - k) mod 8) by lia.
  - cbn [returns]. apply cmp_result_range in Hv as ?; [|done]. rewrite s32_u64 by lia.
    apply cmp_result_skip with k; [lia|done|].
    apply cmp_result_prefix with l; [lia|by intros ->|done].
Qed.

(** * Properties *)

(** C30. [memcmp] is the bytewise comparison: for ranges of any alignment and
    length it returns zero when all [n] bytes are the same and otherwise the
    difference of the first two bytes that differ.  The word loops entered by
    [goto], with and without a common alignment, are equivalent to the byte
    loop, read no unmapped word and end. *)
Theorem memcmp_compares m s1 s2 n :
  comparable m s1 s2 n →
  ∃ r, memcmp m s1 s2 n = Ok r ∧ cmp_result m s1 s2 n r.
Proof. intros Hc. apply returns_inv. by apply memcmp_returns. Qed.

(** Two strings of 26 equal bytes, at odds in the 27th, at addresses of
    different alignment. *)
Definition sample_pair : mem :=
  mem_of 4096 (seqZ 7 27 ++ seqZ 7 26 ++ [99] ++ replicate 10 0).

Lemma memcmp_compares_witness :
  comparable sample_pair 4096 4123 30 ∧
  memcmp sample_pair 4096 4123 30 = Ok (-66) ∧
  ∃ r, memcmp sample_pair 4096 4123 30 = Ok r ∧ cmp_result sample_pair 4096 4123 30 r.
Proof.
  assert (comparable sample_pair 4096 4123 30) as Hc.
  { split; try lia.
    - apply mem_of_bytes_ok. apply (bool_decide_unpack _). by vm_compute.
    - by apply mem_of_word_mapped.
    - apply (mapped_mono _ 4096 64); [by apply mem_of_mapped|lia|lia].
    - apply (mapped_mono _ 4096 64); [by apply mem_of_mapped|lia|lia]. }
  split; [exact Hc|]. split; [by vm_compute|]. exact (memcmp_compares _ _ _ _ Hc).
Defined.
