(* ===== verification/CString.v ===== *)
(** * C strings: [strlen.c], [strcmp.c], [strcpy.c], [strcat.c] of [libc/string]

    A string is a run of non-zero bytes with a zero byte after it.  The loops
    have no bound of their own, so they take fuel; one unit more than the
    number of bytes they look at is enough. *)
From S2P Require Import Prelude Mem MemCopy MemSet MemCmp.

(** ** [strlen.c] *)

Definition strlen (fuel : nat) (m : mem) (s : Z) : outcome Z :=
  loop fuel
    (λ end_,
       b ← ld8 m end_;
       if negb (b =? 0) then Ok (inl (u64 (end_ + 1)))
       else Ok (inr (u64 (end_ - s))))
    s.

Definition strnlen (fuel : nat) (m : mem) (string maxlen : Z) : outcome Z :=
  loop fuel
    (λ '(end_, length),
       b ← ld8 m end_;
       if negb (b =? 0) && (length <=? maxlen)
       then Ok (inl (u64 (end_ + 1), u64 (length + 1)))
       else Ok (inr length))
    (string, 0).

(** ** [strcmp.c] *)

Definition strcmp (fuel : nat) (m : mem) (s1 s2 : Z) : outcome Z :=
  loop fuel
    (λ '(s1, s2),
       a ← ld8 m s1;
       b ← ld8 m s2;
       if a =? b then
         if a =? 0 then Ok (inr 0)
         else Ok (inl (u64 (s1 + 1), u64 (s2 + 1)))
       else
         x ← ld8 m s1;
         y ← ld8 m (u64 (s2 - 1));
         Ok (inr (if x <? y then 1 else 0)))
    (s1, s2).

Definition strncmp (fuel : nat) (m : mem) (s1 s2 count : Z) : outcome Z :=
  if count =? 0 then Ok 0 else
  loop fuel
    (λ '(s1, s2, count),
       a ← ld8 m s1;
       b ← ld8 m s2;
       let s2 := u64 (s2 + 1) in
       if negb (a =? b) then
         x ← ld8 m s1;
         let s2 := u64 (s2 - 1) in
         y ← ld8 m s2;
         Ok (inr (x - y))
       else
         c ← ld8 m s1;
         let s1 := u64 (s1 + 1) in
         if c =? 0 then Ok (inr 0) else
         let count := u64 (count - 1) in
         if negb (count =? 0) then Ok (inl (s1, s2, count)) else Ok (inr 0))
    (s1, s2, count).

(** ** [strcpy.c] *)

Definition strcpy (fuel : nat) (m : mem) (dest src : Z) : outcome (mem * Z) :=
  length ← strlen fuel m src;
  '(m, _) ← memcpy m dest src (u64 (length + 1));
  Ok (m, dest).

Definition strncpy (fuel : nat) (m : mem) (dest src count : Z) : outcome (mem * Z) :=
  src_len ← strnlen fuel m src count;
  if src_len <? count then
    '(m, _) ← memcpy m dest src src_len;
    '(m, _) ← memset m (u64 (dest + src_len)) 0 (u64 (count - src_len));
    Ok (m, dest)
  else
    '(m, _) ← memcpy m dest src count;
    Ok (m, dest).

(** ** [strcat.c] *)

Definition strcat (fuel : nat) (m : mem) (dest src : Z) : outcome (mem * Z) :=
  dest_len ← strlen fuel m dest;
  src_len ← strlen fuel m src;
  '(m, _) ← memcpy m (u64 (dest + dest_len)) src src_len;
  m ← st8 m (u64 (dest + u64 (dest_len + src_len))) 0;
  Ok (m, dest).

Definition strncat (fuel : nat) (m : mem) (dest src count : Z) : outcome (mem * Z) :=
  dest_len ← strlen fuel m dest;
  src_len ← strnlen fuel m src count;
  let copy_len := if src_len <? count then src_len else count in
  '(m, _) ← memcpy m (u64 (dest + dest_len)) src copy_len;
  m ← st8 m (u64 (dest + u64 (dest_len + copy_len))) 0;
  Ok (m, dest).

(** ** What a string is *)

(** [m] has the string [l] at [s]. *)
Record cstring (m : mem) (s : Z) (l : list Z) : Prop := CString {
  cs_nonzero : Forall (λ b, 0 < b < 2 ^ 8) l;
  cs_at : 0 ≤ s ∧ s + Z.of_nat (length l) + 1 < 2 ^ 64;
  cs_holds : holds m s (l ++ [0]);
}.

(** * Lemmas *)

Lemma cstring_byte m s l i b :
  cstring m s l → l !! i = Some b → m !! (s + Z.of_nat i) = Some b ∧ 0 < b < 2 ^ 8.
Proof.
  intros [Hnz _ Hh] Hb. split.
  - apply Hh. by apply lookup_app_l_Some.
  - exact (Forall_lookup_1 _ _ _ _ Hnz Hb).
Qed.

Lemma cstring_end m s l : cstring m s l → m !! (s + Z.of_nat (length l)) = Some 0.
Proof.
  intros [_ _ Hh]. apply Hh. by rewrite lookup_app_r, Nat.sub_diag by lia.
Qed.

Lemma strlen_returns fuel m s l :
  cstring m s l → (length l < fuel)%nat → strlen fuel m s = Ok (Z.of_nat (length l)).
Proof.
  intros Hs Hf.
  destruct (returns_inv (strlen fuel m s) (λ n, n = Z.of_nat (length l))) as (n & -> & ->);
    [|done].
  pose proof (cs_at _ _ _ Hs). unfold strlen.
  apply (loop_returns _ (λ e, ∃ i, e = s + Z.of_nat i ∧ (i ≤ length l)%nat)
    (λ e, Z.to_nat (s + Z.of_nat (length l) - e))); [|by exists O; split; lia|lia].
  intros e (i & -> & Hi). destruct (decide (i = length l)) as [->|].
  - rewrite (ld8_Some _ _ _ (cstring_end _ _ _ Hs)). cbn. unwrap. lia.
  - destruct (lookup_lt_is_Some_2 l i) as [b Hb]; [lia|].
    destruct (cstring_byte _ _ _ _ _ Hs Hb) as [Hm Hbr].
    rewrite (ld8_Some _ _ _ Hm). cbn. rewrite (proj2 (Z.eqb_neq b 0)) by lia. cbn.
    unwrap. split; [exists (S i); lia|lia].
Qed.

Lemma strnlen_returns fuel m s l n :
  cstring m s l → 0 ≤ n → (length l < fuel)%nat →
  strnlen fuel m s n = Ok (Z.min (Z.of_nat (length l)) (n + 1)).
Proof.
  intros Hs Hn Hf.
  destruct (returns_inv (strnlen fuel m s n) (λ r, r = Z.min (Z.of_nat (length l)) (n + 1)))
    as (r & -> & ->); [|done].
  pose proof (cs_at _ _ _ Hs). unfold strnlen.
  apply (loop_returns _ (λ '(e, k), ∃ i, e = s + Z.of_nat i ∧ k = Z.of_nat i ∧
      (i ≤ length l)%nat ∧ Z.of_nat i ≤ n + 1)
    (λ '(e, _), Z.to_nat (s + Z.of_nat (length l) - e))); [|by exists O; split_and!; lia|lia].
  intros [e k] (i & -> & -> & Hi & Hin). destruct (decide (i = length l)) as [->|].
  - rewrite (ld8_Some _ _ _ (cstring_end _ _ _ Hs)). cbn. lia.
  - destruct (lookup_lt_is_Some_2 l i) as [b Hb]; [lia|].
    destruct (cstring_byte _ _ _ _ _ Hs Hb) as [Hm Hbr].
    rewrite (ld8_Some _ _ _ Hm). cbn [mbind outcome_bind].
    rewrite (proj2 (Z.eqb_neq b 0)) by lia. simpl andb.
    destruct (Z.leb_spec (Z.of_nat i) n); cbn [returns]; [|lia].
    unwrap. split; [exists (S i); lia|lia].
Qed.

(** A string moved as a block of bytes is still that string. *)
Lemma cstring_copied m m' d s l :
  cstring m s l → 0 ≤ d → d + Z.of_nat (length l) + 1 < 2 ^ 64 →
  copied m m' d s (Z.of_nat (length l) + 1) → cstring m' d l.
Proof.
  intros [Hnz Hat Hh] ?? Hc. split; [done|lia|]. intros i b Hb.
  assert (i < length (l ++ [0%Z]))%nat as Hi by (by eapply lookup_lt_Some).
  rewrite length_app in Hi. simpl in Hi.
  rewrite Hc, decide_True by lia. rewrite <-(Hh _ _ Hb). f_equal. lia.
Qed.

Lemma cstring_head m s l :
  cstring m s l → ∃ b, m !! s = Some b ∧ head (l ++ [0]) = Some b ∧ 0 ≤ b < 2 ^ 8.
Proof.
  intros Hs. destruct l as [|b l].
  - exists 0. split_and!; try done. rewrite <-(Z.add_0_r s). by apply (cstring_end m s []).
  - destruct (cstring_byte m s (b :: l) 0 b Hs eq_refl) as [Hm Hb].
    exists b. rewrite Z.add_0_r in Hm. split_and!; try done; lia.
Qed.

Lemma cstring_tail m s b l : cstring m s (b :: l) → cstring m (s + 1) l.
Proof.
  intros [Hnz Hat Hh]. split.
  - by inversion Hnz.
  - simpl length in Hat. lia.
  - intros i x Hx. rewrite <-(Hh (S i) x Hx). f_equal. lia.
Qed.

(** ** [strncmp] *)

(** The comparison of at most [n] bytes of two strings, on lists. *)
Fixpoint strncmp_spec (n : nat) (l1 l2 : list Z) : Z :=
  match n with
  | O => 0
  | S n' =>
      match l1, l2 with
      | [], [] => 0
      | [], b :: _ => 0 - b
      | a :: _, [] => a - 0
      | a :: l1', b :: l2' => if a =? b then strncmp_spec n' l1' l2' else a - b
      end
  end.

Lemma strncmp_returns fuel m s1 s2 l1 l2 n :
  cstring m s1 l1 → cstring m s2 l2 → 0 ≤ n < 2 ^ 64 → (length l1 < fuel)%nat →
  returns (strncmp fuel m s1 s2 n) (λ r, r = strncmp_spec (Z.to_nat n) l1 l2).
Proof.
  intros H1 H2 Hn Hf. unfold strncmp. destruct (Z.eqb_spec n 0) as [->|Hn0]; [done|].
  set (R := strncmp_spec (Z.to_nat n) l1 l2).
  apply (loop_returns _ (λ '(p1, p2, k), ∃ t1 t2, cstring m p1 t1 ∧ cstring m p2 t2 ∧
      0 < k < 2 ^ 64 ∧ strncmp_spec (Z.to_nat k) t1 t2 = R ∧
      p1 + Z.of_nat (length t1) = s1 + Z.of_nat (length l1))
    (λ '(p1, _, _), Z.to_nat (s1 + Z.of_nat (length l1) - p1)));
    [|exists l1, l2; by split_and!; try lia|lia].
  clear H1 H2. intros [[p1 p2] k] (t1 & t2 & H1 & H2 & Hk & HR & Hp).
  destruct (cstring_head _ _ _ H1) as (a & Ha & Hha & Hra).
  destruct (cstring_head _ _ _ H2) as (b & Hb & Hhb & Hrb).
  pose proof (cs_at _ _ _ H1). pose proof (cs_at _ _ _ H2).
  rewrite (ld8_Some _ _ _ Ha), (ld8_Some _ _ _ Hb). cbn [mbind outcome_bind].
  rewrite <-HR. replace (Z.to_nat k) with (S (Z.to_nat (k - 1))) in * by lia.
  rewrite !u64_sub_l, Z.add_simpl_r. unwrap.
  destruct (Z.eqb_spec a b) as [->|Hab]; simpl negb; cbv iota.
  - cbn [mbind outcome_bind].
    destruct (Z.eqb_spec b 0) as [->|Hb0].
    { destruct t1 as [|x t1], t2 as [|y t2]; simplify_eq/=; try done;
        exfalso; apply cs_nonzero in H1, H2; inversion H1; inversion H2; lia. }
    destruct t1 as [|x t1], t2 as [|y t2]; simplify_eq/=. rewrite Z.eqb_refl.
    apply cstring_tail in H1, H2.
    destruct (Z.eqb_spec (k - 1) 0) as [Hk0|Hk0]; cbn [returns].
    { rewrite Hk0. done. }
    split; [|lia]. exists t1, t2. split_and!; try done; lia.
  - rewrite (ld8_Some _ _ _ Hb). cbn [mbind outcome_bind returns].
    destruct t1 as [|x t1], t2 as [|y t2]; simplify_eq/=; try done.
    by rewrite (proj2 (Z.eqb_neq _ _) Hab).
Qed.

(** ** [strcmp] *)

Lemma strcmp_loop fuel m s1 s2 p t1 t2 (Q : Z → Prop) :
  cstring m s1 (p ++ t1) → cstring m s2 (p ++ t2) → (length p < fuel)%nat →
  (∀ a b, head (t1 ++ [0]) = Some a → head (t2 ++ [0]) = Some b →
     let e := s2 + Z.of_nat (length p) in
     if a =? b then a = 0 ∧ Q 0
     else returns (y ← ld8 m (u64 (e - 1)); Ok (if a <? y then 1 else 0)) Q) →
  returns (strcmp fuel m s1 s2) Q.
Proof.
  intros H1 H2 Hf HQ. unfold strcmp.
  apply (loop_returns _ (λ '(p1, p2), ∃ q, cstring m p1 (q ++ t1) ∧ cstring m p2 (q ++ t2) ∧
      p2 + Z.of_nat (length q) = s2 + Z.of_nat (length p))
    (λ '(_, p2), Z.to_nat (s2 + Z.of_nat (length p) - p2))); [|by exists p|lia].
  clear H1 H2. intros [p1 p2] (q & H1 & H2 & Hq).
  destruct (cstring_head _ _ _ H1) as (a & Ha & Hha & Hra).
  destruct (cstring_head _ _ _ H2) as (b & Hb & Hhb & Hrb).
  pose proof (cs_at _ _ _ H1). pose proof (cs_at _ _ _ H2).
  rewrite (ld8_Some _ _ _ Ha), (ld8_Some _ _ _ Hb). cbn [mbind outcome_bind].
  destruct q as [|c q]; simpl in *.
  - specialize (HQ a b Hha Hhb). replace p2 with (s2 + Z.of_nat (length p)) in * by lia.
    destruct (Z.eqb_spec a b) as [->|].
    { destruct HQ as [-> HQ]. done. }
    apply returns_inv in HQ as (v & Hv & HQ).
    destruct (ld8 m (u64 (s2 + Z.of_nat (length p) - 1))) eqn:E; try done.
    cbn in *. by simplify_eq.
  - simplify_eq. rewrite Z.eqb_refl. pose proof (cs_nonzero _ _ _ H1) as Hnz.
    inversion Hnz; subst. rewrite (proj2 (Z.eqb_neq _ 0)) by lia.
    unwrap. cbn [returns]. split; [|lia]. exists q.
    split_and!; [by eapply cstring_tail..|lia].
Qed.

(** ** The copies *)

Lemma strcpy_returns fuel m d s l (Q : mem * Z → Prop) :
  cstring m s l → (length l < fuel)%nat →
  copy_pre m d s (Z.of_nat (length l) + 1) →
  d ≤ s ∨ s + Z.of_nat (length l) + 1 ≤ d →
  (∀ m', copied m m' d s (Z.of_nat (length l) + 1) → cstring m' d l → Q (m', d)) →
  returns (strcpy fuel m d s) Q.
Proof.
  intros Hs Hf Hpre Hov HQ. unfold strcpy. rewrite (strlen_returns _ _ _ _ Hs Hf).
  pose proof (cs_at _ _ _ Hs). destruct (Hpre) as [[] ???].
  cbn [mbind outcome_bind]. unwrap. bind_step.
  apply memcpy_returns; [done|lia|]. intros m' Hm'. apply HQ; [done|].
  by apply (cstring_copied m m' d s l); [|lia|lia|].
Qed.

(** The destination of [strncpy]: the string, zeros up to the end of the last
    fill, and the old memory around. *)
Definition padded (m m' : mem) (d s k n : Z) : Prop :=
  ∀ x, m' !! x = if decide (d ≤ x < d + k) then m !! (x - d + s)
                 else if decide (d + k ≤ x < d + n) then Some 0 else m !! x.

Lemma strncpy_returns fuel m d s l n (Q : mem * Z → Prop) :
  let len := Z.of_nat (length l) in
  let k := Z.min len n in
  let e := memset_excess (d + k) (n - k) in
  cstring m s l → (length l < fuel)%nat → 0 ≤ n →
  copy_pre m d s k → d ≤ s ∨ s + k ≤ d → fillable m (d + k) (n - k + e) →
  (∀ m', padded m m' d s k (n + e) → Q (m', d)) →
  returns (strncpy fuel m d s n) Q.
Proof.
  intros len k e Hs Hf Hn Hpre Hov Hfl HQ. unfold strncpy.
  rewrite (strnlen_returns _ _ _ _ _ Hs Hn Hf). fold len.
  destruct (Hpre) as [[] ???]. destruct (Hfl). cbn [mbind outcome_bind].
  assert (0 ≤ e < 8) as He.
  { subst e. unfold memset_excess. case_match; [by apply Z.mod_pos_bound|lia]. }
  destruct (Z.ltb_spec (Z.min len (n + 1)) n) as [Hlt|Hge].
  - replace (Z.min len (n + 1)) with k in * by lia.
    bind_step. apply memcpy_returns; [done|done|]. intros m1 H1.
    unwrap. bind_step. apply memset_returns; [lia| |].
    { fold e. split; [lia|lia|]. eapply mapped_same_dom; [|apply Hfl].
      intros x. by apply copied_mapped with d s k. }
    fold e. intros m2 H2. apply HQ. intros x. rewrite H2, H1. change (u8 0) with 0.
    repeat case_decide; try lia; done.
  - assert (e = 0) as He0.
    { subst e. replace (n - k) with 0 by lia. done. }
    replace n with k by lia. bind_step. apply memcpy_returns; [done|done|].
    intros m1 H1. apply HQ. intros x. rewrite H1, He0.
    repeat case_decide; try lia; done.
Qed.

(** Appending: the two strings end to end. *)
Lemma strcat_returns fuel m d s l1 l2 (Q : mem * Z → Prop) :
  let e := d + Z.of_nat (length l1) in
  let k := Z.of_nat (length l2) in
  cstring m d l1 → cstring m s l2 → (length l1 < fuel)%nat → (length l2 < fuel)%nat →
  copy_pre m e s k → e ≤ s ∨ s + k ≤ e → is_Some (m !! (e + k)) →
  (∀ m', cstring m' d (l1 ++ l2) → (∀ x, x < e ∨ e + k < x → m' !! x = m !! x) →
     Q (m', d)) →
  returns (strcat fuel m d s) Q.
Proof.
  intros e k H1 H2 Hf1 Hf2 Hpre Hov Hend HQ. unfold strcat.
  rewrite (strlen_returns _ _ _ _ H1 Hf1), (strlen_returns _ _ _ _ H2 Hf2).
  pose proof (cs_at _ _ _ H1). pose proof (cs_at _ _ _ H2). destruct (Hpre) as [[] ???].
  cbn [mbind outcome_bind]. fold e k. unwrap. fold e.
  bind_step. apply memcpy_returns; [done|done|]. intros m1 Hm1.
  replace (d + (Z.of_nat (length l1) + k)) with (e + k) by (unfold e; lia).
  bind_step. rewrite st8_Some.
  2:{ rewrite Hm1, decide_False by lia. done. }
  cbn [returns mbind]. apply HQ.
  - split.
    + apply Forall_app. split; [apply H1|apply H2].
    + rewrite length_app. lia.
    + intros i b. rewrite <-app_assoc. intros Hb. apply lookup_app_Some in Hb.
      destruct Hb as [Hb|[Hi Hb]].
      { rewrite lookup_insert_ne by (apply lookup_lt_Some in Hb; lia).
        rewrite Hm1, decide_False by (apply lookup_lt_Some in Hb; lia).
        by apply (cstring_byte _ _ _ _ _ H1). }
      apply lookup_app_Some in Hb. destruct Hb as [Hb|[Hi' Hb]].
      { rewrite lookup_insert_ne by (apply lookup_lt_Some in Hb; lia).
        rewrite Hm1, decide_True by (apply lookup_lt_Some in Hb; lia).
        destruct (cstring_byte _ _ _ _ _ H2 Hb) as [<- _]. f_equal. lia. }
      apply list_lookup_singleton_Some in Hb as [Hi'' <-].
      replace (d + Z.of_nat i) with (e + k) by lia. by rewrite lookup_insert_eq.
  - intros x Hx. rewrite lookup_insert_ne by lia. by rewrite Hm1, decide_False by lia.
Qed.

(** ** Concrete inputs *)

Lemma cstring_mem_of a full pre l post s :
  full = pre ++ (l ++ [0]) ++ post → s = a + Z.of_nat (length pre) →
  Forall (λ b, 0 < b < 2 ^ 8) l → 0 ≤ a → a + Z.of_nat (length full) + 1 < 2 ^ 64 →
  cstring (mem_of a full) s l.
Proof.
  intros -> -> Hl Ha Hlen. rewrite !length_app in Hlen. split; [done|lia|].
  intros i b Hb. rewrite mem_of_lookup by lia.
  replace (Z.to_nat _) with (length pre + i)%nat by lia.
  rewrite lookup_app_r by lia. rewrite Nat.add_comm, Nat.add_sub.
  by apply lookup_app_l_Some.
Qed.

(** "ab" at 4096, "aa" at 4099, then 34 free bytes. *)
Definition sample_strings : mem := mem_of 4096 ([97; 98; 0; 97; 97; 0] ++ replicate 34 1).

Lemma sample_ab : cstring sample_strings 4096 [97; 98].
Proof.
  apply (cstring_mem_of _ _ [] _ ([97; 97; 0] ++ replicate 34 1)); try done; try (simpl; lia).
  repeat constructor; lia.
Qed.

Lemma sample_aa : cstring sample_strings 4099 [97; 97].
Proof.
  apply (cstring_mem_of _ _ [97; 98; 0] _ (replicate 34 1)); try done; try (simpl; lia).
  repeat constructor; lia.
Qed.

Lemma sample_strings_pre D S n :
  0 ≤ n → 4096 ≤ D → D + n ≤ 4136 → 4096 ≤ S → S + n ≤ 4136 →
  copy_pre sample_strings D S n.
Proof.
  intros. apply copy_pre_mem_of; try done; try (simpl; lia).
  apply (bool_decide_unpack _). by vm_compute.
Qed.

Lemma sample_strings_fillable D n :
  0 ≤ n → 4096 ≤ D → D + n ≤ 4136 → fillable sample_strings D n.
Proof.
  intros. split; [lia|lia|]. apply (mapped_mono _ 4096 40); [by apply mem_of_mapped|lia|lia].
Qed.

(** * Properties *)

(** [strncmp] compares at most [count] bytes of two strings: it returns
    zero when they agree up to [count] bytes or their common end, and the
    difference of the first two bytes (the terminator counted as zero)
    otherwise.  It refines the list function [strncmp_spec]. *)
Theorem strncmp_refines fuel m s1 s2 l1 l2 count :
  cstring m s1 l1 → cstring m s2 l2 → 0 ≤ count < 2 ^ 64 → (length l1 < fuel)%nat →
  strncmp fuel m s1 s2 count = Ok (strncmp_spec (Z.to_nat count) l1 l2).
Proof.
  intros H1 H2 Hc Hf.
  destruct (returns_inv _ _ (strncmp_returns _ _ _ _ _ _ _ H1 H2 Hc Hf)) as (r & -> & ->).
  done.
Qed.

Lemma strncmp_refines_witness :
  strncmp 3 sample_strings 4096 4099 8 = Ok (strncmp_spec (Z.to_nat 8) [97; 98] [97; 97]) ∧
  strncmp_spec (Z.to_nat 8) [97; 98] [97; 97] = 1.
Proof.
  split; [|reflexivity]. apply strncmp_refines; [apply sample_ab|apply sample_aa|lia|simpl; lia].
Defined.

(** What [strcmp] returns at the first difference of two strings with the
    common prefix [p]: not an ordering of the two bytes that differ, but
    whether the byte [a] of the first string is below the byte [y] that comes
    {e before} the one of the second string.  So the result is never negative,
    and different strings are reported as equal: the witness has "ab" against
    "aa". *)
Theorem strcmp_first_difference fuel m s1 s2 p t1 t2 a b y :
  cstring m s1 (p ++ t1) → cstring m s2 (p ++ t2) → (length p < fuel)%nat →
  head (t1 ++ [0]) = Some a → head (t2 ++ [0]) = Some b → a ≠ b →
  0 < s2 + Z.of_nat (length p) → m !! (s2 + Z.of_nat (length p) - 1) = Some y →
  strcmp fuel m s1 s2 = Ok (if a <? y then 1 else 0).
Proof.
  intros H1 H2 Hf Ha Hb Hab Hpos Hy.
  destruct (returns_inv (strcmp fuel m s1 s2) (λ r, r = if a <? y then 1 else 0))
    as (r & -> & ->); [|done].
  apply (strcmp_loop _ _ _ _ p t1 t2); [done..|].
  intros a' b' Ha' Hb'. simplify_eq. rewrite (proj2 (Z.eqb_neq _ _) Hab). cbv zeta.
  pose proof (cs_at _ _ _ H2). rewrite length_app in *.
  unwrap. by rewrite (ld8_Some _ _ _ Hy).
Qed.

Lemma strcmp_first_difference_witness :
  strcmp 3 sample_strings 4096 4099 = Ok (if 98 <? 97 then 1 else 0) ∧
  (if 98 <? 97 then 1 else 0) = 0.
Proof.
  split; [|reflexivity].
  apply (strcmp_first_difference _ _ _ _ [97] [98] [97] 98 97 97);
    [apply sample_ab|apply sample_aa|simpl; lia|reflexivity|reflexivity|lia|simpl; lia|].
  vm_compute. reflexivity.
Defined.

(** [strnlen] returns the length of the string when it is at most
    [maxlen], and [maxlen + 1] when the string is longer: the test
    [length <= maxlen] lets it look one byte too far. *)
Theorem strnlen_overshoots fuel m s l maxlen :
  cstring m s l → 0 ≤ maxlen → (length l < fuel)%nat →
  strnlen fuel m s maxlen =
    Ok (if Z.of_nat (length l) <=? maxlen then Z.of_nat (length l) else maxlen + 1).
Proof.
  intros Hs Hn Hf. rewrite (strnlen_returns _ _ _ _ _ Hs Hn Hf). f_equal.
  destruct (Z.leb_spec (Z.of_nat (length l)) maxlen); lia.
Qed.

Lemma strnlen_overshoots_witness :
  strnlen 3 sample_strings 4096 1 = Ok (if 2 <=? 1 then 2 else 1 + 1) ∧
  (if 2 <=? 1 then 2 else 1 + 1) = 2.
Proof.
  split; [|reflexivity].
  apply (strnlen_overshoots 3 _ _ [97; 98] 1); [apply sample_ab|lia|simpl; lia].
Defined.

(** [strcat] leaves the concatenation of the two strings at [dest] and
    changes only the bytes from the old terminator to the new one. *)
Theorem strcat_appends fuel m d s l1 l2 :
  let e := d + Z.of_nat (length l1) in
  let k := Z.of_nat (length l2) in
  cstring m d l1 → cstring m s l2 → (length l1 < fuel)%nat → (length l2 < fuel)%nat →
  copy_pre m e s k → e ≤ s ∨ s + k ≤ e → is_Some (m !! (e + k)) →
  ∃ m', strcat fuel m d s = Ok (m', d) ∧ cstring m' d (l1 ++ l2) ∧
        (∀ x, x < e ∨ e + k < x → m' !! x = m !! x).
Proof.
  intros e k H1 H2 Hf1 Hf2 Hpre Hov Hend.
  destruct (returns_inv (strcat fuel m d s) (λ '(m', r), r = d ∧ cstring m' d (l1 ++ l2) ∧
    (∀ x, x < e ∨ e + k < x → m' !! x = m !! x))) as ([m' r] & Hr & -> & Hm').
  { by eapply strcat_returns. }
  by exists m'.
Qed.

Lemma strcat_appends_witness :
  ∃ m', strcat 3 sample_strings 4099 4096 = Ok (m', 4099) ∧
        cstring m' 4099 ([97; 97] ++ [97; 98]) ∧
        (∀ x, x < 4101 ∨ 4103 < x → m' !! x = sample_strings !! x).
Proof.
  apply (strcat_appends 3 sample_strings 4099 4096 [97; 97] [97; 98]);
    [apply sample_aa|apply sample_ab|simpl; lia|simpl; lia| |simpl; lia|].
  - apply sample_strings_pre; simpl; lia.
  - vm_compute. by eexists.
Defined.

(** What [strncpy] writes: the first [min (length, count)] bytes of the
    string, then zeros up to [count], and then, when the padding is at least
    eight bytes long and starts unaligned, up to seven zeros past the end of
    the destination buffer, because [memset] does. *)
Theorem strncpy_extent fuel m d s l n :
  let k := Z.min (Z.of_nat (length l)) n in
  let e := memset_excess (d + k) (n - k) in
  cstring m s l → (length l < fuel)%nat → 0 ≤ n →
  copy_pre m d s k → d ≤ s ∨ s + k ≤ d → fillable m (d + k) (n - k + e) →
  ∃ m', strncpy fuel m d s n = Ok (m', d) ∧ padded m m' d s k (n + e).
Proof.
  intros k e Hs Hf Hn Hpre Hov Hfl.
  destruct (returns_inv (strncpy fuel m d s n) (λ '(m', r), r = d ∧ padded m m' d s k (n + e)))
    as ([m' r] & Hr & -> & Hm').
  { by eapply strncpy_returns. }
  by exists m'.
Qed.

Lemma strncpy_extent_witness :
  memset_excess (4103 + 2) (10 - 2) = 7 ∧
  ∃ m', strncpy 3 sample_strings 4103 4096 10 = Ok (m', 4103) ∧
        padded sample_strings m' 4103 4096 2 (10 + memset_excess (4103 + 2) (10 - 2)).
Proof.
  split; [reflexivity|].
  apply (strncpy_extent 3 sample_strings 4103 4096 [97; 98] 10);
    [apply sample_ab|simpl; lia|lia| |simpl; lia|].
  - apply sample_strings_pre; simpl; lia.
  - change (memset_excess _ _) with 7. apply sample_strings_fillable; simpl; lia.
Defined.
