(* ===== verification/Lock.v ===== *)
(** * Locks: [kernel/include/lock.hpp]

    The ticket lock twice: as a machine of threads that interleave its atomic
    accesses, for mutual exclusion and order, and as the sequential operations
    the other components call while no other thread runs.  There, waiting for
    a ticket that nobody will serve is the outcome [Spin].  [ScopedLock] is
    modelled over a store of locks indexed by their address. *)
From S2P Require Import Prelude.

(** ** [TicketLock] *)

Record TicketLock := { next_ticket_ : Z; serving_ticket_ : Z }.

#[global] Instance TicketLock_eq_dec : EqDecision TicketLock.
Proof. solve_decision. Defined.

Definition TicketLock_init : TicketLock := {| next_ticket_ := 0; serving_ticket_ := 0 |}.

(** The atomic accesses; [size_t] counters wrap. *)
Definition fetch_add_next (l : TicketLock) : Z * TicketLock :=
  (next_ticket_ l,
   {| next_ticket_ := u64 (next_ticket_ l + 1); serving_ticket_ := serving_ticket_ l |}).

Definition store_serving (v : Z) (l : TicketLock) : TicketLock :=
  {| next_ticket_ := next_ticket_ l; serving_ticket_ := v |}.

(** The operations run to their end with no other thread running. *)
Definition is_locked (l : TicketLock) : bool :=
  let current := serving_ticket_ l in
  let next := next_ticket_ l in
  negb (current =? next).

Definition mutex_lock (l : TicketLock) : outcome TicketLock :=
  let '(ticket, l) := fetch_add_next l in
  if serving_ticket_ l =? ticket then Ok l else Spin.

Definition mutex_unlock (l : TicketLock) : TicketLock :=
  if negb (is_locked l) then l else
  let current := serving_ticket_ l in
  store_serving (u64 (current + 1)) l.

Definition mutex_try_lock (l : TicketLock) : outcome (bool * TicketLock) :=
  if is_locked l then Ok (false, l) else
  l ← mutex_lock l;
  Ok (true, l).

(** ** [ScopedLock]

    The locks live at addresses; a null mutex is [None].  Calling a member of
    a lock through a pointer to no lock is a [Fault]. *)
Abbreviation locks := (gmap Z TicketLock).

Record ScopedLock := { mutex_ : option Z; locked_ : bool }.

Definition ScopedLock_default : ScopedLock := {| mutex_ := None; locked_ := false |}.

Definition call_lock (p : option Z) (ls : locks) : outcome locks :=
  a ← of_option p;
  l ← of_option (ls !! a);
  l ← mutex_lock l;
  Ok (<[a := l]> ls).

Definition call_unlock (p : option Z) (ls : locks) : outcome locks :=
  a ← of_option p;
  l ← of_option (ls !! a);
  Ok (<[a := mutex_unlock l]> ls).

Definition call_try_lock (p : option Z) (ls : locks) : outcome (bool * locks) :=
  a ← of_option p;
  l ← of_option (ls !! a);
  '(ret, l) ← mutex_try_lock l;
  Ok (ret, <[a := l]> ls).

(** Both guards after [a.swap(b)]. *)
Definition ScopedLock_swap (a b : ScopedLock) : ScopedLock * ScopedLock :=
  ({| mutex_ := mutex_ b; locked_ := locked_ b |},
   {| mutex_ := mutex_ a; locked_ := locked_ a |}).

(** The move constructor: the new guard and what is left of [other]. *)
Definition ScopedLock_move (other : ScopedLock) : ScopedLock * ScopedLock :=
  ScopedLock_swap {| mutex_ := None; locked_ := false |} other.

Definition ScopedLock_locking (m : Z) (ls : locks) : outcome (ScopedLock * locks) :=
  ls ← call_lock (Some m) ls;
  Ok ({| mutex_ := Some m; locked_ := true |}, ls).

Definition ScopedLock_defer (m : Z) : ScopedLock :=
  {| mutex_ := Some m; locked_ := false |}.

Definition ScopedLock_try (m : Z) (ls : locks) : outcome (ScopedLock * locks) :=
  '(_, ls) ← call_try_lock (Some m) ls;
  Ok ({| mutex_ := Some m; locked_ := true |}, ls).

Definition ScopedLock_adopt (m : Z) : ScopedLock :=
  {| mutex_ := Some m; locked_ := true |}.

Definition ScopedLock_destroy (g : ScopedLock) (ls : locks) : outcome locks :=
  if locked_ g then call_unlock (mutex_ g) ls else Ok ls.

Definition ScopedLock_lock (g : ScopedLock) (ls : locks) : outcome (ScopedLock * locks) :=
  match mutex_ g with
  | Some _ =>
      ls ← call_lock (mutex_ g) ls;
      Ok ({| mutex_ := mutex_ g; locked_ := true |}, ls)
  | None => Ok (g, ls)
  end.

Definition ScopedLock_try_lock (g : ScopedLock) (ls : locks) :
    outcome (bool * ScopedLock * locks) :=
  match mutex_ g with
  | Some _ =>
      '(ret, ls) ← call_try_lock (mutex_ g) ls;
      if ret : bool then Ok (ret, {| mutex_ := mutex_ g; locked_ := true |}, ls)
      else Ok (ret, g, ls)
  | None => Ok (false, g, ls)
  end.

Definition ScopedLock_unlock (g : ScopedLock) (ls : locks) : outcome (ScopedLock * locks) :=
  match mutex_ g with
  | Some _ =>
      ls ← call_unlock (mutex_ g) ls;
      Ok ({| mutex_ := mutex_ g; locked_ := false |}, ls)
  | None => Ok (g, ls)
  end.

(** The guard assigned to, and what is left of [other]. *)
Definition ScopedLock_assign (g other : ScopedLock) (ls : locks) :
    outcome (ScopedLock * ScopedLock * locks) :=
  '(g, ls) ← (if locked_ g then ScopedLock_unlock g ls else Ok (g, ls));
  let '(g, other) := ScopedLock_swap g other in
  Ok (g, other, ls).

Definition ScopedLock_release (g : ScopedLock) : option Z * ScopedLock :=
  let ret := mutex_ g in
  (ret, {| mutex_ := None; locked_ := false |}).

Definition ScopedLock_owns_lock (g : ScopedLock) : bool := locked_ g.

(** ** Threads that share one lock *)

(** Where a thread is: outside, at one of the two loads of [try_lock]'s
    [is_locked], waiting with its ticket, inside the critical section, or at
    one of the four accesses of [unlock]. *)
Inductive pc :=
  | Outside
  | TryServing
  | TryNext (current : Z)
  | Waiting (ticket : Z)
  | Holding
  | UnlockServing
  | UnlockNext (current : Z)
  | UnlockLoad
  | UnlockStore (current : Z).

(** One atomic access of one thread.  The checks and branches between two
    accesses belong to the first of them. *)
Inductive thread_step : TicketLock → pc → TicketLock → pc → Prop :=
  | step_try l :
      thread_step l Outside l TryServing
  | step_try_serving l :
      thread_step l TryServing l (TryNext (serving_ticket_ l))
  | step_try_fails l current :
      current ≠ next_ticket_ l →
      thread_step l (TryNext current) l Outside
  | step_try_locks l l' ticket current :
      current = next_ticket_ l →
      fetch_add_next l = (ticket, l') →
      thread_step l (TryNext current) l' (Waiting ticket)
  | step_lock l l' ticket :
      fetch_add_next l = (ticket, l') →
      thread_step l Outside l' (Waiting ticket)
  | step_spin l ticket :
      serving_ticket_ l ≠ ticket →
      thread_step l (Waiting ticket) l (Waiting ticket)
  | step_enter l ticket :
      serving_ticket_ l = ticket →
      thread_step l (Waiting ticket) l Holding
  | step_unlock l :
      thread_step l Holding l UnlockServing
  | step_unlock_serving l :
      thread_step l UnlockServing l (UnlockNext (serving_ticket_ l))
  | step_unlock_not_locked l current :
      current = next_ticket_ l →
      thread_step l (UnlockNext current) l Outside
  | step_unlock_locked l current :
      current ≠ next_ticket_ l →
      thread_step l (UnlockNext current) l UnlockLoad
  | step_unlock_load l :
      thread_step l UnlockLoad l (UnlockStore (serving_ticket_ l))
  | step_unlock_store l current :
      thread_step l (UnlockStore current) (store_serving (u64 (current + 1)) l) Outside.

(** The lock and the threads that use it; every thread starts outside. *)
Record system := { sys_lock : TicketLock; sys_pc : gmap nat pc }.

Inductive system_step : system → nat → system → Prop :=
  | sys_step l pcs i p l' p' :
      pcs !! i = Some p →
      thread_step l p l' p' →
      system_step {| sys_lock := l; sys_pc := pcs |} i
                  {| sys_lock := l'; sys_pc := <[i := p']> pcs |}.

(** The states [n] threads can reach. *)
Inductive reachable (n : nat) : system → Prop :=
  | reachable_init :
      reachable n {| sys_lock := TicketLock_init;
                     sys_pc := gset_to_gmap Outside (set_seq 0 n) |}
  | reachable_step s i s' :
      reachable n s → system_step s i s' → reachable n s'.

(** Inside the critical section, the accesses of [unlock] included. *)
Definition inside (p : pc) : bool :=
  match p with
  | Holding | UnlockServing | UnlockNext _ | UnlockLoad | UnlockStore _ => true
  | _ => false
  end.

(** The ticket a thread took and has not given back. *)
Definition ticket_of (l : TicketLock) (p : pc) : option Z :=
  match p with
  | Waiting t => Some t
  | Outside | TryServing | TryNext _ => None
  | _ => Some (serving_ticket_ l)
  end.

(** ** The abstract lock: a queue of threads

    The head of the queue owns the critical section. *)
Inductive queue_step : list nat → nat → list nat → Prop :=
  | queue_stutter q i : queue_step q i q
  | queue_join q i : i ∉ q → queue_step q i (q ++ [i])
  | queue_leave q i : queue_step (i :: q) i q.

(** The queue a system implements. *)
Record queue_rel (s : system) (q : list nat) : Prop := QueueRel {
  qr_nodup : NoDup q;
  qr_next : next_ticket_ (sys_lock s) =
    u64 (serving_ticket_ (sys_lock s) + Z.of_nat (length q));
  qr_serving : 0 ≤ serving_ticket_ (sys_lock s) < 2 ^ 64;
  qr_ticket : ∀ k i, q !! k = Some i → ∃ p, sys_pc s !! i = Some p ∧
    ticket_of (sys_lock s) p =
      Some (u64 (serving_ticket_ (sys_lock s) + Z.of_nat k));
  qr_queued : ∀ i p, sys_pc s !! i = Some p →
    is_Some (ticket_of (sys_lock s) p) → i ∈ q;
  qr_inside : ∀ i p, sys_pc s !! i = Some p → inside p = true → head q = Some i;
  qr_loaded : ∀ i c, sys_pc s !! i = Some (UnlockNext c) ∨
    sys_pc s !! i = Some (UnlockStore c) → c = serving_ticket_ (sys_lock s);
}.

(** * Lemmas *)

Lemma queue_ticket_inj s a b : 
  0 ≤ a < 2 ^ 64 → 0 ≤ b < 2 ^ 64 → u64 (s + a) = u64 (s + b) → a = b.
Proof. unfold u64. intros. dlia. Qed.

(** A step that leaves the lock alone and keeps the thread's ticket. *)
Lemma queue_rel_stay l pcs q i p p' :
  queue_rel {| sys_lock := l; sys_pc := pcs |} q → pcs !! i = Some p →
  ticket_of l p' = ticket_of l p → (inside p' = true → head q = Some i) →
  (∀ c, p' = UnlockNext c ∨ p' = UnlockStore c → c = serving_ticket_ l) →
  queue_rel {| sys_lock := l; sys_pc := <[i := p']> pcs |} q.
Proof.
  intros [] Hi Ht Hin Hld. split; simpl in *; try done.
  - intros k j Hk. destruct (qr_ticket0 k j Hk) as (pj & Hj & Hkj).
    destruct (decide (i = j)) as [->|].
    + exists p'. rewrite lookup_insert_eq. split; [done|]. rewrite Ht. congruence.
    + exists pj. by rewrite lookup_insert_ne.
  - intros j pj. rewrite lookup_insert_Some. intros [[<- <-]|[??]] Hs.
    + rewrite Ht in Hs. eauto.
    + eauto.
  - intros j pj. rewrite lookup_insert_Some. intros [[<- <-]|[??]] Hs; eauto.
  - intros j c. rewrite !lookup_insert_Some.
    intros [[[<- ?]|[??]]|[[<- ?]|[??]]]; eauto.
Qed.

(** Taking a ticket is joining the queue. *)
Lemma queue_rel_join l pcs q i p :
  queue_rel {| sys_lock := l; sys_pc := pcs |} q → pcs !! i = Some p →
  ticket_of l p = None →
  (i ∉ q) ∧ queue_rel {| sys_lock := snd (fetch_add_next l);
                       sys_pc := <[i := Waiting (next_ticket_ l)]> pcs |} (q ++ [i]).
Proof.
  intros [] Hi Ht. assert (i ∉ q) as Hq.
  { intros [k Hk]%list_elem_of_lookup. destruct (qr_ticket0 k i Hk) as (? & ? & ?).
    simpl in *. congruence. }
  split; [done|]. split; simpl in *.
  - apply list.NoDup_app. split_and!; [done| |apply list.NoDup_singleton].
    intros j ? ->%list_elem_of_singleton. done.
  - rewrite qr_next0, u64_add_l, length_app. f_equal. simpl. lia.
  - done.
  - intros k j [Hk|[Hk Hj]]%lookup_app_Some.
    + destruct (qr_ticket0 k j Hk) as (pj & Hj & Hkj). exists pj.
      rewrite lookup_insert_ne; [by destruct pj|].
      intros ->. apply Hq. by eapply list_elem_of_lookup_2.
    + apply list_lookup_singleton_Some in Hj as [Hk0 <-].
      exists (Waiting (next_ticket_ l)). rewrite lookup_insert_eq. split; [done|].
      simpl. rewrite qr_next0. do 2 f_equal. lia.
  - intros j pj. rewrite lookup_insert_Some. intros [[<- <-]|[??]] Hs.
    + set_solver.
    + apply elem_of_app. left. apply (qr_queued0 j pj); [done|]. by destruct pj.
  - intros j pj. rewrite lookup_insert_Some. intros [[<- <-]|[??]] Hs; [done|].
    rewrite head_app. by rewrite (qr_inside0 j pj).
  - intros j c. rewrite !lookup_insert_Some.
    intros [[[<- ?]|[??]]|[[<- ?]|[??]]]; try done; eauto.
Qed.

(** The last store of [unlock] is leaving the queue. *)
Lemma queue_rel_leave l pcs q i c :
  queue_rel {| sys_lock := l; sys_pc := pcs |} q → Z.of_nat (length q) < 2 ^ 64 →
  pcs !! i = Some (UnlockStore c) →
  ∃ q', q = i :: q' ∧
    queue_rel {| sys_lock := store_serving (u64 (c + 1)) l;
                 sys_pc := <[i := Outside]> pcs |} q'.
Proof.
  intros [] Hlen Hi. simpl in *.
  pose proof (qr_inside0 i _ Hi eq_refl) as Hhd.
  destruct q as [|i' q']; [done|]. injection Hhd as ->. exists q'. split; [done|].
  apply list.NoDup_cons in qr_nodup0 as [Hni Hnd].
  pose proof (qr_loaded0 i c (or_intror Hi)) as ->. simpl in *.
  split; simpl.
  - done.
  - rewrite qr_next0, u64_add_l. f_equal. lia.
  - apply u64_range.
  - intros k j Hk. destruct (qr_ticket0 (S k) j Hk) as (pj & Hj & Hkj).
    assert (j ≠ i) by (intros ->; apply Hni; by eapply list_elem_of_lookup_2).
    exists pj. rewrite lookup_insert_ne by done. split; [done|].
    assert (inside pj = false) as Hout.
    { destruct (inside pj) eqn:E; [|done].
      specialize (qr_inside0 j pj Hj E). simpl in qr_inside0. congruence. }
    rewrite u64_add_l. destruct pj; simpl in *; try done.
    rewrite Hkj. do 2 f_equal. lia.
  - intros j pj. rewrite lookup_insert_Some. intros [[<- <-]|[Hne Hj]] Hs; [by destruct Hs|].
    assert (j ∈ i :: q') as Hq.
    { apply (qr_queued0 j pj); [done|]. by destruct pj. }
    apply elem_of_cons in Hq as [->|]; done.
  - intros j pj. rewrite lookup_insert_Some. intros [[<- <-]|[Hne Hj]] Hs; [done|].
    specialize (qr_inside0 j pj Hj Hs). simpl in qr_inside0. congruence.
  - intros j c. rewrite !lookup_insert_Some.
    intros [[[<- ?]|[Hne Hj]]|[[<- ?]|[Hne Hj]]]; try done;
      specialize (qr_inside0 j _ Hj eq_refl); simpl in qr_inside0; congruence.
Qed.

(** A queue of threads is shorter than a counter can count. *)
Lemma queue_rel_length n s q :
  queue_rel s q → dom (sys_pc s) = set_seq 0 n → Z.of_nat n < 2 ^ 64 →
  Z.of_nat (length q) < 2 ^ 64.
Proof.
  intros [] Hdom Hn. enough (length q ≤ n)%nat by lia.
  replace n with (length (seq 0 n)) by apply length_seq. apply submseteq_length, list.NoDup_submseteq; [done|].
  intros i [k Hk]%list_elem_of_lookup. destruct (qr_ticket0 k i Hk) as (p & Hp & _).
  apply elem_of_seq. apply elem_of_dom_2 in Hp. rewrite Hdom in Hp.
  apply elem_of_set_seq in Hp. lia.
Qed.

Lemma queue_rel_waiting_head l pcs q i :
  queue_rel {| sys_lock := l; sys_pc := pcs |} q → Z.of_nat (length q) < 2 ^ 64 →
  pcs !! i = Some (Waiting (serving_ticket_ l)) → head q = Some i.
Proof.
  intros [] Hlen Hi. simpl in *.
  destruct (list_elem_of_lookup_1 _ _ (qr_queued0 i _ Hi ltac:(by eexists))) as [k Hk].
  destruct (qr_ticket0 k i Hk) as (p & Hp & Ht).
  assert (p = Waiting (serving_ticket_ l)) as -> by congruence.
  assert (Z.of_nat k = 0) as Hk0.
  { apply (queue_ticket_inj (serving_ticket_ l)); [|lia|].
    { apply lookup_lt_Some in Hk. lia. }
    rewrite Z.add_0_r, (u64_small (serving_ticket_ l)) by done.
    simpl in Ht. congruence. }
  rewrite head_lookup, <-Hk. f_equal. lia.
Qed.

Lemma queue_rel_step s q i s' :
  queue_rel s q → Z.of_nat (length q) < 2 ^ 64 → system_step s i s' →
  ∃ q', queue_step q i q' ∧ queue_rel s' q'.
Proof.
  intros Hq Hlen Hs. destruct Hs as [l pcs i p l' p' Hi Hst].
  assert (inside p = true → head q = Some i) as Hin by (intros; by eapply qr_inside).
  destruct Hst; subst; simpl in *;
    try (by exists q; split; [constructor|]; apply (queue_rel_stay l pcs q i _ _ Hq Hi);
         [done|first [done|intros _; by apply Hin]|naive_solver]).
  - injection H0 as <- <-. destruct (queue_rel_join _ _ _ _ _ Hq Hi eq_refl).
    exists (q ++ [i]). split; [by apply queue_join|done].
  - injection H as <- <-. destruct (queue_rel_join _ _ _ _ _ Hq Hi eq_refl).
    exists (q ++ [i]). split; [by apply queue_join|done].
  - exists q. split; [constructor|]. apply (queue_rel_stay l pcs q i _ _ Hq Hi); [done| |naive_solver].
    intros _. by apply (queue_rel_waiting_head l pcs).
  - (* a holder always finds the lock locked *)
    exfalso. pose proof (qr_loaded _ _ Hq i _ (or_introl Hi)) as Hc.
    pose proof (qr_next _ _ Hq) as Hn. pose proof (qr_serving _ _ Hq) as Hsv. simpl in *.
    specialize (Hin eq_refl). assert (0 < length q)%nat by (destruct q; [done|simpl; lia]).
    enough (Z.of_nat (length q) = 0) by lia.
    apply (queue_ticket_inj (serving_ticket_ l)); [lia|lia|].
    rewrite Z.add_0_r, (u64_small (serving_ticket_ l)); congruence.
  - destruct (queue_rel_leave _ _ _ _ _ Hq Hlen Hi) as (q' & -> & Hq').
    exists q'. split; [by apply queue_leave|done].
Qed.

Lemma reachable_dom n s : reachable n s → dom (sys_pc s) = set_seq 0 n.
Proof.
  induction 1 as [|s i s' _ IH Hs]; simpl.
  { apply dom_gset_to_gmap. }
  destruct Hs as [l pcs i p l' p' Hi _]. simpl in *. rewrite dom_insert_lookup_L; [done|by eexists].
Qed.

Lemma reachable_queue n s :
  Z.of_nat n < 2 ^ 64 → reachable n s →
  ∃ q, queue_rel s q ∧ Z.of_nat (length q) < 2 ^ 64.
Proof.
  intros Hn Hr. induction Hr as [|s i s' Hr (q & Hq & Hlen) Hs].
  - exists []. split; [|done]. split; simpl; try done.
    + constructor.
    + intros i p Hp [t Ht]. apply lookup_gset_to_gmap_Some in Hp as [_ <-]. done.
    + intros i p Hp. by apply lookup_gset_to_gmap_Some in Hp as [_ <-].
    + intros i c [Hp|Hp]; by apply lookup_gset_to_gmap_Some in Hp as [_ ?].
  - destruct (queue_rel_step s q i s' Hq Hlen Hs) as (q' & _ & Hq').
    exists q'. split; [done|]. apply (queue_rel_length n s'); [done| |done].
    eapply reachable_dom. by eapply reachable_step.
Qed.

(** ** The sequential operations *)

(** Nobody holds the lock, and its counters are in range. *)
Definition lock_free (l : TicketLock) : Prop :=
  serving_ticket_ l = next_ticket_ l ∧ 0 ≤ next_ticket_ l < 2 ^ 64.

(** The lock taken once. *)
Definition lock_held (l : TicketLock) : Prop :=
  next_ticket_ l = u64 (serving_ticket_ l + 1) ∧ 0 ≤ serving_ticket_ l < 2 ^ 64.

Lemma lock_held_is_locked l : lock_held l → is_locked l = true.
Proof.
  intros [Hn Hs]. unfold is_locked. rewrite Hn.
  apply negb_true_iff, Z.eqb_neq. unfold u64. dlia.
Qed.

Lemma mutex_lock_free l : lock_free l → ∃ l', mutex_lock l = Ok l' ∧ lock_held l'.
Proof.
  intros [Hs Hn]. unfold mutex_lock. simpl. rewrite Hs, Z.eqb_refl.
  eexists. split; [done|]. by split.
Qed.

Lemma mutex_unlock_held l : lock_held l → lock_free (mutex_unlock l).
Proof.
  intros H. unfold mutex_unlock. rewrite lock_held_is_locked by done.
  destruct H as [Hn Hs]. split; simpl; [done|]. rewrite Hn. apply u64_range.
Qed.

Lemma mutex_lock_held l : lock_held l → mutex_lock l = Spin.
Proof.
  intros H. pose proof (lock_held_is_locked l H) as Hl. unfold is_locked in Hl.
  unfold mutex_lock. simpl. apply negb_true_iff in Hl. by rewrite Hl.
Qed.

(** * Properties *)

(** C14. The ticket lock is a queue of threads.  In every state that fewer than
    2^64 threads can reach by interleaving the atomic accesses of [lock],
    [try_lock] and [unlock], wrapped counters included, the tickets handed out
    spell a queue; each access of a thread leaves the queue as it is, appends
    the thread (taking a ticket) or removes the thread at its head (the last
    store of [unlock]); only the head is ever inside the critical section, and
    a head that waits is let in by its next load, so the lock never blocks all
    its threads. *)
Theorem ticket_lock_refines_queue n s :
  Z.of_nat n < 2 ^ 64 → reachable n s →
  ∃ q, queue_rel s q ∧
    (∀ i s', system_step s i s' → ∃ q', queue_step q i q' ∧ queue_rel s' q') ∧
    (∀ i p, sys_pc s !! i = Some p → inside p = true → head q = Some i) ∧
    (∀ i, head q = Some i → ∃ p, sys_pc s !! i = Some p ∧
       (inside p = true ∨ thread_step (sys_lock s) p (sys_lock s) Holding)).
Proof.
  intros Hn Hr. destruct (reachable_queue n s Hn Hr) as (q & Hq & Hlen).
  exists q. split_and!; [done| |by apply qr_inside|].
  { intros i s' Hs. by apply (queue_rel_step s). }
  intros i Hi. rewrite head_lookup in Hi.
  destruct (qr_ticket _ _ Hq _ _ Hi) as (p & Hp & Ht). exists p. split; [done|].
  rewrite Z.add_0_r, u64_small in Ht by apply (qr_serving _ _ Hq).
  destruct p; simplify_eq/=; try (by left). right. by constructor.
Qed.

(** Two threads and one step: the run a thread takes the free lock in. *)
Lemma ticket_lock_refines_queue_witness :
  let s := {| sys_lock := {| next_ticket_ := 1; serving_ticket_ := 0 |};
              sys_pc := <[1%nat := Waiting 0]> (gset_to_gmap Outside (set_seq 0 2)) |} in
  Z.of_nat 2 < 2 ^ 64 ∧ reachable 2 s ∧ ∃ q, queue_rel s q ∧
    (∀ i s', system_step s i s' → ∃ q', queue_step q i q' ∧ queue_rel s' q') ∧
    (∀ i p, sys_pc s !! i = Some p → inside p = true → head q = Some i) ∧
    (∀ i, head q = Some i → ∃ p, sys_pc s !! i = Some p ∧
       (inside p = true ∨ thread_step (sys_lock s) p (sys_lock s) Holding)).
Proof.
  intros s. assert (reachable 2 s) as Hr.
  { apply (reachable_step 2 {| sys_lock := TicketLock_init;
      sys_pc := gset_to_gmap Outside (set_seq 0 2) |} 1%nat); [constructor|].
    eapply sys_step; [reflexivity|]. by apply step_lock. }
  split; [lia|]. split; [exact Hr|].
  apply (ticket_lock_refines_queue 2 s); [lia|exact Hr].
Defined.

(** Mutual exclusion: in no reachable state of fewer than 2^64 threads are
    two threads inside the critical section that [lock] and [unlock] delimit. *)
Theorem ticket_lock_mutual_exclusion n s i j p p' :
  Z.of_nat n < 2 ^ 64 → reachable n s →
  sys_pc s !! i = Some p → sys_pc s !! j = Some p' →
  inside p = true → inside p' = true → i = j.
Proof.
  intros Hn Hr Hi Hj Hp Hp'. destruct (reachable_queue n s Hn Hr) as (q & Hq & _).
  pose proof (qr_inside _ _ Hq i p Hi Hp). pose proof (qr_inside _ _ Hq j p' Hj Hp').
  congruence.
Qed.

Lemma ticket_lock_mutual_exclusion_witness :
  let s := {| sys_lock := {| next_ticket_ := 1; serving_ticket_ := 0 |};
              sys_pc := <[0%nat := Holding]>
                (<[0%nat := Waiting 0]> (gset_to_gmap Outside (set_seq 0 2))) |} in
  reachable 2 s ∧ sys_pc s !! 0%nat = Some Holding ∧ 0%nat = 0%nat.
Proof.
  intros s. assert (reachable 2 s) as Hr.
  { apply (reachable_step 2 {| sys_lock := {| next_ticket_ := 1; serving_ticket_ := 0 |};
      sys_pc := <[0%nat := Waiting 0]> (gset_to_gmap Outside (set_seq 0 2)) |} 0%nat).
    - apply (reachable_step 2 {| sys_lock := TicketLock_init;
        sys_pc := gset_to_gmap Outside (set_seq 0 2) |} 0%nat); [constructor|].
      eapply sys_step; [reflexivity|]. by apply step_lock.
    - eapply sys_step; [reflexivity|]. by apply step_enter. }
  split; [exact Hr|]. split; [reflexivity|].
  apply (ticket_lock_mutual_exclusion 2 s 0 0 Holding Holding);
    [lia|exact Hr|reflexivity..].
Defined.

(** A guard made on a free lock takes it, any second attempt to take the
    lock while the guard lives spins for ever, and destroying the guard frees
    the lock again; other locks are untouched. *)
Theorem scoped_lock_guards ls a l :
  ls !! a = Some l → lock_free l →
  ∃ l' g, ScopedLock_locking a ls = Ok (g, <[a := l']> ls) ∧ lock_held l' ∧
    ScopedLock_owns_lock g = true ∧
    ScopedLock_locking a (<[a := l']> ls) = Spin ∧
    ∃ l'', ScopedLock_destroy g (<[a := l']> ls) = Ok (<[a := l'']> ls) ∧ lock_free l''.
Proof.
  intros Ha Hl. destruct (mutex_lock_free l Hl) as (l' & Hlock & Hheld).
  exists l', (ScopedLock_adopt a). split_and!; [|done|done| |].
  - unfold ScopedLock_locking, call_lock. simpl. rewrite Ha. simpl. by rewrite Hlock.
  - unfold ScopedLock_locking, call_lock. simpl. rewrite lookup_insert_eq. simpl.
    by rewrite mutex_lock_held.
  - exists (mutex_unlock l'). split; [|by apply mutex_unlock_held].
    unfold ScopedLock_destroy, call_unlock. simpl. rewrite lookup_insert_eq. simpl.
    by rewrite insert_insert_eq.
Qed.

Lemma scoped_lock_guards_witness :
  let l := {| next_ticket_ := 2 ^ 64 - 1; serving_ticket_ := 2 ^ 64 - 1 |} in
  lock_free l ∧
  ∃ l' g, ScopedLock_locking 8 {[8 := l]} = Ok (g, <[8 := l']> {[8 := l]}) ∧ lock_held l' ∧
    ScopedLock_owns_lock g = true ∧
    ScopedLock_locking 8 (<[8 := l']> {[8 := l]}) = Spin ∧
    ∃ l'', ScopedLock_destroy g (<[8 := l']> {[8 := l]}) = Ok (<[8 := l'']> {[8 := l]}) ∧
      lock_free l''.
Proof.
  intros l. assert (lock_free l) as Hl by (split; [reflexivity|simpl; lia]).
  split; [exact Hl|].
  apply (scoped_lock_guards {[8 := l]} 8 l); [reflexivity|exact Hl].
Defined.

(** A guard made with [try_to_lock] on a lock somebody else holds ignores
    that [try_lock] failed and believes it owns the lock: destroying the guard
    releases the other's lock. *)
Theorem scoped_try_lock_releases ls a l :
  ls !! a = Some l → lock_held l →
  ∃ g l', ScopedLock_try a ls = Ok (g, ls) ∧ ScopedLock_owns_lock g = true ∧
    ScopedLock_destroy g ls = Ok (<[a := l']> ls) ∧ lock_free l'.
Proof.
  intros Ha Hl. exists (ScopedLock_adopt a), (mutex_unlock l). split_and!.
  - unfold ScopedLock_try, call_try_lock, mutex_try_lock. simpl. rewrite Ha. simpl.
    rewrite lock_held_is_locked by done. simpl. by rewrite insert_id.
  - done.
  - unfold ScopedLock_destroy, call_unlock. simpl. by rewrite Ha.
  - by apply mutex_unlock_held.
Qed.

Lemma scoped_try_lock_releases_witness :
  let l := {| next_ticket_ := 5; serving_ticket_ := 4 |} in
  lock_held l ∧
  ∃ g l', ScopedLock_try 8 {[8 := l]} = Ok (g, {[8 := l]}) ∧ ScopedLock_owns_lock g = true ∧
    ScopedLock_destroy g {[8 := l]} = Ok (<[8 := l']> {[8 := l]}) ∧ lock_free l'.
Proof.
  intros l. assert (lock_held l) as Hl by (split; [reflexivity|simpl; lia]).
  split; [exact Hl|].
  apply (scoped_try_lock_releases {[8 := l]} 8 l); [reflexivity|exact Hl].
Defined.
