(* ===== verification/Bitmap.v ===== *)
(** * Bitmaps over memory: [kernel/include/libs/bitmap.hpp]

    A [Bitmap] is a pointer to bytes and a number of bits; reading and setting
    a bit are accesses to the memory.  [assert] is the one of the kernel's debug
    build ([kernel/glue/libc/assert.c]): a failed assertion is a [Panic]. *)
From S2P Require Import Prelude Mem.

Definition assert (b : bool) : outcome unit := if b then Ok tt else Panic.

(** [enum BitmapMark], as the [bool]s the bitmap stores. *)
Definition BITMAP_FREE : bool := false.
Definition BITMAP_USED : bool := true.

Record Bitmap := { buffer_ : Z; size_ : Z }.

Definition Bitmap_default : Bitmap := {| buffer_ := 0; size_ := 0 |}.

Definition Bitmap_initialize (buffer size : Z) : outcome Bitmap :=
  _ ← assert (negb (buffer =? 0) && negb (size =? 0));
  Ok {| buffer_ := buffer; size_ := size |}.

Definition Bitmap_byte (m : mem) (b : Bitmap) (index : Z) : outcome Z :=
  _ ← assert (index <? size_ b);
  ld8 m (u64 (buffer_ b + index / 8)).

Definition Bitmap_bit (m : mem) (b : Bitmap) (index : Z) : outcome bool :=
  _ ← assert (index <? size_ b);
  x ← Bitmap_byte m b index;
  Ok (has x (Z.shiftl 1 (index mod 8))).

(** The operands of [|=] and [&=] are promoted to [int], and the store keeps
    the low byte. *)
Definition Bitmap_set (m : mem) (b : Bitmap) (index : Z) (val : bool) : outcome mem :=
  _ ← assert (index <? size_ b);
  let a := u64 (buffer_ b + index / 8) in
  x ← ld8 m a;
  if val
  then st8 m a (Z.lor x (Z.shiftl 1 (index mod 8)))
  else st8 m a (Z.land x (Z.lnot (Z.shiftl 1 (index mod 8)))).

(** ** What a bitmap represents *)

(** Bit [i] of the bitmap; unmapped bytes count as set. *)
Definition bit_at (m : mem) (b : Bitmap) (i : Z) : bool :=
  match m !! (buffer_ b + i / 8) with
  | Some x => Z.testbit x (i mod 8)
  | None => true
  end.

(** The bytes of the bitmap are mapped and no address wraps. *)
Record bitmap_ok (m : mem) (b : Bitmap) : Prop := BitmapOk {
  bm_size : 0 < size_ b < 2 ^ 64 ∧ size_ b mod 8 = 0;
  bm_buf : 0 < buffer_ b ∧ buffer_ b + size_ b / 8 < 2 ^ 64;
  bm_map : mapped m (buffer_ b) (size_ b / 8);
  bm_bytes : bytes_ok m;
}.

(** The address belongs to the bitmap's bytes. *)
Definition in_bitmap (b : Bitmap) (x : Z) : Prop :=
  buffer_ b ≤ x < buffer_ b + size_ b / 8.

#[global] Instance in_bitmap_dec b x : Decision (in_bitmap b x).
Proof. unfold in_bitmap. apply _. Defined.

(** [m'] is [m] but for bytes of the bitmap. *)
Definition bitmap_frame (m m' : mem) (b : Bitmap) : Prop :=
  (∀ x, ¬ in_bitmap b x → m' !! x = m !! x) ∧
  (∀ x, is_Some (m !! x) → is_Some (m' !! x)) ∧ (bytes_ok m → bytes_ok m').

(** * Lemmas *)

Lemma bitmap_frame_refl m b : bitmap_frame m m b.
Proof. by split_and!. Qed.

Lemma bitmap_frame_trans m1 m2 m3 b :
  bitmap_frame m1 m2 b → bitmap_frame m2 m3 b → bitmap_frame m1 m3 b.
Proof.
  intros (H1 & H2 & H3) (H4 & H5 & H6). split_and!.
  - intros x Hx. by rewrite H4, H1.
  - eauto.
  - eauto.
Qed.

Lemma bitmap_ok_frame m m' b : bitmap_frame m m' b → bitmap_ok m b → bitmap_ok m' b.
Proof.
  intros (_ & Hd & Hb) []. split; try done; [|by apply Hb].
  intros x Hx. by apply Hd, bm_map0.
Qed.

Lemma shiftl_1_mod i : Z.shiftl 1 (i mod 8) = 2 ^ (i mod 8).
Proof. rewrite Z.shiftl_mul_pow2 by dlia. lia. Qed.

Lemma Bitmap_bit_returns m b i (Q : bool → Prop) :
  bitmap_ok m b → 0 ≤ i < size_ b → Q (bit_at m b i) → returns (Bitmap_bit m b i) Q.
Proof.
  intros [] Hi HQ. unfold Bitmap_bit, Bitmap_byte.
  rewrite (proj2 (Z.ltb_lt i (size_ b))) by lia. simpl.
  bind_step. rewrite u64_small by dlia. unfold bit_at in HQ.
  apply ld8_returns; [apply bm_map0; dlia|]. intros x Hx. rewrite Hx in HQ. simpl.
  by rewrite shiftl_1_mod, has_pow2 by dlia.
Qed.

Lemma set_bit_range x i (v : bool) :
  0 ≤ x < 2 ^ 8 → 0 ≤ i < 8 →
  0 ≤ (if v then Z.lor x (2 ^ i) else Z.land x (Z.lnot (2 ^ i))) < 2 ^ 8.
Proof.
  intros Hx Hi.
  assert (∀ y, 0 ≤ y < 0 + 4096 → let x := y / 16 in let i := y / 2 mod 8 in
    let v := Z.odd y in
    0 ≤ (if v then Z.lor x (2 ^ i) else Z.land x (Z.lnot (2 ^ i))) < 2 ^ 8) as Hall.
  { apply (forall_range (λ y, let x := y / 16 in let i := y / 2 mod 8 in
      let v := Z.odd y in
      0 ≤ (if v then Z.lor x (2 ^ i) else Z.land x (Z.lnot (2 ^ i))) < 2 ^ 8)).
    by vm_compute. }
  specialize (Hall (16 * x + 2 * i + Z.b2z v) ltac:(destruct v; simpl; lia)). simpl in Hall.
  replace ((16 * x + 2 * i + Z.b2z v) / 16) with x in Hall by (destruct v; simpl; dlia).
  replace ((16 * x + 2 * i + Z.b2z v) / 2 mod 8) with i in Hall by (destruct v; simpl; dlia).
  replace (Z.odd (16 * x + 2 * i + Z.b2z v)) with v in Hall; [done|].
  replace (16 * x + 2 * i + Z.b2z v) with (Z.b2z v + 2 * (8 * x + i)) by lia.
  rewrite Z.odd_add_mul_2. by destruct v.
Qed.

Lemma set_bit_testbit x i j (v : bool) :
  0 ≤ i → 0 ≤ j →
  Z.testbit (if v then Z.lor x (2 ^ i) else Z.land x (Z.lnot (2 ^ i))) j =
  if decide (j = i) then v else Z.testbit x j.
Proof.
  intros Hi Hj. destruct v.
  - rewrite Z.lor_spec, Z.pow2_bits_eqb by lia.
    case_decide as E; destruct (Z.eqb_spec i j); try congruence;
      by destruct (Z.testbit x j).
  - rewrite Z.land_spec, Z.lnot_spec, Z.pow2_bits_eqb by lia.
    case_decide as E; destruct (Z.eqb_spec i j); try congruence;
      by destruct (Z.testbit x j).
Qed.

Lemma Bitmap_set_returns m b i v (Q : mem → Prop) :
  bitmap_ok m b → 0 ≤ i < size_ b →
  (∀ m', bitmap_frame m m' b →
     (∀ j, 0 ≤ j < size_ b → bit_at m' b j = if decide (j = i) then v else bit_at m b j) →
     Q m') →
  returns (Bitmap_set m b i v) Q.
Proof.
  intros [] Hi HQ. unfold Bitmap_set.
  rewrite (proj2 (Z.ltb_lt i (size_ b))) by lia. simpl.
  rewrite u64_small by dlia. bind_step.
  apply ld8_returns; [apply bm_map0; dlia|]. intros x Hx.
  pose proof (bm_bytes0 _ _ Hx) as Hxr. rewrite shiftl_1_mod.
  replace (if v then st8 m (buffer_ b + i / 8) (Z.lor x (2 ^ (i mod 8)))
           else st8 m (buffer_ b + i / 8) (Z.land x (Z.lnot (2 ^ (i mod 8)))))
    with (st8 m (buffer_ b + i / 8)
      (if v then Z.lor x (2 ^ (i mod 8)) else Z.land x (Z.lnot (2 ^ (i mod 8)))))
    by by destruct v.
  rewrite st8_Some by eauto.
  rewrite u8_small by (apply set_bit_range; [done|dlia]).
  simpl. apply HQ.
  - split_and!.
    + intros y Hy. rewrite lookup_insert_ne; [done|]. unfold in_bitmap in Hy. dlia.
    + intros y Hy. destruct (decide (y = buffer_ b + i / 8)) as [->|].
      * rewrite lookup_insert_eq. by eexists.
      * by rewrite lookup_insert_ne.
    + intros _ y z. rewrite lookup_insert_Some. intros [[_ <-]|[_ ?]]; [|by eapply bm_bytes0].
      apply set_bit_range; [done|dlia].
  - intros j Hj. unfold bit_at. destruct (decide (j / 8 = i / 8)) as [E|E].
    + rewrite E, lookup_insert_eq, set_bit_testbit, Hx by dlia.
      repeat case_decide; try done; exfalso; dlia.
    + rewrite lookup_insert_ne by lia. by rewrite decide_False by (intros ->; lia).
Qed.
