(* ===== verification/Addr.v ===== *)
(** * Addresses and pages: [kernel/include/memory/memory.hpp]

    The direct map of physical memory and the alignment helpers every memory
    component uses.  The offset of the direct map comes from the boot loader's
    answer to [hhdm_request] (kernel/limine.c); it is the class parameter
    [Hhdm]. *)
From S2P Require Import Prelude.

(** [hhdm_request.response->offset]. *)
Class Hhdm := hhdm_offset : Z.

Definition PAGE_SIZE : Z := 0x1000.
Definition PAGE_SIZE_2MiB : Z := 0x200000.
Definition PAGE_SIZE_1GiB : Z := 0x40000000.

Definition is_higher_half `{Hhdm} (addr : Z) : bool := hhdm_offset <=? addr.

Definition to_higher_half `{Hhdm} (addr : Z) : Z :=
  if is_higher_half addr then addr else u64 (addr + hhdm_offset).

Definition from_higher_half `{Hhdm} (addr : Z) : Z :=
  if negb (is_higher_half addr) then addr else u64 (addr - hhdm_offset).

(** [~(size - 1)] on 64 bits. *)
Definition align_down (addr size : Z) : Z :=
  Z.land addr (u64 (Z.lnot (u64 (size - 1)))).

Definition align_up (addr size : Z) : Z := align_down (u64 (u64 (addr + size) - 1)) size.

Definition div_roundup (addr size : Z) : Z := align_down addr size / size.

Definition is_aligned (addr size : Z) : bool := align_down addr size =? addr.

(** * Lemmas *)

(** What the boot loader documents of the direct map: it starts page-aligned
    in the higher half. *)
Definition hhdm_ok `{Hhdm} : Prop :=
  0 < hhdm_offset < 2 ^ 64 ∧ hhdm_offset mod PAGE_SIZE = 0.

Lemma lnot_mask k : 0 ≤ k ≤ 64 → u64 (Z.lnot (u64 (2 ^ k - 1))) = 2 ^ 64 - 2 ^ k.
Proof.
  intros Hk. assert (2 ^ k ≤ 2 ^ 64) by (apply Z.pow_le_mono_r; lia).
  assert (0 < 2 ^ k) by (apply Z.pow_pos_nonneg; lia).
  rewrite (u64_small (2 ^ k - 1)) by lia. unfold Z.lnot, u64, Z.pred.
  replace (- (2 ^ k - 1) + -1) with (2 ^ 64 - 2 ^ k + -1 * 2 ^ 64) by lia.
  rewrite Z.mod_add by lia. apply Z.mod_small. lia.
Qed.

Lemma align_down_pow2 a k :
  0 ≤ a < 2 ^ 64 → 0 ≤ k ≤ 64 → align_down a (2 ^ k) = a / 2 ^ k * 2 ^ k.
Proof. intros ??. unfold align_down. by rewrite lnot_mask, land_align by lia. Qed.

Lemma align_down_page a : 0 ≤ a < 2 ^ 64 → align_down a PAGE_SIZE = a / 4096 * 4096.
Proof. intros. apply (align_down_pow2 a 12); lia. Qed.

Lemma align_up_page a :
  0 ≤ a < 2 ^ 64 - 4096 → align_up a PAGE_SIZE = (a + 4095) / 4096 * 4096.
Proof.
  intros Ha. unfold align_up. change (a + PAGE_SIZE) with (a + 4096).
  rewrite (u64_small (a + 4096)), (u64_small (a + 4096 - 1)) by lia.
  rewrite align_down_page by lia. do 2 f_equal. lia.
Qed.

Lemma to_higher_half_low `{Hhdm} a :
  0 ≤ a → a < hhdm_offset → a + hhdm_offset < 2 ^ 64 →
  to_higher_half a = a + hhdm_offset.
Proof.
  intros ???. unfold to_higher_half, is_higher_half.
  rewrite (proj2 (Z.leb_gt _ _)) by lia. rewrite u64_small; lia.
Qed.

Lemma from_to_higher_half_low `{Hhdm} a :
  0 ≤ a → a < hhdm_offset → a + hhdm_offset < 2 ^ 64 →
  from_higher_half (to_higher_half a) = a.
Proof.
  intros ???. rewrite to_higher_half_low by done. unfold from_higher_half, is_higher_half.
  rewrite (proj2 (Z.leb_le _ _)) by lia. simpl. rewrite u64_small; lia.
Qed.
