(* ===== verification/Physical.v ===== *)
(** * Physical memory: [kernel/memory/physical.cpp]

    A bitmap with one bit per page below the highest usable address, kept in
    usable memory itself, a next-fit search over it, and page statistics.  The
    state is the memory, the bitmap's pointer and size, the statistics, the lock
    and the search position; the boot loader's memory map is a list of entries.
    The log messages are left out. *)
From S2P Require Import Prelude Mem MemCopy MemSet Lock Bitmap Addr.

(** ** State *)

Record PhysicalMemoryStats := {
  highest_physical_addr : Z;
  lowest_usable_addr : Z;
  highest_usable_addr : Z;
  total_pages : Z;
  usable_pages : Z;
  used_pages : Z;
  free_pages : Z;
}.

(** The types [physical.cpp] and [virtual.cpp] tell apart; the constants are the
    boot loader's. *)
Inductive memmap_type :=
  | LIMINE_MEMMAP_USABLE
  | LIMINE_MEMMAP_KERNEL_AND_MODULES
  | LIMINE_MEMMAP_BOOTLOADER_RECLAIMABLE
  | LIMINE_MEMMAP_FRAMEBUFFER
  | LIMINE_MEMMAP_OTHER.

Record limine_memmap_entry := { base : Z; length_ : Z; type : memmap_type }.

Definition usable (e : limine_memmap_entry) : bool :=
  match type e with LIMINE_MEMMAP_USABLE => true | _ => false end.

Record phys := {
  phys_mem : mem;
  phys_stats : PhysicalMemoryStats;
  phys_bitmap : Bitmap;
  phys_lock : TicketLock;
  bitmap_last_index : Z;
}.

Definition phys_stats_zero : PhysicalMemoryStats :=
  {| highest_physical_addr := 0; lowest_usable_addr := 0; highest_usable_addr := 0;
     total_pages := 0; usable_pages := 0; used_pages := 0; free_pages := 0 |}.

(** The globals at start-up, over the memory the kernel finds. *)
Definition phys_start (m : mem) : phys :=
  {| phys_mem := m; phys_stats := phys_stats_zero; phys_bitmap := Bitmap_default;
     phys_lock := TicketLock_init; bitmap_last_index := 0 |}.

Definition set_mem (m : mem) (s : phys) : phys :=
  {| phys_mem := m; phys_stats := phys_stats s; phys_bitmap := phys_bitmap s;
     phys_lock := phys_lock s; bitmap_last_index := bitmap_last_index s |}.
Definition set_stats (st : PhysicalMemoryStats) (s : phys) : phys :=
  {| phys_mem := phys_mem s; phys_stats := st; phys_bitmap := phys_bitmap s;
     phys_lock := phys_lock s; bitmap_last_index := bitmap_last_index s |}.
Definition set_bitmap (b : Bitmap) (s : phys) : phys :=
  {| phys_mem := phys_mem s; phys_stats := phys_stats s; phys_bitmap := b;
     phys_lock := phys_lock s; bitmap_last_index := bitmap_last_index s |}.
Definition set_lock (l : TicketLock) (s : phys) : phys :=
  {| phys_mem := phys_mem s; phys_stats := phys_stats s; phys_bitmap := phys_bitmap s;
     phys_lock := l; bitmap_last_index := bitmap_last_index s |}.
Definition set_last_index (i : Z) (s : phys) : phys :=
  {| phys_mem := phys_mem s; phys_stats := phys_stats s; phys_bitmap := phys_bitmap s;
     phys_lock := phys_lock s; bitmap_last_index := i |}.

(** [used_pages += d; free_pages -= d]. *)
Definition count_used (d : Z) (st : PhysicalMemoryStats) : PhysicalMemoryStats :=
  {| highest_physical_addr := highest_physical_addr st;
     lowest_usable_addr := lowest_usable_addr st;
     highest_usable_addr := highest_usable_addr st;
     total_pages := total_pages st; usable_pages := usable_pages st;
     used_pages := u64 (used_pages st + d);
     free_pages := u64 (free_pages st - d) |}.

(** ** [physical_initialize] *)

(** One turn of the loop over the memory map. *)
Definition scan_entry (st : PhysicalMemoryStats) (e : limine_memmap_entry) :
    PhysicalMemoryStats :=
  let limit := u64 (base e + length_ e) in
  let hpa := Z.max (highest_physical_addr st) limit in
  match type e with
  | LIMINE_MEMMAP_USABLE =>
      {| highest_physical_addr := hpa;
         lowest_usable_addr := Z.min (lowest_usable_addr st) limit;
         highest_usable_addr := Z.max (highest_usable_addr st) limit;
         total_pages := u64 (total_pages st + length_ e / PAGE_SIZE);
         usable_pages := u64 (usable_pages st + length_ e / PAGE_SIZE);
         used_pages := used_pages st; free_pages := free_pages st |}
  | LIMINE_MEMMAP_KERNEL_AND_MODULES | LIMINE_MEMMAP_BOOTLOADER_RECLAIMABLE =>
      {| highest_physical_addr := hpa;
         lowest_usable_addr := lowest_usable_addr st;
         highest_usable_addr := highest_usable_addr st;
         total_pages := u64 (total_pages st + length_ e / PAGE_SIZE);
         usable_pages := usable_pages st;
         used_pages := used_pages st; free_pages := free_pages st |}
  | LIMINE_MEMMAP_FRAMEBUFFER | LIMINE_MEMMAP_OTHER =>
      {| highest_physical_addr := hpa;
         lowest_usable_addr := lowest_usable_addr st;
         highest_usable_addr := highest_usable_addr st;
         total_pages := total_pages st;
         usable_pages := usable_pages st;
         used_pages := used_pages st; free_pages := free_pages st |}
  end.

Definition fix_lowest (st : PhysicalMemoryStats) : PhysicalMemoryStats :=
  if lowest_usable_addr st =? 0 then
    {| highest_physical_addr := highest_physical_addr st;
       lowest_usable_addr := 0x1000;
       highest_usable_addr := highest_usable_addr st;
       total_pages := total_pages st; usable_pages := usable_pages st;
       used_pages := used_pages st; free_pages := free_pages st |}
  else st.

Definition add_used (d : Z) (st : PhysicalMemoryStats) : PhysicalMemoryStats :=
  {| highest_physical_addr := highest_physical_addr st;
     lowest_usable_addr := lowest_usable_addr st;
     highest_usable_addr := highest_usable_addr st;
     total_pages := total_pages st; usable_pages := usable_pages st;
     used_pages := u64 (used_pages st + d); free_pages := free_pages st |}.

Definition set_free (st : PhysicalMemoryStats) : PhysicalMemoryStats :=
  {| highest_physical_addr := highest_physical_addr st;
     lowest_usable_addr := lowest_usable_addr st;
     highest_usable_addr := highest_usable_addr st;
     total_pages := total_pages st; usable_pages := usable_pages st;
     used_pages := used_pages st;
     free_pages := u64 (usable_pages st - used_pages st) |}.

(** The entry that gives up its first [bitmap_size] bytes to the bitmap. *)
Definition shrink_entry (bitmap_size : Z) (e : limine_memmap_entry) : limine_memmap_entry :=
  {| base := u64 (base e + bitmap_size); length_ := u64 (length_ e - bitmap_size);
     type := type e |}.

Section initialize.
Context `{Hhdm}.

(** The loop that puts the bitmap into the first usable entry that is large
    enough, and leaves at the [break]. *)
Fixpoint place_bitmap (bitmap_size bitmap_entries : Z) (memmaps : list limine_memmap_entry)
    (s : phys) : outcome (phys * list limine_memmap_entry) :=
  match memmaps with
  | [] => Ok (s, [])
  | e :: rest =>
      if negb (usable e) then
        '(s, rest) ← place_bitmap bitmap_size bitmap_entries rest s;
        Ok (s, e :: rest)
      else if bitmap_size <=? length_ e then
        b ← Bitmap_initialize (to_higher_half (base e)) bitmap_entries;
        '(m, _) ← memset (phys_mem s) (buffer_ b) 0xff bitmap_entries;
        let s := set_stats (add_used (div_roundup bitmap_size PAGE_SIZE) (phys_stats s))
                   (set_bitmap b (set_mem m s)) in
        Ok (s, shrink_entry bitmap_size e :: rest)
      else
        '(s, rest) ← place_bitmap bitmap_size bitmap_entries rest s;
        Ok (s, e :: rest)
  end.

(** The pages of one entry are marked free. *)
Definition free_entry (b : Bitmap) (m : mem) (e : limine_memmap_entry) : outcome mem :=
  loop (S (S (Z.to_nat (length_ e / PAGE_SIZE))))
    (λ '(m, j),
       if j <? length_ e then
         m ← Bitmap_set m b (u64 (base e + j) / PAGE_SIZE) BITMAP_FREE;
         Ok (inl (m, u64 (j + PAGE_SIZE)))
       else Ok (inr m))
    (m, 0).

Fixpoint free_entries (b : Bitmap) (memmaps : list limine_memmap_entry) (m : mem) :
    outcome mem :=
  match memmaps with
  | [] => Ok m
  | e :: rest =>
      if negb (usable e) then free_entries b rest m else
      m ← free_entry b m e;
      free_entries b rest m
  end.

Definition physical_initialize (memmaps : list limine_memmap_entry) (s : phys) :
    outcome (phys * list limine_memmap_entry) :=
  let s := set_stats (fix_lowest (foldl scan_entry (phys_stats s) memmaps)) s in
  let bitmap_entries := highest_usable_addr (phys_stats s) / PAGE_SIZE in
  let bitmap_size := align_up (bitmap_entries / 8) PAGE_SIZE in
  let bitmap_entries := u64 (bitmap_size * 8) in
  '(s, memmaps) ← place_bitmap bitmap_size bitmap_entries memmaps s;
  m ← free_entries (phys_bitmap s) memmaps (phys_mem s);
  Ok (set_stats (set_free (phys_stats s)) (set_mem m s), memmaps).

(** [memcpy(dest, &phys_stats, sizeof(PhysicalMemoryStats))]. *)
Definition physical_get_status (s : phys) : PhysicalMemoryStats := phys_stats s.

(** ** [physical_allocate] *)

(** [for(j = page; j < last; j++) phys_bitmap[j] = BITMAP_USED]. *)
Definition mark_used (b : Bitmap) (m : mem) (page last : Z) : outcome mem :=
  loop (S (Z.to_nat (last - page)))
    (λ '(m, j),
       if j <? last then
         m ← Bitmap_set m b j BITMAP_USED;
         Ok (inl (m, u64 (j + 1)))
       else Ok (inr m))
    (m, page).

(** The lambda [allocate_internal]; [nullptr] is 0. *)
Definition allocate_internal (count limit : Z) (s : phys) : outcome (phys * Z) :=
  loop (S (Z.to_nat (limit - bitmap_last_index s)))
    (λ '(s, i),
       if bitmap_last_index s <? limit then
         let index := bitmap_last_index s in
         let s := set_last_index (u64 (index + 1)) s in
         bit ← Bitmap_bit (phys_mem s) (phys_bitmap s) index;
         if bool_decide (bit = BITMAP_FREE) then
           let i := u64 (i + 1) in
           if i =? count then
             let page := u64 (bitmap_last_index s - count) in
             m ← mark_used (phys_bitmap s) (phys_mem s) page (bitmap_last_index s);
             Ok (inr (set_mem m s, u64 (page * PAGE_SIZE)))
           else Ok (inl (s, i))
         else Ok (inl (s, 0))
       else Ok (inr (s, 0)))
    (s, 0).

(** What runs while the guard holds the lock. *)
Definition allocate_locked (count : Z) (s : phys) : outcome (phys * Z) :=
  let index := bitmap_last_index s in
  '(s, ret) ← allocate_internal count (highest_usable_addr (phys_stats s) / PAGE_SIZE) s;
  '(s, ret) ←
    (if ret =? 0 then
       let s := set_last_index 0 s in
       '(s, ret) ← allocate_internal count index s;
       if ret =? 0 then Panic else Ok (s, ret)
     else Ok (s, ret));
  '(m, _) ← memset (phys_mem s) (to_higher_half ret) 0 (u64 (count * PAGE_SIZE));
  Ok (set_stats (count_used count (phys_stats s)) (set_mem m s), ret).

Definition physical_allocate (count : Z) (s : phys) : outcome (phys * Z) :=
  if count =? 0 then Ok (s, 0) else
  l ← mutex_lock (phys_lock s);
  '(s, ret) ← allocate_locked count (set_lock l s);
  Ok (set_lock (mutex_unlock (phys_lock s)) s, ret).

(** ** [physical_free] *)

Definition free_locked (ptr count : Z) (s : phys) : outcome phys :=
  let page := ptr / PAGE_SIZE in
  m ← loop (S (Z.to_nat count))
        (λ '(m, i),
           if i <? u64 (page + count) then
             m ← Bitmap_set m (phys_bitmap s) i BITMAP_FREE;
             Ok (inl (m, u64 (i + 1)))
           else Ok (inr m))
        (phys_mem s, page);
  Ok (set_stats (count_used (- count) (phys_stats s)) (set_mem m s)).

Definition physical_free (ptr count : Z) (s : phys) : outcome phys :=
  if ptr =? 0 then Ok s else
  l ← mutex_lock (phys_lock s);
  s ← free_locked ptr count (set_lock l s);
  Ok (set_lock (mutex_unlock (phys_lock s)) s).
End initialize.

(** ** The abstract allocator: a set of free page numbers and a position *)

Definition pages (p n : Z) : gset Z := list_to_set (seqZ p n).

Record pool := { pool_free : gset Z; pool_limit : Z; pool_next : Z }.

(** The lowest run of [count] free pages within [lo, hi). *)
Definition find_run (F : gset Z) (count lo hi : Z) : option Z :=
  head (filter (λ p, pages p count ⊆ F) (seqZ lo (hi - count - lo + 1))).

(** Next fit: from the position to the limit, then from 0 to the position. *)
Definition pool_find (count : Z) (p : pool) : option Z :=
  match find_run (pool_free p) count (pool_next p) (pool_limit p) with
  | Some i => Some i
  | None => find_run (pool_free p) count 0 (pool_next p)
  end.

Definition pool_take (i count : Z) (p : pool) : pool :=
  {| pool_free := pool_free p ∖ pages i count; pool_limit := pool_limit p;
     pool_next := i + count |}.

Definition pool_give (i count : Z) (p : pool) : pool :=
  {| pool_free := pool_free p ∪ pages i count; pool_limit := pool_limit p;
     pool_next := pool_next p |}.

(** The pool a state implements. *)
Definition free_bits (m : mem) (b : Bitmap) : gset Z :=
  list_to_set (filter (λ i, bit_at m b i = BITMAP_FREE) (seqZ 0 (size_ b))).

Definition page_limit (s : phys) : Z := highest_usable_addr (phys_stats s) / PAGE_SIZE.

Definition pool_of (s : phys) : pool :=
  {| pool_free := free_bits (phys_mem s) (phys_bitmap s); pool_limit := page_limit s;
     pool_next := bitmap_last_index s |}.

(** A page the allocator may hand out: it can be reached through the direct map
    and none of its bytes hold the bitmap. *)
Record page_ok `{H : Hhdm} (m : mem) (b : Bitmap) (limit i : Z) : Prop := PageOk {
  pg_range : 1 ≤ i < limit;
  pg_map : mapped m (hhdm_offset + i * PAGE_SIZE) PAGE_SIZE;
  pg_apart : ∀ x, in_bitmap b x →
    ¬ (hhdm_offset + i * PAGE_SIZE ≤ x < hhdm_offset + i * PAGE_SIZE + PAGE_SIZE);
}.

Record phys_ok `{H : Hhdm} (s : phys) : Prop := PhysOk {
  ph_hhdm : hhdm_ok;
  ph_bitmap : bitmap_ok (phys_mem s) (phys_bitmap s);
  ph_limit : 0 ≤ page_limit s ≤ size_ (phys_bitmap s);
  ph_next : 0 ≤ bitmap_last_index s ≤ page_limit s;
  ph_direct : page_limit s * PAGE_SIZE ≤ hhdm_offset ∧
              hhdm_offset + page_limit s * PAGE_SIZE < 2 ^ 64 ∧
              page_limit s * PAGE_SIZE ≤ 2 ^ 52;
  ph_lock : lock_free (phys_lock s);
  ph_pages : ∀ i, i ∈ pool_free (pool_of s) →
    page_ok (phys_mem s) (phys_bitmap s) (page_limit s) i;
  ph_free : free_pages (phys_stats s) = Z.of_nat (size (pool_free (pool_of s)));
  ph_used : 0 ≤ used_pages (phys_stats s) ∧
    used_pages (phys_stats s) + free_pages (phys_stats s) = usable_pages (phys_stats s) ∧
    usable_pages (phys_stats s) < 2 ^ 64;
}.

(** * Lemmas *)

Lemma elem_of_pages i p n : i ∈ pages p n ↔ p ≤ i < p + n.
Proof. unfold pages. rewrite elem_of_list_to_set, elem_of_seqZ. lia. Qed.

Lemma size_pages p n : 0 ≤ n → Z.of_nat (size (pages p n)) = n.
Proof.
  intros Hn. unfold pages. rewrite size_list_to_set by apply NoDup_seqZ.
  rewrite length_seqZ. lia.
Qed.

Lemma pages_subseteq p n F : pages p n ⊆ F ↔ ∀ i, p ≤ i < p + n → i ∈ F.
Proof. unfold subseteq, set_subseteq_instance. by setoid_rewrite elem_of_pages. Qed.

Lemma elem_of_free_bits m b i :
  i ∈ free_bits m b ↔ 0 ≤ i < size_ b ∧ bit_at m b i = BITMAP_FREE.
Proof.
  unfold free_bits. rewrite elem_of_list_to_set, list_elem_of_filter, elem_of_seqZ.
  rewrite Z.add_0_l. tauto.
Qed.

(** The first element of a range with a property. *)
Lemma head_filter_seqZ (P : Z → Prop) `{∀ x, Decision (P x)} lo n :
  match head (filter P (seqZ lo n)) with
  | Some p => lo ≤ p < lo + n ∧ P p ∧ ∀ q, lo ≤ q < p → ¬ P q
  | None => ∀ q, lo ≤ q < lo + n → ¬ P q
  end.
Proof.
  destruct (decide (0 < n)) as [Hn|]; [|rewrite seqZ_nil by lia; simpl; lia].
  revert lo. replace n with (Z.of_nat (Z.to_nat n)) by lia.
  generalize (Z.to_nat n). clear n Hn. induction n as [|n IH]; intros lo; [simpl; lia|].
  rewrite seqZ_cons, filter_cons by lia.
  replace (Z.pred (Z.of_nat (S n))) with (Z.of_nat n) by lia.
  destruct (decide (P lo)) as [Hlo|Hlo].
  { simpl. split_and!; [lia|lia|done|lia]. }
  specialize (IH (Z.succ lo)). destruct (head _) as [p|].
  - destruct IH as (? & ? & Hq). split_and!; [lia|lia|done|].
    intros q ?. destruct (decide (q = lo)) as [->|]; [done|]. apply Hq. lia.
  - intros q ?. destruct (decide (q = lo)) as [->|]; [done|]. apply IH. lia.
Qed.

Lemma find_run_spec F count lo hi :
  match find_run F count lo hi with
  | Some p => lo ≤ p ∧ p + count ≤ hi ∧ pages p count ⊆ F ∧
      ∀ q, lo ≤ q < p → ¬ pages q count ⊆ F
  | None => ∀ q, lo ≤ q → q + count ≤ hi → ¬ pages q count ⊆ F
  end.
Proof.
  pose proof (head_filter_seqZ (λ p, pages p count ⊆ F) lo (hi - count - lo + 1)) as H.
  unfold find_run. destruct (head _) as [p|].
  - destruct H as (? & ? & ?). split_and!; try done; lia.
  - intros q ??. apply H. lia.
Qed.

Lemma find_run_Some F count lo hi p :
  lo ≤ p → p + count ≤ hi → pages p count ⊆ F →
  (∀ q, lo ≤ q < p → ¬ pages q count ⊆ F) → find_run F count lo hi = Some p.
Proof.
  intros ??? Hq. pose proof (find_run_spec F count lo hi) as Hs.
  destruct (find_run F count lo hi) as [p'|].
  - destruct Hs as (? & ? & ? & Hq'). f_equal.
    destruct (decide (p < p')); [by destruct (Hq' p ltac:(lia))|].
    destruct (decide (p' < p)); [by destruct (Hq p' ltac:(lia))|lia].
  - by destruct (Hs p).
Qed.

Lemma find_run_None F count lo hi :
  (∀ q, lo ≤ q → q + count ≤ hi → ¬ pages q count ⊆ F) → find_run F count lo hi = None.
Proof.
  intros Hq. pose proof (find_run_spec F count lo hi) as Hs.
  destruct (find_run F count lo hi) as [p|]; [|done].
  destruct Hs as (? & ? & ? & _). by destruct (Hq p).
Qed.

(** The loops that set a range of bits, in [physical_allocate] and
    [physical_free]. *)
Lemma set_bits_returns m b v page last fuel (Q : mem → Prop) :
  bitmap_ok m b → 0 ≤ page ≤ last → last ≤ size_ b →
  (Z.to_nat (last - page) < fuel)%nat →
  (∀ m', bitmap_frame m m' b →
     (∀ j, 0 ≤ j < size_ b →
        bit_at m' b j = if decide (page ≤ j < last) then v else bit_at m b j) →
     Q m') →
  returns (loop fuel
    (λ '(m, j), if j <? last then m ← Bitmap_set m b j v; Ok (inl (m, u64 (j + 1)))
                else Ok (inr m)) (m, page)) Q.
Proof.
  intros Hb Hp Hl Hf HQ. pose proof (bm_size _ _ Hb) as [Hs _].
  apply (loop_returns _ (λ '(m', k), page ≤ k ≤ last ∧ bitmap_frame m m' b ∧
    (∀ j, 0 ≤ j < size_ b →
       bit_at m' b j = if decide (page ≤ j < k) then v else bit_at m b j))
    (λ '(_, k), Z.to_nat (last - k))); [|split_and!|done].
  2,3: lia.
  2: apply bitmap_frame_refl.
  2: { intros j _. by rewrite decide_False by lia. }
  intros [m' k] (Hk & Hfr & Hbit). destruct (Z.ltb_spec k last).
  - bind_step. apply Bitmap_set_returns; [by eapply bitmap_ok_frame|lia|].
    intros m2 Hfr2 Hbit2. unwrap. cbn [returns]. split_and!; try lia.
    + by eapply bitmap_frame_trans.
    + intros j Hj. rewrite Hbit2, Hbit by done. repeat case_decide; try lia; done.
  - cbn [returns]. apply HQ; [done|]. by replace last with k by lia.
Qed.

(** What the search knows before page [k], with [i] free pages right behind it. *)
Record search_state (F : gset Z) (count last limit k i : Z) : Prop := SearchState {
  ss_pos : last ≤ k ≤ Z.max last limit;
  ss_run : 0 ≤ i < count ∧ i ≤ k - last;
  ss_free : ∀ j, k - i ≤ j < k → j ∈ F;
  ss_used : last < k - i → k - i - 1 ∉ F;
  ss_none : ∀ q, last ≤ q → q + count ≤ k → ¬ pages q count ⊆ F;
}.

Lemma search_start F count last limit : 0 < count → search_state F count last limit last 0.
Proof. intros. split; lia. Qed.

Lemma search_end F count last limit k i :
  0 < count → search_state F count last limit k i → limit ≤ k → find_run F count last limit = None.
Proof. intros ? [] ?. apply find_run_None. intros q ??. apply ss_none0; lia. Qed.

Lemma search_used F count last limit k i :
  0 < count → search_state F count last limit k i → k < limit → k ∉ F →
  search_state F count last limit (k + 1) 0.
Proof.
  intros ? [] ? Hk. split; try lia.
  - intros _. by replace (k + 1 - 0 - 1) with k by lia.
  - intros q ?? Hq. rewrite pages_subseteq in Hq.
    destruct (decide (q + count = k + 1)); [by apply Hk, Hq; lia|].
    apply (ss_none0 q); [lia|lia|]. by apply pages_subseteq.
Qed.

Lemma search_more F count last limit k i :
  search_state F count last limit k i → k < limit → k ∈ F → i + 1 ≠ count →
  search_state F count last limit (k + 1) (i + 1).
Proof.
  intros [] ? Hk ?. split; try lia.
  - intros j ?. destruct (decide (j = k)) as [->|]; [done|]. apply ss_free0. lia.
  - intros ?. replace (k + 1 - (i + 1) - 1) with (k - i - 1) by lia. apply ss_used0. lia.
  - intros q ?? Hq. rewrite pages_subseteq in Hq. destruct (decide (q + count = k + 1)).
    + apply ss_used0; [lia|]. apply Hq. lia.
    + apply (ss_none0 q); [lia|lia|]. by apply pages_subseteq.
Qed.

Lemma search_found F count last limit k :
  0 < count → search_state F count last limit k (count - 1) → k < limit → k ∈ F →
  find_run F count last limit = Some (k + 1 - count).
Proof.
  intros ? [] ? Hk. apply find_run_Some; [lia|lia| |].
  - apply pages_subseteq. intros j ?. destruct (decide (j = k)) as [->|]; [done|].
    apply ss_free0. lia.
  - intros q ?. apply ss_none0; lia.
Qed.

(** What one run of [allocate_internal] does. *)
Lemma allocate_internal_returns s count limit (Q : phys * Z → Prop) :
  let m := phys_mem s in let b := phys_bitmap s in let last := bitmap_last_index s in
  bitmap_ok m b → 0 < count < 2 ^ 64 → 0 ≤ last → limit ≤ size_ b →
  limit * PAGE_SIZE < 2 ^ 64 →
  match find_run (free_bits m b) count last limit with
  | Some p => ∀ m', bitmap_frame m m' b →
      (∀ j, 0 ≤ j < size_ b → bit_at m' b j =
         if decide (p ≤ j < p + count) then BITMAP_USED else bit_at m b j) →
      Q (set_last_index (p + count) (set_mem m' s), p * PAGE_SIZE)
  | None => ∀ k, last ≤ k ≤ Z.max last limit → Q (set_last_index k s, 0)
  end → returns (allocate_internal count limit s) Q.
Proof.
  intros m b last Hb Hc Hlast Hlim Hsz HQ. unfold PAGE_SIZE in Hsz.
  pose proof (bm_size _ _ Hb) as [Hb64 _]. unfold allocate_internal.
  apply (loop_returns _ (λ '(s', i), ∃ k, s' = set_last_index k s ∧
    search_state (free_bits m b) count last limit k i)
    (λ '(s', _), Z.to_nat (limit - bitmap_last_index s'))); [| |fold last; lia].
  2: { exists last. split; [by destruct s|apply search_start; lia]. }
  intros [s' i] (k & -> & Hss). destruct (Hss) as [Hk [Hi Hik] _ _ _].
  cbn [bitmap_last_index set_last_index phys_mem phys_bitmap]. destruct (Z.ltb_spec k limit).
  2: { cbn [returns]. rewrite (search_end _ _ _ _ k i) in HQ by (done || lia). by apply HQ. }
  fold m b. bind_step. apply Bitmap_bit_returns; [done|lia|].
  rewrite (u64_small (k + 1)) by lia.
  destruct (bool_decide_reflect (bit_at m b k = BITMAP_FREE)) as [Hf|Hf].
  2: { cbn [returns]. split; [|simpl; lia]. exists (k + 1). split; [done|].
       apply (search_used _ _ _ _ _ i); [lia|done|done|]. rewrite elem_of_free_bits. tauto. }
  assert (k ∈ free_bits m b) as Hk' by (apply elem_of_free_bits; split; [lia|done]).
  rewrite (u64_small (i + 1)) by lia. destruct (Z.eqb_spec (i + 1) count) as [Hic|Hic].
  - replace i with (count - 1) in Hss by lia.
    rewrite (search_found (free_bits m b) count last limit k) in HQ by (done || lia).
    rewrite (u64_small (k + 1 - count)) by lia. bind_step.
    apply set_bits_returns; [done|lia|lia|lia|].
    intros m' Hfr Hbit. cbn [returns]. unfold PAGE_SIZE. rewrite u64_small by lia.
    replace (k + 1) with (k + 1 - count + count) by lia.
    replace (set_mem m' _) with
      (set_last_index (k + 1 - count + count) (set_mem m' s)) by done.
    replace (k + 1 - count + count - count) with (k + 1 - count) by lia.
    apply HQ; [done|]. intros j Hj. rewrite Hbit by done.
    by replace (k + 1 - count + count) with (k + 1) by lia.
  - cbn [returns]. split; [|simpl; lia]. exists (k + 1). split; [done|]. by apply search_more.
Qed.

Section with_direct_map.
Context `{Hhdm}.

(** How much memory the machine has: pages and the highest address. *)
Definition extent (s : phys) : Z * Z :=
  (total_pages (phys_stats s), highest_physical_addr (phys_stats s)).

(** What a successful allocation of [count] pages at page [p] leaves behind. *)
Record allocated (s : phys) (p count : Z) (s' : phys) : Prop := Allocated {
  al_ok : phys_ok s';
  al_pool : pool_of s' = pool_take p count (pool_of s);
  al_used : used_pages (phys_stats s') = used_pages (phys_stats s) + count;
  al_bitmap : phys_bitmap s' = phys_bitmap s;
  al_zero : ∀ x, ¬ in_bitmap (phys_bitmap s) x → phys_mem s' !! x =
    if decide (hhdm_offset + p * PAGE_SIZE ≤ x < hhdm_offset + (p + count) * PAGE_SIZE)
    then Some 0 else phys_mem s !! x;
  al_mapped : ∀ x, is_Some (phys_mem s !! x) → is_Some (phys_mem s' !! x);
  al_bytes : bytes_ok (phys_mem s');
  al_extent : extent s' = extent s;
}.

(** A run of pages the allocator may hand out, as a range of addresses. *)
Lemma pages_block m b limit p count :
  0 < count → (∀ i, p ≤ i < p + count → page_ok m b limit i) →
  1 ≤ p ∧ p + count ≤ limit ∧
  mapped m (hhdm_offset + p * PAGE_SIZE) (count * PAGE_SIZE) ∧
  ∀ x, in_bitmap b x →
    ¬ (hhdm_offset + p * PAGE_SIZE ≤ x < hhdm_offset + (p + count) * PAGE_SIZE).
Proof.
  intros Hc Hpg. unfold PAGE_SIZE in *.
  pose proof (pg_range _ _ _ _ (Hpg p ltac:(lia))).
  pose proof (pg_range _ _ _ _ (Hpg (p + count - 1) ltac:(lia))).
  split_and!; [lia|lia| |].
  - intros x Hx. assert (p ≤ (x - hhdm_offset) / 4096 < p + count) as Hi by dlia.
    destruct (Hpg _ Hi) as [_ Hm _]. apply Hm. unfold PAGE_SIZE. dlia.
  - intros x Hb Hx. assert (p ≤ (x - hhdm_offset) / 4096 < p + count) as Hi by dlia.
    destruct (Hpg _ Hi) as [_ _ Ha]. apply (Ha x Hb). unfold PAGE_SIZE. dlia.
Qed.

Lemma page_ok_mono m m' b limit i :
  (∀ x, is_Some (m !! x) → is_Some (m' !! x)) → page_ok m b limit i → page_ok m' b limit i.
Proof. intros Hd []. split; [done| |done]. by eapply mapped_same_dom. Qed.

(** The bits only depend on the bitmap's bytes. *)
Lemma bit_at_apart m m' b i :
  0 ≤ i < size_ b → size_ b mod 8 = 0 → (∀ x, in_bitmap b x → m' !! x = m !! x) →
  bit_at m' b i = bit_at m b i.
Proof.
  intros Hi H8 Hx. unfold bit_at. rewrite Hx; [done|]. unfold in_bitmap. dlia.
Qed.

Lemma free_bits_set m m' b page last (v : bool) :
  0 ≤ page ≤ last → last ≤ size_ b →
  (∀ j, 0 ≤ j < size_ b →
     bit_at m' b j = if decide (page ≤ j < last) then v else bit_at m b j) →
  free_bits m' b = if v then free_bits m b ∖ pages page (last - page)
                   else free_bits m b ∪ pages page (last - page).
Proof.
  intros ?? Hbit. apply set_eq. intros j.
  destruct v; [rewrite elem_of_difference|rewrite elem_of_union];
    rewrite !elem_of_free_bits, elem_of_pages; unfold BITMAP_FREE;
    (destruct (decide (0 ≤ j < size_ b)); [rewrite Hbit by done; case_decide|]);
    intuition (try lia; try done).
Qed.

Lemma alloc_commit s l p count m' :
  phys_ok s → 0 < count → lock_held l → pages p count ⊆ pool_free (pool_of s) →
  bitmap_frame (phys_mem s) m' (phys_bitmap s) →
  (∀ j, 0 ≤ j < size_ (phys_bitmap s) → bit_at m' (phys_bitmap s) j =
     if decide (p ≤ j < p + count) then BITMAP_USED
     else bit_at (phys_mem s) (phys_bitmap s) j) →
  let s1 := set_last_index (p + count) (set_mem m' (set_lock l s)) in
  returns
    ('(m, _) ← memset (phys_mem s1) (to_higher_half (p * PAGE_SIZE)) 0
                 (u64 (count * PAGE_SIZE));
     Ok (set_stats (count_used count (phys_stats s1)) (set_mem m s1), p * PAGE_SIZE))
    (λ '(s', ret), ret = p * PAGE_SIZE ∧ phys_lock s' = l ∧
       allocated s p count (set_lock (mutex_unlock l) s')).
Proof.
  intros Hok Hc Hl Hrun Hfr Hbit s1. destruct Hok.
  destruct (pages_block (phys_mem s) (phys_bitmap s) (page_limit s) p count)
    as (Hp & Hpl & Hmap & Hapart); [done| |].
  { intros i Hi. apply ph_pages0, Hrun, elem_of_pages. done. }
  unfold PAGE_SIZE in *. pose proof ph_hhdm0 as [? Halign]. unfold PAGE_SIZE in Halign.
  rewrite to_higher_half_low, (u64_small (count * 4096)) by lia.
  assert (memset_excess (p * 4096 + hhdm_offset) (count * 4096) = 0) as Hex.
  { unfold memset_excess. destruct (8 <=? count * 4096); [dlia|done]. }
  destruct Hfr as (Hfr & Hdom & Hby).
  bind_step. apply memset_returns; rewrite ?Hex, ?Z.add_0_r; [lia| |].
  { split; [lia|lia|]. intros x Hx. apply Hdom, Hmap. lia. }
  intros m2 Hm2. change (u8 0) with 0 in Hm2. cbn [returns]. split_and!; [done|done|].
  assert (∀ x, in_bitmap (phys_bitmap s) x → m2 !! x = m' !! x) as Hsame.
  { intros x Hx. rewrite Hm2, decide_False; [done|]. specialize (Hapart x Hx). lia. }
  assert (∀ x, is_Some (phys_mem s !! x) → is_Some (m2 !! x)) as Hdom2.
  { intros x Hx. eapply filled_mapped; [done|]. by apply Hdom. }
  assert (bytes_ok m2) as Hby2.
  { eapply (filled_bytes_ok m' m2 _ 0); [|lia|done]. apply Hby, ph_bitmap0. }
  destruct (ph_bitmap0) as [[Hs0 Hs8] Hb1 Hb2 Hb3].
  assert (free_bits m2 (phys_bitmap s) =
          free_bits (phys_mem s) (phys_bitmap s) ∖ pages p count) as Hfb.
  { rewrite (free_bits_set (phys_mem s) m2 (phys_bitmap s) p (p + count) true); [|lia|lia|].
    - do 2 f_equal. lia.
    - intros j Hj. rewrite (bit_at_apart m' m2) by done. by apply Hbit. }
  simpl in Hrun, ph_free0, ph_pages0. unfold page_limit in *.
  pose proof (size_difference _ _ Hrun) as Hsize.
  pose proof (subseteq_size _ _ Hrun) as Hle. pose proof (size_pages p count) as Hsz.
  split; simpl; try done.
  - split; simpl; unfold page_limit in *; simpl; try done.
    + split; [done|done| |done]. intros x Hx. by apply Hdom2, Hb2.
    + lia.
    + by apply mutex_unlock_held.
    + rewrite Hfb. intros i Hi%elem_of_difference. eapply page_ok_mono; [done|].
      apply ph_pages0, Hi.
    + rewrite Hfb, Hsize, u64_small; lia.
    + rewrite !u64_small; lia.
  - unfold pool_of, pool_take, page_limit. simpl. by rewrite Hfb.
  - rewrite u64_small; lia.
  - intros x Hx. rewrite Hm2, Hfr by done. unfold PAGE_SIZE.
    repeat case_decide; try lia; done.
Qed.

Lemma pool_find_run count pl p :
  pool_find count pl = Some p → pages p count ⊆ pool_free pl.
Proof.
  unfold pool_find. intros Hfind.
  pose proof (find_run_spec (pool_free pl) count (pool_next pl) (pool_limit pl)) as H1.
  pose proof (find_run_spec (pool_free pl) count 0 (pool_next pl)) as H2.
  destruct (find_run _ _ _ _); simplify_eq; [apply H1|].
  rewrite Hfind in H2. apply H2.
Qed.

Lemma allocate_locked_returns s l count (Q : phys * Z → Prop) p :
  phys_ok s → lock_held l → 0 < count < 2 ^ 64 → pool_find count (pool_of s) = Some p →
  (∀ s', phys_lock s' = l → allocated s p count (set_lock (mutex_unlock l) s') →
     Q (s', p * PAGE_SIZE)) →
  returns (allocate_locked count (set_lock l s)) Q.
Proof.
  intros Hok Hheld Hc Hfind HQ. pose proof Hok as []. unfold allocate_locked.
  assert (pages p count ⊆ pool_free (pool_of s)) as Hrun by by eapply pool_find_run.
  assert (1 ≤ p) as Hp.
  { apply (pg_range _ _ _ _ (ph_pages0 p ltac:(apply Hrun, elem_of_pages; lia))). }
  assert ((p * PAGE_SIZE =? 0) = false) as Hnz by (apply Z.eqb_neq; unfold PAGE_SIZE; lia).
  pose proof ph_direct0 as (_ & Hd & _). unfold hhdm_ok, PAGE_SIZE in *.
  unfold pool_find in Hfind. simpl in Hfind.
  bind_step. apply allocate_internal_returns; try done;
    cbn [phys_mem phys_bitmap set_lock bitmap_last_index phys_stats];
    unfold page_limit, PAGE_SIZE in *; try lia.
  destruct (find_run _ _ (bitmap_last_index s) _) as [p1|].
  - injection Hfind as ->. intros m' Hfr Hbit. rewrite Hnz, !bind_ok.
    eapply returns_mono; [apply (alloc_commit s l p count m'); [done|lia|done..]|].
    intros [s' r] (-> & Hl & Hal). by apply HQ.
  - intros k _. rewrite Z.eqb_refl. do 2 bind_step. apply allocate_internal_returns; try done;
      cbn [phys_mem phys_bitmap set_lock set_last_index bitmap_last_index phys_stats];
      unfold page_limit, PAGE_SIZE in *; try lia.
    rewrite Hfind. intros m' Hfr Hbit. rewrite Hnz. cbn [returns].
    eapply returns_mono; [apply (alloc_commit s l p count m'); [done|lia|done..]|].
    intros [s' r] (-> & Hl & Hal). by apply HQ.
Qed.

Lemma physical_allocate_returns s count (Q : phys * Z → Prop) p :
  phys_ok s → 0 < count < 2 ^ 64 → pool_find count (pool_of s) = Some p →
  (∀ s', allocated s p count s' → Q (s', p * PAGE_SIZE)) →
  returns (physical_allocate count s) Q.
Proof.
  intros Hok Hc Hfind HQ. unfold physical_allocate. rewrite (proj2 (Z.eqb_neq count 0)) by lia.
  destruct (mutex_lock_free _ (ph_lock _ Hok)) as (l & -> & Hheld). rewrite bind_ok. bind_step.
  apply (allocate_locked_returns s l count _ p); [done..|]. intros s' <- Hal. by apply HQ.
Qed.

(** A search that finds nothing changes only the position. *)
Lemma allocate_internal_none s l count k limit :
  phys_ok s → 0 < count < 2 ^ 64 → 0 ≤ k → limit ≤ page_limit s →
  find_run (pool_free (pool_of s)) count k limit = None →
  ∃ k', allocate_internal count limit (set_last_index k (set_lock l s)) =
    Ok (set_last_index k' (set_lock l s), 0).
Proof.
  intros [] Hc Hk Hlim Hf. pose proof ph_direct0 as (_ & Hd & _). unfold hhdm_ok, PAGE_SIZE in *.
  destruct (returns_inv (allocate_internal count limit (set_last_index k (set_lock l s)))
    (λ r, ∃ k', r = (set_last_index k' (set_lock l s), 0))) as (r & -> & k' & ->); [|by exists k'].
  apply allocate_internal_returns; try done; simpl; unfold PAGE_SIZE; try lia.
  simpl in Hf. rewrite Hf. intros k' _. by exists k'.
Qed.

Lemma allocate_locked_panics s l count :
  phys_ok s → 0 < count < 2 ^ 64 → pool_find count (pool_of s) = None →
  allocate_locked count (set_lock l s) = Panic.
Proof.
  intros Hok Hc Hfind. pose proof Hok as []. unfold allocate_locked, pool_find in *.
  cbn [pool_next pool_limit pool_of] in Hfind.
  destruct (find_run _ _ (bitmap_last_index s) _) eqn:Hf1; [done|].
  destruct (allocate_internal_none s l count (bitmap_last_index s) (page_limit s))
    as [k1 H1]; [done|done|lia|lia|done|].
  replace (set_last_index (bitmap_last_index s) (set_lock l s)) with (set_lock l s) in H1
    by by destruct s.
  unfold page_limit in H1. cbn [phys_stats bitmap_last_index set_lock].
  rewrite H1, bind_ok, Z.eqb_refl.
  destruct (allocate_internal_none s l count 0 (bitmap_last_index s)) as [k2 H2]; [done|done|lia|lia|done|].
  replace (set_last_index 0 (set_last_index k1 (set_lock l s)))
    with (set_last_index 0 (set_lock l s)) by done.
  by rewrite H2.
Qed.

Lemma physical_allocate_panics s count :
  phys_ok s → 0 < count < 2 ^ 64 → pool_find count (pool_of s) = None →
  physical_allocate count s = Panic.
Proof.
  intros Hok Hc Hfind. unfold physical_allocate. rewrite (proj2 (Z.eqb_neq count 0)) by lia.
  destruct (mutex_lock_free _ (ph_lock _ Hok)) as (l & -> & Hheld). rewrite bind_ok.
  by rewrite allocate_locked_panics.
Qed.

(** What giving back a run of pages leaves; [s'] has its lock released. *)
Record given_back (s : phys) (p count : Z) (s' : phys) : Prop := GivenBack {
  gb_ok : phys_ok s';
  gb_pool : pool_of s' = pool_give p count (pool_of s);
  gb_bitmap : phys_bitmap s' = phys_bitmap s;
  gb_frame : bitmap_frame (phys_mem s) (phys_mem s') (phys_bitmap s);
  gb_stats : phys_stats s' = count_used (- count) (phys_stats s);
}.

Lemma free_locked_returns s l p count (Q : phys → Prop) :
  phys_ok s → lock_held l → 0 < count ≤ used_pages (phys_stats s) →
  (∀ i, p ≤ i < p + count → page_ok (phys_mem s) (phys_bitmap s) (page_limit s) i) →
  pages p count ## pool_free (pool_of s) →
  (∀ s', phys_lock s' = l → given_back s p count (set_lock (mutex_unlock l) s') → Q s') →
  returns (free_locked (p * PAGE_SIZE) count (set_lock l s)) Q.
Proof.
  intros Hok Hheld Hc Hpg Hdisj HQ. pose proof Hok as [].
  destruct (pages_block (phys_mem s) (phys_bitmap s) (page_limit s) p count)
    as (Hp & Hpl & _ & _); [lia|done|].
  unfold free_locked, PAGE_SIZE in *.
  rewrite Z.div_mul by lia. pose proof (bm_size _ _ ph_bitmap0) as [Hb64 Hb8].
  rewrite (u64_small (p + count)) by lia. cbn [phys_bitmap phys_mem set_lock].
  bind_step. apply set_bits_returns; [done|lia|lia|lia|].
  intros m' Hfr Hbit. cbn [returns].
  assert (free_bits m' (phys_bitmap s) =
          free_bits (phys_mem s) (phys_bitmap s) ∪ pages p count) as Hfb.
  { rewrite (free_bits_set (phys_mem s) m' (phys_bitmap s) p (p + count) BITMAP_FREE);
      [|lia|lia|done]. unfold BITMAP_FREE. do 2 f_equal. lia. }
  assert (size (free_bits (phys_mem s) (phys_bitmap s) ∪ pages p count) =
    (size (free_bits (phys_mem s) (phys_bitmap s)) + size (pages p count))%nat) as Hsize.
  { apply size_union. by symmetry. }
  pose proof (size_pages p count) as Hsz. simpl in ph_free0, ph_pages0.
  apply HQ; [done|]. split; simpl; try done.
  - split; simpl; unfold page_limit in *; simpl; try done.
    + by apply (bitmap_ok_frame (phys_mem s)).
    + by apply mutex_unlock_held.
    + rewrite Hfb. intros i Hi. eapply page_ok_mono; [apply Hfr|].
      apply elem_of_union in Hi as [?|Hi%elem_of_pages]; [by apply ph_pages0|by apply Hpg].
    + rewrite Hfb, Hsize, u64_small; lia.
    + rewrite !u64_small; lia.
  - unfold pool_of, pool_give, page_limit. simpl. by rewrite Hfb.
Qed.

Lemma physical_free_returns s p count (Q : phys → Prop) :
  phys_ok s → 0 < count ≤ used_pages (phys_stats s) →
  (∀ i, p ≤ i < p + count → page_ok (phys_mem s) (phys_bitmap s) (page_limit s) i) →
  pages p count ## pool_free (pool_of s) →
  (∀ s', phys_ok s' → pool_of s' = pool_give p count (pool_of s) →
     phys_bitmap s' = phys_bitmap s → bitmap_frame (phys_mem s) (phys_mem s') (phys_bitmap s) →
     phys_stats s' = count_used (- count) (phys_stats s) → Q s') →
  returns (physical_free (p * PAGE_SIZE) count s) Q.
Proof.
  intros Hok Hc Hpg Hdisj HQ. unfold physical_free.
  destruct (pg_range _ _ _ _ (Hpg p ltac:(lia))) as [Hp _].
  rewrite (proj2 (Z.eqb_neq _ 0)) by (unfold PAGE_SIZE; lia).
  destruct (mutex_lock_free _ (ph_lock _ Hok)) as (l & -> & Hheld). rewrite bind_ok. bind_step.
  apply (free_locked_returns s l p count); [done..|]. intros s' <- []. by apply HQ.
Qed.
End with_direct_map.

(** * Properties *)

(** C8. Next fit.  [physical_allocate] implements the abstract pool on both its
    branches: it hands out the lowest run of [count] free pages above the last
    allocation, or, when there is none, the lowest run below it, marks exactly
    those pages used, zeroes their memory and nothing else, keeps the invariant
    and the statistics and leaves the lock free; when neither search finds a
    run it panics. *)
Theorem physical_allocate_next_fit `{hh : Hhdm} s count :
  phys_ok s → 0 < count < 2 ^ 64 →
  match pool_find count (pool_of s) with
  | Some p => returns (physical_allocate count s)
                (λ '(s', ret), ret = p * PAGE_SIZE ∧ allocated s p count s')
  | None => physical_allocate count s = Panic
  end.
Proof.
  intros Hok Hc. destruct (pool_find count (pool_of s)) as [p|] eqn:Hf.
  - by apply (physical_allocate_returns s count _ p).
  - by apply physical_allocate_panics.
Qed.

(** Freeing pages that are in use, that the direct map reaches and that do
    not hold the bitmap returns exactly those pages to the pool, keeps the
    invariant, the statistics and all memory but the bitmap's, and leaves the
    lock free. *)
Theorem physical_free_gives_back `{hh : Hhdm} s p count :
  phys_ok s → 0 < count ≤ used_pages (phys_stats s) →
  (∀ i, p ≤ i < p + count → page_ok (phys_mem s) (phys_bitmap s) (page_limit s) i) →
  pages p count ## pool_free (pool_of s) →
  returns (physical_free (p * PAGE_SIZE) count s) (λ s',
    phys_ok s' ∧ pool_of s' = pool_give p count (pool_of s) ∧
    phys_stats s' = count_used (- count) (phys_stats s) ∧
    ∀ x, ¬ in_bitmap (phys_bitmap s) x → phys_mem s' !! x = phys_mem s !! x).
Proof.
  intros Hok Hc Hpg Hd. apply physical_free_returns; [done..|].
  intros s' ? ? _ [Hfr _] ?. done.
Qed.

(** Freeing what was just allocated restores the set of free pages and the
    number of used ones; only the search position has moved. *)
Theorem physical_allocate_free `{hh : Hhdm} s count p :
  phys_ok s → 0 < count < 2 ^ 64 → pool_find count (pool_of s) = Some p →
  returns ('(s1, ptr) ← physical_allocate count s; physical_free ptr count s1) (λ s',
    phys_ok s' ∧ pool_free (pool_of s') = pool_free (pool_of s) ∧
    used_pages (phys_stats s') = used_pages (phys_stats s) ∧
    bitmap_last_index s' = p + count).
Proof.
  intros Hok Hc Hfind. bind_step.
  apply (physical_allocate_returns s count _ p); [done..|]. intros s1 [].
  pose proof Hok as [_ _ _ _ _ _ Hpages Hfree Hused]. pose proof al_ok0 as [_ _ _ _ _ _ _ _ Hused1].
  assert (pages p count ⊆ pool_free (pool_of s)) as Hrun by by eapply pool_find_run.
  apply physical_free_returns; [done|lia| | |].
  - intros i Hi%elem_of_pages. rewrite al_bitmap0.
    change (page_limit s1) with (pool_limit (pool_of s1)). rewrite al_pool0.
    eapply page_ok_mono; [done|]. by apply Hpages, Hrun.
  - rewrite al_pool0. simpl. set_solver.
  - intros s2 Hok2 Hpool2 _ _ Hst2. change (bitmap_last_index s2) with (pool_next (pool_of s2)).
    rewrite Hpool2, al_pool0, Hst2. simpl. split_and!; [done| | |done].
    + apply set_eq. intros i. specialize (Hrun i). simpl in Hrun.
      destruct (decide (i ∈ pages p count)); set_solver.
    + rewrite al_used0, u64_small; lia.
Qed.

(** The second search stops where the first one started, so a run of free
    pages that crosses the position is never found: memory with exactly [count]
    free pages in a row, the position strictly inside them, panics. *)
Theorem physical_allocate_misses_run `{hh : Hhdm} s p count :
  phys_ok s → 0 < count < 2 ^ 64 → pool_free (pool_of s) = pages p count →
  p < bitmap_last_index s < p + count → physical_allocate count s = Panic.
Proof.
  intros Hok Hc Hfree Hnext. apply physical_allocate_panics; [done..|].
  unfold pool_find. rewrite Hfree.
  rewrite !find_run_None; [done| |]; intros q ?? Hq; rewrite pages_subseteq in Hq;
    simpl in *; specialize (Hq (if decide (q < p) then q else q + count - 1));
    rewrite elem_of_pages in Hq; case_decide; lia.
Qed.

(** Eight pages, the bitmap in a byte of its own; the next search starts at page 4. *)
Definition sample_hhdm : Hhdm := 2 ^ 47.
Definition sample_state (m : mem) (used free : Z) : phys :=
  {| phys_mem := m;
     phys_stats := {| highest_physical_addr := 32768; lowest_usable_addr := 4096;
                      highest_usable_addr := 32768; total_pages := 8; usable_pages := 7;
                      used_pages := used; free_pages := free |};
     phys_bitmap := {| buffer_ := 4096; size_ := 8 |};
     phys_lock := TicketLock_init;
     bitmap_last_index := 4 |}.

(** The memory holds the bitmap byte [bits] and the eight pages. *)
Record sample_mem_ok (m : mem) (bits : Z) (F : gset Z) : Prop := SampleMemOk {
  sm_byte : m !! 4096 = Some bits;
  sm_pages : mapped m (2 ^ 47) 32768;
  sm_bytes : bytes_ok m;
  sm_free : ∀ i, 0 ≤ i < 0 + 8 → Z.testbit bits i = negb (bool_decide (i ∈ F));
  sm_sub : F ⊆ pages 3 5;
}.

Lemma sample_free m bits used free F :
  sample_mem_ok m bits F → pool_free (pool_of (sample_state m used free)) = F.
Proof.
  intros [Hm _ _ Hb HF]. apply set_eq. intros i. unfold pool_of, sample_state.
  cbn [pool_free phys_mem phys_bitmap]. rewrite elem_of_free_bits. unfold bit_at.
  cbn [size_ buffer_]. split.
  - intros [Hi Hf]. replace (4096 + i / 8) with 4096 in Hf by dlia. rewrite Hm in Hf.
    replace (i mod 8) with i in Hf by dlia. rewrite Hb in Hf by lia.
    by destruct (bool_decide_reflect (i ∈ F)).
  - intros Hi. pose proof (HF i Hi) as Hr%elem_of_pages. split; [lia|].
    replace (4096 + i / 8) with 4096 by dlia. rewrite Hm.
    replace (i mod 8) with i by dlia. rewrite Hb by lia. by rewrite bool_decide_true.
Qed.

Lemma sample_page_ok m bits F i :
  sample_mem_ok m bits F → 3 ≤ i < 8 →
  page_ok (H := sample_hhdm) m {| buffer_ := 4096; size_ := 8 |} 8 i.
Proof.
  intros [_ Hm _ _ _] Hi. split; [lia| |]; unfold hhdm_offset, sample_hhdm, PAGE_SIZE; intros x Hx.
  - apply Hm. lia.
  - unfold in_bitmap in Hx. cbn [buffer_ size_] in Hx. change (8 / 8) with 1 in Hx. lia.
Qed.

Lemma sample_state_ok m bits used free F :
  sample_mem_ok m bits F → free = Z.of_nat (size F) → 0 ≤ used → used + free = 7 →
  phys_ok (H := sample_hhdm) (sample_state m used free).
Proof.
  intros Hs Hfree Hu Huf. pose proof Hs as [Hm _ Hby _ HF].
  pose proof (sample_free m bits used free F Hs) as Hbits.
  assert (page_limit (sample_state m used free) = 8) as Hlim by reflexivity.
  split; rewrite ?Hbits, ?Hlim; unfold sample_state;
    cbn [size_ buffer_ phys_bitmap phys_mem phys_lock phys_stats bitmap_last_index
         used_pages free_pages usable_pages].
  - split; [unfold hhdm_offset, sample_hhdm; lia|reflexivity].
  - split; cbn [size_ buffer_]; [split; [lia|reflexivity]..| |done].
    intros x Hx. change (8 / 8) with 1 in Hx. replace x with 4096 by lia.
    by rewrite Hm.
  - lia.
  - lia.
  - unfold hhdm_offset, sample_hhdm, PAGE_SIZE. lia.
  - split; [reflexivity|cbn; lia].
  - intros i Hi%HF%elem_of_pages. apply (sample_page_ok m bits F); [done|lia].
  - exact Hfree.
  - lia.
Qed.

(** Pages filled with one byte; pages 3, 4 and 5 are free, or no page is. *)
Definition sample_pages (bits fill : Z) : mem :=
  <[4096 := bits]> (mem_of (2 ^ 47) (replicate (Z.to_nat 32768) fill)).
Definition sample_phys : phys := sample_state (sample_pages 199 1) 4 3.
Definition sample_full : phys := sample_state (sample_pages 255 1) 7 0.

Lemma sample_pages_lookup bits fill x :
  2 ^ 47 ≤ x < 2 ^ 47 + 32768 → sample_pages bits fill !! x = Some fill.
Proof.
  intros Hx. unfold sample_pages. rewrite lookup_insert_ne by lia.
  rewrite mem_of_lookup by lia. apply lookup_replicate_2. lia.
Qed.

Lemma sample_pages_ok bits fill F :
  0 ≤ bits < 2 ^ 8 → 0 ≤ fill < 2 ^ 8 →
  (∀ i, 0 ≤ i < 0 + 8 → Z.testbit bits i = negb (bool_decide (i ∈ F))) →
  F ⊆ pages 3 5 → sample_mem_ok (sample_pages bits fill) bits F.
Proof.
  intros Hr Hf Hb HF. split; [unfold sample_pages; by rewrite lookup_insert_eq| | |done..].
  - intros x Hx. rewrite sample_pages_lookup by done. by eexists.
  - intros x b. unfold sample_pages. rewrite lookup_insert_Some.
    intros [[_ <-]|[_ Hx]]; [done|].
    revert Hx. by apply mem_of_bytes_ok, Forall_replicate.
Qed.

Lemma sample_199 : sample_mem_ok (sample_pages 199 1) 199 (pages 3 3).
Proof.
  apply sample_pages_ok; [lia|lia| |].
  - apply (forall_range (λ i, Z.testbit 199 i = negb (bool_decide (i ∈ pages 3 3)))).
    by vm_compute.
  - intros i. rewrite !elem_of_pages. lia.
Qed.

Lemma sample_255 : sample_mem_ok (sample_pages 255 1) 255 ∅.
Proof.
  apply sample_pages_ok; [lia|lia| |set_solver].
  apply (forall_range (λ i, Z.testbit 255 i = negb (bool_decide (i ∈@{gset Z} ∅)))).
  by vm_compute.
Qed.

Lemma sample_phys_ok : phys_ok (H := sample_hhdm) sample_phys.
Proof. apply (sample_state_ok _ _ _ _ _ sample_199); [reflexivity|lia|lia]. Qed.

Lemma sample_full_ok : phys_ok (H := sample_hhdm) sample_full.
Proof. apply (sample_state_ok _ _ _ _ _ sample_255); [reflexivity|lia|lia]. Qed.

Lemma sample_phys_free : pool_free (pool_of sample_phys) = pages 3 3.
Proof. apply (sample_free _ _ _ _ _ sample_199). Qed.

Lemma sample_full_free : pool_free (pool_of sample_full) = ∅.
Proof. apply (sample_free _ _ _ _ _ sample_255). Qed.

Lemma sample_find : pool_find 2 (pool_of sample_phys) = Some 4.
Proof. unfold pool_find. rewrite sample_phys_free. by vm_compute. Qed.

(** Two pages are found at the position. *)
Lemma physical_allocate_next_fit_witness :
  returns (physical_allocate (H := sample_hhdm) 2 sample_phys)
    (λ '(s', ret), ret = 4 * PAGE_SIZE ∧ allocated (H := sample_hhdm) sample_phys 4 2 s').
Proof.
  pose proof (physical_allocate_next_fit (hh := sample_hhdm) sample_phys 2
    sample_phys_ok ltac:(lia)) as Hw.
  rewrite sample_find in Hw. exact Hw.
Defined.

Lemma physical_free_gives_back_witness :
  returns (physical_free (3 * PAGE_SIZE) 3 sample_full) (λ s',
    phys_ok (H := sample_hhdm) s' ∧ pool_of s' = pool_give 3 3 (pool_of sample_full) ∧
    phys_stats s' = count_used (- 3) (phys_stats sample_full) ∧
    ∀ x, ¬ in_bitmap (phys_bitmap sample_full) x → phys_mem s' !! x = phys_mem sample_full !! x).
Proof.
  apply (physical_free_gives_back (hh := sample_hhdm) sample_full 3 3).
  - exact sample_full_ok.
  - cbn; lia.
  - intros i Hi. apply (sample_page_ok _ _ _ _ sample_255). lia.
  - rewrite sample_full_free. set_solver.
Defined.

Lemma physical_allocate_free_witness :
  returns ('(s1, ptr) ← physical_allocate (H := sample_hhdm) 2 sample_phys;
           physical_free ptr 2 s1) (λ s',
    phys_ok (H := sample_hhdm) s' ∧ pool_free (pool_of s') = pool_free (pool_of sample_phys) ∧
    used_pages (phys_stats s') = 4 ∧ bitmap_last_index s' = 6).
Proof.
  apply (physical_allocate_free (hh := sample_hhdm) sample_phys 2 4).
  - exact sample_phys_ok.
  - lia.
  - exact sample_find.
Defined.

(** Three free pages in a row, and a request for three pages panics. *)
Lemma physical_allocate_misses_run_witness :
  pool_free (pool_of sample_phys) = pages 3 3 ∧
  physical_allocate (H := sample_hhdm) 3 sample_phys = Panic.
Proof.
  split; [exact sample_phys_free|].
  apply (physical_allocate_misses_run (hh := sample_hhdm) sample_phys 3 3).
  - exact sample_phys_ok.
  - lia.
  - exact sample_phys_free.
  - cbn; lia.
Defined.
