(* ===== verification/PhysicalInit.v ===== *)
(** * Start-up of the physical allocator: [physical_initialize]

    From the boot loader's memory map to a state in which the allocator's
    invariant [phys_ok] holds. *)
From S2P Require Import Prelude Mem MemCopy MemSet Lock Bitmap Addr Physical.

(** ** The memory map *)

(** The pages of an entry, and of all usable entries. *)
Definition entry_pages (e : limine_memmap_entry) : gset Z :=
  pages (base e / PAGE_SIZE) (length_ e / PAGE_SIZE).

Fixpoint usable_set (memmaps : list limine_memmap_entry) : gset Z :=
  match memmaps with
  | [] => ∅
  | e :: rest => (if usable e then entry_pages e else ∅) ∪ usable_set rest
  end.

Fixpoint usable_total (memmaps : list limine_memmap_entry) : Z :=
  match memmaps with
  | [] => 0
  | e :: rest => (if usable e then length_ e / PAGE_SIZE else 0) + usable_total rest
  end.

Fixpoint usable_top (memmaps : list limine_memmap_entry) : Z :=
  match memmaps with
  | [] => 0
  | e :: rest =>
      if usable e then Z.max (base e + length_ e) (usable_top rest) else usable_top rest
  end.

(** A usable entry is made of whole pages, above page 0. *)
Record entry_ok (e : limine_memmap_entry) : Prop := EntryOk {
  en_base : PAGE_SIZE ≤ base e ∧ base e mod PAGE_SIZE = 0;
  en_length : 0 ≤ length_ e ∧ length_ e mod PAGE_SIZE = 0;
  en_top : base e + length_ e < 2 ^ 64;
}.

Fixpoint memmap_ok (memmaps : list limine_memmap_entry) : Prop :=
  match memmaps with
  | [] => True
  | e :: rest =>
      (usable e = true → entry_ok e ∧ entry_pages e ## usable_set rest) ∧ memmap_ok rest
  end.

(** The entry the bitmap goes to, and the bytes the bitmap gets. *)
Definition bitmap_bytes (memmaps : list limine_memmap_entry) : Z :=
  align_up (usable_top memmaps / PAGE_SIZE / 8) PAGE_SIZE.

Definition takes_bitmap (size : Z) (e : limine_memmap_entry) : bool :=
  usable e && (size <=? length_ e).

(** * Lemmas *)

Lemma elem_of_entry_pages e i :
  entry_ok e → i ∈ entry_pages e ↔ base e ≤ i * PAGE_SIZE < base e + length_ e.
Proof.
  intros []. unfold entry_pages. rewrite elem_of_pages. unfold PAGE_SIZE in *. dlia.
Qed.

Lemma elem_of_usable_set memmaps i :
  i ∈ usable_set memmaps ↔ ∃ e, e ∈ memmaps ∧ usable e = true ∧ i ∈ entry_pages e.
Proof.
  induction memmaps as [|e rest IH]; simpl; [set_solver|].
  rewrite elem_of_union, IH. setoid_rewrite elem_of_cons. split.
  - intros [Hi|(e' & ? & ? & ?)]; [|naive_solver].
    destruct (usable e) eqn:E; [naive_solver|set_solver].
  - intros (e' & [->|?] & Hu & ?); [rewrite Hu; by left|right; eauto].
Qed.

Lemma memmap_ok_entry memmaps e :
  memmap_ok memmaps → e ∈ memmaps → usable e = true → entry_ok e.
Proof.
  induction memmaps as [|e' rest IH]; simpl; [set_solver|].
  intros [He Hr] [->|?]%elem_of_cons Hu; [by apply He|by apply IH].
Qed.

Lemma usable_top_le memmaps e :
  e ∈ memmaps → usable e = true → base e + length_ e ≤ usable_top memmaps.
Proof.
  induction memmaps as [|e' rest IH]; simpl; [set_solver|].
  intros [->|?]%elem_of_cons Hu; [rewrite Hu; lia|].
  specialize (IH ltac:(done) Hu). destruct (usable e'); lia.
Qed.

Lemma usable_top_range memmaps : memmap_ok memmaps → 0 ≤ usable_top memmaps < 2 ^ 64.
Proof.
  induction memmaps as [|e rest IH]; simpl; [lia|]. intros [He Hr].
  specialize (IH Hr). destruct (usable e); [|done].
  destruct (He eq_refl) as [[[? ?] [? ?] ?] _]. unfold PAGE_SIZE in *. lia.
Qed.

Lemma usable_total_size memmaps :
  memmap_ok memmaps → usable_total memmaps = Z.of_nat (size (usable_set memmaps)).
Proof.
  induction memmaps as [|e rest IH]; simpl; [done|]. intros [He Hr].
  rewrite IH by done. destruct (usable e).
  - destruct (He eq_refl) as [[_ [? ?] _] Hd]. rewrite size_union by done.
    unfold entry_pages. rewrite Nat2Z.inj_add, size_pages by (unfold PAGE_SIZE in *; dlia). lia.
  - rewrite (left_id_L ∅ (∪)). lia.
Qed.

Lemma usable_set_range memmaps i :
  memmap_ok memmaps → i ∈ usable_set memmaps → 1 ≤ i < usable_top memmaps / PAGE_SIZE.
Proof.
  intros Hok (e & He & Hu & Hi)%elem_of_usable_set.
  pose proof (memmap_ok_entry _ _ Hok He Hu) as Hen.
  pose proof (usable_top_le _ _ He Hu) as Htop.
  apply elem_of_entry_pages in Hi; [|done]. destruct Hen. unfold PAGE_SIZE in *. dlia.
Qed.

Lemma usable_total_range memmaps :
  memmap_ok memmaps → 0 ≤ usable_total memmaps ≤ usable_top memmaps / PAGE_SIZE.
Proof.
  intros Hok. rewrite usable_total_size by done.
  pose proof (usable_top_range _ Hok).
  assert (usable_set memmaps ⊆ pages 0 (usable_top memmaps / PAGE_SIZE)) as Hsub.
  { intros i Hi%usable_set_range; [|done]. apply elem_of_pages. lia. }
  apply subseteq_size in Hsub.
  pose proof (size_pages 0 (usable_top memmaps / PAGE_SIZE)). unfold PAGE_SIZE in *. dlia.
Qed.

(** ** The scan *)

Lemma scan_top memmaps st :
  memmap_ok memmaps → 0 ≤ highest_usable_addr st →
  highest_usable_addr (foldl scan_entry st memmaps) =
    Z.max (highest_usable_addr st) (usable_top memmaps).
Proof.
  revert st. induction memmaps as [|e rest IH]; intros st; simpl; [lia|].
  intros [He Hr] Hst. rewrite IH; [|done|].
  - unfold scan_entry, usable in *. destruct (type e); simpl; try done.
    destruct (He eq_refl) as [[[? ?] [? ?] ?] _]. unfold PAGE_SIZE in *.
    rewrite u64_small by lia. lia.
  - unfold scan_entry. destruct (type e); simpl; lia.
Qed.

Lemma scan_usable memmaps st :
  0 ≤ usable_pages st < 2 ^ 64 →
  usable_pages (foldl scan_entry st memmaps) = u64 (usable_pages st + usable_total memmaps).
Proof.
  revert st. induction memmaps as [|e rest IH]; intros st Hst; simpl.
  { rewrite u64_small; lia. }
  rewrite IH; unfold scan_entry, usable; destruct (type e); simpl; try done.
  - rewrite u64_add_l. f_equal. lia.
  - apply u64_range.
Qed.

Lemma scan_used memmaps st : used_pages (foldl scan_entry st memmaps) = used_pages st.
Proof.
  revert st. induction memmaps as [|e rest IH]; intros st; simpl; [done|].
  rewrite IH. unfold scan_entry. by destruct (type e).
Qed.

(** ** The place of the bitmap *)

Fixpoint bitmap_entry (size : Z) (memmaps : list limine_memmap_entry) :
    option limine_memmap_entry :=
  match memmaps with
  | [] => None
  | e :: rest => if takes_bitmap size e then Some e else bitmap_entry size rest
  end.

Fixpoint without_bitmap (size : Z) (memmaps : list limine_memmap_entry) :
    list limine_memmap_entry :=
  match memmaps with
  | [] => []
  | e :: rest =>
      if takes_bitmap size e then shrink_entry size e :: rest
      else e :: without_bitmap size rest
  end.

Lemma bitmap_entry_Some size memmaps e :
  bitmap_entry size memmaps = Some e →
  e ∈ memmaps ∧ usable e = true ∧ size ≤ length_ e.
Proof.
  induction memmaps as [|e' rest IH]; simpl; [done|].
  destruct (takes_bitmap size e') eqn:E; [|rewrite elem_of_cons; naive_solver].
  intros [= ->]. apply andb_prop in E as [? ?%Z.leb_le]. split_and!; [set_solver|done|done].
Qed.

Lemma shrink_entry_ok size e :
  entry_ok e → 0 ≤ size ≤ length_ e → size mod PAGE_SIZE = 0 →
  entry_ok (shrink_entry size e) ∧
  entry_pages e = entry_pages (shrink_entry size e) ∪
                  pages (base e / PAGE_SIZE) (size / PAGE_SIZE) ∧
  entry_pages (shrink_entry size e) ## pages (base e / PAGE_SIZE) (size / PAGE_SIZE).
Proof.
  intros Hen Hs Hsm.
  assert (entry_ok (shrink_entry size e)) as Hen'.
  { destruct Hen. unfold PAGE_SIZE in *. split; simpl; unfold PAGE_SIZE; unwrap; [dlia..|lia]. }
  split; [done|]. rewrite set_eq, elem_of_disjoint.
  setoid_rewrite elem_of_union. setoid_rewrite elem_of_entry_pages; [|done..].
  setoid_rewrite elem_of_pages. destruct Hen. simpl. unfold PAGE_SIZE in *.
  rewrite !u64_small by lia. split; intros i; dlia.
Qed.

Lemma without_bitmap_ok size memmaps e0 :
  memmap_ok memmaps → bitmap_entry size memmaps = Some e0 → 0 ≤ size →
  size mod PAGE_SIZE = 0 →
  memmap_ok (without_bitmap size memmaps) ∧
  usable_set memmaps = usable_set (without_bitmap size memmaps) ∪
    pages (base e0 / PAGE_SIZE) (size / PAGE_SIZE) ∧
  usable_set (without_bitmap size memmaps) ##
    pages (base e0 / PAGE_SIZE) (size / PAGE_SIZE).
Proof.
  intros Hok He0 Hs Hsm. induction memmaps as [|e rest IH]; simpl in *; [done|].
  destruct Hok as [He Hr]. destruct (takes_bitmap size e) eqn:E.
  - injection He0 as ->. apply andb_prop in E as [Hu Hl%Z.leb_le].
    destruct (He Hu) as [Hen Hd].
    destruct (shrink_entry_ok size e0 Hen) as (Hen' & Hpg & Hdis); [lia|done|].
    simpl. unfold usable in *. simpl. rewrite Hu.
    rewrite Hpg in *. set_solver.
  - destruct (IH Hr He0) as (Hok' & Hset & Hdis). simpl.
    apply bitmap_entry_Some in He0 as (Hin & Hu0 & ?).
    rewrite Hset in *. destruct (usable e); set_solver.
Qed.

Lemma usable_top_without_bitmap size memmaps :
  memmap_ok memmaps → 0 ≤ size → usable_top (without_bitmap size memmaps) ≤ usable_top memmaps.
Proof.
  induction memmaps as [|e rest IH]; simpl; [lia|]. intros [He Hr] Hs.
  specialize (IH Hr Hs). unfold takes_bitmap. destruct (usable e) eqn:Hu; simpl.
  2: { by rewrite Hu. }
  destruct (He eq_refl) as [[[? ?] [? ?] ?] _]. unfold PAGE_SIZE in *.
  destruct (Z.leb_spec size (length_ e)); simpl; unfold usable in *; simpl; rewrite Hu; [|lia].
  rewrite !u64_small by lia. lia.
Qed.

Section with_direct_map.
Context `{Hhdm}.

Lemma place_bitmap_returns size entries memmaps s e0 (Q : phys * list limine_memmap_entry → Prop) :
  bitmap_entry size memmaps = Some e0 →
  to_higher_half (base e0) ≠ 0 → to_higher_half (base e0) mod 8 = 0 → 0 < entries →
  fillable (phys_mem s) (to_higher_half (base e0)) entries →
  (∀ m', filled (phys_mem s) m' (to_higher_half (base e0)) 0xff entries →
     Q (set_stats (add_used (div_roundup size PAGE_SIZE) (phys_stats s))
          (set_bitmap {| buffer_ := to_higher_half (base e0); size_ := entries |}
             (set_mem m' s)), without_bitmap size memmaps)) →
  returns (place_bitmap size entries memmaps s) Q.
Proof.
  intros He0 Hnz Hal Hen Hfl. revert Q.
  induction memmaps as [|e rest IH]; intros Q HQ; simpl in *; [done|].
  unfold takes_bitmap in *. destruct (usable e); simpl in *.
  2: { bind_step. apply IH; [done|]. intros m' Hm'. by apply HQ. }
  destruct (size <=? length_ e).
  2: { bind_step. apply IH; [done|]. intros m' Hm'. by apply HQ. }
  injection He0 as ->. unfold Bitmap_initialize.
  rewrite (proj2 (Z.eqb_neq _ _) Hnz), (proj2 (Z.eqb_neq entries 0)) by lia. simpl.
  assert (memset_excess (to_higher_half (base e0)) entries = 0) as Hex.
  { unfold memset_excess. destruct (8 <=? entries); [dlia|done]. }
  bind_step. apply memset_returns; rewrite ?Hex, ?Z.add_0_r; [lia|done|].
  intros m' Hm'. by apply HQ.
Qed.

Lemma free_entry_returns b m e (Q : mem → Prop) :
  bitmap_ok m b → entry_ok e → (base e + length_ e) / PAGE_SIZE ≤ size_ b →
  (∀ m', bitmap_frame m m' b → free_bits m' b = free_bits m b ∪ entry_pages e → Q m') →
  returns (free_entry b m e) Q.
Proof.
  intros Hb [[? Hbm] [? Hlm] ?] Hsz HQ. unfold PAGE_SIZE in *.
  unfold free_entry, PAGE_SIZE.
  apply (loop_returns _ (λ '(m', j), 0 ≤ j ≤ length_ e ∧ j mod 4096 = 0 ∧
    bitmap_frame m m' b ∧ free_bits m' b = free_bits m b ∪ pages (base e / 4096) (j / 4096))
    (λ '(_, j), Z.to_nat ((length_ e - j) / 4096))); [| |dlia].
  2: { split_and!; [lia|lia|done|apply bitmap_frame_refl|].
       unfold pages. change (seqZ (base e / 4096) (0 / 4096)) with (@nil Z).
       by rewrite list_to_set_nil, (right_id_L ∅ (∪)). }
  intros [m' j] (Hj & Hjm & Hfr & Hbits). destruct (Z.ltb_spec j (length_ e)).
  - bind_step. rewrite u64_small by lia.
    apply Bitmap_set_returns; [by eapply bitmap_ok_frame|dlia|].
    intros m2 Hfr2 Hbit2. rewrite u64_small by dlia. cbn [returns].
    split_and!; [dlia|dlia|dlia|by eapply bitmap_frame_trans| |dlia].
    rewrite (free_bits_set m' m2 b ((base e + j) / 4096) ((base e + j) / 4096 + 1)
      BITMAP_FREE); [|dlia|dlia|].
    + unfold BITMAP_FREE. rewrite Hbits, <-(assoc_L (∪)). f_equal. apply set_eq.
      intros i. rewrite elem_of_union, !elem_of_pages. dlia.
    + intros i Hi. rewrite Hbit2 by done.
      destruct (decide (i = (base e + j) / 4096)); [by rewrite decide_True by lia|].
      by rewrite decide_False by lia.
  - cbn [returns]. apply HQ; [done|]. rewrite Hbits. unfold entry_pages, PAGE_SIZE.
    by replace j with (length_ e) by lia.
Qed.

Lemma free_entries_returns b memmaps m (Q : mem → Prop) :
  bitmap_ok m b → memmap_ok memmaps → usable_top memmaps / PAGE_SIZE ≤ size_ b →
  (∀ m', bitmap_frame m m' b → free_bits m' b = free_bits m b ∪ usable_set memmaps → Q m') →
  returns (free_entries b memmaps m) Q.
Proof.
  revert m Q. induction memmaps as [|e rest IH]; intros m Q Hb Hok Hsz HQ; simpl in *.
  { apply HQ; [apply bitmap_frame_refl|set_solver]. }
  destruct Hok as [He Hr]. pose proof (usable_top_range _ Hr).
  destruct (usable e) eqn:Hu; simpl.
  - destruct (He eq_refl) as [Hen _]. bind_step.
    apply free_entry_returns; [done|done|unfold PAGE_SIZE in *; dlia|].
    intros m1 Hfr1 Hb1. apply IH; [by eapply bitmap_ok_frame|done|unfold PAGE_SIZE in *; dlia|].
    intros m2 Hfr2 Hb2. apply HQ; [by eapply bitmap_frame_trans|].
    rewrite Hb2, Hb1. set_solver.
  - apply IH; [done|done|done|]. intros m2 Hfr2 Hb2. apply HQ; [done|].
    rewrite Hb2. set_solver.
Qed.

(** What [physical_initialize] relies on: a well-formed memory map whose usable
    memory can be reached through the direct map, at least eight pages of it,
    and an entry with room for eight times the bitmap, since [memset] is given
    the number of bits for the number of bytes.  The bitmap must also have a bit
    for the last pages, which its rounding does not guarantee. *)
Record boot_ok (m : mem) (memmaps : list limine_memmap_entry) (e0 : limine_memmap_entry) :
    Prop := BootOk {
  bt_hhdm : hhdm_ok;
  bt_map : memmap_ok memmaps;
  bt_direct : usable_top memmaps ≤ hhdm_offset ∧ hhdm_offset + usable_top memmaps < 2 ^ 64 ∧
    usable_top memmaps ≤ 2 ^ 52;
  bt_mapped : ∀ e, e ∈ memmaps → usable e = true → mapped m (hhdm_offset + base e) (length_ e);
  bt_bytes : bytes_ok m;
  bt_entry : bitmap_entry (bitmap_bytes memmaps) memmaps = Some e0;
  bt_room : 0 < bitmap_bytes memmaps ∧ 8 * bitmap_bytes memmaps ≤ length_ e0;
  bt_bits : usable_top memmaps / PAGE_SIZE ≤ 8 * bitmap_bytes memmaps;
}.

Lemma bitmap_bytes_range memmaps :
  memmap_ok memmaps →
  bitmap_bytes memmaps mod PAGE_SIZE = 0 ∧ 0 ≤ bitmap_bytes memmaps < 2 ^ 50.
Proof.
  intros Hok%usable_top_range. unfold bitmap_bytes.
  rewrite align_up_page by (unfold PAGE_SIZE; dlia). unfold PAGE_SIZE. dlia.
Qed.

(** A bitmap of 0xff bytes has no free page. *)
Lemma free_bits_full m b :
  (∀ x, in_bitmap b x → m !! x = Some 0xff) → size_ b mod 8 = 0 → free_bits m b = ∅.
Proof.
  intros Hx Hs. apply set_eq. intros i. rewrite elem_of_free_bits.
  split; [|set_solver]. intros [Hi Hb]. exfalso. unfold bit_at in Hb.
  rewrite Hx in Hb by (unfold in_bitmap; dlia).
  rewrite (Z.ones_spec_low 8) in Hb by dlia. done.
Qed.

(** The pages the bitmap leaves can be handed out. *)
Lemma left_page_ok m memmaps e0 m' i :
  let b := {| buffer_ := hhdm_offset + base e0; size_ := 8 * bitmap_bytes memmaps |} in
  boot_ok m memmaps e0 → (∀ x, is_Some (m !! x) → is_Some (m' !! x)) →
  i ∈ usable_set (without_bitmap (bitmap_bytes memmaps) memmaps) →
  page_ok m' b (usable_top memmaps / PAGE_SIZE) i.
Proof.
  intros b [] Hdom Hi.
  destruct (bitmap_entry_Some _ _ _ bt_entry0) as (Hin & Hu & Hlen).
  pose proof (memmap_ok_entry _ _ bt_map0 Hin Hu) as Hen0.
  destruct (bitmap_bytes_range _ bt_map0) as [Hbm Hbr].
  destruct (without_bitmap_ok _ _ _ bt_map0 bt_entry0) as (_ & Hset & Hdis); [lia|done|].
  assert (i ∈ usable_set memmaps) as Hi' by (rewrite Hset; set_solver).
  destruct (proj1 (elem_of_usable_set _ _) Hi') as (e & He & Hue & Hie).
  pose proof (memmap_ok_entry _ _ bt_map0 He Hue) as Hen.
  rewrite elem_of_entry_pages in Hie by done.
  split.
  - by apply usable_set_range.
  - apply (mapped_same_dom m); [done|].
    apply (mapped_mono m (hhdm_offset + base e) (length_ e)); [by apply bt_mapped0|lia|].
    destruct Hen. unfold PAGE_SIZE in *. dlia.
  - intros x Hx Hp. apply (Hdis i Hi). apply elem_of_pages.
    unfold in_bitmap, b in Hx. simpl in Hx. destruct Hen0. unfold PAGE_SIZE in *.
    dlia.
Qed.

(** The statistics after the scan. *)
Lemma scan_stats memmaps :
  memmap_ok memmaps → usable_total memmaps < 2 ^ 64 →
  let st := fix_lowest (foldl scan_entry phys_stats_zero memmaps) in
  highest_usable_addr st = usable_top memmaps ∧ usable_pages st = usable_total memmaps ∧
  used_pages st = 0.
Proof.
  intros Hok Ht st. pose proof (usable_top_range _ Hok). pose proof (usable_total_range _ Hok).
  assert (highest_usable_addr st = highest_usable_addr (foldl scan_entry phys_stats_zero memmaps) ∧
    usable_pages st = usable_pages (foldl scan_entry phys_stats_zero memmaps) ∧
    used_pages st = used_pages (foldl scan_entry phys_stats_zero memmaps)) as (-> & -> & ->).
  { unfold st, fix_lowest. by destruct (_ =? _). }
  rewrite scan_top, scan_usable, scan_used by done. simpl. rewrite u64_small; lia.
Qed.

(** A fresh bitmap is well-formed and has no free page. *)
Lemma fresh_bitmap m m1 a n :
  0 < n < 2 ^ 50 → 0 < a → a + 8 * n < 2 ^ 64 → bytes_ok m → mapped m a (8 * n) → filled m m1 a 0xff (8 * n) →
  let b := {| buffer_ := a; size_ := 8 * n |} in bitmap_ok m1 b ∧ free_bits m1 b = ∅.
Proof.
  intros Hn Ha Hlim Hby Hmap Hm1 b. assert (size_ b / 8 = n) as Hb8 by (simpl; dlia). split.
  - split; simpl size_; simpl buffer_; [dlia|dlia| |].
    + intros x Hx. eapply filled_mapped; [done|]. apply Hmap. dlia.
    + eapply (filled_bytes_ok m m1); [done| |done]. lia.
  - apply free_bits_full; [|simpl; dlia]. intros x Hx. unfold in_bitmap in Hx. simpl in Hx.
    rewrite Hm1, decide_True; [done|dlia].
Qed.

(** The extent of the memory that a memory map describes. *)
Definition map_extent (memmaps : list limine_memmap_entry) : Z * Z :=
  let st := foldl scan_entry phys_stats_zero memmaps in
  (total_pages st, highest_physical_addr st).

Lemma round_up_pages n :
  n mod PAGE_SIZE = 0 → 0 ≤ n < 2 ^ 50 → u64 (0 + div_roundup n PAGE_SIZE) = n / PAGE_SIZE.
Proof.
  intros Hm Hn. unfold div_roundup. rewrite align_down_page by (unfold PAGE_SIZE; lia).
  unfold PAGE_SIZE in *. rewrite u64_small; dlia.
Qed.

(** The counts of start-up: the pages left free, and those of the bitmap. *)
Lemma boot_counts m memmaps e0 :
  boot_ok m memmaps e0 →
  let used := bitmap_bytes memmaps / PAGE_SIZE in
  Z.of_nat (size (usable_set (without_bitmap (bitmap_bytes memmaps) memmaps))) =
    usable_total memmaps - used ∧
  used_pages (add_used (div_roundup (bitmap_bytes memmaps) PAGE_SIZE)
    (fix_lowest (foldl scan_entry phys_stats_zero memmaps))) = used ∧
  u64 (usable_total memmaps - used) = usable_total memmaps - used.
Proof.
  intros []. destruct (bitmap_entry_Some _ _ _ bt_entry0) as (Hin & Hu & Hlen).
  pose proof (usable_top_le _ _ Hin Hu) as Htop0.
  pose proof (usable_top_range _ bt_map0). pose proof (usable_total_range _ bt_map0).
  pose proof bt_hhdm0 as [? ?]. destruct (bitmap_bytes_range _ bt_map0) as [? Hbr].
  destruct (without_bitmap_ok _ _ _ bt_map0 bt_entry0) as (_ & Hset & Hdis); [lia|done|].
  destruct (scan_stats memmaps bt_map0) as (_ & _ & Hf3); [unfold PAGE_SIZE in *; dlia|].
  assert (Z.of_nat (size (usable_set (without_bitmap (bitmap_bytes memmaps) memmaps))) =
    usable_total memmaps - bitmap_bytes memmaps / PAGE_SIZE) as Hcount.
  { rewrite (usable_total_size memmaps), Hset, size_union by done.
    rewrite Nat2Z.inj_add, size_pages by (apply Z.div_pos; [apply Hbr|done]). lia. }
  split_and!; [done| |].
  - simpl. rewrite Hf3. by apply round_up_pages.
  - unfold PAGE_SIZE in *. apply u64_small. dlia.
Qed.

Lemma physical_initialize_returns m memmaps e0 (Q : phys * list limine_memmap_entry → Prop) :
  boot_ok m memmaps e0 →
  (∀ s, phys_ok s →
     pool_of s = {| pool_free := usable_set (without_bitmap (bitmap_bytes memmaps) memmaps);
                    pool_limit := usable_top memmaps / PAGE_SIZE; pool_next := 0 |} →
     (∀ x, bitmap_bytes memmaps ≤ x - (hhdm_offset + base e0) < 8 * bitmap_bytes memmaps →
        phys_mem s !! x = Some 0xff) →
     extent s = map_extent memmaps →
     (∀ x, in_bitmap (phys_bitmap s) x →
        0 ≤ x - (hhdm_offset + base e0) < 8 * bitmap_bytes memmaps) →
     (∀ x, ¬ (0 ≤ x - (hhdm_offset + base e0) < 8 * bitmap_bytes memmaps) →
        phys_mem s !! x = m !! x) →
     Q (s, without_bitmap (bitmap_bytes memmaps) memmaps)) →
  returns (physical_initialize memmaps (phys_start m)) Q.
Proof.
  intros Hboot HQ. pose proof Hboot as [].
  destruct (bitmap_entry_Some _ _ _ bt_entry0) as (Hin & Hu & Hlen).
  pose proof (memmap_ok_entry _ _ bt_map0 Hin Hu) as [[? ?] [? ?] ?].
  pose proof (usable_top_le _ _ Hin Hu) as Htop0.
  pose proof (usable_top_range _ bt_map0) as Htop.
  pose proof (usable_total_range _ bt_map0) as Htotal.
  pose proof bt_hhdm0 as [Hh Hhm]. destruct (bitmap_bytes_range _ bt_map0) as [Hbm Hbr].
  destruct (without_bitmap_ok _ _ _ bt_map0 bt_entry0) as (Hok' & Hset & Hdis); [lia|done|].
  destruct (scan_stats memmaps bt_map0) as (Hf1 & Hf2 & Hf3); [unfold PAGE_SIZE in *; dlia|].
  unfold physical_initialize. cbn [phys_stats set_stats phys_start]. rewrite Hf1.
  change (align_up (usable_top memmaps / PAGE_SIZE / 8) PAGE_SIZE) with (bitmap_bytes memmaps).
  rewrite (u64_small (bitmap_bytes memmaps * 8)) by lia.
  rewrite (Z.mul_comm (bitmap_bytes memmaps)).
  assert (to_higher_half (base e0) = hhdm_offset + base e0) as Hhh.
  { unfold PAGE_SIZE in *. rewrite to_higher_half_low; lia. }
  assert (mapped m (hhdm_offset + base e0) (8 * bitmap_bytes memmaps)) as Hmap0.
  { apply (mapped_mono m (hhdm_offset + base e0) (length_ e0)); [by apply bt_mapped0|lia|lia]. }
  unfold PAGE_SIZE in *.
  bind_step. eapply place_bitmap_returns; [done| | | | |]; rewrite ?Hhh.
  { lia. } { dlia. } { lia. } { split; [lia|lia|done]. }
  intros m1 Hm1. cbn [phys_bitmap phys_mem phys_stats set_stats set_bitmap set_mem].
  set (b := {| buffer_ := hhdm_offset + base e0; size_ := 8 * bitmap_bytes memmaps |}).
  destruct (fresh_bitmap m m1 (hhdm_offset + base e0) (bitmap_bytes memmaps)) as [Hb Hfull]; [lia|lia|lia|done..|]. fold b in Hb, Hfull.
  bind_step. apply free_entries_returns; [done|done| |].
  { pose proof (usable_top_without_bitmap (bitmap_bytes memmaps) memmaps). simpl.
    unfold PAGE_SIZE. dlia. }
  intros m2 Hfr Hbits. rewrite Hfull, union_empty_l_L in Hbits.
  destruct (boot_counts m memmaps e0 Hboot) as (Hcount & Hus & Hfree). simpl in Hus.
  destruct Hfr as (Hfr & Hdom & Hby). cbn [returns]. apply HQ.
  - split; unfold page_limit, pool_of; simpl; rewrite ?Hf1, ?Hf2, ?Hus, ?Hbits;
      unfold PAGE_SIZE in *; rewrite ?Hfree; try done; try lia.
    + by apply (bitmap_ok_frame m1).
    + dlia.
    + intros i Hi. apply (left_page_ok m memmaps e0); [done| |done]. intros x Hx. apply Hdom.
      by eapply filled_mapped.
    + dlia.
  - unfold pool_of, page_limit. simpl. by rewrite Hf1, Hbits.
  - intros x Hx. simpl. rewrite Hfr, Hm1, decide_True; [done|lia|].
    unfold in_bitmap. simpl. dlia.
  - unfold extent, map_extent, fix_lowest. simpl. by case_match.
  - intros x. unfold in_bitmap. simpl. dlia.
  - intros x Hx. simpl. rewrite Hfr, Hm1, decide_False; [done|lia|].
    unfold in_bitmap. simpl. dlia.
Qed.
End with_direct_map.

(** * Properties *)

(** C15. Start-up.  From a memory map whose usable entries are disjoint, made of
    whole pages above page 0 and reachable through the direct map,
    [physical_initialize] returns, establishes the allocator's invariant, and
    leaves free exactly the usable pages but those the bitmap takes from the
    first entry that is large enough; the entry is shrunk by them.  The theorem
    also says what the code does wrong on the way: [memset] is given the number
    of bits as a number of bytes, so it fills eight times the bitmap's size,
    seven bitmap sizes of memory that is then free. *)
Theorem physical_initialize_establishes `{hh : Hhdm} m memmaps e0 :
  boot_ok m memmaps e0 →
  returns (physical_initialize memmaps (phys_start m)) (λ '(s, memmaps'),
    phys_ok s ∧ memmaps' = without_bitmap (bitmap_bytes memmaps) memmaps ∧
    pool_free (pool_of s) = usable_set memmaps ∖
      pages (base e0 / PAGE_SIZE) (bitmap_bytes memmaps / PAGE_SIZE) ∧
    page_limit s = usable_top memmaps / PAGE_SIZE ∧ bitmap_last_index s = 0 ∧
    (∀ x, bitmap_bytes memmaps ≤ x - (hhdm_offset + base e0) < 8 * bitmap_bytes memmaps →
       phys_mem s !! x = Some 0xff)).
Proof.
  intros Hb. apply (physical_initialize_returns m memmaps e0); [done|].
  intros s Hok Hpool Hff _ _ _. pose proof Hb as [_ Hmap _ _ _ He _ _].
  destruct (bitmap_bytes_range _ Hmap) as [? ?].
  destruct (without_bitmap_ok _ _ _ Hmap He) as (_ & -> & Hdis); [lia|done|].
  change (page_limit s) with (pool_limit (pool_of s)).
  change (bitmap_last_index s) with (pool_next (pool_of s)). rewrite Hpool. simpl.
  split_and!; [done|done| |done|done|done].
  rewrite difference_union_distr_l_L, difference_diag_L, union_empty_r_L.
  symmetry. by apply difference_disjoint_L.
Qed.

(** Page 0 and fifteen pages of memory above it. *)
Definition sample_memmaps : list limine_memmap_entry :=
  [ {| base := 0xa0000; length_ := 0x1000; type := LIMINE_MEMMAP_OTHER |};
    {| base := 0x1000; length_ := 0xf000; type := LIMINE_MEMMAP_USABLE |} ].
Definition sample_boot_mem : mem := mem_of (2 ^ 47) (replicate (Z.to_nat 0x10000) 0).

Lemma sample_boot_ok :
  boot_ok (H := sample_hhdm) sample_boot_mem sample_memmaps
    {| base := 0x1000; length_ := 0xf000; type := LIMINE_MEMMAP_USABLE |}.
Proof.
  split.
  - split; [unfold hhdm_offset, sample_hhdm; lia|reflexivity].
  - split; [done|]. split; [|done]. intros _. split; [by split|set_solver].
  - unfold hhdm_offset, sample_hhdm. simpl. lia.
  - intros e [->|[->|?%elem_of_nil]%elem_of_cons]%elem_of_cons Hu; [discriminate| |done].
    intros x Hx. apply mem_of_is_Some. rewrite length_replicate.
    unfold hhdm_offset, sample_hhdm in Hx. cbn [base length_] in Hx. lia.
  - apply mem_of_bytes_ok, Forall_replicate. lia.
  - reflexivity.
  - by vm_compute.
  - by vm_compute.
Qed.

Lemma physical_initialize_establishes_witness :
  returns (physical_initialize (H := sample_hhdm) sample_memmaps (phys_start sample_boot_mem))
    (λ '(s, memmaps'), phys_ok (H := sample_hhdm) s ∧
      pool_free (pool_of s) = usable_set sample_memmaps ∖ pages 1 1).
Proof.
  eapply returns_mono.
  - apply (physical_initialize_establishes (hh := sample_hhdm) sample_boot_mem sample_memmaps
      {| base := 0x1000; length_ := 0xf000; type := LIMINE_MEMMAP_USABLE |}).
    exact sample_boot_ok.
  - intros [s memmaps'] (Hok & _ & Hfree & _). split; [exact Hok|exact Hfree].
Defined.
