(* ===== verification/Frames.v ===== *)
(** * The interface between page tables and physical memory

    What [kernel/arch/amd64/memory/paging.cpp] and [kernel/memory/virtual.cpp]
    use of the physical allocator, as a class of operations and a class of laws,
    and the allocator of [Physical] as their instance.  The clients' theorems
    use the laws only. *)
From S2P Require Import Prelude Mem MemCopy Lock Bitmap Addr Physical.

(** The memory an allocator lives in, [physical_allocate(1)] and
    [physical_free]. *)
Class FrameOps (A : Type) := {
  fr_mem : A → mem;
  fr_set_mem : mem → A → A;
  fr_alloc : A → outcome (A * Z);
  fr_free : Z → A → outcome A;
}.

(** The bytes of frame [f] in the direct map. *)
Definition frame_base `{Hhdm} (f : Z) : Z := hhdm_offset + f * PAGE_SIZE.
Definition in_frame `{Hhdm} (f x : Z) : Prop := frame_base f ≤ x < frame_base f + PAGE_SIZE.

#[global] Instance in_frame_dec `{Hhdm} f x : Decision (in_frame f x).
Proof. unfold in_frame. apply _. Defined.

(** [fr_frame a f]: the client may read and write frame [f].  [fr_private a x]:
    address [x] holds the allocator's own data.  [fr_avail a f]: frame [f] may be
    handed out by the next allocation.  [fr_spare a]: some page counts as used.
    [fr_extent a]: the size of the memory managed. *)
Class FrameLaws (A : Type) `{Hhdm, FrameOps A} := {
  fr_ok : A → Prop;
  fr_frame : A → Z → Prop;
  fr_private : A → Z → Prop;
  fr_avail : A → Z → Prop;
  fr_spare : A → Prop;
  fr_extent : A → Z * Z;
  fr_hhdm : ∀ a, fr_ok a → hhdm_ok;
  fr_bytes : ∀ a, fr_ok a → bytes_ok (fr_mem a);
  fr_range : ∀ a f, fr_ok a → fr_frame a f →
    1 ≤ f ∧ (f + 1) * PAGE_SIZE ≤ hhdm_offset ∧
    hhdm_offset + (f + 1) * PAGE_SIZE < 2 ^ 64 ∧ (f + 1) * PAGE_SIZE ≤ 2 ^ 52;
  fr_mapped : ∀ a f, fr_ok a → fr_frame a f → mapped (fr_mem a) (frame_base f) PAGE_SIZE;
  fr_apart : ∀ a f x, fr_ok a → fr_frame a f → in_frame f x → ¬ fr_private a x;
  fr_mem_set : ∀ a m, fr_mem (fr_set_mem m a) = m;
  (** A write outside the private data keeps everything. *)
  fr_write : ∀ a m, fr_ok a → bytes_ok m →
    (∀ x, is_Some (fr_mem a !! x) → is_Some (m !! x)) →
    (∀ x, fr_private a x → m !! x = fr_mem a !! x) →
    fr_ok (fr_set_mem m a) ∧
    (∀ f, fr_frame a f → fr_frame (fr_set_mem m a) f) ∧
    (∀ x, fr_private (fr_set_mem m a) x ↔ fr_private a x) ∧
    (∀ f, fr_avail (fr_set_mem m a) f ↔ fr_avail a f);
  (** An allocation panics or hands out an available frame, cleared. *)
  fr_alloc_spec : ∀ a, fr_ok a →
    fr_alloc a = Panic ∨
    ∃ a' f, fr_alloc a = Ok (a', f * PAGE_SIZE) ∧ fr_ok a' ∧
      fr_avail a f ∧ fr_frame a' f ∧
      (∀ g, fr_avail a' g ↔ fr_avail a g ∧ g ≠ f) ∧
      (∀ g, fr_frame a g → fr_frame a' g) ∧ (fr_spare a → fr_spare a') ∧
      fr_extent a' = fr_extent a ∧
      (∀ x, fr_private a' x ↔ fr_private a x) ∧
      (∀ x, ¬ fr_private a x →
         fr_mem a' !! x = if decide (in_frame f x) then Some 0 else fr_mem a !! x);
  (** A frame in use can be given back. *)
  fr_free_spec : ∀ a f, fr_ok a → fr_frame a f → ¬ fr_avail a f → fr_spare a →
    returns (fr_free (f * PAGE_SIZE) a) (λ a', fr_ok a' ∧
      (∀ g, fr_avail a' g ↔ fr_avail a g ∨ g = f) ∧
      (∀ g, fr_frame a g → fr_frame a' g) ∧
      (∀ x, fr_private a' x ↔ fr_private a x) ∧
      (∀ x, ¬ fr_private a x → fr_mem a' !! x = fr_mem a !! x));
  fr_spare_write : ∀ a m, fr_spare (fr_set_mem m a) ↔ fr_spare a;
  fr_extent_write : ∀ a m, fr_extent (fr_set_mem m a) = fr_extent a;
}.

(** What start-up relies on: the allocator manages the same memory, keeps its data
    where it was, and the memory that is neither this nor a frame is as before. *)
Record fr_steady `{FrameLaws A} (a a' : A) : Prop := FrSteady {
  st_extent : fr_extent a' = fr_extent a;
  st_private : ∀ x, fr_private a' x ↔ fr_private a x;
  st_low : ∀ x, ¬ fr_private a x → (∀ f, 1 ≤ f → ¬ in_frame f x) → fr_mem a' !! x = fr_mem a !! x;
}.

#[global] Instance fr_steady_preorder `{FrameLaws A} : PreOrder fr_steady.
Proof.
  split; [by intros a; split|]. intros a b c [E1 P1 L1] [E2 P2 L2]. split; [congruence| |].
  - intros x. by rewrite P2, P1.
  - intros x Hx Hf. rewrite L2 by (done || by rewrite P1). by apply L1.
Qed.

(** ** The allocator of [physical.cpp] *)

#[global] Instance phys_frame_ops `{Hhdm} : FrameOps phys := {|
  fr_mem := phys_mem;
  fr_set_mem := set_mem;
  fr_alloc := physical_allocate 1;
  fr_free := λ ptr s, physical_free ptr 1 s;
|}.

Lemma phys_ok_write `{Hhdm} s m :
  phys_ok s → bytes_ok m → (∀ x, is_Some (phys_mem s !! x) → is_Some (m !! x)) →
  (∀ x, in_bitmap (phys_bitmap s) x → m !! x = phys_mem s !! x) →
  phys_ok (set_mem m s) ∧ pool_of (set_mem m s) = pool_of s.
Proof.
  intros Hok Hb Hd Hx. pose proof (ph_bitmap _ Hok) as [[Hs0 Hs8] ? ? ?].
  assert (free_bits m (phys_bitmap s) = free_bits (phys_mem s) (phys_bitmap s)) as Hf.
  { apply set_eq. intros i. rewrite !elem_of_free_bits.
    destruct (decide (0 ≤ i < size_ (phys_bitmap s))); [|tauto].
    by rewrite (bit_at_apart (phys_mem s) m). }
  destruct Hok as [? ? ? ? ? ? Hpages ? ?]. split.
  - split; simpl; rewrite ?Hf; try done.
    + split; [done|done| |done]. by apply (mapped_same_dom (phys_mem s)).
    + intros i Hi. eapply page_ok_mono; [done|]. by apply Hpages.
  - unfold pool_of, page_limit. simpl. by rewrite Hf.
Qed.

Lemma pool_find_range count pl p :
  pool_find count pl = Some p → 0 < count → p ∈ pool_free pl.
Proof. intros Hf%pool_find_run ?. apply Hf, elem_of_pages. lia. Qed.

#[global] Program Instance phys_frame_laws `{hh : Hhdm} : FrameLaws phys := {|
  fr_ok := phys_ok;
  fr_frame := λ s f, page_ok (phys_mem s) (phys_bitmap s) (page_limit s) f;
  fr_private := λ s x, in_bitmap (phys_bitmap s) x;
  fr_avail := λ s f, f ∈ pool_free (pool_of s);
  fr_spare := λ s, 1 ≤ used_pages (phys_stats s);
  fr_extent := extent;
|}.
Next Obligation. intros hh s Hok. apply Hok. Qed.
Next Obligation. intros hh s Hok. apply Hok. Qed.
Next Obligation.
  intros hh s f Hok [Hr _ _]. destruct (ph_direct _ Hok) as (? & ? & ?). unfold PAGE_SIZE in *. lia.
Qed.
Next Obligation. intros hh s f _ [_ Hm _]. exact Hm. Qed.
Next Obligation.
  intros hh s f x _ [_ _ Ha] Hf Hb. exact (Ha x Hb Hf).
Qed.
Next Obligation. done. Qed.
Next Obligation.
  intros hh s m Hok Hb Hd Hx. destruct (phys_ok_write s m Hok Hb Hd Hx) as [Hok' Hp].
  split_and!; [done| |done|].
  - intros f. by apply page_ok_mono.
  - intros f. simpl fr_set_mem. by rewrite Hp.
Qed.
Next Obligation.
  intros hh s Hok. simpl fr_alloc.
  destruct (pool_find 1 (pool_of s)) as [f|] eqn:Hf.
  2: { left. by apply physical_allocate_panics. }
  right. destruct (returns_inv (physical_allocate 1 s)
    (λ '(s', r), r = f * PAGE_SIZE ∧ allocated s f 1 s')) as ([s' r] & Hr & -> & Hal).
  { apply (physical_allocate_returns s 1 _ f); [done|lia|done|by split]. }
  pose proof (pool_find_range _ _ _ Hf ltac:(lia)) as Hin.
  destruct Hal as [Hok' Hpool Hused Hbm Hzero Hmap _ Hext].
  assert (∀ g, page_ok (phys_mem s) (phys_bitmap s) (page_limit s) g →
    page_ok (phys_mem s') (phys_bitmap s') (page_limit s') g) as Hpg.
  { intros g. rewrite Hbm. change (page_limit s') with (pool_limit (pool_of s')).
    rewrite Hpool. by apply page_ok_mono. }
  exists s', f. split_and!; [done|done|done| | |done| | | |].
  - apply Hpg. by apply (ph_pages _ Hok).
  - intros g. rewrite Hpool. simpl. rewrite elem_of_difference, elem_of_pages. intuition lia.
  - simpl. lia.
  - exact Hext.
  - intros x. by rewrite Hbm.
  - intros x Hx. simpl. rewrite Hzero by done. unfold in_frame, frame_base, PAGE_SIZE.
    repeat case_decide; try lia; done.
Qed.
Next Obligation.
  intros hh s f Hok Hf Hav Hsp. simpl in Hsp. simpl fr_free.
  assert (∀ i, f ≤ i < f + 1 → i = f) as Hone by (intros; lia).
  apply physical_free_returns; [done|lia| | |].
  - intros i ->%Hone. exact Hf.
  - intros i Hi%elem_of_pages. rewrite (Hone i) by done. exact Hav.
  - intros s' Hok' Hpool Hbm [Hfr [Hdom _]] _. split_and!; [done| | | |].
    + intros g. rewrite Hpool. simpl. rewrite elem_of_union, elem_of_pages.
      split; (intros [?|Hg]; [by left|right; lia]).
    + intros g. rewrite Hbm. change (page_limit s') with (pool_limit (pool_of s')).
      rewrite Hpool. by apply page_ok_mono.
    + intros x. by rewrite Hbm.
    + intros x Hx. by apply Hfr.
Qed.
Next Obligation. done. Qed.
Next Obligation. done. Qed.
