(* ===== verification/Paging.v ===== *)
(** * Page tables: [kernel/arch/amd64/memory/paging.cpp]

    The page tables live in memory, entries at their addresses in the direct
    map; the frames come from an allocator of the class [FrameOps].  The state
    is the allocator's, one [PageMap], the static [pml3_translation] and what
    the hardware is told (the TLB invalidations and the value of CR3, newest
    first).  [map_page] takes the page map's lock and [get_next_lvl] calls it to
    split a large page, so the two are tied by a depth of recursion. *)
From S2P Require Import Prelude Mem MemCopy MemSet Lock Addr Frames.

(** ** Flags: [memory/virtual.hpp] and [mmu.hpp] *)

Definition MAP_READ : Z := Z.shiftl 1 0.
Definition MAP_WRITE : Z := Z.shiftl 1 1.
Definition MAP_EXEC : Z := Z.shiftl 1 2.
Definition MAP_GLOBAL : Z := Z.shiftl 1 3.
Definition MAP_USER : Z := Z.shiftl 1 4.
Definition MAP_PAGE_1GB : Z := Z.shiftl 1 5.
Definition MAP_PAGE_2MB : Z := Z.shiftl 1 6.
Definition MAP_MMIO : Z := Z.shiftl 1 7.
Definition MAP_WRITE_THROUGH : Z := Z.shiftl 1 6.
Definition MAP_PROTECTED : Z := Z.shiftl 1 7.
Definition MAP_WRITE_COMBINING : Z := Z.shiftl 1 8.
Definition MAP_WRITE_BACK : Z := Z.shiftl 1 9.
Definition MAP_NO_CACHE : Z := Z.shiftl 1 10.

Definition PAGE_FLAG_PRESENT : Z := Z.shiftl 1 0.
Definition PAGE_FLAG_WRITABLE : Z := Z.shiftl 1 1.
Definition PAGE_FLAG_USER_ACCESSIBLE : Z := Z.shiftl 1 2.
Definition PAGE_FLAG_WRITE_THROUGH : Z := Z.shiftl 1 3.
Definition PAGE_FLAG_NO_CACHE : Z := Z.shiftl 1 4.
Definition PAGE_FLAG_SIZE_EXTENSION : Z := Z.shiftl 1 7.
Definition PAGE_FLAG_GLOBAL : Z := Z.shiftl 1 8.
Definition PAGE_FLAG_NO_EXECUTE : Z := Z.shiftl 1 63.
Definition NEW_PAGE_FLAGS : Z :=
  Z.lor (Z.lor PAGE_FLAG_PRESENT PAGE_FLAG_WRITABLE) PAGE_FLAG_USER_ACCESSIBLE.

Definition PAGE_ADDR_MASK : Z := 0x000ffffffffff000.

(** [error_t] values of [libc/include/errno.h]. *)
Definition SYSTEM_OK : Z := 0.
Definition SYSTEM_ERR_ADDRESS_UNREACHABLE : Z := -71.

Definition parse_cache (flags page_size : Z) : Z :=
  let patbit := if PAGE_SIZE <? page_size then Z.shiftl 1 12 else Z.shiftl 1 7 in
  if has flags MAP_MMIO then PAGE_FLAG_NO_CACHE
  else if has flags MAP_WRITE_COMBINING then Z.lor PAGE_FLAG_NO_CACHE PAGE_FLAG_WRITE_THROUGH
  else if has flags MAP_WRITE_THROUGH then patbit
  else if has flags MAP_PROTECTED then Z.lor patbit PAGE_FLAG_WRITE_THROUGH
  else if has flags MAP_WRITE_BACK then Z.lor patbit PAGE_FLAG_NO_CACHE
  else if has flags MAP_NO_CACHE
       then Z.lor (Z.lor patbit PAGE_FLAG_NO_CACHE) PAGE_FLAG_WRITE_THROUGH
  else 0.

(** [if(c) ret |= bit]. *)
Definition or_if (c : bool) (bit ret : Z) : Z := if c then Z.lor ret bit else ret.

(** [virt::parse_flags]. *)
Definition virt_parse_flags (flags : Z) : Z :=
  let ret := 0 in
  let ret := or_if (has flags MAP_PAGE_1GB || has flags MAP_PAGE_2MB)
               PAGE_FLAG_SIZE_EXTENSION ret in
  let ret := or_if (has flags MAP_READ) PAGE_FLAG_PRESENT ret in
  let ret := or_if (has flags MAP_WRITE) PAGE_FLAG_WRITABLE ret in
  let ret := or_if (has flags MAP_USER) PAGE_FLAG_USER_ACCESSIBLE ret in
  let ret := or_if (negb (has flags MAP_EXEC)) PAGE_FLAG_NO_EXECUTE ret in
  or_if (has flags MAP_GLOBAL) PAGE_FLAG_GLOBAL ret.

Definition flag_to_page_size (flags : Z) : Z :=
  if has flags MAP_PAGE_1GB then PAGE_SIZE_1GiB
  else if has flags MAP_PAGE_2MB then PAGE_SIZE_2MiB
  else PAGE_SIZE.

(** [PageMap::parse_flags]. *)
Definition parse_flags (flags : Z) : Z :=
  let page_size := flag_to_page_size flags in
  Z.lor (parse_cache flags page_size) (virt_parse_flags flags).

Definition match_flags (flags m : Z) : bool := Z.land flags m =? m.

Definition vmm_flags (flags : Z) (large_pages : bool) : Z :=
  let patbit := if large_pages then Z.shiftl 1 7 else Z.shiftl 1 12 in
  let ret := 0 in
  let ret := or_if (has flags PAGE_FLAG_PRESENT) MAP_READ ret in
  let ret := or_if (has flags PAGE_FLAG_WRITABLE) MAP_WRITE ret in
  let ret := or_if (negb (has flags PAGE_FLAG_NO_EXECUTE)) MAP_EXEC ret in
  let ret := or_if (has flags PAGE_FLAG_USER_ACCESSIBLE) MAP_USER ret in
  let ret := or_if (has flags PAGE_FLAG_GLOBAL) MAP_GLOBAL ret in
  if match_flags flags (Z.lor (Z.lor patbit PAGE_FLAG_NO_CACHE) PAGE_FLAG_WRITE_THROUGH)
  then Z.lor ret MAP_NO_CACHE
  else if match_flags flags (Z.lor patbit PAGE_FLAG_NO_CACHE) then Z.lor ret MAP_WRITE_BACK
  else if match_flags flags (Z.lor patbit PAGE_FLAG_WRITE_THROUGH) then Z.lor ret MAP_PROTECTED
  else if match_flags flags patbit then Z.lor ret MAP_WRITE_THROUGH
  else if match_flags flags (Z.lor PAGE_FLAG_NO_CACHE PAGE_FLAG_WRITE_THROUGH)
       then Z.lor ret MAP_WRITE_COMBINING
  else if match_flags flags PAGE_FLAG_NO_CACHE then Z.lor ret MAP_MMIO
  else ret.

Definition get_page_size_flags (page_size : Z) : Z :=
  if page_size =? PAGE_SIZE then 0
  else if page_size =? PAGE_SIZE_2MiB then MAP_PAGE_2MB
  else MAP_PAGE_1GB.

Definition get_page_size (size : Z) : Z :=
  if PAGE_SIZE_1GiB <=? size then PAGE_SIZE_1GiB
  else if PAGE_SIZE_2MiB <=? size then PAGE_SIZE_2MiB
  else PAGE_SIZE.

Definition required_page_size (size : Z) : Z * Z :=
  if PAGE_SIZE_1GiB <=? size then (PAGE_SIZE_1GiB, MAP_PAGE_1GB)
  else if PAGE_SIZE_2MiB <=? size then (PAGE_SIZE_2MiB, MAP_PAGE_2MB)
  else (PAGE_SIZE, 0).

(** ** [PageTableEntry], by value *)

Definition entry_set_flags (val flags : Z) : Z := Z.lor val flags.
Definition entry_clear_flags (val flags : Z) : Z := Z.land val (u64 (Z.lnot flags)).
Definition entry_has_flags (val flags : Z) : bool := has val flags.
Definition entry_get_flags (val : Z) : Z := Z.land val (u64 (Z.lnot PAGE_ADDR_MASK)).
Definition entry_get_address (val : Z) : Z := Z.land val PAGE_ADDR_MASK.
Definition entry_set_address (val address : Z) : Z :=
  Z.lor (Z.land val (u64 (Z.lnot PAGE_ADDR_MASK))) address.
Definition is_large (val : Z) : bool := entry_has_flags val PAGE_FLAG_SIZE_EXTENSION.
Definition is_valid (val : Z) : bool := entry_has_flags val PAGE_FLAG_PRESENT.

Definition GET_PML_ENTRY (virtual_address offset : Z) : Z :=
  Z.land (Z.shiftr virtual_address offset) 0x1ff.

(** ** The state *)

Inductive hw_event :=
  | Invalidate (address : Z)
  | WriteCr3 (value : Z)
  | EnablePat.

Record vm (A : Type) := Vm {
  vm_frames : A;
  top_lvl_ : Z;
  lock_ : TicketLock;
  pml3_translation : bool;
  vm_hw : list hw_event;
}.
Arguments Vm {A}.
Arguments vm_frames {A}.
Arguments top_lvl_ {A}.
Arguments lock_ {A}.
Arguments pml3_translation {A}.
Arguments vm_hw {A}.

(** [paging_mode_request.response->mode != LIMINE_PAGING_MODE_MIN], the boot
    loader's answer. *)
Class PagingMode := is_paging_mode_max : bool.

Section paging.
Context {A : Type} `{Hhdm, PagingMode, FrameOps A}.

Definition vm_mem (s : vm A) : mem := fr_mem (vm_frames s).

Definition set_frames (a : A) (s : vm A) : vm A :=
  Vm a (top_lvl_ s) (lock_ s) (pml3_translation s) (vm_hw s).
Definition set_top (t : Z) (s : vm A) : vm A :=
  Vm (vm_frames s) t (lock_ s) (pml3_translation s) (vm_hw s).
Definition set_vm_lock (l : TicketLock) (s : vm A) : vm A :=
  Vm (vm_frames s) (top_lvl_ s) l (pml3_translation s) (vm_hw s).
Definition set_pml3 (b : bool) (s : vm A) : vm A :=
  Vm (vm_frames s) (top_lvl_ s) (lock_ s) b (vm_hw s).
Definition emit (e : hw_event) (s : vm A) : vm A :=
  Vm (vm_frames s) (top_lvl_ s) (lock_ s) (pml3_translation s) (e :: vm_hw s).

(** Entries by address. *)
Definition load_entry (p : Z) (s : vm A) : outcome Z := ld64 (vm_mem s) p.
Definition store_entry (p v : Z) (s : vm A) : outcome (vm A) :=
  m ← st64 (vm_mem s) p v;
  Ok (set_frames (fr_set_mem m (vm_frames s)) s).
Definition entry_at (table i : Z) : Z := u64 (table + 8 * i).

Definition allocate_frame (s : vm A) : outcome (vm A * Z) :=
  '(a, ret) ← fr_alloc (vm_frames s);
  Ok (set_frames a s, ret).

(** [lock::ScopedLock guard(this->lock_)] around a function's body. *)
Definition with_lock {R} (body : vm A → outcome (vm A * R)) (s : vm A) : outcome (vm A * R) :=
  l ← mutex_lock (lock_ s);
  '(s, r) ← body (set_vm_lock l s);
  Ok (set_vm_lock (mutex_unlock (lock_ s)) s, r).

(** [static_cast<size_t>(-1)]. *)
Definition minus_one : Z := u64 (- 1).

(** ** Walking *)

Section with_map_page.
Context (map_page : Z → Z → Z → vm A → outcome (vm A * Z)).

(** The entry is given by its address.  [for(i = 0; i < old_page_size; i +=
    page_size)] makes at most [old_page_size / page_size + 1] turns. *)
Definition get_next_lvl (entry : Z) (allocate : bool)
    (virtual_address old_page_size page_size : Z) (s : vm A) : outcome (vm A * Z) :=
  v ← load_entry entry s;
  '(s, ret) ←
    (if is_valid v then
       if is_large v && negb (old_page_size =? minus_one) then
         let old_flags := vmm_flags (entry_get_flags v) (PAGE_SIZE <? old_page_size) in
         let old_phys_address := entry_get_address v in
         let old_virt_address :=
           Z.land virtual_address (u64 (Z.lnot (u64 (old_page_size - 1)))) in
         if has old_phys_address (u64 (old_page_size - 1)) then Panic else
         '(s, ret) ← allocate_frame s;
         v ← load_entry entry s;
         s ← store_entry entry (entry_set_address v ret) s;
         v ← load_entry entry s;
         s ← store_entry entry (entry_set_flags v NEW_PAGE_FLAGS) s;
         s ← loop (S (S (Z.to_nat (old_page_size / page_size))))
               (λ '(s, i),
                  if i <? old_page_size then
                    '(s, _) ← map_page (u64 (old_virt_address + i)) (u64 (old_phys_address + i))
                                (Z.lor old_flags (get_page_size_flags page_size)) s;
                    Ok (inl (s, u64 (i + page_size)))
                  else Ok (inr s))
               (s, 0);
         Ok (s, ret)
       else Ok (s, entry_get_address v)
     else if allocate then
       '(s, ret) ← allocate_frame s;
       v ← load_entry entry s;
       s ← store_entry entry (entry_set_address v ret) s;
       v ← load_entry entry s;
       s ← store_entry entry (entry_set_flags v NEW_PAGE_FLAGS) s;
       Ok (s, ret)
     else Ok (s, 0));
  Ok (s, to_higher_half ret).

(** [get_next_lvl] with its default arguments. *)
Definition get_next_lvl_default (entry : Z) (allocate : bool) (s : vm A) :
    outcome (vm A * Z) :=
  get_next_lvl entry allocate minus_one minus_one minus_one s.

(** The address of the entry; [nullptr] is 0. *)
Definition virtual_to_entry (virtual_address : Z) (allocate : bool) (page_size : Z)
    (check_large : bool) (s : vm A) : outcome (vm A * Z) :=
  let pml5_entry := GET_PML_ENTRY virtual_address 48 in
  let pml4_entry := GET_PML_ENTRY virtual_address 39 in
  let pdp_entry := GET_PML_ENTRY virtual_address 30 in
  let pd_entry := GET_PML_ENTRY virtual_address 21 in
  let pt_entry := GET_PML_ENTRY virtual_address 12 in
  if top_lvl_ s =? 0 then Ok (s, 0) else
  let pml4 := top_lvl_ s in
  '(s, pml4) ←
    (if is_paging_mode_max
     then get_next_lvl_default (entry_at (top_lvl_ s) pml5_entry) allocate s
     else Ok (s, pml4));
  if pml4 =? 0 then Ok (s, 0) else
  '(s, pdp) ← get_next_lvl_default (entry_at pml4 pml4_entry) allocate s;
  if pdp =? 0 then Ok (s, 0) else
  large ← (if page_size =? PAGE_SIZE_1GiB then Ok true
           else if check_large then
             v ← load_entry (entry_at pdp pdp_entry) s; Ok (is_large v)
           else Ok false);
  if large : bool then Ok (s, entry_at pdp pdp_entry) else
  '(s, pd) ← get_next_lvl (entry_at pdp pdp_entry) allocate virtual_address
               PAGE_SIZE_1GiB page_size s;
  if pd =? 0 then Ok (s, 0) else
  large ← (if page_size =? PAGE_SIZE_2MiB then Ok true
           else if check_large then
             v ← load_entry (entry_at pdp pd_entry) s; Ok (is_large v)
           else Ok false);
  if large : bool then Ok (s, entry_at pd pd_entry) else
  '(s, pt) ← get_next_lvl (entry_at pd pd_entry) allocate virtual_address
               PAGE_SIZE_2MiB page_size s;
  if pt =? 0 then Ok (s, 0) else
  Ok (s, entry_at pt pt_entry).

(** The lambda [map_one]. *)
Definition map_one (virtual_address physical_address flags page_size : Z) (s : vm A) :
    outcome (vm A * Z) :=
  '(s, pml_entry) ← virtual_to_entry virtual_address true page_size false s;
  if pml_entry =? 0 then Ok (s, SYSTEM_ERR_ADDRESS_UNREACHABLE) else
  s ← store_entry pml_entry 0 s;
  v ← load_entry pml_entry s;
  s ← store_entry pml_entry (entry_set_address v physical_address) s;
  v ← load_entry pml_entry s;
  s ← store_entry pml_entry (entry_set_flags v flags) s;
  Ok (s, SYSTEM_OK).

(** The loops over the 512 pages of 2 MiB in 1 GiB. *)
Definition each_2MiB (one : Z → vm A → outcome (vm A * Z)) (s : vm A) :
    outcome (vm A * Z) :=
  loop 513
    (λ '(s, i),
       if i <? PAGE_SIZE_1GiB then
         '(s, r) ← one i s;
         if negb (r =? SYSTEM_OK) then Ok (inr (s, SYSTEM_ERR_ADDRESS_UNREACHABLE)) else
         Ok (inl (s, u64 (i + PAGE_SIZE_2MiB)))
       else Ok (inr (s, SYSTEM_OK)))
    (s, 0).

Definition map_page_body (virtual_address physical_address flags : Z) : vm A → outcome (vm A * Z) :=
  with_lock (λ s,
    let page_size := flag_to_page_size flags in
    let parsed_flags := parse_flags flags in
    if (page_size =? PAGE_SIZE_1GiB) && negb (pml3_translation s) then
      each_2MiB (λ i, map_one (u64 (virtual_address + i)) (u64 (physical_address + i))
                        parsed_flags PAGE_SIZE_2MiB) s
    else map_one virtual_address physical_address parsed_flags page_size s).
End with_map_page.

(** [map_page], with the depth to which splits may nest. *)
Fixpoint map_page_depth (n : nat) (virtual_address physical_address flags : Z) (s : vm A) :
    outcome (vm A * Z) :=
  match n with
  | O => NoFuel
  | S n' => map_page_body (map_page_depth n') virtual_address physical_address flags s
  end.

(** Two levels are enough: a nested call finds the lock taken. *)
Definition map_page : Z → Z → Z → vm A → outcome (vm A * Z) := map_page_depth 3.
Definition next_lvl := get_next_lvl map_page.
Definition to_entry := virtual_to_entry map_page.

Definition virtual_to_physical (virtual_address flags : Z) : vm A → outcome (vm A * Z) :=
  with_lock (λ s,
    let page_size := flag_to_page_size flags in
    '(s, pml_entry) ← to_entry virtual_address false page_size true s;
    if pml_entry =? 0 then Ok (s, minus_one) else
    v ← load_entry pml_entry s;
    if negb (entry_has_flags v PAGE_FLAG_PRESENT) then Ok (s, minus_one) else
    Ok (s, u64 (entry_get_address v + virtual_address mod page_size))).

(** The lambda [unmap_one]. *)
Definition unmap_one (virtual_address page_size : Z) (s : vm A) : outcome (vm A * Z) :=
  '(s, pml_entry) ← to_entry virtual_address false page_size true s;
  if pml_entry =? 0 then Ok (s, SYSTEM_ERR_ADDRESS_UNREACHABLE) else
  s ← store_entry pml_entry 0 s;
  Ok (emit (Invalidate virtual_address) s, SYSTEM_OK).

Definition unmap_page (virtual_address flags : Z) : vm A → outcome (vm A * Z) :=
  with_lock (λ s,
    let page_size := flag_to_page_size flags in
    if (page_size =? PAGE_SIZE_1GiB) && negb (pml3_translation s) then
      each_2MiB (λ i, unmap_one (u64 (virtual_address + i)) PAGE_SIZE_2MiB) s
    else unmap_one virtual_address page_size s).

Definition setflags_page (virtual_address flags : Z) : vm A → outcome (vm A * Z) :=
  with_lock (λ s,
    let page_size := flag_to_page_size flags in
    let parsed_flags := parse_flags flags in
    '(s, pml_entry) ← to_entry virtual_address true page_size true s;
    if pml_entry =? 0 then Ok (s, SYSTEM_ERR_ADDRESS_UNREACHABLE) else
    v ← load_entry pml_entry s;
    let physical_address := entry_get_address v in
    s ← store_entry pml_entry 0 s;
    v ← load_entry pml_entry s;
    s ← store_entry pml_entry (entry_set_address v physical_address) s;
    v ← load_entry pml_entry s;
    s ← store_entry pml_entry (entry_set_flags v parsed_flags) s;
    Ok (s, SYSTEM_OK)).

Definition remap_page (old_virtual_address new_virtual_address flags : Z) (s : vm A) :
    outcome (vm A * Z) :=
  '(s, physical_address) ← virtual_to_physical old_virtual_address flags s;
  '(s, _) ← unmap_page old_virtual_address flags s;
  map_page new_virtual_address physical_address flags s.

(** ** Ranges: [for(i = 0; i < size; i += page_size)] *)

Definition each_page (size page_size : Z) (one : Z → vm A → outcome (vm A * Z))
    (failed : Z → vm A → outcome (vm A)) (s : vm A) : outcome (vm A * Z) :=
  loop (S (S (Z.to_nat (size / page_size))))
    (λ '(s, i),
       if i <? size then
         '(s, r) ← one i s;
         if negb (r =? SYSTEM_OK) then
           s ← failed i s; Ok (inr (s, SYSTEM_ERR_ADDRESS_UNREACHABLE))
         else Ok (inl (s, u64 (i + page_size)))
       else Ok (inr (s, SYSTEM_OK)))
    (s, 0).

Definition unmap_pages (virtual_address size flags : Z) (s : vm A) : outcome (vm A * Z) :=
  let page_size := flag_to_page_size flags in
  each_page size page_size (λ i, unmap_page (u64 (virtual_address + i)) flags)
    (λ _ s, Ok s) s.

Definition map_pages (virtual_address physical_address size flags : Z) (s : vm A) :
    outcome (vm A * Z) :=
  let page_size := flag_to_page_size flags in
  each_page size page_size
    (λ i, map_page (u64 (virtual_address + i)) (u64 (physical_address + i)) flags)
    (λ i s, '(s, _) ← unmap_pages virtual_address (u64 (i - page_size)) flags s; Ok s) s.

Definition setflags_pages (virtual_address size flags : Z) (s : vm A) : outcome (vm A * Z) :=
  let page_size := flag_to_page_size flags in
  each_page size page_size (λ i, setflags_page (u64 (virtual_address + i)) flags)
    (λ _ s, Ok s) s.

Definition remap_pages (old_virtual_address new_virtual_address size flags : Z) (s : vm A) :
    outcome (vm A * Z) :=
  let page_size := flag_to_page_size flags in
  each_page size page_size
    (λ i, remap_page (u64 (old_virtual_address + i)) (u64 (new_virtual_address + i)) flags)
    (λ _ s, Ok s) s.

(** ** Life of a page map *)

(** [test_feature(FEATURE_HUGE_PAGE)] is an argument, and so is the other page
    map whose upper half a user page map copies. *)
Definition initialize (kernel_pagemap huge_page : bool) (base_top : Z) (s : vm A) :
    outcome (vm A) :=
  '(s, frame) ← allocate_frame s;
  let s := set_top (to_higher_half frame) s in
  '(m, _) ← memset (vm_mem s) (top_lvl_ s) 0 PAGE_SIZE;
  let s := set_frames (fr_set_mem m (vm_frames s)) s in
  if kernel_pagemap then
    let s := set_pml3 huge_page s in
    '(s, _) ← repeat_n 256
      (λ '(s, i),
         '(s, _) ← get_next_lvl_default map_page (entry_at (top_lvl_ s) i) true s;
         Ok (s, u64 (i + 1)))
      (s, 256);
    Ok (emit EnablePat s)
  else
    '(s, _) ← repeat_n 256
      (λ '(s, i),
         v ← load_entry (entry_at base_top i) s;
         s ← store_entry (entry_at (top_lvl_ s) i) v s;
         Ok (s, u64 (i + 1)))
      (s, 256);
    Ok s.

Definition load (s : vm A) : vm A := emit (WriteCr3 (from_higher_half (top_lvl_ s))) s.

(** [save] with the value [read_cr3] gives. *)
Definition save (cr3 : Z) (s : vm A) : vm A := set_top (to_higher_half cr3) s.

(** [destroy_level]; the level is the depth of the recursion. *)
Fixpoint destroy_level (level : nat) (pml start end_ : Z) (s : vm A) : outcome (vm A) :=
  match level with
  | O => Ok s
  | S level' =>
      if pml =? 0 then Ok s else
      '(s, _) ← repeat_n (Z.to_nat (end_ - start))
        (λ '(s, i),
           '(s, next) ← get_next_lvl_default map_page (entry_at pml i) false s;
           s ← (if next =? 0 then Ok s else destroy_level level' next 0 512 s);
           Ok (s, u64 (i + 1)))
        (s, start);
      a ← fr_free (from_higher_half (top_lvl_ s)) (vm_frames s);
      Ok (set_frames a s)
  end.

Definition destroy (s : vm A) : outcome (vm A) :=
  destroy_level (if is_paging_mode_max then 5 else 4) (top_lvl_ s) 0 256 s.
End paging.
