(* ===== verification/PagingWalk.v ===== *)
(** * Page tables as a tree

    The page tables of a [PageMap] described by a finite map from the paths of
    its tables to their frames; how loads and stores of entries, and the walk
    of [virtual_to_entry], act on it. *)
From S2P Require Import Prelude Mem MemCopy MemSet Lock Bitmap Addr Frames Paging.

(** ** Entries in memory *)

Definition entry_addr `{Hhdm} (f i : Z) : Z := frame_base f + 8 * i.

Section walk.
Context {A : Type} `{hh : Hhdm, pmode : PagingMode, fo : FrameOps A}.
Context `{fl : !FrameLaws A}.

(** ** The tree of tables *)

(** Levels of tables, and the indices a virtual address selects in them. *)
Definition levels : nat := if is_paging_mode_max then 5 else 4.

Definition table_path (va : Z) : list Z :=
  (if is_paging_mode_max then [GET_PML_ENTRY va 48] else []) ++
  [GET_PML_ENTRY va 39; GET_PML_ENTRY va 30; GET_PML_ENTRY va 21].
Definition leaf_index (va : Z) : Z := GET_PML_ENTRY va 12.

Abbreviation tables := (gmap (list Z) Z).

(** The value of an entry that points to the table in frame [g] and restricts
    nothing: what a page allows is up to its leaf entry. *)
Definition unrestricted (v : Z) : Prop :=
  entry_has_flags v PAGE_FLAG_WRITABLE = true ∧
  entry_has_flags v PAGE_FLAG_USER_ACCESSIBLE = true ∧
  entry_has_flags v PAGE_FLAG_NO_EXECUTE = false.
Definition points_to (v g : Z) : Prop :=
  is_valid v = true ∧ is_large v = false ∧ entry_get_address v = g * PAGE_SIZE ∧ unrestricted v.

Record tree_ok (s : vm A) (T : tables) : Prop := TreeOk {
  tr_frames : fr_ok (vm_frames s);
  tr_root : ∃ f, T !! [] = Some f ∧ top_lvl_ s = frame_base f;
  tr_frame : ∀ p f, T !! p = Some f →
    (length p < levels)%nat ∧ fr_frame (vm_frames s) f ∧ ¬ fr_avail (vm_frames s) f;
  tr_inj : ∀ p q f, T !! p = Some f → T !! q = Some f → p = q;
  tr_entry : ∀ p f i, T !! p = Some f → (S (length p) < levels)%nat → 0 ≤ i < 512 →
    ∃ v, ld64 (vm_mem s) (entry_addr f i) = Ok v ∧
      match T !! (p ++ [i]) with Some g => points_to v g | None => v = 0 end;
  tr_closed : ∀ p i, is_Some (T !! (p ++ [i])) → is_Some (T !! p) ∧ 0 ≤ i < 512;
}.

(** The entry for the last step of a walk; absent tables count as zero. *)
Definition leaf_entry (s : vm A) (T : tables) (p : list Z) (i : Z) : Z :=
  match T !! p with
  | Some f => match ld64 (vm_mem s) (entry_addr f i) with Ok v => v | _ => 0 end
  | None => 0
  end.

(** Frames and tables taken between two states come from the available frames,
    and the frames in use that hold no table keep their contents. *)
Record frames_drawn (s : vm A) (T : tables) (s' : vm A) (T' : tables) : Prop := FramesDrawn {
  fd_frame : ∀ g, fr_frame (vm_frames s) g → fr_frame (vm_frames s') g;
  fd_avail : ∀ g, fr_avail (vm_frames s') g → fr_avail (vm_frames s) g;
  fd_spare : fr_spare (vm_frames s) → fr_spare (vm_frames s');
  fd_tables : ∀ p g, T' !! p = Some g → T !! p = Some g ∨ fr_avail (vm_frames s) g;
  fd_steady : fr_steady (vm_frames s) (vm_frames s');
  fd_kept : ∀ f i, fr_frame (vm_frames s) f → ¬ fr_avail (vm_frames s) f →
    (∀ p, T !! p ≠ Some f) → 0 ≤ i < 512 →
    ld64 (vm_mem s') (entry_addr f i) = ld64 (vm_mem s) (entry_addr f i);
}.

Lemma frames_drawn_refl s T : frames_drawn s T s T.
Proof. split; auto; done. Qed.

Lemma frames_drawn_trans s T s1 T1 s2 T2 :
  frames_drawn s T s1 T1 → frames_drawn s1 T1 s2 T2 → frames_drawn s T s2 T2.
Proof.
  intros [? ? ? Htab ? Hk] [? Hav ? Htab' ? Hk']. split; auto; [|by etrans|].
  - intros p g [Hp|Hp]%Htab'; [by apply Htab|auto].
  - intros f i Hf Hn HT Hi. transitivity (ld64 (vm_mem s1) (entry_addr f i)); [|by apply Hk].
    apply Hk'; [auto..| |done]. intros p [Hp|Hp]%Htab; [by apply (HT p)|done].
Qed.

(** What the walk leaves of the state: tables may be added, no leaf entry
    changes. *)
Record grown (s : vm A) (T : tables) (s' : vm A) (T' : tables) : Prop := Grown {
  gr_tree : tree_ok s' T';
  gr_sub : T ⊆ T';
  gr_leaf : ∀ p i, S (length p) = levels → 0 ≤ i < 512 →
    leaf_entry s' T' p i = leaf_entry s T p i;
  gr_top : top_lvl_ s' = top_lvl_ s;
  gr_lock : lock_ s' = lock_ s;
  gr_pml3 : pml3_translation s' = pml3_translation s;
  gr_hw : vm_hw s' = vm_hw s;
  gr_drawn : frames_drawn s T s' T';
}.

Lemma grown_refl s T : tree_ok s T → grown s T s T.
Proof. intros. split; try done. apply frames_drawn_refl. Qed.

Lemma grown_trans s T s1 T1 s2 T2 :
  grown s T s1 T1 → grown s1 T1 s2 T2 → grown s T s2 T2.
Proof.
  intros [] []. split; try congruence; try done; [by etrans| |by eapply frames_drawn_trans].
  intros p i ??. rewrite gr_leaf1 by done. by apply gr_leaf0.
Qed.

(** ** Entries of the tree *)

Lemma frame_facts s f :
  fr_ok (vm_frames s) → fr_frame (vm_frames s) f →
  1 ≤ f ∧ 0 < frame_base f ∧ frame_base f + PAGE_SIZE < 2 ^ 64 ∧ frame_base f mod PAGE_SIZE = 0 ∧
  f * PAGE_SIZE + PAGE_SIZE ≤ hhdm_offset ∧ f * PAGE_SIZE < 2 ^ 52.
Proof.
  intros Hok Hf. destruct (fr_range _ _ Hok Hf) as (? & ? & ? & ?).
  destruct (fr_hhdm _ Hok) as [? ?]. unfold frame_base, PAGE_SIZE in *. dlia.
Qed.

Lemma entry_at_frame s f i :
  fr_ok (vm_frames s) → fr_frame (vm_frames s) f → 0 ≤ i < 512 →
  entry_at (frame_base f) i = entry_addr f i.
Proof.
  intros Hok Hf Hi. destruct (frame_facts s f Hok Hf) as (? & ? & ? & ? & ? & ?).
  unfold entry_at, entry_addr, PAGE_SIZE in *. rewrite u64_small; lia.
Qed.

Lemma frame_pointer s f :
  fr_ok (vm_frames s) → fr_frame (vm_frames s) f →
  to_higher_half (f * PAGE_SIZE) = frame_base f ∧ frame_base f ≠ 0.
Proof.
  intros Hok Hf. destruct (frame_facts s f Hok Hf) as (? & ? & ? & ? & ? & ?).
  unfold frame_base, PAGE_SIZE in *. rewrite to_higher_half_low by lia. lia.
Qed.

(** Entries at different places do not overlap. *)
Lemma entry_apart f g i j :
  0 ≤ i < 512 → 0 ≤ j < 512 → f ≠ g ∨ i ≠ j →
  entry_addr g j + 8 ≤ entry_addr f i ∨ entry_addr f i + 8 ≤ entry_addr g j.
Proof. unfold entry_addr, frame_base, PAGE_SIZE. lia. Qed.

Lemma entry_in_frame f i x :
  0 ≤ i < 512 → entry_addr f i ≤ x < entry_addr f i + 8 → in_frame f x.
Proof. unfold entry_addr, in_frame, PAGE_SIZE. lia. Qed.

Lemma entry_mapped s f i :
  fr_ok (vm_frames s) → fr_frame (vm_frames s) f → 0 ≤ i < 512 →
  mapped (vm_mem s) (entry_addr f i) 8.
Proof.
  intros Hok Hf Hi x Hx. apply (fr_mapped _ _ Hok Hf).
  by apply (entry_in_frame f i).
Qed.

Lemma load_entry_range s f i v :
  fr_ok (vm_frames s) → fr_frame (vm_frames s) f → 0 ≤ i < 512 →
  ld64 (vm_mem s) (entry_addr f i) = Ok v → 0 ≤ v < 2 ^ 64.
Proof.
  intros Hok Hf Hi. apply ld64_range; [by apply fr_bytes|by apply entry_mapped].
Qed.

(** What a store of an entry does to the rest of the state. *)
Record entry_stored (s : vm A) (f i v : Z) (s' : vm A) : Prop := EntryStored {
  es_ok : fr_ok (vm_frames s');
  es_frame : ∀ g, fr_frame (vm_frames s) g → fr_frame (vm_frames s') g;
  es_avail : ∀ g, fr_avail (vm_frames s') g ↔ fr_avail (vm_frames s) g;
  es_spare : fr_spare (vm_frames s') ↔ fr_spare (vm_frames s);
  es_mem : stored (vm_mem s) (vm_mem s') (entry_addr f i) v;
  es_top : top_lvl_ s' = top_lvl_ s;
  es_lock : lock_ s' = lock_ s;
  es_pml3 : pml3_translation s' = pml3_translation s;
  es_hw : vm_hw s' = vm_hw s;
  es_steady : fr_steady (vm_frames s) (vm_frames s');
}.

Lemma store_entry_returns s f i v (Q : vm A → Prop) :
  fr_ok (vm_frames s) → fr_frame (vm_frames s) f → 0 ≤ i < 512 →
  (∀ s', entry_stored s f i v s' → Q s') →
  returns (store_entry (entry_addr f i) v s) Q.
Proof.
  intros Hok Hf Hi HQ. unfold store_entry. bind_step.
  apply st64_returns; [by apply entry_mapped|]. intros m Hm.
  assert (stored (vm_mem s) m (entry_addr f i) v) as Hst by done. clear Hm.
  pose proof (fr_bytes _ Hok) as Hb.
  destruct (fr_write (vm_frames s) m) as (Hok' & Hfr & Hprv & Hav); [done| | | |].
  - by eapply stored_bytes_ok.
  - intros x Hx. rewrite (Hst x). case_decide; [by eexists|done].
  - intros x Hx. rewrite (Hst x). case_decide as Hd; [|done]. exfalso.
    by apply (fr_apart _ _ x Hok Hf (entry_in_frame f i x Hi Hd)).
  - cbn [returns]. apply HQ. split; try done.
    + simpl. by rewrite fr_spare_write.
    + unfold vm_mem. simpl. by rewrite fr_mem_set.
    + split; simpl; [apply fr_extent_write|exact Hprv|]. intros x _ Hx.
      rewrite fr_mem_set, (Hst x), decide_False; [done|]. intros Hin.
      apply (Hx f); [by apply (fr_range _ f Hok)|by apply (entry_in_frame f i)].
Qed.

Lemma entry_stored_self s f i v s' :
  fr_ok (vm_frames s) → 0 ≤ v < 2 ^ 64 → entry_stored s f i v s' →
  ld64 (vm_mem s') (entry_addr f i) = Ok v.
Proof.
  intros Hok Hv []. apply (stored_ld64 (vm_mem s)); [by apply fr_bytes|done|done].
Qed.

Lemma entry_stored_other s f i v s' g j :
  0 ≤ i < 512 → 0 ≤ j < 512 → f ≠ g ∨ i ≠ j → entry_stored s f i v s' →
  ld64 (vm_mem s') (entry_addr g j) = ld64 (vm_mem s) (entry_addr g j).
Proof.
  intros Hi Hj Hne []. eapply stored_ld64_ne; [done|]. by apply entry_apart.
Qed.

(** A store keeps the tree when the entry says what the tree says. *)
Lemma tree_ok_stored s T p f i v s' :
  tree_ok s T → T !! p = Some f → 0 ≤ i < 512 → 0 ≤ v < 2 ^ 64 →
  entry_stored s f i v s' →
  ((S (length p) < levels)%nat →
     match T !! (p ++ [i]) with Some g => points_to v g | None => v = 0 end) →
  tree_ok s' T.
Proof.
  intros [] Hp Hi Hv Hst Hval. pose proof Hst as []. split; try done.
  - by rewrite es_top0.
  - intros q g Hq. destruct (tr_frame0 q g Hq) as (? & ? & ?).
    split_and!; [done|by apply es_frame0|by rewrite es_avail0].
  - intros q g j Hq Hlen Hj. destruct (decide (q = p ∧ j = i)) as [[-> ->]|Hne].
    + assert (g = f) as -> by congruence. exists v. split; [|by apply Hval].
      by apply (entry_stored_self s).
    + destruct (tr_entry0 q g j Hq Hlen Hj) as (w & Hw & Hm). exists w.
      split; [|done]. rewrite <-Hw. apply (entry_stored_other s f i v); [done|done| |done].
      destruct (decide (f = g)) as [->|]; [|by left]. right. intros ->. apply Hne.
      split; [by eapply tr_inj0|done].
Qed.

(** A tree whose frames keep their contents is still one. *)
Lemma tree_ok_kept s T s' :
  tree_ok s T → fr_ok (vm_frames s') → top_lvl_ s' = top_lvl_ s →
  (∀ p f, T !! p = Some f → fr_frame (vm_frames s') f ∧ ¬ fr_avail (vm_frames s') f) →
  (∀ p f i, T !! p = Some f → 0 ≤ i < 512 →
     ld64 (vm_mem s') (entry_addr f i) = ld64 (vm_mem s) (entry_addr f i)) →
  tree_ok s' T ∧ ∀ p i, 0 ≤ i < 512 → leaf_entry s' T p i = leaf_entry s T p i.
Proof.
  intros [] Hok Htop Hfr Hsame. split.
  - split; try done.
    + by rewrite Htop.
    + intros p f Hp. by split; [apply (tr_frame0 p f)|apply (Hfr p f)].
    + intros p f i Hp Hl Hi. rewrite (Hsame p f i) by done. by apply tr_entry0.
  - intros p i Hi. unfold leaf_entry. destruct (T !! p) as [f|] eqn:Hp; [|done].
    by rewrite (Hsame p f i).
Qed.

(** ** One step down the tree *)

Lemma flags_new v : is_valid (entry_set_flags v NEW_PAGE_FLAGS) = true.
Proof.
  unfold is_valid, entry_has_flags, entry_set_flags, PAGE_FLAG_PRESENT.
  rewrite Z.shiftl_1_l, has_pow2, Z.lor_spec by lia. by rewrite orb_true_r.
Qed.

(** A bit of a frame's address with flags above or below the address. *)
Lemma frame_bit g x k :
  0 ≤ g * PAGE_SIZE < 2 ^ 52 → 0 ≤ k < 12 ∨ 52 ≤ k →
  Z.testbit (Z.lor (g * PAGE_SIZE) x) k = Z.testbit x k.
Proof.
  intros Hg Hk. rewrite Z.lor_spec. replace (Z.testbit (g * PAGE_SIZE) k) with false; [done|].
  symmetry. destruct Hk as [Hk|Hk].
  - unfold PAGE_SIZE. change 0x1000 with (2 ^ 12). apply Z.mul_pow2_bits_low. lia.
  - apply (proj1 (Z.bounded_iff_bits_nonneg 52 (g * PAGE_SIZE) ltac:(lia) ltac:(lia))); lia.
Qed.

(** A flag as a bit. *)
Lemma flag_bit v k : 0 ≤ k → entry_has_flags v (Z.shiftl 1 k) = Z.testbit v k.
Proof. intros. unfold entry_has_flags. by rewrite Z.shiftl_1_l, has_pow2. Qed.

Lemma entry_set_address_0 a : entry_set_address 0 a = a.
Proof. unfold entry_set_address. by rewrite Z.land_0_l, Z.lor_0_l. Qed.

Lemma lor_range n a b : 0 ≤ n → 0 ≤ a < 2 ^ n → 0 ≤ b < 2 ^ n → 0 ≤ Z.lor a b < 2 ^ n.
Proof.
  intros Hn Ha Hb. split; [apply Z.lor_nonneg; lia|].
  destruct (Z.eq_dec (Z.lor a b) 0) as [->|Hz]; [lia|].
  apply Z.log2_lt_pow2; [pose proof (proj2 (Z.lor_nonneg a b)); lia|].
  rewrite Z.log2_lor by lia.
  assert (∀ x, 0 ≤ x < 2 ^ n → x = 0 ∨ Z.log2 x < n) as Hl.
  { intros x Hx. destruct (Z.eq_dec x 0); [by left|right]. apply Z.log2_lt_pow2; lia. }
  pose proof (Z.log2_nonneg a). pose proof (Z.log2_nonneg b).
  destruct (Hl a Ha) as [->|?], (Hl b Hb) as [->|?]; try done;
    change (Z.log2 0) with 0 in *; lia.
Qed.

(** The address part of a frame's address with flags. *)
Lemma address_of_frame g flags :
  0 ≤ g * PAGE_SIZE < 2 ^ 52 → Z.land flags PAGE_ADDR_MASK = 0 →
  entry_get_address (Z.lor (g * PAGE_SIZE) flags) = g * PAGE_SIZE.
Proof.
  intros Hg Hfl. unfold entry_get_address. rewrite Z.land_lor_distr_l, Hfl, Z.lor_0_r.
  unfold PAGE_SIZE in *. change PAGE_ADDR_MASK with (Z.shiftl (Z.ones 40) 12).
  change 0x1000 with (2 ^ 12) in *.
  rewrite <-Z.shiftl_mul_pow2, <-Z.shiftl_land, Z.land_ones by lia.
  rewrite Z.mod_small by lia. done.
Qed.

(** The entry written for a new table. *)
Lemma new_entry_points g :
  0 ≤ g * PAGE_SIZE < 2 ^ 52 →
  points_to (entry_set_flags (entry_set_address 0 (g * PAGE_SIZE)) NEW_PAGE_FLAGS) g ∧
  0 ≤ entry_set_flags (entry_set_address 0 (g * PAGE_SIZE)) NEW_PAGE_FLAGS < 2 ^ 64.
Proof.
  intros Hg. rewrite entry_set_address_0. split.
  - unfold points_to, unrestricted, is_large, PAGE_FLAG_SIZE_EXTENSION, PAGE_FLAG_WRITABLE,
      PAGE_FLAG_USER_ACCESSIBLE, PAGE_FLAG_NO_EXECUTE.
    rewrite !flag_bit by lia. unfold entry_set_flags. rewrite !frame_bit by lia.
    split_and!; [apply flags_new|done| |done..]. apply address_of_frame; [done|reflexivity].
  - unfold entry_set_flags, PAGE_SIZE in *. change NEW_PAGE_FLAGS with 7.
    apply lor_range; lia.
Qed.

Lemma entry_stored_trans s f i v s1 w s2 :
  entry_stored s f i v s1 → entry_stored s1 f i w s2 → entry_stored s f i w s2.
Proof.
  intros [] []. split; try congruence; try done.
  - eauto.
  - intros g. by rewrite es_avail1.
  - by rewrite es_spare1.
  - intros x. rewrite (es_mem1 x), (es_mem0 x). by case_decide.
  - by etrans.
Qed.

(** The statements that fill in a zero entry. *)
Lemma fill_entry_returns {R} s f i a flags (k : vm A → outcome R) (Q : R → Prop) :
  fr_ok (vm_frames s) → fr_frame (vm_frames s) f → 0 ≤ i < 512 →
  0 ≤ a < 2 ^ 64 → 0 ≤ flags < 2 ^ 64 → ld64 (vm_mem s) (entry_addr f i) = Ok 0 →
  (∀ s', entry_stored s f i (Z.lor a flags) s' → returns (k s') Q) →
  returns (v ← load_entry (entry_addr f i) s;
           s ← store_entry (entry_addr f i) (entry_set_address v a) s;
           v ← load_entry (entry_addr f i) s;
           s ← store_entry (entry_addr f i) (entry_set_flags v flags) s;
           k s) Q.
Proof.
  intros Hok Hf Hi Ha Hfl H0 Hk. unfold load_entry. rewrite H0, bind_ok.
  rewrite entry_set_address_0. bind_step. apply store_entry_returns; [done..|].
  intros s1 Hs1. pose proof (entry_stored_self _ _ _ _ _ Hok Ha Hs1) as Hv.
  unfold load_entry. rewrite Hv, bind_ok. bind_step.
  apply store_entry_returns; [apply Hs1|by apply Hs1|done|].
  intros s2 Hs2. apply Hk. by eapply entry_stored_trans.
Qed.

(** ** Adding a table *)

(** An allocation: frame [g] is new and zero, the other frames in use keep their
    contents. *)
Record frame_taken (s : vm A) (g : Z) (s' : vm A) : Prop := FrameTaken {
  ft_ok : fr_ok (vm_frames s');
  ft_avail : ∀ h, fr_avail (vm_frames s') h ↔ fr_avail (vm_frames s) h ∧ h ≠ g;
  ft_new : fr_avail (vm_frames s) g;
  ft_frame : fr_frame (vm_frames s') g;
  ft_frames : ∀ h, fr_frame (vm_frames s) h → fr_frame (vm_frames s') h;
  ft_zero : ∀ i, 0 ≤ i < 512 → ld64 (vm_mem s') (entry_addr g i) = Ok 0;
  ft_same : ∀ h i, fr_frame (vm_frames s) h → h ≠ g → 0 ≤ i < 512 →
    ld64 (vm_mem s') (entry_addr h i) = ld64 (vm_mem s) (entry_addr h i);
  ft_top : top_lvl_ s' = top_lvl_ s;
  ft_lock : lock_ s' = lock_ s;
  ft_pml3 : pml3_translation s' = pml3_translation s;
  ft_hw : vm_hw s' = vm_hw s;
  ft_spare : fr_spare (vm_frames s) → fr_spare (vm_frames s');
  ft_steady : fr_steady (vm_frames s) (vm_frames s');
}.

Lemma allocate_frame_or_panics s (Q : vm A * Z → Prop) :
  fr_ok (vm_frames s) →
  (∀ s' g, frame_taken s g s' → Q (s', g * PAGE_SIZE)) →
  or_panics (allocate_frame s) Q.
Proof.
  intros Hok HQ. unfold allocate_frame.
  destruct (fr_alloc_spec _ Hok) as
    [->|(a & g & -> & Hok' & Hav & Hgf & Havs & Hfrs & Hspr & Hext & Hprv & Hmem)]; [by left|].
  right. apply (HQ (set_frames a s)). split; try done; unfold vm_mem; simpl.
  - intros i Hi. apply ld64_zero; [by apply fr_bytes|]. intros x Hx.
    pose proof (entry_in_frame g i x Hi Hx) as Hg.
    rewrite Hmem; [by rewrite decide_True by done|]. rewrite <-Hprv. by apply (fr_apart _ g).
  - intros h i Hh Hne Hi. apply ld64_same. intros x Hx.
    pose proof (entry_in_frame h i x Hi Hx) as Hin.
    rewrite Hmem by by apply (fr_apart _ h). rewrite decide_False; [done|].
    unfold in_frame, frame_base, PAGE_SIZE in *. lia.
  - split; [done|done|]. intros x Hx Hlow. rewrite Hmem by done.
    rewrite decide_False; [done|]. apply Hlow. by apply (fr_range a).
Qed.

Lemma tables_differ (p : list Z) i j : (p ++ [i]) ++ [j] ≠ p ++ [i].
Proof. intros He%(f_equal length). rewrite !length_app in He. simpl in He. lia. Qed.

(** With an entry stored and a new table behind it, the other entries of the tree
    are as they were, and the new table's are zero. *)
Lemma insert_entries s T p f i g v s1 s2 :
  tree_ok s T → T !! p = Some f → 0 ≤ i < 512 → frame_taken s g s1 → entry_stored s1 f i v s2 →
  (∀ q h, T !! q = Some h → h ≠ g) ∧
  (∀ q h j, T !! q = Some h → 0 ≤ j < 512 → (q, j) ≠ (p, i) →
    ld64 (vm_mem s2) (entry_addr h j) = ld64 (vm_mem s) (entry_addr h j)) ∧
  (∀ j, 0 ≤ j < 512 → ld64 (vm_mem s2) (entry_addr g j) = Ok 0).
Proof.
  intros [] Hp Hi Hft Hst. pose proof Hft as [].
  assert (∀ q h, T !! q = Some h → h ≠ g) as Hnew.
  { intros q h Hq ->. destruct (tr_frame0 q g Hq) as (_ & _ & Hn). done. }
  split_and!; [done| |].
  - intros q h j Hq Hj Hne. destruct (tr_frame0 q h Hq) as (_ & Hhf & _).
    transitivity (ld64 (vm_mem s1) (entry_addr h j)).
    2: { apply ft_same0; [done|by eapply Hnew|done]. }
    eapply (entry_stored_other s1 f i _ s2 h j Hi Hj); [|exact Hst].
    destruct (decide (f = h)) as [->|]; [|by left]. right. intros ->. apply Hne.
    f_equal. by eapply tr_inj0.
  - intros j Hj. transitivity (ld64 (vm_mem s1) (entry_addr g j)); [|by apply ft_zero0].
    eapply (entry_stored_other s1 f i _ s2 g j Hi Hj); [|exact Hst].
    left. by eapply Hnew.
Qed.

Lemma insert_drawn s T p f i g v s1 s2 :
  T !! p = Some f → 0 ≤ i < 512 → frame_taken s g s1 → entry_stored s1 f i v s2 →
  frames_drawn s T s2 (<[p ++ [i] := g]> T).
Proof.
  intros Hp Hi Hft Hst. pose proof Hft as []. pose proof Hst as [].
  split; [auto| | | |by etrans|].
  - intros h. rewrite es_avail0, ft_avail0. by intros [? _].
  - rewrite es_spare0. done.
  - intros q h. rewrite lookup_insert_Some. intros [[_ <-]|[_ Hq]]; [by right|by left].
  - intros h j Hh Hn HT Hj. rewrite (entry_stored_other s1 f i v s2 h j Hi Hj); [|left|exact Hst].
    + apply ft_same0; [done| |done]. by intros ->.
    + intros ->. by apply (HT p).
Qed.

(** The tree with a new table linked in. *)
Lemma grown_insert s T p f i g s1 s2 :
  tree_ok s T → T !! p = Some f → T !! (p ++ [i]) = None → 0 ≤ i < 512 →
  (S (length p) < levels)%nat → frame_taken s g s1 →
  entry_stored s1 f i (Z.lor (g * PAGE_SIZE) NEW_PAGE_FLAGS) s2 →
  grown s T s2 (<[p ++ [i] := g]> T).
Proof.
  intros Ht Hp Hg Hi Hlen Hft Hst. pose proof Ht as []. pose proof Hft as []. pose proof Hst as [].
  destruct (insert_entries _ _ _ _ _ _ _ _ _ Ht Hp Hi Hft Hst) as (Hnew & Hsame & Hzero).
  pose proof (frame_facts s1 g ft_ok0 ft_frame0) as (? & _ & _ & _ & _ & ?).
  destruct (new_entry_points g) as [Hpt Hptr]; [unfold PAGE_SIZE in *; lia|].
  rewrite entry_set_address_0 in Hpt, Hptr.
  split; [split| | |congruence..|].
  - done.
  - rewrite es_top0, ft_top0. destruct tr_root0 as (f0 & Hf0 & ->). exists f0.
    rewrite lookup_insert_ne; [done|]. by destruct p.
  - intros q h. rewrite lookup_insert_Some. intros [[<- <-]|[Hne Hq]].
    + rewrite length_app. simpl. split_and!; [lia|by apply es_frame0|].
      rewrite es_avail0, ft_avail0. naive_solver.
    + destruct (tr_frame0 q h Hq) as (? & ? & ?).
      split_and!; [done|by apply es_frame0, ft_frames0|].
      rewrite es_avail0, ft_avail0. naive_solver.
  - intros q q' h. rewrite !lookup_insert_Some.
    intros [[<- <-]|[Hne Hq]] [[<- ?]|[Hne' Hq']]; try done.
    + exfalso. by apply (Hnew _ _ Hq').
    + subst h. exfalso. by apply (Hnew _ _ Hq).
    + by eapply tr_inj0.
  - intros q h j. rewrite lookup_insert_Some. intros [[<- <-]|[Hne Hq]] Hl Hj.
    + exists 0. split; [by apply Hzero|].
      rewrite lookup_insert_ne by (intros He; by apply (tables_differ p i j)).
      destruct (T !! ((p ++ [i]) ++ [j])) eqn:E; [|done].
      destruct (tr_closed0 (p ++ [i]) j) as [Hs _]; [by eexists|].
      rewrite Hg in Hs. by destruct Hs.
    + destruct (decide ((q, j) = (p, i))) as [[= -> ->]|Hne'].
      * assert (h = f) as -> by congruence. rewrite lookup_insert_eq.
        eexists. split; [|exact Hpt]. by apply (entry_stored_self s1).
      * rewrite (Hsame q) by done. rewrite lookup_insert_ne; [by apply tr_entry0|].
        intros He%app_inj_tail. naive_solver.
  - intros q j. rewrite lookup_insert_is_Some'. intros [He|Hs].
    + apply app_inj_tail in He as [-> ->]. split; [|done].
      rewrite lookup_insert_is_Some'. right. by eexists.
    + destruct (tr_closed0 q j Hs). split; [|done]. rewrite lookup_insert_is_Some'. by right.
  - by apply insert_subseteq.
  - intros q j Hl Hj. unfold leaf_entry. destruct (decide (q = p ++ [i])) as [->|Hne].
    + rewrite lookup_insert_eq, Hzero, Hg by done. done.
    + rewrite lookup_insert_ne by done. destruct (T !! q) as [h|] eqn:Hq; [|done].
      rewrite (Hsame q); [done..|]. intros [= -> ->]. lia.
  - by eapply insert_drawn.
Qed.

(** The walk adds a table where an entry is missing. *)
Lemma next_absent mp s T p f i va old new (Q : vm A * Z → Prop) :
  tree_ok s T → T !! p = Some f → T !! (p ++ [i]) = None → 0 ≤ i < 512 →
  (S (length p) < levels)%nat →
  (∀ s' T' g, grown s T s' T' → T' !! (p ++ [i]) = Some g → Q (s', frame_base g)) →
  or_panics (get_next_lvl mp (entry_addr f i) true va old new s) Q.
Proof.
  intros Ht Hp Hg Hi Hlen HQ.
  destruct (tr_entry _ _ Ht p f i Hp Hlen Hi) as (v & Hv & Hm). rewrite Hg in Hm. subst v.
  destruct (tr_frame _ _ Ht _ _ Hp) as (_ & Hpf & Hpa). pose proof (tr_frames _ _ Ht) as Hok.
  unfold get_next_lvl. unfold load_entry. rewrite Hv, bind_ok.
  change (is_valid 0) with false. cbv iota.
  apply or_panics_bind, or_panics_bind, allocate_frame_or_panics; [done|].
  intros s1 g Hft. apply returns_or_panics.
  assert (f ≠ g) as Hfg by (intros ->; by apply Hpa, ft_new with s1).
  pose proof (frame_facts s1 g (ft_ok _ _ _ Hft) (ft_frame _ _ _ Hft)) as (? & _ & _ & _ & _ & ?).
  apply fill_entry_returns; [apply Hft|by apply Hft|done| |by compute| |].
  - unfold PAGE_SIZE in *. lia.
  - rewrite (ft_same _ _ _ Hft) by done. done.
  - intros s2 Hst. cbn [returns]. apply returns_or_panics.
    pose proof (grown_insert _ _ _ _ _ _ _ _ Ht Hp Hg Hi Hlen Hft Hst) as Hgr.
    destruct (frame_pointer s2 g) as [-> _].
    { apply Hst. } { apply Hst, Hft. }
    apply (HQ s2 _ g Hgr). by rewrite lookup_insert_eq.
Qed.

(** The walk goes through an entry that is there. *)
Lemma next_present mp s T p f g i allocate va old new (Q : vm A * Z → Prop) :
  tree_ok s T → T !! p = Some f → T !! (p ++ [i]) = Some g → 0 ≤ i < 512 →
  Q (s, frame_base g) →
  returns (get_next_lvl mp (entry_addr f i) allocate va old new s) Q.
Proof.
  intros Ht Hp Hg Hi HQ. destruct (tr_frame _ _ Ht _ _ Hg) as (Hlen & Hgf & _).
  rewrite length_app in Hlen. simpl in Hlen.
  destruct (tr_entry _ _ Ht p f i Hp ltac:(lia) Hi) as (v & Hv & Hm).
  rewrite Hg in Hm. destruct Hm as (Hva & Hlg & Had & _).
  unfold get_next_lvl, load_entry. rewrite Hv, bind_ok, Hva, Hlg. simpl.
  rewrite Had. destruct (frame_pointer s g (tr_frames _ _ Ht) Hgf) as [-> _]. done.
Qed.

Lemma next_or_grow mp s T p f i va old new (Q : vm A * Z → Prop) :
  tree_ok s T → T !! p = Some f → 0 ≤ i < 512 → (S (length p) < levels)%nat →
  (∀ s' T' g, grown s T s' T' → T' !! (p ++ [i]) = Some g → Q (s', frame_base g)) →
  or_panics (get_next_lvl mp (entry_addr f i) true va old new s) Q.
Proof.
  intros Ht Hp Hi Hlen HQ. destruct (T !! (p ++ [i])) as [g|] eqn:Hg.
  - apply returns_or_panics. eapply (next_present mp s T p f g); [done..|].
    by apply (HQ s T g); [apply grown_refl|].
  - by apply (next_absent mp s T p f).
Qed.

(** ** The walk of [virtual_to_entry] for 4 KiB pages *)

Lemma GET_PML_ENTRY_range va off : 0 ≤ GET_PML_ENTRY va off < 512.
Proof.
  unfold GET_PML_ENTRY. change 0x1ff with (Z.ones 9). rewrite Z.land_ones by lia.
  by apply Z.mod_pos_bound.
Qed.

(** The entry of a table of the tree, and the table as a pointer. *)
Lemma table_pointer s T p f i :
  tree_ok s T → T !! p = Some f → 0 ≤ i < 512 →
  (frame_base f =? 0) = false ∧ entry_at (frame_base f) i = entry_addr f i.
Proof.
  intros Ht Hp Hi. destruct (tr_frame _ _ Ht _ _ Hp) as (_ & Hf & _).
  pose proof (tr_frames _ _ Ht) as Hok. split.
  - apply Z.eqb_neq. by apply (frame_pointer s f).
  - by apply (entry_at_frame s).
Qed.

(** One level of the walk: the tables grow, and the pointer is that of the next
    table. *)
Ltac walk_step Ht Hp :=
  rewrite ?bind_ok; cbv iota; apply or_panics_bind; eapply next_or_grow;
    [exact Ht|exact Hp|apply GET_PML_ENTRY_range|simpl; lia|];
  let s' := fresh "s" in let T' := fresh "T" in let g := fresh "g" in
  let Hgr := fresh "Hgr" in let Hg := fresh "Hg" in
  intros s' T' g Hgr Hg; simpl app in Hg;
  rewrite (proj1 (table_pointer _ _ _ _ 0 (gr_tree _ _ _ _ Hgr) Hg ltac:(lia)));
  rewrite ?(proj2 (table_pointer _ _ _ _ _ (gr_tree _ _ _ _ Hgr) Hg (GET_PML_ENTRY_range _ _))).

(** The tables above the last hold no large entries. *)
Lemma load_not_large s T p f i (Q : bool → Prop) :
  tree_ok s T → T !! p = Some f → (S (length p) < levels)%nat → 0 ≤ i < 512 → Q false →
  returns (v ← load_entry (entry_addr f i) s; Ok (is_large v)) Q.
Proof.
  intros Ht Hp Hlen Hi HQ. destruct (tr_entry _ _ Ht p f i Hp Hlen Hi) as (v & Hv & Hm).
  unfold load_entry. rewrite Hv, bind_ok. cbn [returns].
  destruct (T !! (p ++ [i])); [by destruct Hm as (_ & -> & _)|by subst].
Qed.

(** The test for a large page finds none. *)
Lemma check_not_large (check : bool) s T p f i (Q : bool → Prop) :
  tree_ok s T → T !! p = Some f → (S (length p) < levels)%nat → 0 ≤ i < 512 → Q false →
  returns (if check then v ← load_entry (entry_addr f i) s; Ok (is_large v) else Ok false) Q.
Proof. destruct check; [apply load_not_large|done]. Qed.

Ltac check_step Ht Hp :=
  apply or_panics_bind, returns_or_panics; eapply check_not_large;
    [exact Ht|exact Hp|simpl; lia|apply GET_PML_ENTRY_range|].

Lemma walk_allocate check mp s T va (Q : vm A * Z → Prop) :
  tree_ok s T →
  (∀ s' T' f, grown s T s' T' → T' !! table_path va = Some f →
     Q (s', entry_addr f (leaf_index va))) →
  or_panics (virtual_to_entry mp va true PAGE_SIZE check s) Q.
Proof.
  intros Ht HQ. destruct (tr_root _ _ Ht) as (f & Hf & Htop).
  unfold virtual_to_entry, get_next_lvl_default. rewrite Htop.
  unfold levels, table_path in *.
  rewrite (proj1 (table_pointer _ _ _ _ 0 Ht Hf ltac:(lia))).
  rewrite !(proj2 (table_pointer _ _ _ _ _ Ht Hf (GET_PML_ENTRY_range _ _))).
  change (PAGE_SIZE =? PAGE_SIZE_1GiB) with false.
  change (PAGE_SIZE =? PAGE_SIZE_2MiB) with false.
  assert (levels = if is_paging_mode_max then 5%nat else 4%nat) as Hlv by done.
  destruct is_paging_mode_max; rewrite ?bind_ok.
  - walk_step Ht Hf. walk_step (gr_tree _ _ _ _ Hgr) Hg.
    check_step (gr_tree _ _ _ _ Hgr0) Hg0. walk_step (gr_tree _ _ _ _ Hgr0) Hg0.
    check_step (gr_tree _ _ _ _ Hgr1) (lookup_weaken _ _ _ _ Hg0 (gr_sub _ _ _ _ Hgr1)).
    walk_step (gr_tree _ _ _ _ Hgr1) Hg1.
    right. cbn [returns]. apply (HQ s3 T3 g2); [|exact Hg2].
    exact (grown_trans _ _ _ _ _ _ (grown_trans _ _ _ _ _ _ (grown_trans _ _ _ _ _ _ Hgr Hgr0) Hgr1) Hgr2).
  - rewrite (proj1 (table_pointer _ _ _ _ 0 Ht Hf ltac:(lia))).
    rewrite !(proj2 (table_pointer _ _ _ _ _ Ht Hf (GET_PML_ENTRY_range _ _))).
    walk_step Ht Hf. check_step (gr_tree _ _ _ _ Hgr) Hg. walk_step (gr_tree _ _ _ _ Hgr) Hg.
    check_step (gr_tree _ _ _ _ Hgr0) (lookup_weaken _ _ _ _ Hg (gr_sub _ _ _ _ Hgr0)).
    walk_step (gr_tree _ _ _ _ Hgr0) Hg0.
    right. cbn [returns]. apply (HQ s2 T2 g1); [|exact Hg1].
    exact (grown_trans _ _ _ _ _ _ (grown_trans _ _ _ _ _ _ Hgr Hgr0) Hgr1).
Qed.

(** The walk that allocates nothing finds the entry of a table that is there. *)
Ltac find_step Ht Hp Hc :=
  rewrite ?bind_ok; cbv iota; bind_step; eapply next_present;
    [exact Ht|exact Hp|simpl app; exact Hc|apply GET_PML_ENTRY_range|];
  rewrite (proj1 (table_pointer _ _ _ _ 0 Ht Hc ltac:(lia)));
  rewrite ?(proj2 (table_pointer _ _ _ _ _ Ht Hc (GET_PML_ENTRY_range _ _))).

Ltac large_step Ht Hp :=
  bind_step; eapply load_not_large;
    [exact Ht|exact Hp|simpl; lia|apply GET_PML_ENTRY_range|].

Lemma walk_find mp s T va f (Q : vm A * Z → Prop) :
  tree_ok s T → T !! table_path va = Some f →
  Q (s, entry_addr f (leaf_index va)) →
  returns (virtual_to_entry mp va false PAGE_SIZE true s) Q.
Proof.
  intros Ht Hf HQ. destruct (tr_root _ _ Ht) as (r & Hr & Htop).
  unfold virtual_to_entry, get_next_lvl_default. rewrite Htop.
  rewrite (proj1 (table_pointer _ _ _ _ 0 Ht Hr ltac:(lia))).
  rewrite !(proj2 (table_pointer _ _ _ _ _ Ht Hr (GET_PML_ENTRY_range _ _))).
  change (PAGE_SIZE =? PAGE_SIZE_1GiB) with false.
  change (PAGE_SIZE =? PAGE_SIZE_2MiB) with false.
  assert (levels = if is_paging_mode_max then 5%nat else 4%nat) as Hlv by done.
  unfold table_path in *.
  assert (∀ p i, is_Some (T !! (p ++ [i])) → is_Some (T !! p)) as Hup.
  { intros p i Hs. by apply (tr_closed _ _ Ht p i). }
  destruct is_paging_mode_max; simpl app in Hf.
  - destruct (Hup [GET_PML_ENTRY va 48; GET_PML_ENTRY va 39; GET_PML_ENTRY va 30]
      (GET_PML_ENTRY va 21)) as [h1 H1]; [by eexists|].
    destruct (Hup [GET_PML_ENTRY va 48; GET_PML_ENTRY va 39] (GET_PML_ENTRY va 30))
      as [h2 H2]; [by eexists|].
    destruct (Hup [GET_PML_ENTRY va 48] (GET_PML_ENTRY va 39)) as [h3 H3]; [by eexists|].
    find_step Ht Hr H3. find_step Ht H3 H2. large_step Ht H2.
    find_step Ht H2 H1. large_step Ht H2. find_step Ht H1 Hf. exact HQ.
  - rewrite ?bind_ok. rewrite (proj1 (table_pointer _ _ _ _ 0 Ht Hr ltac:(lia))).
    rewrite !(proj2 (table_pointer _ _ _ _ _ Ht Hr (GET_PML_ENTRY_range _ _))).
    destruct (Hup [GET_PML_ENTRY va 39; GET_PML_ENTRY va 30] (GET_PML_ENTRY va 21))
      as [h2 H2]; [by eexists|].
    destruct (Hup [GET_PML_ENTRY va 39] (GET_PML_ENTRY va 30)) as [h3 H3]; [by eexists|].
    find_step Ht Hr H3. large_step Ht H3.
    find_step Ht H3 H2. large_step Ht H3. find_step Ht H2 Hf. exact HQ.
Qed.
End walk.
