(* ===== verification/PagingMap.v ===== *)
(** * What mapping, looking up and unmapping a page do

    The operations of [PageMap] on 4 KiB pages as operations on the map from
    pages to leaf entries that a tree of tables describes. *)
From S2P Require Import Prelude Mem MemCopy MemSet Lock Bitmap Addr Physical Frames Paging.
From S2P Require Import PagingWalk.

(** ** Flags *)

(** The flags ask for 4 KiB pages. *)
Definition small_flags (flags : Z) : Prop :=
  has flags MAP_PAGE_1GB = false ∧ has flags MAP_PAGE_2MB = false.

Lemma small_page_size flags : small_flags flags → flag_to_page_size flags = PAGE_SIZE.
Proof. intros [H1 H2]. unfold flag_to_page_size. by rewrite H1, H2. Qed.

(** A set of bits that may occur in the flags of a 4 KiB entry: none of the
    address. *)
Definition flag_bits (x : Z) : Prop := 0 ≤ x < 2 ^ 64 ∧ Z.land x PAGE_ADDR_MASK = 0.

Lemma flag_bits_lor x y : flag_bits x → flag_bits y → flag_bits (Z.lor x y).
Proof.
  intros [??] [? Hy]. split; [by apply lor_range|].
  by rewrite Z.land_lor_distr_l, Hy, Z.lor_0_r.
Qed.

Lemma flag_bits_or_if c b x : flag_bits b → flag_bits x → flag_bits (or_if c b x).
Proof. intros. destruct c; [by apply flag_bits_lor|done]. Qed.

Lemma parse_flags_bits flags : small_flags flags → flag_bits (parse_flags flags).
Proof.
  intros Hs. unfold parse_flags. rewrite (small_page_size flags Hs).
  apply flag_bits_lor.
  - unfold parse_cache. change (PAGE_SIZE <? PAGE_SIZE) with false. cbv iota.
    repeat case_match; done.
  - unfold virt_parse_flags. by repeat (apply flag_bits_or_if; [done|]).
Qed.

(** The present bit is [MAP_READ]. *)
Lemma or_if_bit c k x n : 0 ≤ k → 0 ≤ n →
  Z.testbit (or_if c (Z.shiftl 1 k) x) n = (c && (k =? n)) || Z.testbit x n.
Proof.
  intros. destruct c; simpl; [|done].
  rewrite Z.shiftl_1_l, Z.lor_spec, Z.pow2_bits_eqb by lia. by rewrite orb_comm.
Qed.

Lemma parse_flags_present flags :
  small_flags flags → Z.testbit (parse_flags flags) 0 = has flags MAP_READ.
Proof.
  intros Hs. unfold parse_flags. rewrite (small_page_size flags Hs), Z.lor_spec.
  replace (Z.testbit (parse_cache flags PAGE_SIZE) 0) with false.
  2: { unfold parse_cache. change (PAGE_SIZE <? PAGE_SIZE) with false. cbv iota.
       by repeat case_match. }
  unfold virt_parse_flags, PAGE_FLAG_GLOBAL, PAGE_FLAG_NO_EXECUTE, PAGE_FLAG_USER_ACCESSIBLE,
    PAGE_FLAG_WRITABLE, PAGE_FLAG_PRESENT, PAGE_FLAG_SIZE_EXTENSION.
  rewrite !or_if_bit by lia. simpl. rewrite !andb_false_r, !andb_true_r, orb_false_r. done.
Qed.

(** An entry that is readable is valid. *)
Lemma is_valid_entry a flags :
  small_flags flags → has flags MAP_READ = true → is_valid (Z.lor a (parse_flags flags)) = true.
Proof.
  intros Hs Hr. unfold is_valid, entry_has_flags, PAGE_FLAG_PRESENT.
  rewrite Z.shiftl_1_l, has_pow2, Z.lor_spec, parse_flags_present, Hr by (lia || done).
  apply orb_true_r.
Qed.

Section map.
Context {A : Type} `{hh : Hhdm, pmode : PagingMode, fo : FrameOps A}.
Context `{fl : !FrameLaws A}.

(** ** The lock around an operation *)

Lemma tree_ok_lock l (s : vm A) T : tree_ok s T → tree_ok (set_vm_lock l s) T.
Proof. intros []. by split. Qed.

Lemma with_lock_or_panics {R} (body : vm A → outcome (vm A * R)) s (Q : vm A * R → Prop) :
  lock_free (lock_ s) →
  (∀ l, lock_held l → or_panics (body (set_vm_lock l s)) (λ '(s', r),
     lock_ s' = l ∧ ∀ l', lock_free l' → Q (set_vm_lock l' s', r))) →
  or_panics (with_lock body s) Q.
Proof.
  intros Hl Hbody. destruct (mutex_lock_free _ Hl) as (l & Hlock & Hheld).
  unfold with_lock. rewrite Hlock, bind_ok. apply or_panics_bind.
  eapply or_panics_mono; [by apply Hbody|]. intros [s' r] [<- HQ].
  right. apply HQ. by apply mutex_unlock_held.
Qed.

Lemma with_lock_returns {R} (body : vm A → outcome (vm A * R)) s (Q : vm A * R → Prop) :
  lock_free (lock_ s) →
  (∀ l, lock_held l → returns (body (set_vm_lock l s)) (λ '(s', r),
     lock_ s' = l ∧ ∀ l', lock_free l' → Q (set_vm_lock l' s', r))) →
  returns (with_lock body s) Q.
Proof.
  intros Hl Hbody. destruct (mutex_lock_free _ Hl) as (l & Hlock & Hheld).
  unfold with_lock. rewrite Hlock, bind_ok. bind_step.
  eapply returns_mono; [by apply Hbody|]. intros [s' r] [<- HQ].
  apply HQ. by apply mutex_unlock_held.
Qed.

(** ** Leaf entries *)

(** The entry of the page [va] is [v], all other pages keep theirs. *)
Record leaf_set (s : vm A) (T : gmap (list Z) Z) (va v : Z) (s' : vm A) (T' : gmap (list Z) Z) :
    Prop := LeafSet {
  ls_tree : tree_ok s' T';
  ls_sub : T ⊆ T';
  ls_table : is_Some (T' !! table_path va);
  ls_leaf : ∀ p i, S (length p) = levels → 0 ≤ i < 512 →
    leaf_entry s' T' p i =
    if decide (p = table_path va ∧ i = leaf_index va) then v else leaf_entry s T p i;
  ls_top : top_lvl_ s' = top_lvl_ s;
  ls_pml3 : pml3_translation s' = pml3_translation s;
  ls_drawn : frames_drawn s T s' T';
}.

Lemma table_path_length va : S (length (table_path va)) = levels.
Proof. unfold table_path, levels. by destruct is_paging_mode_max. Qed.

Lemma leaf_index_range va : 0 ≤ leaf_index va < 512.
Proof. apply GET_PML_ENTRY_range. Qed.

(** A store to a leaf entry. *)
Lemma leaf_stored s T va f v s' :
  tree_ok s T → T !! table_path va = Some f → 0 ≤ v < 2 ^ 64 →
  entry_stored s f (leaf_index va) v s' → leaf_set s T va v s' T.
Proof.
  intros Ht Hf Hv Hst. pose proof (leaf_index_range va) as Hi. split; try done.
  - eapply tree_ok_stored; [done|done|done|done|done|].
    intros Hl. rewrite table_path_length in Hl. lia.
  - intros p i Hl Hir. unfold leaf_entry. case_decide as Hd.
    + destruct Hd as [-> ->]. rewrite Hf.
      rewrite (entry_stored_self s f (leaf_index va) v s'); [done|apply Ht|done|done].
    + destruct (T !! p) as [h|] eqn:Hp; [|done].
      rewrite (entry_stored_other s f (leaf_index va) v s' h i); [done|done|done| |done].
      destruct (decide (f = h)) as [->|]; [|by left]. right. intros <-. apply Hd.
      split; [by apply (tr_inj _ _ Ht p _ h)|done].
  - apply Hst.
  - apply Hst.
  - split; [apply Hst| | |auto|apply Hst|].
    + intros g. by rewrite (es_avail _ _ _ _ _ Hst).
    + by rewrite (es_spare _ _ _ _ _ Hst).
    + intros h i _ _ HT Hir. apply (entry_stored_other s f (leaf_index va) v s' h i); [done|done| |done].
      left. intros ->. by apply (HT (table_path va)).
Qed.

Lemma leaf_set_grown s T s1 T1 va v s' T' :
  grown s T s1 T1 → leaf_set s1 T1 va v s' T' → leaf_set s T va v s' T'.
Proof.
  intros [] []. split; try congruence; try done; [by etrans| |by eapply frames_drawn_trans].
  intros p i ??. rewrite ls_leaf0 by done. case_decide; [done|]. by apply gr_leaf.
Qed.

Lemma leaf_set_lock s T va v s' T' l l' :
  leaf_set (set_vm_lock l s) T va v s' T' → leaf_set s T va v (set_vm_lock l' s') T'.
Proof. intros [? ? ? ? ? ? []]. split; try done. by apply tree_ok_lock. Qed.

(** ** [map_page] *)

(** The statements that replace a leaf entry. *)
Lemma replace_leaf_returns {R} s T va f a flags (k : vm A → outcome R) (Q : R → Prop) :
  let e := entry_addr f (leaf_index va) in
  tree_ok s T → T !! table_path va = Some f → 0 ≤ a < 2 ^ 64 → 0 ≤ flags < 2 ^ 64 →
  (∀ s', leaf_set s T va (Z.lor a flags) s' T → lock_ s' = lock_ s → vm_hw s' = vm_hw s →
     returns (k s') Q) →
  returns (s ← store_entry e 0 s;
           v ← load_entry e s; s ← store_entry e (entry_set_address v a) s;
           v ← load_entry e s; s ← store_entry e (entry_set_flags v flags) s;
           k s) Q.
Proof.
  intros e Ht Hf Ha Hfl HQ. destruct (tr_frame _ _ Ht _ _ Hf) as (_ & Hff & _).
  pose proof (tr_frames _ _ Ht) as Hok. pose proof (leaf_index_range va) as Hi.
  bind_step. apply store_entry_returns; [done..|]. intros s1 Hs1.
  apply fill_entry_returns; [apply Hs1|by apply Hs1|done|done|done| |].
  - by apply (entry_stored_self s).
  - intros s2 Hs2. pose proof (entry_stored_trans _ _ _ _ _ _ _ Hs1 Hs2) as Hs.
    apply HQ; [|apply Hs|apply Hs]. eapply leaf_stored; [done|done| |done]. by apply (lor_range 64).
Qed.

Lemma entry_addr_pos s T va f :
  tree_ok s T → T !! table_path va = Some f → (entry_addr f (leaf_index va) =? 0) = false.
Proof.
  intros Ht Hf. destruct (tr_frame _ _ Ht _ _ Hf) as (_ & Hff & _).
  destruct (frame_facts s f (tr_frames _ _ Ht) Hff) as (? & ? & _).
  pose proof (leaf_index_range va). apply Z.eqb_neq. unfold entry_addr. lia.
Qed.

Lemma map_one_or_panics mp s T va pa flags (Q : vm A * Z → Prop) :
  tree_ok s T → 0 ≤ pa < 2 ^ 64 → 0 ≤ flags < 2 ^ 64 →
  (∀ s' T', leaf_set s T va (Z.lor pa flags) s' T' → lock_ s' = lock_ s →
     vm_hw s' = vm_hw s → Q (s', SYSTEM_OK)) →
  or_panics (map_one mp va pa flags PAGE_SIZE s) Q.
Proof.
  intros Ht Hpa Hfl HQ. unfold map_one. apply or_panics_bind.
  apply (walk_allocate false mp s T); [done|]. intros s1 T1 f Hgr Hf.
  rewrite (entry_addr_pos s1 T1) by (apply Hgr || done).
  right. apply (replace_leaf_returns s1 T1); [apply Hgr|done..|].
  intros s2 Hset Hl Hh. cbn [returns]. apply (HQ s2 T1).
  - by eapply leaf_set_grown.
  - by rewrite Hl, (gr_lock _ _ _ _ Hgr).
  - by rewrite Hh, (gr_hw _ _ _ _ Hgr).
Qed.

Lemma map_page_or_panics s T va pa flags (Q : vm A * Z → Prop) :
  tree_ok s T → lock_free (lock_ s) → small_flags flags → 0 ≤ pa < 2 ^ 64 →
  (∀ s' T', leaf_set s T va (Z.lor pa (parse_flags flags)) s' T' → lock_free (lock_ s') →
     vm_hw s' = vm_hw s → Q (s', SYSTEM_OK)) →
  or_panics (map_page va pa flags s) Q.
Proof.
  intros Ht Hl Hs Hpa HQ. unfold map_page. cbn [map_page_depth]. unfold map_page_body.
  apply with_lock_or_panics; [done|]. intros l Hheld.
  rewrite (small_page_size flags Hs). change (PAGE_SIZE =? PAGE_SIZE_1GiB) with false.
  cbn [andb]. destruct (parse_flags_bits flags Hs) as [Hpr _].
  apply (map_one_or_panics _ _ T); [by apply tree_ok_lock|done|done|].
  intros s' T' Hset Hlock Hhw. split; [done|]. intros l' Hl'.
  apply (HQ _ T'); [by eapply leaf_set_lock|done|done].
Qed.

(** ** [virtual_to_physical] and [unmap_page] *)

Lemma leaf_entry_load s T va f :
  tree_ok s T → T !! table_path va = Some f →
  load_entry (entry_addr f (leaf_index va)) s =
    Ok (leaf_entry s T (table_path va) (leaf_index va)).
Proof.
  intros Ht Hf. unfold leaf_entry, load_entry. rewrite Hf.
  destruct (tr_frame _ _ Ht _ _ Hf) as (_ & Hff & _).
  assert (returns (ld64 (vm_mem s) (entry_addr f (leaf_index va))) (λ _, True)) as Hr.
  { apply ld64_returns; [|apply fr_bytes, Ht|done].
    apply entry_mapped; [apply Ht|done|apply leaf_index_range]. }
  by destruct (ld64 _ _).
Qed.

(** The physical address an entry gives for [va]. *)
Definition resolve (v va : Z) : Z :=
  if entry_has_flags v PAGE_FLAG_PRESENT
  then u64 (entry_get_address v + va mod PAGE_SIZE) else minus_one.

Lemma virtual_to_physical_returns s T va flags f (Q : vm A * Z → Prop) :
  tree_ok s T → lock_free (lock_ s) → small_flags flags → T !! table_path va = Some f →
  (∀ l, lock_free l →
     Q (set_vm_lock l s, resolve (leaf_entry s T (table_path va) (leaf_index va)) va)) →
  returns (virtual_to_physical va flags s) Q.
Proof.
  intros Ht Hl Hs Hf HQ. apply with_lock_returns; [done|]. intros l Hheld.
  rewrite (small_page_size flags Hs). bind_step. unfold to_entry.
  apply (tree_ok_lock l) in Ht as Ht'.
  apply (walk_find _ _ T va f); [done|done|].
  rewrite (entry_addr_pos _ _ _ _ Ht' Hf), (leaf_entry_load _ _ _ _ Ht' Hf), bind_ok.
  unfold resolve in HQ.
  change (leaf_entry (set_vm_lock l s) T) with (leaf_entry s T).
  destruct (entry_has_flags _ _); simpl; (split; [done|]);
    intros l' Hl'; by apply (HQ l').
Qed.

(** The allocator is as before, its memory apart. *)
Record frames_kept (s s' : vm A) : Prop := FramesKept {
  fk_frame : ∀ g, fr_frame (vm_frames s) g → fr_frame (vm_frames s') g;
  fk_avail : ∀ g, fr_avail (vm_frames s') g ↔ fr_avail (vm_frames s) g;
  fk_spare : fr_spare (vm_frames s') ↔ fr_spare (vm_frames s);
}.

Lemma unmap_page_returns s T va flags f (Q : vm A * Z → Prop) :
  tree_ok s T → lock_free (lock_ s) → small_flags flags → T !! table_path va = Some f →
  (∀ s', leaf_set s T va 0 s' T → lock_free (lock_ s') →
     vm_hw s' = Invalidate va :: vm_hw s → frames_kept s s' → Q (s', SYSTEM_OK)) →
  returns (unmap_page va flags s) Q.
Proof.
  intros Ht Hl Hs Hf HQ. apply with_lock_returns; [done|]. intros l Hheld.
  rewrite (small_page_size flags Hs). change (PAGE_SIZE =? PAGE_SIZE_1GiB) with false.
  cbn [andb]. unfold unmap_one, to_entry. bind_step. apply (tree_ok_lock l) in Ht as Ht'.
  apply (walk_find _ _ T va f); [done|done|].
  rewrite (entry_addr_pos _ _ _ _ Ht' Hf). destruct (tr_frame _ _ Ht' _ _ Hf) as (_ & Hff & _).
  bind_step. apply store_entry_returns; [apply Ht'|done|apply leaf_index_range|].
  intros s1 Hs1. cbn [returns]. split; [apply Hs1|]. intros l' Hl'.
  apply HQ; [|done| |by destruct Hs1].
  - assert (0 ≤ 0 < 2 ^ 64) as H0 by lia.
    pose proof (leaf_stored _ _ va f 0 s1 Ht' Hf H0 Hs1) as [].
    split; try done; [by destruct ls_tree0|by destruct ls_drawn0].
  - simpl. f_equal. apply Hs1.
Qed.

(** ** [setflags_page] *)

Lemma entry_get_address_range v : 0 ≤ entry_get_address v < 2 ^ 52.
Proof.
  unfold entry_get_address. change PAGE_ADDR_MASK with (Z.shiftl (Z.ones 40) 12).
  assert (0 ≤ Z.land v (Z.shiftl (Z.ones 40) 12)) as H0 by (apply Z.land_nonneg; right; by compute).
  split; [done|]. apply (Z.bounded_iff_bits_nonneg 52); [lia|done|]. intros k Hk.
  rewrite Z.land_spec, Z.shiftl_spec, Z.ones_spec_high by lia. apply andb_false_r.
Qed.

Lemma leaf_entry_grown s T s1 T1 va f :
  grown s T s1 T1 → T1 !! table_path va = Some f →
  load_entry (entry_addr f (leaf_index va)) s1 =
    Ok (leaf_entry s T (table_path va) (leaf_index va)).
Proof.
  intros Hgr Hf. rewrite (leaf_entry_load s1 T1) by (apply Hgr || done). f_equal.
  apply Hgr; [apply table_path_length|apply leaf_index_range].
Qed.

Lemma setflags_page_or_panics s T va flags (Q : vm A * Z → Prop) :
  tree_ok s T → lock_free (lock_ s) → small_flags flags →
  (∀ s' T', leaf_set s T va
     (Z.lor (entry_get_address (leaf_entry s T (table_path va) (leaf_index va))) (parse_flags flags))
     s' T' → lock_free (lock_ s') → vm_hw s' = vm_hw s → Q (s', SYSTEM_OK)) →
  or_panics (setflags_page va flags s) Q.
Proof.
  intros Ht Hl Hs HQ. apply with_lock_or_panics; [done|]. intros l Hheld.
  rewrite (small_page_size flags Hs). destruct (parse_flags_bits flags Hs) as [Hpr _].
  apply or_panics_bind. apply (tree_ok_lock l) in Ht as Ht'.
  apply (walk_allocate true _ _ T); [done|]. intros s1 T1 f Hgr Hf.
  rewrite (entry_addr_pos s1 T1) by (apply Hgr || done). right.
  rewrite (leaf_entry_grown _ _ _ _ _ _ Hgr Hf), bind_ok.
  pose proof (entry_get_address_range (leaf_entry s T (table_path va) (leaf_index va))).
  apply (replace_leaf_returns s1 T1); [apply Hgr|done|change (leaf_entry (set_vm_lock l s) T)
    with (leaf_entry s T); lia|done|].
  intros s2 Hset Hl2 Hh. cbn [returns]. split; [by rewrite Hl2, (gr_lock _ _ _ _ Hgr)|].
  intros l' Hl'. apply (HQ _ T1); [|done|by etrans; [|apply Hgr]].
  eapply leaf_set_lock. by eapply leaf_set_grown.
Qed.

(** ** Pages *)

(** The page of an address, as far as the tables can tell addresses apart. *)
Definition page_number (va : Z) : Z := (va / PAGE_SIZE) mod 2 ^ (9 * Z.of_nat levels).

(** The leaf entry of an address. *)
Definition entry_of (s : vm A) (T : gmap (list Z) Z) (va : Z) : Z :=
  leaf_entry s T (table_path va) (leaf_index va).

(** The digits of a page number in base 512. *)
Definition digit (n k : Z) : Z := n / 2 ^ (9 * k) mod 512.

Lemma GET_PML_ENTRY_eq va k :
  0 ≤ k → GET_PML_ENTRY va (12 + 9 * k) = digit (va / PAGE_SIZE) k.
Proof.
  intros Hk. unfold digit, GET_PML_ENTRY, PAGE_SIZE. change 0x1ff with (Z.ones 9).
  rewrite Z.land_ones, Z.shiftr_div_pow2 by lia. change 0x1000 with (2 ^ 12).
  rewrite Z.div_div by lia. rewrite <-Z.pow_add_r by lia. done.
Qed.

Lemma page_digits n :
  let d := digit n in
  (0 ≤ d 0 < 512 ∧ 0 ≤ d 1 < 512 ∧ 0 ≤ d 2 < 512 ∧ 0 ≤ d 3 < 512 ∧ 0 ≤ d 4 < 512) ∧
  n mod 2 ^ 36 = d 0 + 512 * d 1 + 262144 * d 2 + 134217728 * d 3 ∧
  n mod 2 ^ 45 = d 0 + 512 * d 1 + 262144 * d 2 + 134217728 * d 3 + 68719476736 * d 4.
Proof.
  intros d. assert (∀ k, 0 ≤ d k < 512) as Hd by (intros; by apply Z.mod_pos_bound).
  assert (∀ k, 0 ≤ k → n mod 2 ^ (9 * (k + 1)) = n mod 2 ^ (9 * k) + 2 ^ (9 * k) * d k) as Hs.
  { intros k Hk. replace (9 * (k + 1)) with (9 * k + 9) by lia.
    rewrite Z.pow_add_r by lia. apply Z.rem_mul_r; [|done]. apply Z.pow_nonzero; lia. }
  assert (n mod 512 = n mod 1 + 1 * d 0) as H0 by (apply (Hs 0); lia).
  assert (n mod 262144 = n mod 512 + 512 * d 1) as H1 by (apply (Hs 1); lia).
  assert (n mod 134217728 = n mod 262144 + 262144 * d 2) as H2 by (apply (Hs 2); lia).
  assert (n mod 68719476736 = n mod 134217728 + 134217728 * d 3) as H3 by (apply (Hs 3); lia).
  assert (n mod 35184372088832 = n mod 68719476736 + 68719476736 * d 4) as H4
    by (apply (Hs 4); lia).
  rewrite Z.mod_1_r in H0. split; [by split_and!; apply Hd|].
  change (2 ^ 36) with 68719476736. change (2 ^ 45) with 35184372088832.
  clearbody d. lia.
Qed.

Lemma page_key va va' :
  (table_path va = table_path va' ∧ leaf_index va = leaf_index va') ↔
  page_number va = page_number va'.
Proof.
  unfold table_path, leaf_index, page_number, levels.
  assert (∀ a, GET_PML_ENTRY a 48 = digit (a / PAGE_SIZE) 4 ∧
    GET_PML_ENTRY a 39 = digit (a / PAGE_SIZE) 3 ∧
    GET_PML_ENTRY a 30 = digit (a / PAGE_SIZE) 2 ∧
    GET_PML_ENTRY a 21 = digit (a / PAGE_SIZE) 1 ∧
    GET_PML_ENTRY a 12 = digit (a / PAGE_SIZE) 0) as Hdig.
  { intros a. rewrite <-!GET_PML_ENTRY_eq by lia. done. }
  destruct (Hdig va) as (-> & -> & -> & -> & ->), (Hdig va') as (-> & -> & -> & -> & ->).
  generalize (va / PAGE_SIZE), (va' / PAGE_SIZE). intros n n'.
  destruct (page_digits n) as (D0 & D4 & D5), (page_digits n') as (E0 & E4 & E5).
  destruct is_paging_mode_max; simpl app.
  - change (9 * Z.of_nat 5) with 45. rewrite D5, E5.
    split; [intros [[=] ?]; lia|intros Heq].
    assert (digit n 0 = digit n' 0 ∧ digit n 1 = digit n' 1 ∧ digit n 2 = digit n' 2 ∧
      digit n 3 = digit n' 3 ∧ digit n 4 = digit n' 4) as (-> & -> & -> & -> & ->) by lia.
    done.
  - change (9 * Z.of_nat 4) with 36. rewrite D4, E4.
    split; [intros [[=] ?]; lia|intros Heq].
    assert (digit n 0 = digit n' 0 ∧ digit n 1 = digit n' 1 ∧ digit n 2 = digit n' 2 ∧
      digit n 3 = digit n' 3) as (-> & -> & -> & ->) by lia.
    done.
Qed.

(** Setting one leaf entry, page by page. *)
Lemma leaf_set_entry_of s T va v s' T' va' :
  leaf_set s T va v s' T' →
  entry_of s' T' va' = if decide (page_number va' = page_number va) then v else entry_of s T va'.
Proof.
  intros []. unfold entry_of. rewrite ls_leaf0; [|apply table_path_length|apply leaf_index_range].
  pose proof (page_key va' va). repeat case_decide; try done; tauto.
Qed.
End map.

(** * Properties *)

Section properties.
Context {A : Type} `{hh : Hhdm, pmode : PagingMode, fo : FrameOps A}.
Context `{fl : !FrameLaws A}.

(** The splits nested in [map_page] never get anywhere: the lock is taken. *)
Lemma map_page_depth_spins n va pa flags (s : vm A) :
  lock_held (lock_ s) → map_page_depth (S n) va pa flags s = Spin.
Proof.
  intros Hl. cbn [map_page_depth]. unfold map_page_body, with_lock.
  by rewrite mutex_lock_held.
Qed.

Lemma split_not_ok n entry allocate va old new (s : vm A) v :
  lock_held (lock_ s) → ld64 (vm_mem s) entry = Ok v → is_valid v = true →
  is_large v = true → old ≠ minus_one → 0 < old →
  never_returns (get_next_lvl (map_page_depth (S n)) entry allocate va old new s).
Proof.
  intros Hl Hv Hva Hlg Hold Hpos. unfold get_next_lvl, load_entry.
  rewrite Hv, bind_ok, Hva, Hlg. rewrite (proj2 (Z.eqb_neq old minus_one) Hold). simpl andb.
  cbv iota. destruct (has _ _); [done|].
  apply never_bind_l. unfold allocate_frame, store_entry.
  rewrite bind_assoc. apply never_bind_r. intros [a f]. rewrite bind_ok.
  apply never_bind_r. intros w. rewrite bind_assoc. apply never_bind_r. intros m1.
  rewrite bind_ok. apply never_bind_r. intros w'. rewrite bind_assoc.
  apply never_bind_r. intros m2. rewrite bind_ok. apply never_bind_l. cbn [loop].
  rewrite (proj2 (Z.ltb_lt 0 old)) by done. by rewrite map_page_depth_spins.
Qed.

(** ** Walking through a missing table

    [to_higher_half(nullptr)] is the start of the direct map, so a missing table
    reads as the table in physical page 0. *)
Definition dead_entry (s : vm A) (e : Z) : Prop :=
  ∃ w, load_entry e s = Ok w ∧ is_valid w = false ∧ is_large w = false.

Lemma next_dead mp e va old new (s : vm A) (Q : vm A * Z → Prop) :
  hhdm_ok → dead_entry s e → Q (s, hhdm_offset) →
  returns (get_next_lvl mp e false va old new s) Q.
Proof.
  intros [? _] (w & Hw & Hv & _) HQ. unfold get_next_lvl. rewrite Hw, bind_ok, Hv, bind_ok.
  rewrite to_higher_half_low by lia. by rewrite Z.add_0_l.
Qed.

Lemma large_dead e (s : vm A) (Q : bool → Prop) :
  dead_entry s e → Q false → returns (v ← load_entry e s; Ok (is_large v)) Q.
Proof. intros (w & -> & _ & Hl) HQ. rewrite bind_ok. cbn [returns]. by rewrite Hl. Qed.

(** The entries of page 0 the walk for [va] goes through, and the root's. *)
Record page_zero_walk (s : vm A) (va : Z) : Prop := PageZeroWalk {
  pz_hhdm : hhdm_ok;
  pz_top : top_lvl_ s ≠ 0;
  pz_root : dead_entry s (entry_at (top_lvl_ s)
    (if is_paging_mode_max then GET_PML_ENTRY va 48 else GET_PML_ENTRY va 39));
  pz_39 : dead_entry s (entry_at hhdm_offset (GET_PML_ENTRY va 39));
  pz_30 : dead_entry s (entry_at hhdm_offset (GET_PML_ENTRY va 30));
  pz_21 : dead_entry s (entry_at hhdm_offset (GET_PML_ENTRY va 21));
}.

Lemma walk_page_zero mp (s : vm A) va (Q : vm A * Z → Prop) :
  page_zero_walk s va → Q (s, entry_at hhdm_offset (leaf_index va)) →
  returns (virtual_to_entry mp va false PAGE_SIZE true s) Q.
Proof.
  intros [Hh Htop Hroot H39 H30 H21] HQ.
  assert ((hhdm_offset =? 0) = false) as Hnz by (apply Z.eqb_neq; destruct Hh; lia).
  unfold virtual_to_entry, get_next_lvl_default.
  rewrite (proj2 (Z.eqb_neq _ _) Htop).
  change (PAGE_SIZE =? PAGE_SIZE_1GiB) with false.
  change (PAGE_SIZE =? PAGE_SIZE_2MiB) with false.
  destruct is_paging_mode_max; rewrite ?bind_ok, ?(proj2 (Z.eqb_neq _ _) Htop);
    repeat (bind_step;
      first [apply next_dead; [done|done|]|apply large_dead; [done|]]; rewrite ?Hnz; cbv iota);
    exact HQ.
Qed.
End properties.

(** C11. Mapping a 4 KiB page in a well-formed tree of tables either panics, for
    want of memory, or returns [SYSTEM_OK] with the lock free and a well-formed
    tree that has the old one's tables, in which exactly the entries of that
    page, in every alias the tables cannot tell apart, are the physical address
    with the parsed flags, and the entries of all other pages are as before. *)
Theorem map_page_sets_entry `{hh : Hhdm, pmode : PagingMode, fo : FrameOps A, !FrameLaws A}
    (s : vm A) T va pa flags :
  tree_ok s T → lock_free (lock_ s) → small_flags flags → 0 ≤ pa < 2 ^ 64 →
  or_panics (map_page va pa flags s) (λ '(s', r),
    r = SYSTEM_OK ∧ lock_free (lock_ s') ∧ ∃ T', tree_ok s' T' ∧ T ⊆ T' ∧
    ∀ va', entry_of s' T' va' =
      if decide (page_number va' = page_number va) then Z.lor pa (parse_flags flags)
      else entry_of s T va').
Proof.
  intros Ht Hl Hs Hpa. apply (map_page_or_panics s T); [done..|].
  intros s' T' Hset Hl' _. split_and!; [done|done|]. exists T'.
  split_and!; [apply Hset|apply Hset|]. intros va'. by apply leaf_set_entry_of.
Qed.

(** What is mapped is what is looked up.  After mapping a page-aligned
    physical address below 2^52 for reading, [virtual_to_physical] gives, for
    every address of the page, the physical address plus the offset in the page;
    for an address of another page that has a table it gives what it gave before
    the mapping. *)
Theorem map_page_translates `{hh : Hhdm, pmode : PagingMode, fo : FrameOps A, !FrameLaws A}
    (s : vm A) T va f flags va' flags' :
  tree_ok s T → lock_free (lock_ s) → small_flags flags → small_flags flags' →
  has flags MAP_READ = true → 0 ≤ f * PAGE_SIZE < 2 ^ 52 →
  (page_number va' = page_number va ∨ is_Some (T !! table_path va')) →
  or_panics ('(s, _) ← map_page va (f * PAGE_SIZE) flags s; virtual_to_physical va' flags' s)
    (λ '(_, r), r = if decide (page_number va' = page_number va)
                    then f * PAGE_SIZE + va' mod PAGE_SIZE
                    else resolve (entry_of s T va') va').
Proof.
  intros Ht Hl Hs Hs' Hread Hf Hva'. apply or_panics_bind.
  apply (map_page_or_panics s T); [done|done|done|lia|].
  intros s1 T1 Hset Hl1 _. right.
  assert (is_Some (T1 !! table_path va')) as [h Hh].
  { destruct Hva' as [[-> _]%page_key|[h Hh]]; [apply Hset|].
    exists h. by apply (lookup_weaken T); [|apply Hset]. }
  apply (virtual_to_physical_returns s1 T1 va' flags' h); [apply Hset|done..|].
  intros l _. change (leaf_entry s1 T1 _ _) with (entry_of s1 T1 va').
  rewrite (leaf_set_entry_of _ _ _ _ _ _ _ Hset). case_decide; [|done].
  unfold resolve. change (entry_has_flags ?v PAGE_FLAG_PRESENT) with (is_valid v). rewrite is_valid_entry by done.
  rewrite address_of_frame by (try apply parse_flags_bits; done). apply u64_small.
  assert (0 ≤ va' mod PAGE_SIZE < PAGE_SIZE) by by apply Z.mod_pos_bound.
  unfold PAGE_SIZE in *. lia.
Qed.


(** A large page is never split.  [get_next_lvl] maps the small pages of a
    large one with [map_page], which takes the lock its caller holds: with a
    valid large entry, the lock held and an old page size given, no call
    returns, whatever the depth of recursion. *)
Theorem large_page_never_splits `{hh : Hhdm, pmode : PagingMode, fo : FrameOps A} n
    (s : vm A) entry allocate va old new v :
  lock_held (lock_ s) → ld64 (vm_mem s) entry = Ok v → is_valid v = true →
  is_large v = true → old ≠ minus_one → 0 < old →
  never_returns (get_next_lvl (map_page_depth (S n)) entry allocate va old new s).
Proof. intros. by eapply split_not_ok. Qed.

(** A page that was never mapped is looked up in physical page 0.  Where
    the top-level entry for [va] is absent, the missing table is not noticed:
    its pointer, [to_higher_half] of a null pointer, is the start of the direct
    map.  If the words of page 0 the walk passes are not valid entries either,
    [virtual_to_physical] answers with whatever word page 0 has at the last
    index, and [unmap_page] reports success after clearing that word. *)
Theorem unmapped_page_uses_page_zero `{hh : Hhdm, pmode : PagingMode, fo : FrameOps A,
    fl : !FrameLaws A} (s : vm A) va flags v :
  lock_free (lock_ s) → small_flags flags → (∀ l, page_zero_walk (set_vm_lock l s) va) →
  mapped (vm_mem s) (hhdm_offset) PAGE_SIZE → hhdm_offset + PAGE_SIZE < 2 ^ 64 →
  ld64 (vm_mem s) (hhdm_offset + 8 * leaf_index va) = Ok v →
  returns (virtual_to_physical va flags s) (λ '(_, r), r = resolve v va) ∧
  returns (unmap_page va flags s) (λ '(s', r), r = SYSTEM_OK ∧
    stored (vm_mem s) (vm_mem s') (hhdm_offset + 8 * leaf_index va) 0).
Proof.
  intros Hl Hs Hz Hm Htop Hv. pose proof (leaf_index_range va) as Hi.
  assert (0 < hhdm_offset) as Hpos by (destruct (pz_hhdm _ _ (Hz TicketLock_init)); lia).
  assert (entry_at hhdm_offset (leaf_index va) = hhdm_offset + 8 * leaf_index va) as He.
  { unfold entry_at, PAGE_SIZE in *. apply u64_small. lia. }
  assert ((hhdm_offset + 8 * leaf_index va =? 0) = false) as Hnz by (apply Z.eqb_neq; lia).
  split; (apply with_lock_returns; [done|]; intros l Hheld;
    rewrite (small_page_size flags Hs); unfold unmap_one, to_entry).
  - bind_step. apply walk_page_zero; [done|]. rewrite He, Hnz. unfold load_entry.
    change (vm_mem (set_vm_lock l s)) with (vm_mem s). rewrite Hv, bind_ok. unfold resolve.
    destruct (entry_has_flags v PAGE_FLAG_PRESENT); simpl; done.
  - change (PAGE_SIZE =? PAGE_SIZE_1GiB) with false. cbn [andb].
    bind_step. apply walk_page_zero; [done|]. rewrite He, Hnz. unfold store_entry.
    bind_step. bind_step. apply st64_returns.
    { apply (mapped_mono (vm_mem s) hhdm_offset PAGE_SIZE); [done|lia|].
      unfold PAGE_SIZE. lia. }
    intros m Hst. cbn [returns]. split; [done|]. intros l' _. split; [done|].
    unfold vm_mem at 2. simpl. by rewrite fr_mem_set.
Qed.

(** The flags a split reads back from a large entry, for every combination of
    mapping flags that asks for a large page.  The permissions survive, but the
    page-size bit is taken for the PAT bit: memory-mapped I/O comes back as
    write-back, write-combining as uncached and the default as write-through; and
    as the flag for 2 MiB pages is the one for write-through, such a page comes
    back as write-through whatever else was asked for. *)
Theorem large_page_flags_read_back flags :
  0 ≤ flags < 2048 → has flags MAP_PAGE_1GB || has flags MAP_PAGE_2MB = true →
  vmm_flags (entry_get_flags (parse_flags flags)) true =
  Z.lor (Z.land flags (MAP_READ + MAP_WRITE + MAP_EXEC + MAP_GLOBAL + MAP_USER))
    (if has flags MAP_MMIO then MAP_WRITE_BACK
     else if has flags MAP_WRITE_COMBINING then MAP_NO_CACHE
     else if has flags MAP_PAGE_2MB then MAP_WRITE_THROUGH
     else if has flags MAP_WRITE_BACK then MAP_WRITE_BACK
     else if has flags MAP_NO_CACHE then MAP_NO_CACHE
     else MAP_WRITE_THROUGH).
Proof.
  revert flags. refine (forall_range _ 0 2048 _). by vm_compute.
Qed.

(** ** A machine to try the properties on

    Eight pages of zeros, page 3 the root table, pages 4 to 6 free, page 7 in use;
    four levels. *)
Definition sample_mode : PagingMode := false.
#[local] Existing Instance sample_hhdm.
#[local] Existing Instance sample_mode.
#[local] Opaque sample_pages.

Definition sample_vm : vm phys :=
  Vm (sample_state (sample_pages 143 0) 4 3) (frame_base 3) TicketLock_init false [].
Definition sample_tables : gmap (list Z) Z := {[ [] := 3 ]}.

Lemma sample_143 : sample_mem_ok (sample_pages 143 0) 143 (pages 4 3).
Proof.
  apply sample_pages_ok; [lia|lia| |].
  - apply (forall_range (λ i, Z.testbit 143 i = negb (bool_decide (i ∈ pages 4 3)))).
    by vm_compute.
  - intros i. rewrite !elem_of_pages. lia.
Qed.

Lemma sample_tree : tree_ok sample_vm sample_tables.
Proof.
  unfold sample_tables. split; cbn [vm_frames top_lvl_ sample_vm].
  - apply (sample_state_ok _ _ _ _ _ sample_143); [reflexivity|lia|lia].
  - exists 3. by rewrite lookup_singleton_eq.
  - intros p f [<- <-]%lookup_singleton_Some. split_and!; [compute; lia| |].
    + apply (sample_page_ok _ _ _ _ sample_143). lia.
    + pose proof (sample_free _ _ 4 3 _ sample_143) as Hfree. intros Hin.
      assert (3 ∈ pages 4 3) as Hin' by (rewrite <-Hfree; exact Hin).
      apply elem_of_pages in Hin'. lia.
  - by intros p q f [<- _]%lookup_singleton_Some [<- _]%lookup_singleton_Some.
  - intros p f i [<- <-]%lookup_singleton_Some _ Hi. exists 0. split.
    + apply ld64_zero; [apply sample_143|]. intros x Hx. apply sample_pages_lookup.
      unfold entry_addr, frame_base, hhdm_offset, sample_hhdm, PAGE_SIZE in Hx. lia.
    + by rewrite lookup_singleton_ne.
  - intros p i [f Hf]. apply lookup_singleton_Some in Hf as [Hp _]. by destruct p.
Qed.

Lemma sample_lock_free : lock_free TicketLock_init.
Proof. split; [reflexivity|simpl; lia]. Qed.

Lemma map_page_sets_entry_witness :
  or_panics (map_page 0xffff800000005000 0x1234000 (Z.lor MAP_READ MAP_WRITE) sample_vm)
    (λ '(s', r), r = SYSTEM_OK ∧ lock_free (lock_ s') ∧
       ∃ T', tree_ok s' T' ∧ sample_tables ⊆ T' ∧
       ∀ va', entry_of s' T' va' =
         if decide (page_number va' = page_number 0xffff800000005000)
         then Z.lor 0x1234000 (parse_flags (Z.lor MAP_READ MAP_WRITE))
         else entry_of sample_vm sample_tables va').
Proof.
  apply (map_page_sets_entry sample_vm sample_tables).
  - exact sample_tree.
  - exact sample_lock_free.
  - split; reflexivity.
  - lia.
Defined.

(** An alias of the page, 2^48 below, is looked up. *)
Lemma map_page_translates_witness :
  or_panics ('(s, _) ← map_page 0xffff800000005000 (0x1234 * PAGE_SIZE)
                         (Z.lor MAP_READ MAP_WRITE) sample_vm;
             virtual_to_physical 0x800000005678 0 s)
    (λ '(_, r), r = if decide (page_number 0x800000005678 = page_number 0xffff800000005000)
                    then 0x1234 * PAGE_SIZE + 0x800000005678 mod PAGE_SIZE
                    else resolve (entry_of sample_vm sample_tables 0x800000005678) 0x800000005678).
Proof.
  apply (map_page_translates sample_vm sample_tables).
  - exact sample_tree.
  - exact sample_lock_free.
  - split; reflexivity.
  - split; reflexivity.
  - reflexivity.
  - unfold PAGE_SIZE; lia.
  - left; reflexivity.
Defined.


(** A present 2 MiB entry, the lock taken. *)
Lemma large_page_never_splits_witness :
  never_returns (get_next_lvl (map_page_depth 3) (2 ^ 47) true 0 PAGE_SIZE_2MiB PAGE_SIZE
    (Vm (phys_start (mem_of (2 ^ 47) [0x83; 0; 0; 0; 0; 0; 0; 0])) (2 ^ 47)
        {| next_ticket_ := 1; serving_ticket_ := 0 |} false [])).
Proof.
  apply (large_page_never_splits 2 _ _ _ _ _ _ 0x83); try reflexivity; try discriminate.
  split; [reflexivity|simpl; lia].
Defined.

(** Nothing is mapped; page 0 has the word 1 at index 5. *)
Lemma unmapped_page_uses_page_zero_witness :
  let s := Vm (phys_start (<[2 ^ 47 + 40 := 1]> (mem_of (2 ^ 47) (replicate (Z.to_nat 8192) 0))))
              (2 ^ 47 + 4096) TicketLock_init false [] in
  returns (virtual_to_physical 0x5678 0 s) (λ '(_, r), r = 0x678).
Proof.
  intros s.
  refine (proj1 (unmapped_page_uses_page_zero s 0x5678 0 1 _ _ _ _ _ _)).
  - exact sample_lock_free.
  - split; reflexivity.
  - intros l. split; [split; [unfold hhdm_offset, sample_hhdm; lia|reflexivity]|discriminate| | | |];
      exists 0; (split; [vm_compute; reflexivity|split; reflexivity]).
  - intros x Hx. unfold hhdm_offset, sample_hhdm, PAGE_SIZE in Hx.
    destruct (decide (x = 2 ^ 47 + 40)) as [->|Hne].
    + unfold vm_mem, s. cbn [vm_frames fr_mem phys_frame_ops phys_start phys_mem].
      rewrite lookup_insert_eq. eexists; reflexivity.
    + unfold vm_mem, s. cbn [vm_frames fr_mem phys_frame_ops phys_start phys_mem].
      rewrite lookup_insert_ne by done. apply mem_of_is_Some.
      rewrite length_replicate, Z2Nat.id by lia. lia.
  - unfold hhdm_offset, sample_hhdm, PAGE_SIZE. lia.
  - vm_compute. reflexivity.
Defined.

(** A 2 MiB page of memory-mapped I/O, writable. *)
Lemma large_page_flags_read_back_witness :
  vmm_flags (entry_get_flags (parse_flags
    (Z.lor (Z.lor MAP_READ MAP_WRITE) (Z.lor MAP_MMIO MAP_PAGE_2MB)))) true =
  Z.lor (Z.lor MAP_READ MAP_WRITE) MAP_WRITE_BACK.
Proof.
  exact (large_page_flags_read_back
    (Z.lor (Z.lor MAP_READ MAP_WRITE) (Z.lor MAP_MMIO MAP_PAGE_2MB))
    ltac:(by vm_compute) eq_refl).
Defined.
