(* ===== verification/PagingRange.v ===== *)
(** * Ranges of pages: [map_pages], [unmap_pages] and the loops of start-up

    Mapping a range sets the entries of its pages, one after the other, and keeps
    those of every other page. *)
From S2P Require Import Prelude Mem Lock Addr Physical Frames Paging PagingWalk PagingMap.

Section range.
Context {A : Type} `{hh : Hhdm, pmode : PagingMode, fo : FrameOps A}.
Context `{fl : !FrameLaws A}.

(** As many pages as the tables can tell apart. *)
Definition all_pages : Z := 2 ^ (9 * Z.of_nat levels).

Lemma all_pages_le : all_pages ≤ 2 ^ 45.
Proof using Type. unfold all_pages, levels. by destruct is_paging_mode_max. Qed.

(** Pages of one range have different numbers. *)
Lemma page_number_range start a b :
  0 ≤ start → 0 ≤ a → 0 ≤ b → Z.abs (a - b) < all_pages →
  page_number (start + a * PAGE_SIZE) = page_number (start + b * PAGE_SIZE) → a = b.
Proof.
  intros Hs Ha Hb Hab. unfold page_number, all_pages in *.
  rewrite !Z.div_add by done. set (M := 2 ^ _) in *. intros Heq.
  assert (0 < M) as HM by (apply Z.pow_pos_nonneg; lia).
  pose proof (Z.div_mod (start / PAGE_SIZE + a) M ltac:(lia)).
  pose proof (Z.div_mod (start / PAGE_SIZE + b) M ltac:(lia)).
  set (x := (start / PAGE_SIZE + a) / M) in *. set (y := (start / PAGE_SIZE + b) / M) in *.
  assert (x = y) as Hxy; [|rewrite Hxy in *; lia].
  assert (a - b = M * (x - y)) by lia. clearbody x y M. clear - HM H1 Hab. nia.
Qed.

(** Page [k] of the range of [n] pages from [start] has the entry [v k]. *)
Record range_set (s : vm A) (T : gmap (list Z) Z) (start n : Z) (v : Z → Z)
    (s' : vm A) (T' : gmap (list Z) Z) : Prop := RangeSet {
  rs_tree : tree_ok s' T';
  rs_lock : lock_free (lock_ s');
  rs_sub : T ⊆ T';
  rs_pages : ∀ k, 0 ≤ k < n → entry_of s' T' (start + k * PAGE_SIZE) = v k;
  rs_others : ∀ va, (∀ k, 0 ≤ k < n → page_number va ≠ page_number (start + k * PAGE_SIZE)) →
    entry_of s' T' va = entry_of s T va;
  rs_drawn : frames_drawn s T s' T';
}.

Lemma range_set_nil s T start v :
  tree_ok s T → lock_free (lock_ s) → range_set s T start 0 v s T.
Proof. intros. split; try done; [intros; lia|apply frames_drawn_refl]. Qed.

Lemma range_set_snoc s T start n v s1 T1 s' T' :
  0 ≤ start → 0 ≤ n < all_pages → range_set s T start n v s1 T1 →
  leaf_set s1 T1 (start + n * PAGE_SIZE) (v n) s' T' → lock_free (lock_ s') →
  range_set s T start (n + 1) v s' T'.
Proof.
  intros Hst Hn [? ? ? Hpg Hot ?] Hset Hl.
  pose proof (λ va, leaf_set_entry_of _ _ _ _ _ _ va Hset) as He. destruct Hset.
  split; try done; [by etrans| | |by eapply frames_drawn_trans].
  - intros k Hk. rewrite He. case_decide as Hd.
    + apply page_number_range in Hd; [by subst|lia..].
    + apply Hpg. destruct (decide (k = n)) as [->|]; [done|lia].
  - intros va Hva. rewrite He, decide_False by (apply Hva; lia).
    apply Hot. intros k Hk. apply Hva. lia.
Qed.

(** A loop that maps the pages of a range, one at a turn. *)
Lemma map_loop_or_panics {R} (body : vm A * Z → outcome (vm A * Z + R)) s T start n v fuel
    (Q : R → Prop) :
  0 ≤ start → 0 ≤ n ≤ all_pages → tree_ok s T → lock_free (lock_ s) →
  (Z.to_nat n < fuel)%nat →
  (∀ s1 T1 k (P : vm A * Z + R → Prop), 0 ≤ k < n → range_set s T start k v s1 T1 →
    (∀ s2 T2, leaf_set s1 T1 (start + k * PAGE_SIZE) (v k) s2 T2 → lock_free (lock_ s2) →
       P (inl (s2, (k + 1) * PAGE_SIZE))) →
    or_panics (body (s1, k * PAGE_SIZE)) P) →
  (∀ s' T', range_set s T start n v s' T' →
     returns (body (s', n * PAGE_SIZE)) (λ r, match r with inl _ => False | inr w => Q w end)) →
  or_panics (loop fuel body (s, 0)) Q.
Proof.
  intros Hst Hn Ht Hl Hfuel Hbody Hend.
  apply (loop_or_panics body (λ '(s1, i), ∃ T1 k, i = k * PAGE_SIZE ∧ 0 ≤ k ≤ n ∧
           range_set s T start k v s1 T1) (λ '(_, i), Z.to_nat (n - i / PAGE_SIZE))).
  - intros [s1 i] (T1 & k & -> & Hk & Hset). destruct (decide (k = n)) as [->|Hne].
    + right. eapply returns_mono; [by eapply Hend|]. by intros [?|w].
    + apply (Hbody s1 T1 k); [lia|done|]. intros s2 T2 Hls Hl2. split.
      * exists T2, (k + 1). split_and!; [done|lia|lia|]. eapply range_set_snoc; [done|lia|done..].
      * rewrite !Z.div_mul by done. lia.
  - exists T, 0. split_and!; [done|lia|lia|by apply range_set_nil].
  - rewrite Z.div_0_l by done. lia.
Qed.

Lemma map_pages_or_panics s T va pa n flags (Q : vm A * Z → Prop) :
  tree_ok s T → lock_free (lock_ s) → small_flags flags → 0 ≤ n ≤ all_pages →
  0 ≤ va → va + n * PAGE_SIZE ≤ 2 ^ 64 → 0 ≤ pa → pa + n * PAGE_SIZE ≤ 2 ^ 64 →
  n * PAGE_SIZE + PAGE_SIZE < 2 ^ 64 →
  (∀ s' T', range_set s T va n (λ k, Z.lor (pa + k * PAGE_SIZE) (parse_flags flags)) s' T' →
     Q (s', SYSTEM_OK)) →
  or_panics (map_pages va pa (n * PAGE_SIZE) flags s) Q.
Proof.
  intros Ht Hl Hs Hn Hva Hvt Hpa Hpt Htop HQ. unfold map_pages, each_page.
  rewrite (small_page_size flags Hs), Z.div_mul by done.
  apply (map_loop_or_panics _ s T va n (λ k, Z.lor (pa + k * PAGE_SIZE) (parse_flags flags)));
    [done..|lia| |].
  - intros s1 T1 k P Hk [Ht1 Hl1 _ _ _ _] HP. cbn [fst snd].
    rewrite (proj2 (Z.ltb_lt _ _)) by (unfold PAGE_SIZE; lia). apply or_panics_bind.
    rewrite !u64_small by (unfold PAGE_SIZE in *; lia).
    apply (map_page_or_panics s1 T1); [done..|unfold PAGE_SIZE in *; lia|].
    intros s2 T2 Hset Hl2 _. right. cbn [returns negb Z.eqb SYSTEM_OK].
    change (SYSTEM_OK =? SYSTEM_OK) with true. cbn [negb returns].
    replace (k * PAGE_SIZE + PAGE_SIZE) with ((k + 1) * PAGE_SIZE) by lia.
    rewrite u64_small by (unfold PAGE_SIZE in *; lia). by apply (HP _ T2).
  - intros s' T' Hset. rewrite (proj2 (Z.ltb_ge _ _)) by lia. cbn [returns]. by apply (HQ _ T').
Qed.

(** The frame of every page stays, its flags are new. *)
Lemma setflags_pages_or_panics s T va n flags (Q : vm A * Z → Prop) :
  tree_ok s T → lock_free (lock_ s) → small_flags flags → 0 ≤ n ≤ all_pages →
  0 ≤ va → va + n * PAGE_SIZE ≤ 2 ^ 64 → n * PAGE_SIZE + PAGE_SIZE < 2 ^ 64 →
  (∀ s' T', range_set s T va n
     (λ k, Z.lor (entry_get_address (entry_of s T (va + k * PAGE_SIZE))) (parse_flags flags)) s' T' →
     Q (s', SYSTEM_OK)) →
  or_panics (setflags_pages va (n * PAGE_SIZE) flags s) Q.
Proof.
  intros Ht Hl Hs Hn Hva Hvt Htop HQ. unfold setflags_pages, each_page.
  rewrite (small_page_size flags Hs), Z.div_mul by done.
  apply (map_loop_or_panics _ s T va n
    (λ k, Z.lor (entry_get_address (entry_of s T (va + k * PAGE_SIZE))) (parse_flags flags)));
    [done..|lia| |].
  - intros s1 T1 k P Hk [Ht1 Hl1 _ _ Hot _] HP. cbn [fst snd].
    rewrite (proj2 (Z.ltb_lt _ _)) by (unfold PAGE_SIZE; lia). apply or_panics_bind.
    rewrite !u64_small by (unfold PAGE_SIZE in *; lia).
    apply (setflags_page_or_panics s1 T1); [done..|].
    intros s2 T2 Hset Hl2 _. right. change (SYSTEM_OK =? SYSTEM_OK) with true. cbn [negb returns].
    replace (k * PAGE_SIZE + PAGE_SIZE) with ((k + 1) * PAGE_SIZE) by lia.
    apply (HP _ T2); [|done].
    rewrite <-(Hot (va + k * PAGE_SIZE)); [done|].
    intros j Hj ->%page_number_range; lia.
  - intros s' T' Hset. rewrite (proj2 (Z.ltb_ge _ _)) by lia. cbn [returns]. by apply (HQ _ T').
Qed.

Lemma unmap_pages_returns s T va n flags (Q : vm A * Z → Prop) :
  tree_ok s T → lock_free (lock_ s) → small_flags flags → 0 ≤ n ≤ all_pages →
  0 ≤ va → va + n * PAGE_SIZE ≤ 2 ^ 64 → n * PAGE_SIZE + PAGE_SIZE < 2 ^ 64 →
  (∀ k, 0 ≤ k < n → is_Some (T !! table_path (va + k * PAGE_SIZE))) →
  (∀ s', range_set s T va n (λ _, 0) s' T → Q (s', SYSTEM_OK)) →
  returns (unmap_pages va (n * PAGE_SIZE) flags s) Q.
Proof.
  intros Ht Hl Hs Hn Hva Hvt Htop Htab HQ. unfold unmap_pages, each_page.
  rewrite (small_page_size flags Hs), Z.div_mul by done.
  apply (loop_returns _ (λ '(s1, i), ∃ k, i = k * PAGE_SIZE ∧ 0 ≤ k ≤ n ∧
           range_set s T va k (λ _, 0) s1 T) (λ '(_, i), Z.to_nat (n - i / PAGE_SIZE))).
  - intros [s1 i] (k & -> & Hk & Hset). destruct (decide (k = n)) as [->|Hne].
    { rewrite (proj2 (Z.ltb_ge _ _)) by lia. cbn [returns]. by apply HQ. }
    rewrite (proj2 (Z.ltb_lt _ _)) by (unfold PAGE_SIZE; lia). bind_step.
    rewrite u64_small by (unfold PAGE_SIZE in *; lia).
    destruct (Htab k ltac:(lia)) as [f Hf].
    apply (unmap_page_returns s1 T _ flags f); [apply Hset|apply Hset|done|done|].
    intros s2 Hls Hl2 _ _. change (SYSTEM_OK =? SYSTEM_OK) with true. cbn [negb returns].
    replace (k * PAGE_SIZE + PAGE_SIZE) with ((k + 1) * PAGE_SIZE) by lia.
    rewrite u64_small by (unfold PAGE_SIZE in *; lia). split.
    + exists (k + 1). split_and!; [done|lia|lia|]. eapply range_set_snoc; [done|lia|done..].
    + rewrite !Z.div_mul by done. lia.
  - exists 0. split_and!; [done|lia|lia|by apply range_set_nil].
  - rewrite Z.div_0_l by done. lia.
Qed.

Lemma resolve_range v va : 0 ≤ resolve v va < 2 ^ 64.
Proof. unfold resolve. destruct (entry_has_flags _ _); [apply u64_range|by compute]. Qed.
End range.

(** * Properties *)

(** Mapping a range of small pages panics for want of memory or succeeds with
    every page of the range mapped to the page at the same distance in physical
    memory, the flags translated; entries of other pages stay, tables only come
    from the available frames and the lock is free. *)
Theorem map_pages_sets_range `{hh : Hhdm, pmode : PagingMode, fo : FrameOps A, !FrameLaws A}
    (s : vm A) T va pa n flags :
  tree_ok s T → lock_free (lock_ s) → small_flags flags → 0 ≤ n ≤ all_pages →
  0 ≤ va → va + n * PAGE_SIZE ≤ 2 ^ 64 → 0 ≤ pa → pa + n * PAGE_SIZE ≤ 2 ^ 64 →
  n * PAGE_SIZE + PAGE_SIZE < 2 ^ 64 →
  or_panics (map_pages va pa (n * PAGE_SIZE) flags s) (λ '(s', r), r = SYSTEM_OK ∧
    ∃ T', range_set s T va n (λ k, Z.lor (pa + k * PAGE_SIZE) (parse_flags flags)) s' T').
Proof.
  intros. eapply map_pages_or_panics; [done..|]. intros s' T' Hset. split; [done|].
  by exists T'.
Qed.

(** Unmapping a range whose pages all have tables clears the entries of
    exactly these pages and reports success. *)
Theorem unmap_pages_clears_range `{hh : Hhdm, pmode : PagingMode, fo : FrameOps A, !FrameLaws A}
    (s : vm A) T va n flags :
  tree_ok s T → lock_free (lock_ s) → small_flags flags → 0 ≤ n ≤ all_pages →
  0 ≤ va → va + n * PAGE_SIZE ≤ 2 ^ 64 → n * PAGE_SIZE + PAGE_SIZE < 2 ^ 64 →
  (∀ k, 0 ≤ k < n → is_Some (T !! table_path (va + k * PAGE_SIZE))) →
  returns (unmap_pages va (n * PAGE_SIZE) flags s) (λ '(s', r), r = SYSTEM_OK ∧
    range_set s T va n (λ _, 0) s' T).
Proof. intros. by eapply unmap_pages_returns. Qed.

(** [remap_page] of a page that has a table clears the old page's entry and
    maps the new page to what [virtual_to_physical] gave for the old one.  It
    does not look at that answer: when the old page was not mapped, the new one
    is mapped to the address -1 and success is reported. *)
Theorem remap_page_moves `{hh : Hhdm, pmode : PagingMode, fo : FrameOps A, !FrameLaws A}
    (s : vm A) T old new flags :
  tree_ok s T → lock_free (lock_ s) → small_flags flags → is_Some (T !! table_path old) →
  or_panics (remap_page old new flags s) (λ '(s', r), r = SYSTEM_OK ∧ lock_free (lock_ s') ∧
    ∃ T', tree_ok s' T' ∧ ∀ va, entry_of s' T' va =
      if decide (page_number va = page_number new)
      then Z.lor (resolve (entry_of s T old) old) (parse_flags flags)
      else if decide (page_number va = page_number old) then 0 else entry_of s T va).
Proof.
  intros Ht Hl Hs [f Hf]. unfold remap_page. apply or_panics_bind. right.
  apply (virtual_to_physical_returns s T old flags f); [done..|]. intros l Hlf.
  change (leaf_entry s T _ _) with (entry_of s T old). apply or_panics_bind. right.
  apply (unmap_page_returns (set_vm_lock l s) T old flags f); [by apply tree_ok_lock|done..|].
  intros s1 Hs1 Hl1 _ _.
  apply (map_page_or_panics s1 T); [apply Hs1|done|done|apply resolve_range|].
  intros s2 T2 Hs2 Hl2 _. split_and!; [done|done|]. exists T2. split; [apply Hs2|].
  intros va. rewrite (leaf_set_entry_of _ _ _ _ _ _ va Hs2). case_decide; [done|].
  by rewrite (leaf_set_entry_of _ _ _ _ _ _ va Hs1).
Qed.

#[local] Existing Instance sample_hhdm.
#[local] Existing Instance sample_mode.
#[local] Opaque sample_pages.

(** Three pages of the direct map. *)
Lemma map_pages_sets_range_witness :
  or_panics (map_pages 0xffff800000005000 0x5000 (3 * PAGE_SIZE) (Z.lor MAP_READ MAP_WRITE)
               sample_vm) (λ '(s', r), r = SYSTEM_OK ∧
    ∃ T', range_set sample_vm sample_tables 0xffff800000005000 3
      (λ k, Z.lor (0x5000 + k * PAGE_SIZE) (parse_flags (Z.lor MAP_READ MAP_WRITE))) s' T').
Proof.
  apply (map_pages_sets_range sample_vm sample_tables);
    [exact sample_tree|exact sample_lock_free|split; reflexivity| | | | | |];
    unfold all_pages, levels, is_paging_mode_max, sample_mode, PAGE_SIZE; lia.
Defined.

(** The page at 0x5000 is mapped, then a range of it alone unmapped. *)
Lemma unmap_pages_clears_range_witness :
  or_panics (map_page 0x5000 0x1234000 MAP_READ sample_vm) (λ '(s, _),
    returns (unmap_pages 0x5000 (1 * PAGE_SIZE) 0 s) (λ '(_, r), r = SYSTEM_OK)).
Proof.
  apply (map_page_or_panics sample_vm sample_tables);
    [exact sample_tree|exact sample_lock_free|split; reflexivity|lia|].
  intros s T Hset Hl _. eapply returns_mono.
  - apply (unmap_pages_clears_range s T 0x5000 1 0).
    + apply Hset.
    + exact Hl.
    + split; reflexivity.
    + unfold all_pages, levels, is_paging_mode_max, sample_mode. lia.
    + lia.
    + unfold PAGE_SIZE; lia.
    + unfold PAGE_SIZE; lia.
    + intros k Hk. replace k with 0 by lia. apply Hset.
  - intros [s' r] [Hr _]. exact Hr.
Defined.

(** The page at 0x5000 is mapped, its neighbour, which is not, moved to 0x7000. *)
Lemma remap_page_moves_witness :
  or_panics ('(s, _) ← map_page 0x5000 0x1234000 MAP_READ sample_vm;
             remap_page 0x6000 0x7000 MAP_READ s) (λ '(s', r), r = SYSTEM_OK ∧
    ∃ T', entry_of s' T' 0x7000 = Z.lor minus_one (parse_flags MAP_READ)).
Proof.
  apply or_panics_bind. apply (map_page_or_panics sample_vm sample_tables);
    [exact sample_tree|exact sample_lock_free|split; reflexivity|lia|].
  intros s T Hset Hl _. eapply or_panics_mono.
  - apply (remap_page_moves s T 0x6000 0x7000 MAP_READ).
    + apply Hset.
    + exact Hl.
    + split; reflexivity.
    + exact (ls_table _ _ _ _ _ _ Hset).
  - intros [s' r] (Hr & _ & T' & _ & He). split; [exact Hr|]. exists T'.
    rewrite He, decide_True by done. f_equal.
    rewrite (leaf_set_entry_of _ _ _ _ _ _ _ Hset), decide_False by by vm_compute.
    unfold entry_of, leaf_entry, sample_tables. rewrite lookup_singleton_ne; [done|].
    vm_compute. discriminate.
Defined.
