(* ===== verification/Caching.v ===== *)
(** * Caching of mapped pages: [cpu/cpu.hpp] with [paging.cpp]

    A page-table entry chooses one of the eight memory types of the page
    attribute table, the register that [enable_pat] fills.  Here the table and
    the flags of [PageMap::parse_flags] are put together: which type a page has
    that was mapped with some flags. *)
From S2P Require Import Prelude Mem Addr Paging.

(** ** Model-specific registers *)

Definition MSR_PAT : Z := 0x277.
Definition PAT_FORCE_UNCACHABLE : Z := 0.
Definition PAT_WRITE_COMBINING : Z := 1.
Definition PAT_WRITE_THROUGH : Z := 4.
Definition PAT_WRITE_PROTECT : Z := 5.
Definition PAT_WRITE_BACK : Z := 6.
Definition PAT_UNCACHABLE : Z := 7.

Definition DEFAULT_PAT : Z :=
  Z.lor (Z.lor (Z.lor (Z.lor (Z.lor (Z.shiftl PAT_UNCACHABLE 56) (Z.shiftl PAT_WRITE_BACK 48))
    (Z.shiftl PAT_WRITE_PROTECT 40)) (Z.shiftl PAT_WRITE_THROUGH 32))
    (Z.shiftl PAT_WRITE_COMBINING 24)) (Z.shiftl PAT_FORCE_UNCACHABLE 16).

(** The registers by number; [rdmsr] and [wrmsr] move them through [edx:eax]. *)
Abbreviation msrs := (gmap Z Z) (only parsing).

Definition wrmsr (ecx edx eax : Z) (s : msrs) : msrs := <[ecx := 2 ^ 32 * edx + eax]> s.
Definition rdmsr (ecx : Z) (s : msrs) : Z * Z :=
  let v := default 0 (s !! ecx) in (v / 2 ^ 32, v mod 2 ^ 32).

Definition read_msr (msr : Z) (s : msrs) : Z :=
  let '(edx, eax) := rdmsr msr s in Z.lor (u64 (Z.shiftl edx 32)) eax.

Definition write_msr (msr value : Z) (s : msrs) : msrs :=
  let edx := u32 (Z.shiftr value 32) in
  let eax := u32 value in
  wrmsr msr edx eax s.

Definition enable_pat (s : msrs) : msrs := write_msr MSR_PAT DEFAULT_PAT s.

(** ** What the processor makes of an entry *)

Inductive memory_type :=
  | Uncacheable
  | WriteCombining
  | WriteThrough
  | WriteProtected
  | WriteBack
  | UncachedMinus
  | ReservedType.

#[global] Instance memory_type_eq_dec : EqDecision memory_type.
Proof. solve_decision. Defined.

(** Three bits of the page attribute table. *)
Definition type_of_code (c : Z) : memory_type :=
  if c =? 0 then Uncacheable else if c =? 1 then WriteCombining
  else if c =? 4 then WriteThrough else if c =? 5 then WriteProtected
  else if c =? 6 then WriteBack else if c =? 7 then UncachedMinus else ReservedType.

(** The index of an entry's type: its bits 3 and 4, and bit 7 in an entry for a
    page of 4 KiB, bit 12 in one for a larger page. *)
Definition pat_index (large : bool) (entry : Z) : Z :=
  Z.b2z (Z.testbit entry 3) + 2 * Z.b2z (Z.testbit entry 4) +
  4 * Z.b2z (Z.testbit entry (if large then 12 else 7)).

Definition entry_type (pat : Z) (large : bool) (entry : Z) : memory_type :=
  type_of_code ((pat / 2 ^ (8 * pat_index large entry)) mod 2 ^ 3).

(** * Lemmas *)

Lemma read_write_msr msr v s : 0 ≤ v < 2 ^ 64 → read_msr msr (write_msr msr v s) = v.
Proof.
  intros Hv. unfold read_msr, write_msr, rdmsr, wrmsr. rewrite lookup_insert_eq; cbn [default from_option id].
  rewrite Z.shiftr_div_pow2 by lia. rewrite (u32_small (v / 2 ^ 32)) by dlia.
  assert (2 ^ 32 * (v / 2 ^ 32) + u32 v = v) as -> by (unfold u32; dlia).
  rewrite Z.shiftl_mul_pow2, u64_small by (lia || dlia).
  rewrite <-Z.shiftl_mul_pow2 by lia. rewrite Z.lor_comm, <-Z.land_ones by lia.
  apply Z.bits_inj'. intros k Hk. rewrite Z.lor_spec, Z.land_spec, Z.shiftl_spec by done.
  destruct (Z.ltb_spec k 32).
  - rewrite Z.ones_spec_low, Z.testbit_neg_r with (n := k - 32) by lia.
    by rewrite andb_true_r, orb_false_r.
  - rewrite Z.ones_spec_high, andb_false_r by lia. cbn [orb].
    rewrite Z.div_pow2_bits by lia. f_equal. lia.
Qed.

Lemma read_write_msr_ne msr msr' v s :
  msr ≠ msr' → read_msr msr' (write_msr msr v s) = read_msr msr' s.
Proof.
  intros Hn. unfold read_msr, write_msr, rdmsr, wrmsr. by rewrite lookup_insert_ne.
Qed.

Lemma or_if_testbit c bit ret k :
  Z.testbit (or_if c bit ret) k = (c && Z.testbit bit k) || Z.testbit ret k.
Proof. unfold or_if. destruct c; cbn [andb orb]; [by rewrite Z.lor_spec, orb_comm|done]. Qed.

(** The permissions leave the bits of the caching alone, but for the page-size
    bit. *)
Lemma virt_parse_flags_bits flags :
  Z.testbit (virt_parse_flags flags) 3 = false ∧ Z.testbit (virt_parse_flags flags) 4 = false ∧
  Z.testbit (virt_parse_flags flags) 12 = false ∧
  Z.testbit (virt_parse_flags flags) 7 = has flags MAP_PAGE_1GB || has flags MAP_PAGE_2MB.
Proof.
  unfold virt_parse_flags. rewrite !or_if_testbit.
  split_and!; cbn -[has]; by rewrite ?andb_false_r, ?andb_true_r, ?orb_false_r.
Qed.

(** The index a page's flags choose. *)
Lemma pat_index_flags flags :
  pat_index (PAGE_SIZE <? flag_to_page_size flags) (parse_flags flags) =
  if has flags MAP_MMIO then 2
  else if has flags MAP_WRITE_COMBINING then 3
  else if has flags MAP_WRITE_THROUGH then 4
  else if has flags MAP_WRITE_BACK then 6
  else if has flags MAP_NO_CACHE then 7
  else 0.
Proof.
  unfold pat_index, parse_flags. rewrite !Z.lor_spec.
  destruct (virt_parse_flags_bits flags) as (-> & -> & H12 & H7). rewrite !orb_false_r.
  change MAP_WRITE_THROUGH with MAP_PAGE_2MB in *.
  unfold parse_cache. change MAP_PROTECTED with MAP_MMIO. change MAP_WRITE_THROUGH with MAP_PAGE_2MB.
  unfold flag_to_page_size.
  destruct (has flags MAP_PAGE_1GB), (has flags MAP_PAGE_2MB); cbn [orb] in H7;
    cbn [PAGE_SIZE]; try change (PAGE_SIZE <? PAGE_SIZE_1GiB) with true;
    try change (PAGE_SIZE <? PAGE_SIZE_2MiB) with true;
    try change (PAGE_SIZE <? PAGE_SIZE) with false; cbv iota; rewrite ?H12, ?H7, ?orb_false_r;
    repeat match goal with |- context [has flags ?m] => destruct (has flags m) end; reflexivity.
Qed.

(** * Properties *)

(** With the table that [enable_pat] installs, the flags a page is mapped
    with decide its memory type like this, for pages of every size.  The values
    of [virtual.hpp] collide: every page of 2 MiB that is not device memory or
    write-combining is write-through, whatever else is asked for,
    [MAP_PROTECTED] makes device memory, and no page is ever write-protected.  A
    page with no caching flag is not cached. *)
Theorem caching_of_flags s flags :
  let t := entry_type (read_msr MSR_PAT (enable_pat s))
             (PAGE_SIZE <? flag_to_page_size flags) (parse_flags flags) in
  (t = if has flags MAP_MMIO then Uncacheable
       else if has flags MAP_WRITE_COMBINING then WriteCombining
       else if has flags MAP_WRITE_THROUGH then WriteThrough
       else if has flags MAP_WRITE_BACK then WriteBack
       else if has flags MAP_NO_CACHE then UncachedMinus
       else Uncacheable) ∧
  (has flags MAP_PAGE_2MB = true → t ≠ WriteBack) ∧
  (has flags MAP_PROTECTED = true → t = Uncacheable) ∧ t ≠ WriteProtected.
Proof.
  unfold enable_pat. rewrite read_write_msr by (vm_compute; intuition discriminate).
  unfold entry_type. rewrite pat_index_flags.
  change MAP_PAGE_2MB with MAP_WRITE_THROUGH. change MAP_PROTECTED with MAP_MMIO.
  repeat match goal with |- context [has flags ?m] => destruct (has flags m) end;
    cbv zeta; split_and!; by vm_compute.
Qed.
