(* ===== verification/Translate.v ===== *)
(** * Address translation

    What the page tables mean to the processor: its page walk, as the manual of
    the architecture describes it, over the memory in which the page map is, and
    what the operations on single pages do to it.  [PagingMap] says which entries
    they write; here the entries of all levels, their permissions and the memory
    type come together.  Physical address [p] is the byte at [hhdm_offset + p]. *)
From S2P Require Import Prelude Mem Lock Addr Physical Frames Paging PagingWalk PagingMap.
From S2P Require Import PagingRange Caching.

(** ** The processor's page walk *)

Record page_rights := Rights { may_write : bool; may_user : bool; may_execute : bool }.
Record translation := Translation {
  tn_address : Z;
  tn_rights : page_rights;
  tn_global : bool;
  tn_type : memory_type;
}.

Definition all_rights : page_rights := Rights true true true.

(** Every entry on the way restricts the rights. *)
Definition restrict (r : page_rights) (v : Z) : page_rights :=
  Rights (may_write r && Z.testbit v 1) (may_user r && Z.testbit v 2)
    (may_execute r && negb (Z.testbit v 63)).

(** Bits 12 to 51. *)
Definition entry_frame (v : Z) : Z := v / 2 ^ 12 mod 2 ^ 40.

(** The page of [2 ^ (12 + 9 * n)] bytes that entry [v] maps. *)
Definition page_at (pat : Z) (n : nat) (v va : Z) (r : page_rights) : translation :=
  let size := 2 ^ (12 + 9 * Z.of_nat n) in
  Translation (entry_frame v * 2 ^ 12 / size * size + va mod size) r (Z.testbit v 8)
    (entry_type pat (0 <? n)%nat v).

Section walk.
Context `{hh : Hhdm, pmode : PagingMode}.

(** The walk from the table at physical address [table], [n] levels above the
    last.  Bit 0 is the present bit; bit 7 above the last level makes the entry
    map a page of 2 MiB or 1 GiB, and is reserved further up.  [pat] is the page
    attribute table. *)
Fixpoint page_walk (pat : Z) (m : mem) (n : nat) (table va : Z) (r : page_rights) :
    option translation :=
  match ld64 m (hhdm_offset + table + 8 * (va / 2 ^ (12 + 9 * Z.of_nat n) mod 512)) with
  | Ok v =>
      if negb (Z.testbit v 0) then None else
      let r := restrict r v in
      match n with
      | O => Some (page_at pat 0 v va r)
      | S n' =>
          if Z.testbit v 7 then if (n <=? 2)%nat then Some (page_at pat n v va r) else None
          else page_walk pat m n' (entry_frame v * 2 ^ 12) va r
      end
  | _ => None
  end.

(** Addresses whose bits above those translated repeat the highest of these. *)
Definition half_space : Z := 2 ^ (11 + 9 * Z.of_nat levels).
Definition canonical (va : Z) : Prop :=
  0 ≤ va < half_space ∨ 2 ^ 64 - half_space ≤ va < 2 ^ 64.

#[global] Instance canonical_dec va : Decision (canonical va).
Proof. unfold canonical. apply _. Defined.

(** What [va] translates to, with the page map in CR3. *)
Definition translate {A} `{FrameOps A} (pat : Z) (s : vm A) (va : Z) : option translation :=
  if decide (canonical va)
  then page_walk pat (vm_mem s) (pred levels) (from_higher_half (top_lvl_ s)) va all_rights
  else None.

(** Canonical addresses the tables cannot tell apart are of one page. *)
Lemma canonical_page va va' :
  canonical va → canonical va' →
  page_number va = page_number va' ↔ va / PAGE_SIZE = va' / PAGE_SIZE.
Proof.
  unfold canonical, page_number, half_space, levels, PAGE_SIZE. intros Hc Hc'.
  destruct is_paging_mode_max; change (11 + 9 * Z.of_nat 5) with 56 in *;
    change (11 + 9 * Z.of_nat 4) with 47 in *; change (9 * Z.of_nat 5) with 45;
    change (9 * Z.of_nat 4) with 36; (split; intros He; [dlia|by rewrite He]).
Qed.

Lemma canonical_same_page va va' :
  canonical va → va' / PAGE_SIZE = va / PAGE_SIZE → canonical va'.
Proof.
  unfold canonical, half_space, levels, PAGE_SIZE. intros Hc He.
  destruct is_paging_mode_max; change (11 + 9 * Z.of_nat 5) with 56 in *;
    change (11 + 9 * Z.of_nat 4) with 47 in *; dlia.
Qed.

(** Indices of a walk, from level [n] down to level 1. *)
Fixpoint walk_indices (va : Z) (n : nat) : list Z :=
  match n with
  | O => []
  | S n' => digit (va / PAGE_SIZE) (Z.of_nat n) :: walk_indices va n'
  end.

Lemma table_path_indices va : table_path va = walk_indices va (pred levels).
Proof.
  unfold table_path, levels.
  change 48 with (12 + 9 * 4). change 39 with (12 + 9 * 3). change 30 with (12 + 9 * 2).
  change 21 with (12 + 9 * 1). rewrite !GET_PML_ENTRY_eq by lia.
  by destruct is_paging_mode_max.
Qed.

Lemma walk_index va n : va / 2 ^ (12 + 9 * Z.of_nat n) mod 512 = digit (va / PAGE_SIZE) (Z.of_nat n).
Proof.
  unfold digit, PAGE_SIZE. change 0x1000 with (2 ^ 12).
  rewrite Z.pow_add_r, Z.div_div by lia. done.
Qed.
End walk.

(** What a leaf entry says, when no entry above it restricts anything. *)
Definition leaf_translation (pat v va : Z) : option translation :=
  if Z.testbit v 0 then Some (page_at pat 0 v va (restrict all_rights v)) else None.

(** ** The walk over a tree of tables *)

Section tree.
Context {A : Type} `{hh : Hhdm, pmode : PagingMode, fo : FrameOps A}.
Context `{fl : !FrameLaws A}.

Lemma entry_frame_address v : entry_frame v * 2 ^ 12 = entry_get_address v.
Proof using Type.
  unfold entry_frame, entry_get_address. change PAGE_ADDR_MASK with (Z.shiftl (Z.ones 40) 12).
  rewrite <-Z.shiftr_div_pow2, <-Z.shiftl_mul_pow2, <-Z.land_ones by lia.
  rewrite Z.shiftl_land. apply Z.bits_inj'. intros k Hk.
  rewrite !Z.land_spec, !Z.shiftl_spec by lia. destruct (decide (12 ≤ k)).
  - by rewrite Z.shiftr_spec, Z.sub_add by lia.
  - by rewrite !(Z.testbit_neg_r _ (k - 12)), !andb_false_r by lia.
Qed.

(** A table below an absent one is absent. *)
Lemma tables_below_absent s T q l : tree_ok s T → T !! q = None → T !! (q ++ l) = None.
Proof.
  intros Ht Hq. induction l as [|i l IH] using rev_ind; [by rewrite app_nil_r|].
  rewrite app_assoc. destruct (T !! ((q ++ l) ++ [i])) as [g|] eqn:E; [|done].
  destruct (tr_closed _ _ Ht (q ++ l) i) as [[? ?] _]; [by eexists|congruence].
Qed.

Lemma unrestricted_rights v g : points_to v g → restrict all_rights v = all_rights.
Proof using Type.
  intros (_ & _ & _ & Hw & Hu & Hx). unfold PAGE_FLAG_WRITABLE, PAGE_FLAG_USER_ACCESSIBLE,
    PAGE_FLAG_NO_EXECUTE in *. rewrite flag_bit in Hw, Hu, Hx by lia.
  unfold restrict, all_rights. cbn [may_write may_user may_execute]. by rewrite Hw, Hu, Hx.
Qed.

Lemma points_to_bits v g :
  points_to v g → Z.testbit v 0 = true ∧ Z.testbit v 7 = false ∧ entry_frame v * 2 ^ 12 = g * PAGE_SIZE.
Proof using Type.
  intros (Hv & Hl & Ha & _). unfold is_valid, is_large, PAGE_FLAG_PRESENT, PAGE_FLAG_SIZE_EXTENSION in *.
  rewrite flag_bit in Hv, Hl by lia. by rewrite entry_frame_address.
Qed.

(** The word the processor reads at index [i] of the table in frame [f]. *)
Lemma walk_address f i : hhdm_offset + f * PAGE_SIZE + 8 * i = entry_addr f i.
Proof using Type. done. Qed.

Lemma page_walk_tree pat s T va :
  tree_ok s T → ∀ n p f, T !! p = Some f → (length p + S n = levels)%nat →
  page_walk pat (vm_mem s) n (f * PAGE_SIZE) va all_rights =
  leaf_translation pat
    (leaf_entry s T (p ++ walk_indices va n) (digit (va / PAGE_SIZE) 0)) va.
Proof.
  intros Ht. induction n as [|n IH]; intros p f Hp Hlen; cbn [page_walk];
    rewrite walk_index, walk_address;
    assert (∀ k, 0 ≤ digit (va / PAGE_SIZE) k < 512) as Hd by (intros; by apply Z.mod_pos_bound).
  - destruct (tr_frame _ _ Ht p f Hp) as (_ & Hf & _). cbn [walk_indices].
    rewrite app_nil_r. change (Z.of_nat 0) with 0. unfold leaf_entry. rewrite Hp. destruct (returns_inv (ld64 (vm_mem s)
      (entry_addr f (digit (va / PAGE_SIZE) 0))) (λ _, True)) as (v & -> & _).
    { apply ld64_returns; [|apply fr_bytes, Ht|done]. apply entry_mapped; [apply Ht|done|done]. }
    unfold leaf_translation. by destruct (Z.testbit v 0).
  - set (i := digit _ (Z.of_nat (S n))).
    destruct (tr_entry _ _ Ht p f i Hp ltac:(lia) (Hd _)) as (v & -> & Hv).
    cbn [walk_indices]. fold i. rewrite cons_middle, app_assoc.
    destruct (T !! (p ++ [i])) as [g|] eqn:Hg.
    + destruct (points_to_bits v g Hv) as (-> & -> & ->). cbn [negb].
      rewrite (unrestricted_rights v g Hv). apply IH; [done|]. rewrite length_app. simpl. lia.
    + subst v. cbn [negb Z.testbit]. unfold leaf_entry.
      by rewrite (tables_below_absent s T) by done.
Qed.

(** The processor's view of an address is that of its leaf entry. *)
Lemma translate_entry pat s T va :
  tree_ok s T → canonical va → translate pat s va = leaf_translation pat (entry_of s T va) va.
Proof.
  intros Ht Hc. unfold translate. rewrite decide_True by done.
  destruct (tr_root _ _ Ht) as (f & Hf & ->). destruct (tr_frame _ _ Ht _ _ Hf) as (_ & Hff & _).
  destruct (frame_facts s f (tr_frames _ _ Ht) Hff) as (? & ? & ? & ? & ? & _).
  replace (from_higher_half (frame_base f)) with (f * PAGE_SIZE).
  2: { destruct (frame_pointer s f (tr_frames _ _ Ht) Hff) as [<- _].
       unfold frame_base, PAGE_SIZE in *. rewrite from_to_higher_half_low; lia. }
  rewrite (page_walk_tree pat s T va Ht (pred levels) [] f Hf).
  - unfold entry_of, leaf_index. rewrite table_path_indices.
    by rewrite <-(GET_PML_ENTRY_eq va 0) by lia.
  - unfold levels. by destruct is_paging_mode_max.
Qed.
End tree.

(** ** Pages mapped with flags *)

(** The memory type of the flags of a 4 KiB page. *)
Definition flags_type (flags : Z) : memory_type :=
  if has flags MAP_MMIO then Uncacheable
  else if has flags MAP_WRITE_COMBINING then WriteCombining
  else if has flags MAP_WRITE_BACK then WriteBack
  else if has flags MAP_NO_CACHE then UncachedMinus
  else Uncacheable.

(** What an address of a page mapped to frame [f] with [flags] translates to. *)
Definition page_translation (flags f va : Z) : option translation :=
  if has flags MAP_READ then
    Some (Translation (f * PAGE_SIZE + va mod PAGE_SIZE)
            (Rights (has flags MAP_WRITE) (has flags MAP_USER) (has flags MAP_EXEC))
            (has flags MAP_GLOBAL) (flags_type flags))
  else None.

Lemma parse_cache_bits flags k :
  k = 0 ∨ k = 1 ∨ k = 2 ∨ k = 8 ∨ k = 63 → Z.testbit (parse_cache flags PAGE_SIZE) k = false.
Proof.
  intros Hk. unfold parse_cache. change (PAGE_SIZE <? PAGE_SIZE) with false. cbv iota.
  destruct Hk as [->|[->|[->|[->| ->]]]]; by repeat case_match.
Qed.

Lemma parse_flags_rights flags :
  small_flags flags →
  let v := parse_flags flags in
  Z.testbit v 0 = has flags MAP_READ ∧ Z.testbit v 1 = has flags MAP_WRITE ∧
  Z.testbit v 2 = has flags MAP_USER ∧ Z.testbit v 63 = negb (has flags MAP_EXEC) ∧
  Z.testbit v 8 = has flags MAP_GLOBAL.
Proof.
  intros Hs v. unfold v, parse_flags. rewrite (small_page_size flags Hs), !Z.lor_spec.
  rewrite !parse_cache_bits by tauto. unfold virt_parse_flags. rewrite !or_if_testbit.
  split_and!; cbn -[has]; by rewrite ?andb_false_r, ?andb_true_r, ?orb_false_r.
Qed.

Lemma small_flags_type flags :
  small_flags flags → entry_type DEFAULT_PAT false (parse_flags flags) = flags_type flags.
Proof.
  intros Hs. pose proof (pat_index_flags flags) as Hp. destruct Hs as [H1 H2].
  rewrite (small_page_size flags) in Hp by by split. change (PAGE_SIZE <? PAGE_SIZE) with false in Hp.
  change MAP_WRITE_THROUGH with MAP_PAGE_2MB in Hp. rewrite H2 in Hp.
  unfold entry_type, flags_type. rewrite Hp.
  repeat match goal with |- context [has flags ?m] => destruct (has flags m) end; by vm_compute.
Qed.

Lemma page_at_small pat v va r :
  page_at pat 0 v va r =
  Translation (entry_get_address v + va mod PAGE_SIZE) r (Z.testbit v 8) (entry_type pat false v).
Proof.
  unfold page_at. rewrite <-entry_frame_address. change (2 ^ (12 + 9 * Z.of_nat 0)) with (2 ^ 12).
  by rewrite Z.div_mul by done.
Qed.

Lemma mapped_translation flags f va :
  small_flags flags → 0 ≤ f * PAGE_SIZE < 2 ^ 52 →
  leaf_translation DEFAULT_PAT (Z.lor (f * PAGE_SIZE) (parse_flags flags)) va =
  page_translation flags f va.
Proof.
  intros Hs Hf. destruct (parse_flags_rights flags Hs) as (H0 & H1 & H2 & H63 & H8).
  unfold leaf_translation, page_translation. rewrite frame_bit, H0 by lia.
  destruct (has flags MAP_READ); [|done]. rewrite page_at_small.
  rewrite address_of_frame by (try apply parse_flags_bits; done). unfold restrict, all_rights.
  cbn [may_write may_user may_execute]. rewrite !frame_bit, H1, H2, H63, H8 by lia.
  rewrite negb_involutive, <-(small_flags_type flags Hs). do 2 f_equal.
  unfold entry_type, pat_index. by rewrite !frame_bit by lia.
Qed.

(** ** A page set in the tables *)

Section set.
Context {A : Type} `{hh : Hhdm, pmode : PagingMode, fo : FrameOps A}.
Context `{fl : !FrameLaws A}.

(** Setting the entry of one page changes what this page translates to, and no
    other address. *)
Lemma leaf_set_translate pat s T va v s' T' va' :
  tree_ok s T → canonical va → leaf_set s T va v s' T' →
  translate pat s' va' =
  if decide (va' / PAGE_SIZE = va / PAGE_SIZE) then leaf_translation pat v va'
  else translate pat s va'.
Proof.
  intros Ht Hc Hset. destruct (decide (canonical va')) as [Hc'|Hn].
  - rewrite !(translate_entry pat _ _ va') by (apply Hset || done).
    rewrite (leaf_set_entry_of _ _ _ _ _ _ _ Hset). pose proof (canonical_page va' va Hc' Hc).
    repeat case_decide; try done; tauto.
  - unfold translate. rewrite !(decide_False (P := canonical va')) by done.
    case_decide as Hp; [|done].
    exfalso. by apply Hn, (canonical_same_page va).
Qed.

(** A page mapped to frame [f]. *)
Lemma leaf_set_mapped s T va f flags s' T' va' :
  tree_ok s T → canonical va → small_flags flags → 0 ≤ f * PAGE_SIZE < 2 ^ 52 →
  leaf_set s T va (Z.lor (f * PAGE_SIZE) (parse_flags flags)) s' T' →
  translate DEFAULT_PAT s' va' =
  if decide (va' / PAGE_SIZE = va / PAGE_SIZE) then page_translation flags f va'
  else translate DEFAULT_PAT s va'.
Proof.
  intros. rewrite (leaf_set_translate _ s T va _ s' T') by done. by rewrite mapped_translation.
Qed.

(** A range of pages: page [k] translates by its entry, other addresses as before. *)
Lemma range_set_translate pat s T start n v s' T' va' :
  tree_ok s T → (∀ k, 0 ≤ k < n → canonical (start + k * PAGE_SIZE)) →
  range_set s T start n v s' T' →
  (∀ k, 0 ≤ k < n → va' / PAGE_SIZE = (start + k * PAGE_SIZE) / PAGE_SIZE →
     translate pat s' va' = leaf_translation pat (v k) va') ∧
  ((∀ k, 0 ≤ k < n → va' / PAGE_SIZE ≠ (start + k * PAGE_SIZE) / PAGE_SIZE) →
     translate pat s' va' = translate pat s va').
Proof.
  intros Ht Hc [Ht' _ _ Hpg Hoth _]. split.
  - intros k Hk He. pose proof (canonical_same_page _ _ (Hc k Hk) He) as Hc'.
    rewrite (translate_entry pat _ _ va') by done. f_equal. rewrite <-(Hpg k Hk).
    apply canonical_page, page_key in He as [E1 E2]; [|done|by apply Hc].
    unfold entry_of. by rewrite E1, E2.
  - intros Hne. destruct (decide (canonical va')) as [Hc'|Hn].
    + rewrite !(translate_entry pat _ _ va') by done. f_equal. apply Hoth. intros k Hk He.
      apply (Hne k Hk). by apply canonical_page; [|apply Hc|].
    + unfold translate. by rewrite !(decide_False (P := canonical va')) by done.
Qed.
End set.

(** * Properties *)

(** C9. Mapping a page, as the processor sees it.  In a well-formed tree of tables
    [map_page] of a canonical address panics for want of memory or succeeds, and
    then the processor's walk of the tables translates every address of the page
    to the same place in the frame, with exactly the rights and the memory type
    the flags ask for (nothing at all without [MAP_READ]), and every other
    address, the aliases of the page included, as it did before. *)
Theorem map_page_translation `{hh : Hhdm, pmode : PagingMode, fo : FrameOps A, !FrameLaws A}
    (s : vm A) T va f flags :
  tree_ok s T → lock_free (lock_ s) → small_flags flags → 0 ≤ f * PAGE_SIZE < 2 ^ 52 →
  canonical va →
  or_panics (map_page va (f * PAGE_SIZE) flags s) (λ '(s', r), r = SYSTEM_OK ∧ ∀ va',
    translate DEFAULT_PAT s' va' =
    if decide (va' / PAGE_SIZE = va / PAGE_SIZE) then page_translation flags f va'
    else translate DEFAULT_PAT s va').
Proof.
  intros Ht Hl Hs Hf Hc. apply (map_page_or_panics s T); [done..|lia|].
  intros s' T' Hset _ _. split; [done|]. intros va'. by apply (leaf_set_mapped s T va f flags s' T').
Qed.

(** C22. Mapping a range of pages, as the processor sees it: page [k] of the range
    translates to the frame [k] places behind the first, with the rights and the
    memory type of the flags, and addresses of other pages as before. *)
Theorem map_pages_translation `{hh : Hhdm, pmode : PagingMode, fo : FrameOps A, !FrameLaws A}
    (s : vm A) T va f n flags :
  tree_ok s T → lock_free (lock_ s) → small_flags flags → 0 ≤ n ≤ all_pages →
  0 ≤ va → va + n * PAGE_SIZE ≤ 2 ^ 64 → n * PAGE_SIZE + PAGE_SIZE < 2 ^ 64 →
  0 ≤ f → (f + n) * PAGE_SIZE ≤ 2 ^ 52 →
  (∀ k, 0 ≤ k < n → canonical (va + k * PAGE_SIZE)) →
  or_panics (map_pages va (f * PAGE_SIZE) (n * PAGE_SIZE) flags s) (λ '(s', r), r = SYSTEM_OK ∧
    ∀ va', (∀ k, 0 ≤ k < n → va' / PAGE_SIZE = (va + k * PAGE_SIZE) / PAGE_SIZE →
              translate DEFAULT_PAT s' va' = page_translation flags (f + k) va') ∧
           ((∀ k, 0 ≤ k < n → va' / PAGE_SIZE ≠ (va + k * PAGE_SIZE) / PAGE_SIZE) →
              translate DEFAULT_PAT s' va' = translate DEFAULT_PAT s va')).
Proof.
  intros Ht Hl Hs Hn Hva Htop Hsz Hf Hft Hc.
  assert (0 ≤ f * PAGE_SIZE ∧ f * PAGE_SIZE + n * PAGE_SIZE ≤ 2 ^ 64) as [? ?]
    by (unfold PAGE_SIZE in *; lia).
  eapply (map_pages_or_panics s T); [done..|]. intros s' T' Hset. split; [done|]. intros va'.
  destruct (range_set_translate DEFAULT_PAT s T va n _ s' T' va' Ht Hc Hset) as [Hin Hout].
  split; [|exact Hout]. intros k Hk He. rewrite (Hin k Hk He).
  replace (f * PAGE_SIZE + k * PAGE_SIZE) with ((f + k) * PAGE_SIZE) by lia.
  apply mapped_translation; [done|]. unfold PAGE_SIZE in *. lia.
Qed.

(** C23. Changing a page's flags.  [setflags_page] panics for want of memory or gives
    the page the rights and the memory type of the new flags, in the frame its
    entry has, and no other page changes.  It asks neither whether the page is
    mapped, so that one that is not comes to show frame 0, nor the processor to
    forget the old translation: nothing is invalidated. *)
Theorem setflags_page_translation `{hh : Hhdm, pmode : PagingMode, fo : FrameOps A, !FrameLaws A}
    (s : vm A) T va flags :
  tree_ok s T → lock_free (lock_ s) → small_flags flags → canonical va →
  or_panics (setflags_page va flags s) (λ '(s', r), r = SYSTEM_OK ∧ vm_hw s' = vm_hw s ∧
    ∀ va', translate DEFAULT_PAT s' va' =
      if decide (va' / PAGE_SIZE = va / PAGE_SIZE)
      then page_translation flags (entry_frame (entry_of s T va)) va'
      else translate DEFAULT_PAT s va').
Proof.
  intros Ht Hl Hs Hc. apply (setflags_page_or_panics s T); [done..|].
  intros s' T' Hset _ Hhw. split_and!; [done|done|]. intros va'.
  fold (entry_of s T va) in Hset. pose proof (entry_get_address_range (entry_of s T va)) as Hr.
  rewrite <-entry_frame_address in Hr, Hset.
  by apply (leaf_set_mapped s T va (entry_frame (entry_of s T va)) flags s' T').
Qed.

(** Unmapping, as the processor sees it: the page has no translation any more, the
    processor is told to forget it, and no other page changes. *)
Theorem unmap_page_translation `{hh : Hhdm, pmode : PagingMode, fo : FrameOps A, !FrameLaws A}
    (s : vm A) T va flags :
  tree_ok s T → lock_free (lock_ s) → small_flags flags → is_Some (T !! table_path va) →
  canonical va →
  returns (unmap_page va flags s) (λ '(s', r), r = SYSTEM_OK ∧
    vm_hw s' = Invalidate va :: vm_hw s ∧
    ∀ va', translate DEFAULT_PAT s' va' =
      if decide (va' / PAGE_SIZE = va / PAGE_SIZE) then None else translate DEFAULT_PAT s va').
Proof.
  intros Ht Hl Hs [f Hf] Hc. apply (unmap_page_returns s T va flags f); [done..|].
  intros s' Hset _ Hhw _. split_and!; [done|done|]. intros va'.
  by rewrite (leaf_set_translate _ s T va _ s' T) by done.
Qed.

#[local] Existing Instance sample_hhdm.
#[local] Existing Instance sample_mode.
#[local] Opaque sample_pages.

(** A page of the direct map, writable, seen at one of its addresses. *)
Lemma map_page_translation_witness :
  or_panics (map_page 0xffff800000005000 (0x1234 * PAGE_SIZE)
               (Z.lor (Z.lor MAP_READ MAP_WRITE) MAP_WRITE_BACK) sample_vm) (λ '(s', _),
    translate DEFAULT_PAT s' 0xffff800000005678 =
      Some (Translation 0x1234678 (Rights true false false) false WriteBack)).
Proof.
  eapply or_panics_mono.
  - apply (map_page_translation sample_vm sample_tables).
    + exact sample_tree.
    + exact sample_lock_free.
    + split; reflexivity.
    + unfold PAGE_SIZE; lia.
    + apply (bool_decide_unpack _). by vm_compute.
  - intros [s' r] [_ Ht]. rewrite Ht. by vm_compute.
Defined.

(** Three executable pages; the last byte of the second one. *)
Lemma map_pages_translation_witness :
  or_panics (map_pages 0xffff800000005000 (0x1234 * PAGE_SIZE) (3 * PAGE_SIZE)
               (Z.lor MAP_READ MAP_EXEC) sample_vm) (λ '(s', _),
    translate DEFAULT_PAT s' 0xffff800000006fff =
      Some (Translation 0x1235fff (Rights false false true) false Uncacheable)).
Proof.
  eapply or_panics_mono.
  - apply (map_pages_translation sample_vm sample_tables).
    + exact sample_tree.
    + exact sample_lock_free.
    + split; reflexivity.
    + by vm_compute.
    + lia.
    + unfold PAGE_SIZE; lia.
    + unfold PAGE_SIZE; lia.
    + lia.
    + unfold PAGE_SIZE; lia.
    + intros k Hk. right. change half_space with (2 ^ 47). unfold PAGE_SIZE. lia.
  - intros [s' r] [_ Ht]. destruct (Ht 0xffff800000006fff) as [Hin _].
    rewrite (Hin 1) by (try lia; by vm_compute). by vm_compute.
Defined.

(** A page that was never mapped shows frame 0 after its flags were set. *)
Lemma setflags_page_translation_witness :
  or_panics (setflags_page 0xffff800000005000 MAP_READ sample_vm) (λ '(s', _),
    translate DEFAULT_PAT s' 0xffff800000005678 =
      Some (Translation 0x678 (Rights false false false) false Uncacheable)).
Proof.
  eapply or_panics_mono.
  - apply (setflags_page_translation sample_vm sample_tables).
    + exact sample_tree.
    + exact sample_lock_free.
    + split; reflexivity.
    + apply (bool_decide_unpack _). by vm_compute.
  - intros [s' r] (_ & _ & Ht). rewrite Ht. by vm_compute.
Defined.
