(* ===== verification/Virtual.v ===== *)
(** * Kernel address space: [kernel/memory/virtual.cpp]

    Start-up maps the direct map and the kernel in 4 KiB pages through
    [base_pagemap]; [virtual_allocate] looks for a run of pages without entries
    and maps fresh frames there; [virtual_free] unmaps and frees.  The code calls
    [map_page] inside [assert], so it maps only in debug builds, which are the
    ones modelled. *)
From S2P Require Import Prelude Mem MemCopy MemSet Lock Bitmap Addr Physical Frames Paging.
From S2P Require Import PagingWalk PagingMap PagingRange.

Section virtual.
Context {A : Type} `{hh : Hhdm, pmode : PagingMode, fo : FrameOps A}.

Definition FOUR_GIB : Z := PAGE_SIZE_1GiB * 4.

(** [assert(!base_pagemap.map_page(...))]. *)
Definition map_or_fail (va pa flags : Z) (s : vm A) : outcome (vm A) :=
  '(s, r) ← map_page va pa flags s;
  _ ← assert (r =? 0);
  Ok s.

(** The direct map of the first 4 GiB. *)
Definition map_low (s : vm A) : outcome (vm A) :=
  loop (S (S (Z.to_nat (FOUR_GIB / PAGE_SIZE))))
    (λ '(s, i),
       if i <? FOUR_GIB then
         s ← map_or_fail (to_higher_half i) i (Z.lor (Z.lor MAP_READ MAP_WRITE) MAP_WRITE_BACK) s;
         Ok (inl (s, u64 (i + PAGE_SIZE)))
       else Ok (inr s))
    (s, 0).

(** The part of one entry of the memory map above 4 GiB. *)
Definition map_entry (e : limine_memmap_entry) (s : vm A) : outcome (vm A) :=
  let base_ := align_down (base e) PAGE_SIZE in
  let top := align_up (u64 (base e + length_ e)) PAGE_SIZE in
  if top <? FOUR_GIB then Ok s else
  let cache := match type e with
               | LIMINE_MEMMAP_FRAMEBUFFER => MAP_WRITE_COMBINING
               | _ => MAP_WRITE_BACK
               end in
  let size := u64 (top - base_) in
  loop (S (S (Z.to_nat (size / PAGE_SIZE))))
    (λ '(s, j),
       if j <? u64 (base_ + size) then
         if j <? FOUR_GIB then Ok (inl (s, u64 (j + PAGE_SIZE))) else
         s ← map_or_fail (to_higher_half j) j (Z.lor (Z.lor MAP_READ MAP_WRITE) cache) s;
         Ok (inl (s, u64 (j + PAGE_SIZE)))
       else Ok (inr s))
    (s, base_).

Fixpoint map_entries (memmaps : list limine_memmap_entry) (s : vm A) : outcome (vm A) :=
  match memmaps with
  | [] => Ok s
  | e :: rest => s ← map_entry e s; map_entries rest s
  end.

Definition map_kernel (virtual_base physical_base size : Z) (s : vm A) : outcome (vm A) :=
  loop (S (S (Z.to_nat (size / PAGE_SIZE))))
    (λ '(s, i),
       if i <? size then
         s ← map_or_fail (u64 (virtual_base + i)) (u64 (physical_base + i))
               (Z.lor (Z.lor (Z.lor MAP_WRITE MAP_READ) MAP_EXEC) MAP_WRITE_BACK) s;
         Ok (inl (s, u64 (i + PAGE_SIZE)))
       else Ok (inr s))
    (s, 0).

Definition virtual_initialize (huge_page : bool) (memmaps : list limine_memmap_entry)
    (virtual_base physical_base kernel_size : Z) (s : vm A) : outcome (vm A) :=
  s ← initialize true huge_page 0 s;
  s ← map_low s;
  s ← map_entries memmaps s;
  s ← map_kernel virtual_base physical_base kernel_size s;
  Ok (load s).

(** ** [virtual_allocate] *)

(** The scan of one candidate range: the address it stopped at. *)
Definition scan_range (start size : Z) (s : vm A) : outcome (vm A * Z) :=
  loop (S (S (Z.to_nat (size / PAGE_SIZE))))
    (λ '(s, address),
       if address <? u64 (start + size) then
         '(s, entry) ← to_entry address false PAGE_SIZE true s;
         v ← load_entry entry s;
         if is_valid v then Ok (inr (s, address))
         else Ok (inl (s, u64 (address + PAGE_SIZE)))
       else Ok (inr (s, address)))
    (s, start).

(** Frames for a range; [false] is [goto failure]. *)
Definition fill_range (start size flags : Z) (s : vm A) : outcome (vm A * bool) :=
  loop (S (S (Z.to_nat (size / PAGE_SIZE))))
    (λ '(s, i),
       if i <? size then
         '(s, physical_address) ← allocate_frame s;
         '(s, r) ← map_page (u64 (start + i)) (u64 (physical_address + i)) flags s;
         if negb (r =? 0) then Ok (inr (s, false))
         else Ok (inl (s, u64 (i + PAGE_SIZE)))
       else Ok (inr (s, true)))
    (s, 0).

Definition virtual_allocate_between (base limit count flags : Z) (s : vm A) :
    outcome (vm A * Z) :=
  let size := u64 (count * PAGE_SIZE) in
  let end_ := u64 (limit - u64 (count * PAGE_SIZE)) in
  loop (S (S (Z.to_nat ((end_ - base) / PAGE_SIZE))))
    (λ '(s, start),
       '(s, address) ← scan_range start size s;
       if u64 (start + size) <=? address then
         '(s, ok) ← fill_range start size flags s;
         if ok : bool then Ok (inr (load s, start)) else Ok (inr (load s, 0))
       else
         let start := u64 (start + PAGE_SIZE) in
         if start <? end_ then Ok (inl (s, start)) else Ok (inr (load s, 0)))
    (s, base).

(** The range between the direct map's end and the kernel, from
    [physical_get_status] and the boot loader. *)
Definition virtual_allocate (highest_physical_addr kernel_virtual_base count flags : Z)
    (s : vm A) : outcome (vm A * Z) :=
  let virtual_base := to_higher_half highest_physical_addr in
  virtual_allocate_between virtual_base kernel_virtual_base count flags s.

(** ** [virtual_free] *)

Definition virtual_free (ptr count : Z) (s : vm A) : outcome (vm A) :=
  let address := align_down ptr PAGE_SIZE in
  loop (S (Z.to_nat count))
    (λ '(s, i),
       if i <? count then
         '(s, physical_address) ← virtual_to_physical address 0 s;
         if physical_address =? minus_one then Ok (inr s) else
         '(s, _) ← unmap_page address 0 s;
         a ← fr_free physical_address (vm_frames s);
         Ok (inl (load (set_frames a s), u64 (i + 1)))
       else Ok (inr s))
    (s, 0).
End virtual.

(** * Lemmas *)

Section lemmas.
Context {A : Type} `{hh : Hhdm, pmode : PagingMode, fo : FrameOps A}.
Context `{fl : !FrameLaws A}.

Lemma zero_small : small_flags 0.
Proof. by split. Qed.

(** Changing the frames but not the tables' contents keeps the tree. *)
Lemma tree_ok_frames (s : vm A) T a :
  tree_ok s T → fr_ok a → (∀ g, fr_frame (vm_frames s) g → fr_frame a g) →
  (∀ p g, T !! p = Some g → ¬ fr_avail a g) →
  (∀ x, ¬ fr_private (vm_frames s) x → fr_mem a !! x = fr_mem (vm_frames s) !! x) →
  tree_ok (set_frames a s) T ∧
  ∀ p i, T !! p ≠ None → 0 ≤ i < 512 → leaf_entry (set_frames a s) T p i = leaf_entry s T p i.
Proof.
  intros Ht Ha Hfr Hav Hmem.
  assert (∀ p f i, T !! p = Some f → 0 ≤ i < 512 →
    ld64 (fr_mem a) (entry_addr f i) = ld64 (vm_mem s) (entry_addr f i)) as Hsame.
  { intros p f i Hp Hi. apply ld64_same. intros x Hx. apply Hmem.
    destruct (tr_frame _ _ Ht _ _ Hp) as (_ & Hf & _).
    apply (fr_apart _ f); [apply Ht|done|by apply (entry_in_frame f i)]. }
  split.
  - destruct Ht as [? ? Hframe Hinj Hentry Hclosed]. split; try done.
    + intros p f Hp. destruct (Hframe p f Hp) as (? & ? & _).
      split_and!; [done|by apply Hfr|by eapply Hav].
    + intros p f i Hp Hl Hi. unfold vm_mem. simpl. rewrite (Hsame p f i) by done.
      by apply Hentry.
  - intros p i Hp Hi. unfold leaf_entry. destruct (T !! p) as [f|] eqn:E; [|done].
    unfold vm_mem at 1. simpl. by rewrite (Hsame p f i).
Qed.

(** A valid entry resolves a page-aligned address to its frame. *)
Lemma resolve_valid (s : vm A) T va f :
  is_valid (entry_of s T va) = true → entry_get_address (entry_of s T va) = f * PAGE_SIZE →
  va mod PAGE_SIZE = 0 → 0 ≤ f * PAGE_SIZE < 2 ^ 64 →
  resolve (entry_of s T va) va = f * PAGE_SIZE.
Proof.
  intros Hv Hf Ha Hr. unfold resolve. unfold is_valid in Hv. rewrite Hv, Hf, Ha.
  rewrite Z.add_0_r. by apply u64_small.
Qed.

(** Taking a frame leaves the tree alone. *)
Lemma taken_grown (s : vm A) T g s' : tree_ok s T → frame_taken s g s' → grown s T s' T.
Proof.
  intros Ht Hft. pose proof Hft as [].
  assert (∀ p f, T !! p = Some f → fr_frame (vm_frames s) f ∧ f ≠ g ∧ ¬ fr_avail (vm_frames s) f)
    as Hin.
  { intros p f Hp. destruct (tr_frame _ _ Ht p f Hp) as (_ & ? & ?). naive_solver. }
  destruct (tree_ok_kept s T s') as [Ht' Hleaf]; [done|done|done| | |].
  - intros p f Hp. destruct (Hin p f Hp) as (? & ? & ?). rewrite ft_avail. naive_solver.
  - intros p f i Hp Hi. destruct (Hin p f Hp) as (? & ? & ?). by apply ft_same.
  - split; try done; [by intros p j _ ?; apply Hleaf|]. split; auto.
    + intros h. rewrite ft_avail. tauto.
    + intros h j Hh Hn _ Hj. apply ft_same; [done| |done]. by intros ->.
Qed.

(** What [fill_range] has done from page [i] on: the frames [fs] it took. *)
Record filled (s : vm A) T (start i flags : Z) (fs : list Z) (s' : vm A) T' : Prop := Filled {
  fi_tree : tree_ok s' T';
  fi_sub : T ⊆ T';
  fi_lock : lock_free (lock_ s');
  fi_drawn : frames_drawn s T s' T';
  fi_distinct : NoDup fs;
  fi_frames : ∀ f, f ∈ fs → fr_avail (vm_frames s) f ∧ ¬ fr_avail (vm_frames s') f;
  fi_pages : ∀ k f, fs !! k = Some f →
    entry_of s' T' (start + (i + Z.of_nat k) * PAGE_SIZE) =
    Z.lor ((f + (i + Z.of_nat k)) * PAGE_SIZE) (parse_flags flags);
  fi_others : ∀ va, (∀ k, 0 ≤ k < Z.of_nat (length fs) →
      page_number va ≠ page_number (start + (i + k) * PAGE_SIZE)) →
    entry_of s' T' va = entry_of s T va;
}.

Lemma filled_nil (s : vm A) T start i flags :
  tree_ok s T → lock_free (lock_ s) → filled s T start i flags [] s T.
Proof.
  intros. split; try done; [apply frames_drawn_refl|constructor|].
  intros f Hf. by apply elem_of_nil in Hf.
Qed.

Lemma filled_cons (s : vm A) T start i flags g fs s1 s2 T2 s' T' :
  0 ≤ start → 0 ≤ i → Z.of_nat (length fs) < all_pages →
  tree_ok s T → frame_taken s g s1 →
  leaf_set s1 T (start + i * PAGE_SIZE) (Z.lor ((g + i) * PAGE_SIZE) (parse_flags flags)) s2 T2 →
  filled s2 T2 start (i + 1) flags fs s' T' →
  filled s T start i flags (g :: fs) s' T'.
Proof.
  intros Hst Hi Hlen Ht Hft Hset [? ? ? Hdr Hnd Hfr Hpg Hot].
  pose proof (taken_grown _ _ _ _ Ht Hft) as Hgr.
  pose proof (leaf_set_grown _ _ _ _ _ _ _ _ Hgr Hset) as Hls.
  pose proof (ls_drawn _ _ _ _ _ _ Hset) as Hd12. pose proof (ls_drawn _ _ _ _ _ _ Hls) as Hd.
  assert (¬ fr_avail (vm_frames s1) g) as Hng by (rewrite (ft_avail _ _ _ Hft); tauto).
  assert (∀ f, f ∈ fs → fr_avail (vm_frames s1) f) as Hin.
  { intros f Hf. by apply (fd_avail _ _ _ _ Hd12), Hfr. }
  split; try done.
  - etrans; [apply Hset|done].
  - by eapply frames_drawn_trans.
  - constructor; [|done]. auto.
  - intros f [->|Hf]%elem_of_cons.
    + split; [apply (ft_new _ _ _ Hft)|]. intros Hav. apply Hng.
      by apply (fd_avail _ _ _ _ Hd12), (fd_avail _ _ _ _ Hdr).
    + split; [|by apply Hfr]. by apply (ft_avail _ _ _ Hft), Hin.
  - intros [|k] f Hk; simpl in Hk.
    + injection Hk as ->. rewrite Z.add_0_r. rewrite Hot.
      * rewrite (leaf_set_entry_of _ _ _ _ _ _ _ Hls). by rewrite decide_True.
      * intros k Hk He%page_number_range; lia.
    + specialize (Hpg k f Hk). replace (i + Z.of_nat (S k)) with (i + 1 + Z.of_nat k) by lia.
      exact Hpg.
  - intros va Hva. simpl in Hva. rewrite Hot.
    + rewrite (leaf_set_entry_of _ _ _ _ _ _ _ Hls). rewrite decide_False; [done|].
      specialize (Hva 0). rewrite Z.add_0_r in Hva. apply Hva. lia.
    + intros k Hk. specialize (Hva (1 + k)). rewrite Z.add_assoc in Hva. apply Hva. lia.
Qed.

(** One turn of [virtual_free] on a present page. *)
Lemma free_page_returns {R} (s : vm A) T a f (k : vm A → R) (Q : R → Prop) :
  tree_ok s T → lock_free (lock_ s) → is_Some (T !! table_path a) →
  fr_frame (vm_frames s) f → ¬ fr_avail (vm_frames s) f → fr_spare (vm_frames s) →
  (∀ p, T !! p ≠ Some f) →
  (∀ s', tree_ok s' T → lock_free (lock_ s') →
    (∀ g, fr_avail (vm_frames s') g ↔ fr_avail (vm_frames s) g ∨ g = f) →
    (∀ va', is_Some (T !! table_path va') → entry_of s' T va' =
       if decide (page_number va' = page_number a) then 0 else entry_of s T va') → Q (k s')) →
  returns ('(s, _) ← unmap_page a 0 s;
           a ← fr_free (f * PAGE_SIZE) (vm_frames s);
           Ok (k (load (set_frames a s)))) Q.
Proof.
  intros Ht Hl [h Hh] Hff Hav Hsp Hnt HQ.
  bind_step. apply (unmap_page_returns _ T a 0 h); [done|done|done|done|].
  intros s1 Hset Hl1 _ [Hkf Hka Hks]. pose proof (ls_tree _ _ _ _ _ _ Hset) as Ht1.
  bind_step. eapply returns_mono.
  { apply fr_free_spec; [apply Ht1|by apply Hkf|by rewrite Hka|by apply Hks]. }
  intros a' (Hok & Havs & Hfrs & _ & Hmem). cbn [returns].
  destruct (tree_ok_frames s1 T a' Ht1 Hok Hfrs) as [Ht2 Hleaf]; [|done|].
  { intros p g Hp. rewrite Havs. destruct (tr_frame _ _ Ht1 _ _ Hp) as (_ & _ & Hn).
    intros [Hx| ->]; [done|]. by apply (Hnt p). }
  apply HQ.
  - by destruct Ht2.
  - done.
  - intros g. simpl. by rewrite Havs, Hka.
  - intros va' [h' Hh']. rewrite <-(leaf_set_entry_of _ _ _ _ _ _ va' Hset).
    apply Hleaf; [by rewrite Hh'|apply leaf_index_range].
Qed.
End lemmas.

(** * Properties *)

(** [fill_range], the second half of [virtual_allocate], panics or maps every
    page of its range, taking one frame for each; but it adds the page's offset
    to the frame's address: the page number [k] of the range is mapped to the
    frame [k] places behind the frame taken for it.  The frames are distinct and
    were available, and no other page's entry changes. *)
Theorem fill_range_maps_shifted `{hh : Hhdm, pmode : PagingMode, fo : FrameOps A, !FrameLaws A}
    (s : vm A) T start n flags :
  tree_ok s T → lock_free (lock_ s) → small_flags flags → 0 ≤ start → 0 ≤ n →
  n ≤ all_pages → start + n * PAGE_SIZE < 2 ^ 64 →
  or_panics (fill_range start (n * PAGE_SIZE) flags s) (λ '(s', ok), ok = true ∧
    ∃ T' fs, Z.of_nat (length fs) = n ∧ filled s T start 0 flags fs s' T').
Proof.
  intros Ht Hl Hs Hst Hn Hlv Hlim. pose proof all_pages_le. unfold fill_range.
  rewrite Z.div_mul by done. change 0 with (0 * PAGE_SIZE) at 1.
  assert (∀ m i s T (Q : vm A * bool → Prop), Z.of_nat m + i = n → 0 ≤ i →
    tree_ok s T → lock_free (lock_ s) →
    (∀ s' T' fs, length fs = m → filled s T start i flags fs s' T' → Q (s', true)) →
    or_panics (loop (S (S m)) (λ '(s, i),
       if i <? n * PAGE_SIZE then
         '(s, physical_address) ← allocate_frame s;
         '(s, r) ← map_page (u64 (start + i)) (u64 (physical_address + i)) flags s;
         if negb (r =? 0) then Ok (inr (s, false))
         else Ok (inl (s, u64 (i + PAGE_SIZE)))
       else Ok (inr (s, true))) (s, i * PAGE_SIZE)) Q) as Hloop.
  2: { apply (Hloop _ 0 s T); [lia|lia|done|done|]. intros s' T' fs Hlen Hf.
       split; [done|]. exists T', fs. split; [lia|done]. }
  clear s T Ht Hl. intros m. induction m as [|m IH]; intros i s T Q Hmi Hi Ht Hl HQ;
    simpl loop; apply or_panics_bind.
  { rewrite (proj2 (Z.ltb_ge _ _)) by (unfold PAGE_SIZE; lia). right. cbn [returns]. right.
    apply (HQ s T []); [done|by apply filled_nil]. }
  rewrite (proj2 (Z.ltb_lt _ _)) by (unfold PAGE_SIZE; lia).
  apply or_panics_bind, allocate_frame_or_panics; [apply Ht|]. intros s1 g Hft.
  apply or_panics_bind. pose proof (taken_grown _ _ _ _ Ht Hft) as Hgr.
  destruct (frame_facts s1 g (ft_ok _ _ _ Hft) (ft_frame _ _ _ Hft)) as (? & _ & _ & _ & _ & ?).
  rewrite !u64_small by (unfold PAGE_SIZE in *; lia).
  apply (map_page_or_panics s1 T); [apply Hgr|by rewrite (ft_lock _ _ _ Hft)|done| |].
  { unfold PAGE_SIZE in *; lia. }
  intros s2 T2 Hset Hl2 _. right. cbn [returns negb Z.eqb].
  replace (i * PAGE_SIZE + PAGE_SIZE) with ((i + 1) * PAGE_SIZE) by lia.
  apply (IH (i + 1) s2 T2); [lia|lia|apply Hset|done|].
  intros s' T' fs Hlen Hf. apply (HQ s' T' (g :: fs)); [by simpl; f_equal|].
  rewrite <-Z.mul_add_distr_r in Hset. eapply filled_cons; [lia..|done|done|done|done].
Qed.

(** [virtual_free] frees one page whatever its count.  Its loop never moves
    the address, and the second turn finds the page gone: of a present page
    whose frame is in use, and no table, it clears the entry, gives back the
    frame and keeps every other entry, for each count from one on. *)
Theorem virtual_free_frees_one `{hh : Hhdm, pmode : PagingMode, fo : FrameOps A, !FrameLaws A}
    (s : vm A) T ptr count f :
  tree_ok s T → lock_free (lock_ s) → 1 ≤ count < 2 ^ 64 → 0 ≤ ptr < 2 ^ 64 →
  is_Some (T !! table_path (align_down ptr PAGE_SIZE)) →
  is_valid (entry_of s T (align_down ptr PAGE_SIZE)) = true →
  entry_get_address (entry_of s T (align_down ptr PAGE_SIZE)) = f * PAGE_SIZE →
  fr_frame (vm_frames s) f → ¬ fr_avail (vm_frames s) f → fr_spare (vm_frames s) →
  (∀ p, T !! p ≠ Some f) →
  returns (virtual_free ptr count s) (λ s', tree_ok s' T ∧ lock_free (lock_ s') ∧
    (∀ g, fr_avail (vm_frames s') g ↔ fr_avail (vm_frames s) g ∨ g = f) ∧
    ∀ va', is_Some (T !! table_path va') → entry_of s' T va' =
      if decide (page_number va' = page_number (align_down ptr PAGE_SIZE)) then 0
      else entry_of s T va').
Proof.
  intros Ht Hl Hc Hptr Hpath Hv Hf Hff Hav Hsp Hnt.
  assert (align_down ptr PAGE_SIZE mod PAGE_SIZE = 0) as Ha0.
  { rewrite align_down_page by done. by apply Z.mod_mul. }
  unfold virtual_free. set (a := align_down ptr PAGE_SIZE) in *. destruct Hpath as [h Hh].
  destruct (frame_facts s f (tr_frames _ _ Ht) Hff) as (? & _ & _ & _ & _ & ?).
  destruct (Z.to_nat count) as [|n] eqn:En; [lia|]. cbn [loop].
  rewrite (proj2 (Z.ltb_lt 0 count)) by lia. bind_step. bind_step.
  apply (virtual_to_physical_returns s T a 0 h); [done|done|done|done|]. intros l Hlf.
  change (leaf_entry s T _ _) with (entry_of s T a).
  assert (0 ≤ f * PAGE_SIZE < 2 ^ 64) by (unfold PAGE_SIZE in *; lia).
  rewrite (resolve_valid s T a f) by done.
  replace (f * PAGE_SIZE =? minus_one) with false
    by (symmetry; apply Z.eqb_neq; change minus_one with (2 ^ 64 - 1); unfold PAGE_SIZE in *; lia).
  apply (free_page_returns (set_vm_lock l s) T a f (λ s, inl (s, u64 (0 + 1))));
    [by apply tree_ok_lock|done|by exists h|done..|].
  intros s1 Ht1 Hl1 Hav1 Hent1. bind_step.
  change (entry_of (set_vm_lock l s) T) with (entry_of s T) in Hent1.
  change (vm_frames (set_vm_lock l s)) with (vm_frames s) in Hav1.
  destruct (u64 (0 + 1) <? count) eqn:E1; cbn [returns]; [|done].
  bind_step. apply (virtual_to_physical_returns s1 T a 0 h); [done|done|done|done|].
  intros l' Hlf'. change (leaf_entry s1 T _ _) with (entry_of s1 T a).
  rewrite Hent1 by (by exists h). rewrite decide_True by done.
  cbn [returns]. split_and!; [by apply tree_ok_lock|done|exact Hav1|exact Hent1].
Qed.

#[local] Existing Instance sample_hhdm.
#[local] Existing Instance sample_mode.
#[local] Opaque sample_pages.

Lemma sample_frame_7 : fr_frame (vm_frames sample_vm) 7.
Proof. apply (sample_page_ok _ _ _ _ sample_143). lia. Qed.

Lemma sample_used_7 : ¬ fr_avail (vm_frames sample_vm) 7.
Proof.
  intros Hin. assert (7 ∈ pages 4 3) as Hin'%elem_of_pages; [|lia].
  rewrite <-(sample_free _ _ 4 3 _ sample_143). exact Hin.
Qed.

Lemma sample_spare : fr_spare (vm_frames sample_vm).
Proof. simpl. lia. Qed.

(** Page 7, in use, is mapped at 0x5000 and its mapping freed with a count of three. *)
Lemma virtual_free_frees_one_witness :
  or_panics (map_page 0x5000 (7 * PAGE_SIZE) (Z.lor MAP_READ MAP_WRITE) sample_vm)
    (λ '(s, _), returns (virtual_free 0x5678 3 s)
       (λ s', fr_avail (vm_frames s') 7)).
Proof.
  apply (map_page_or_panics sample_vm sample_tables).
  - exact sample_tree.
  - exact sample_lock_free.
  - split; reflexivity.
  - unfold PAGE_SIZE; lia.
  - intros s T Hset Hl _. pose proof (ls_drawn _ _ _ _ _ _ Hset) as Hd.
    assert (entry_of s T 0x5000 = Z.lor (7 * PAGE_SIZE) (parse_flags (Z.lor MAP_READ MAP_WRITE)))
      as Hent.
    { rewrite (leaf_set_entry_of _ _ _ _ _ _ _ Hset). by rewrite decide_True. }
    eapply returns_mono.
    + apply (virtual_free_frees_one s T 0x5678 3 7).
      * apply Hset.
      * exact Hl.
      * lia.
      * lia.
      * apply (ls_table _ _ _ _ _ _ Hset).
      * change (align_down 0x5678 PAGE_SIZE) with 0x5000. rewrite Hent. by vm_compute.
      * change (align_down 0x5678 PAGE_SIZE) with 0x5000. rewrite Hent. by vm_compute.
      * apply (fd_frame _ _ _ _ Hd), sample_frame_7.
      * intros Hin%(fd_avail _ _ _ _ Hd). apply sample_used_7, Hin.
      * apply (fd_spare _ _ _ _ Hd), sample_spare.
      * intros p [Hp|Hp]%(fd_tables _ _ _ _ Hd); [|apply sample_used_7, Hp].
        unfold sample_tables in Hp. by apply lookup_singleton_Some in Hp as [_ Hp].
    + intros s' (_ & _ & Hav & _). apply Hav. by right.
Defined.

(** Two pages at 0x5000, writable. *)
Lemma fill_range_maps_shifted_witness :
  or_panics (fill_range 0x5000 (2 * PAGE_SIZE) (Z.lor MAP_READ MAP_WRITE) sample_vm)
    (λ '(s', ok), ok = true ∧ ∃ T' fs, Z.of_nat (length fs) = 2 ∧
       filled sample_vm sample_tables 0x5000 0 (Z.lor MAP_READ MAP_WRITE) fs s' T').
Proof.
  apply (fill_range_maps_shifted sample_vm sample_tables).
  - exact sample_tree.
  - exact sample_lock_free.
  - split; reflexivity.
  - lia.
  - lia.
  - unfold all_pages, levels, is_paging_mode_max, sample_mode. lia.
  - unfold PAGE_SIZE; lia.
Defined.
