(* ===== verification/VirtualInit.v ===== *)
(** * Start-up of the kernel address space

    A new kernel page map is an empty tree; the loops of [virtual_initialize]
    then map the direct map, the memory above 4 GiB and the kernel. *)
From S2P Require Import Prelude Mem MemCopy MemSet Lock Addr Physical Frames Paging.
From S2P Require Import PagingWalk PagingMap PagingRange Virtual.

Section init.
Context {A : Type} `{hh : Hhdm, pmode : PagingMode, fo : FrameOps A}.
Context `{fl : !FrameLaws A}.

(** ** [PageMap::initialize] *)

(** A zeroed frame is a tree of one table. *)
Lemma root_tree (s : vm A) g :
  fr_ok (vm_frames s) → fr_frame (vm_frames s) g → ¬ fr_avail (vm_frames s) g →
  top_lvl_ s = frame_base g →
  (∀ i, 0 ≤ i < 512 → ld64 (vm_mem s) (entry_addr g i) = Ok 0) →
  tree_ok s {[ [] := g ]}.
Proof.
  intros Hok Hf Hav Htop Hz. split; [done|..].
  - exists g. by rewrite lookup_singleton_eq.
  - intros p f [<- <-]%lookup_singleton_Some. split_and!; [|done..].
    unfold levels. destruct is_paging_mode_max; simpl; lia.
  - by intros p q f [<- _]%lookup_singleton_Some [<- _]%lookup_singleton_Some.
  - intros p f i [<- <-]%lookup_singleton_Some _ Hi. exists 0.
    rewrite lookup_singleton_ne by done. split; [by apply Hz|done].
  - intros p i [f Hf']. apply lookup_singleton_Some in Hf' as [Hp _]. by destruct p.
Qed.

Lemma levels_two : (2 < levels)%nat.
Proof. unfold levels. destruct is_paging_mode_max; lia. Qed.

Lemma root_leaf (s : vm A) g p i :
  S (length p) = levels → leaf_entry s {[ [] := g ]} p i = 0.
Proof.
  intros Hp. pose proof levels_two. unfold leaf_entry.
  rewrite lookup_singleton_ne; [done|]. intros <-. simpl in Hp. lia.
Qed.

(** Only the contents of frame [g] are different. *)
Record frame_written (s : vm A) (g : Z) (s' : vm A) : Prop := FrameWritten {
  fw_ok : fr_ok (vm_frames s');
  fw_frame : ∀ f, fr_frame (vm_frames s) f → fr_frame (vm_frames s') f;
  fw_avail : ∀ f, fr_avail (vm_frames s') f ↔ fr_avail (vm_frames s) f;
  fw_spare : fr_spare (vm_frames s') ↔ fr_spare (vm_frames s);
  fw_same : ∀ f i, f ≠ g → 0 ≤ i < 512 →
    ld64 (vm_mem s') (entry_addr f i) = ld64 (vm_mem s) (entry_addr f i);
  fw_top : top_lvl_ s' = top_lvl_ s;
  fw_lock : lock_ s' = lock_ s;
  fw_pml3 : pml3_translation s' = pml3_translation s;
  fw_hw : vm_hw s' = vm_hw s;
  fw_steady : fr_steady (vm_frames s) (vm_frames s');
}.

Lemma frame_written_trans (s : vm A) g s1 s2 :
  frame_written s g s1 → frame_written s1 g s2 → frame_written s g s2.
Proof.
  intros [] []. split; try congruence; try done.
  - auto.
  - intros f. by rewrite fw_avail1.
  - by rewrite fw_spare1.
  - intros f i Hf Hi. by rewrite fw_same1, fw_same0.
  - by etrans.
Qed.

Lemma stored_written (s : vm A) f i v s' :
  0 ≤ i < 512 → entry_stored s f i v s' → frame_written s f s'.
Proof.
  intros Hi Hst. pose proof Hst as []. split; try done. intros g j Hg Hj.
  apply (entry_stored_other s f i v s' g j Hi Hj); [|done]. left. congruence.
Qed.

(** [memset] of a frame. *)
Lemma clear_frame_or_panics {R} (s : vm A) g (k : vm A → outcome R) (Q : R → Prop) :
  fr_ok (vm_frames s) → fr_frame (vm_frames s) g → top_lvl_ s = frame_base g →
  (∀ s', frame_written s g s' → (∀ i, 0 ≤ i < 512 → ld64 (vm_mem s') (entry_addr g i) = Ok 0) →
     or_panics (k s') Q) →
  or_panics ('(m, _) ← memset (vm_mem s) (top_lvl_ s) 0 PAGE_SIZE;
             k (set_frames (fr_set_mem m (vm_frames s)) s)) Q.
Proof.
  intros Hok Hf Htop HQ.
  destruct (frame_facts s g Hok Hf) as (? & ? & Hlim & Hal & _).
  assert (memset_excess (frame_base g) PAGE_SIZE = 0) as Hex.
  { unfold memset_excess, PAGE_SIZE in *. rewrite (proj2 (Z.leb_le _ _)) by lia. dlia. }
  apply or_panics_bind. right. rewrite Htop. apply memset_returns; rewrite ?Hex, ?Z.add_0_r.
  { by unfold PAGE_SIZE. }
  { split; [by unfold PAGE_SIZE|lia|]. by apply fr_mapped. }
  change (u8 0) with 0. intros m Hm.
  assert (bytes_ok m) as Hb by (by eapply (filled_bytes_ok (vm_mem s)); [apply fr_bytes| |]).
  assert (∀ x, is_Some (vm_mem s !! x) → is_Some (m !! x)) as Hdom.
  { intros x Hx. by eapply filled_mapped. }
  assert (∀ x, fr_private (vm_frames s) x → m !! x = vm_mem s !! x) as Hpr.
  { intros x Hx. rewrite Hm, decide_False; [done|]. intros Hin.
    by apply (fr_apart (vm_frames s) g x). }
  destruct (fr_write _ m Hok Hb Hdom Hpr) as (Hok' & Hfr & Hprv & Havs). apply HQ.
  - split; try done; simpl; [apply fr_spare_write| |].
    + intros f i Hne Hi. unfold vm_mem. simpl. rewrite fr_mem_set. apply ld64_same. intros x Hx.
      rewrite Hm, decide_False; [done|]. pose proof (entry_in_frame f i x Hi Hx).
      unfold in_frame, frame_base, PAGE_SIZE in *. lia.
    + split; simpl; [apply fr_extent_write|exact Hprv|]. intros x _ Hx.
      rewrite fr_mem_set, Hm, decide_False; [done|]. intros Hin.
      apply (Hx g); [by apply (fr_range _ g Hok)|exact Hin].
  - intros i Hi. unfold vm_mem. simpl. rewrite fr_mem_set. apply ld64_zero; [done|].
    intros x Hx. rewrite Hm, decide_True; [done|]. by apply (entry_in_frame g i).
Qed.

(** The tables of the kernel's half of the top level are there. *)
Definition upper_tables (T : gmap (list Z) Z) : Prop :=
  ∀ i, 256 ≤ i < 512 → is_Some (T !! [i]).

Lemma upper_tables_mono (T T' : gmap (list Z) Z) : T ⊆ T' → upper_tables T → upper_tables T'.
Proof using Type. intros Hsub HT i [f Hf]%HT. exists f. by eapply lookup_weaken. Qed.

(** The new page map is empty: every leaf entry is zero. *)
Definition empty_tree (s : vm A) (T : gmap (list Z) Z) : Prop :=
  tree_ok s T ∧ upper_tables T ∧ ∀ p i, S (length p) = levels → 0 ≤ i < 512 → leaf_entry s T p i = 0.

Lemma initialize_or_panics huge_page base_top (s : vm A) (Q : vm A → Prop) :
  fr_ok (vm_frames s) →
  (∀ s' T, empty_tree s' T → lock_ s' = lock_ s → fr_steady (vm_frames s) (vm_frames s') → Q s') →
  or_panics (initialize true huge_page base_top s) Q.
Proof.
  intros Hok HQ. unfold initialize.
  apply or_panics_bind, allocate_frame_or_panics; [done|]. intros s1 g Hft.
  destruct (frame_pointer s1 g (ft_ok _ _ _ Hft) (ft_frame _ _ _ Hft)) as [-> _].
  cbv zeta. apply (clear_frame_or_panics (set_top (frame_base g) s1) g
    (λ s, '(s, _) ← repeat_n 256
            (λ '(s, i),
               '(s, _) ← get_next_lvl_default map_page (entry_at (top_lvl_ s) i) true s;
               Ok (s, u64 (i + 1)))
            (set_pml3 huge_page s, 256);
          Ok (emit EnablePat s)));
    [apply Hft|apply Hft|done|].
  intros s2 Hw Hz. cbv iota. set (s3 := set_pml3 huge_page s2).
  assert (tree_ok s3 {[ [] := g ]}) as Ht3.
  { apply root_tree; [apply Hw|apply Hw, Hft| |apply Hw|done].
    by intros [_ ?]%(fw_avail _ _ _ Hw)%(ft_avail _ _ _ Hft). }
  pose proof (fw_lock _ _ _ Hw) as Hl2. pose proof (fw_steady _ _ _ Hw) as Hst2.
  apply or_panics_bind. eapply or_panics_mono.
  { apply (repeat_n_or_panics _ (λ n '(s', i), i = 256 + Z.of_nat n ∧
      ∃ T, grown s3 {[ [] := g ]} s' T ∧ ∀ j, 256 ≤ j < 256 + Z.of_nat n → is_Some (T !! [j]))).
    - intros n [s' i] Hn (-> & T & Hgr & Hup). apply or_panics_bind.
      assert (T !! [] = Some g) as Hroot.
      { apply (lookup_weaken {[ [] := g ]}); [by rewrite lookup_singleton_eq|apply Hgr]. }
      pose proof (gr_tree _ _ _ _ Hgr) as Ht. pose proof levels_two.
      destruct (tr_root _ _ Ht) as (g' & Hg' & ->).
      assert (g' = g) as -> by congruence. unfold get_next_lvl_default.
      rewrite (proj2 (table_pointer s' T [] g (256 + Z.of_nat n) Ht Hroot ltac:(lia))).
      apply (next_or_grow map_page s' T [] g); [done|done|lia|cbn [length]; lia|].
      intros s'' T' h Hgr' Hh. right. cbn [returns]. rewrite u64_small by lia.
      split; [lia|]. exists T'. split; [by eapply grown_trans|]. intros j Hj.
      destruct (decide (j = 256 + Z.of_nat n)) as [->|]; [by eexists|].
      destruct (Hup j ltac:(lia)) as [f Hf]. exists f. eapply lookup_weaken; [done|apply Hgr'].
    - split; [lia|]. exists {[ [] := g ]}. split; [by apply grown_refl|lia]. }
  intros [s4 i] (_ & T & Hgr & Hup). right. cbn [returns]. apply (HQ _ T).
  - split_and!; [by destruct (gr_tree _ _ _ _ Hgr)|exact Hup|]. intros p j Hp Hj.
    transitivity (leaf_entry s3 {[ [] := g ]} p j); [by apply (gr_leaf _ _ _ _ Hgr)|].
    by apply root_leaf.
  - simpl. rewrite (gr_lock _ _ _ _ Hgr). simpl. by rewrite Hl2, <-(ft_lock _ _ _ Hft).
  - transitivity (vm_frames s1); [apply Hft|]. etrans; [exact Hst2|].
    apply (fd_steady _ _ _ _ (gr_drawn _ _ _ _ Hgr)).
Qed.

(** ** The loops of [virtual_initialize] *)

Lemma map_or_fail_or_panics (s : vm A) T va pa flags (Q : vm A → Prop) :
  tree_ok s T → lock_free (lock_ s) → small_flags flags → 0 ≤ pa < 2 ^ 64 →
  (∀ s' T', leaf_set s T va (Z.lor pa (parse_flags flags)) s' T' → lock_free (lock_ s') → Q s') →
  or_panics (map_or_fail va pa flags s) Q.
Proof.
  intros Ht Hl Hs Hpa HQ. unfold map_or_fail. apply or_panics_bind.
  apply (map_page_or_panics s T); [done..|]. intros s' T' Hset Hl' _. right. by apply (HQ s' T').
Qed.

Definition LOW_PAGES : Z := FOUR_GIB / PAGE_SIZE.
Definition LOW_FLAGS : Z := Z.lor (Z.lor MAP_READ MAP_WRITE) MAP_WRITE_BACK.
Definition FB_FLAGS : Z := Z.lor (Z.lor MAP_READ MAP_WRITE) MAP_WRITE_COMBINING.
Definition KERNEL_FLAGS : Z := Z.lor (Z.lor (Z.lor MAP_WRITE MAP_READ) MAP_EXEC) MAP_WRITE_BACK.

(** The direct map has room for [limit] pages, 4 GiB at least. *)
Record direct_ok (limit : Z) : Prop := DirectOk {
  dr_low : LOW_PAGES ≤ limit;
  dr_tables : limit ≤ all_pages;
  dr_offset : limit * PAGE_SIZE ≤ hhdm_offset;
  dr_top : hhdm_offset + limit * PAGE_SIZE ≤ 2 ^ 64;
}.

Lemma direct_page_address limit j :
  direct_ok limit → 0 ≤ j < limit →
  to_higher_half (j * PAGE_SIZE) = hhdm_offset + j * PAGE_SIZE.
Proof.
  intros [? ? ? ?] Hj. unfold PAGE_SIZE in *. rewrite to_higher_half_low; lia.
Qed.

(** What an entry of the direct map for page [j] may be. *)
Definition direct_entry (j v : Z) : Prop :=
  v = Z.lor (j * PAGE_SIZE) (parse_flags LOW_FLAGS) ∨
  LOW_PAGES ≤ j ∧ v = Z.lor (j * PAGE_SIZE) (parse_flags FB_FLAGS).

(** A state whose direct map has the pages of [P]; [a0] is the allocator of the
    start. *)
Record direct_mapped (a0 : A) (P : Z → Prop) (s : vm A) (T : gmap (list Z) Z) : Prop := DirectMapped {
  dm_tree : tree_ok s T;
  dm_upper : upper_tables T;
  dm_lock : lock_free (lock_ s);
  dm_pages : ∀ j, P j → direct_entry j (entry_of s T (hhdm_offset + j * PAGE_SIZE));
  dm_steady : fr_steady a0 (vm_frames s);
}.

Lemma map_low_or_panics limit (s : vm A) T (Q : vm A → Prop) :
  direct_ok limit → tree_ok s T → upper_tables T → lock_free (lock_ s) →
  (∀ s' T', direct_mapped (vm_frames s) (λ j, 0 ≤ j < LOW_PAGES) s' T' → Q s') →
  or_panics (map_low s) Q.
Proof.
  intros Hd Ht Hup Hl HQ. unfold map_low. fold LOW_PAGES LOW_FLAGS. pose proof Hd as [? ? ? ?].
  assert (FOUR_GIB = LOW_PAGES * PAGE_SIZE) as H4 by done.
  assert (0 ≤ LOW_PAGES < 2 ^ 32) as H0 by (split; done).
  apply (map_loop_or_panics _ s T hhdm_offset LOW_PAGES
           (λ k, Z.lor (k * PAGE_SIZE) (parse_flags LOW_FLAGS)));
    [unfold PAGE_SIZE in *; lia|lia|done|done|lia| |].
  - intros s1 T1 k P Hk [Ht1 Hl1 _ _ _ _] HP. rewrite H4.
    rewrite (proj2 (Z.ltb_lt _ _)) by (unfold PAGE_SIZE; lia). apply or_panics_bind.
    rewrite (direct_page_address limit) by (done || lia).
    apply (map_or_fail_or_panics s1 T1); [done|done|by split|unfold PAGE_SIZE in *; lia|].
    intros s2 T2 Hset Hl2. right. cbn [returns].
    replace (k * PAGE_SIZE + PAGE_SIZE) with ((k + 1) * PAGE_SIZE) by lia.
    rewrite u64_small by (unfold PAGE_SIZE in *; lia). by apply (HP _ T2).
  - intros s' T' Hset. rewrite H4, (proj2 (Z.ltb_ge _ _)) by lia. cbn [returns].
    apply (HQ _ T').
    split; [apply Hset|by eapply upper_tables_mono; [apply Hset|]|apply Hset| |apply Hset].
    intros j Hj. left. by apply (rs_pages _ _ _ _ _ _ _ Hset).
Qed.

(** ** The memory above 4 GiB *)

(** An entry of the memory map within the direct map. *)
Definition entry_within (limit : Z) (e : limine_memmap_entry) : Prop :=
  0 ≤ base e ∧ 0 ≤ length_ e ∧ base e + length_ e ≤ limit * PAGE_SIZE.

Definition first_page (e : limine_memmap_entry) : Z := base e / 4096.
Definition last_page (e : limine_memmap_entry) : Z := (base e + length_ e + 4095) / 4096.
Definition entry_page (e : limine_memmap_entry) (j : Z) : Prop :=
  first_page e ≤ j < last_page e ∧ LOW_PAGES ≤ j.

Definition entry_flags (e : limine_memmap_entry) : Z :=
  match type e with LIMINE_MEMMAP_FRAMEBUFFER => FB_FLAGS | _ => LOW_FLAGS end.

Lemma entry_page_entry e j :
  LOW_PAGES ≤ j → direct_entry j (Z.lor (j * PAGE_SIZE) (parse_flags (entry_flags e))).
Proof. intros Hj. unfold direct_entry, entry_flags. destruct (type e); auto. Qed.

Lemma entry_flags_lor e :
  Z.lor (Z.lor MAP_READ MAP_WRITE)
    match type e with
    | LIMINE_MEMMAP_FRAMEBUFFER => MAP_WRITE_COMBINING
    | _ => MAP_WRITE_BACK
    end = entry_flags e.
Proof. unfold entry_flags. by destruct (type e). Qed.

Lemma small_entry_flags e : small_flags (entry_flags e).
Proof. unfold entry_flags. by destruct (type e). Qed.

(** Mapping more of the direct map, from page [m] on. *)
Lemma direct_mapped_range a0 limit P (s : vm A) T m n flags s' T' :
  direct_ok limit → 0 ≤ m → (0 < n → m + n ≤ limit) → (∀ j, P j → 0 ≤ j < limit) →
  (∀ j, m ≤ j < m + n → direct_entry j (Z.lor (j * PAGE_SIZE) (parse_flags flags))) →
  direct_mapped a0 P s T →
  range_set s T (hhdm_offset + m * PAGE_SIZE) n
    (λ k, Z.lor ((m + k) * PAGE_SIZE) (parse_flags flags)) s' T' →
  direct_mapped a0 (λ j, P j ∨ m ≤ j < m + n) s' T'.
Proof.
  intros [? ? ? ?] Hm Hlim HP Hent [Ht Hup Hl Hpg Hst] [Ht' Hl' Hsub Hset Hoth Hdr].
  split; [done|by eapply upper_tables_mono|done| |etrans; [exact Hst|apply Hdr]]. intros j Hj. destruct (decide (m ≤ j < m + n)) as [Hin|Hout].
  - replace (hhdm_offset + j * PAGE_SIZE) with (hhdm_offset + m * PAGE_SIZE + (j - m) * PAGE_SIZE)
      by lia.
    rewrite Hset by lia. replace (m + (j - m)) with j by lia. by apply Hent.
  - destruct Hj as [Hj|?]; [|done]. rewrite Hoth; [by apply Hpg|].
    intros k Hk. rewrite <-Z.add_assoc, <-Z.mul_add_distr_r. specialize (HP j Hj).
    intros ?%page_number_range; unfold PAGE_SIZE in *; lia.
Qed.

(** The loop over the pages [b] to [t], those below 4 GiB skipped. *)
Lemma upper_loop_or_panics limit flags b t (s : vm A) T (Q : vm A → Prop) :
  direct_ok limit → limit * PAGE_SIZE ≤ 2 ^ 63 → small_flags flags →
  0 ≤ b → b ≤ t → t ≤ limit → tree_ok s T → lock_free (lock_ s) →
  let m := Z.max b LOW_PAGES in
  let v k := Z.lor ((m + k) * PAGE_SIZE) (parse_flags flags) in
  (∀ s' T', range_set s T (hhdm_offset + m * PAGE_SIZE) (Z.max 0 (t - m)) v s' T' → Q s') →
  or_panics (loop (S (S (Z.to_nat (t - b))))
    (λ '(s, j),
       if j <? t * PAGE_SIZE then
         if j <? LOW_PAGES * PAGE_SIZE then Ok (inl (s, u64 (j + PAGE_SIZE))) else
         s ← map_or_fail (to_higher_half j) j flags s;
         Ok (inl (s, u64 (j + PAGE_SIZE)))
       else Ok (inr s))
    (s, b * PAGE_SIZE)) Q.
Proof.
  intros Hd Htop Hs Hb Hbt Htl Ht Hl m v HQ. pose proof Hd as [? ? ? ?].
  assert (0 ≤ LOW_PAGES) as H0 by done.
  set (I s' j := ∃ T', range_set s T (hhdm_offset + m * PAGE_SIZE) (Z.max 0 (j - m)) v s' T').
  apply (loop_or_panics _ (λ '(s', i), ∃ j, i = j * PAGE_SIZE ∧ b ≤ j ≤ t ∧ I s' j)
    (λ '(_, i), Z.to_nat (t - i / PAGE_SIZE))).
  2: { exists b. split_and!; [done|lia|lia|]. exists T. rewrite Z.max_l by lia.
       by apply range_set_nil. }
  2: { rewrite Z.div_mul by done. lia. }
  intros [s' i] (j & -> & Hj & T' & Hset). destruct (decide (j = t)) as [->|Hne].
  { rewrite (proj2 (Z.ltb_ge _ _)) by lia. right. by apply (HQ s' T'). }
  rewrite (proj2 (Z.ltb_lt _ _)) by (unfold PAGE_SIZE; lia).
  assert (u64 (j * PAGE_SIZE + PAGE_SIZE) = (j + 1) * PAGE_SIZE) as ->.
  { rewrite u64_small; unfold PAGE_SIZE in *; lia. }
  assert (∀ s2, I s2 (j + 1) →
    (∃ k, (j + 1) * PAGE_SIZE = k * PAGE_SIZE ∧ b ≤ k ≤ t ∧ I s2 k) ∧
    (Z.to_nat (t - (j + 1) * PAGE_SIZE / PAGE_SIZE) <
     Z.to_nat (t - j * PAGE_SIZE / PAGE_SIZE))%nat) as Hnext.
  { intros s2 Hset2. rewrite !Z.div_mul by done. split; [|lia].
    exists (j + 1). split_and!; [done|lia|lia|done]. }
  destruct (Z.ltb_spec (j * PAGE_SIZE) (LOW_PAGES * PAGE_SIZE)) as [Hlow|Hup].
  { right. cbn [returns]. apply (Hnext s'). exists T'.
    replace (Z.max 0 (j + 1 - m)) with (Z.max 0 (j - m)); [done|]. unfold PAGE_SIZE in *. lia. }
  assert (LOW_PAGES ≤ j) as Hjl by (unfold PAGE_SIZE in *; lia). rewrite Z.max_r in Hset by lia.
  apply or_panics_bind. rewrite (direct_page_address limit) by (done || lia).
  apply (map_or_fail_or_panics s' T');
    [apply Hset|apply Hset|done|unfold PAGE_SIZE in *; lia|].
  intros s2 T2 Hls Hl2. right. cbn [returns]. apply (Hnext s2). exists T2.
  replace (Z.max 0 (j + 1 - m)) with (j - m + 1) by lia.
  eapply range_set_snoc; [unfold PAGE_SIZE in *; lia|lia|exact Hset| |done].
  replace (hhdm_offset + m * PAGE_SIZE + (j - m) * PAGE_SIZE) with (hhdm_offset + j * PAGE_SIZE)
    by lia. unfold v. by replace (m + (j - m)) with j by lia.
Qed.

Lemma map_entry_or_panics a0 limit P e (s : vm A) T (Q : vm A → Prop) :
  direct_ok limit → limit * PAGE_SIZE ≤ 2 ^ 63 → entry_within limit e →
  (∀ j, P j → 0 ≤ j < limit) → direct_mapped a0 P s T →
  (∀ s' T', direct_mapped a0 (λ j, P j ∨ entry_page e j) s' T' → Q s') →
  or_panics (map_entry e s) Q.
Proof.
  intros Hd Htop (Hb & Hlen & Hlim) HP Hm HQ. unfold map_entry. cbv zeta.
  rewrite entry_flags_lor. pose proof Hd as [? ? ? ?].
  assert (FOUR_GIB = LOW_PAGES * PAGE_SIZE) as -> by done. assert (0 ≤ LOW_PAGES) as H0 by done.
  set (b := first_page e). set (t := last_page e).
  assert (align_down (base e) PAGE_SIZE = b * PAGE_SIZE) as ->.
  { rewrite align_down_page by (unfold PAGE_SIZE in *; lia). done. }
  assert (align_up (u64 (base e + length_ e)) PAGE_SIZE = t * PAGE_SIZE) as ->.
  { rewrite u64_small, align_up_page by (unfold PAGE_SIZE in *; lia). done. }
  assert (0 ≤ b ∧ b ≤ t ∧ t ≤ limit) as (Hb0 & Hbt & Htl).
  { unfold b, t, first_page, last_page, PAGE_SIZE in *. split_and!; dlia. }
  destruct (Z.ltb_spec (t * PAGE_SIZE) (LOW_PAGES * PAGE_SIZE)) as [Hlow|Hhigh].
  { right. apply (HQ s T). destruct Hm as [? ? ? Hpg ?]. split; [done..| |done].
    intros j [Hj|[Hj ?]]; [by apply Hpg|]. unfold PAGE_SIZE in *. fold b t in Hj. lia. }
  rewrite <-Z.mul_sub_distr_r, (u64_small ((t - b) * PAGE_SIZE)) by (unfold PAGE_SIZE in *; lia).
  rewrite Z.div_mul by done. rewrite <-Z.mul_add_distr_r.
  replace (b + (t - b)) with t by lia. rewrite u64_small by (unfold PAGE_SIZE in *; lia).
  apply (upper_loop_or_panics limit (entry_flags e) b t s T);
    [done|done|apply small_entry_flags|done..|apply Hm|apply Hm|].
  intros s' T' Hset. apply (HQ s' T').
  destruct (direct_mapped_range a0 limit P s T (Z.max b LOW_PAGES) (Z.max 0 (t - Z.max b LOW_PAGES))
    (entry_flags e) s' T') as [Ht' Hup' Hl' Hpg Hst]; [done|lia|lia|done| |done|done|].
  { intros k Hk. apply entry_page_entry. lia. }
  split; [done..| |done]. intros k [Hk|[Hk ?]]; apply Hpg; [by left|right].
  fold b t in Hk. lia.
Qed.

Lemma map_entries_or_panics a0 limit memmaps P (s : vm A) T (Q : vm A → Prop) :
  direct_ok limit → limit * PAGE_SIZE ≤ 2 ^ 63 → Forall (entry_within limit) memmaps →
  (∀ j, P j → 0 ≤ j < limit) → direct_mapped a0 P s T →
  (∀ s' T', direct_mapped a0 (λ j, P j ∨ Exists (λ e, entry_page e j) memmaps) s' T' → Q s') →
  or_panics (map_entries memmaps s) Q.
Proof.
  intros Hd Htop Hall. revert P s T Q.
  induction Hall as [|e memmaps He Hall IH]; intros P s T Q HP Hm HQ; simpl.
  { right. cbn [returns]. apply (HQ s T). destruct Hm as [? ? ? Hpg ?]. split; [done..| |done].
    intros j [?|?%Exists_nil]; [by apply Hpg|done]. }
  apply or_panics_bind, (map_entry_or_panics a0 limit P e s T); [done..|]. intros s1 T1 Hm1.
  apply (IH (λ j, P j ∨ entry_page e j) s1 T1); [|done|].
  - intros j [Hj|[Hj Hl]]; [by apply HP|]. destruct He as (? & ? & ?).
    unfold first_page, last_page, PAGE_SIZE in *. dlia.
  - intros s' T' [? ? ? Hpg ?]. apply (HQ s' T'). split; [done..| |done].
    intros j [Hj|[Hj|Hj]%Exists_cons]; apply Hpg; auto.
Qed.

(** ** The kernel *)

Definition kernel_pages (size : Z) : Z := (size + 4095) / 4096.

Record kernel_within (virtual_base physical_base size : Z) : Prop := KernelWithin {
  kw_size : 0 ≤ size < 2 ^ 63;
  kw_tables : kernel_pages size ≤ all_pages;
  kw_virtual : 0 ≤ virtual_base ∧ virtual_base + kernel_pages size * PAGE_SIZE ≤ 2 ^ 64;
  kw_physical : 0 ≤ physical_base ∧ physical_base + kernel_pages size * PAGE_SIZE ≤ 2 ^ 64;
}.

Lemma map_kernel_or_panics vb pb size (s : vm A) T (Q : vm A → Prop) :
  kernel_within vb pb size → tree_ok s T → lock_free (lock_ s) →
  (∀ s' T', range_set s T vb (kernel_pages size)
     (λ k, Z.lor (pb + k * PAGE_SIZE) (parse_flags KERNEL_FLAGS)) s' T' → Q s') →
  or_panics (map_kernel vb pb size s) Q.
Proof.
  intros [? ? ? ?] Ht Hl HQ. unfold map_kernel. fold KERNEL_FLAGS.
  assert (kernel_pages size * PAGE_SIZE < size + PAGE_SIZE ∧ size ≤ kernel_pages size * PAGE_SIZE ∧
    0 ≤ kernel_pages size ≤ size / PAGE_SIZE + 1) as (Hk1 & Hk2 & Hk3).
  { unfold kernel_pages, PAGE_SIZE. dlia. }
  apply (map_loop_or_panics _ s T vb (kernel_pages size)
           (λ k, Z.lor (pb + k * PAGE_SIZE) (parse_flags KERNEL_FLAGS)));
    [lia|lia|done|done|lia| |].
  - intros s1 T1 k P Hk [Ht1 Hl1 _ _ _ _] HP.
    rewrite (proj2 (Z.ltb_lt _ _)) by (unfold PAGE_SIZE in *; lia). apply or_panics_bind.
    rewrite !u64_small by (unfold PAGE_SIZE in *; lia).
    apply (map_or_fail_or_panics s1 T1); [done|done|by split|unfold PAGE_SIZE in *; lia|].
    intros s2 T2 Hset Hl2. right. cbn [returns].
    replace (k * PAGE_SIZE + PAGE_SIZE) with ((k + 1) * PAGE_SIZE) by lia.
    by apply (HP _ T2).
  - intros s' T' Hset. rewrite (proj2 (Z.ltb_ge _ _)) by lia. by apply (HQ _ T').
Qed.
(** The address space that start-up leaves, from the allocator [a0]. *)
Record address_space (a0 : A) (memmaps : list limine_memmap_entry) (vb pb size : Z) (s : vm A)
    (T : gmap (list Z) Z) : Prop := AddressSpace {
  as_tree : tree_ok s T;
  as_upper : upper_tables T;
  as_lock : lock_free (lock_ s);
  as_hw : head (vm_hw s) = Some (WriteCr3 (from_higher_half (top_lvl_ s)));
  as_kernel : ∀ k, 0 ≤ k < kernel_pages size →
    entry_of s T (vb + k * PAGE_SIZE) = Z.lor (pb + k * PAGE_SIZE) (parse_flags KERNEL_FLAGS);
  as_direct : ∀ j, 0 ≤ j < LOW_PAGES ∨ Exists (λ e, entry_page e j) memmaps →
    (∀ k, 0 ≤ k < kernel_pages size →
       page_number (hhdm_offset + j * PAGE_SIZE) ≠ page_number (vb + k * PAGE_SIZE)) →
    direct_entry j (entry_of s T (hhdm_offset + j * PAGE_SIZE));
  as_steady : fr_steady a0 (vm_frames s);
}.

Lemma virtual_initialize_or_panics limit huge_page memmaps vb pb size (s : vm A) (Q : vm A → Prop) :
  fr_ok (vm_frames s) → lock_free (lock_ s) → direct_ok limit → limit * PAGE_SIZE ≤ 2 ^ 63 →
  Forall (entry_within limit) memmaps → kernel_within vb pb size →
  (∀ s' T, address_space (vm_frames s) memmaps vb pb size s' T → Q s') →
  or_panics (virtual_initialize huge_page memmaps vb pb size s) Q.
Proof.
  intros Hok Hl Hd Htop Hall Hk HQ. unfold virtual_initialize.
  apply or_panics_bind, initialize_or_panics; [done|]. intros s1 T1 (Ht1 & Hup1 & _) Hl1 Hst1.
  apply or_panics_bind, (map_low_or_panics limit s1 T1); [done|done|done|by rewrite Hl1|].
  intros s2 T2 Hm2. pose proof (dr_low _ Hd).
  apply or_panics_bind, (map_entries_or_panics (vm_frames s1) limit memmaps
    (λ j, 0 ≤ j < LOW_PAGES) s2 T2 _ Hd Htop Hall); [|exact Hm2|].
  { intros j ?. lia. }
  intros s3 T3 [Ht3 Hup3 Hl3 Hpg Hst3]. apply or_panics_bind, (map_kernel_or_panics vb pb size s3 T3);
    [done..|].
  intros s4 T4 [Ht4 Hl4 Hsub Hset Hoth Hdr]. right. cbn [returns]. apply (HQ _ T4).
  split; [by destruct Ht4|by eapply upper_tables_mono|done|done|done| |].
  - intros j Hj Hno. change (entry_of (load s4) T4) with (entry_of s4 T4).
    rewrite Hoth by done. by apply Hpg.
  - etrans; [exact Hst1|]. etrans; [exact Hst3|]. exact (fd_steady _ _ _ _ Hdr).
Qed.
End init.

(** * Properties *)

(** Start-up of the kernel's address space.  [virtual_initialize] panics for
    want of memory or leaves a well-formed page map, its lock free, in CR3, in
    which every page of the kernel is mapped, readable, writable and executable,
    at its distance from the two bases; and every page of the first 4 GiB and of
    the memory map's entries above is mapped at its place in the direct map,
    write-combining for frame buffers, unless the kernel's mapping covers it. *)
Theorem virtual_initialize_maps `{hh : Hhdm, pmode : PagingMode, fo : FrameOps A, !FrameLaws A}
    limit huge_page memmaps vb pb size (s : vm A) :
  fr_ok (vm_frames s) → lock_free (lock_ s) → direct_ok limit → limit * PAGE_SIZE ≤ 2 ^ 63 →
  Forall (entry_within limit) memmaps → kernel_within vb pb size →
  or_panics (virtual_initialize huge_page memmaps vb pb size s) (λ s', ∃ T,
    tree_ok s' T ∧ lock_free (lock_ s') ∧
    head (vm_hw s') = Some (WriteCr3 (from_higher_half (top_lvl_ s'))) ∧
    (∀ k, 0 ≤ k < kernel_pages size → entry_of s' T (vb + k * PAGE_SIZE) =
       Z.lor (pb + k * PAGE_SIZE) (parse_flags KERNEL_FLAGS)) ∧
    (∀ j, 0 ≤ j < LOW_PAGES ∨ Exists (λ e, entry_page e j) memmaps →
       (∀ k, 0 ≤ k < kernel_pages size →
          page_number (hhdm_offset + j * PAGE_SIZE) ≠ page_number (vb + k * PAGE_SIZE)) →
       direct_entry j (entry_of s' T (hhdm_offset + j * PAGE_SIZE)))).
Proof.
  intros Hok Hl Hd Htop Hall Hk. apply (virtual_initialize_or_panics limit); [done..|].
  intros s' T [? _ ? ? ? ? _]. by exists T.
Qed.

#[local] Existing Instance sample_hhdm.
#[local] Existing Instance sample_mode.
#[local] Opaque sample_pages.

Definition sample_framebuffer : limine_memmap_entry :=
  {| base := 0x100000800; length_ := 0x1000; type := LIMINE_MEMMAP_FRAMEBUFFER |}.

(** A frame buffer above 4 GiB and a kernel of five pages. *)
Lemma virtual_initialize_maps_witness :
  or_panics (virtual_initialize true [sample_framebuffer] 0xffffffff80000000 0x200000 0x4800
               sample_vm)
    (λ s', ∃ T, tree_ok s' T ∧
       entry_of s' T 0xffffffff80004000 = Z.lor 0x204000 (parse_flags KERNEL_FLAGS)).
Proof.
  eapply or_panics_mono.
  - apply (virtual_initialize_maps (LOW_PAGES + 16) true [sample_framebuffer]
             0xffffffff80000000 0x200000 0x4800 sample_vm).
    + apply sample_tree.
    + exact sample_lock_free.
    + split; by vm_compute.
    + by vm_compute.
    + constructor; [|constructor]. by vm_compute.
    + split; by vm_compute.
  - intros s' (T & Ht & _ & _ & Hk & _). exists T. split; [exact Ht|].
    apply (Hk 4). by vm_compute.
Defined.
