(* ===== verification/UserMap.v ===== *)
(** * User page maps

    [PageMap::initialize] of a user's page map copies the upper half of the
    kernel's top-level table, so that all page maps share the tables of the
    kernel's half of the address space and each has those of the lower half to
    itself.  What that means for two page maps, and that an operation on one of
    them keeps it. *)
From S2P Require Import Prelude Mem MemCopy MemSet Lock Addr Physical Frames Paging.
From S2P Require Import PagingWalk PagingMap PagingRange Caching Translate Virtual VirtualInit.

(** ** The two halves of a tree *)

Definition in_upper (p : list Z) : Prop := match p with i :: _ => 256 ≤ i | [] => False end.

#[global] Instance in_upper_dec p : Decision (in_upper p).
Proof. destruct p; simpl; apply _. Defined.

(** The tree [T] with the upper half of [T1]. *)
Definition graft (T T1 : gmap (list Z) Z) : gmap (list Z) Z :=
  filter (λ x, ¬ in_upper x.1) T ∪ filter (λ x, in_upper x.1) T1.

Lemma lookup_graft T T1 p : graft T T1 !! p = if decide (in_upper p) then T1 !! p else T !! p.
Proof.
  apply option_eq. intros f. unfold graft. rewrite lookup_union_Some.
  - rewrite !map_lookup_filter_Some. simpl. case_decide; naive_solver.
  - apply map_disjoint_spec. intros q g h. rewrite !map_lookup_filter_Some. naive_solver.
Qed.

Section user.
Context {A : Type} `{hh : Hhdm, pmode : PagingMode, fo : FrameOps A}.
Context `{fl : !FrameLaws A}.

(** Pages of the kernel's half. *)
Definition kernel_page (n : Z) : Prop := 2 ^ (9 * Z.of_nat levels - 1) ≤ n.

#[global] Instance kernel_page_dec n : Decision (kernel_page n).
Proof using Type. unfold kernel_page. apply _. Defined.

Lemma in_upper_path va : in_upper (table_path va) ↔ kernel_page (page_number va).
Proof using Type.
  unfold table_path, kernel_page, page_number, levels.
  change 48 with (12 + 9 * 4). change 39 with (12 + 9 * 3). rewrite !GET_PML_ENTRY_eq by lia.
  generalize (va / PAGE_SIZE). intros n. destruct (page_digits n) as (? & H4 & H5).
  destruct is_paging_mode_max; simpl app; unfold in_upper.
  - change (9 * Z.of_nat 5) with 45. change (2 ^ (45 - 1)) with 17592186044416. rewrite H5. lia.
  - change (9 * Z.of_nat 4) with 36. change (2 ^ (36 - 1)) with 34359738368. rewrite H4. lia.
Qed.

(** ** Two page maps over one memory *)

Record shares (s : vm A) (t1 : Z) (T1 : gmap (list Z) Z) (t2 : Z) (T2 : gmap (list Z) Z) : Prop :=
  Shares {
  sh_left : tree_ok (set_top t1 s) T1;
  sh_right : tree_ok (set_top t2 s) T2;
  sh_same : ∀ p, in_upper p → T1 !! p = T2 !! p;
  sh_apart : ∀ p q f, T1 !! p = Some f → T2 !! q = Some f → p = q ∧ in_upper p;
  sh_upper : upper_tables T1;
}.

Lemma shares_sym s t1 T1 t2 T2 : shares s t1 T1 t2 T2 → shares s t2 T2 t1 T1.
Proof.
  intros [? ? Hs Ha Hu]. split; [done|done| | |].
  - intros p Hp. by rewrite Hs.
  - intros p q f Hp Hq. destruct (Ha q p f Hq Hp) as [-> ?]. done.
  - intros i Hi. rewrite <-Hs by apply Hi. by apply Hu.
Qed.

(** An operation on the first page map. *)
Record stepped (t : Z) (s : vm A) (T : gmap (list Z) Z) (s' : vm A) (T' : gmap (list Z) Z) : Prop :=
  Stepped {
  sp_tree : tree_ok (set_top t s') T';
  sp_sub : T ⊆ T';
  sp_drawn : frames_drawn s T s' T';
}.

Section step.
Context (s : vm A) (t1 : Z) (T1 : gmap (list Z) Z) (s' : vm A) (T1' : gmap (list Z) Z).
Context (Hstep : stepped t1 s T1 s' T1').

(** The lower half of the other map is not touched. *)
Lemma shares_frame t2 T2 q f :
  shares s t1 T1 t2 T2 → T2 !! q = Some f → ¬ in_upper q →
  (∀ p, T1' !! p ≠ Some f) ∧
  ∀ i, 0 ≤ i < 512 → ld64 (vm_mem s') (entry_addr f i) = ld64 (vm_mem s) (entry_addr f i).
Proof.
  intros Hsh Hq Hlow. destruct (tr_frame _ _ (sh_right _ _ _ _ _ Hsh) q f Hq) as (_ & Hf & Hn).
  assert (∀ p, T1 !! p ≠ Some f) as HT.
  { intros p Hp. destruct (sh_apart _ _ _ _ _ Hsh p q f Hp Hq) as [-> ?]. done. }
  split.
  - intros p [Hp|Hav]%(fd_tables _ _ _ _ (sp_drawn _ _ _ _ _ Hstep)); [by eapply HT|done].
  - intros i Hi. by apply (sp_drawn _ _ _ _ _ Hstep).
Qed.

Lemma graft_lower t2 T2 p f :
  shares s t1 T1 t2 T2 → graft T2 T1' !! p = Some f →
  (in_upper p ∧ T1' !! p = Some f) ∨ (¬ in_upper p ∧ T2 !! p = Some f ∧ ∀ q, T1' !! q ≠ Some f).
Proof.
  intros Hsh. rewrite lookup_graft. case_decide; [by left|]. intros Hp. right.
  split_and!; [done|done|]. by apply (shares_frame t2 T2 p f).
Qed.

(** The tables of the kernel's half that the top level of another map points to. *)
Lemma shares_top t2 T2 i :
  shares s t1 T1 t2 T2 → 256 ≤ i < 512 →
  ∃ g, T1 !! [i] = Some g ∧ T2 !! [i] = Some g ∧ T1' !! [i] = Some g.
Proof.
  intros Hsh Hi. destruct (sh_upper _ _ _ _ _ Hsh i Hi) as [g Hg]. exists g.
  split_and!; [done| |by eapply lookup_weaken; [|apply Hstep]].
  by rewrite <-(sh_same _ _ _ _ _ Hsh) by apply Hi.
Qed.

Lemma graft_entry t2 T2 p f i :
  shares s t1 T1 t2 T2 → graft T2 T1' !! p = Some f → (S (length p) < levels)%nat → 0 ≤ i < 512 →
  ∃ v, ld64 (vm_mem s') (entry_addr f i) = Ok v ∧
    match graft T2 T1' !! (p ++ [i]) with Some g => points_to v g | None => v = 0 end.
Proof.
  intros Hsh Hp Hl Hi. destruct (graft_lower t2 T2 p f Hsh Hp) as [[Hup Hp1]|(Hlow & Hp2 & _)].
  - rewrite lookup_graft, decide_True by by destruct p.
    by apply (tr_entry _ _ (sp_tree _ _ _ _ _ Hstep) p f i).
  - destruct (shares_frame t2 T2 p f Hsh Hp2 Hlow) as [_ ->]; [|done].
    replace (graft T2 T1' !! (p ++ [i])) with (T2 !! (p ++ [i])).
    { by apply (tr_entry _ _ (sh_right _ _ _ _ _ Hsh) p f i). }
    rewrite lookup_graft. case_decide as Hup; [|done]. destruct p as [|j p]; [|done].
    simpl in *. destruct (shares_top t2 T2 i Hsh) as (g & _ & -> & ->); [lia|done].
Qed.

Lemma graft_tree t2 T2 : shares s t1 T1 t2 T2 → tree_ok (set_top t2 s') (graft T2 T1').
Proof.
  intros Hsh. pose proof (sh_right _ _ _ _ _ Hsh) as Ht2. pose proof (sp_tree _ _ _ _ _ Hstep) as Ht1.
  pose proof (sp_drawn _ _ _ _ _ Hstep) as Hdr.
  split.
  - apply Ht1.
  - destruct (tr_root _ _ Ht2) as (r & Hr & Htop). exists r. by rewrite lookup_graft.
  - intros p f Hg. destruct (graft_lower t2 T2 p f Hsh Hg) as [[_ Hp]|(_ & Hp & _)];
      [by apply (tr_frame _ _ Ht1)|].
    destruct (tr_frame _ _ Ht2 p f Hp) as (? & Hf & Hn). split_and!; [done|by apply Hdr|].
    intros Hav. by apply Hn, (fd_avail _ _ _ _ Hdr).
  - intros p q f Hgp Hgq.
    destruct (graft_lower t2 T2 p f Hsh Hgp) as [[_ Hp]|(_ & Hp & HT)],
      (graft_lower t2 T2 q f Hsh Hgq) as [[_ Hq]|(_ & Hq & HT')].
    + by eapply (tr_inj _ _ Ht1).
    + by apply HT' in Hp.
    + by apply HT in Hq.
    + by eapply (tr_inj _ _ Ht2).
  - intros p f i. by apply (graft_entry t2 T2).
  - intros p i. rewrite !lookup_graft. destruct p as [|j p].
    + simpl. intros Hi. split; [destruct (tr_root _ _ Ht2) as (r & Hr & _); by exists r|].
      case_decide; [by apply (tr_closed _ _ Ht1 [])|by apply (tr_closed _ _ Ht2 [])].
    + simpl. case_decide; [by apply (tr_closed _ _ Ht1 (j :: p))|by apply (tr_closed _ _ Ht2 (j :: p))].
Qed.

Lemma stepped_upper t2 T2 : shares s t1 T1 t2 T2 → upper_tables T1'.
Proof.
  intros Hsh. eapply upper_tables_mono; [apply Hstep|by apply Hsh].
Qed.

(** The two maps still share. *)
Lemma shares_step t2 T2 : shares s t1 T1 t2 T2 → shares s' t1 T1' t2 (graft T2 T1').
Proof.
  intros Hsh. split.
  - apply Hstep.
  - by apply graft_tree.
  - intros p Hp. by rewrite lookup_graft, decide_True.
  - intros p q f Hp Hg. destruct (graft_lower t2 T2 q f Hsh Hg) as [[Hup Hq]|(_ & _ & HT)].
    + rewrite (tr_inj _ _ (sp_tree _ _ _ _ _ Hstep) p q f Hp Hq). done.
    + by apply HT in Hp.
  - by eapply stepped_upper.
Qed.

(** And so do two maps on neither of which the operation was. *)
Lemma shares_others t2 T2 t3 T3 :
  shares s t1 T1 t2 T2 → shares s t1 T1 t3 T3 → shares s t2 T2 t3 T3 →
  shares s' t2 (graft T2 T1') t3 (graft T3 T1').
Proof.
  intros H2 H3 H23. split.
  - by apply graft_tree.
  - by apply graft_tree.
  - intros p Hp. by rewrite !lookup_graft, !decide_True.
  - intros p q f Hgp Hgq.
    destruct (graft_lower t2 T2 p f H2 Hgp) as [[? Hp]|(_ & Hp & HT)],
      (graft_lower t3 T3 q f H3 Hgq) as [[_ Hq]|(_ & Hq & HT')].
    + rewrite (tr_inj _ _ (sp_tree _ _ _ _ _ Hstep) p q f Hp Hq) in *. done.
    + by apply HT' in Hp.
    + by apply HT in Hq.
    + by eapply (sh_apart _ _ _ _ _ H23).
  - intros i Hi. rewrite lookup_graft, decide_True by apply Hi. by eapply stepped_upper.
Qed.

(** The other map has the new entries of the kernel's half, and its own below. *)
Lemma shares_entry_of t2 T2 va :
  shares s t1 T1 t2 T2 →
  entry_of s' (graft T2 T1') va =
  if decide (kernel_page (page_number va)) then entry_of s' T1' va else entry_of s T2 va.
Proof.
  intros Hsh. unfold entry_of, leaf_entry. rewrite lookup_graft. pose proof (in_upper_path va).
  repeat case_decide; try tauto. destruct (T2 !! table_path va) as [f|] eqn:Hf; [|done].
  destruct (shares_frame t2 T2 (table_path va) f Hsh Hf) as [_ Hk]; [done|].
  by rewrite Hk by apply leaf_index_range.
Qed.

(** The entries of the kernel's half are the same in both. *)
Lemma shares_kernel t2 T2 va :
  shares s t1 T1 t2 T2 → kernel_page (page_number va) → entry_of s T2 va = entry_of s T1 va.
Proof using Type.
  intros Hsh Hk%in_upper_path. unfold entry_of, leaf_entry. by rewrite (sh_same _ _ _ _ _ Hsh).
Qed.
End step.

(** ** [PageMap::initialize] of a user's page map *)

Record user_map (s : vm A) (base : Z) (T : gmap (list Z) Z) (g : Z) (s' : vm A) : Prop := UserMap {
  um_top : top_lvl_ s' = frame_base g;
  um_new : fr_avail (vm_frames s) g;
  um_tree : tree_ok s' (graft {[ [] := g ]} T);
  um_step : stepped base s T s' T;
  um_entry : ∀ va, entry_of s' T va = entry_of s T va;
  um_lock : lock_ s' = lock_ s;
  um_pml3 : pml3_translation s' = pml3_translation s;
  um_hw : vm_hw s' = vm_hw s;
}.

(** The loop has copied the entries from 256 on, up to [n]. *)
Definition copied (s2 : vm A) (r g n : Z) (s' : vm A) : Prop :=
  frame_written s2 g s' ∧ ∀ j, 0 ≤ j < 512 → ld64 (vm_mem s') (entry_addr g j) =
    if decide (256 ≤ j < 256 + n) then ld64 (vm_mem s2) (entry_addr r j) else Ok 0.

Lemma copy_entry_returns (s2 : vm A) r g n s' v (Q : vm A → Prop) :
  fr_frame (vm_frames s2) r → fr_frame (vm_frames s2) g → r ≠ g → 0 ≤ n < 256 →
  top_lvl_ s2 = frame_base g → copied s2 r g n s' →
  ld64 (vm_mem s2) (entry_addr r (256 + n)) = Ok v →
  (∀ s'', copied s2 r g (n + 1) s'' → Q s'') →
  returns (v ← load_entry (entry_at (frame_base r) (256 + n)) s';
           store_entry (entry_at (top_lvl_ s') (256 + n)) v s') Q.
Proof.
  intros Hr Hg Hne Hn Htop [Hw Hcp] Hv HQ. pose proof (fw_ok _ _ _ Hw) as Hok.
  rewrite (entry_at_frame s'), (fw_top _ _ _ Hw), Htop, (entry_at_frame s')
    by (done || lia || by apply Hw).
  unfold load_entry. rewrite (fw_same _ _ _ Hw), Hv, bind_ok by (done || lia).
  apply store_entry_returns; [done|by apply Hw|lia|]. intros s3 Hst. apply HQ. split.
  - eapply frame_written_trans; [done|]. eapply stored_written; [|done]. lia.
  - intros j Hj. destruct (decide (j = 256 + n)) as [->|Hj'].
    + rewrite decide_True by lia. rewrite Hv. apply (entry_stored_self s' g (256 + n)); [done| |done].
      apply (load_entry_range s' r (256 + n)); [done|by apply Hw|lia|].
      by rewrite (fw_same _ _ _ Hw) by (done || lia).
    + rewrite (entry_stored_other s' g (256 + n) v s3 g j), Hcp by (done || lia || by right).
      repeat case_decide; done || lia.
Qed.

Lemma user_tree (s s' : vm A) base T r g :
  tree_ok (set_top base s) T → upper_tables T → T !! [] = Some r → fr_avail (vm_frames s) g →
  fr_frame (vm_frames s') g → ¬ fr_avail (vm_frames s') g → top_lvl_ s' = frame_base g →
  tree_ok (set_top base s') T →
  (∀ j, 256 ≤ j < 512 → ld64 (vm_mem s') (entry_addr g j) = ld64 (vm_mem s') (entry_addr r j)) →
  (∀ j, 0 ≤ j < 256 → ld64 (vm_mem s') (entry_addr g j) = Ok 0) →
  tree_ok s' (graft {[ [] := g ]} T).
Proof.
  intros Ht Hup Hr Hnew Hg Hav Htop Ht' Hcp Hz. pose proof levels_two as H2.
  assert (∀ p, T !! p ≠ Some g) as Hfresh.
  { intros p Hp. by destruct (tr_frame _ _ Ht p g Hp) as (_ & _ & ?). }
  assert (∀ p f, graft {[ [] := g ]} T !! p = Some f →
    (p = [] ∧ f = g) ∨ (in_upper p ∧ T !! p = Some f)) as Hlk.
  { intros p f. rewrite lookup_graft. case_decide; [by right|].
    intros [<- <-]%lookup_singleton_Some. by left. }
  split.
  - apply Ht'.
  - exists g. by rewrite lookup_graft.
  - intros p f [[-> ->]|[_ Hp]]%Hlk; [split_and!; [simpl; lia|done|done]|by apply (tr_frame _ _ Ht')].
  - intros p q f [[-> ->]|[_ Hp]]%Hlk [[-> Hfg]|[_ Hq]]%Hlk; [done|by apply Hfresh in Hq| |].
    + subst f. by apply Hfresh in Hp.
    + by apply (tr_inj _ _ Ht' p q f).
  - intros p f i [[-> ->]|[Hp Hp1]]%Hlk Hl Hi; rewrite lookup_graft.
    + simpl app. case_decide as Hi'; simpl in Hi'.
      * rewrite Hcp by lia. by apply (tr_entry _ _ Ht' [] r i Hr).
      * rewrite Hz, lookup_singleton_ne by (done || lia). by exists 0.
    + rewrite decide_True by by destruct p. by apply (tr_entry _ _ Ht' p f i).
  - intros p i. rewrite !lookup_graft. destruct p as [|j p]; simpl.
    + intros Hi. split; [by eexists|]. case_decide; [by apply (tr_closed _ _ Ht' [])|].
      rewrite lookup_singleton_ne in Hi by done. by destruct Hi.
    + case_decide; [by apply (tr_closed _ _ Ht' (j :: p))|].
      rewrite lookup_singleton_ne by done. by intros [].
Qed.

(** The new table, its frame taken and filled in. *)
Lemma user_map_of (s s1 s2 s' : vm A) base T r g :
  tree_ok (set_top base s) T → upper_tables T → T !! [] = Some r →
  frame_taken s g s1 → frame_written (set_top (frame_base g) s1) g s2 →
  (∀ i, 0 ≤ i < 512 → ld64 (vm_mem s2) (entry_addr g i) = Ok 0) → copied s2 r g 256 s' →
  user_map s base T g s'.
Proof.
  intros Ht Hup Hr Hft Hw2 Hz [Hw Hcp].
  pose proof (frame_written_trans _ _ _ _ Hw2 Hw) as Hw'. pose proof Hft as [].
  assert (∀ f, fr_avail (vm_frames s') f ↔ fr_avail (vm_frames s) f ∧ f ≠ g) as Hav.
  { intros f. rewrite (fw_avail _ _ _ Hw'). apply ft_avail. }
  assert (∀ f, fr_frame (vm_frames s) f → fr_frame (vm_frames s') f) as Hfr.
  { intros f Hf. by apply (fw_frame _ _ _ Hw'), ft_frames. }
  assert (∀ f i, fr_frame (vm_frames s) f → f ≠ g → 0 ≤ i < 512 →
    ld64 (vm_mem s') (entry_addr f i) = ld64 (vm_mem s) (entry_addr f i)) as Hsame.
  { intros f i Hf Hne Hi. rewrite (fw_same _ _ _ Hw') by done. by apply ft_same. }
  assert (∀ p f, T !! p = Some f →
    fr_frame (vm_frames s) f ∧ f ≠ g ∧ ¬ fr_avail (vm_frames s) f) as Hin.
  { intros p f Hp. destruct (tr_frame _ _ Ht p f Hp) as (_ & ? & ?). naive_solver. }
  destruct (tree_ok_kept (set_top base s) T (set_top base s')) as [Ht' Hleaf];
    [done|apply Hw'|done| | |].
  { intros p f Hp. destruct (Hin p f Hp) as (? & ? & ?). simpl. rewrite Hav. naive_solver. }
  { intros p f i Hp Hi. destruct (Hin p f Hp) as (? & ? & ?). by apply Hsame. }
  split.
  - apply Hw'.
  - done.
  - destruct (Hin [] r Hr) as (? & Hne & _).
    apply (user_tree s s' base T r g); [done..| | |apply Hw'|done| |].
    + by apply (fw_frame _ _ _ Hw').
    + rewrite Hav. tauto.
    + intros j Hj. rewrite Hcp, decide_True by lia. by rewrite (fw_same _ _ _ Hw) by (done || lia).
    + intros j Hj. rewrite Hcp, decide_False by lia. done.
  - split; [done|done|]. split; [done| | | |etrans; [done|apply Hw']|].
    + intros f. rewrite Hav. tauto.
    + intros ?. rewrite (fw_spare _ _ _ Hw'). auto.
    + by left.
    + intros f i Hf Hn _ Hi. apply Hsame; [done| |done]. by intros ->.
  - intros va. apply Hleaf, leaf_index_range.
  - etrans; [apply Hw'|done].
  - etrans; [apply Hw'|done].
  - etrans; [apply Hw'|done].
Qed.

Lemma initialize_user_or_panics huge_page base T (s : vm A) (Q : vm A → Prop) :
  tree_ok (set_top base s) T → upper_tables T →
  (∀ s' g, user_map s base T g s' → Q s') →
  or_panics (initialize false huge_page base s) Q.
Proof.
  intros Ht Hup HQ. unfold initialize. pose proof levels_two.
  destruct (tr_root _ _ Ht) as (r & Hr & Hb). simpl in Hb. subst base.
  destruct (tr_frame _ _ Ht [] r Hr) as (_ & Hrf & Hrn). simpl in Hrf, Hrn.
  apply or_panics_bind, allocate_frame_or_panics; [apply Ht|]. intros s1 g Hft.
  assert (r ≠ g) as Hne by (intros ->; exact (Hrn (ft_new _ _ _ Hft))).
  destruct (frame_pointer s1 g (ft_ok _ _ _ Hft) (ft_frame _ _ _ Hft)) as [-> _].
  cbv zeta. apply (clear_frame_or_panics (set_top (frame_base g) s1) g
    (λ s, '(s, _) ← repeat_n 256
            (λ '(s, i),
               v ← load_entry (entry_at (frame_base r) i) s;
               s ← store_entry (entry_at (top_lvl_ s) i) v s;
               Ok (s, u64 (i + 1)))
            (s, 256);
          Ok s)); [apply Hft|apply Hft|done|].
  intros s2 Hw2 Hz. right. bind_step. eapply returns_mono.
  { apply (repeat_n_returns _ (λ n '(s', i), i = 256 + Z.of_nat n ∧ copied s2 r g (Z.of_nat n) s')).
    - intros n [s' i] Hn (-> & Hcp). rewrite <-bind_assoc. bind_step.
      destruct (tr_entry _ _ Ht [] r (256 + Z.of_nat n) Hr) as (v & Hv & _);
        [simpl; lia|lia|].
      eapply (copy_entry_returns s2 r g (Z.of_nat n) s' v);
        [by apply Hw2, Hft|apply Hw2, Hft|done|lia|apply Hw2|done| |].
      + rewrite (fw_same _ _ _ Hw2) by (done || lia). simpl in Hv.
        by etrans; [apply (ft_same _ _ _ Hft); [done|done|lia]|].
      + intros s'' Hcp'. cbn [returns]. rewrite u64_small by lia.
        replace (Z.of_nat (S n)) with (Z.of_nat n + 1) by lia. split; [lia|done].
    - split; [lia|]. split; [|intros j Hj; rewrite decide_False by lia; by apply Hz].
      split; try done; by destruct Hw2. }
  intros [s' i] (_ & Hcp). cbn [returns]. apply (HQ s' g). by apply (user_map_of s s1 s2 s' _ T r g).
Qed.

(** ** The new map among the others *)

Lemma graft_same (s : vm A) t1 T1 t2 T2 : shares s t1 T1 t2 T2 → graft T2 T1 = T2.
Proof.
  intros Hsh. apply map_eq. intros p. rewrite lookup_graft. case_decide; [|done].
  by apply (sh_same _ _ _ _ _ Hsh).
Qed.

Section user_map.
Context (s : vm A) (base : Z) (T : gmap (list Z) Z) (g : Z) (s' : vm A).
Context (Hum : user_map s base T g s') (Ht : tree_ok (set_top base s) T) (Hup : upper_tables T).

Lemma user_map_lookup p f :
  graft {[ [] := g ]} T !! p = Some f → (p = [] ∧ f = g) ∨ (in_upper p ∧ T !! p = Some f).
Proof using Type.
  rewrite lookup_graft. case_decide; [by right|]. intros [<- <-]%lookup_singleton_Some. by left.
Qed.

Lemma user_map_tree : tree_ok (set_top (frame_base g) s') (graft {[ [] := g ]} T).
Proof. destruct Hum as [Htop _ [] _ _ _ _ _]. split; try done. by rewrite Htop in tr_root. Qed.

Lemma user_map_upper : upper_tables (graft {[ [] := g ]} T).
Proof using Hup. intros i Hi. rewrite lookup_graft, decide_True by apply Hi. by apply Hup. Qed.

(** The new map shares with the one it copies. *)
Lemma user_map_shares : shares s' base T (frame_base g) (graft {[ [] := g ]} T).
Proof.
  split.
  - apply Hum.
  - apply user_map_tree.
  - intros p Hp. by rewrite lookup_graft, decide_True.
  - intros p q f Hp [[-> ->]|[Hq Hq']]%user_map_lookup.
    + exfalso. apply (tr_frame _ _ Ht) in Hp as (_ & _ & Hn). apply Hn, Hum.
    + by rewrite (tr_inj _ _ Ht p q f Hp Hq').
  - exact Hup.
Qed.

(** And with every other one. *)
Lemma user_map_others t T2 :
  shares s base T t T2 → shares s' (frame_base g) (graft {[ [] := g ]} T) t T2.
Proof.
  intros Hsh. pose proof (um_step _ _ _ _ _ Hum) as Hst.
  pose proof (shares_step _ _ _ _ _ Hst t T2 Hsh) as Hsh'.
  rewrite (graft_same _ _ _ _ _ Hsh) in Hsh'. split.
  - apply user_map_tree.
  - apply Hsh'.
  - intros p Hp. rewrite lookup_graft, decide_True by done. by apply (sh_same _ _ _ _ _ Hsh).
  - intros p q f [[-> ->]|[Hp Hp']]%user_map_lookup Hq.
    + apply (tr_frame _ _ (sh_right _ _ _ _ _ Hsh)) in Hq as (_ & _ & Hn).
      exfalso. apply Hn, Hum.
    + by apply (sh_apart _ _ _ _ _ Hsh p q f).
  - apply user_map_upper.
Qed.

Lemma user_map_entry va :
  entry_of s' (graft {[ [] := g ]} T) va =
  if decide (kernel_page (page_number va)) then entry_of s T va else 0.
Proof.
  rewrite <-(um_entry _ _ _ _ _ Hum). unfold entry_of, leaf_entry. rewrite lookup_graft.
  pose proof (in_upper_path va). repeat case_decide; try tauto. pose proof levels_two.
  rewrite lookup_singleton_ne; [done|]. intros Hp.
  pose proof (table_path_length va) as Hl. rewrite <-Hp in Hl. simpl in Hl. lia.
Qed.
End user_map.
End user.

(** ** What user maps mean to the processor *)

Section translated.
Context {A : Type} `{hh : Hhdm, pmode : PagingMode, fo : FrameOps A}.
Context `{fl : !FrameLaws A}.

Lemma kernel_address va : canonical va → kernel_page (page_number va) ↔ half_space ≤ va.
Proof using Type.
  unfold canonical, kernel_page, page_number, half_space, levels, PAGE_SIZE. intros Hc.
  destruct is_paging_mode_max; change (11 + 9 * Z.of_nat 5) with 56 in *;
    change (11 + 9 * Z.of_nat 4) with 47 in *; change (9 * Z.of_nat 5) with 45;
    change (9 * Z.of_nat 4) with 36; dlia.
Qed.

(** Maps that share see the same above the lower half. *)
Lemma shares_translate pat (s : vm A) t1 T1 t2 T2 va :
  shares s t1 T1 t2 T2 → half_space ≤ va →
  translate pat (set_top t2 s) va = translate pat (set_top t1 s) va.
Proof.
  intros Hsh Hva. destruct (decide (canonical va)) as [Hc|Hn].
  - rewrite (translate_entry pat (set_top t1 s) T1), (translate_entry pat (set_top t2 s) T2)
      by (apply Hsh || done).
    f_equal. apply (shares_kernel s t1 T1 t2 T2 va Hsh). by apply kernel_address.
  - unfold translate. by rewrite !(decide_False (P := canonical va)) by done.
Qed.

Lemma user_map_translate pat (s : vm A) base T g s' va :
  user_map s base T g s' → tree_ok (set_top base s) T →
  translate pat s' va = (if decide (half_space ≤ va) then translate pat (set_top base s) va else None)
  ∧ translate pat (set_top base s') va = translate pat (set_top base s) va.
Proof.
  intros Hum Ht. destruct (decide (canonical va)) as [Hc|Hn].
  - rewrite (translate_entry pat s' _ va (um_tree _ _ _ _ _ Hum) Hc).
    rewrite (translate_entry pat (set_top base s) T) by done.
    rewrite (translate_entry pat (set_top base s') T) by (done || apply Hum).
    change (entry_of (set_top base s') T va) with (entry_of s' T va).
    rewrite (um_entry _ _ _ _ _ Hum), (user_map_entry _ _ _ _ _ Hum).
    split; [|done]. pose proof (kernel_address va Hc). repeat case_decide; done || tauto.
  - unfold translate. rewrite !(decide_False (P := canonical va)) by done. by case_decide.
Qed.
End translated.

(** * Properties *)


#[local] Existing Instance sample_hhdm.
#[local] Existing Instance sample_mode.
#[local] Opaque sample_pages.

