(* ===== verification/Spaces.v ===== *)
(** * Page maps together

    The [PageMap] objects of the kernel over one physical allocator, operations on
    any of them in any order, and what they amount to: one mapping of the
    kernel's half that all page maps have, and one of the lower half for each. *)
From S2P Require Import Prelude Mem MemCopy MemSet Lock Addr Physical Frames Paging.
From S2P Require Import PagingWalk PagingMap PagingRange Caching Translate Virtual VirtualInit UserMap.

(** ** The page maps and operations on them *)

(** The members of [PageMap]. *)
Record page_map := PageMap { pm_top : Z; pm_lock : TicketLock }.

(** The first page map is [base_pagemap]; the allocator, [virt::pml3_translation]
    and the processor are common to all. *)
Record spaces (A : Type) := Spaces {
  sp_frames : A;
  sp_maps : list page_map;
  sp_pml3 : bool;
  sp_hw : list hw_event;
}.
Arguments Spaces {A}.
Arguments sp_frames {A}.
Arguments sp_maps {A}.
Arguments sp_pml3 {A}.
Arguments sp_hw {A}.

Inductive space_op :=
  | NewMap
  | MapPage (k : nat) (va pa flags : Z)
  | UnmapPage (k : nat) (va flags : Z)
  | SetflagsPage (k : nat) (va flags : Z)
  | RemapPage (k : nat) (old new flags : Z)
  | MapPages (k : nat) (va pa n flags : Z)
  | UnmapPages (k : nat) (va n flags : Z)
  | SetflagsPages (k : nat) (va n flags : Z)
  | RemapPages (k : nat) (old new n flags : Z)
  | Lookup (k : nat) (va flags : Z).

Section spaces.
Context {A : Type} `{hh : Hhdm, pmode : PagingMode, fo : FrameOps A}.

Definition vm_of (sys : spaces A) (pm : page_map) : vm A :=
  Vm (sp_frames sys) (pm_top pm) (pm_lock pm) (sp_pml3 sys) (sp_hw sys).
Definition map_of (s : vm A) : page_map := PageMap (top_lvl_ s) (lock_ s).

(** A call of a method of page map [k]. *)
Definition on_map (k : nat) (method : vm A → outcome (vm A * Z)) (sys : spaces A) :
    outcome (spaces A * Z) :=
  match sp_maps sys !! k with
  | Some pm =>
      '(s, r) ← method (vm_of sys pm);
      Ok (Spaces (vm_frames s) (<[k := map_of s]> (sp_maps sys)) (pml3_translation s) (vm_hw s), r)
  | None => NoFuel
  end.

(** A new [PageMap], initialised for a user. *)
Definition new_map (huge_page : bool) (sys : spaces A) : outcome (spaces A * Z) :=
  match sp_maps sys with
  | base :: _ =>
      s ← initialize false huge_page (pm_top base) (vm_of sys (PageMap 0 TicketLock_init));
      Ok (Spaces (vm_frames s) (sp_maps sys ++ [map_of s]) (pml3_translation s) (vm_hw s), SYSTEM_OK)
  | [] => NoFuel
  end.

Definition space_step (huge_page : bool) (op : space_op) (sys : spaces A) : outcome (spaces A * Z) :=
  match op with
  | NewMap => new_map huge_page sys
  | MapPage k va pa flags => on_map k (map_page va pa flags) sys
  | UnmapPage k va flags => on_map k (unmap_page va flags) sys
  | SetflagsPage k va flags => on_map k (setflags_page va flags) sys
  | RemapPage k old new flags => on_map k (remap_page old new flags) sys
  | MapPages k va pa n flags => on_map k (map_pages va pa (n * PAGE_SIZE) flags) sys
  | UnmapPages k va n flags => on_map k (unmap_pages va (n * PAGE_SIZE) flags) sys
  | SetflagsPages k va n flags => on_map k (setflags_pages va (n * PAGE_SIZE) flags) sys
  | RemapPages k old new n flags => on_map k (remap_pages old new (n * PAGE_SIZE) flags) sys
  | Lookup k va flags => on_map k (virtual_to_physical va flags) sys
  end.

(** The calls in their order, with their results. *)
Fixpoint space_run (huge_page : bool) (ops : list space_op) (sys : spaces A) :
    outcome (spaces A * list Z) :=
  match ops with
  | [] => Ok (sys, [])
  | op :: ops =>
      '(sys, r) ← space_step huge_page op sys;
      '(sys, rs) ← space_run huge_page ops sys;
      Ok (sys, r :: rs)
  end.

(** The page map that start-up leaves, on its own. *)
Definition first_space (s : vm A) : spaces A :=
  Spaces (vm_frames s) [map_of s] (pml3_translation s) (vm_hw s).

(** ** What they amount to *)

(** The entry of every page, by page number: of the kernel's half, and of the
    lower half in each page map. *)
Record mappings := Mappings { mp_kernel : Z → Z; mp_user : list (Z → Z) }.

Definition entry_in (m : mappings) (k : nat) (n : Z) : Z :=
  if decide (kernel_page n) then mp_kernel m n
  else match mp_user m !! k with Some f => f n | None => 0 end.

(** Page map [k] now has the entries [f]. *)
Definition put (m : mappings) (k : nat) (f : Z → Z) : mappings :=
  Mappings f (<[k := f]> (mp_user m)).

(** The [n] pages from [va] on have the entries [v]. *)
Definition ranged (va n : Z) (v f : Z → Z) (x : Z) : Z :=
  let j := (x - page_number va) mod all_pages in if j <? n then v j else f x.

Definition at_page (m : mappings) (k : nat) (va : Z) : Z := entry_in m k (page_number va).

Definition set_pages (m : mappings) (k : nat) (va n : Z) (v : Z → Z) : mappings :=
  put m k (ranged va n v (entry_in m k)).

(** The page [old] moved to [new]. *)
Definition moved (old new flags : Z) (f : Z → Z) : Z → Z :=
  ranged new 1 (λ _, Z.lor (resolve (f (page_number old)) old) (parse_flags flags))
    (ranged old 1 (λ _, 0) f).

(** The first [n] pages of a range, one after the other. *)
Fixpoint moved_pages (old new flags : Z) (n : nat) (f : Z → Z) : Z → Z :=
  match n with
  | O => f
  | S n' => moved (old + Z.of_nat n' * PAGE_SIZE) (new + Z.of_nat n' * PAGE_SIZE) flags
              (moved_pages old new flags n' f)
  end.

Definition mapping_step (op : space_op) (m : mappings) : mappings * Z :=
  match op with
  | NewMap => (Mappings (mp_kernel m) (mp_user m ++ [λ _, 0]), SYSTEM_OK)
  | MapPage k va pa flags => (set_pages m k va 1 (λ _, Z.lor pa (parse_flags flags)), SYSTEM_OK)
  | UnmapPage k va flags => (set_pages m k va 1 (λ _, 0), SYSTEM_OK)
  | SetflagsPage k va flags =>
      let a := entry_get_address (at_page m k va) in
      (set_pages m k va 1 (λ _, Z.lor a (parse_flags flags)), SYSTEM_OK)
  | RemapPage k old new flags =>
      (put m k (moved old new flags (entry_in m k)), SYSTEM_OK)
  | MapPages k va pa n flags =>
      (set_pages m k va n (λ j, Z.lor (pa + j * PAGE_SIZE) (parse_flags flags)), SYSTEM_OK)
  | UnmapPages k va n flags => (set_pages m k va n (λ _, 0), SYSTEM_OK)
  | SetflagsPages k va n flags =>
      (set_pages m k va n (λ j, Z.lor (entry_get_address (at_page m k (va + j * PAGE_SIZE)))
                                  (parse_flags flags)), SYSTEM_OK)
  | RemapPages k old new n flags =>
      (put m k (moved_pages old new flags (Z.to_nat n) (entry_in m k)), SYSTEM_OK)
  | Lookup k va flags => (m, resolve (at_page m k va) va)
  end.

Fixpoint mapping_run (ops : list space_op) (m : mappings) : mappings * list Z :=
  match ops with
  | [] => (m, [])
  | op :: ops =>
      let '(m, r) := mapping_step op m in
      let '(m, rs) := mapping_run ops m in
      (m, r :: rs)
  end.

(** Ranges of small pages within the address space. *)
Definition range_ok (a n : Z) : Prop := 0 ≤ a ∧ a + n * PAGE_SIZE ≤ 2 ^ 64.
Definition count_ok (n : Z) : Prop := 0 ≤ n ≤ all_pages ∧ n * PAGE_SIZE + PAGE_SIZE < 2 ^ 64.

(** What a call asks for: an existing page map, small pages, and to look up,
    unmap or move only what is mapped. *)
Definition op_ok (op : space_op) (m : mappings) : Prop :=
  match op with
  | NewMap => True
  | MapPage k va pa flags =>
      (k < length (mp_user m))%nat ∧ small_flags flags ∧ 0 ≤ va ∧ 0 ≤ pa < 2 ^ 64
  | UnmapPage k va flags | Lookup k va flags =>
      (k < length (mp_user m))%nat ∧ small_flags flags ∧ 0 ≤ va ∧ at_page m k va ≠ 0
  | SetflagsPage k va flags => (k < length (mp_user m))%nat ∧ small_flags flags ∧ 0 ≤ va
  | RemapPage k old new flags =>
      (k < length (mp_user m))%nat ∧ small_flags flags ∧ 0 ≤ old ∧ 0 ≤ new ∧ at_page m k old ≠ 0
  | MapPages k va pa n flags =>
      (k < length (mp_user m))%nat ∧ small_flags flags ∧ count_ok n ∧ range_ok va n ∧ range_ok pa n
  | UnmapPages k va n flags =>
      (k < length (mp_user m))%nat ∧ small_flags flags ∧ count_ok n ∧ range_ok va n ∧
      ∀ j, 0 ≤ j < n → at_page m k (va + j * PAGE_SIZE) ≠ 0
  | SetflagsPages k va n flags =>
      (k < length (mp_user m))%nat ∧ small_flags flags ∧ count_ok n ∧ range_ok va n
  | RemapPages k old new n flags =>
      (k < length (mp_user m))%nat ∧ small_flags flags ∧ count_ok n ∧ range_ok old n ∧
      range_ok new n ∧
      ∀ j : nat, Z.of_nat j < n →
        moved_pages old new flags j (entry_in m k) (page_number (old + Z.of_nat j * PAGE_SIZE)) ≠ 0
  end.

Fixpoint ops_ok (ops : list space_op) (m : mappings) : Prop :=
  match ops with
  | [] => True
  | op :: ops => op_ok op m ∧ ops_ok ops (mapping_step op m).1
  end.
End spaces.

(** ** The refinement *)

Section refine.
Context {A : Type} `{hh : Hhdm, pmode : PagingMode, fo : FrameOps A}.
Context `{fl : !FrameLaws A}.

(** The page maps [sys] have the trees [Ts], that share but for the lower halves,
    and the entries [m]. *)
Record spaces_rep (sys : spaces A) (Ts : list (gmap (list Z) Z)) (m : mappings) : Prop := SpacesRep {
  rp_trees : length Ts = length (sp_maps sys);
  rp_users : length (mp_user m) = length (sp_maps sys);
  rp_base : sp_maps sys ≠ [];
  rp_map : ∀ k pm T, sp_maps sys !! k = Some pm → Ts !! k = Some T →
    tree_ok (vm_of sys pm) T ∧ upper_tables T ∧ lock_free (pm_lock pm) ∧
    ∀ va, entry_of (vm_of sys pm) T va = at_page m k va;
  rp_share : ∀ i j pi pj Ti Tj, i ≠ j →
    sp_maps sys !! i = Some pi → sp_maps sys !! j = Some pj → Ts !! i = Some Ti → Ts !! j = Some Tj →
    shares (vm_of sys pi) (pm_top pi) Ti (pm_top pj) Tj;
}.

Definition refines (sys : spaces A) (m : mappings) : Prop := ∃ Ts, spaces_rep sys Ts m.

(** The tree and the frames are all that matters. *)
Lemma tree_ok_same_frames (s s' : vm A) T :
  vm_frames s' = vm_frames s → top_lvl_ s' = top_lvl_ s → tree_ok s T → tree_ok s' T.
Proof. unfold vm_mem. intros Hf Ht []. split; unfold vm_mem in *; rewrite ?Hf, ?Ht; done. Qed.

Lemma shares_frames (s s' : vm A) t1 T1 t2 T2 :
  vm_frames s' = vm_frames s → shares s t1 T1 t2 T2 → shares s' t1 T1 t2 T2.
Proof. intros Hf []. split; try done; by eapply tree_ok_same_frames; [| |done]. Qed.

Lemma entry_of_frames (s s' : vm A) T va :
  vm_frames s' = vm_frames s → entry_of s' T va = entry_of s T va.
Proof using Type. intros Hf. unfold entry_of, leaf_entry, vm_mem. by rewrite Hf. Qed.

Lemma rep_map sys Ts m k :
  spaces_rep sys Ts m → (k < length (mp_user m))%nat →
  ∃ pm T, sp_maps sys !! k = Some pm ∧ Ts !! k = Some T.
Proof.
  intros [Hl Hu _ _ _] Hk. destruct (lookup_lt_is_Some_2 (sp_maps sys) k) as [pm ?]; [lia|].
  destruct (lookup_lt_is_Some_2 Ts k) as [T ?]; [lia|]. by exists pm, T.
Qed.

(** The trees after page map [k] got the tree [T']. *)
Definition regraft (k : nat) (T' : gmap (list Z) Z) (Ts : list (gmap (list Z) Z)) :=
  imap (λ i T, if decide (i = k) then T' else graft T T') Ts.

Lemma regraft_lookup k T' Ts i T0 :
  regraft k T' Ts !! i = Some T0 ↔
  ∃ T, Ts !! i = Some T ∧ T0 = if decide (i = k) then T' else graft T T'.
Proof using Type.
  unfold regraft. rewrite list_lookup_imap. destruct (Ts !! i); simpl; naive_solver.
Qed.

Lemma entry_in_put m k f i n :
  (k < length (mp_user m))%nat →
  entry_in (put m k f) i n = if decide (kernel_page n ∨ i = k) then f n else entry_in m i n.
Proof using Type.
  intros Hk. unfold entry_in, put. cbn [mp_kernel mp_user]. destruct (decide (kernel_page n)).
  - by rewrite decide_True by by left.
  - destruct (decide (i = k)) as [->|Hne].
    + rewrite list_lookup_insert_eq, decide_True by auto. done.
    + rewrite list_lookup_insert_ne, decide_False by naive_solver. done.
Qed.

(** What a method leaves of its page map: the entries [f]. *)
Record changed (s : vm A) (T : gmap (list Z) Z) (f : Z → Z) (s' : vm A) (T' : gmap (list Z) Z) :
    Prop := Changed {
  ch_tree : tree_ok s' T';
  ch_sub : T ⊆ T';
  ch_lock : lock_free (lock_ s');
  ch_drawn : frames_drawn s T s' T';
  ch_entry : ∀ va, entry_of s' T' va = f (page_number va);
}.

Lemma changed_trans s T f s1 T1 f' s2 T2 :
  changed s T f s1 T1 → changed s1 T1 f' s2 T2 → changed s T f' s2 T2.
Proof. intros [] []. split; try done; [by etrans|by eapply frames_drawn_trans]. Qed.

(** The root of the tree stays. *)
Lemma changed_top s T f s' T' : tree_ok s T → changed s T f s' T' → top_lvl_ s' = top_lvl_ s.
Proof.
  intros Ht [Ht' Hsub _ _ _]. destruct (tr_root _ _ Ht) as (r & Hr & ->).
  destruct (tr_root _ _ Ht') as (r' & Hr' & ->). f_equal.
  eapply lookup_weaken in Hr; [|done]. congruence.
Qed.

Lemma changed_stepped s T f s' T' :
  tree_ok s T → changed s T f s' T' → stepped (top_lvl_ s) s T s' T'.
Proof.
  intros Ht Hch. pose proof (changed_top _ _ _ _ _ Ht Hch) as Htop. destruct Hch.
  split; [|done..]. by eapply tree_ok_same_frames; [| |done].
Qed.

Section put.
Context (sys : spaces A) (Ts : list (gmap (list Z) Z)) (m : mappings) (k : nat).
Context (pm : page_map) (T : gmap (list Z) Z) (f : Z → Z) (s' : vm A) (T' : gmap (list Z) Z).
Context (Hrep : spaces_rep sys Ts m) (Hpm : sp_maps sys !! k = Some pm) (HT : Ts !! k = Some T).
Context (Hch : changed (vm_of sys pm) T f s' T').

Definition put_spaces : spaces A :=
  Spaces (vm_frames s') (<[k := map_of s']> (sp_maps sys)) (pml3_translation s') (vm_hw s').

Lemma put_stepped : stepped (pm_top pm) (vm_of sys pm) T s' T'.
Proof.
  destruct (rp_map _ _ _ Hrep k pm T Hpm HT) as (Ht & _).
  exact (changed_stepped _ _ _ _ _ Ht Hch).
Qed.

Lemma put_top : pm_top (map_of s') = pm_top pm.
Proof.
  destruct (rp_map _ _ _ Hrep k pm T Hpm HT) as (Ht & _). exact (changed_top _ _ _ _ _ Ht Hch).
Qed.

Lemma put_lookup i p :
  sp_maps put_spaces !! i = Some p ↔
  if decide (i = k) then p = map_of s' else sp_maps sys !! i = Some p.
Proof using Hpm.
  simpl. case_decide as Hi.
  - subst. rewrite list_lookup_insert_eq by by eapply lookup_lt_Some. naive_solver.
  - by rewrite list_lookup_insert_ne.
Qed.

Lemma put_map i p Ti :
  sp_maps put_spaces !! i = Some p → regraft k T' Ts !! i = Some Ti →
  tree_ok (vm_of put_spaces p) Ti ∧ upper_tables Ti ∧ lock_free (pm_lock p) ∧
  ∀ va, entry_of (vm_of put_spaces p) Ti va = at_page (put m k f) i va.
Proof.
  intros Hp%put_lookup (T0 & HT0 & ->)%regraft_lookup. unfold at_page.
  assert (k < length (mp_user m))%nat as Hk.
  { rewrite (rp_users _ _ _ Hrep). by eapply lookup_lt_Some. }
  destruct (rp_map _ _ _ Hrep k pm T Hpm HT) as (_ & Hup & _). pose proof put_stepped as Hst.
  assert (upper_tables T') as Hup' by (eapply upper_tables_mono; [apply Hch|done]).
  destruct (decide (i = k)) as [->|Hne].
  - subst p. split_and!; [by eapply tree_ok_same_frames; [| |apply Hch]|done|apply Hch|].
    intros va. rewrite entry_in_put, decide_True by auto. apply Hch.
  - pose proof (rp_share _ _ _ Hrep k i pm p T T0 (not_eq_sym Hne) Hpm Hp HT HT0) as Hsh.
    destruct (rp_map _ _ _ Hrep i p T0 Hp HT0) as (_ & _ & Hl & He). split_and!; [| |done|].
    + eapply tree_ok_same_frames; [| |by apply (graft_tree _ _ _ _ _ Hst (pm_top p) T0)]; done.
    + intros j Hj. rewrite lookup_graft, decide_True by apply Hj. by apply Hup'.
    + intros va. rewrite entry_in_put by done.
      transitivity (entry_of s' (graft T0 T') va); [done|].
      rewrite (shares_entry_of _ _ _ _ _ Hst (pm_top p) T0) by done.
      repeat case_decide; try tauto; [by apply Hch|]. apply He.
Qed.

Lemma rep_put : spaces_rep put_spaces (regraft k T' Ts) (put m k f).
Proof.
  pose proof put_stepped as Hst. split.
  - unfold regraft. simpl. rewrite length_imap, length_insert. apply Hrep.
  - simpl. rewrite !length_insert. apply Hrep.
  - intros He%(f_equal length). simpl in He. rewrite length_insert in He.
    apply (rp_base _ _ _ Hrep). by apply length_zero_iff_nil.
  - apply put_map.
  - intros i j pi pj Ti Tj Hne Hi%put_lookup Hj%put_lookup (Ti0 & HTi & ->)%regraft_lookup
      (Tj0 & HTj & ->)%regraft_lookup.
    apply (shares_frames s'); [done|].
    assert (∀ i p Ti, i ≠ k → sp_maps sys !! i = Some p → Ts !! i = Some Ti →
      shares (vm_of sys pm) (pm_top pm) T (pm_top p) Ti) as Hsh.
    { intros i' p' Ti' Hik Hp' HT''. by apply (rp_share _ _ _ Hrep k i'). }
    destruct (decide (i = k)) as [->|Hik], (decide (j = k)) as [->|Hjk]; subst; try done.
    + rewrite put_top. apply (shares_step _ _ _ _ _ Hst). by apply (Hsh j).
    + rewrite put_top. apply shares_sym, (shares_step _ _ _ _ _ Hst). by apply (Hsh i).
    + apply (shares_others _ _ _ _ _ Hst); [by apply (Hsh i)|by apply (Hsh j)|].
      by apply (shares_frames (vm_of sys pi)), (rp_share _ _ _ Hrep i j).
Qed.
End put.

(** ** Ranges of pages *)

Lemma all_pages_pos : 0 < all_pages.
Proof using Type. unfold all_pages, levels. by destruct is_paging_mode_max. Qed.

Lemma ranged_index va n x :
  0 ≤ n ≤ all_pages →
  let j := (page_number x - page_number va) mod all_pages in
  (j < n → 0 ≤ j ∧ page_number x = page_number (va + j * PAGE_SIZE)) ∧
  (n ≤ j → ∀ i, 0 ≤ i < n → page_number x ≠ page_number (va + i * PAGE_SIZE)).
Proof using Type.
  intros Hn j. pose proof all_pages_pos as HM. pose proof (Z.mod_pos_bound _ all_pages HM : 0 ≤ j < _).
  assert (∀ i, page_number (va + i * PAGE_SIZE) = (va / PAGE_SIZE + i) mod all_pages) as Hpn.
  { intros i. unfold page_number. by rewrite Z.div_add. }
  assert (∀ y, page_number y = (y / PAGE_SIZE) mod all_pages) as Hpn' by done.
  split.
  - intros Hj. split; [lia|]. rewrite Hpn. unfold j. rewrite !Hpn', <-Zminus_mod.
    rewrite Zplus_mod_idemp_r. f_equal. lia.
  - intros Hj i Hi He. rewrite Hpn, !Hpn' in *. assert (j = i); [|lia].
    unfold j. rewrite !Hpn', He, <-Zminus_mod.
    replace (va / PAGE_SIZE + i - va / PAGE_SIZE) with i by lia. apply Z.mod_small. lia.
Qed.

Lemma range_changed s T f va n v s' T' :
  0 ≤ n ≤ all_pages → (∀ a, entry_of s T a = f (page_number a)) →
  range_set s T va n v s' T' → changed s T (ranged va n v f) s' T'.
Proof.
  intros Hn He [Ht Hl Hsub Hpg Hot Hdr]. split; try done. intros x. unfold ranged.
  destruct (ranged_index va n x Hn) as [Hin Hout]. set (j := _ mod _) in *.
  destruct (Z.ltb_spec j n) as [Hj|Hj].
  - destruct (Hin Hj) as [Hj0 Hx]. rewrite <-Hpg by lia.
    apply page_key in Hx as [E1 E2]. unfold entry_of. by rewrite E1, E2.
  - rewrite <-He. by apply Hot, Hout.
Qed.

Lemma leaf_changed s T f va v s' T' :
  tree_ok s T → 0 ≤ va → (∀ a, entry_of s T a = f (page_number a)) → lock_free (lock_ s') →
  leaf_set s T va v s' T' → changed s T (ranged va 1 (λ _, v) f) s' T'.
Proof.
  intros Ht Hva He Hl [? ? ? Hleaf ? ? Hdr]. split; try done. intros x. unfold ranged.
  pose proof all_pages_pos as HM. assert (0 ≤ 1 ≤ all_pages) as H1 by lia.
  destruct (ranged_index va 1 x H1) as [Hin Hout]. set (j := _ mod _) in *.
  unfold entry_of. rewrite Hleaf by (apply table_path_length || apply leaf_index_range).
  pose proof (page_key x va) as Hk. destruct (Z.ltb_spec j 1) as [Hj|Hj].
  - destruct (Hin Hj) as [Hj0 Hx]. replace j with 0 in Hx by lia. rewrite Z.add_0_r in Hx.
    by rewrite decide_True by tauto.
  - rewrite decide_False; [by rewrite <-He|]. intros Hx%Hk. apply (Hout Hj 0); [lia|].
    by rewrite Z.add_0_r.
Qed.

(** An entry that is not zero is in a table. *)
Lemma entry_table s T va : entry_of s T va ≠ 0 → is_Some (T !! table_path va).
Proof using Type. unfold entry_of, leaf_entry. by destruct (T !! table_path va). Qed.

(** ** One call *)

(** Mappings with the same entries are as good. *)
Lemma refines_ext sys m m' :
  refines sys m → length (mp_user m') = length (mp_user m) →
  (∀ k n, entry_in m' k n = entry_in m k n) → refines sys m'.
Proof.
  intros [Ts [Hl Hu Hb Hm Hs]] Hlen He. exists Ts. split; [done|congruence|done| |done].
  intros k pm T Hp HT. destruct (Hm k pm T Hp HT) as (? & ? & ? & Hva). split_and!; [done..|].
  intros va. unfold at_page. rewrite He. apply Hva.
Qed.

Lemma ranged_ext va n v w f x :
  0 ≤ n ≤ all_pages → (∀ j, 0 ≤ j < n → v j = w j) → ranged va n v f x = ranged va n w f x.
Proof using Type.
  intros Hn Hvw. unfold ranged. pose proof (Z.mod_pos_bound (x - page_number va) _ all_pages_pos).
  destruct (Z.ltb_spec ((x - page_number va) mod all_pages) n); [|done]. apply Hvw. lia.
Qed.

Lemma changed_ext s T f g s' T' :
  (∀ va, f (page_number va) = g (page_number va)) → changed s T f s' T' → changed s T g s' T'.
Proof. intros Hfg []. split; try done. intros va. by rewrite <-Hfg. Qed.

(** A method with the result [r] that makes of the entries [f] the entries [f']. *)
Definition method_ok (f : Z → Z) (method : vm A → outcome (vm A * Z)) (r : Z) (f' : Z → Z) : Prop :=
  ∀ s T, tree_ok s T → lock_free (lock_ s) → (∀ va, entry_of s T va = f (page_number va)) →
  or_panics (method s) (λ '(s', r'), r' = r ∧ ∃ T', changed s T f' s' T').

Lemma on_map_refines k method sys m r f' :
  refines sys m → (k < length (mp_user m))%nat → method_ok (entry_in m k) method r f' →
  or_panics (on_map k method sys) (λ '(sys', r'), r' = r ∧ refines sys' (put m k f')).
Proof.
  intros [Ts Hrep] Hk Hmeth. destruct (rep_map sys Ts m k Hrep Hk) as (pm & T & Hpm & HT).
  destruct (rp_map _ _ _ Hrep k pm T Hpm HT) as (Ht & _ & Hl & He).
  unfold on_map. rewrite Hpm. apply or_panics_bind. eapply or_panics_mono; [by apply (Hmeth _ T)|].
  intros [s' r'] [-> [T' Hch]]. right. cbn [returns]. split; [done|].
  exists (regraft k T' Ts). by apply (rep_put sys Ts m k pm T f' s' T').
Qed.

Section methods.
Context (f : Z → Z) (flags : Z) (Hs : small_flags flags).
Let at_ (va : Z) : Z := f (page_number va).

Lemma map_page_method va pa :
  0 ≤ va → 0 ≤ pa < 2 ^ 64 →
  method_ok f (map_page va pa flags) SYSTEM_OK (ranged va 1 (λ _, Z.lor pa (parse_flags flags)) f).
Proof.
  intros Hva Hpa s T Ht Hl He. apply (map_page_or_panics s T); [done..|].
  intros s' T' Hset Hl' _. split; [done|]. exists T'. by apply leaf_changed.
Qed.

Lemma unmap_page_method va :
  0 ≤ va → at_ va ≠ 0 → method_ok f (unmap_page va flags) SYSTEM_OK (ranged va 1 (λ _, 0) f).
Proof.
  intros Hva Hne s T Ht Hl He. destruct (entry_table s T va) as [g Hg]; [by rewrite He|].
  apply returns_or_panics, (unmap_page_returns s T va flags g); [done..|].
  intros s' Hset Hl' _ _. split; [done|]. exists T. by apply leaf_changed.
Qed.

Lemma setflags_page_method va :
  0 ≤ va →
  method_ok f (setflags_page va flags) SYSTEM_OK
    (ranged va 1 (λ _, Z.lor (entry_get_address (at_ va)) (parse_flags flags)) f).
Proof.
  intros Hva s T Ht Hl He. apply (setflags_page_or_panics s T); [done..|].
  intros s' T' Hset Hl' _. split; [done|]. exists T'. unfold at_. rewrite <-He. by apply leaf_changed.
Qed.

Lemma lookup_method va :
  at_ va ≠ 0 → method_ok f (virtual_to_physical va flags) (resolve (at_ va) va) f.
Proof.
  intros Hne s T Ht Hl He. destruct (entry_table s T va) as [g Hg]; [by rewrite He|].
  apply returns_or_panics, (virtual_to_physical_returns s T va flags g); [done..|].
  intros l Hl'. split; [unfold at_; by rewrite <-He|]. exists T.
  destruct (frames_drawn_refl s T). split; [by apply tree_ok_lock|done|done|by split|exact He].
Qed.

Lemma map_pages_method va pa n :
  count_ok n → range_ok va n → range_ok pa n →
  method_ok f (map_pages va pa (n * PAGE_SIZE) flags) SYSTEM_OK
    (ranged va n (λ j, Z.lor (pa + j * PAGE_SIZE) (parse_flags flags)) f).
Proof.
  intros [? ?] [? ?] [? ?] s T Ht Hl He. apply (map_pages_or_panics s T); [done..|].
  intros s' T' Hset. split; [done|]. exists T'. by apply range_changed.
Qed.

Lemma unmap_pages_method va n :
  count_ok n → range_ok va n → (∀ j, 0 ≤ j < n → at_ (va + j * PAGE_SIZE) ≠ 0) →
  method_ok f (unmap_pages va (n * PAGE_SIZE) flags) SYSTEM_OK (ranged va n (λ _, 0) f).
Proof.
  intros [? ?] [? ?] Hne s T Ht Hl He.
  apply returns_or_panics, (unmap_pages_returns s T); [done..| |].
  { intros j Hj. apply (entry_table s). rewrite He. by apply Hne. }
  intros s' Hset. split; [done|]. exists T. by apply range_changed.
Qed.

Lemma setflags_pages_method va n :
  count_ok n → range_ok va n →
  method_ok f (setflags_pages va (n * PAGE_SIZE) flags) SYSTEM_OK
    (ranged va n (λ j, Z.lor (entry_get_address (at_ (va + j * PAGE_SIZE))) (parse_flags flags)) f).
Proof.
  intros [? ?] [? ?] s T Ht Hl He. apply (setflags_pages_or_panics s T); [done..|].
  intros s' T' Hset. split; [done|]. exists T'.
  eapply changed_ext; [|by apply range_changed]. intros a. apply ranged_ext; [done|].
  intros j _. by rewrite He.
Qed.
End methods.

Lemma remap_page_method f flags old new :
  small_flags flags → 0 ≤ old → 0 ≤ new → f (page_number old) ≠ 0 →
  method_ok f (remap_page old new flags) SYSTEM_OK (moved old new flags f).
Proof.
  intros Hs Hold Hnew Hne s T Ht Hl He. unfold remap_page. apply or_panics_bind.
  eapply or_panics_mono; [by apply (lookup_method f flags Hs old Hne s T)|].
  intros [s1 r1] (-> & T1 & Hch1). apply or_panics_bind.
  eapply or_panics_mono.
  { by apply (unmap_page_method f flags Hs old Hold Hne s1 T1); apply Hch1. }
  intros [s2 r2] (_ & T2 & Hch2). eapply or_panics_mono.
  { by apply (map_page_method (ranged old 1 (λ _, 0) f) flags Hs new _ Hnew
      (resolve_range (f (page_number old)) old) s2 T2); apply Hch2. }
  intros [s3 r3] (-> & T3 & Hch3). split; [done|]. exists T3.
  by eapply changed_trans; [exact Hch1|eapply changed_trans].
Qed.

Lemma changed_refl s T f :
  tree_ok s T → lock_free (lock_ s) → (∀ va, entry_of s T va = f (page_number va)) → changed s T f s T.
Proof. intros. by split; [..|apply frames_drawn_refl|]. Qed.

Lemma remap_pages_method f flags old new n :
  small_flags flags → count_ok n → range_ok old n → range_ok new n →
  (∀ j : nat, Z.of_nat j < n →
     moved_pages old new flags j f (page_number (old + Z.of_nat j * PAGE_SIZE)) ≠ 0) →
  method_ok f (remap_pages old new (n * PAGE_SIZE) flags) SYSTEM_OK
    (moved_pages old new flags (Z.to_nat n) f).
Proof.
  intros Hs [Hn ?] [? ?] [? ?] Hne s T Ht Hl He. unfold remap_pages, each_page.
  rewrite (small_page_size flags Hs), Z.div_mul by done.
  apply (loop_or_panics _ (λ '(s1, i), ∃ j : nat, i = Z.of_nat j * PAGE_SIZE ∧ Z.of_nat j ≤ n ∧
           ∃ T1, changed s T (moved_pages old new flags j f) s1 T1)
    (λ '(_, i), Z.to_nat (n - i / PAGE_SIZE))).
  - intros [s1 i] (j & -> & Hj & T1 & Hch). destruct (decide (Z.of_nat j = n)) as [<-|Hjn].
    { rewrite (proj2 (Z.ltb_ge _ _)) by lia. right. cbn [returns]. rewrite Nat2Z.id.
      split; [done|by exists T1]. }
    rewrite (proj2 (Z.ltb_lt _ _)) by (unfold PAGE_SIZE; lia). apply or_panics_bind.
    rewrite !u64_small by (unfold PAGE_SIZE in *; lia). eapply or_panics_mono.
    { apply (remap_page_method (moved_pages old new flags j f) flags); [done| | | |apply Hch..];
        [unfold PAGE_SIZE; lia..|]. apply Hne. lia. }
    intros [s2 r] (-> & T2 & Hch2). change (SYSTEM_OK =? SYSTEM_OK) with true. cbn [negb]. right.
    cbn [returns]. replace (Z.of_nat j * PAGE_SIZE + PAGE_SIZE) with (Z.of_nat (S j) * PAGE_SIZE) by lia.
    split; [|rewrite !Z.div_mul by done; lia].
    exists (S j). split_and!; [done|lia|]. exists T2. by eapply changed_trans.
  - exists 0%nat. split_and!; [done|lia|]. exists T. by apply changed_refl.
  - rewrite Z.div_0_l by done. lia.
Qed.

(** A new map takes nothing from the others. *)
Section new.
Context (sys : spaces A) (Ts : list (gmap (list Z) Z)) (m : mappings) (base : page_map).
Context (T : gmap (list Z) Z) (s' : vm A) (g : Z).
Context (Hrep : spaces_rep sys Ts m) (Hb : sp_maps sys !! 0%nat = Some base).
Context (HT : Ts !! 0%nat = Some T).

Let s : vm A := vm_of sys (PageMap 0 TicketLock_init).
Context (Hum : user_map s (pm_top base) T g s').

Definition new_spaces : spaces A :=
  Spaces (vm_frames s') (sp_maps sys ++ [map_of s']) (pml3_translation s') (vm_hw s').
Definition new_mappings : mappings := Mappings (mp_kernel m) (mp_user m ++ [λ _, 0]).

Lemma new_base : tree_ok (set_top (pm_top base) s) T ∧ upper_tables T.
Proof.
  destruct (rp_map _ _ _ Hrep 0%nat base T Hb HT) as (Ht & Hup & _). split; [|done].
  by eapply tree_ok_same_frames; [| |exact Ht].
Qed.

Lemma new_shares i p Ti :
  i ≠ 0%nat → sp_maps sys !! i = Some p → Ts !! i = Some Ti →
  shares s (pm_top base) T (pm_top p) Ti.
Proof.
  intros Hi Hp HTi. apply (shares_frames (vm_of sys base)); [done|].
  by apply (rp_share _ _ _ Hrep 0%nat i).
Qed.

Lemma old_shares i p Ti :
  i ≠ 0%nat → sp_maps sys !! i = Some p → Ts !! i = Some Ti →
  shares s' (pm_top base) T (pm_top p) Ti.
Proof.
  intros Hi Hp HTi. pose proof (new_shares i p Ti Hi Hp HTi) as Hsh.
  rewrite <-(graft_same _ _ _ _ _ Hsh).
  by apply (shares_step _ _ _ _ _ (um_step _ _ _ _ _ Hum)).
Qed.

Lemma old_entry i f va :
  mp_user m !! i = Some f → at_page new_mappings i va = at_page m i va.
Proof using Type.
  intros Hi. unfold at_page, entry_in, new_mappings. simpl.
  by rewrite lookup_app_l by by eapply lookup_lt_Some.
Qed.

Lemma old_map i p Ti :
  sp_maps sys !! i = Some p → Ts !! i = Some Ti →
  tree_ok (vm_of new_spaces p) Ti ∧ upper_tables Ti ∧ lock_free (pm_lock p) ∧
  ∀ va, entry_of (vm_of new_spaces p) Ti va = at_page new_mappings i va.
Proof.
  intros Hp HTi. destruct (rp_map _ _ _ Hrep i p Ti Hp HTi) as (_ & Hup & Hl & He).
  destruct (lookup_lt_is_Some_2 (mp_user m) i) as [f Hf].
  { rewrite (rp_users _ _ _ Hrep). by eapply lookup_lt_Some. }
  assert (tree_ok (set_top (pm_top p) s') Ti ∧ ∀ va, entry_of s' Ti va = entry_of s Ti va)
    as [Ht Hsame].
  { destruct (decide (i = 0%nat)) as [->|Hi].
    - assert (p = base) as -> by congruence. assert (Ti = T) as -> by congruence.
      split; apply Hum.
    - split; [by apply (sh_right _ _ _ _ _ (old_shares i p Ti Hi Hp HTi))|]. intros va.
      pose proof (new_shares i p Ti Hi Hp HTi) as Hsh.
      transitivity (entry_of s' (graft Ti T) va); [by rewrite (graft_same _ _ _ _ _ Hsh)|].
      rewrite (shares_entry_of _ _ _ _ _ (um_step _ _ _ _ _ Hum) _ _ _ Hsh).
      case_decide; [|done]. rewrite (um_entry _ _ _ _ _ Hum). symmetry.
      by apply (shares_kernel s (pm_top base) T (pm_top p) Ti). }
  split_and!; [by eapply tree_ok_same_frames; [| |exact Ht]|done|done|].
  intros va. rewrite (old_entry i f va Hf), <-He. apply Hsame.
Qed.

Lemma new_map_rep :
  tree_ok (vm_of new_spaces (map_of s')) (graft {[ [] := g ]} T) ∧
  upper_tables (graft {[ [] := g ]} T) ∧ lock_free (lock_ s') ∧
  ∀ va, entry_of (vm_of new_spaces (map_of s')) (graft {[ [] := g ]} T) va =
    at_page new_mappings (length (sp_maps sys)) va.
Proof.
  destruct new_base as [Ht Hup]. split_and!.
  - eapply tree_ok_same_frames; [| |exact (um_tree _ _ _ _ _ Hum)]; done.
  - by apply user_map_upper.
  - rewrite (um_lock _ _ _ _ _ Hum). by split.
  - intros va. transitivity (entry_of s' (graft {[ [] := g ]} T) va); [done|].
    rewrite (user_map_entry _ _ _ _ _ Hum). unfold at_page, entry_in, new_mappings. simpl.
    rewrite <-(rp_users _ _ _ Hrep), list_lookup_middle by done. case_decide; [|done].
    destruct (rp_map _ _ _ Hrep 0%nat base T Hb HT) as (_ & _ & _ & He).
    transitivity (at_page m 0 va); [by rewrite <-He|]. unfold at_page, entry_in.
    by rewrite decide_True.
Qed.

Lemma new_shares_all i p Ti :
  sp_maps sys !! i = Some p → Ts !! i = Some Ti →
  shares s' (pm_top p) Ti (top_lvl_ s') (graft {[ [] := g ]} T).
Proof.
  intros Hp HTi. rewrite (um_top _ _ _ _ _ Hum). destruct new_base as [Ht Hup].
  destruct (decide (i = 0%nat)) as [->|Hi].
  - assert (p = base) as -> by congruence. assert (Ti = T) as -> by congruence.
    by apply (user_map_shares s (pm_top base) T g s').
  - apply shares_sym, (user_map_others s (pm_top base) T g s'); [done..|by apply (new_shares i)].
Qed.

Lemma old_shares_all i j pi pj Ti Tj :
  i ≠ j → sp_maps sys !! i = Some pi → sp_maps sys !! j = Some pj →
  Ts !! i = Some Ti → Ts !! j = Some Tj → shares s' (pm_top pi) Ti (pm_top pj) Tj.
Proof.
  intros Hne Hpi Hpj HTi HTj.
  destruct (decide (i = 0%nat)) as [->|Hi], (decide (j = 0%nat)) as [->|Hj]; [done|..].
  - assert (pi = base) as -> by congruence. assert (Ti = T) as -> by congruence.
    by apply (old_shares j).
  - assert (pj = base) as -> by congruence. assert (Tj = T) as -> by congruence.
    by apply shares_sym, (old_shares i).
  - pose proof (new_shares i pi Ti Hi Hpi HTi) as Hsi.
    pose proof (new_shares j pj Tj Hj Hpj HTj) as Hsj.
    rewrite <-(graft_same _ _ _ _ _ Hsi), <-(graft_same _ _ _ _ _ Hsj).
    apply (shares_others _ _ _ _ _ (um_step _ _ _ _ _ Hum)); [done|done|].
    by apply (shares_frames (vm_of sys pi)), (rp_share _ _ _ Hrep i j).
Qed.

Lemma rep_new : spaces_rep new_spaces (Ts ++ [graft {[ [] := g ]} T]) new_mappings.
Proof.
  pose proof (rp_trees _ _ _ Hrep) as Hlen. split.
  - simpl. rewrite !length_app, Hlen. done.
  - simpl. rewrite !length_app, (rp_users _ _ _ Hrep). done.
  - simpl. by destruct (sp_maps sys).
  - intros i p Ti [[? Hp]|[-> <-]]%lookup_snoc_Some [[? HTi]|[? <-]]%lookup_snoc_Some; try lia.
    + by apply old_map.
    + apply new_map_rep.
  - intros i j pi pj Ti Tj Hne Hpi Hpj HTi HTj. apply (shares_frames s'); [done|].
    apply lookup_snoc_Some in Hpi as [[Hi Hpi]|[Hi <-]], Hpj as [[Hj Hpj]|[Hj <-]],
      HTi as [[Hi' HTi]|[Hi' <-]], HTj as [[Hj' HTj]|[Hj' <-]]; try lia.
    + by apply (old_shares_all i j).
    + by apply (new_shares_all i).
    + by apply shares_sym, (new_shares_all j).
Qed.
End new.

(** A new page map. *)
Lemma new_map_refines huge_page sys m :
  refines sys m →
  or_panics (new_map huge_page sys) (λ '(sys', r), r = SYSTEM_OK ∧
    refines sys' (Mappings (mp_kernel m) (mp_user m ++ [λ _, 0]))).
Proof.
  intros [Ts Hrep]. unfold new_map. destruct (sp_maps sys) as [|base maps] eqn:Hmaps.
  { by destruct (rp_base _ _ _ Hrep). }
  destruct (rep_map sys Ts m 0 Hrep) as (pm & T & Hpm & HT).
  { rewrite (rp_users _ _ _ Hrep), Hmaps. simpl. lia. }
  rewrite Hmaps in Hpm. injection Hpm as <-.
  destruct (rp_map _ _ _ Hrep 0%nat base T) as (Ht & Hup & _); [by rewrite Hmaps|done|].
  apply or_panics_bind, (initialize_user_or_panics huge_page (pm_top base) T);
    [by eapply tree_ok_same_frames; [| |exact Ht]|done|].
  intros s' g Hum. right. cbn [returns]. split; [done|]. rewrite <-Hmaps.
  exists (Ts ++ [graft {[ [] := g ]} T]).
  apply (rep_new sys Ts m base T s' g); [done|by rewrite Hmaps|done|done].
Qed.

Lemma space_step_refines huge_page op sys m :
  refines sys m → op_ok op m →
  or_panics (space_step huge_page op sys) (λ '(sys', r),
    r = (mapping_step op m).2 ∧ refines sys' (mapping_step op m).1).
Proof.
  intros Hr Hok. destruct op; simpl in Hok |- *; destruct_and?;
    [by apply new_map_refines|apply on_map_refines; [done|done|]..|].
  - by apply map_page_method.
  - by apply unmap_page_method.
  - by apply setflags_page_method.
  - by apply remap_page_method.
  - by apply map_pages_method.
  - by apply unmap_pages_method.
  - by apply setflags_pages_method.
  - by apply remap_pages_method.
  - eapply or_panics_mono.
    { apply on_map_refines; [done|done|]. by apply lookup_method. }
    intros [sys' r] [-> Hr']. split; [done|]. apply (refines_ext _ _ _ Hr').
    + simpl. by rewrite length_insert.
    + intros i n. rewrite entry_in_put by done. case_decide as Hd; [|done].
      destruct Hd as [Hk| ->]; [|done]. unfold entry_in. by rewrite !decide_True.
Qed.

Lemma space_run_refines huge_page ops sys m :
  refines sys m → ops_ok ops m →
  or_panics (space_run huge_page ops sys) (λ '(sys', rs),
    rs = (mapping_run ops m).2 ∧ refines sys' (mapping_run ops m).1).
Proof.
  revert sys m. induction ops as [|op ops IH]; intros sys m Hr Hok; simpl.
  { right. by split. }
  destruct Hok as [Hop Hok]. apply or_panics_bind.
  eapply or_panics_mono; [by apply space_step_refines|]. intros [sys1 r] [-> Hr1].
  apply or_panics_bind. eapply or_panics_mono; [by apply IH|]. intros [sys2 rs] [-> Hr2].
  right. cbn [returns]. destruct (mapping_step op m) as [m1 r1]; simpl in *.
  by destruct (mapping_run ops m1).
Qed.

(** What the processor translates, with page map [k] loaded. *)
Lemma refines_translate pat sys m k pm va :
  refines sys m → sp_maps sys !! k = Some pm →
  translate pat (vm_of sys pm) va =
  if decide (canonical va) then leaf_translation pat (at_page m k va) va else None.
Proof.
  intros [Ts Hrep] Hpm. destruct (rep_map sys Ts m k Hrep) as (pm' & T & Hpm' & HT).
  { rewrite (rp_users _ _ _ Hrep). by eapply lookup_lt_Some. }
  assert (pm' = pm) as -> by congruence.
  destruct (rp_map _ _ _ Hrep k pm T Hpm HT) as (Ht & _ & _ & He). case_decide as Hc.
  - rewrite <-He. by apply translate_entry.
  - unfold translate. by rewrite decide_False.
Qed.

(** The page map of start-up is the first of them. *)
Definition first_mappings (s : vm A) (T : gmap (list Z) Z) : mappings :=
  let f n := entry_of s T (n * PAGE_SIZE) in Mappings f [f].

Lemma first_refines (s : vm A) T :
  tree_ok s T → upper_tables T → lock_free (lock_ s) →
  refines (first_space s) (first_mappings s T) ∧
  ∀ va, at_page (first_mappings s T) 0 va = entry_of s T va.
Proof.
  intros Ht Hup Hl.
  assert (∀ va, at_page (first_mappings s T) 0 va = entry_of s T va) as He.
  { intros va. unfold at_page, entry_in, first_mappings. simpl.
    assert (page_number (page_number va * PAGE_SIZE) = page_number va) as Hp.
    { unfold page_number. rewrite Z.div_mul by done. apply Z.mod_mod.
      apply Z.pow_nonzero; unfold levels; lia. }
    apply page_key in Hp as [E1 E2]. case_decide; unfold entry_of; by rewrite E1, E2. }
  split; [|done]. exists [T]. split; [done|done|done| |].
  - intros [|k] pm T0 Hpm HT0; [|done]. injection Hpm as <-. injection HT0 as <-.
    split_and!; [by eapply tree_ok_same_frames; [| |exact Ht]|done|done|].
    intros va. by rewrite He.
  - intros [|i] [|j] pi pj Ti Tj Hne Hi Hj; done.
Qed.
End refine.

(** * Properties *)

(** After start-up the kernel's page map, alone, has the entries of its tree. *)
Theorem virtual_initialize_refines `{hh : Hhdm, pmode : PagingMode, fo : FrameOps A, !FrameLaws A}
    limit huge_page memmaps vb pb size (s : vm A) :
  fr_ok (vm_frames s) → lock_free (lock_ s) → direct_ok limit → limit * PAGE_SIZE ≤ 2 ^ 63 →
  Forall (entry_within limit) memmaps → kernel_within vb pb size →
  or_panics (virtual_initialize huge_page memmaps vb pb size s) (λ s', ∃ T,
    address_space (vm_frames s) memmaps vb pb size s' T ∧
    refines (first_space s') (first_mappings s' T) ∧
    ∀ va, at_page (first_mappings s' T) 0 va = entry_of s' T va).
Proof.
  intros Hok Hl Hd Htop Hall Hk. apply (virtual_initialize_or_panics limit); [done..|].
  intros s' T Has. exists T. split; [done|]. apply first_refines; apply Has.
Qed.


#[local] Existing Instance sample_hhdm.
#[local] Existing Instance sample_mode.
#[local] Opaque sample_pages.

(** Two user page maps: what the kernel's map maps in its half is found in the
    second, what the first user's maps is not. *)
Definition sample_calls : list space_op :=
  [NewMap; MapPage 1 0x400000 0x1234000 (Z.lor MAP_READ MAP_USER); NewMap;
   MapPages 0 0xffff900000000000 0x55000 3 (Z.lor MAP_READ MAP_WRITE);
   Lookup 2 0xffff900000002010 0; RemapPages 1 0x400000 0x7ff000 1 MAP_READ; Lookup 1 0x7ffabc 0].

