(* ===== verification/VirtualAlloc.v ===== *)
(** * The search of [virtual_allocate]: [kernel/memory/virtual.cpp]

    [virtual_allocate] tries the ranges between its bounds one page apart, lowest
    first, and takes the first in which no page has a valid entry.  It looks
    through tables that do not exist: their entries are those of physical page
    0, which is why page 0 has to be blank. *)
From S2P Require Import Prelude Mem Lock Addr Physical Frames Paging PagingWalk PagingMap PagingRange.
From S2P Require Import Virtual.

Section alloc.
Context {A : Type} `{hh : Hhdm, pmode : PagingMode, fo : FrameOps A}.
Context `{fl : !FrameLaws A}.

(** The words of physical page 0 are zero. *)
Definition page_zero_blank (s : vm A) : Prop :=
  ∀ i, 0 ≤ i < 512 → ld64 (vm_mem s) (hhdm_offset + 8 * i) = Ok 0.

(** No page of the [n] pages from [start] on has a valid entry. *)
Definition page_free (s : vm A) (T : gmap (list Z) Z) (va : Z) : Prop :=
  is_valid (entry_of s T va) = false.
Definition range_free (s : vm A) (T : gmap (list Z) Z) (start n : Z) : Prop :=
  ∀ k, 0 ≤ k < n → page_free s T (start + k * PAGE_SIZE).

(** ** The walk without allocation *)

Section walk.
Context (s : vm A) (T : gmap (list Z) Z).
Hypothesis tree : tree_ok s T.
Hypothesis blank : page_zero_blank s.

(** Where the walk is behind the indices [p]. *)
Definition table_base (p : list Z) : Z :=
  match T !! p with Some f => frame_base f | None => hhdm_offset end.

Lemma hhdm_bounds : 0 < hhdm_offset ∧ hhdm_offset + PAGE_SIZE ≤ 2 ^ 64.
Proof using tree.
  destruct (fr_hhdm _ (tr_frames _ _ tree)) as [? ?]. unfold PAGE_SIZE in *. dlia.
Qed.

Lemma table_base_pos p : (table_base p =? 0) = false.
Proof using tree.
  unfold table_base. destruct (T !! p) as [f|] eqn:E.
  - exact (proj1 (table_pointer s T p f 0 tree E ltac:(lia))).
  - apply Z.eqb_neq. pose proof hhdm_bounds. lia.
Qed.

Lemma page_zero_entry i : 0 ≤ i < 512 → load_entry (entry_at hhdm_offset i) s = Ok 0.
Proof using tree blank.
  intros Hi. pose proof hhdm_bounds. unfold load_entry, entry_at, PAGE_SIZE in *.
  rewrite u64_small by lia. by apply blank.
Qed.

(** The entry there, of a table that is not a leaf. *)
Lemma entry_any p i :
  (S (length p) < levels)%nat → 0 ≤ i < 512 →
  ∃ v, load_entry (entry_at (table_base p) i) s = Ok v ∧
    match T !! (p ++ [i]) with Some g => points_to v g | None => v = 0 end.
Proof using tree blank.
  intros Hlen Hi. unfold table_base. destruct (T !! p) as [f|] eqn:E.
  - rewrite (proj2 (table_pointer s T p f i tree E Hi)). by apply (tr_entry s T tree p f i).
  - exists 0. split; [by apply page_zero_entry|].
    destruct (T !! (p ++ [i])) as [g|] eqn:Eg; [|done].
    destruct (tr_closed _ _ tree p i) as [[f Hf] _]; [by exists g|congruence].
Qed.

Lemma next_any mp p i va old new (Q : vm A * Z → Prop) :
  (S (length p) < levels)%nat → 0 ≤ i < 512 → Q (s, table_base (p ++ [i])) →
  returns (get_next_lvl mp (entry_at (table_base p) i) false va old new s) Q.
Proof using tree blank.
  intros Hlen Hi HQ. destruct (entry_any p i Hlen Hi) as (v & Hv & Hg).
  unfold table_base in HQ at 1. destruct (T !! (p ++ [i])) as [g|] eqn:Eg.
  - destruct Hg as (Hva & Hlg & Had & _). unfold get_next_lvl. rewrite Hv, bind_ok, Hva, Hlg.
    cbn [andb]. rewrite bind_ok, Had. destruct (tr_frame _ _ tree _ _ Eg) as (_ & Hf & _).
    by destruct (frame_pointer s g (tr_frames _ _ tree) Hf) as [-> _].
  - subst v. apply next_dead; [apply (fr_hhdm _ (tr_frames _ _ tree))| |done].
    by exists 0.
Qed.

Lemma large_any p i (Q : bool → Prop) :
  (S (length p) < levels)%nat → 0 ≤ i < 512 → Q false →
  returns (v ← load_entry (entry_at (table_base p) i) s; Ok (is_large v)) Q.
Proof using tree blank.
  intros Hlen Hi HQ. destruct (entry_any p i Hlen Hi) as (v & -> & Hg). rewrite bind_ok.
  cbn [returns]. destruct (T !! (p ++ [i])); [by destruct Hg as (_ & -> & _)|by subst].
Qed.

Ltac any_step :=
  rewrite ?bind_ok; cbv iota; bind_step;
  first [eapply (next_any _ _ (GET_PML_ENTRY _ _));
           [cbn [length app]; lia|apply GET_PML_ENTRY_range|cbn [app]; rewrite table_base_pos]
        |eapply large_any; [cbn [length app]; lia|apply GET_PML_ENTRY_range|]].

(** The walk ends at the last table's entry, or at page 0's. *)
Lemma walk_any mp va (Q : vm A * Z → Prop) :
  Q (s, entry_at (table_base (table_path va)) (leaf_index va)) →
  returns (virtual_to_entry mp va false PAGE_SIZE true s) Q.
Proof using tree blank.
  intros HQ. destruct (tr_root _ _ tree) as (r & Hr & Htop).
  assert (top_lvl_ s = table_base []) as Eroot by (unfold table_base; by rewrite Hr).
  unfold virtual_to_entry, get_next_lvl_default. rewrite Eroot, table_base_pos.
  change (PAGE_SIZE =? PAGE_SIZE_1GiB) with false.
  change (PAGE_SIZE =? PAGE_SIZE_2MiB) with false.
  assert (levels = if is_paging_mode_max then 5%nat else 4%nat) as Hlv by done.
  unfold table_path in HQ. destruct is_paging_mode_max; cbn [app] in HQ.
  - do 6 any_step. exact HQ.
  - rewrite bind_ok, table_base_pos. do 5 any_step. exact HQ.
Qed.

Lemma load_any va :
  load_entry (entry_at (table_base (table_path va)) (leaf_index va)) s = Ok (entry_of s T va).
Proof using tree blank.
  unfold table_base, entry_of. destruct (T !! table_path va) as [f|] eqn:E.
  - rewrite (proj2 (table_pointer s T _ f _ tree E (leaf_index_range va))).
    by apply leaf_entry_load with (f := f).
  - rewrite page_zero_entry by apply leaf_index_range. unfold leaf_entry. by rewrite E.
Qed.

(** ** The scan *)

Lemma scan_range_returns start n (Q : vm A * Z → Prop) :
  0 ≤ start → 0 ≤ n → start + n * PAGE_SIZE < 2 ^ 64 →
  (range_free s T start n → Q (s, start + n * PAGE_SIZE)) →
  (∀ k, 0 ≤ k < n → ¬ page_free s T (start + k * PAGE_SIZE) → Q (s, start + k * PAGE_SIZE)) →
  returns (scan_range start (n * PAGE_SIZE) s) Q.
Proof using tree blank.
  intros Hst Hn Hend Hfree Hused. unfold scan_range. rewrite Z.div_mul by done.
  apply (loop_returns _ (λ '(s', a), s' = s ∧ ∃ k, a = start + k * PAGE_SIZE ∧ 0 ≤ k ≤ n ∧
    range_free s T start k) (λ '(_, a), Z.to_nat (n - (a - start) / PAGE_SIZE))).
  - intros [s' a] (-> & k & -> & Hk & Hkf). rewrite (u64_small (start + _)) by (unfold PAGE_SIZE in *; lia).
    destruct (Z.ltb_spec (start + k * PAGE_SIZE) (start + n * PAGE_SIZE)).
    + bind_step. apply walk_any. rewrite load_any, bind_ok.
      destruct (is_valid (entry_of s T (start + k * PAGE_SIZE))) eqn:E; cbn [returns].
      * apply Hused; [unfold PAGE_SIZE in *; lia|]. unfold page_free. by rewrite E.
      * rewrite u64_small by (unfold PAGE_SIZE in *; lia). split.
        -- split; [done|]. exists (k + 1). split_and!; [lia|lia|unfold PAGE_SIZE in *; lia|].
           intros j Hj. destruct (decide (j = k)) as [->|]; [done|]. apply Hkf. lia.
        -- replace (start + k * PAGE_SIZE + PAGE_SIZE - start) with ((k + 1) * PAGE_SIZE) by lia.
           replace (start + k * PAGE_SIZE - start) with (k * PAGE_SIZE) by lia.
           rewrite !Z.div_mul by done. unfold PAGE_SIZE in *. lia.
    + cbn [returns]. assert (k = n) as -> by (unfold PAGE_SIZE in *; lia). by apply Hfree.
  - split; [done|]. exists 0. split_and!; [lia|lia|lia|]. intros j Hj. lia.
  - rewrite Z.sub_diag. change (0 / PAGE_SIZE) with 0. lia.
Qed.
End walk.

(** ** The search *)

(** Candidate [j] of a search is allowed, and all before it were taken. *)
Definition first_fit (s : vm A) (T : gmap (list Z) Z) (base end_ n j : Z) : Prop :=
  (j = 0 ∨ 0 < j ∧ base + j * PAGE_SIZE < end_) ∧
  range_free s T (base + j * PAGE_SIZE) n ∧
  ∀ i, 0 ≤ i < j → ¬ range_free s T (base + i * PAGE_SIZE) n.

Lemma tree_ok_load (s : vm A) T : tree_ok s T → tree_ok (load s) T.
Proof. by intros []. Qed.

Lemma virtual_allocate_between_or_panics (s : vm A) T base limit n flags
    (Q : vm A * Z → Prop) :
  tree_ok s T → lock_free (lock_ s) → page_zero_blank s → small_flags flags →
  0 ≤ base → 0 ≤ n ≤ all_pages → base + n * PAGE_SIZE ≤ limit < 2 ^ 64 →
  (∀ j s1 T1 fs, 0 ≤ j → first_fit s T base (limit - n * PAGE_SIZE) n j →
     Z.of_nat (length fs) = n → filled s T (base + j * PAGE_SIZE) 0 flags fs s1 T1 →
     Q (load s1, base + j * PAGE_SIZE)) →
  ((∀ j, j = 0 ∨ 0 < j ∧ base + j * PAGE_SIZE < limit - n * PAGE_SIZE →
     ¬ range_free s T (base + j * PAGE_SIZE) n) → Q (load s, 0)) →
  or_panics (virtual_allocate_between base limit n flags s) Q.
Proof.
  intros Ht Hl Hz Hs Hb [Hn0 Hn] Hlim Hfit Hnone. pose proof all_pages_le.
  unfold virtual_allocate_between. rewrite (u64_small (n * PAGE_SIZE)) by (unfold PAGE_SIZE; lia).
  rewrite u64_small by (unfold PAGE_SIZE in *; lia). set (e := limit - n * PAGE_SIZE) in *.
  apply (loop_or_panics _ (λ '(s', start), s' = s ∧ ∃ j, start = base + j * PAGE_SIZE ∧ 0 ≤ j ∧
    (j = 0 ∨ 0 < j ∧ start < e) ∧ ∀ i, 0 ≤ i < j → ¬ range_free s T (base + i * PAGE_SIZE) n)
    (λ '(_, start), Z.to_nat ((e - start) / PAGE_SIZE))).
  2: { split; [done|]. exists 0. split_and!; [lia|lia|by left|]. intros i ?. lia. }
  2: lia.
  intros [s' start] (-> & j & -> & Hj & Hje & Hno).
  assert (base + j * PAGE_SIZE ≤ e) as Hle by (unfold e; destruct Hje as [->|[_ ?]]; lia).
  assert (base + j * PAGE_SIZE + n * PAGE_SIZE ≤ limit) as Htop by (unfold e in Hle; lia).
  apply or_panics_bind, returns_or_panics.
  apply (scan_range_returns s T Ht Hz); [unfold PAGE_SIZE; lia|lia|lia| |].
  - intros Hfree. rewrite u64_small by (unfold PAGE_SIZE in *; lia).
    rewrite (proj2 (Z.leb_le _ _)) by lia. apply or_panics_bind.
    eapply or_panics_mono.
    { apply (fill_range_maps_shifted s T); [done|done|done|unfold PAGE_SIZE; lia|done|done|lia]. }
    intros [s1 ok] (-> & T1 & fs & Hlen & Hf). right. cbn [returns]. by apply (Hfit j s1 T1 fs).
  - intros k Hk Hused. rewrite u64_small by (unfold PAGE_SIZE in *; lia).
    rewrite (proj2 (Z.leb_gt _ _)) by (unfold PAGE_SIZE; lia). right.
    assert (¬ range_free s T (base + j * PAGE_SIZE) n) as Hnot by (intros Hf; by apply Hused, Hf).
    rewrite u64_small by (unfold PAGE_SIZE in *; lia).
    assert (base + j * PAGE_SIZE + PAGE_SIZE = base + (j + 1) * PAGE_SIZE) as -> by lia.
    destruct (Z.ltb_spec (base + (j + 1) * PAGE_SIZE) e) as [Hlt|Hge]; cbn [returns].
    + split.
      * split; [done|]. exists (j + 1). split_and!; [done|lia|right; lia|].
        intros i Hi. destruct (decide (i = j)) as [->|]; [done|]. apply Hno. lia.
      * set (x := base + (j + 1) * PAGE_SIZE) in *.
        replace (e - (base + j * PAGE_SIZE)) with (e - x + 1 * PAGE_SIZE) by (unfold x; lia).
        rewrite Z.div_add by done. assert (0 ≤ (e - x) / PAGE_SIZE) by (apply Z.div_pos; unfold PAGE_SIZE; lia).
        lia.
    + apply Hnone. intros i Hi. destruct (decide (i < j)) as [|Hij].
      * apply Hno. destruct Hi as [->|[? _]]; lia.
      * assert (i = j) as ->; [|done]. unfold PAGE_SIZE in *. lia.
Qed.
End alloc.

(** * Properties *)

(** C24. [virtual_allocate] between two bounds panics, for want of frames, or is a
    first fit: it takes the lowest of the ranges, a page apart from the lower
    bound on, in which no page of the tree has a valid entry, and fills it; it
    returns null, with everything as it was, exactly when there is no such
    range.  The search always ends. *)
Theorem virtual_allocate_first_fit `{hh : Hhdm, pmode : PagingMode, fo : FrameOps A, !FrameLaws A}
    (s : vm A) T base limit n flags :
  tree_ok s T → lock_free (lock_ s) → page_zero_blank s → small_flags flags →
  0 < base → 0 ≤ n ≤ all_pages → base + n * PAGE_SIZE ≤ limit < 2 ^ 64 →
  or_panics (virtual_allocate_between base limit n flags s) (λ '(s', p),
    (p ≠ 0 ∧ ∃ j s1 T1 fs, p = base + j * PAGE_SIZE ∧ 0 ≤ j ∧
       first_fit s T base (limit - n * PAGE_SIZE) n j ∧ Z.of_nat (length fs) = n ∧
       filled s T p 0 flags fs s1 T1 ∧ s' = load s1) ∨
    (p = 0 ∧ s' = load s ∧
       ∀ j, ¬ (0 ≤ j ∧ first_fit s T base (limit - n * PAGE_SIZE) n j))).
Proof.
  intros Ht Hl Hz Hs Hb Hn Hlim.
  apply (virtual_allocate_between_or_panics s T); [done|done|done|done|lia|done|done| |].
  - intros j s1 T1 fs Hj Hfit Hlen Hf. left. split; [unfold PAGE_SIZE; lia|]. by exists j, s1, T1, fs.
  - intros Hnone. right. split_and!; [done|done|]. intros j [Hj (He & Hfree & _)].
    by apply (Hnone j He).
Qed.

#[local] Existing Instance sample_hhdm.
#[local] Existing Instance sample_mode.
#[local] Opaque sample_pages.

Lemma sample_blank : page_zero_blank sample_vm.
Proof.
  intros i Hi. apply ld64_zero; [apply sample_143|]. intros x Hx. apply sample_pages_lookup.
  change hhdm_offset with (2 ^ 47) in Hx. lia.
Qed.

Lemma sample_page_free va : page_free sample_vm sample_tables va.
Proof.
  unfold page_free, entry_of, leaf_entry, sample_tables.
  by rewrite lookup_singleton_ne by (unfold table_path; by case_match).
Qed.

(** A page between 0x5000 and 0x9000, of which none is mapped: the first. *)
Lemma virtual_allocate_first_fit_witness :
  or_panics (virtual_allocate_between 0x5000 0x9000 1 (Z.lor MAP_READ MAP_WRITE) sample_vm)
    (λ '(s, p), p = 0x5000 ∧ ∃ s1 T fs, filled sample_vm sample_tables p 0
       (Z.lor MAP_READ MAP_WRITE) fs s1 T ∧ length fs = 1%nat ∧ s = load s1).
Proof.
  assert (∀ j, range_free sample_vm sample_tables (0x5000 + j * PAGE_SIZE) 1) as Hfree
    by (intros j k _; apply sample_page_free).
  eapply or_panics_mono.
  - apply (virtual_allocate_first_fit sample_vm sample_tables 0x5000 0x9000 1
             (Z.lor MAP_READ MAP_WRITE)).
    + exact sample_tree.
    + exact sample_lock_free.
    + exact sample_blank.
    + by split.
    + lia.
    + by vm_compute.
    + by vm_compute.
  - intros [s p] [[_ (j & s1 & T1 & fs & -> & Hj & (_ & _ & Hfirst) & Hlen & Hf & ->)]|(_ & _ & Hno)].
    + destruct (decide (j = 0)) as [->|]; [|destruct (Hfirst 0); [lia|apply Hfree]].
      split; [reflexivity|]. exists s1, T1, fs. split; [exact Hf|]. split; [lia|reflexivity].
    + destruct (Hno 0). split; [lia|]. split; [by left|]. split; [apply Hfree|lia].
Defined.
