(* ===== verification/Destroy.v ===== *)
(** * The end of a page map

    [PageMap::~PageMap] walks the tables of the lower half and frees a frame for
    each.  The frame is the root's every time, and tables that do not exist are
    walked as well, as physical page 0: what this leaves of the allocator of
    [Physical]. *)
From S2P Require Import Prelude Mem Lock Bitmap Addr Physical Frames Paging PagingWalk PagingMap.
From S2P Require Import VirtualAlloc.

(** ** Freeing a page again and again *)

Section again.
Context `{hh : Hhdm}.

(** Page [f] was given back [k] times. *)
Record freed (a0 : phys) (f k : Z) (a : phys) : Prop := Freed {
  fd_frame : bitmap_frame (phys_mem a0) (phys_mem a) (phys_bitmap a0);
  fd_bitmap : phys_bitmap a = phys_bitmap a0;
  fd_bits : free_bits (phys_mem a) (phys_bitmap a0) =
    free_bits (phys_mem a0) (phys_bitmap a0) ∪ (if decide (k = 0) then ∅ else {[ f ]});
  fd_stats : phys_stats a = count_used (- k) (phys_stats a0);
  fd_lock : lock_free (phys_lock a);
  fd_next : bitmap_last_index a = bitmap_last_index a0;
}.

Lemma freed_none a0 f : phys_ok a0 → freed a0 f 0 a0.
Proof.
  intros []. split; try done; [by rewrite decide_True, union_empty_r_L|].
  unfold count_used. rewrite !u64_small by lia. destruct (phys_stats a0); simpl. f_equal; lia.
Qed.

Lemma count_used_again k st : count_used (- 1) (count_used (- k) st) = count_used (- (k + 1)) st.
Proof.
  unfold count_used. simpl. rewrite u64_add_l, u64_sub_l. f_equal; f_equal; lia.
Qed.

Lemma pages_one f : pages f 1 = {[ f ]}.
Proof. apply set_eq. intros i. rewrite elem_of_pages, elem_of_singleton. lia. Qed.

Lemma free_again_returns a0 f k a (Q : phys → Prop) :
  phys_ok a0 → page_ok (phys_mem a0) (phys_bitmap a0) (page_limit a0) f → 0 ≤ k → freed a0 f k a →
  (∀ a', freed a0 f (k + 1) a' → Q a') →
  returns (physical_free (f * PAGE_SIZE) 1 a) Q.
Proof.
  intros Hok [Hf _ _] Hk [Hfr Hbm Hbits Hst Hl Hn] HQ. unfold physical_free.
  rewrite (proj2 (Z.eqb_neq _ 0)) by (unfold PAGE_SIZE; lia).
  destruct (mutex_lock_free _ Hl) as (l & -> & Hheld). rewrite bind_ok. bind_step.
  unfold free_locked. cbn [phys_mem phys_bitmap set_lock]. rewrite Z.div_mul by done.
  pose proof (ph_limit _ Hok) as Hlim. pose proof (bm_size _ _ (ph_bitmap _ Hok)) as [Hsz _].
  rewrite (u64_small (f + 1)) by lia. bind_step. rewrite Hbm.
  apply set_bits_returns; [by apply (bitmap_ok_frame (phys_mem a0)), Hok|lia|lia|lia|].
  intros m' Hfr' Hbit. cbn [returns]. apply HQ. split; simpl.
  - by eapply bitmap_frame_trans.
  - done.
  - rewrite (free_bits_set (phys_mem a) m' (phys_bitmap a0) f (f + 1) BITMAP_FREE) by (done || lia).
    cbn [BITMAP_FREE]. rewrite Hbits, Z.add_simpl_l, pages_one, (decide_False (P := k + 1 = 0)) by lia.
    case_decide; set_solver.
  - by rewrite Hst, count_used_again.
  - by apply mutex_unlock_held.
  - done.
Qed.
End again.

(** ** The walk of [destroy_level] *)

(** The frames freed for a table of a level with that many entries. *)
Fixpoint destroy_frees (level : nat) (entries : Z) : Z :=
  match level with
  | O => 0
  | S level' => entries * destroy_frees level' 512 + 1
  end.

Lemma destroy_frees_nonneg n c : 0 ≤ c → 0 ≤ destroy_frees n c.
Proof. revert c. induction n as [|n IH]; intros c Hc; simpl; [lia|]. specialize (IH 512). nia. Qed.

Section destroy.
Context `{hh : Hhdm, pmode : PagingMode}.
Context (s0 : vm phys) (T : gmap (list Z) Z) (f : Z).
Context (Ht : tree_ok s0 T) (Hroot : T !! [] = Some f) (Hblank : page_zero_blank s0).
Context (Hzero : ∀ x, in_frame 0 x → ¬ in_bitmap (phys_bitmap (vm_frames s0)) x).

(** The frame of the root was freed [k] times. *)
Definition destroyed (k : Z) (s : vm phys) : Prop :=
  freed (vm_frames s0) f k (vm_frames s) ∧ top_lvl_ s = top_lvl_ s0.

Lemma root_page : page_ok (phys_mem (vm_frames s0)) (phys_bitmap (vm_frames s0)) (page_limit (vm_frames s0)) f.
Proof. apply (tr_frame _ _ Ht [] f Hroot). Qed.

(** The tables do not change. *)
Lemma destroyed_table k s p i :
  destroyed k s → (length p < levels)%nat → 0 ≤ i < 512 →
  load_entry (entry_at (table_base T p) i) s = load_entry (entry_at (table_base T p) i) s0.
Proof.
  intros [[[Hfr _] _ _ _ _ _] _] Hlen Hi. unfold table_base, load_entry.
  assert (∀ g, frame_base g + PAGE_SIZE < 2 ^ 64 → 0 ≤ frame_base g →
    (∀ x, in_frame g x → ¬ in_bitmap (phys_bitmap (vm_frames s0)) x) →
    ld64 (vm_mem s) (entry_at (frame_base g) i) = ld64 (vm_mem s0) (entry_at (frame_base g) i)) as Hsame.
  { intros g Hg Hg0 Hap. apply ld64_same. intros x Hx. apply Hfr, Hap.
    unfold entry_at in Hx. unfold in_frame, PAGE_SIZE in *. rewrite u64_small in Hx by lia. lia. }
  destruct (T !! p) as [g|] eqn:Hp.
  - destruct (tr_frame _ _ Ht p g Hp) as (_ & Hg & _).
    destruct (frame_facts s0 g (tr_frames _ _ Ht) Hg) as (? & ? & ? & _). apply Hsame; [done|lia|].
    intros x Hx. by apply (fr_apart (vm_frames s0) g x (tr_frames _ _ Ht) Hg Hx).
  - pose proof (hhdm_bounds s0 T Ht) as [? ?].
    replace hhdm_offset with (frame_base 0) in * by (unfold frame_base; lia).
    destruct (decide (frame_base 0 + PAGE_SIZE < 2 ^ 64)) as [|Hn]; [apply Hsame; [done|lia|done]|].
    apply ld64_same. intros x Hx. apply Hfr, Hzero. unfold entry_at in Hx.
    unfold in_frame, PAGE_SIZE in *. rewrite u64_small in Hx by lia. lia.
Qed.

(** The next table down, absent ones in page 0; what a leaf entry gives is not
    looked at. *)
Lemma destroyed_next k s p i :
  destroyed k s → (length p < levels)%nat → 0 ≤ i < 512 →
  ∃ next, get_next_lvl_default map_page (entry_at (table_base T p) i) false s = Ok (s, next) ∧
    ((S (length p) < levels)%nat → next = table_base T (p ++ [i])).
Proof.
  intros Hd Hlen Hi. pose proof (destroyed_table k s p i Hd Hlen Hi) as Hload.
  assert (∃ v, load_entry (entry_at (table_base T p) i) s0 = Ok v) as [v Hv].
  { unfold table_base. destruct (T !! p) as [g|] eqn:Hp; [|exists 0; by apply (page_zero_entry s0 T)].
    destruct (tr_frame _ _ Ht p g Hp) as (_ & Hg & _).
    rewrite (proj2 (table_pointer s0 T p g i Ht Hp Hi)). unfold load_entry.
    destruct (returns_inv (ld64 (vm_mem s0) (entry_addr g i)) (λ _, True)) as (v & Hv & _); [|by exists v].
    apply ld64_returns; [apply entry_mapped; [apply Ht|done|done]|apply fr_bytes, Ht|done]. }
  assert (get_next_lvl_default map_page (entry_at (table_base T p) i) false s =
    Ok (s, to_higher_half (if is_valid v then entry_get_address v else 0))) as ->.
  { unfold get_next_lvl_default, get_next_lvl. rewrite Hload, Hv, bind_ok.
    rewrite (Z.eqb_refl minus_one), andb_false_r. by destruct (is_valid v). }
  eexists. split; [done|]. intros Hlen'.
  destruct (entry_any s0 T Ht Hblank p i Hlen' Hi) as (w & Hw & Hm).
  assert (w = v) as -> by congruence. unfold table_base.
  destruct (T !! (p ++ [i])) as [g|] eqn:Hg.
  - destruct Hm as (-> & _ & -> & _). destruct (tr_frame _ _ Ht _ g Hg) as (_ & Hgf & _).
    by destruct (frame_pointer s0 g (tr_frames _ _ Ht) Hgf) as [-> _].
  - subst v. change (is_valid 0) with false. cbv iota.
    pose proof (hhdm_bounds s0 T Ht). rewrite to_higher_half_low; unfold PAGE_SIZE in *; lia.
Qed.

Lemma free_root_returns k s (Q : vm phys → Prop) :
  0 ≤ k → destroyed k s → (∀ s', destroyed (k + 1) s' → Q s') →
  returns (a ← fr_free (from_higher_half (top_lvl_ s)) (vm_frames s); Ok (set_frames a s)) Q.
Proof.
  intros Hk [Hfd Htop] HQ. bind_step. rewrite Htop.
  destruct (tr_root _ _ Ht) as (r & Hr & ->). assert (r = f) as -> by congruence.
  destruct (tr_frame _ _ Ht [] f Hroot) as (_ & Hg & _).
  destruct (frame_facts s0 f (tr_frames _ _ Ht) Hg) as (? & ? & ? & ? & ? & _).
  replace (from_higher_half (frame_base f)) with (f * PAGE_SIZE).
  2: { destruct (frame_pointer s0 f (tr_frames _ _ Ht) Hg) as [<- _].
       unfold frame_base, PAGE_SIZE in *. rewrite from_to_higher_half_low; lia. }
  apply (free_again_returns (vm_frames s0) f k); [apply Ht|apply root_page|done|done|].
  intros a' Ha'. cbn [returns]. by apply HQ.
Qed.

Lemma destroy_level_returns n : ∀ pml p start end_ k s (Q : vm phys → Prop),
  (0 < n → pml = table_base T p ∧ (length p + n = levels)%nat)%nat →
  0 ≤ start ≤ end_ → end_ ≤ 512 → 0 ≤ k → destroyed k s →
  (∀ s', destroyed (k + destroy_frees n (end_ - start)) s' → Q s') →
  returns (destroy_level n pml start end_ s) Q.
Proof.
  induction n as [|n IH]; intros pml p start end_ k s Q Hp Hse He Hk Hd HQ; cbn [destroy_level].
  { cbn [returns]. apply HQ. by rewrite Z.add_0_r. }
  destruct Hp as [-> Hlen]; [lia|]. rewrite (table_base_pos s0 T Ht p).
  pose proof (destroy_frees_nonneg n 512 ltac:(lia)) as Hnn. bind_step. eapply returns_mono.
  { apply (repeat_n_returns _ (λ j '(s', i), i = start + Z.of_nat j ∧
      destroyed (k + Z.of_nat j * destroy_frees n 512) s')).
    - intros j [s' i] Hj (-> & Hd').
      destruct (destroyed_next (k + Z.of_nat j * destroy_frees n 512) s' p (start + Z.of_nat j) Hd') as (next & -> & Hnext);
        [lia|lia|]. rewrite bind_ok. bind_step.
      assert (∀ s'', destroyed (k + Z.of_nat j * destroy_frees n 512 + destroy_frees n 512) s'' →
        returns (Ok (s'', u64 (start + Z.of_nat j + 1))) (λ '(s', i),
          i = start + Z.of_nat (S j) ∧ destroyed (k + Z.of_nat (S j) * destroy_frees n 512) s')) as Hend.
      { intros s'' Hd''. cbn [returns]. rewrite u64_small by lia. split; [lia|].
        replace (Z.of_nat (S j) * destroy_frees n 512) with
          (Z.of_nat j * destroy_frees n 512 + destroy_frees n 512) by lia. by rewrite Z.add_assoc. }
      destruct (Z.eqb_spec next 0) as [Hn0|_].
      + destruct n as [|n]; [apply Hend; by rewrite Z.add_0_r|]. exfalso.
        rewrite Hnext in Hn0 by lia. pose proof (table_base_pos s0 T Ht (p ++ [start + Z.of_nat j])).
        rewrite Hn0 in *. done.
      + apply (IH next (p ++ [start + Z.of_nat j]) 0 512
          (k + Z.of_nat j * destroy_frees n 512) s'); [|lia|lia|nia|done|].
        * intros Hn. rewrite length_app. simpl. split; [apply Hnext; lia|lia].
        * exact Hend.
    - split; [lia|]. by rewrite Z.mul_0_l, Z.add_0_r. }
  intros [s' i] (_ & Hd'). rewrite Z2Nat.id in Hd' by lia.
  apply (free_root_returns (k + (end_ - start) * destroy_frees n 512)); [nia|done|].
  intros s'' Hd''. apply HQ. simpl. by rewrite Z.add_assoc.
Qed.
End destroy.

(** * Properties *)

(** C21. The end of a page map.  With a blank physical page 0, [~PageMap] ends
    having freed the frame of the root and no other: the frames of all other
    tables are lost.  It frees the root once for each table there could be, as
    tables that do not exist are walked too, and each time counts a page as free,
    so that afterwards the allocator's numbers of used and free pages, modulo
    2^64, are off. *)
Theorem destroy_frees_root `{hh : Hhdm, pmode : PagingMode} (s : vm phys) T f :
  tree_ok s T → T !! [] = Some f → page_zero_blank s →
  (∀ x, in_frame 0 x → ¬ in_bitmap (phys_bitmap (vm_frames s)) x) →
  returns (destroy s) (λ s',
    pool_free (pool_of (vm_frames s')) = pool_free (pool_of (vm_frames s)) ∪ {[ f ]} ∧
    (∀ p g, T !! p = Some g → p ≠ [] → g ∉ pool_free (pool_of (vm_frames s'))) ∧
    phys_stats (vm_frames s') = count_used (- destroy_frees levels 256) (phys_stats (vm_frames s))).
Proof.
  intros Ht Hroot Hblank Hzero. unfold destroy.
  replace (if is_paging_mode_max then 5%nat else 4%nat) with levels by done.
  assert (top_lvl_ s = table_base T []) as ->.
  { destruct (tr_root _ _ Ht) as (r & Hr & ->). unfold table_base. by rewrite Hr. }
  apply (destroy_level_returns s T f Ht Hroot Hblank Hzero levels _ [] 0 256 0 s);
    [done|lia|lia|lia|split; [|done]; apply freed_none, Ht|].
  intros s' [[_ Hbm Hbits Hst _ _] _].
  rewrite Z.add_0_l, Z.sub_0_r in *. assert (destroy_frees levels 256 ≠ 0) as Hne.
  { unfold levels. by destruct is_paging_mode_max. }
  assert (pool_free (pool_of (vm_frames s')) = pool_free (pool_of (vm_frames s)) ∪ {[ f ]}) as Hpool.
  { simpl. by rewrite Hbm, Hbits, decide_False. }
  split_and!; [done| |done]. intros p g Hp Hpn. rewrite Hpool, not_elem_of_union, not_elem_of_singleton.
  split; [by apply (tr_frame _ _ Ht p g)|]. intros ->. by apply Hpn, (tr_inj _ _ Ht p [] f).
Qed.

#[local] Existing Instance sample_hhdm.
#[local] Existing Instance sample_mode.
#[local] Opaque sample_pages.

(** An empty page map of four levels: one frame is freed, 67240193 are counted. *)
Lemma destroy_frees_root_witness :
  returns (destroy sample_vm) (λ s', 3 ∈ pool_free (pool_of (vm_frames s')) ∧
    used_pages (phys_stats (vm_frames s')) = 2 ^ 64 + 4 - 67240193).
Proof.
  eapply returns_mono.
  - apply (destroy_frees_root sample_vm sample_tables 3).
    + exact sample_tree.
    + reflexivity.
    + exact sample_blank.
    + intros x Hx. change (in_bitmap _ x) with (4096 ≤ x < 4097).
      unfold in_frame, frame_base in Hx. change hhdm_offset with (2 ^ 47) in Hx. lia.
  - intros s' (-> & _ & ->). split; [|by vm_compute].
    apply elem_of_union_r, elem_of_singleton. reflexivity.
Defined.
