(* ===== verification/Ctype.v ===== *)
(** * Characters: [libc/ctype.c]

    Each predicate gives the truth value of the [int] the function returns. *)
From S2P Require Import Prelude.

Definition isupper (ch : Z) : bool := (65 <=? ch) && (ch <=? 90).
Definition islower (ch : Z) : bool := (97 <=? ch) && (ch <=? 122).
Definition isalpha (ch : Z) : bool := isupper ch || islower ch.
Definition isdigit (ch : Z) : bool := (48 <=? ch) && (ch <=? 57).
Definition isalnum (ch : Z) : bool := isalpha ch || isdigit ch.
Definition isascii (ch : Z) : bool := (0 <=? ch) && (ch <=? 127).
Definition isblank (ch : Z) : bool := (ch =? 32) || (ch =? 9).
Definition iscntrl (ch : Z) : bool := ((0 <=? ch) && (ch <=? 31)) || (ch =? 127).
Definition isgraph (ch : Z) : bool := (32 <? ch) && (ch <=? 126).
Definition isprint (ch : Z) : bool := (32 <=? ch) && (ch <=? 126).
Definition isspace (ch : Z) : bool := (ch =? 32) || ((9 <=? ch) && (ch <=? 13)).
Definition isxdigit (ch : Z) : bool :=
  isdigit ch || ((65 <=? ch) && (ch <=? 70)) || ((97 <=? ch) && (ch <=? 102)).
Definition toascii (ch : Z) : Z := Z.land ch 0x7f.
Definition tolower (ch : Z) : Z := if isupper ch then ch + (97 - 65) else ch.
Definition toupper (ch : Z) : Z := if islower ch then ch - (97 - 65) else ch.

(** Case analysis on a character class by its bounds. *)
Ltac char_cases :=
  unfold tolower, toupper, isalnum, isxdigit, isalpha in *;
  unfold isupper, islower, isdigit, isascii, isblank, iscntrl, isgraph, isprint, isspace in *;
  repeat match goal with
  | |- context [?x <=? ?y] => destruct (Z.leb_spec x y)
  | |- context [?x <? ?y] => destruct (Z.ltb_spec x y)
  | |- context [?x =? ?y] => destruct (Z.eqb_spec x y)
  | H : context [?x <=? ?y] |- _ => destruct (Z.leb_spec x y)
  | H : context [?x =? ?y] |- _ => destruct (Z.eqb_spec x y)
  end; simpl in *; try done; try lia.

(** * Properties *)

(** How the classes divide the characters, for every [int]: an ASCII
    character is exactly one of control and printing, a printing one is the space
    or graphic, letters and digits are graphic and disjoint, every white-space
    character is a control character or the space, and outside ASCII no class
    holds; converting the case keeps letters letters and is undone by the other
    conversion. *)
Theorem ctype_classes ch :
  isascii ch = xorb (iscntrl ch) (isprint ch) ∧
  isprint ch = xorb (ch =? 32) (isgraph ch) ∧
  (isalnum ch = true → isgraph ch = true) ∧ isalpha ch && isdigit ch = false ∧
  (isspace ch = true → iscntrl ch = true ∨ ch = 32) ∧
  (isxdigit ch = true → isalnum ch = true) ∧ (isblank ch = true → isspace ch = true) ∧
  isalpha (tolower ch) = isalpha ch ∧ isalpha (toupper ch) = isalpha ch ∧
  (isupper ch = true → toupper (tolower ch) = ch) ∧
  (islower ch = true → tolower (toupper ch) = ch).
Proof. split_and!; intros; char_cases; auto.
Qed.

Lemma ctype_classes_witness : isgraph 65 = true ∧ toupper (tolower 65) = 65.
Proof.
  split.
  - exact (proj1 (proj2 (proj2 (ctype_classes 65))) eq_refl).
  - exact (proj1 (proj2 (proj2 (proj2 (proj2 (proj2 (proj2 (proj2 (proj2 (proj2
      (ctype_classes 65)))))))))) eq_refl).
Defined.
