(* ===== verification/Strto.v ===== *)
(** * Numbers from strings: [libc/stdlib]

    [strtol] and its relatives share their steps: skip white space, take a sign
    and a prefix, accumulate digits with a test for overflow against [cutoff] and
    [cutlim].  A [char] is signed, so bytes from 128 on are negative characters. *)
From S2P Require Import Prelude Mem CString Ctype.

Definition LONG_MIN : Z := - 2 ^ 63.
Definition LONG_MAX : Z := 2 ^ 63 - 1.
Definition ULONG_MAX : Z := 2 ^ 64 - 1.

(** [*s] as a [char] promoted to [int]. *)
Definition ldc (m : mem) (s : Z) : outcome Z := b ← ld8 m s; Ok (s8 b).

(** [do { c = *s++; } while(isspace(c))]. *)
Definition strto_skip (fuel : nat) (m : mem) (s : Z) : outcome (Z * Z) :=
  loop fuel
    (λ s, c ← ldc m s;
          let s := u64 (s + 1) in
          if isspace c then Ok (inl s) else Ok (inr (c, s)))
    s.

Definition strto_sign (m : mem) (c s : Z) : outcome (bool * Z * Z) :=
  if c =? 45 then c ← ldc m s; Ok (true, c, u64 (s + 1))
  else if c =? 43 then c ← ldc m s; Ok (false, c, u64 (s + 1))
  else Ok (false, c, s).

(** The prefix [0x], and the base when it is zero. *)
Definition strto_prefix (m : mem) (base c s : Z) : outcome (Z * Z * Z) :=
  hex ← (if ((base =? 0) || (base =? 16)) && (c =? 48) then
           x ← ldc m s;
           if x =? 120 then Ok true else
           y ← ldc m s;
           Ok (y =? 88)
         else Ok false);
  '(base, c, s) ←
    (if hex : bool then c ← ldc m (u64 (s + 1)); Ok (16, c, u64 (s + 2)) else Ok (base, c, s));
  let base := if base =? 0 then (if c =? 48 then 8 else 10) else base in
  Ok (base, c, s).

(** The value of a digit or letter. *)
Definition digit_of (c : Z) : option Z :=
  if isdigit c then Some (c - 48)
  else if isalpha c then Some (c - (if isupper c then 65 - 10 else 97 - 10))
  else None.

(** The accumulation: [acc], [any] and where [s] stopped. *)
Definition strto_digits (fuel : nat) (m : mem) (base cutoff cutlim c s : Z) :
    outcome (Z * Z * Z) :=
  loop fuel
    (λ '(c, s, acc, any),
       match digit_of c with
       | None => Ok (inr (acc, any, s))
       | Some c =>
           if base <=? c then Ok (inr (acc, any, s)) else
           let '(acc, any) :=
             if (any <? 0) || (cutoff <? acc) || ((acc =? cutoff) && (cutlim <? c))
             then (acc, -1)
             else (u64 (u64 (acc * base) + c), 1) in
           c ← ldc m s;
           Ok (inl (c, u64 (s + 1), acc, any))
       end)
    (c, s, 0, 0).

(** What is stored at [endptr]: [any ? s - 1 : nptr]. *)
Definition strto_end (m : mem) (endptr any s nptr : Z) : outcome mem :=
  if negb (endptr =? 0)
  then st64 m endptr (if negb (any =? 0) then u64 (s - 1) else nptr)
  else Ok m.

Definition strtol (fuel : nat) (m : mem) (nptr endptr base : Z) : outcome (mem * Z) :=
  '(c, s) ← strto_skip fuel m nptr;
  '(neg, c, s) ← strto_sign m c s;
  '(base, c, s) ← strto_prefix m base c s;
  let cutoff := if neg : bool then u64 (- u64 LONG_MIN) else LONG_MAX in
  let cutlim := s32 (cutoff mod u64 base) in
  let cutoff := cutoff / u64 base in
  '(acc, any, s) ← strto_digits fuel m base cutoff cutlim c s;
  let acc := if any <? 0 then u64 (if neg then LONG_MIN else LONG_MAX)
             else if neg then u64 (- acc) else acc in
  m ← strto_end m endptr any s nptr;
  Ok (m, s64 acc).

Definition atoi (fuel : nat) (m : mem) (nptr : Z) : outcome Z :=
  '(_, r) ← strtol fuel m nptr 0 10; Ok (s32 r).

Definition atol (fuel : nat) (m : mem) (nptr : Z) : outcome Z :=
  '(_, r) ← strtol fuel m nptr 0 10; Ok r.

(** [long long] is as wide as [long]. *)
Definition strtoll (fuel : nat) (m : mem) (nptr endptr base : Z) : outcome (mem * Z) :=
  '(c, s) ← strto_skip fuel m nptr;
  '(neg, c, s) ← strto_sign m c s;
  '(base, c, s) ← strto_prefix m base c s;
  let cutoff := if neg : bool then u64 (- u64 LONG_MIN) else LONG_MAX in
  let cutlim := s32 (cutoff mod u64 base) in
  let cutoff := cutoff / u64 base in
  '(acc, any, s) ← strto_digits fuel m base cutoff cutlim c s;
  let acc := if any <? 0 then u64 (if neg then LONG_MIN else LONG_MAX)
             else if neg then u64 (- acc) else acc in
  m ← strto_end m endptr any s nptr;
  Ok (m, s64 acc).

Definition atoll (fuel : nat) (m : mem) (nptr : Z) : outcome Z :=
  '(_, r) ← strtoll fuel m nptr 0 10; Ok r.

Definition strtoul (fuel : nat) (m : mem) (nptr endptr base : Z) : outcome (mem * Z) :=
  '(c, s) ← strto_skip fuel m nptr;
  '(neg, c, s) ← strto_sign m c s;
  '(base, c, s) ← strto_prefix m base c s;
  let cutoff := ULONG_MAX / u64 base in
  let cutlim := s32 (ULONG_MAX mod u64 base) in
  '(acc, any, s) ← strto_digits fuel m base cutoff cutlim c s;
  let acc := if any <? 0 then ULONG_MAX else if neg : bool then u64 (- acc) else acc in
  m ← strto_end m endptr any s nptr;
  Ok (m, acc).

Definition strtoull (fuel : nat) (m : mem) (nptr endptr base : Z) : outcome (mem * Z) :=
  '(c, s) ← strto_skip fuel m nptr;
  '(neg, c, s) ← strto_sign m c s;
  '(base, c, s) ← strto_prefix m base c s;
  let cutoff := ULONG_MAX / u64 base in
  let cutlim := s32 (ULONG_MAX mod u64 base) in
  '(acc, any, s) ← strto_digits fuel m base cutoff cutlim c s;
  let acc := if any <? 0 then ULONG_MAX else if neg : bool then u64 (- acc) else acc in
  m ← strto_end m endptr any s nptr;
  Ok (m, acc).

Definition atou (fuel : nat) (m : mem) (nptr : Z) : outcome Z :=
  loop fuel
    (λ '(end_, val),
       c ← ldc m end_;
       if isdigit c then
         c ← ldc m end_;
         Ok (inl (u64 (end_ + 1), u64 (u64 (val * 10) + u64 (c - 48))))
       else Ok (inr val))
    (nptr, 0).

(** ** [abs.c] and [div.c]

    The functions are undefined on the results that do not fit: [None]. *)

Definition int_result (w x : Z) : option Z :=
  if (- 2 ^ (w - 1) <=? x) && (x <? 2 ^ (w - 1)) then Some x else None.

Definition abs (i : Z) : option Z := if i <? 0 then int_result 32 (- i) else Some i.
Definition labs (i : Z) : option Z := if i <? 0 then int_result 64 (- i) else Some i.
Definition llabs (i : Z) : option Z := if i <? 0 then int_result 64 (- i) else Some i.

(** Quotient and remainder of C, which round towards zero. *)
Definition c_div (w numer denom : Z) : option (Z * Z) :=
  if denom =? 0 then None else
  quot ← int_result w (Z.quot numer denom);
  Some (quot, Z.rem numer denom).
Definition div (numer denom : Z) : option (Z * Z) := c_div 32 numer denom.
Definition ldiv (numer denom : Z) : option (Z * Z) := c_div 64 numer denom.
Definition lldiv (numer denom : Z) : option (Z * Z) := c_div 64 numer denom.

(** ** What is parsed, on the list of bytes *)

Definition byte_char (l : list Z) : Z := s8 (default 0 (head l)).

Fixpoint skip_spaces (l : list Z) : list Z :=
  match l with
  | b :: l' => if isspace (s8 b) then skip_spaces l' else l
  | [] => []
  end.

Definition take_sign (l : list Z) : bool * list Z :=
  match l with
  | b :: l' => if b =? 45 then (true, l') else if b =? 43 then (false, l') else (false, l)
  | [] => (false, l)
  end.

Definition has_prefix (base : Z) (l : list Z) : bool :=
  match l with
  | b :: x :: _ => ((base =? 0) || (base =? 16)) && (b =? 48) && ((x =? 120) || (x =? 88))
  | _ => false
  end.

Definition take_prefix (base : Z) (l : list Z) : Z * list Z :=
  if has_prefix base l then (16, drop 2 l)
  else (if base =? 0 then (if bool_decide (head l = Some 48) then 8 else 10) else base, l).

Fixpoint digits (base : Z) (l : list Z) : list Z :=
  match l with
  | b :: l' =>
      match digit_of (s8 b) with
      | Some d => if base <=? d then [] else d :: digits base l'
      | None => []
      end
  | [] => []
  end.

(** The number the digits stand for, [acc] before them. *)
Definition value (base acc : Z) (ds : list Z) : Z := foldl (λ a d, a * base + d) acc ds.

(** Sign, digits' value, whether there are digits, and the bytes read. *)
Record parsed := Parsed { ps_neg : bool; ps_value : Z; ps_any : bool; ps_read : Z }.

Definition parse (base : Z) (l : list Z) : parsed :=
  let l1 := skip_spaces l in
  let '(neg, l2) := take_sign l1 in
  let '(base, l3) := take_prefix base l2 in
  let ds := digits base l3 in
  {| ps_neg := neg; ps_value := value base 0 ds; ps_any := negb (bool_decide (ds = []));
     ps_read := if decide (ds = []) then 0
                else Z.of_nat (length l) - Z.of_nat (length l3) + Z.of_nat (length ds) |}.

(** The result of [strtol]: the nearest [long]. *)
Definition to_long (p : parsed) : Z :=
  if ps_neg p then Z.max LONG_MIN (- ps_value p) else Z.min LONG_MAX (ps_value p).

(** The result of [strtoul]: a negative number wraps, one too large saturates
    whatever its sign. *)
Definition to_ulong (p : parsed) : Z :=
  if ULONG_MAX <? ps_value p then ULONG_MAX
  else if ps_neg p then u64 (- ps_value p) else ps_value p.

(** * Lemmas *)

(** The reader is at the bytes [l] of a string that ends at [e]. *)
Record reading (m : mem) (e : Z) (l : list Z) (c s : Z) : Prop := Reading {
  rd_str : cstring m (e - Z.of_nat (length l)) l;
  rd_char : c = byte_char l;
  rd_next : s = e - Z.of_nat (length l) + 1;
}.

Lemma ldc_string m a l : cstring m a l → ldc m a = Ok (byte_char l).
Proof.
  intros Hs. destruct (cstring_head _ _ _ Hs) as (b & Hm & Hh & _). unfold ldc.
  rewrite (ld8_Some _ _ _ Hm), bind_ok. f_equal. unfold byte_char.
  destruct l as [|x l]; simpl in Hh; by injection Hh as <-.
Qed.

Lemma reading_start m a l : cstring m a l → reading m (a + Z.of_nat (length l)) l (byte_char l) (a + 1).
Proof.
  intros Hs. split; [|done|lia].
  by replace (a + Z.of_nat (length l) - Z.of_nat (length l)) with a by lia.
Qed.

Lemma reading_bound m e l c s : reading m e l c s → 0 ≤ s - 1 ∧ s + Z.of_nat (length l) < 2 ^ 64.
Proof. intros [Hs _ ->]. destruct (cs_at _ _ _ Hs). lia. Qed.

(** One character on: what [c = *s++] gives. *)
Lemma reading_next m e b l c s :
  reading m e (b :: l) c s →
  ldc m s = Ok (byte_char l) ∧ u64 (s + 1) = s + 1 ∧ reading m e l (byte_char l) (s + 1) ∧
  0 < b < 2 ^ 8 ∧ c = s8 b.
Proof.
  intros Hr. pose proof (reading_bound _ _ _ _ _ Hr) as [? Hb]. destruct Hr as [Hs Hc ->].
  simpl length in *. pose proof (cstring_tail _ _ _ _ Hs) as Ht.
  destruct (cstring_byte _ _ _ O b Hs eq_refl) as [_ ?].
  split_and!; [by apply ldc_string|apply u64_small; lia| |lia|lia|done].
  split; [|done|lia]. by replace (e - Z.of_nat (length l)) with
    (e - Z.of_nat (S (length l)) + 1) by lia.
Qed.

Lemma s8_char b k : 0 < b < 2 ^ 8 → 0 ≤ k < 128 → (s8 b =? k) = (b =? k).
Proof.
  intros Hb Hk. unfold s8, sw. change (8 - 1) with 7.
  destruct (Z.eqb_spec b k), (Z.eqb_spec ((b + 2 ^ 7) mod 2 ^ 8 - 2 ^ 7) k); try done; dlia.
Qed.

Lemma strto_skip_returns fuel m a l (Q : Z * Z → Prop) :
  cstring m a l → (length l < fuel)%nat →
  (∀ c s, reading m (a + Z.of_nat (length l)) (skip_spaces l) c s → Q (c, s)) →
  returns (strto_skip fuel m a) Q.
Proof.
  revert a fuel. induction l as [|b l IH]; intros a fuel Hs Hf HQ;
    (destruct fuel as [|fuel]; [simpl in Hf; lia|]); unfold strto_skip; simpl loop;
    rewrite (ldc_string _ _ _ Hs), bind_ok; pose proof (cs_at _ _ _ Hs);
    rewrite (u64_small (a + 1)) by lia.
  - simpl. by apply (HQ 0), (reading_start _ _ []).
  - simpl skip_spaces in HQ. unfold byte_char. simpl.
    destruct (isspace (s8 b)) eqn:Hsp; simpl.
    + apply IH; [by eapply cstring_tail|simpl in Hf; lia|]. intros c s Hr. apply HQ.
      by replace (a + Z.of_nat (length (b :: l))) with (a + 1 + Z.of_nat (length l)) by (simpl length; lia).
    + apply HQ. by apply (reading_start _ _ (b :: l)).
Qed.

Lemma strto_sign_returns m e l c s (Q : bool * Z * Z → Prop) :
  reading m e l c s →
  (∀ c' s', reading m e (snd (take_sign l)) c' s' → Q (fst (take_sign l), c', s')) →
  returns (strto_sign m c s) Q.
Proof.
  intros Hr HQ. unfold strto_sign. destruct l as [|b l].
  { pose proof (rd_char _ _ _ _ _ Hr) as ->. by apply HQ. }
  destruct (reading_next _ _ _ _ _ _ Hr) as (Hc & Hu & Hr' & Hb & ->). simpl in HQ.
  rewrite !s8_char by lia. rewrite Hc, Hu.
  destruct (b =? 45); [by apply HQ|]. destruct (b =? 43); by apply HQ.
Qed.

Lemma strto_prefix_returns m e l base c s (Q : Z * Z * Z → Prop) :
  reading m e l c s →
  (∀ c' s', reading m e (snd (take_prefix base l)) c' s' →
     Q (fst (take_prefix base l), c', s')) →
  returns (strto_prefix m base c s) Q.
Proof.
  intros Hr HQ. unfold strto_prefix, take_prefix in *.
  assert (∀ c' s' base', reading m e l c' s' → c' = c → s' = s → has_prefix base l = false →
    base' = base →
    returns (let base := if base' =? 0 then if c' =? 48 then 8 else 10 else base' in
             Ok (base, c', s')) Q) as Hno.
  { intros c' s' ? Hr' -> -> Hp ->. rewrite Hp in HQ. simpl. simpl in HQ.
    replace (c =? 48) with (bool_decide (head l = Some 48)); [by apply HQ|].
    destruct l as [|b l]; [by rewrite (rd_char _ _ _ _ _ Hr)|].
    destruct (reading_next _ _ _ _ _ _ Hr) as (_ & _ & _ & Hb & ->). rewrite s8_char by lia.
    destruct (Z.eqb_spec b 48) as [->|Hne]; [done|]. apply bool_decide_eq_false. by intros [= ->]. }
  destruct (((base =? 0) || (base =? 16)) && (c =? 48)) eqn:Hc.
  2: { simpl. apply Hno; [done..| |done]. unfold has_prefix. destruct l as [|b [|x l]]; try done.
       destruct (reading_next _ _ _ _ _ _ Hr) as (_ & _ & _ & Hb & ->).
       rewrite s8_char in Hc by lia. by rewrite Hc. }
  destruct l as [|b l]; [by rewrite (rd_char _ _ _ _ _ Hr), andb_false_r in Hc|].
  destruct (reading_next _ _ _ _ _ _ Hr) as (Hl & Hu & Hr1 & Hb & Hcb).
  rewrite Hl, bind_ok. destruct l as [|x l].
  { simpl. by apply Hno. }
  destruct (reading_next _ _ _ _ _ _ Hr1) as (Hl2 & Hu2 & Hr2 & Hx & _).
  assert (has_prefix base (b :: x :: l) = (x =? 120) || (x =? 88)) as Hp.
  { simpl. rewrite Hcb, s8_char in Hc by lia. by rewrite Hc. }
  assert (has_prefix base (b :: x :: l) = true →
    returns ('(base, c, s) ← (c ← ldc m (u64 (s + 1)); Ok (16, c, u64 (s + 2)));
             let base := if base =? 0 then if c =? 48 then 8 else 10 else base in
             Ok (base, c, s)) Q) as Hyes.
  { intros Hh. rewrite Hh in HQ. rewrite Hu, Hl2, bind_ok.
    pose proof (reading_bound _ _ _ _ _ Hr2). pose proof (reading_bound _ _ _ _ _ Hr).
    rewrite u64_small by (simpl length in *; lia).
    replace (s + 2) with (s + 1 + 1) by lia. by apply HQ. }
  rewrite Hp in Hyes. unfold byte_char at 1 2. simpl default. rewrite !s8_char by lia.
  destruct (x =? 120); [by apply Hyes|]. rewrite bind_ok, ?s8_char by lia.
  destruct (x =? 88); [by apply Hyes|by apply Hno].
Qed.

(** ** Accumulating digits *)

Lemma digit_of_range c d : digit_of c = Some d → 0 ≤ d < 36.
Proof. unfold digit_of. intros H. char_cases; injection H as <-; lia. Qed.

Lemma digits_range base l : Forall (λ d, 0 ≤ d < base) (digits base l).
Proof.
  induction l as [|b l IH]; simpl; [done|]. destruct (digit_of _) as [d|] eqn:E; [|done].
  apply digit_of_range in E. destruct (Z.leb_spec base d); [done|]. constructor; [lia|done].
Qed.

Lemma value_mono base ds acc :
  0 < base → 0 ≤ acc → Forall (λ d, 0 ≤ d < base) ds → acc ≤ value base acc ds.
Proof.
  intros Hb. revert acc. induction ds as [|d ds IH]; intros acc Ha Hd; simpl; [lia|].
  inversion Hd; subst. assert (acc ≤ acc * base + d) by nia. transitivity (acc * base + d); [done|].
  apply IH; [lia|done].
Qed.

(** The overflow test with [cutoff = C / base] and [cutlim = C mod base]. *)
Lemma overflow_test base C acc d :
  0 < base → 0 ≤ d < base →
  (C / base <? acc) || ((acc =? C / base) && (C mod base <? d)) = (C <? acc * base + d).
Proof.
  intros Hb Hd. pose proof (Z.div_mod C base ltac:(lia)). pose proof (Z.mod_pos_bound C base Hb).
  set (q := C / base) in *. set (r := C mod base) in *. clearbody q r.
  destruct (Z.ltb_spec q acc), (Z.eqb_spec acc q), (Z.ltb_spec r d), (Z.ltb_spec C (acc * base + d));
    simpl; try done; nia.
Qed.

(** The state of the accumulation after digits worth [v]. *)
Definition accumulated (C v : Z) (some : bool) (acc any : Z) : Prop :=
  if some then (if v <=? C then any = 1 ∧ acc = v else any = -1) else any = 0 ∧ acc = 0 ∧ v = 0.

Lemma strto_digits_loop fuel m e base C l c s acc any v some (Q : Z * Z * Z → Prop) :
  2 ≤ base → 0 ≤ C < 2 ^ 64 → 0 ≤ v → reading m e l c s → (length l < fuel)%nat →
  accumulated C v some acc any →
  (∀ acc' any', accumulated C (value base v (digits base l))
       (some || negb (bool_decide (digits base l = []))) acc' any' →
     Q (acc', any', s + Z.of_nat (length (digits base l)))) →
  returns (loop fuel
    (λ '(c, s, acc, any),
       match digit_of c with
       | None => Ok (inr (acc, any, s))
       | Some c =>
           if base <=? c then Ok (inr (acc, any, s)) else
           let '(acc, any) :=
             if (any <? 0) || (C / base <? acc) || ((acc =? C / base) && (C mod base <? c))
             then (acc, -1)
             else (u64 (u64 (acc * base) + c), 1) in
           c ← ldc m s;
           Ok (inl (c, u64 (s + 1), acc, any))
       end) (c, s, acc, any)) Q.
Proof.
  intros Hb HC. revert fuel c s acc any v some Q.
  induction l as [|b l IH]; intros fuel c s acc any v some Q Hv Hr Hf Hacc HQ;
    (destruct fuel as [|fuel]; [simpl in Hf; lia|]); simpl loop.
  { rewrite (rd_char _ _ _ _ _ Hr). simpl. specialize (HQ acc any). simpl in HQ.
    rewrite orb_false_r, Z.add_0_r in HQ. by apply HQ. }
  destruct (reading_next _ _ _ _ _ _ Hr) as (Hl & Hu & Hr' & _ & ->). simpl digits in HQ.
  destruct (digit_of (s8 b)) as [d|] eqn:Hd.
  2: { simpl. specialize (HQ acc any). simpl in HQ. rewrite orb_false_r, Z.add_0_r in HQ.
       by apply HQ. }
  destruct (Z.leb_spec base d).
  { simpl. specialize (HQ acc any). simpl in HQ. rewrite orb_false_r, Z.add_0_r in HQ.
    by apply HQ. }
  pose proof (digit_of_range _ _ Hd). rewrite <-orb_assoc, overflow_test by lia.
  set (p := if _ : bool then _ else _).
  assert (accumulated C (v * base + d) true (fst p) (snd p)) as Hacc'.
  { unfold p, accumulated in *. destruct some.
    - destruct (Z.leb_spec v C); [|subst any]; simpl.
      + destruct Hacc as [-> ->]. simpl. destruct (Z.ltb_spec C (v * base + d)); simpl.
        * by rewrite (proj2 (Z.leb_gt _ _)).
        * rewrite (proj2 (Z.leb_le _ _)) by done. rewrite (u64_small (v * base)) by nia.
          rewrite u64_small by lia. done.
      + by rewrite (proj2 (Z.leb_gt _ _)) by nia.
    - destruct Hacc as (-> & -> & ->). simpl. destruct (Z.ltb_spec C (0 * base + d)); simpl.
      + by rewrite (proj2 (Z.leb_gt _ _)).
      + rewrite (proj2 (Z.leb_le _ _)) by done. rewrite (u64_small (0 * base)) by lia.
        rewrite u64_small by lia. done. }
  destruct p as [acc1 any1]. rewrite Hl, bind_ok, bind_ok, Hu.
  apply (IH fuel _ (s + 1) acc1 any1 (v * base + d) true); [nia|done|simpl in Hf; lia|done|].
  intros acc' any' Ha. specialize (HQ acc' any'). simpl length in HQ. rewrite Nat2Z.inj_succ in HQ.
  replace (s + 1 + Z.of_nat (length (digits base l))) with
    (s + Z.succ (Z.of_nat (length (digits base l)))) by lia.
  apply HQ. replace (some || negb (bool_decide (d :: digits base l = []))) with true
    by (rewrite bool_decide_eq_false_2 by done; by rewrite orb_true_r).
  done.
Qed.

Lemma digits_length base l : (length (digits base l) ≤ length l)%nat.
Proof.
  induction l as [|b l IH]; simpl; [lia|]. destruct (digit_of _) as [d|]; [|simpl; lia].
  destruct (base <=? d); simpl; lia.
Qed.

Lemma value_nonneg base l : 0 < base → 0 ≤ value base 0 (digits base l).
Proof. intros. apply value_mono; [done|done|apply digits_range]. Qed.

(** The bases the functions accept. *)
Definition base_ok (base : Z) : Prop := base = 0 ∨ 2 ≤ base ≤ 36.

Lemma take_prefix_base base l : base_ok base → 2 ≤ fst (take_prefix base l) ≤ 36.
Proof.
  intros Hb. unfold take_prefix. destruct (has_prefix base l); simpl; [lia|].
  destruct (Z.eqb_spec base 0); [case_bool_decide; lia|]. destruct Hb; lia.
Qed.

(** What is left in memory: the end pointer, when one is given. *)
Definition end_stored (m m' : mem) (endptr v : Z) : Prop :=
  if endptr =? 0 then m' = m
  else ∀ x, m' !! x = if decide (endptr ≤ x < endptr + 8) then Some (byte_of v (x - endptr))
                      else m !! x.

Lemma strto_end_returns m endptr any s nptr (Q : mem → Prop) :
  endptr = 0 ∨ mapped m endptr 8 →
  (∀ m', end_stored m m' endptr (if any =? 0 then nptr else u64 (s - 1)) → Q m') →
  returns (strto_end m endptr any s nptr) Q.
Proof.
  intros He HQ. unfold strto_end, end_stored in *. destruct (Z.eqb_spec endptr 0); simpl.
  - by apply HQ.
  - destruct He as [?|He]; [done|]. apply st64_returns; [done|]. intros m' Hm'. apply HQ.
    intros x. rewrite Hm'. by destruct (any =? 0).
Qed.

Lemma rest_length base l :
  (length (snd (take_prefix base (snd (take_sign (skip_spaces l))))) ≤ length l)%nat.
Proof.
  transitivity (length (snd (take_sign (skip_spaces l)))).
  { unfold take_prefix. destruct (has_prefix _ _); simpl; rewrite ?length_drop; lia. }
  transitivity (length (skip_spaces l)).
  { destruct (skip_spaces l) as [|b l']; simpl; [done|].
    destruct (b =? 45), (b =? 43); simpl; lia. }
  induction l as [|b l IH]; simpl; [done|]. destruct (isspace _); simpl; lia.
Qed.

(** The steps up to the digits. *)
Lemma strto_start_returns {R} fuel m a l base (k : bool * Z * Z * Z → outcome R) (Q : R → Prop) :
  cstring m a l → (length l < fuel)%nat →
  (∀ neg base' c s l3, take_sign (skip_spaces l) = (neg, snd (take_sign (skip_spaces l))) →
     take_prefix base (snd (take_sign (skip_spaces l))) = (base', l3) →
     reading m (a + Z.of_nat (length l)) l3 c s → returns (k (neg, base', c, s)) Q) →
  returns ('(c, s) ← strto_skip fuel m a;
           '(neg, c, s) ← strto_sign m c s;
           '(base, c, s) ← strto_prefix m base c s;
           k (neg, base, c, s)) Q.
Proof.
  intros Hs Hf HQ. bind_step. apply (strto_skip_returns fuel m a l); [done..|]. intros c1 s1 H1.
  bind_step. apply (strto_sign_returns _ _ _ _ _ _ H1). intros c2 s2 H2.
  bind_step. apply (strto_prefix_returns _ _ _ _ _ _ _ H2). intros c3 s3 H3.
  eapply HQ; [|apply surjective_pairing|exact H3]. by destruct (take_sign _).
Qed.

(** A run of [strto_digits] on the rest of the string, against [parse]. *)
Lemma strto_digits_parse fuel m a l base C neg base' l3 c s (Q : Z * Z * Z → Prop) :
  cstring m a l → (length l < fuel)%nat → base_ok base → 0 ≤ C < 2 ^ 64 →
  take_sign (skip_spaces l) = (neg, snd (take_sign (skip_spaces l))) →
  take_prefix base (snd (take_sign (skip_spaces l))) = (base', l3) →
  reading m (a + Z.of_nat (length l)) l3 c s →
  (∀ acc any s', ps_neg (parse base l) = neg → 0 ≤ ps_value (parse base l) →
     accumulated C (ps_value (parse base l)) (ps_any (parse base l)) acc any →
     (if any =? 0 then a else u64 (s' - 1)) = a + ps_read (parse base l) → Q (acc, any, s')) →
  returns (strto_digits fuel m base' (C / u64 base') (s32 (C mod u64 base')) c s) Q.
Proof.
  intros Hs Hf Hb HC Hsign Hpre Hr HQ. unfold parse in HQ. rewrite Hsign, Hpre in HQ.
  cbn [ps_neg ps_value ps_any ps_read] in HQ.
  pose proof (take_prefix_base base (snd (take_sign (skip_spaces l))) Hb) as Hb'.
  rewrite Hpre in Hb'. simpl in Hb'. rewrite u64_small by lia.
  pose proof (Z.mod_pos_bound C base' ltac:(lia)). rewrite s32_small by lia.
  pose proof (reading_bound _ _ _ _ _ Hr). pose proof (digits_length base' l3).
  unfold strto_digits.
  apply (strto_digits_loop fuel m (a + Z.of_nat (length l)) base' C l3 c s 0 0 0 false);
    [lia|done|lia|done| |done|].
  { pose proof (rest_length base l) as Hl. rewrite Hpre in Hl. simpl in Hl. lia. }
  intros acc any Ha. simpl orb in Ha. apply HQ; [done|apply value_nonneg; lia|done|].
  pose proof (rd_next _ _ _ _ _ Hr). unfold accumulated in Ha.
  destruct (decide (digits base' l3 = [])) as [Hds|Hne].
  - rewrite Hds in Ha |- *. simpl in Ha. destruct Ha as (-> & _ & _). simpl. lia.
  - rewrite bool_decide_eq_false_2 in Ha by done. simpl in Ha.
    replace (any =? 0) with false.
    2: { destruct (_ <=? C); [by destruct Ha as [-> _]|by rewrite Ha]. }
    rewrite u64_small by lia. lia.
Qed.

(** The last steps of [strtol]. *)
Lemma to_long_final p acc any :
  0 ≤ ps_value p →
  accumulated (if ps_neg p then 2 ^ 63 else 2 ^ 63 - 1) (ps_value p) (ps_any p) acc any →
  s64 (if any <? 0 then u64 (if ps_neg p then LONG_MIN else LONG_MAX)
       else if ps_neg p then u64 (- acc) else acc) = to_long p.
Proof.
  intros Hv Ha. unfold to_long, accumulated in *.
  destruct (ps_any p); [|destruct Ha as (-> & -> & ->); by destruct (ps_neg p)].
  destruct (ps_neg p);
    [destruct (Z.leb_spec (ps_value p) (2 ^ 63))|destruct (Z.leb_spec (ps_value p) (2 ^ 63 - 1))];
    [destruct Ha as [-> ->]|subst any|destruct Ha as [-> ->]|subst any];
    change (1 <? 0) with false; change (-1 <? 0) with true; cbv iota; unfold LONG_MIN, LONG_MAX.
  - destruct (decide (ps_value p = 0)) as [->|]; [done|].
    assert (u64 (- ps_value p) = 2 ^ 64 - ps_value p) as ->.
    { unfold u64. rewrite Z_mod_nz_opp_full; rewrite Z.mod_small; lia. }
    unfold s64, sw. replace (2 ^ 64 - ps_value p + 2 ^ (64 - 1)) with
      (2 ^ 63 - ps_value p + 1 * 2 ^ 64) by lia.
    rewrite Z.mod_add, Z.mod_small by lia. lia.
  - change (s64 (u64 (- 2 ^ 63))) with (- 2 ^ 63). lia.
  - rewrite s64_small by lia. lia.
  - change (s64 (u64 (2 ^ 63 - 1))) with (2 ^ 63 - 1). lia.
Qed.

Lemma strtol_returns fuel m a l endptr base (Q : mem * Z → Prop) :
  cstring m a l → (length l < fuel)%nat → base_ok base → endptr = 0 ∨ mapped m endptr 8 →
  (∀ m', end_stored m m' endptr (a + ps_read (parse base l)) →
     Q (m', to_long (parse base l))) →
  returns (strtol fuel m a endptr base) Q.
Proof.
  intros Hs Hf Hb He HQ.
  apply (strto_start_returns fuel m a l base (λ '(neg, base, c, s),
    '(acc, any, s) ← strto_digits fuel m base
       ((if neg : bool then u64 (- u64 LONG_MIN) else LONG_MAX) / u64 base)
       (s32 ((if neg then u64 (- u64 LONG_MIN) else LONG_MAX) mod u64 base)) c s;
    m ← strto_end m endptr any s a;
    Ok (m, s64 (if any <? 0 then u64 (if neg then LONG_MIN else LONG_MAX)
                else if neg then u64 (- acc) else acc)))); [done|done|].
  intros neg base' c s l3 Hsign Hpre Hr.
  replace (if neg then u64 (- u64 LONG_MIN) else LONG_MAX)
    with (if neg then 2 ^ 63 else 2 ^ 63 - 1) by by destruct neg.
  bind_step. eapply (strto_digits_parse fuel m a l base); [done..|by destruct neg|done|done|done|].
  intros acc any s' Hneg Hv Ha Hend. bind_step. apply strto_end_returns; [done|].
  rewrite Hend. intros m' Hm'. cbn [returns]. rewrite <-Hneg in *.
  rewrite to_long_final by done. by apply HQ.
Qed.

Lemma strtoul_returns fuel m a l endptr base (Q : mem * Z → Prop) :
  cstring m a l → (length l < fuel)%nat → base_ok base → endptr = 0 ∨ mapped m endptr 8 →
  (∀ m', end_stored m m' endptr (a + ps_read (parse base l)) →
     Q (m', to_ulong (parse base l))) →
  returns (strtoul fuel m a endptr base) Q.
Proof.
  intros Hs Hf Hb He HQ.
  apply (strto_start_returns fuel m a l base (λ '(neg, base, c, s),
    '(acc, any, s) ← strto_digits fuel m base
       (ULONG_MAX / u64 base) (s32 (ULONG_MAX mod u64 base)) c s;
    m ← strto_end m endptr any s a;
    Ok (m, if any <? 0 then ULONG_MAX else if neg : bool then u64 (- acc) else acc)));
    [done|done|].
  intros neg base' c s l3 Hsign Hpre Hr.
  bind_step. eapply (strto_digits_parse fuel m a l base); [done..|done|done|done|done|].
  intros acc any s' Hneg Hv Ha Hend. bind_step. apply strto_end_returns; [done|].
  rewrite Hend. intros m' Hm'. cbn [returns]. rewrite <-Hneg in *.
  replace (if any <? 0 then _ else _) with (to_ulong (parse base l)); [by apply HQ|].
  unfold to_ulong, accumulated in *. destruct (ps_any _).
  - destruct (Z.leb_spec (ps_value (parse base l)) ULONG_MAX).
    + destruct Ha as [-> ->]. by rewrite (proj2 (Z.ltb_ge _ _)).
    + subst any. by rewrite (proj2 (Z.ltb_lt _ _)).
  - destruct Ha as (-> & -> & ->). by destruct (ps_neg _).
Qed.

(** The loop of [atou]. *)
Lemma atou_loop fuel m a l v :
  cstring m a l → (length l < fuel)%nat →
  loop fuel
    (λ '(end_, val),
       c ← ldc m end_;
       if isdigit c then
         c ← ldc m end_;
         Ok (inl (u64 (end_ + 1), u64 (u64 (val * 10) + u64 (c - 48))))
       else Ok (inr val))
    (a, u64 v) = Ok (u64 (value 10 v (digits 10 l))).
Proof.
  revert a v fuel. induction l as [|b l IH]; intros a v fuel Hs Hf;
    (destruct fuel as [|fuel]; [simpl in Hf; lia|]); simpl loop;
    rewrite (ldc_string _ _ _ Hs), bind_ok; [done|]. simpl digits. unfold byte_char. simpl default.
  unfold digit_of. destruct (isdigit (s8 b)) eqn:Hd.
  - rewrite bind_ok. pose proof (cs_at _ _ _ Hs). rewrite (u64_small (a + 1)) by lia.
    assert (0 ≤ s8 b - 48 < 10) by (clear -Hd; char_cases).
    rewrite (proj2 (Z.leb_gt 10 _)) by lia. simpl value. rewrite bind_ok.
    rewrite <-(IH (a + 1) (v * 10 + (s8 b - 48)) fuel);
      [|by eapply cstring_tail|simpl in Hf; lia].
    do 2 f_equal. unfold u64. rewrite Z.mul_mod_idemp_l by done. by rewrite <-Z.add_mod.
  - destruct (isalpha (s8 b)) eqn:Ha; [|done].
    replace (10 <=? _) with true; [done|]. symmetry. apply Z.leb_le. clear -Ha. char_cases.
Qed.

Lemma atou_returns fuel m a l :
  cstring m a l → (length l < fuel)%nat → atou fuel m a = Ok (u64 (value 10 0 (digits 10 l))).
Proof. apply (atou_loop fuel m a l 0). Qed.

(** * Properties *)

(** C20. [strtol] refines the parse of the string on lists of bytes: white space,
    a sign, for base 0 or 16 a prefix, then digits below the base.  It returns the
    number they stand for or, when that is no [long], the nearest one, and stores
    where the digits end, or the start of the string when there are none; nothing
    else changes.  So it does for every string, base 0 or 2 to 36, and end pointer;
    after ["0x"] without a digit it reports that nothing was read, the ["0"]
    included. *)
Theorem strtol_refines_parse fuel m a l endptr base :
  cstring m a l → (length l < fuel)%nat → base_ok base → endptr = 0 ∨ mapped m endptr 8 →
  returns (strtol fuel m a endptr base) (λ '(m', r), r = to_long (parse base l) ∧
    end_stored m m' endptr (a + ps_read (parse base l))).
Proof. intros. by apply (strtol_returns fuel m a l). Qed.

(** [strtoul] refines the same parse: it returns the number, or its negation
    modulo 2^64 after a minus sign, and saturates at [ULONG_MAX] when the digits
    alone exceed it. *)
Theorem strtoul_refines_parse fuel m a l endptr base :
  cstring m a l → (length l < fuel)%nat → base_ok base → endptr = 0 ∨ mapped m endptr 8 →
  returns (strtoul fuel m a endptr base) (λ '(m', r), r = to_ulong (parse base l) ∧
    end_stored m m' endptr (a + ps_read (parse base l))).
Proof. intros. by apply (strtoul_returns fuel m a l). Qed.

(** The conversions without an end pointer: [atol] and [atoll] give the
    nearest [long], [atoi] its low 32 bits, so it wraps instead of saturating, and
    [atou] takes digits from the first byte on and wraps at 2^64. *)
Theorem ato_conversions fuel m a l :
  cstring m a l → (length l < fuel)%nat →
  atol fuel m a = Ok (to_long (parse 10 l)) ∧ atoll fuel m a = Ok (to_long (parse 10 l)) ∧
  atoi fuel m a = Ok (s32 (to_long (parse 10 l))) ∧
  atou fuel m a = Ok (u64 (value 10 0 (digits 10 l))).
Proof.
  intros Hs Hf.
  destruct (returns_inv (strtol fuel m a 0 10) (λ '(_, r), r = to_long (parse 10 l)))
    as ([m' r] & Hr & ->).
  { apply (strtol_returns fuel m a l); [done|done|right; lia|by left|done]. }
  unfold atol, atoll, atoi. change (strtoll fuel m a 0 10) with (strtol fuel m a 0 10).
  rewrite Hr. split_and!; [done..|by apply atou_returns].
Qed.

(** [div], at its three widths: undefined exactly when the divisor is zero or
    the quotient, that of the least number by -1, does not fit; otherwise the
    quotient rounded towards zero and a remainder with the sign of the dividend,
    below the divisor in absolute value. *)
Theorem c_div_spec w numer denom :
  0 < w → - 2 ^ (w - 1) ≤ numer < 2 ^ (w - 1) →
  (c_div w numer denom = None ↔ denom = 0 ∨ numer = - 2 ^ (w - 1) ∧ denom = -1) ∧
  (∀ q r, c_div w numer denom = Some (q, r) →
     numer = denom * q + r ∧ Z.abs r < Z.abs denom ∧ 0 ≤ r * numer).
Proof.
  intros Hw Hn. assert (0 < 2 ^ (w - 1)) as HM by (apply Z.pow_pos_nonneg; lia).
  unfold c_div, int_result. set (M := 2 ^ (w - 1)) in *. clearbody M.
  destruct (Z.eqb_spec denom 0) as [->|Hd0]; [naive_solver|].
  pose proof (Z.quot_rem numer denom Hd0) as Hqr.
  pose proof (Z.rem_bound_abs numer denom Hd0) as Hrem.
  pose proof (Z.rem_sign_mul numer denom Hd0) as Hsign.
  set (q := Z.quot numer denom) in *. set (r := Z.rem numer denom) in *. clearbody q r.
  destruct (Z.leb_spec (- M) q), (Z.ltb_spec q M); simpl; (split; [split|]);
    try (intros [= <- <-]); try (intros ? ? [= <- <-]); try done; nia.
Qed.

(** ** Witnesses *)

(** The text ["  -0x1fZ"], and 2^64 in decimal. *)
Definition text_hex : list Z := [32; 9; 45; 48; 120; 49; 102; 90].
Definition text_big : list Z :=
  [49; 56; 52; 52; 54; 55; 52; 52; 48; 55; 51; 55; 48; 57; 53; 53; 49; 54; 49; 54].

(** A string of small bytes in memory, room for a pointer after it. *)
Definition text_mem (l : list Z) : mem := mem_of 4096 (l ++ [0] ++ [0; 0; 0; 0; 0; 0; 0; 0]).

Lemma text_string l :
  forallb (λ b, (0 <? b) && (b <? 256)) l = true → Z.of_nat (length l) < 2 ^ 32 →
  cstring (text_mem l) 4096 l.
Proof.
  intros Hl Hlen. split.
  - apply Forall_forall. intros b Hb.
    pose proof (proj1 (forallb_forall _ _) Hl b Hb) as Hr. simpl in Hr. lia.
  - lia.
  - intros i b Hb. unfold text_mem. apply mem_of_holds. rewrite app_assoc.
    by apply lookup_app_l_Some.
Qed.

Lemma strtol_refines_parse_witness :
  returns (strtol 20 (text_mem text_hex) 4096 4105 0) (λ '(m', r), r = -31 ∧
    m' !! 4105 = Some 7 ∧ m' !! 4106 = Some 0x10).
Proof.
  eapply returns_mono.
  - apply (strtol_refines_parse 20 (text_mem text_hex) 4096 text_hex 4105 0).
    + apply text_string; reflexivity.
    + simpl; lia.
    + left; reflexivity.
    + right. intros x Hx. apply mem_of_is_Some. simpl. lia.
  - intros [m' r] [-> Hm]. split; [reflexivity|]. split; rewrite Hm; vm_compute; reflexivity.
Defined.

Lemma strtoul_refines_parse_witness :
  returns (strtoul 30 (text_mem text_big) 4096 0 10) (λ '(m', r), r = ULONG_MAX ∧
    m' = text_mem text_big).
Proof.
  eapply returns_mono.
  - apply (strtoul_refines_parse 30 (text_mem text_big) 4096 text_big 0 10).
    + apply text_string; reflexivity.
    + simpl; lia.
    + right; lia.
    + left; reflexivity.
  - intros [m' r] [-> Hm]. split; [reflexivity|exact Hm].
Defined.

(** 2^64 wraps to nothing in [atou], and to -1 in [atoi]. *)
Lemma ato_conversions_witness :
  atou 30 (text_mem text_big) 4096 = Ok 0 ∧ atoi 30 (text_mem text_big) 4096 = Ok (-1).
Proof.
  destruct (ato_conversions 30 (text_mem text_big) 4096 text_big) as (_ & _ & Hi & Hu).
  - apply text_string; reflexivity.
  - simpl; lia.
  - split; [rewrite Hu|rewrite Hi]; reflexivity.
Defined.

Lemma c_div_spec_witness :
  div (-7) 2 = Some (-3, -1) ∧ div (- 2 ^ 31) (-1) = None ∧ -7 = 2 * -3 + -1.
Proof.
  split; [reflexivity|split].
  - apply (proj2 (proj1 (c_div_spec 32 (- 2 ^ 31) (-1) ltac:(lia) ltac:(lia)))).
    right; split; reflexivity.
  - apply (proj2 (c_div_spec 32 (-7) 2 ltac:(lia) ltac:(lia)) (-3) (-1)). reflexivity.
Defined.
