(* ===== verification/Stdio.v ===== *)
(** * Streams: [libc/stdio/putc.c], [fputs.c]

    A stream writes to a buffer in memory, or passes characters to its function;
    what the function does is the device's business, so the state keeps the
    sequence of characters passed, and a parameter of the stream says what the
    function answers for each. *)
From S2P Require Import Prelude Mem MemCopy MemSet MemCmp CString Strto.

Record FILE := File {
  buffer_size : Z;
  position : Z;
  buffer : Z;
  write_func : option (Z → Z);
}.

(** Memory, the stream, and what its function got, oldest first. *)
Record io := Io {
  io_mem : mem;
  io_file : FILE;
  io_out : list Z;
}.

Definition set_position (p : Z) (st : io) : io :=
  let f := io_file st in
  Io (io_mem st) (File (buffer_size f) p (buffer f) (write_func f)) (io_out st).
Definition set_io_mem (m : mem) (st : io) : io := Io m (io_file st) (io_out st).
Definition emit_char (c : Z) (st : io) : io := Io (io_mem st) (io_file st) (io_out st ++ [c]).

(** [error_t] values of [errno.h]. *)
Definition SYSTEM_OK : Z := 0.
Definition SYSTEM_ERR_INTERNAL : Z := -1.
Definition SYSTEM_ERR_BUFFER_TOO_SMALL : Z := -15.
Definition SYSTEM_ERR_CANCELED : Z := -23.

Definition putc (c : Z) (st : io) : outcome (io * Z) :=
  let write_pos := position (io_file st) in
  let st := set_position (u64 (write_pos + 1)) st in
  let ret := if buffer_size (io_file st) <=? write_pos then SYSTEM_ERR_BUFFER_TOO_SMALL else 0 in
  match write_func (io_file st) with
  | Some write => Ok (emit_char c st, write c)
  | None =>
      m ← st8 (io_mem st) (u64 (buffer (io_file st) + write_pos)) c;
      Ok (set_io_mem m st, SYSTEM_OK)
  end.

(** [putc] where its result is not used. *)
Definition put (c : Z) (st : io) : outcome io := '(st, _) ← putc c st; Ok st.

Definition putchar : Z → io → outcome (io * Z) := putc.

Definition fputs (fuel : nat) (s : Z) (st : io) : outcome (io * Z) :=
  length ← strlen fuel (io_mem st) s;
  loop (S (Z.to_nat length))
    (λ '(st, i),
       if i <? length then
         c ← ldc (io_mem st) (u64 (s + i));
         '(st, r) ← putc c st;
         if negb (r =? SYSTEM_OK) then Ok (inr (st, SYSTEM_ERR_INTERNAL))
         else Ok (inl (st, u64 (i + 1)))
       else Ok (inr (st, SYSTEM_OK)))
    (st, 0).

Definition puts (fuel : nat) (s : Z) (st : io) : outcome (io * Z) :=
  '(st, ret) ← fputs fuel s st;
  st ← put 10 st;
  Ok (st, ret).
