(* ===== verification/Print.v ===== *)
(** * Formatted output: [libc/stdio/print.c], [vprintf.c], [printf.c]

    The variable arguments are a list of 64-bit slots, as on amd64: an [int] is
    the low half of its slot; reading past the last one is a fault.  The
    character buffer of [print_integer] is the list of the characters it holds.
    A parsing step that meets the end of the format ends [format_string] with
    [SYSTEM_ERR_CANCELED]: its result is [None]. *)
From S2P Require Import Prelude Mem MemCopy MemSet MemCmp CString Ctype Strto Stdio.

Definition INTEGER_BUFFER_SIZE : Z := 32.
Definition MAX_POSSIBLE_BUFFER_SIZE : Z := 2 ^ 31 - 1.

Definition FLAGS_ZEROPAD : Z := Z.shiftl 1 0.
Definition FLAGS_LEFT : Z := Z.shiftl 1 1.
Definition FLAGS_PLUS : Z := Z.shiftl 1 2.
Definition FLAGS_SPACE : Z := Z.shiftl 1 3.
Definition FLAGS_HASH : Z := Z.shiftl 1 4.
Definition FLAGS_UPPERCASE : Z := Z.shiftl 1 5.
Definition FLAGS_CHAR : Z := Z.shiftl 1 6.
Definition FLAGS_SHORT : Z := Z.shiftl 1 7.
Definition FLAGS_INT : Z := Z.shiftl 1 8.
Definition FLAGS_LONG : Z := Z.shiftl 1 9.
Definition FLAGS_LONG_LONG : Z := Z.shiftl 1 10.
Definition FLAGS_PRECISION : Z := Z.shiftl 1 11.
Definition FLAGS_POINTER : Z := Z.shiftl 1 13.
Definition FLAGS_SIGNED : Z := Z.shiftl 1 14.

(** [flags &= ~f] on an [unsigned int]. *)
Definition clear (flags f : Z) : Z := Z.land flags (u32 (Z.lnot f)).

Definition STDIO_ABS (x : Z) : Z := if 0 <? x then u64 x else u64 (- u64 x).

(** The number and the pointer behind it. *)
Definition stdio_atou (fuel : nat) (m : mem) (str : Z) : outcome (Z * Z) :=
  loop fuel
    (λ '(str, val),
       c ← ldc m str;
       if isdigit c then
         c ← ldc m str;
         Ok (inl (u64 (str + 1), u64 (u64 (val * 10) + u64 (c - 48))))
       else Ok (inr (val, str)))
    (str, 0).

Definition append_termination (st : io) : outcome io :=
  let fp := io_file st in
  match write_func fp with
  | Some _ => Ok st
  | None =>
      if buffer_size fp =? 0 then Ok st else
      if buffer fp =? 0 then Ok st else
      let null_pos := if position fp <? buffer_size fp then position fp
                      else u64 (buffer_size fp - 1) in
      m ← st8 (io_mem st) (u64 (buffer fp + null_pos)) 0;
      Ok (set_io_mem m st)
  end.

(** Put each character of a list. *)
Fixpoint put_all (l : list Z) (st : io) : outcome io :=
  match l with
  | [] => Ok st
  | c :: l' => st ← put c st; put_all l' st
  end.

(** [for(i = n; i < width; i++) putc(' ')]. *)
Definition pad (n width : Z) (st : io) : outcome io :=
  repeat_n (Z.to_nat (width - n)) (put 32) st.

Definition output_reverse (buffer : list Z) (width flags : Z) (st : io) : outcome (io * Z) :=
  let start_pos := position (io_file st) in
  st ← (if negb (has flags FLAGS_LEFT) && negb (has flags FLAGS_ZEROPAD)
        then pad (Z.of_nat (length buffer)) width st else Ok st);
  st ← put_all (rev buffer) st;
  st ← (if has flags FLAGS_LEFT then
          loop (S (Z.to_nat width))
            (λ st, if u64 (position (io_file st) - start_pos) <? width
                   then st ← put 32 st; Ok (inl st)
                   else Ok (inr st))
            st
        else Ok st);
  Ok (st, SYSTEM_OK).

(** [while(c && (len < bound) && (len < INTEGER_BUFFER_SIZE)) buffer[len++] = '0']. *)
Definition zeros_to (c : bool) (bound : Z) (buffer : list Z) : list Z :=
  if c then
    buffer ++ replicate (Z.to_nat (Z.min bound INTEGER_BUFFER_SIZE - Z.of_nat (length buffer))) 48
  else buffer.

(** [if(len < INTEGER_BUFFER_SIZE) buffer[len++] = c]. *)
Definition push (c : Z) (buffer : list Z) : list Z :=
  if Z.of_nat (length buffer) <? INTEGER_BUFFER_SIZE then buffer ++ [c] else buffer.

(** [len--]: the last character is forgotten. *)
Definition pop (buffer : list Z) : list Z := take (length buffer - 1) buffer.

(** Padding given back to make room for a prefix. *)
Definition take_back (unpadded_len base precision width flags : Z) (buffer : list Z) : list Z :=
  let len (b : list Z) := Z.of_nat (length b) in
  if negb (has flags FLAGS_PRECISION) && negb (len buffer =? 0) &&
     ((len buffer =? precision) || (len buffer =? width)) then
    let buffer := if unpadded_len <? len buffer then pop buffer else buffer in
    if negb (len buffer =? 0) && ((base =? 16) || (base =? 2)) && (unpadded_len <? len buffer)
    then pop buffer else buffer
  else buffer.

(** The prefix [0x], [0X], [0b] or [0], reversed. *)
Definition add_prefix (base flags : Z) (buffer : list Z) : list Z :=
  let room := Z.of_nat (length buffer) <? INTEGER_BUFFER_SIZE in
  let buffer :=
    if (base =? 16) && negb (has flags FLAGS_UPPERCASE) && room then buffer ++ [120]
    else if (base =? 16) && has flags FLAGS_UPPERCASE && room then buffer ++ [88]
    else if (base =? 2) && room then buffer ++ [98]
    else buffer in
  push 48 buffer.

Definition add_sign (negative : bool) (flags : Z) (buffer : list Z) : list Z :=
  if negative then push 45 buffer
  else if has flags FLAGS_PLUS then push 43 buffer
  else if has flags FLAGS_SPACE then push 32 buffer
  else buffer.

(** What [finalize_integer] leaves to print: buffer, width, flags. *)
Definition finalize_buffer (buffer : list Z) (negative : bool) (base precision width flags : Z) :
    list Z * Z * Z :=
  let unpadded_len := Z.of_nat (length buffer) in
  let width :=
    if negb (has flags FLAGS_LEFT) && (negb (width =? 0) && has flags FLAGS_ZEROPAD &&
         (negative || has flags (Z.lor FLAGS_PLUS FLAGS_SPACE)))
    then u64 (width - 1) else width in
  let buffer := zeros_to (negb (has flags FLAGS_LEFT) && has flags FLAGS_ZEROPAD) width buffer in
  let buffer := zeros_to true precision buffer in
  let flags := if (base =? 8) && (unpadded_len <? Z.of_nat (length buffer))
               then clear flags FLAGS_HASH else flags in
  let buffer :=
    if has flags (Z.lor FLAGS_HASH FLAGS_POINTER)
    then add_prefix base flags (take_back unpadded_len base precision width flags buffer)
    else buffer in
  (add_sign negative flags buffer, width, flags).

Definition finalize_integer (buffer : list Z) (negative : bool) (base precision width flags : Z)
    (st : io) : outcome (io * Z) :=
  let '(buffer, width, flags) := finalize_buffer buffer negative base precision width flags in
  output_reverse buffer width flags st.

(** The digits, least significant first; the buffer has room for 32. *)
Definition digit_char (flags digit : Z) : Z :=
  if digit <? 10 then 48 + digit
  else (if has flags FLAGS_UPPERCASE then 65 else 97) + digit - 10.

Fixpoint integer_digits (room : nat) (value base flags : Z) : list Z :=
  match room with
  | O => []
  | S room' =>
      digit_char flags (value mod base) ::
      (if value / base =? 0 then [] else integer_digits room' (value / base) base flags)
  end.

(** The buffer and flags [print_integer] starts from. *)
Definition integer_buffer (value base flags : Z) : list Z * Z :=
  if value =? 0 then
    if negb (has flags FLAGS_PRECISION) then ([48], clear flags FLAGS_HASH)
    else if base =? 16 then ([], clear flags FLAGS_HASH)
    else ([], flags)
  else (integer_digits (Z.to_nat INTEGER_BUFFER_SIZE) value base flags, flags).

Definition print_integer (value : Z) (negative : bool) (base precision width flags : Z)
    (st : io) : outcome (io * Z) :=
  let '(buffer, flags) := integer_buffer value base flags in
  finalize_integer buffer negative base precision width flags st.

(** ** Parsing a specification *)

(** Sequencing of steps that may be cancelled. *)
Definition unless_canceled {A B} (o : outcome (option A)) (k : A → outcome (option B)) :
    outcome (option B) :=
  r ← o;
  match r with Some a => k a | None => Ok None end.
Declare Scope phoebe_scope.
Notation "x ←? o ; k" := (unless_canceled o (λ x, k))
  (at level 20, o at level 100, k at level 200, only parsing) : phoebe_scope.
Notation "' x ←? o ; k" := (unless_canceled o (λ x, k))
  (at level 20, x pattern, o at level 100, k at level 200, only parsing) : phoebe_scope.
#[local] Open Scope phoebe_scope.

Definition ADVANCE_IN_FORMAT_STRING (m : mem) (ptr : Z) : outcome (option Z) :=
  let ptr := u64 (ptr + 1) in
  c ← ldc m ptr;
  Ok (if c =? 0 then None else Some ptr).

Definition flag_of (c : Z) : option Z :=
  if c =? 48 then Some FLAGS_ZEROPAD
  else if c =? 45 then Some FLAGS_LEFT
  else if c =? 43 then Some FLAGS_PLUS
  else if c =? 32 then Some FLAGS_SPACE
  else if c =? 35 then Some FLAGS_HASH
  else None.

Definition parse_flags (fuel : nat) (m : mem) (format : Z) : outcome (Z * Z) :=
  loop fuel
    (λ '(format, flags),
       c ← ldc m format;
       match flag_of c with
       | Some f => Ok (inl (u64 (format + 1), Z.lor flags f))
       | None => Ok (inr (flags, format))
       end)
    (format, 0).

(** [va_arg] for 64-bit types and for [int]. *)
Definition va_arg (args : list Z) : outcome (Z * list Z) :=
  match args with
  | a :: rest => Ok (u64 a, rest)
  | [] => Fault
  end.
Definition va_arg_int (args : list Z) : outcome (Z * list Z) :=
  '(a, rest) ← va_arg args; Ok (s32 a, rest).

(** Width: format, flags, width, arguments. *)
Definition parse_width (fuel : nat) (m : mem) (format flags : Z) (args : list Z) :
    outcome (option (Z * Z * Z * list Z)) :=
  c ← ldc m format;
  if isdigit c then
    '(width, format) ← stdio_atou fuel m format;
    Ok (Some (format, flags, width, args))
  else if c =? 42 then
    '(wide, args) ← va_arg_int args;
    let '(flags, width) :=
      if wide <? 0 then (Z.lor flags FLAGS_LEFT, u64 (s32 (- wide))) else (flags, wide) in
    format ←? ADVANCE_IN_FORMAT_STRING m format;
    Ok (Some (format, flags, width, args))
  else Ok (Some (format, flags, 0, args)).

(** [ADVANCE] at least once and past digits. *)
Definition skip_digits (fuel : nat) (m : mem) (format : Z) : outcome (option Z) :=
  loop fuel
    (λ format,
       r ← ADVANCE_IN_FORMAT_STRING m format;
       match r with
       | None => Ok (inr None)
       | Some format =>
           c ← ldc m format;
           if isdigit c then Ok (inl format) else Ok (inr (Some format))
       end)
    format.

Definition parse_precision (fuel : nat) (m : mem) (format flags : Z) (args : list Z) :
    outcome (option (Z * Z * Z * list Z)) :=
  c ← ldc m format;
  if c =? 46 then
    let flags := Z.lor flags FLAGS_PRECISION in
    format ←? ADVANCE_IN_FORMAT_STRING m format;
    c ← ldc m format;
    if c =? 45 then
      format ←? skip_digits fuel m format;
      Ok (Some (format, clear flags FLAGS_PRECISION, 0, args))
    else if isdigit c then
      '(precision, format) ← stdio_atou fuel m format;
      Ok (Some (format, flags, precision, args))
    else if c =? 42 then
      '(p, args) ← va_arg_int args;
      let '(flags, precision) :=
        if p <? 0 then (clear flags FLAGS_PRECISION, 0) else (flags, p) in
      format ←? ADVANCE_IN_FORMAT_STRING m format;
      Ok (Some (format, flags, precision, args))
    else Ok (Some (format, flags, 0, args))
  else Ok (Some (format, flags, 0, args)).

(** After an [ADVANCE]: when the character is [c], another one and the flag [f]. *)
Definition second_char (m : mem) (format c flags f : Z) : outcome (option (Z * Z)) :=
  format ←? ADVANCE_IN_FORMAT_STRING m format;
  x ← ldc m format;
  if x =? c then
    format ←? ADVANCE_IN_FORMAT_STRING m format;
    Ok (Some (format, Z.lor flags f))
  else Ok (Some (format, flags)).

Definition parse_length (m : mem) (format flags : Z) : outcome (option (Z * Z)) :=
  c ← ldc m format;
  if c =? 73 then
    format ←? ADVANCE_IN_FORMAT_STRING m format;
    c ← ldc m format;
    if c =? 56 then
      format ←? ADVANCE_IN_FORMAT_STRING m format;
      Ok (Some (format, Z.lor flags FLAGS_CHAR))
    else if c =? 49 then
      format ←? ADVANCE_IN_FORMAT_STRING m format;
      x ← ldc m format;
      if x =? 54 then Ok (Some (u64 (format + 1), Z.lor flags FLAGS_SHORT))
      else Ok (Some (format, flags))
    else if c =? 51 then second_char m format 50 flags FLAGS_INT
    else if c =? 54 then second_char m format 52 flags FLAGS_LONG
    else Ok (Some (format, flags))
  else if c =? 108 then second_char m format 108 (Z.lor flags FLAGS_LONG) FLAGS_LONG_LONG
  else if c =? 104 then second_char m format 104 (Z.lor flags FLAGS_SHORT) FLAGS_CHAR
  else if (c =? 116) || (c =? 106) || (c =? 122) then
    format ←? ADVANCE_IN_FORMAT_STRING m format;
    Ok (Some (format, Z.lor flags FLAGS_LONG))
  else Ok (Some (format, flags)).

(** What a specification says, and where its specifier is. *)
Record spec := Spec {
  sp_format : Z;
  sp_flags : Z;
  sp_width : Z;
  sp_precision : Z;
  sp_args : list Z;
}.

(** From the [%] to the specifier. *)
Definition parse_spec (fuel : nat) (m : mem) (format : Z) (args : list Z) :
    outcome (option spec) :=
  format ←? ADVANCE_IN_FORMAT_STRING m format;
  '(flags, format) ← parse_flags fuel m format;
  '(format, flags, width, args) ←? parse_width fuel m format flags args;
  '(format, flags, precision, args) ←? parse_precision fuel m format flags args;
  '(format, flags) ←? parse_length m format flags;
  Ok (Some (Spec format flags width precision args)).

(** ** The specifiers *)

Definition print_number (c : Z) (sp : spec) (st : io) : outcome (io * list Z) :=
  let flags := sp_flags sp in
  let flags := if (c =? 100) || (c =? 105) then Z.lor flags FLAGS_SIGNED else flags in
  let '(base, flags) :=
    if (c =? 120) || (c =? 88) then (16, flags)
    else if c =? 111 then (8, flags)
    else if c =? 98 then (2, flags)
    else (10, clear flags FLAGS_HASH) in
  let flags := if c =? 88 then Z.lor flags FLAGS_UPPERCASE else flags in
  let flags := if has flags FLAGS_PRECISION then clear flags FLAGS_ZEROPAD else flags in
  '(arg, args) ← va_arg (sp_args sp);
  if has flags FLAGS_SIGNED then
    let value :=
      if has flags FLAGS_LONG_LONG then s64 arg
      else if has flags FLAGS_LONG then s64 arg
      else if has flags FLAGS_CHAR then s8 (s32 arg)
      else if has flags FLAGS_SHORT then s16 (s32 arg)
      else s32 arg in
    '(st, _) ← print_integer (STDIO_ABS value) (value <? 0) base (sp_precision sp) (sp_width sp)
                 flags st;
    Ok (st, args)
  else
    let flags := clear flags (Z.lor FLAGS_PLUS FLAGS_SPACE) in
    let value :=
      if has flags FLAGS_LONG_LONG then arg
      else if has flags FLAGS_LONG then arg
      else STDIO_ABS (if has flags FLAGS_CHAR then u8 (u32 arg)
                      else if has flags FLAGS_SHORT then u16 (u32 arg)
                      else u32 (s32 arg)) in
    '(st, _) ← print_integer value false base (sp_precision sp) (sp_width sp) flags st;
    Ok (st, args).

Definition print_char (sp : spec) (st : io) : outcome (io * list Z) :=
  st ← (if negb (has (sp_flags sp) FLAGS_LEFT) then pad 1 (sp_width sp) st else Ok st);
  '(c, args) ← va_arg_int (sp_args sp);
  st ← put (s8 c) st;
  st ← (if has (sp_flags sp) FLAGS_LEFT then pad 1 (sp_width sp) st else Ok st);
  Ok (st, args).

Definition print_string (fuel : nat) (sp : spec) (st : io) : outcome (io * list Z) :=
  let '(Spec _ flags width precision args) := sp in
  '(str, args) ← va_arg args;
  if str =? 0 then
    '(st, _) ← output_reverse [] width flags st;
    Ok (st, args)
  else
    len ← strnlen fuel (io_mem st) str
            (if negb (precision =? 0) then precision else MAX_POSSIBLE_BUFFER_SIZE);
    let len := if has flags FLAGS_PRECISION then (if len <? precision then len else precision)
               else len in
    st ← (if negb (has flags FLAGS_LEFT) then pad len width st else Ok st);
    st ← loop fuel
           (λ '(st, str, precision),
              c ← ldc (io_mem st) str;
              if negb (c =? 0) && (negb (has flags FLAGS_PRECISION) || negb (precision =? 0)) then
                st ← put c st;
                Ok (inl (st, u64 (str + 1), u64 (precision - 1)))
              else Ok (inr st))
           (st, str, precision);
    st ← (if has flags FLAGS_LEFT then pad len width st else Ok st);
    Ok (st, args).

Definition print_pointer (sp : spec) (st : io) : outcome (io * list Z) :=
  let width := 8 * 2 + 2 in
  let flags := Z.lor (sp_flags sp) (Z.lor FLAGS_ZEROPAD FLAGS_POINTER) in
  '(value, args) ← va_arg (sp_args sp);
  '(st, _) ← (if value =? 0 then output_reverse [41; 108; 105; 110; 40] width flags st
              else print_integer value false 16 (sp_precision sp) width flags st);
  Ok (st, args).

(** [%n]: the count goes where the argument points. *)
Definition store_position (sp : spec) (st : io) : outcome (io * list Z) :=
  '(p, args) ← va_arg (sp_args sp);
  let bytes := if has (sp_flags sp) FLAGS_CHAR then 1%nat
               else if has (sp_flags sp) FLAGS_SHORT then 2%nat
               else if has (sp_flags sp) FLAGS_LONG then 8%nat
               else if has (sp_flags sp) FLAGS_LONG_LONG then 8%nat
               else 4%nat in
  m ← stn bytes (io_mem st) p (position (io_file st));
  Ok (set_io_mem m st, args).

Definition is_number (c : Z) : bool :=
  (c =? 100) || (c =? 105) || (c =? 117) || (c =? 120) || (c =? 88) || (c =? 111) || (c =? 98).

Definition print_spec (fuel : nat) (sp : spec) (st : io) : outcome (io * Z * list Z) :=
  c ← ldc (io_mem st) (sp_format sp);
  '(st, args) ←
    (if is_number c then print_number c sp st
     else if c =? 99 then print_char sp st
     else if c =? 115 then print_string fuel sp st
     else if c =? 112 then print_pointer sp st
     else if c =? 37 then st ← put 37 st; Ok (st, sp_args sp)
     else if c =? 110 then store_position sp st
     else st ← put c st; Ok (st, sp_args sp));
  Ok (st, u64 (sp_format sp + 1), args).

(** One turn of the loop over the format. *)
Definition format_step (fuel : nat) :
    io * Z * list Z → outcome ((io * Z * list Z) + (io * Z)) :=
  λ '(st, format, args),
    c ← ldc (io_mem st) format;
    if c =? 0 then Ok (inr (st, SYSTEM_OK)) else
    if negb (c =? 37) then
      st ← put c st;
      Ok (inl (st, u64 (format + 1), args))
    else
      r ← parse_spec fuel (io_mem st) format args;
      match r with
      | None => Ok (inr (st, SYSTEM_ERR_CANCELED))
      | Some sp => '(st, format, args) ← print_spec fuel sp st; Ok (inl (st, format, args))
      end.

Definition format_string (fuel : nat) (format : Z) (args : list Z) (st : io) :
    outcome (io * Z) :=
  loop fuel (format_step fuel) (st, format, args).

Definition vsnprintf_internal (fuel : nat) (format : Z) (args : list Z) (st : io) :
    outcome (io * Z) :=
  '(st, err) ← format_string fuel format args st;
  st ← append_termination st;
  Ok (st, err).

(** ** [vprintf.c] and [printf.c] *)

Definition vsnprintf (fuel : nat) (buffer maxlen format : Z) (args : list Z) (m : mem) :
    outcome (mem * Z) :=
  '(st, r) ← vsnprintf_internal fuel format args (Io m (File maxlen 0 buffer None) []);
  Ok (io_mem st, r).

Definition vsprintf (fuel : nat) (buffer format : Z) (args : list Z) (m : mem) :
    outcome (mem * Z) :=
  vsnprintf fuel buffer ULONG_MAX format args m.

Definition vfprintf : nat → Z → list Z → io → outcome (io * Z) := vsnprintf_internal.
Definition vprintf : nat → Z → list Z → io → outcome (io * Z) := vfprintf.

Definition snprintf := vsnprintf.
Definition sprintf := vsprintf.
Definition fprintf := vfprintf.
Definition printf := vprintf.
