(* ===== verification/PrintText.v ===== *)
(** * What formatted output writes

    On a stream with a function, output is the text appended to what the function
    got.  The text of a number is computed here on lists, and read back by the
    parse that [strtol] refines. *)
From S2P Require Import Prelude Mem MemCopy MemSet MemCmp CString Ctype Strto Stdio Print.

(** The state after the characters [l]. *)
Definition wrote (l : list Z) (st : io) : io :=
  let f := io_file st in
  Io (io_mem st)
     (File (buffer_size f) (u64 (position f + Z.of_nat (length l))) (buffer f) (write_func f))
     (io_out st ++ l).

(** A stream with a function, its position a 64-bit number. *)
Definition device (st : io) : Prop :=
  is_Some (write_func (io_file st)) ∧ 0 ≤ position (io_file st) < 2 ^ 64.

Lemma wrote_nil st : device st → wrote [] st = st.
Proof.
  intros [_ Hp]. destruct st as [m [sz pos buf w] out]. unfold wrote. simpl in *.
  by rewrite app_nil_r, Z.add_0_r, u64_small.
Qed.

Lemma wrote_app l1 l2 st : wrote l2 (wrote l1 st) = wrote (l1 ++ l2) st.
Proof.
  unfold wrote. simpl. rewrite u64_add_l, <-app_assoc, length_app, Nat2Z.inj_add, Z.add_assoc.
  done.
Qed.

Lemma device_wrote l st : device st → device (wrote l st).
Proof. intros [? _]. split; [done|apply u64_range]. Qed.

Lemma put_wrote c st : device st → put c st = Ok (wrote [c] st).
Proof. intros [[w Hw] _]. unfold put, putc. simpl. by rewrite Hw. Qed.

Lemma put_all_wrote l st : device st → put_all l st = Ok (wrote l st).
Proof.
  revert st. induction l as [|c l IH]; intros st Hd; simpl; [by rewrite wrote_nil|].
  rewrite put_wrote, bind_ok, IH by (try apply device_wrote; done). by rewrite wrote_app.
Qed.

Lemma repeat_put_wrote c n st :
  device st → repeat_n n (put c) st = Ok (wrote (replicate n c) st).
Proof.
  revert st. induction n as [|n IH]; intros st Hd; simpl; [by rewrite wrote_nil|].
  rewrite put_wrote, bind_ok, IH by (try apply device_wrote; done). by rewrite wrote_app.
Qed.

(** ** [output_reverse] *)

(** Padding to the left or to the right of a text. *)
Definition justify (width flags : Z) (text : list Z) : list Z :=
  let spaces := replicate (Z.to_nat (width - Z.of_nat (length text))) 32 in
  if has flags FLAGS_LEFT then text ++ spaces
  else if has flags FLAGS_ZEROPAD then text
  else spaces ++ text.

Lemma pad_right_loop start text k width fuel st :
  device st → 0 ≤ start < 2 ^ 64 → 0 ≤ width < 2 ^ 64 → Z.of_nat (length text) < 2 ^ 64 →
  position (io_file st) = start → (Z.to_nat (width - Z.of_nat (length text)) - k < fuel)%nat →
  (k ≤ Z.to_nat (width - Z.of_nat (length text)))%nat →
  loop fuel
    (λ st, if u64 (position (io_file st) - start) <? width
           then st ← put 32 st; Ok (inl st)
           else Ok (inr st))
    (wrote (text ++ replicate k 32) st) =
  Ok (wrote (text ++ replicate (Z.to_nat (width - Z.of_nat (length text))) 32) st).
Proof.
  intros Hd Hs Hw Ht Hp. revert k. induction fuel as [|fuel IH]; intros k Hf Hk; [lia|].
  simpl loop. rewrite Hp.
  rewrite u64_sub_l. rewrite length_app, length_replicate, Nat2Z.inj_add.
  replace (start + (Z.of_nat (length text) + Z.of_nat k) - start) with
    (Z.of_nat (length text) + Z.of_nat k) by lia.
  destruct (decide (k = Z.to_nat (width - Z.of_nat (length text)))) as [->|Hne].
  - destruct (Z.le_gt_cases width (Z.of_nat (length text))) as [Hle|Hgt].
    + rewrite u64_small by lia.
      by rewrite (proj2 (Z.ltb_ge _ _)) by lia.
    + rewrite u64_small by lia. by rewrite (proj2 (Z.ltb_ge _ _)) by lia.
  - rewrite u64_small by lia. rewrite (proj2 (Z.ltb_lt _ _)) by lia.
    rewrite put_wrote, bind_ok, bind_ok by by apply device_wrote.
    rewrite wrote_app, <-app_assoc, <-replicate_S_end. apply IH; lia.
Qed.

Lemma output_reverse_wrote b width flags st :
  device st → 0 ≤ width < 2 ^ 64 → Z.of_nat (length b) < 2 ^ 64 →
  output_reverse b width flags st = Ok (wrote (justify width flags (rev b)) st, SYSTEM_OK).
Proof.
  intros Hd Hw Hb. unfold output_reverse, justify, pad. rewrite length_rev.
  destruct (has flags FLAGS_LEFT) eqn:HL; cbn [negb andb]; rewrite ?bind_ok.
  - rewrite put_all_wrote, bind_ok by done.
    pose proof (pad_right_loop (position (io_file st)) (rev b) 0 width (S (Z.to_nat width)) st) as Hp.
    rewrite length_rev in Hp. simpl replicate in Hp. rewrite app_nil_r in Hp.
    rewrite Hp; [done|done|apply Hd|done|done|done|lia|lia].
  - destruct (has flags FLAGS_ZEROPAD) eqn:HZ; cbn [negb]; rewrite ?bind_ok.
    + by rewrite put_all_wrote by done.
    + rewrite repeat_put_wrote, bind_ok by done.
      rewrite put_all_wrote by by apply device_wrote. simpl. by rewrite wrote_app.
Qed.

(** ** Numbers *)

(** The text of a number. *)
Definition integer_text (value : Z) (negative : bool) (base precision width flags : Z) : list Z :=
  let '(b, flags) := integer_buffer value base flags in
  let '(b, width, flags) := finalize_buffer b negative base precision width flags in
  justify width flags (rev b).

Lemma push_length c b :
  (length b ≤ 32)%nat → (length (push c b) ≤ 32)%nat.
Proof.
  intros Hb. unfold push, INTEGER_BUFFER_SIZE.
  destruct (Z.ltb_spec (Z.of_nat (length b)) 32); rewrite ?length_app; simpl; lia.
Qed.

Lemma zeros_to_length c n b : (length b ≤ 32)%nat → (length (zeros_to c n b) ≤ 32)%nat.
Proof.
  intros Hb. unfold zeros_to, INTEGER_BUFFER_SIZE. destruct c; [|done].
  rewrite length_app, length_replicate. lia.
Qed.

Lemma pop_length b : (length (pop b) ≤ length b)%nat.
Proof. unfold pop. rewrite length_take. lia. Qed.

Lemma integer_buffer_length value base flags :
  (length (fst (integer_buffer value base flags)) ≤ 32)%nat.
Proof.
  unfold integer_buffer. destruct (value =? 0).
  { destruct (negb _); simpl; [lia|]. destruct (base =? 16); simpl; lia. }
  cbn [fst]. change (Z.to_nat INTEGER_BUFFER_SIZE) with 32%nat. generalize 32%nat as n.
  intros n. revert value. induction n as [|n IH]; intros value; cbn [integer_digits length]; [lia|].
  destruct (value / base =? 0); [simpl; lia|]. specialize (IH (value / base)). lia.
Qed.

Lemma take_back_length n base precision width flags b :
  (length b ≤ 32)%nat → (length (take_back n base precision width flags b) ≤ 32)%nat.
Proof.
  intros Hb. unfold take_back. cbv zeta. pose proof (pop_length b).
  destruct (n <? Z.of_nat (length b)); [pose proof (pop_length (pop b))|];
    repeat case_match; lia.
Qed.

Lemma add_prefix_length base flags b :
  (length b ≤ 32)%nat → (length (add_prefix base flags b) ≤ 32)%nat.
Proof.
  intros Hb. unfold add_prefix, INTEGER_BUFFER_SIZE. apply push_length.
  destruct (Z.ltb_spec (Z.of_nat (length b)) 32);
    repeat case_match; rewrite ?length_app; simpl; lia.
Qed.

Lemma add_sign_length negative flags b :
  (length b ≤ 32)%nat → (length (add_sign negative flags b) ≤ 32)%nat.
Proof. intros. unfold add_sign. repeat case_match; auto using push_length. Qed.

(** The buffer never holds more than its 32 characters, whatever it is asked. *)
Lemma finalize_buffer_length b negative base precision width flags :
  (length b ≤ 32)%nat →
  (length (fst (fst (finalize_buffer b negative base precision width flags))) ≤ 32)%nat.
Proof.
  intros Hb. unfold finalize_buffer. cbv zeta. cbn [fst]. apply add_sign_length.
  case_match; [apply add_prefix_length, take_back_length|]; by repeat apply zeros_to_length.
Qed.

Lemma finalize_buffer_width b negative base precision width flags :
  0 ≤ width < 2 ^ 64 →
  0 ≤ snd (fst (finalize_buffer b negative base precision width flags)) < 2 ^ 64.
Proof. intros. unfold finalize_buffer. cbn. case_match; [apply u64_range|done]. Qed.

Lemma print_integer_wrote value negative base precision width flags st :
  device st → 0 ≤ width < 2 ^ 64 →
  print_integer value negative base precision width flags st =
  Ok (wrote (integer_text value negative base precision width flags) st, SYSTEM_OK).
Proof.
  intros Hd Hw. unfold print_integer, integer_text, finalize_integer.
  pose proof (integer_buffer_length value base flags) as Hlen.
  destruct (integer_buffer value base flags) as [b flags']. simpl in Hlen.
  pose proof (finalize_buffer_length b negative base precision width flags' Hlen) as Hlen'.
  pose proof (finalize_buffer_width b negative base precision width flags' Hw) as Hw'.
  destruct (finalize_buffer _ _ _ _ _ _) as [[b' w'] f']. simpl in *.
  apply output_reverse_wrote; [done|done|lia].
Qed.

(** The digits of a number, least significant first, at most [room] of them. *)
Fixpoint number_digits (room : nat) (value base : Z) : list Z :=
  match room with
  | O => []
  | S room' =>
      value mod base :: (if value / base =? 0 then [] else number_digits room' (value / base) base)
  end.

Lemma integer_digits_map room value base flags :
  integer_digits room value base flags = map (digit_char flags) (number_digits room value base).
Proof.
  revert value. induction room as [|room IH]; intros value; simpl; [done|].
  destruct (value / base =? 0); [done|]. by rewrite IH.
Qed.

Lemma number_digits_range room value base :
  0 < base → Forall (λ d, 0 ≤ d < base) (number_digits room value base).
Proof.
  intros Hb. revert value. induction room as [|room IH]; intros value; simpl; [done|].
  constructor; [by apply Z.mod_pos_bound|]. by destruct (value / base =? 0).
Qed.

Lemma number_digits_nonempty room value base : number_digits (S room) value base ≠ [].
Proof. done. Qed.

Lemma number_digits_value room value base :
  0 < base → 0 ≤ value →
  Strto.value base 0 (rev (number_digits room value base)) = value mod base ^ Z.of_nat room.
Proof.
  intros Hb. revert value. induction room as [|room IH]; intros v Hv; cbn [number_digits].
  { by rewrite Z.pow_0_r, Z.mod_1_r. }
  simpl rev. unfold Strto.value in *. rewrite foldl_app. cbn [foldl].
  rewrite Nat2Z.inj_succ, Z.pow_succ_r by lia.
  rewrite Z.rem_mul_r by (try lia; apply Z.pow_nonzero; lia).
  destruct (Z.eqb_spec (v / base) 0) as [H0|].
  - rewrite H0. cbn. rewrite Z.mod_0_l by (apply Z.pow_nonzero; lia). lia.
  - rewrite IH by (by apply Z.div_pos). lia.
Qed.

Lemma number_digits_short n room value base :
  2 ≤ base → 0 ≤ value < base ^ Z.of_nat n → (length (number_digits room value base) ≤ Nat.max 1 n)%nat.
Proof.
  intros Hb. revert n value. induction room as [|room IH]; intros n v Hv; simpl; [lia|].
  destruct (Z.eqb_spec (v / base) 0); simpl; [lia|].
  destruct n as [|[|n]].
  - rewrite Z.pow_0_r in Hv. assert (v = 0) as -> by lia. by rewrite Z.div_0_l in * by lia.
  - rewrite Z.pow_1_r in Hv. by rewrite Z.div_small in *.
  - specialize (IH (S n) (v / base)). rewrite (Nat2Z.inj_succ (S n)), Z.pow_succ_r in Hv by lia.
    assert (0 ≤ v / base < base ^ Z.of_nat (S n)) as Hq.
    { split; [apply Z.div_pos; lia|]. apply Z.div_lt_upper_bound; lia. }
    specialize (IH Hq). lia.
Qed.

(** ** Reading a number back *)

Lemma digit_char_facts flags d :
  0 ≤ d < 16 →
  let c := digit_char flags d in
  digit_of (s8 c) = Some d ∧ isspace (s8 c) = false ∧ 47 < c < 128 ∧ c ≠ 120 ∧ c ≠ 88.
Proof.
  intros Hd c. unfold c, digit_char. clear c. generalize (has flags FLAGS_UPPERCASE) as up. intros up.
  revert d Hd. by destruct up; refine (forall_range _ 0 16 _); vm_compute.
Qed.

Lemma digits_of_chars flags base ds :
  base ≤ 16 → Forall (λ d, 0 ≤ d < base) ds → digits base (map (digit_char flags) ds) = ds.
Proof.
  intros Hb Hds. induction Hds as [|d ds Hd Hds IH]; simpl; [done|].
  destruct (digit_char_facts flags d) as [-> _]; [lia|].
  rewrite (proj2 (Z.leb_gt _ _)) by lia. by rewrite IH.
Qed.

(** The sign of a number and its digits, read by [strtol]'s parse. *)
Lemma parse_number (negative : bool) flags base ds :
  2 ≤ base ≤ 16 → ds ≠ [] → Forall (λ d, 0 ≤ d < base) ds →
  let text := (if negative then [45] else []) ++ map (digit_char flags) ds in
  parse base text = {| ps_neg := negative; ps_value := value base 0 ds; ps_any := true;
                       ps_read := Z.of_nat (length text) |}.
Proof.
  intros Hb Hne Hds text. unfold parse.
  assert (skip_spaces text = text) as ->.
  { unfold text. destruct negative; [done|]. destruct ds as [|d ds]; [done|].
    inversion Hds; subst. destruct (digit_char_facts flags d) as (_ & Hs & _); [lia|].
    simpl. by rewrite Hs. }
  assert (take_sign text = (negative, map (digit_char flags) ds)) as ->.
  { unfold text. destruct negative; [done|]. destruct ds as [|d ds]; [done|].
    inversion Hds; subst. destruct (digit_char_facts flags d) as (_ & _ & ? & _); [lia|].
    simpl. by rewrite (proj2 (Z.eqb_neq _ 45)), (proj2 (Z.eqb_neq _ 43)) by lia. }
  assert (take_prefix base (map (digit_char flags) ds) = (base, map (digit_char flags) ds)) as ->.
  { unfold take_prefix. rewrite (proj2 (Z.eqb_neq base 0)) by lia.
    replace (has_prefix base _) with false; [done|]. unfold has_prefix.
    destruct ds as [|d1 [|d2 ds]]; [done..|]. simpl.
    inversion Hds as [|? ? _ Hds']; subst. inversion Hds'; subst.
    destruct (digit_char_facts flags d2) as (_ & _ & _ & ? & ?); [lia|].
    rewrite (proj2 (Z.eqb_neq _ 120)), (proj2 (Z.eqb_neq _ 88)) by done. by rewrite andb_false_r. }
  rewrite digits_of_chars by (lia || done). rewrite bool_decide_eq_false_2 by done.
  rewrite decide_False by done. f_equal. unfold text. rewrite length_app, length_map. lia.
Qed.

(** No flag that changes the characters of a number but the upper-case one. *)
Definition PLAIN_MASK : Z :=
  Z.lor FLAGS_ZEROPAD (Z.lor FLAGS_PLUS (Z.lor FLAGS_SPACE
    (Z.lor FLAGS_HASH (Z.lor FLAGS_PRECISION FLAGS_POINTER)))).
Definition plain (flags : Z) : Prop := has flags PLAIN_MASK = false.

Ltac split_mask H := unfold plain, PLAIN_MASK in H; rewrite ?has_lor, ?orb_false_iff in H.

(** [clear] only touches its flag. *)
Lemma has_clear_hash flags k :
  0 ≤ k < 32 → k ≠ 4 → has (clear flags FLAGS_HASH) (2 ^ k) = has flags (2 ^ k).
Proof.
  intros Hk Hne. rewrite !has_pow2 by lia. unfold clear. rewrite Z.land_spec.
  replace (Z.testbit (u32 (Z.lnot FLAGS_HASH)) k) with true; [by rewrite andb_true_r|].
  revert k Hk Hne. refine (forall_range _ 0 32 _). by vm_compute.
Qed.

Lemma has_clear_zeropad flags :
  has (clear flags FLAGS_HASH) FLAGS_ZEROPAD = has flags FLAGS_ZEROPAD.
Proof. by apply (has_clear_hash flags 0). Qed.

Lemma integer_buffer_plain value base flags :
  2 ≤ base → has flags FLAGS_PRECISION = false → 0 ≤ value →
  ∃ flags', integer_buffer value base flags =
    (map (digit_char flags) (number_digits 32 value base), flags') ∧
    (∀ m, has flags m = false → has flags' m = false) ∧
    (∀ k, 0 ≤ k < 32 → k ≠ 4 → has flags' (2 ^ k) = has flags (2 ^ k)).
Proof.
  intros Hb Hp Hv. unfold integer_buffer. rewrite Hp.
  destruct (Z.eqb_spec value 0) as [->|].
  - exists (clear flags FLAGS_HASH).
    split_and!; [done|by intros m; apply has_land_l|apply has_clear_hash].
  - exists flags. split; [|done]. f_equal. apply integer_digits_map.
Qed.

Lemma zeros_to_0 c b : zeros_to c 0 b = b.
Proof.
  unfold zeros_to. change (Z.min 0 INTEGER_BUFFER_SIZE) with 0.
  replace (Z.to_nat (0 - Z.of_nat (length b))) with O by lia. rewrite app_nil_r. by destruct c.
Qed.

Lemma finalize_buffer_plain b negative base width flags :
  plain flags → (negative = true → (length b < 32)%nat) →
  finalize_buffer b negative base 0 width flags =
  (b ++ (if negative then [45] else []), width, flags).
Proof.
  intros Hpl Hneg. split_mask Hpl. destruct Hpl as (HZ & HP & HS & HH & _ & HPt).
  unfold finalize_buffer. cbv zeta. rewrite HZ, !andb_false_r. cbn [andb].
  rewrite ?andb_false_r. change (zeros_to false width b) with b. rewrite zeros_to_0, Z.ltb_irrefl, andb_false_r, has_lor, HH, HPt.
  simpl orb. cbv iota. f_equal. f_equal. unfold add_sign. rewrite HP, HS.
  destruct negative; [|by rewrite app_nil_r].
  unfold push, INTEGER_BUFFER_SIZE. by rewrite (proj2 (Z.ltb_lt _ _)) by (specialize (Hneg eq_refl); lia).
Qed.

(** The sign and the digits, in order. *)
Definition number_text (value : Z) (negative : bool) (base flags : Z) : list Z :=
  (if negative then [45] else []) ++ map (digit_char flags) (rev (number_digits 32 value base)).

Lemma integer_text_plain value negative base width flags :
  2 ≤ base → plain flags → 0 ≤ value → (negative = true → value < base ^ 31) →
  integer_text value negative base 0 width flags =
  justify width flags (number_text value negative base flags).
Proof.
  intros Hb Hpl Hv Hneg. unfold integer_text.
  assert (has flags FLAGS_PRECISION = false ∧ has flags FLAGS_ZEROPAD = false) as [Hpr HZ].
  { pose proof Hpl as Hm. split_mask Hm. tauto. }
  destruct (integer_buffer_plain value base flags Hb Hpr Hv) as (flags' & -> & Hfl & Hbits).
  rewrite finalize_buffer_plain; [|by apply Hfl|].
  2: { intros Hn. rewrite length_map.
       pose proof (number_digits_short 31 32 value base Hb ltac:(split; [done|by apply Hneg])). lia. }
  unfold justify. rewrite HZ, (Hfl FLAGS_ZEROPAD) by done.
  replace (has flags' FLAGS_LEFT) with (has flags FLAGS_LEFT) by (symmetry; by apply (Hbits 1)).
  rewrite rev_app_distr, <-map_rev. unfold number_text.
  replace (rev (if negative then [45] else [])) with (if negative then [45] else [] : list Z)
    by (by destruct negative).
  done.
Qed.

(** ** Zero padding *)

Lemma zeros_to_full c n b :
  c = true → 32 ≤ n → (length b ≤ 32)%nat →
  zeros_to c n b = b ++ replicate (32 - length b) 48.
Proof.
  intros -> Hn Hb. unfold zeros_to, INTEGER_BUFFER_SIZE. do 2 f_equal. lia.
Qed.

Lemma add_sign_full negative flags b : (length b = 32)%nat → add_sign negative flags b = b.
Proof.
  intros Hb. unfold add_sign, push, INTEGER_BUFFER_SIZE. rewrite Hb.
  change (Z.of_nat 32 <? 32) with false. by repeat case_match.
Qed.

(** The flags of a zero-padded number. *)
Record zero_padded (flags : Z) : Prop := ZeroPadded {
  zp_pad : has flags FLAGS_ZEROPAD = true;
  zp_left : has flags FLAGS_LEFT = false;
  zp_others : has flags (Z.lor FLAGS_HASH (Z.lor FLAGS_PRECISION FLAGS_POINTER)) = false;
}.

Lemma finalize_buffer_zeros b negative base width flags :
  zero_padded flags → 33 ≤ width < 2 ^ 64 → (length b ≤ 32)%nat →
  let '(b', w', f') := finalize_buffer b negative base 0 width flags in
  b' = b ++ replicate (32 - length b) 48 ∧
  has f' FLAGS_LEFT = false ∧ has f' FLAGS_ZEROPAD = true.
Proof.
  intros [HZ HL Ho] Hw Hb. rewrite !has_lor, !orb_false_iff in Ho. destruct Ho as (HH & _ & HPt).
  unfold finalize_buffer. cbv zeta. rewrite HL, HZ. cbn [negb andb].
  set (w := if _ : bool then u64 (width - 1) else width).
  assert (32 ≤ w) as Hw'.
  { unfold w. case_match; [rewrite u64_small by lia|]; lia. }
  rewrite zeros_to_0, zeros_to_full by done.
  set (f := if _ : bool then clear flags FLAGS_HASH else flags).
  assert (∀ m, has flags m = false → has f m = false) as Hf.
  { intros m. unfold f. case_match; [apply has_land_l|done]. }
  rewrite has_lor, (Hf FLAGS_HASH HH), (Hf FLAGS_POINTER HPt). cbn [orb].
  rewrite add_sign_full by (rewrite length_app, length_replicate; lia).
  split_and!; [done|by apply Hf|]. unfold f. case_match; [by rewrite has_clear_zeropad|done].
Qed.

(** ** Formats *)

(** A format read at a distance from its start. *)
Lemma ldc_format m fmt l i c :
  cstring m fmt l → (l ++ [0]) !! i = Some c → 0 ≤ c < 128 →
  ldc m (fmt + Z.of_nat i) = Ok c.
Proof.
  intros Hs Hc Hr. unfold ldc. rewrite (ld8_Some _ _ c); [|by apply (cs_holds _ _ _ Hs)].
  rewrite bind_ok. f_equal. by apply sw_small; lia.
Qed.

(** A 64-bit argument read as a [long], and its absolute value. *)
Lemma long_argument n : - 2 ^ 63 ≤ n < 2 ^ 63 → s64 (u64 n) = n ∧ STDIO_ABS n = Z.abs n.
Proof.
  intros Hn. unfold STDIO_ABS.
  destruct (Z.ltb_spec 0 n); [rewrite !u64_small, s64_small by lia; lia|].
  destruct (Z.eq_dec n 0) as [->|]; [done|].
  assert (u64 n = 2 ^ 64 + n) as -> by (unfold u64; by rewrite <-(Z.mod_add _ 1), Z.mod_small; lia).
  split.
  - unfold s64, sw. replace (2 ^ 64 + n + 2 ^ (64 - 1)) with (n + 2 ^ 63 + 1 * 2 ^ 64) by lia.
    rewrite Z.mod_add, Z.mod_small by lia. lia.
  - unfold u64. rewrite <-(Z.mod_add _ 1), Z.mod_small by lia. lia.
Qed.

(** The specification [%ld]. *)
Lemma parse_spec_ld fuel m fmt args :
  cstring m fmt [37; 108; 100] → (1 ≤ fuel)%nat →
  parse_spec fuel m fmt args = Ok (Some (Spec (fmt + 2) FLAGS_LONG 0 0 args)).
Proof.
  intros Hs Hf. pose proof (cs_at _ _ _ Hs) as [? Htop]. simpl length in Htop.
  pose proof (ldc_format _ _ _ 1 108 Hs eq_refl ltac:(lia)) as H1.
  pose proof (ldc_format _ _ _ 2 100 Hs eq_refl ltac:(lia)) as H2.
  change (Z.of_nat 1) with 1 in H1. change (Z.of_nat 2) with 2 in H2.
  assert (u64 (fmt + 1) = fmt + 1) as Hu1 by (apply u64_small; lia).
  assert (u64 (fmt + 1 + 1) = fmt + 2) as Hu2 by (rewrite u64_small; lia).
  unfold parse_spec, ADVANCE_IN_FORMAT_STRING. rewrite Hu1, H1. simpl.
  destruct fuel as [|fuel]; [lia|]. unfold parse_flags. simpl loop.
  rewrite H1. simpl. unfold parse_width. rewrite H1. simpl.
  unfold parse_precision. rewrite H1. simpl. unfold parse_length. rewrite H1. simpl.
  unfold second_char, ADVANCE_IN_FORMAT_STRING. rewrite Hu2, H2. simpl. by rewrite H2.
Qed.

Lemma print_number_ld p n st :
  print_number 100 (Spec p FLAGS_LONG 0 0 [n]) st =
  ('(st, _) ← print_integer (STDIO_ABS (s64 (u64 n))) (s64 (u64 n) <? 0) 10 0 0
                (clear (Z.lor FLAGS_LONG FLAGS_SIGNED) FLAGS_HASH) st;
   Ok (st, [])).
Proof. reflexivity. Qed.

(** Text copied to memory: the bytes [l] at [a], the rest as in [m]. *)
Definition text_at (m m' : mem) (a : Z) (l : list Z) : Prop :=
  ∀ x, m' !! x = if decide (a ≤ x < a + Z.of_nat (length l)) then l !! Z.to_nat (x - a)
                 else m !! x.

Lemma text_at_snoc m m1 m2 a l b :
  text_at m m1 a l → m2 = <[a + Z.of_nat (length l) := b]> m1 → text_at m m2 a (l ++ [b]).
Proof.
  intros Ht -> x. rewrite length_app. simpl.
  destruct (decide (x = a + Z.of_nat (length l))) as [->|Hne].
  - rewrite lookup_insert_eq, decide_True by lia.
    replace (Z.to_nat _) with (length l) by lia. by rewrite list_lookup_middle.
  - rewrite lookup_insert_ne, (Ht x) by done. repeat case_decide; try lia; [|done].
    by rewrite lookup_app_l by lia.
Qed.

Lemma u8_s8 b : 0 ≤ b < 2 ^ 8 → u8 (s8 b) = b.
Proof. intros Hb. unfold u8, s8, sw. dlia. Qed.

(** One character into a buffer. *)
Lemma put_buffer c st :
  write_func (io_file st) = None →
  is_Some (io_mem st !! u64 (buffer (io_file st) + position (io_file st))) →
  put c st = Ok (set_io_mem
    (<[u64 (buffer (io_file st) + position (io_file st)) := u8 c]> (io_mem st))
    (set_position (u64 (position (io_file st) + 1)) st)).
Proof.
  intros Hw Hm. unfold put, putc. simpl. rewrite Hw. simpl. by rewrite st8_Some.
Qed.

Lemma format_step_text fuel st p args c :
  ldc (io_mem st) p = Ok c → c ≠ 37 →
  format_step fuel (st, p, args) =
  if c =? 0 then Ok (inr (st, SYSTEM_OK)) else st ← put c st; Ok (inl (st, u64 (p + 1), args)).
Proof.
  intros Hc Hne. unfold format_step. rewrite Hc, bind_ok, (proj2 (Z.eqb_neq c 37)) by done. done.
Qed.

Lemma format_step_spec fuel st p args sp :
  ldc (io_mem st) p = Ok 37 → parse_spec fuel (io_mem st) p args = Ok (Some sp) →
  format_step fuel (st, p, args) =
  ('(st, format, args) ← print_spec fuel sp st; Ok (inl (st, format, args))).
Proof. intros Hc Hp. unfold format_step. by rewrite Hc, bind_ok, Hp. Qed.

(** The format loop on text without a per cent sign, into a buffer. *)
Lemma format_text_returns n fuel m fmt args st (Q : io * Z → Prop) l pre :
  cstring m fmt (pre ++ l) → Forall (λ b, b ≠ 37) l →
  write_func (io_file st) = None → 0 ≤ buffer (io_file st) →
  buffer (io_file st) + Z.of_nat (length (pre ++ l)) < 2 ^ 64 →
  position (io_file st) = Z.of_nat (length pre) →
  mapped m (buffer (io_file st)) (Z.of_nat (length (pre ++ l))) →
  buffer (io_file st) + Z.of_nat (length (pre ++ l)) ≤ fmt ∨
    fmt + Z.of_nat (length (pre ++ l)) + 1 ≤ buffer (io_file st) →
  text_at m (io_mem st) (buffer (io_file st)) pre → (length l < n)%nat →
  (∀ m', text_at m m' (buffer (io_file st)) (pre ++ l) →
     Q (set_position (Z.of_nat (length (pre ++ l))) (set_io_mem m' st), SYSTEM_OK)) →
  returns (loop n (format_step fuel) (st, fmt + Z.of_nat (length pre), args)) Q.
Proof.
  revert n st pre. induction l as [|b l IH]; intros n st pre Hs Hl Hw Hb Htop Hpos Hmap
    Hap Ht Hf HQ; (destruct n as [|n]; [simpl in Hf; lia|]);
    pose proof (cs_at _ _ _ Hs) as [? ?]; rewrite length_app in *; simpl length in *; cbn [loop].
  - rewrite (format_step_text _ _ _ _ 0); [| |done].
    2:
    { unfold ldc. rewrite (ld8_Some _ _ 0); [done|]. rewrite Ht, decide_False by lia.
      rewrite app_nil_r in Hs. by apply cstring_end. }
    cbn [Z.eqb]. rewrite bind_ok. cbn [returns]. rewrite app_nil_r in HQ.
    replace st with (set_position (Z.of_nat (length pre + 0)) (set_io_mem (io_mem st) st)).
    { by apply HQ. }
    destruct st as [? [] ?]. simpl in *. unfold set_position, set_io_mem. simpl. do 2 f_equal. lia.
  - inversion Hl as [|? ? Hb37 Hl']; subst.
    destruct (cstring_byte _ _ _ (length pre) b Hs) as [Hm Hbr];
      [by rewrite list_lookup_middle|].
    assert (ldc (io_mem st) (fmt + Z.of_nat (length pre)) = Ok (s8 b)) as Hc.
    { unfold ldc. rewrite (ld8_Some _ _ b); [done|]. by rewrite Ht, decide_False by lia. }
    rewrite (format_step_text _ _ _ _ _ Hc).
    2: { apply Z.eqb_neq. rewrite s8_char by lia. by apply Z.eqb_neq. }
    rewrite s8_char, (proj2 (Z.eqb_neq b 0)) by lia. rewrite put_buffer; [|done|].
    2: { rewrite Hpos, u64_small, Ht, decide_False by lia. apply Hmap. lia. }
    rewrite bind_ok, bind_ok, Hpos, !u64_small, u8_s8 by lia.
    set (st1 := set_io_mem _ _). replace (fmt + Z.of_nat (length pre) + 1) with
      (fmt + Z.of_nat (length (pre ++ [b]))) by (rewrite length_app; simpl; lia).
    apply (IH n st1 (pre ++ [b])); rewrite <-?app_assoc; rewrite ?length_app; simpl length; try done.
    + unfold st1. simpl. lia.
    + by eapply text_at_snoc.
    + lia.
Qed.

(** * Properties *)

(** Numbers can be read back.  For a base from 2 to 16 and no flag, width or
    precision, [print_integer] writes a text of which [strtol]'s parse reads the
    sign, all characters and the value.  The buffer's 32 characters bound the
    digits: the value is the number modulo [base ^ 32], so every 64-bit number in
    octal and above, but in binary only the low 32 bits. *)
Theorem print_integer_reads_back value negative base flags st :
  device st → 2 ≤ base ≤ 16 → plain flags → has flags FLAGS_LEFT = false → 0 ≤ value →
  (negative = true → value < base ^ 31) →
  ∃ text, print_integer value negative base 0 0 flags st = Ok (wrote text st, SYSTEM_OK) ∧
    parse base text = {| ps_neg := negative; ps_value := value mod base ^ 32; ps_any := true;
                         ps_read := Z.of_nat (length text) |}.
Proof.
  intros Hd Hb Hpl HL Hv Hneg. exists (number_text value negative base flags).
  rewrite print_integer_wrote, integer_text_plain by (done || lia). split.
  - do 3 f_equal. unfold justify. rewrite HL. split_mask Hpl. destruct Hpl as [-> _].
    by replace (Z.to_nat (0 - _)) with O by lia.
  - unfold number_text. rewrite parse_number; [|done| |].
    + f_equal. apply (number_digits_value 32); lia.
    + intros Hn%(f_equal (@rev Z)). rewrite rev_involutive in Hn. by apply number_digits_nonempty in Hn.
    + apply Forall_rev, number_digits_range. lia.
Qed.

(** Field widths.  Without zero padding, precision and alternative form the
    text of a number is its sign and digits, with spaces up to the width before
    it, or after it under the flag [-]; so its length is the larger of the width
    and what the number needs. *)
Theorem print_integer_width value negative base width flags st :
  device st → 2 ≤ base → plain flags → 0 ≤ value → (negative = true → value < base ^ 31) →
  0 ≤ width < 2 ^ 64 →
  ∃ text, print_integer value negative base 0 width flags st = Ok (wrote text st, SYSTEM_OK) ∧
    text = justify width flags (number_text value negative base flags) ∧
    Z.of_nat (length text) =
      Z.max width (Z.of_nat (length (number_text value negative base flags))).
Proof.
  intros Hd Hb Hpl Hv Hneg Hw. eexists. rewrite print_integer_wrote by done.
  split; [done|]. rewrite integer_text_plain by done. split; [done|].
  unfold justify. split_mask Hpl. destruct Hpl as [-> _].
  destruct (has flags FLAGS_LEFT); rewrite length_app, length_replicate; lia.
Qed.

(** Zero padding loses the sign.  With the flag [0] and a width of 33 or more
    the zeros fill the 32 characters of the buffer before the sign is added, so a
    negative number is printed as the positive one. *)
Theorem zero_padding_loses_sign value base width flags st :
  device st → zero_padded flags → 33 ≤ width < 2 ^ 64 →
  print_integer value true base 0 width flags st = print_integer value false base 0 width flags st.
Proof.
  intros Hd Hz Hw. rewrite !print_integer_wrote by (done || lia). do 3 f_equal.
  unfold integer_text. pose proof (integer_buffer_length value base flags) as Hlen.
  assert (zero_padded (snd (integer_buffer value base flags))) as Hz'.
  { destruct Hz as [HZ HL Ho]. unfold integer_buffer. rewrite !has_lor, !orb_false_iff in Ho.
    destruct Ho as (HH & HPr & HPt).
    destruct (value =? 0); cbn [snd].
    2: { split; [done|done|]. by rewrite !has_lor, HH, HPr, HPt. }
    rewrite HPr. cbn [negb snd]. split.
    - by rewrite has_clear_zeropad.
    - by apply has_land_l.
    - apply has_land_l. by rewrite !has_lor, HH, HPr, HPt. }
  destruct (integer_buffer value base flags) as [b f]. simpl in Hlen, Hz'.
  pose proof (finalize_buffer_zeros b true base width f Hz' Hw Hlen) as Ht.
  pose proof (finalize_buffer_zeros b false base width f Hz' Hw Hlen) as Hf.
  destruct (finalize_buffer b true base 0 width f) as [[bt wt] ft].
  destruct (finalize_buffer b false base 0 width f) as [[bf wf] ff].
  destruct Ht as (-> & HLt & HZt), Hf as (-> & HLf & HZf). unfold justify.
  by rewrite HLt, HZt, HLf, HZf.
Qed.

(** A format that ends inside a specification, after its flags, is not
    noticed: [format_string] writes the terminator as a character and goes on
    behind it; when nothing is mapped there, it faults. *)
Theorem format_overruns_terminator fuel fmt args st :
  device st → cstring (io_mem st) fmt [37; 45] → io_mem st !! (fmt + 3) = None → (3 ≤ fuel)%nat →
  format_string fuel fmt args st = Fault.
Proof.
  intros Hd Hs Hno Hf. pose proof (cs_at _ _ _ Hs) as [? Htop]. simpl length in Htop.
  pose proof (ldc_format _ _ _ 0 37 Hs eq_refl ltac:(lia)) as H0.
  pose proof (ldc_format _ _ _ 1 45 Hs eq_refl ltac:(lia)) as H1.
  pose proof (ldc_format _ _ _ 2 0 Hs eq_refl ltac:(lia)) as H2.
  change (Z.of_nat 0) with 0 in H0. change (Z.of_nat 1) with 1 in H1.
  change (Z.of_nat 2) with 2 in H2. rewrite Z.add_0_r in H0.
  assert (u64 (fmt + 1) = fmt + 1) as Hu1 by (apply u64_small; lia).
  assert (u64 (fmt + 1 + 1) = fmt + 2) as Hu2 by (rewrite u64_small; lia).
  assert (u64 (fmt + 2 + 1) = fmt + 3) as Hu3 by (rewrite u64_small; lia).
  assert (parse_spec fuel (io_mem st) fmt args =
    Ok (Some (Spec (fmt + 2) FLAGS_LEFT 0 0 args))) as Hparse.
  { unfold parse_spec, ADVANCE_IN_FORMAT_STRING. rewrite Hu1, H1. simpl.
    destruct fuel as [|[|fuel]]; [lia|lia|]. unfold parse_flags. simpl loop.
    rewrite H1. simpl. rewrite Hu2, H2. simpl. unfold parse_width. rewrite H2. simpl.
    unfold parse_precision. rewrite H2. simpl. unfold parse_length. by rewrite H2. }
  destruct fuel as [|[|fuel]]; [lia|lia|]. unfold format_string, format_step. simpl loop.
  rewrite H0. simpl. rewrite Hparse. simpl.
  unfold print_spec. simpl. rewrite H2. simpl. rewrite put_wrote by done. simpl.
  rewrite Hu3. unfold ldc, ld8. by rewrite Hno.
Qed.


(** C32. What [vsnprintf] does with a format that is only text: it writes all of it,
    however small [maxlen] is, and puts the terminator at [maxlen - 1] at the
    latest, on top of the text; it answers [SYSTEM_OK], not a length. *)
Theorem vsnprintf_ignores_maxlen fuel buf maxlen fmt args m l :
  cstring m fmt l → Forall (λ b, b ≠ 37) l → (length l < fuel)%nat →
  0 < buf → buf + Z.of_nat (length l) + 1 < 2 ^ 64 → 0 < maxlen < 2 ^ 64 →
  mapped m buf (Z.of_nat (length l) + 1) →
  buf + Z.of_nat (length l) + 1 ≤ fmt ∨ fmt + Z.of_nat (length l) + 1 ≤ buf →
  returns (vsnprintf fuel buf maxlen fmt args m) (λ '(m', r), r = SYSTEM_OK ∧
    ∀ x, m' !! x =
      if decide (x = buf + Z.min (Z.of_nat (length l)) (maxlen - 1)) then Some 0
      else if decide (buf ≤ x < buf + Z.of_nat (length l)) then l !! Z.to_nat (x - buf)
      else m !! x).
Proof.
  intros Hs Hl Hf Hb Htop Hmax Hmap Hap. unfold vsnprintf, vsnprintf_internal, format_string.
  bind_step. bind_step. rewrite <-(Z.add_0_r fmt). change 0 with (Z.of_nat (length (@nil Z))).
  apply (format_text_returns fuel fuel m fmt args _ _ l []); simpl; try done; try lia.
  { intros x Hx. apply Hmap. lia. }
  { intros x. rewrite decide_False; [done|]. simpl. lia. }
  intros m' Hm'. unfold append_termination. simpl.
  rewrite (proj2 (Z.eqb_neq maxlen 0)), (proj2 (Z.eqb_neq buf 0)) by lia.
  set (p := if _ : bool then _ else _).
  assert (p = Z.min (Z.of_nat (length l)) (maxlen - 1)) as ->.
  { unfold p. destruct (Z.ltb_spec (Z.of_nat (length l)) maxlen); [lia|rewrite u64_small; lia]. }
  rewrite u64_small by lia. rewrite st8_Some.
  2: { rewrite Hm'. case_decide; [apply lookup_lt_is_Some; lia|apply Hmap; lia]. }
  simpl. split; [done|]. intros x.
  destruct (decide (x = _)) as [->|]; [by rewrite lookup_insert_eq|].
  rewrite lookup_insert_ne by done. apply Hm'.
Qed.

(** ** Witnesses *)

(** A serial line that answers [SYSTEM_OK]. *)
Definition sample_device (m : mem) : io := Io m (File (2 ^ 31 - 1) 0 0 (Some (λ _, 0))) [].

Lemma sample_device_ok m : device (sample_device m).
Proof. split; [by eexists|simpl; lia]. Qed.

Lemma print_integer_reads_back_witness :
  ∃ text, print_integer 0xbeef true 16 0 0 FLAGS_UPPERCASE (sample_device ∅) =
      Ok (wrote text (sample_device ∅), SYSTEM_OK) ∧
    ps_value (parse 16 text) = 0xbeef ∧ ps_neg (parse 16 text) = true.
Proof.
  destruct (print_integer_reads_back 0xbeef true 16 FLAGS_UPPERCASE (sample_device ∅))
    as (text & Ht & Hp).
  - apply sample_device_ok.
  - lia.
  - reflexivity.
  - reflexivity.
  - lia.
  - intros _. reflexivity.
  - exists text. rewrite Hp. split; [exact Ht|split; reflexivity].
Defined.

Lemma print_integer_width_witness :
  ∃ text, print_integer 42 true 10 0 6 FLAGS_LEFT (sample_device ∅) =
      Ok (wrote text (sample_device ∅), SYSTEM_OK) ∧
    text = [45; 52; 50; 32; 32; 32] ∧ length text = 6%nat.
Proof.
  destruct (print_integer_width 42 true 10 6 FLAGS_LEFT (sample_device ∅))
    as (text & Ht & Hp & _).
  - apply sample_device_ok.
  - lia.
  - reflexivity.
  - lia.
  - intros _. reflexivity.
  - lia.
  - exists text. rewrite Hp in *. split; [exact Ht|split; vm_compute; reflexivity].
Defined.

Lemma zero_padding_loses_sign_witness :
  print_integer 5 true 10 0 40 FLAGS_ZEROPAD (sample_device ∅) =
  print_integer 5 false 10 0 40 FLAGS_ZEROPAD (sample_device ∅).
Proof.
  apply zero_padding_loses_sign.
  - apply sample_device_ok.
  - split; reflexivity.
  - lia.
Defined.

(** A memory that ends with the format ["%-"]. *)
Lemma format_overruns_terminator_witness :
  format_string 9 4096 [] (sample_device (mem_of 4096 [37; 45; 0])) = Fault.
Proof.
  apply format_overruns_terminator.
  - apply sample_device_ok.
  - split.
    + repeat constructor; lia.
    + simpl; lia.
    + intros i b Hb. apply mem_of_holds. exact Hb.
  - vm_compute. reflexivity.
  - lia.
Defined.


(** ["hello"] into a buffer of two characters: five are written, and the second
    is then the terminator. *)
Definition sample_hello : list Z := [104; 101; 108; 108; 111].
Lemma vsnprintf_ignores_maxlen_witness :
  returns (vsnprintf 9 4103 2 4096 [] (text_mem sample_hello)) (λ '(m', r),
    r = SYSTEM_OK ∧ m' !! 4103 = Some 104 ∧ m' !! 4104 = Some 0 ∧ m' !! 4107 = Some 111).
Proof.
  eapply returns_mono.
  - apply (vsnprintf_ignores_maxlen 9 4103 2 4096 [] (text_mem sample_hello) sample_hello).
    + apply text_string; reflexivity.
    + repeat constructor; lia.
    + simpl; lia.
    + lia.
    + simpl; lia.
    + lia.
    + intros x Hx. apply mem_of_is_Some. simpl in *. lia.
    + right. simpl. lia.
  - intros [m' r] [Hr Hm]. split; [exact Hr|].
    split; [|split]; rewrite Hm; vm_compute; reflexivity.
Defined.
