(* ===== verification/PrintSpec.v ===== *)
(** * [printf] as the C standard has it

    Formats as lists of pieces, and the text each piece stands for, written down
    without the flag words, reversed buffers and pointers of [print.c]. *)
From S2P Require Import Prelude Mem MemCopy MemSet MemCmp CString Ctype Strto Stdio Print PrintText.

(** ** Formats *)

Inductive flag := FZero | FLeft | FPlus | FSpace | FHash.
#[global] Instance flag_eq_dec : EqDecision flag.
Proof. solve_decision. Defined.

Inductive field_width := WNone | WDigits (ds : list Z) | WStar.
Inductive field_precision := PNone | PDigits (ds : list Z) | PStar.
Inductive length_mod := Lnone | Lhh | Lh | Ll | Lll | Lz.

(** The conversions; [%b] is binary. *)
Inductive conversion := Cd | Ci | Cu | Cx | CX | Co | Cb | Cc | Cs | Cp.

Record field := Field {
  fd_flags : list flag;
  fd_width : field_width;
  fd_precision : field_precision;
  fd_length : length_mod;
  fd_conv : conversion;
}.

Inductive piece :=
  | Char (c : Z)
  | Percent
  | Conv (f : field).

(** *** Their characters *)

Definition flag_char (f : flag) : Z :=
  match f with FZero => 48 | FLeft => 45 | FPlus => 43 | FSpace => 32 | FHash => 35 end.

Definition width_chars (w : field_width) : list Z :=
  match w with WNone => [] | WDigits ds => map (λ d, 48 + d) ds | WStar => [42] end.

Definition precision_chars (p : field_precision) : list Z :=
  match p with PNone => [] | PDigits ds => 46 :: map (λ d, 48 + d) ds | PStar => [46; 42] end.

Definition length_chars (l : length_mod) : list Z :=
  match l with
  | Lnone => [] | Lhh => [104; 104] | Lh => [104] | Ll => [108] | Lll => [108; 108] | Lz => [122]
  end.

Definition conv_char (c : conversion) : Z :=
  match c with
  | Cd => 100 | Ci => 105 | Cu => 117 | Cx => 120 | CX => 88 | Co => 111 | Cb => 98
  | Cc => 99 | Cs => 115 | Cp => 112
  end.

(** What follows the [%] of a field. *)
Definition field_chars (f : field) : list Z :=
  map flag_char (fd_flags f) ++ width_chars (fd_width f) ++ precision_chars (fd_precision f) ++
  length_chars (fd_length f) ++ [conv_char (fd_conv f)].

Definition piece_chars (p : piece) : list Z :=
  match p with Char c => [c] | Percent => [37; 37] | Conv f => 37 :: field_chars f end.

Definition format_chars (ps : list piece) : list Z := concat (map piece_chars ps).

(** Decimal digits, a width without leading zero (that would be a flag), and
    characters that are neither a per cent sign nor the terminator. *)
Definition decimal (ds : list Z) : Prop := Forall (λ d, 0 ≤ d < 10) ds.
Definition width_ok (w : field_width) : Prop :=
  match w with WDigits ds => decimal ds ∧ ∃ d ds', ds = d :: ds' ∧ d ≠ 0 | _ => True end.
Definition precision_ok (p : field_precision) : Prop :=
  match p with PDigits ds => decimal ds | _ => True end.
Definition piece_ok (p : piece) : Prop :=
  match p with
  | Char c => 0 < c < 128 ∧ c ≠ 37
  | Percent => True
  | Conv f => width_ok (fd_width f) ∧ precision_ok (fd_precision f)
  end.

(** ** Options *)

(** The flags, width and precision of a field once its stars have their values. *)
Record opts := Opts {
  o_zero : bool;
  o_left : bool;
  o_plus : bool;
  o_space : bool;
  o_hash : bool;
  o_width : Z;
  o_precision : option Z;
}.

(** There is a precision. *)
Definition precise (o : opts) : bool :=
  match o_precision o with Some _ => true | None => false end.

(** An [int] in a slot; the least one has no opposite, so no star may have it. *)
Definition star (args : list Z) : option (Z * list Z) :=
  match args with
  | a :: args => if s32 (u64 a) =? - 2 ^ 31 then None else Some (s32 (u64 a), args)
  | [] => None
  end.

(** Width and whether a negative one asks for the left; the other arguments. *)
Definition resolve_width (w : field_width) (args : list Z) : option (Z * bool * list Z) :=
  match w with
  | WNone => Some (0, false, args)
  | WDigits ds => Some (u64 (value 10 0 ds), false, args)
  | WStar => '(n, args) ← star args; Some (Z.abs n, n <? 0, args)
  end.

Definition resolve_precision (p : field_precision) (args : list Z) : option (option Z * list Z) :=
  match p with
  | PNone => Some (None, args)
  | PDigits ds => Some (Some (u64 (value 10 0 ds)), args)
  | PStar => '(n, args) ← star args; Some (if n <? 0 then None else Some n, args)
  end.

Definition in_flags (x : flag) (fs : list flag) : bool := bool_decide (x ∈ fs).

Definition resolve (f : field) (args : list Z) : option (opts * list Z) :=
  '(w, to_left, args) ← resolve_width (fd_width f) args;
  '(p, args) ← resolve_precision (fd_precision f) args;
  let has_flag x := in_flags x (fd_flags f) in
  Some (Opts (has_flag FZero) (has_flag FLeft || to_left) (has_flag FPlus) (has_flag FSpace)
             (has_flag FHash) w p, args).

(** ** The text of a field *)

Definition spaces (to_left : bool) (width : Z) (text : list Z) : list Z :=
  let pad := replicate (Z.to_nat (width - Z.of_nat (length text))) 32 in
  if to_left then text ++ pad else pad ++ text.

Definition digit_text (upper : bool) (d : Z) : Z :=
  if d <? 10 then 48 + d else (if upper then 65 else 97) + d - 10.

(** The digits, with zeros up to the precision; zero has none at precision 0. *)
Definition zeros (n : Z) : list Z := replicate (Z.to_nat n) 48.
Definition natural_digits (base : Z) (upper : bool) (v : Z) : list Z :=
  map (digit_text upper) (rev (number_digits 64 v base)).
Definition precise_digits (o : opts) (base : Z) (upper : bool) (v : Z) : list Z :=
  match o_precision o with
  | None => natural_digits base upper v
  | Some p =>
      let ds := if v =? 0 then [] else natural_digits base upper v in
      zeros (p - Z.of_nat (length ds)) ++ ds
  end.

(** The prefix of the alternative form, of digits [ds]. *)
Definition prefix (base : Z) (upper : bool) (v : Z) (ds : list Z) : list Z :=
  if base =? 16 then (if v =? 0 then [] else [48; if upper then 88 else 120])
  else if base =? 8 then (if bool_decide (head ds = Some 48) then [] else [48])
  else [].

Definition sign (o : opts) (negative : bool) : list Z :=
  if negative then [45] else if o_plus o then [43] else if o_space o then [32] else [].

(** [pre], zeros up to the width if they are asked for, and the digits. *)
Definition number_body (o : opts) (pre ds : list Z) : list Z :=
  let zero := o_zero o && negb (o_left o) && negb (precise o) in
  pre ++ (if zero then zeros (o_width o - Z.of_nat (length (pre ++ ds))) else []) ++ ds.

Definition signed_body (o : opts) (v : Z) : list Z :=
  number_body o (sign o (v <? 0)) (precise_digits o 10 false (Z.abs v)).
Definition unsigned_body (o : opts) (base : Z) (upper : bool) (v : Z) : list Z :=
  let ds := precise_digits o base upper v in
  number_body o (if o_hash o then prefix base upper v ds else []) ds.

(** An argument as the length modifier has it. *)
Definition signed_value (l : length_mod) (a : Z) : Z :=
  match l with Lnone => s32 a | Lhh => s8 a | Lh => s16 a | _ => s64 a end.
Definition unsigned_value (l : length_mod) (a : Z) : Z :=
  match l with Lnone => u32 a | Lhh => u8 a | Lh => u16 a | _ => u64 a end.

(** A field's text for the argument [a]; [strings] are the strings in memory.
    The code's buffer bounds a number without spaces to 32 characters; only [-]
    is a flag of [%p]; and the prefix of binary numbers is left to C23. *)
Definition field_text (strings : Z → option (list Z)) (o : opts) (l : length_mod) (c : conversion)
    (a : Z) : option (list Z) :=
  let number body := if Z.of_nat (length body) <=? 32 then Some (spaces (o_left o) (o_width o) body)
                     else None in
  let unsigned base upper := number (unsigned_body o base upper (unsigned_value l a)) in
  match c with
  | Cd | Ci => number (signed_body o (signed_value l a))
  | Cu => unsigned 10 false
  | Cx => unsigned 16 false
  | CX => unsigned 16 true
  | Co => unsigned 8 false
  | Cb => if o_hash o then None else unsigned 2 false
  | Cc => Some (spaces (o_left o) (o_width o) [s8 (s32 a)])
  | Cs =>
      s ← strings (u64 a);
      let text := map s8 (match o_precision o with
                          | Some p => take (Z.to_nat p) s
                          | None => s
                          end) in
      Some (spaces (o_left o) (o_width o) text)
  | Cp =>
      if o_plus o || o_space o || precise o then None
      else if u64 a =? 0 then
        Some (if o_left o then spaces true 18 [40; 110; 105; 108; 41] else [40; 110; 105; 108; 41])
      else
        let o := Opts true (o_left o) false false true 18 None in
        Some (spaces (o_left o) 18 (unsigned_body o 16 false (u64 a)))
  end.

(** The text of a piece and the arguments it leaves, if there are arguments for it;
    of a format, the texts of its pieces. *)
Definition piece_text (strings : Z → option (list Z)) (p : piece) (args : list Z) :
    option (list Z * list Z) :=
  match p with
  | Char c => Some ([c], args)
  | Percent => Some ([37], args)
  | Conv f =>
      '(o, args) ← resolve f args;
      match args with
      | [] => None
      | a :: args =>
          t ← field_text strings o (fd_length f) (fd_conv f) a;
          Some (t, args)
      end
  end.

Fixpoint format_text (strings : Z → option (list Z)) (ps : list piece) (args : list Z) :
    option (list Z) :=
  match ps with
  | [] => Some []
  | p :: ps =>
      '(t, args) ← piece_text strings p args;
      text ← format_text strings ps args;
      Some (t ++ text)
  end.
