(* ===== verification/PrintNumber.v ===== *)
(** * The numbers of [print.c] are those of the C standard

    [finalize_integer] builds a number backwards in a buffer of 32 characters;
    what it makes of digits, flags, width and precision is the body that PrintSpec
    writes down, as long as the buffer has room for it. *)
From S2P Require Import Prelude Mem MemCopy MemSet MemCmp CString Ctype Strto Stdio Print PrintText.
From S2P Require Import PrintSpec.

(** ** Flag words *)

(** [clear] of one bit, seen by another test. *)
Lemma has_clear flags c k :
  0 ≤ k < 32 → has (clear flags c) (2 ^ k) = has flags (2 ^ k) && negb (Z.testbit c k).
Proof.
  intros Hk. rewrite !has_pow2 by lia. unfold clear. rewrite Z.land_spec. f_equal. unfold u32.
  by rewrite Z.mod_pow2_bits_low, Z.lnot_spec by lia.
Qed.

(** The flags of a word as [opts] has them; a precision takes the zero flag. *)
Record flag_word (flags : Z) (o : opts) (alt upper : bool) : Prop := FlagWord {
  fw_zero : has flags FLAGS_ZEROPAD = o_zero o && negb (precise o);
  fw_left : has flags FLAGS_LEFT = o_left o;
  fw_plus : has flags FLAGS_PLUS = o_plus o;
  fw_space : has flags FLAGS_SPACE = o_space o;
  fw_alt : has flags (Z.lor FLAGS_HASH FLAGS_POINTER) = alt;
  fw_upper : has flags FLAGS_UPPERCASE = upper;
  fw_precision : has flags FLAGS_PRECISION = precise o;
}.

Lemma has_clear_hash_other flags k :
  0 ≤ k < 32 → k ≠ 4 → has (clear flags FLAGS_HASH) (2 ^ k) = has flags (2 ^ k).
Proof.
  intros Hk Hne. rewrite has_clear by done. unfold FLAGS_HASH.
  rewrite Z.shiftl_1_l, Z.pow2_bits_false by lia. apply andb_true_r.
Qed.

Lemma hash_cleared_other (c : bool) flags k :
  0 ≤ k < 32 → k ≠ 4 → has (if c then clear flags FLAGS_HASH else flags) (2 ^ k) = has flags (2 ^ k).
Proof. destruct c; [apply has_clear_hash_other|done]. Qed.

Lemma hash_cleared_none (c : bool) flags x :
  has flags x = false → has (if c then clear flags FLAGS_HASH else flags) x = false.
Proof. destruct c; [apply has_land_l|done]. Qed.

Lemma no_alt_cleared flags :
  has flags FLAGS_POINTER = false →
  has (clear flags FLAGS_HASH) (Z.lor FLAGS_HASH FLAGS_POINTER) = false.
Proof.
  intros Hp. rewrite has_lor. apply orb_false_intro; [|by apply has_land_l].
  change FLAGS_HASH with (2 ^ 4) at 2. rewrite has_clear by lia. apply andb_false_r.
Qed.

(** ** The buffer *)

Lemma push_room c b : (length b < 32)%nat → push c b = b ++ [c].
Proof. intros. unfold push, INTEGER_BUFFER_SIZE. by rewrite (proj2 (Z.ltb_lt _ _)) by lia. Qed.

Lemma zeros_to_room c n b :
  (c = true → n ≤ 32) → zeros_to c n b = b ++ (if c then zeros (n - Z.of_nat (length b)) else []).
Proof.
  intros Hn. unfold zeros_to, zeros, INTEGER_BUFFER_SIZE. destruct c; [|by rewrite app_nil_r].
  by rewrite Z.min_l by auto.
Qed.

Lemma rev_zeros n : rev (zeros n) = zeros n.
Proof.
  unfold zeros. induction (Z.to_nat n) as [|k IH]; [done|]. simpl. rewrite IH.
  by rewrite <-replicate_cons_app.
Qed.

Lemma rev_flip (l k : list Z) : rev l = k → l = rev k.
Proof. intros <-. by rewrite rev_involutive. Qed.

Lemma length_zeros n : length (zeros n) = Z.to_nat n.
Proof. apply length_replicate. Qed.

Lemma pop_snoc b c : pop (b ++ [c]) = b.
Proof. unfold pop. rewrite length_app. simpl. rewrite Nat.add_sub. by rewrite take_app_length. Qed.

Lemma zeros_succ n : 0 < n → zeros n = zeros (n - 1) ++ [48].
Proof.
  intros Hn. unfold zeros. replace (Z.to_nat n) with (S (Z.to_nat (n - 1))) by lia.
  apply replicate_S_end.
Qed.

Lemma zeros_cons n : 0 < n → zeros n = 48 :: zeros (n - 1).
Proof. intros Hn. unfold zeros. by replace (Z.to_nat n) with (S (Z.to_nat (n - 1))) by lia. Qed.

Lemma zeros_none n : n ≤ 0 → zeros n = [].
Proof. intros. unfold zeros. by replace (Z.to_nat n) with O by lia. Qed.

(** ** The parts of [finalize_buffer] *)

Definition alt_prefix (base : Z) (upper : bool) : list Z :=
  if base =? 16 then [48; if upper then 88 else 120] else [48].

Lemma rev_add_prefix base flags b :
  base ≠ 2 → (length b + length (alt_prefix base (has flags FLAGS_UPPERCASE)) ≤ 32)%nat →
  rev (add_prefix base flags b) = alt_prefix base (has flags FLAGS_UPPERCASE) ++ rev b.
Proof.
  intros H2 Hr. unfold add_prefix, alt_prefix, INTEGER_BUFFER_SIZE in *.
  rewrite (proj2 (Z.eqb_neq base 2)) by done. destruct (base =? 16); simpl in Hr.
  - rewrite (proj2 (Z.ltb_lt _ _)) by lia.
    destruct (has flags FLAGS_UPPERCASE); cbn [andb negb];
      rewrite push_room by (rewrite length_app; simpl; lia); by rewrite !rev_app_distr.
  - cbn [andb]. rewrite push_room by lia. by rewrite rev_app_distr.
Qed.

Lemma rev_add_sign negative flags o b :
  has flags FLAGS_PLUS = o_plus o → has flags FLAGS_SPACE = o_space o →
  (length b + length (sign o negative) ≤ 32)%nat →
  rev (add_sign negative flags b) = sign o negative ++ rev b.
Proof.
  intros HP HS Hr. unfold add_sign, sign in *. rewrite HP, HS.
  destruct negative; [|destruct (o_plus o); [|destruct (o_space o); [|done]]];
    simpl in Hr; rewrite push_room by lia; by rewrite rev_app_distr.
Qed.

(** Nothing is taken back from digits without zeros, or under a precision. *)
Lemma take_back_none base p w flags b :
  take_back (Z.of_nat (length b)) base p w flags b = b.
Proof. unfold take_back. cbv zeta. rewrite Z.ltb_irrefl. cbv iota. rewrite Z.ltb_irrefl, andb_false_r. by case_match. Qed.

Lemma take_back_precision n base p w flags b :
  has flags FLAGS_PRECISION = true → take_back n base p w flags b = b.
Proof. intros Hp. unfold take_back. by rewrite Hp. Qed.

(** Of the zeros up to the width, two make room for the prefix of base 16. *)
Lemma take_back_zeros w flags b :
  has flags FLAGS_PRECISION = false → 0 ≤ w →
  let n := Z.of_nat (length b) in
  take_back n 16 0 w flags (b ++ zeros (w - n)) = b ++ zeros (w - n - 2).
Proof.
  intros Hp Hw n. destruct (Z.le_gt_cases w n).
  { rewrite !zeros_none, app_nil_r by lia. apply take_back_none. }
  assert (∀ k, Z.of_nat (length (b ++ zeros k)) = n + Z.max 0 k) as Hlen.
  { intros k. rewrite length_app, length_zeros. lia. }
  unfold take_back. cbv zeta. rewrite Hp, !Hlen. cbn [negb andb].
  rewrite (proj2 (Z.eqb_neq _ 0)), (proj2 (Z.eqb_eq _ w)), orb_true_r by lia. cbn [negb andb].
  rewrite (proj2 (Z.ltb_lt n _)) by lia. rewrite (zeros_succ (w - n)), app_assoc, pop_snoc, Hlen by lia.
  change ((16 =? 16) || (16 =? 2)) with true.
  destruct (Z.ltb_spec n (n + Z.max 0 (w - n - 1))).
  - rewrite (proj2 (Z.eqb_neq _ 0)) by lia. cbn [negb andb].
    rewrite (zeros_succ (w - n - 1)), app_assoc, pop_snoc by lia. do 2 f_equal. lia.
  - rewrite andb_false_r. by rewrite !zeros_none by lia.
Qed.

(** ** The buffer, finished *)

(** What the parts before and after the zeros are, in the order of the text. *)
Record number_parts (flags : Z) (o : opts) (base : Z) (negative alt upper : bool) (pre ds : list Z) :
    Prop := NumberParts {
  np_flags : flag_word flags o alt upper;
  np_width : 0 ≤ o_width o < 2 ^ 64;
  np_precision : ∀ p, o_precision o = Some p → 0 ≤ p;
  np_pre : pre = if alt then
                   if (base =? 8) && bool_decide (head ds = Some 48) then [] else alt_prefix base upper
                 else sign o negative;
  np_alt : alt = true → sign o negative = [] ∧ (base = 16 ∨ base = 8);
  np_octal : base = 8 → has flags FLAGS_POINTER = false;
}.

Definition precision_of (o : opts) : Z := default 0 (o_precision o).

(** The digits with the prefix of the alternative form: the flag is dropped if a
    zero of the precision is the octal prefix already, and the zeros the prefix
    takes the place of are taken back only without a precision of more digits. *)
Lemma prefixed_digits flags o base negative alt upper pre ds ds0 :
  number_parts flags o base negative alt upper pre ds →
  ds = zeros (precision_of o - Z.of_nat (length ds0)) ++ ds0 →
  (alt = true → base = 8 → head ds0 ≠ Some 48) →
  (length pre + length ds ≤ 32)%nat →
  let f := if (base =? 8) && (Z.of_nat (length ds0) <? Z.of_nat (length ds))
           then clear flags FLAGS_HASH else flags in
  rev (if has f (Z.lor FLAGS_HASH FLAGS_POINTER)
       then add_prefix base f
              (take_back (Z.of_nat (length ds0)) base (precision_of o) (o_width o) f (rev ds))
       else rev ds) = (if alt then pre else []) ++ ds.
Proof.
  intros [[HZ HL HP HS HA HU HPr] Hw Hp Hpre Halt Hoct] Hds H8 Hlen.
  assert (length ds = Z.to_nat (Z.max (precision_of o) (Z.of_nat (length ds0)))) as Hl.
  { rewrite Hds, length_app, length_zeros. lia. }
  intros f'. destruct alt.
  2: { assert (has f' (Z.lor FLAGS_HASH FLAGS_POINTER) = false) as ->; [|by rewrite rev_involutive].
       by apply hash_cleared_none. }
  destruct (decide (length ds = length ds0)) as [Heq|Hmore].
  - assert (ds = ds0) as E0.
    { rewrite Hds. rewrite zeros_none; [done|]. lia. }
    assert (f' = flags) as -> by (unfold f'; by rewrite Heq, Z.ltb_irrefl, andb_false_r).
    rewrite HA, <-Heq, <-(length_rev ds), take_back_none.
    assert (pre = alt_prefix base upper) as Epre.
    { rewrite Hpre. destruct (Z.eqb_spec base 8); [|done].
      by rewrite bool_decide_eq_false_2 by (rewrite E0; auto). }
    rewrite rev_add_prefix, HU, <-Epre, rev_involutive; [done| |].
    + destruct (proj2 (Halt eq_refl)); lia.
    + rewrite HU, <-Epre, length_rev. lia.
  - assert (Z.of_nat (length ds0) < precision_of o) as Hlt by lia.
    assert (has flags FLAGS_PRECISION = true) as Hpt.
    { rewrite HPr. unfold precise. unfold precision_of in Hlt.
      destruct (o_precision o); [done|simpl in Hlt; lia]. }
    destruct (proj2 (Halt eq_refl)) as [-> | ->].
    + change f' with flags. rewrite HA, take_back_precision by done.
      rewrite rev_add_prefix, HU, rev_involutive; [by rewrite Hpre|done|].
      rewrite HU, length_rev. change (pre = alt_prefix 16 upper) in Hpre. rewrite <-Hpre. lia.
    + assert (has f' (Z.lor FLAGS_HASH FLAGS_POINTER) = false) as ->.
      { unfold f'. rewrite (proj2 (Z.ltb_lt _ _)) by lia. by apply no_alt_cleared, Hoct. }
      rewrite rev_involutive, Hpre. rewrite bool_decide_eq_true_2; [done|].
      by rewrite Hds, zeros_cons by lia.
Qed.

(** No zeros up to the width. *)
Lemma finalize_no_zeros flags o base negative alt upper pre ds ds0 :
  number_parts flags o base negative alt upper pre ds →
  ds = zeros (precision_of o - Z.of_nat (length ds0)) ++ ds0 →
  (alt = true → base = 8 → head ds0 ≠ Some 48) →
  has flags FLAGS_LEFT = true ∨ has flags FLAGS_ZEROPAD = false →
  (length (pre ++ ds) ≤ 32)%nat →
  ∃ flags', finalize_buffer (rev ds0) negative base (precision_of o) (o_width o) flags =
    (rev (pre ++ ds), o_width o, flags') ∧
    (has flags' FLAGS_LEFT = o_left o) ∧ (o_left o = false → has flags' FLAGS_ZEROPAD = false).
Proof.
  intros [[HZ HL HP HS HA HU HPr] Hw Hp Hpre Halt Hoct] Hds H8 Hz Hlen.
  assert (negb (has flags FLAGS_LEFT) && has flags FLAGS_ZEROPAD = false) as Hnz
    by (destruct Hz as [-> | ->]; [done|apply andb_false_r]).
  unfold finalize_buffer. cbv zeta. rewrite length_rev.
  replace (if _ : bool then u64 (o_width o - 1) else o_width o) with (o_width o).
  2: { destruct Hz as [-> | ->]; [done|]. by rewrite !andb_false_r. }
  rewrite Hnz. change (zeros_to false (o_width o) (rev ds0)) with (rev ds0).
  rewrite length_app in Hlen.
  assert (length ds = Z.to_nat (Z.max (precision_of o) (Z.of_nat (length ds0)))) as Hl.
  { rewrite Hds, length_app, length_zeros. lia. }
  rewrite zeros_to_room, length_rev by lia.
  replace (rev ds0 ++ zeros (precision_of o - Z.of_nat (length ds0))) with (rev ds)
    by (rewrite Hds, rev_app_distr, rev_zeros; done).
  rewrite length_rev.
  set (f' := if _ : bool then clear flags FLAGS_HASH else flags).
  assert (∀ k, 0 ≤ k < 32 → k ≠ 4 → has f' (2 ^ k) = has flags (2 ^ k)) as Hf'.
  { intros k ??. by apply hash_cleared_other. }
  exists f'. split_and!.
  2: { rewrite <-HL. by apply (Hf' 1). }
  2: { intros Hl0. etrans; [by apply (Hf' 0)|]. destruct Hz as [Hz|Hz]; [congruence|done]. }
  f_equal. f_equal. apply rev_flip.
  set (b := if has f' _ then _ else _). cut (rev b = (if alt then pre else []) ++ ds).
  { intros Hb. rewrite (rev_add_sign _ _ o).
    - rewrite Hb, Hpre. destruct alt; [by destruct Halt as [-> _]|done].
    - rewrite <-HP. by apply (Hf' 2).
    - rewrite <-HS. by apply (Hf' 3).
    - rewrite <-(length_rev b), Hb. destruct alt; [destruct Halt as [-> _]; [done|]|rewrite <-Hpre];
        rewrite ?length_app; simpl; lia. }
  by apply (prefixed_digits flags o base negative alt upper).
Qed.

(** Zeros up to the width, after a sign. *)
Lemma finalize_zeros_sign flags o base negative upper pre ds :
  number_parts flags o base negative false upper pre ds →
  has flags FLAGS_LEFT = false → has flags FLAGS_ZEROPAD = true →
  o_width o ≤ 32 → (length (pre ++ ds) ≤ 32)%nat →
  ∃ width' flags', finalize_buffer (rev ds) negative base 0 (o_width o) flags =
    (rev (pre ++ zeros (o_width o - Z.of_nat (length (pre ++ ds))) ++ ds), width', flags') ∧
    has flags' FLAGS_LEFT = false ∧ has flags' FLAGS_ZEROPAD = true.
Proof.
  intros [[HZ HL HP HS HA HU HPr] Hw Hp Hpre Halt Hoct] Hl0 Hz0 Hw32 Hlen.
  unfold finalize_buffer. cbv zeta. rewrite length_rev, Hl0, Hz0. cbn [negb andb].
  set (w' := if _ : bool then u64 (o_width o - 1) else o_width o). exists w'.
  assert (w' - Z.of_nat (length ds) = o_width o - Z.of_nat (length (pre ++ ds)) ∨
          w' ≤ Z.of_nat (length ds) ∧ o_width o ≤ Z.of_nat (length (pre ++ ds))) as Hw'.
  { assert (length pre = if negative || has flags (Z.lor FLAGS_PLUS FLAGS_SPACE) then 1%nat else O) as Hpl.
    { rewrite Hpre, has_lor, HP, HS. unfold sign. by destruct negative, (o_plus o), (o_space o). }
    rewrite length_app, Hpl. unfold w'. rewrite andb_true_r.
    destruct (Z.eqb_spec (o_width o) 0) as [->|]; cbn [negb andb].
    - right. case_match; lia.
    - left. case_match; [rewrite u64_small by lia|]; lia. }
  rewrite (zeros_to_room true w'), length_rev by (intros _; unfold w'; case_match; [rewrite u64_small|]; lia).
  rewrite zeros_to_0. set (f' := if _ : bool then clear flags FLAGS_HASH else flags). exists f'.
  assert (zeros (w' - Z.of_nat (length ds)) = zeros (o_width o - Z.of_nat (length (pre ++ ds)))) as ->.
  { destruct Hw' as [-> |[? ?]]; [done|]. by rewrite !zeros_none by lia. }
  set (z := zeros (o_width o - Z.of_nat (length (pre ++ ds)))).
  split_and!; [|by etrans; [apply (hash_cleared_other _ flags 1)|]
               |by etrans; [apply (hash_cleared_other _ flags 0)|]].
  f_equal. f_equal. apply rev_flip. assert (has f' (Z.lor FLAGS_HASH FLAGS_POINTER) = false) as ->
    by by apply hash_cleared_none.
  rewrite (rev_add_sign _ _ o).
  - unfold z. by rewrite rev_app_distr, rev_involutive, rev_zeros, Hpre.
  - rewrite <-HP. by apply (hash_cleared_other _ flags 2).
  - rewrite <-HS. by apply (hash_cleared_other _ flags 3).
  - rewrite <-Hpre, length_app, length_rev. unfold z. rewrite length_zeros, length_app in *. lia.
Qed.

(** Zeros up to the width, after the prefix of the alternative form. *)
Lemma finalize_zeros_alt flags o base upper pre ds :
  number_parts flags o base false true upper pre ds →
  has flags FLAGS_LEFT = false → has flags FLAGS_ZEROPAD = true →
  has flags FLAGS_PRECISION = false → (base = 8 → head ds ≠ Some 48) →
  o_width o ≤ 32 → (length (pre ++ ds) ≤ 32)%nat →
  ∃ flags', finalize_buffer (rev ds) false base 0 (o_width o) flags =
    (rev (pre ++ zeros (o_width o - Z.of_nat (length (pre ++ ds))) ++ ds), o_width o, flags') ∧
    has flags' FLAGS_LEFT = false ∧ has flags' FLAGS_ZEROPAD = true.
Proof.
  intros [[HZ HL HP HS HA HU HPr] Hw Hp Hpre Halt Hoct] Hl0 Hz0 Hpr H8 Hw32 Hlen.
  destruct (Halt eq_refl) as [Hsign Hbase]. unfold sign in Hsign.
  assert (o_plus o = false ∧ o_space o = false) as [HP0 HS0]
    by (destruct (o_plus o), (o_space o); split; congruence).
  unfold finalize_buffer. cbv zeta. rewrite length_rev, Hl0, Hz0, has_lor, HP, HS, HP0, HS0.
  cbn [negb andb orb]. rewrite andb_false_r.
  rewrite (zeros_to_room true (o_width o)), length_rev, zeros_to_0 by lia.
  rewrite length_app, length_rev, length_zeros.
  assert (∀ f b, has f FLAGS_PLUS = false → has f FLAGS_SPACE = false → add_sign false f b = b) as Hns
    by (intros f b E1 E2; unfold add_sign; by rewrite E1, E2).
  rewrite length_app in Hlen |- *.
  set (n := length ds) in *. destruct Hbase as [-> | ->].
  - change (16 =? 8) with false. cbn [andb]. rewrite HA. exists flags. split_and!; [|done|done].
    rewrite Hns by congruence.
    pose proof (take_back_zeros (o_width o) flags (rev ds) Hpr ltac:(lia)) as Ht.
    cbv zeta in Ht. rewrite length_rev in Ht. fold n in Ht.
    rewrite Ht.
    f_equal. f_equal. apply rev_flip. rewrite rev_add_prefix; [|done|].
    + rewrite HU, rev_app_distr, rev_involutive, rev_zeros, Hpre. do 3 f_equal. simpl. lia.
    + rewrite HU, length_app, length_rev, length_zeros. change (alt_prefix 16 upper) with
        (if (16 =? 8) && bool_decide (list.head ds = Some 48) then [] else alt_prefix 16 upper).
      rewrite <-Hpre. fold n. rewrite Hpre in *. simpl in *. lia.
  - assert (pre = [48]) as -> by (rewrite Hpre, bool_decide_eq_false_2 by auto; done).
    change (8 =? 8) with true. cbn [andb]. simpl length in *.
    set (f' := if _ : bool then clear flags FLAGS_HASH else flags). exists f'.
    split_and!; [|by etrans; [apply (hash_cleared_other _ flags 1)|]
                 |by etrans; [apply (hash_cleared_other _ flags 0)|]].
    rewrite Hns by (apply hash_cleared_none; congruence).
    f_equal. f_equal. apply rev_flip. unfold f'. destruct (Z.ltb_spec (Z.of_nat n)
      (Z.of_nat (n + Z.to_nat (o_width o - Z.of_nat n)))).
    + rewrite no_alt_cleared, rev_app_distr, rev_involutive, rev_zeros by auto.
      rewrite (zeros_cons (o_width o - Z.of_nat n)) by lia. simpl. do 3 f_equal. lia.
    + rewrite HA, !zeros_none, app_nil_r by lia. unfold n. rewrite <-length_rev, take_back_none.
      rewrite rev_add_prefix, rev_involutive; [done|done|]. rewrite length_rev. fold n. simpl. lia.
Qed.

(** ** A whole number *)

Lemma if_same {A} (c : bool) (x : A) : (if c then x else x) = x.
Proof. by destruct c. Qed.

Lemma body_pre_ds o pre ds : (length (pre ++ ds) ≤ length (number_body o pre ds))%nat.
Proof. unfold number_body. rewrite !length_app. lia. Qed.

Lemma finalize_text flags o base negative alt upper pre ds ds0 :
  number_parts flags o base negative alt upper pre ds →
  ds = zeros (precision_of o - Z.of_nat (length ds0)) ++ ds0 →
  (alt = true → base = 8 → head ds0 ≠ Some 48) →
  (length (number_body o pre ds) ≤ 32)%nat →
  let '(b, w, f) := finalize_buffer (rev ds0) negative base (precision_of o) (o_width o) flags in
  justify w f (rev b) = spaces (o_left o) (o_width o) (number_body o pre ds).
Proof.
  intros Hnp Hds H8 Hlen. pose proof (body_pre_ds o pre ds). pose proof Hnp as [[HZ HL _ _ _ _ HPr] ? _ Hpre Halt _].
  unfold number_body in *. rewrite <-andb_assoc, (andb_comm (negb _)), andb_assoc, <-HZ in *.
  destruct (has flags FLAGS_ZEROPAD && negb (o_left o)) eqn:Ez.
  - apply andb_true_iff in Ez as [Hz1 Ez2%negb_true_iff]. pose proof Hz1 as Ez1. rewrite HZ in Ez1.
    apply andb_true_iff in Ez1 as [_ Hnone%negb_true_iff]. rewrite Ez2 in *.
    assert (precision_of o = 0) as Ep by (unfold precision_of, precise in *; by destruct (o_precision o)).
    rewrite Ep in Hds |- *. rewrite zeros_none in Hds by lia. simpl in Hds. subst ds0.
    rewrite !length_app, length_zeros in Hlen.
    assert (∃ w' f', finalize_buffer (rev ds) negative base 0 (o_width o) flags =
      (rev (pre ++ zeros (o_width o - Z.of_nat (length (pre ++ ds))) ++ ds), w', f') ∧
      has f' FLAGS_LEFT = false ∧ has f' FLAGS_ZEROPAD = true) as (w' & f' & -> & HfL & HfZ).
    { destruct alt.
      - assert (negative = false) as -> by (destruct Halt as [Hs _]; [done|]; by destruct negative).
        destruct (finalize_zeros_alt flags o base upper pre ds) as (f' & E & Hf); try done.
        + by rewrite HPr.
        + auto.
        + lia.
        + rewrite length_app. lia.
        + by exists (o_width o), f'.
      - apply (finalize_zeros_sign flags o base negative upper); try done; [lia|rewrite length_app; lia]. }
    unfold justify, spaces. rewrite HfL, HfZ, rev_involutive.
    rewrite !length_app, length_zeros. by replace (Z.to_nat _) with O by lia.
  - assert (has flags FLAGS_LEFT = true ∨ has flags FLAGS_ZEROPAD = false) as Hor.
    { rewrite HL. destruct (o_left o); [by left|right]. by rewrite andb_true_r in Ez. }
    rewrite app_nil_l in *.
    destruct (finalize_no_zeros flags o base negative alt upper pre ds ds0 Hnp Hds H8 Hor)
      as (f' & -> & HfL & HfZ); [lia|].
    unfold justify, spaces. rewrite HfL, rev_involutive.
    destruct (o_left o); [done|]. by rewrite HfZ.
Qed.

Lemma number_digits_room n m v base :
  (1 ≤ m ≤ n)%nat → (length (number_digits n v base) ≤ m)%nat →
  number_digits m v base = number_digits n v base.
Proof.
  revert n v. induction m as [|m IH]; intros n v Hmn Hlen; [lia|].
  destruct n as [|n]; [lia|]. simpl in *. f_equal. destruct (v / base =? 0); [done|].
  destruct m as [|m]; [|apply IH; lia].
  destruct (number_digits n (v / base) base); [done|simpl in Hlen; lia].
Qed.

(** The highest digit of a number that is not zero. *)
Lemma number_digits_last n v base :
  2 ≤ base → 0 < v < base ^ Z.of_nat n →
  ∃ ds d, number_digits n v base = ds ++ [d] ∧ d ≠ 0.
Proof.
  intros Hb. revert v. induction n as [|n IH]; intros v Hv; [simpl in Hv; lia|].
  rewrite Nat2Z.inj_succ, Z.pow_succ_r in Hv by lia. simpl. destruct (Z.eqb_spec (v / base) 0) as [E|E].
  - exists [], (v mod base). split; [done|]. rewrite Z.mod_small; [lia|].
    by apply Z.div_small_iff in E as [?|?]; lia.
  - assert (0 ≤ v / base) by (apply Z.div_pos; lia).
    assert (v / base < base ^ Z.of_nat n) by (apply Z.div_lt_upper_bound; lia).
    destruct (IH (v / base)) as (ds & d & -> & Hd); [lia|]. by exists (v mod base :: ds), d.
Qed.

Lemma digit_text_eq flags upper d :
  has flags FLAGS_UPPERCASE = upper → digit_char flags d = digit_text upper d.
Proof. intros Hu. unfold digit_char, digit_text. by rewrite Hu. Qed.

Lemma natural_digits_head base upper v :
  2 ≤ base ≤ 16 → 0 < v < 2 ^ 64 → head (natural_digits base upper v) ≠ Some 48.
Proof.
  intros Hb Hv. destruct (number_digits_last 64 v base) as (ds & d & E & Hd); [lia| |].
  { change (Z.of_nat 64) with 64. assert (2 ^ 64 ≤ base ^ 64) by (apply Z.pow_le_mono_l; lia). lia. }
  pose proof (number_digits_range 64 v base ltac:(lia)) as Hr. rewrite E in Hr.
  apply Forall_app in Hr as [_ Hr]. inversion Hr; subst.
  unfold natural_digits. rewrite E, rev_app_distr. simpl. unfold digit_text.
  intros Heq. injection Heq as Heq. destruct (Z.ltb_spec d 10); [lia|]. destruct upper; lia.
Qed.

(** The buffer before it is finished, and what the alternative form is then. *)
Lemma integer_buffer_spec v base flags o alt upper :
  flag_word flags o alt upper → 0 ≤ v →
  (length (precise_digits o base upper v) ≤ 32)%nat →
  (v = 0 → has flags FLAGS_POINTER = false) →
  ∃ ds0 flags' alt',
    integer_buffer v base flags = (rev ds0, flags') ∧ flag_word flags' o alt' upper ∧
    ds0 = (if (v =? 0) && precise o then [] else natural_digits base upper v) ∧
    alt' = (if (v =? 0) && (negb (precise o) || (base =? 16)) then false else alt) ∧
    has flags' FLAGS_POINTER = has flags FLAGS_POINTER.
Proof.
  intros Hfw Hv Hlen Hptr. pose proof Hfw as [HZ HL HP HS HA HU HPr].
  assert (v = 0 → flag_word (clear flags FLAGS_HASH) o false upper) as Hclr.
  { intros E. split.
    1: rewrite <-HZ; by apply (has_clear_hash_other flags 0).
    1: rewrite <-HL; by apply (has_clear_hash_other flags 1).
    1: rewrite <-HP; by apply (has_clear_hash_other flags 2).
    1: rewrite <-HS; by apply (has_clear_hash_other flags 3).
    1: by apply no_alt_cleared, Hptr.
    1: rewrite <-HU; by apply (has_clear_hash_other flags 5).
    rewrite <-HPr; by apply (has_clear_hash_other flags 11). }
  assert (v ≠ 0 ∨ precise o = false → natural_digits base upper v =
            rev (map (digit_char flags) (number_digits 32 v base))) as Hnat.
  { intros Hnz. unfold natural_digits. rewrite <-map_rev, (number_digits_room 64 32); [|lia|].
    - apply map_ext. intros d. symmetry. by apply digit_text_eq.
    - unfold precise_digits, precise, natural_digits in *. destruct (o_precision o) as [p|].
      + destruct Hnz as [Hnz|?]; [|done]. rewrite (proj2 (Z.eqb_neq v 0)) in Hlen by done.
        rewrite length_app, length_map, length_rev in Hlen. lia.
      + by rewrite length_map, length_rev in Hlen. }
  unfold integer_buffer. rewrite HPr. destruct (Z.eqb_spec v 0) as [->|Hnz]; cbn [andb].
  - destruct (precise o); cbn [negb andb orb].
    + destruct (base =? 16).
      * exists [], (clear flags FLAGS_HASH), false. split_and!; try done; [by apply Hclr|].
        rewrite Hptr by done. by apply has_land_l, Hptr.
      * by exists [], flags, alt.
    + exists [48], (clear flags FLAGS_HASH), false. split_and!; try done; [by apply Hclr|].
      rewrite Hptr by done. by apply has_land_l, Hptr.
  - exists (natural_digits base upper v), flags, alt. split_and!; try done.
    rewrite Hnat, rev_involutive by auto. f_equal. apply integer_digits_map.
Qed.

(** The text of a number is the standard's, if the buffer has room for it. *)
Lemma integer_text_spec v negative base flags o alt upper :
  flag_word flags o alt upper → 0 ≤ o_width o < 2 ^ 64 → (∀ p, o_precision o = Some p → 0 ≤ p) →
  2 ≤ base ≤ 16 → 0 ≤ v < 2 ^ 64 →
  (alt = true → sign o negative = [] ∧ (base = 16 ∨ base = 8)) →
  (v = 0 ∨ base = 8 → has flags FLAGS_POINTER = false) →
  let ds := precise_digits o base upper v in
  let body := number_body o (if alt then prefix base upper v ds else sign o negative) ds in
  Z.of_nat (length body) ≤ 32 →
  integer_text v negative base (precision_of o) (o_width o) flags =
  spaces (o_left o) (o_width o) body.
Proof.
  intros Hfw Hw Hp Hb Hv Halt Hptr ds body Hlen.
  set (pre := if alt then _ else _) in body.
  assert (length ds ≤ 32)%nat as Hds.
  { pose proof (body_pre_ds o pre ds) as Hbd. rewrite length_app in Hbd. fold body in Hbd. lia. }
  destruct (integer_buffer_spec v base flags o alt upper Hfw ltac:(lia) Hds)
    as (ds0 & flags' & alt' & Ebuf & Hfw' & E0 & Ealt & Eptr); [by auto|].
  assert (ds = zeros (precision_of o - Z.of_nat (length ds0)) ++ ds0) as Eds.
  { unfold ds, precise_digits, precision_of, precise in *. rewrite E0.
    destruct (o_precision o) as [p|]; [by rewrite andb_true_r|].
    rewrite andb_false_r. by rewrite zeros_none by (simpl; lia). }
  unfold integer_text. rewrite Ebuf.
  pose proof (finalize_text flags' o base negative alt' upper
    pre ds ds0) as Hfin.
  destruct (finalize_buffer _ _ _ _ _ _) as [[b w] f]. apply Hfin; [|done| |fold body; lia].
  - split; try done.
    + unfold pre. rewrite Ealt. destruct alt; [|by rewrite if_same].
      destruct Halt as [-> Hbase]; [done|]. unfold prefix, alt_prefix.
      destruct Hbase as [-> | ->]; cbn [Z.eqb Pos.eqb andb orb].
      * destruct (v =? 0); [|done]. by rewrite orb_true_r.
      * rewrite orb_false_r. destruct (Z.eqb_spec v 0) as [->|]; [|done]. cbn [andb].
        unfold precise, ds, precise_digits in *. by destruct (o_precision o).
    + intros Ha. destruct alt; [by apply Halt|]. by rewrite Ealt, if_same in Ha.
    + intros. rewrite Eptr. auto.
  - intros Ha -> Hh. rewrite E0 in Hh. destruct (Z.eqb_spec v 0) as [->|].
    + unfold precise in *. rewrite Ealt in Ha. by destruct (o_precision o).
    + revert Hh. apply natural_digits_head; lia.
Qed.
