(* ===== verification/PrintParse.v ===== *)
(** * Parsing the fields of a format

    The parser of [print.c] finds in the characters of a field what the field
    was written from: flags, width and precision, the stars resolved. *)
From S2P Require Import Prelude Mem MemCopy MemSet MemCmp CString Ctype Strto Stdio Print PrintText.
From S2P Require Import PrintSpec PrintNumber.

(** ** Flag words, bit by bit *)

Lemma has_bit flags k : 0 ≤ k → has flags (Z.shiftl 1 k) = Z.testbit flags k.
Proof. intros. rewrite Z.shiftl_1_l. by apply has_pow2. Qed.

Lemma has_set flags f k : 0 ≤ k →
  has (Z.lor flags f) (Z.shiftl 1 k) = has flags (Z.shiftl 1 k) || Z.testbit f k.
Proof. intros. rewrite !has_bit by done. apply Z.lor_spec. Qed.

Lemma has_unset flags f k : 0 ≤ k < 32 →
  has (clear flags f) (Z.shiftl 1 k) = has flags (Z.shiftl 1 k) && negb (Z.testbit f k).
Proof. intros. rewrite Z.shiftl_1_l. by apply has_clear. Qed.

Ltac unfold_flags :=
  unfold FLAGS_ZEROPAD, FLAGS_LEFT, FLAGS_PLUS, FLAGS_SPACE, FLAGS_HASH, FLAGS_UPPERCASE,
    FLAGS_CHAR, FLAGS_SHORT, FLAGS_INT, FLAGS_LONG, FLAGS_LONG_LONG, FLAGS_PRECISION,
    FLAGS_POINTER, FLAGS_SIGNED in *.

(** Tests of single flags, down to the word they start from. *)
Ltac flag_tests :=
  repeat first [rewrite has_set by lia|rewrite has_unset by lia];
  repeat match goal with
  | |- context [Z.testbit ?f ?k] =>
      let b := eval vm_compute in (Z.testbit f k) in
      match b with true => idtac | false => idtac end; change (Z.testbit f k) with b
  end;
  rewrite ?orb_false_r, ?orb_true_r, ?andb_true_r, ?andb_false_r.

Definition flag_bit (f : flag) : Z :=
  match f with
  | FZero => FLAGS_ZEROPAD | FLeft => FLAGS_LEFT | FPlus => FLAGS_PLUS
  | FSpace => FLAGS_SPACE | FHash => FLAGS_HASH
  end.

Definition flags_mask (acc : Z) (fs : list flag) : Z := foldl (λ x f, Z.lor x (flag_bit f)) acc fs.

Lemma flags_mask_has acc fs k : 0 ≤ k →
  has (flags_mask acc fs) (Z.shiftl 1 k) =
  has acc (Z.shiftl 1 k) || existsb (λ f, Z.testbit (flag_bit f) k) fs.
Proof.
  intros Hk. revert acc. induction fs as [|f fs IH]; intros acc; simpl; [by rewrite orb_false_r|].
  rewrite IH, has_set by done. by rewrite orb_assoc.
Qed.

Lemma in_flags_mask x fs k :
  0 ≤ k → (∀ f, Z.testbit (flag_bit f) k = bool_decide (f = x)) →
  has (flags_mask 0 fs) (Z.shiftl 1 k) = in_flags x fs.
Proof.
  intros Hk Hx. rewrite flags_mask_has by done. unfold in_flags.
  rewrite has_bit, Z.bits_0 by done. simpl.
  induction fs as [|f fs IH]; simpl; [done|]. rewrite IH, Hx. symmetry.
  destruct (decide (f = x)) as [->|Hne].
  - rewrite (bool_decide_eq_true_2 (x = x)) by done. apply bool_decide_eq_true_2. by left.
  - rewrite (bool_decide_eq_false_2 (f = x)) by done. simpl. apply bool_decide_ext.
    rewrite elem_of_cons. naive_solver.
Qed.

Lemma flags_mask_other fs k :
  0 ≤ k → (∀ f, Z.testbit (flag_bit f) k = false) → has (flags_mask 0 fs) (Z.shiftl 1 k) = false.
Proof.
  intros Hk Hx. rewrite flags_mask_has, has_bit, Z.bits_0 by done. simpl.
  induction fs as [|f fs IH]; simpl; [done|]. by rewrite Hx, IH.
Qed.

(** ** Characters in memory *)

Fixpoint chars_at (m : mem) (a : Z) (l : list Z) : Prop :=
  match l with
  | [] => True
  | c :: l => ldc m a = Ok c ∧ u64 (a + 1) = a + 1 ∧ chars_at m (a + 1) l
  end.

Lemma chars_at_app m a l1 l2 :
  chars_at m a (l1 ++ l2) ↔ chars_at m a l1 ∧ chars_at m (a + Z.of_nat (length l1)) l2.
Proof.
  revert a. induction l1 as [|c l1 IH]; intros a; simpl.
  - rewrite Z.add_0_r. tauto.
  - rewrite IH. replace (a + Z.of_nat (S (length l1))) with (a + 1 + Z.of_nat (length l1)) by lia.
    tauto.
Qed.

Lemma cstring_chars_at m a l :
  cstring m a l → Forall (λ c, 0 < c < 128) l → chars_at m a (l ++ [0]).
Proof.
  intros Hs Hl. pose proof (cs_at _ _ _ Hs).
  cut (∀ l1 l2, l ++ [0] = l1 ++ l2 → chars_at m (a + Z.of_nat (length l1)) l2).
  { intros H0. by specialize (H0 [] _ eq_refl); rewrite Z.add_0_r in H0. }
  intros l1 l2. revert l1. induction l2 as [|c l2 IH]; intros l1 E; simpl; [done|].
  pose proof (f_equal length E) as El. rewrite !length_app in El. simpl in El.
  split_and!.
  - apply (ldc_format m a l); [done|by rewrite E, list_lookup_middle|].
    assert (Forall (λ c, 0 ≤ c < 128) (l ++ [0])) as Hr.
    { apply Forall_app. split; [eapply Forall_impl; [|exact Hl]; intros ? Hc; simpl in Hc; lia|].
      constructor; [lia|done]. }
    rewrite E in Hr. apply Forall_app in Hr as [_ Hr]. by inversion Hr.
  - rewrite u64_small; lia.
  - specialize (IH (l1 ++ [c])). rewrite length_app in IH. simpl in IH.
    replace (a + Z.of_nat (length l1) + 1) with (a + Z.of_nat (length l1 + 1)) by lia.
    apply IH. by rewrite <-app_assoc.
Qed.

(** ** The steps of the parser *)

Lemma ADVANCE_char m a c d l :
  chars_at m a (c :: d :: l) → d ≠ 0 → ADVANCE_IN_FORMAT_STRING m a = Ok (Some (a + 1)).
Proof.
  intros (_ & Hu & Hd & _) Hnz. unfold ADVANCE_IN_FORMAT_STRING. rewrite Hu, Hd, bind_ok.
  by rewrite (proj2 (Z.eqb_neq d 0)).
Qed.

(** What may follow the fields: no flag, digit, star, point or length. *)
Definition stop (c : Z) : Prop :=
  flag_of c = None ∧ isdigit c = false ∧ c ≠ 0 ∧ c ∉ [42; 45; 46; 73; 108; 104; 116; 106; 122].

Lemma parse_flags_chars fuel m a fs c l :
  chars_at m a (map flag_char fs ++ c :: l) → flag_of c = None → (length fs < fuel)%nat →
  Print.parse_flags fuel m a = Ok (flags_mask 0 fs, a + Z.of_nat (length fs)).
Proof.
  unfold Print.parse_flags. generalize 0 as acc. revert fuel a.
  induction fs as [|f fs IH]; intros fuel a acc Hc Hf Hn; (destruct fuel as [|fuel]; [simpl in Hn; lia|]);
    cbn [loop].
  - destruct Hc as (-> & _). rewrite bind_ok, Hf, bind_ok. by rewrite Z.add_0_r.
  - destruct Hc as (-> & Hu & Hc). rewrite bind_ok.
    assert (flag_of (flag_char f) = Some (flag_bit f)) as -> by by destruct f.
    rewrite bind_ok, Hu, (IH _ _ _ Hc Hf) by (simpl in Hn; lia). simpl flags_mask.
    do 2 f_equal. simpl length. lia.
Qed.

Lemma digit_chars_isdigit d : 0 ≤ d < 10 → isdigit (48 + d) = true.
Proof. intros. unfold isdigit. apply andb_true_iff. rewrite !Z.leb_le. lia. Qed.

Lemma value_snoc base acc d ds : value base acc (d :: ds) = value base (acc * base + d) ds.
Proof. done. Qed.

Lemma u64_value base acc ds : u64 (value base (u64 acc) ds) = u64 (value base acc ds).
Proof.
  revert acc. induction ds as [|d ds IH]; intros acc; [unfold value; simpl; apply Z.mod_mod; lia|].
  rewrite !value_snoc. rewrite <-(IH (u64 acc * base + d)), <-(IH (acc * base + d)). do 2 f_equal.
  unfold u64. by rewrite <-(Z.add_mod_idemp_l (acc mod 2 ^ 64 * base)), Z.mul_mod_idemp_l, Z.add_mod_idemp_l.
Qed.

Lemma stdio_atou_chars fuel m a ds c l :
  chars_at m a (map (λ d, 48 + d) ds ++ c :: l) → decimal ds → isdigit c = false →
  (length ds < fuel)%nat →
  stdio_atou fuel m a = Ok (u64 (value 10 0 ds), a + Z.of_nat (length ds)).
Proof.
  intros Hc Hds Hnd. unfold stdio_atou.
  match goal with |- (_ → loop _ ?body _ = _) => set (step := body) end.
  assert (∀ s v, step (s, v) = (c ← ldc m s;
    if isdigit c then c ← ldc m s; Ok (inl (u64 (s + 1), u64 (u64 (v * 10) + u64 (c - 48))))
    else Ok (inr (v, s)))) as Hstep by done. clearbody step.
  cut (∀ acc, (length ds < fuel)%nat →
    loop fuel step (a, u64 acc) = Ok (u64 (value 10 acc ds), a + Z.of_nat (length ds))).
  { intros H. apply (H 0). }
  revert fuel a Hc. induction Hds as [|d ds Hd Hds IH]; intros fuel a Hc acc Hn;
    (destruct fuel as [|fuel]; [simpl in Hn; lia|]); cbn [loop]; rewrite Hstep.
  - destruct Hc as (-> & _). rewrite bind_ok, Hnd, bind_ok. by rewrite Z.add_0_r.
  - destruct Hc as (Hl & Hu & Hc). rewrite Hl, !bind_ok, digit_chars_isdigit, !bind_ok, Hu by done.
    assert (u64 (u64 (u64 acc * 10) + u64 (48 + d - 48)) = u64 (acc * 10 + d)) as ->.
    { unfold u64. replace (48 + d - 48) with d by lia.
      by rewrite Z.mul_mod_idemp_l, <-Z.add_mod by lia. }
    rewrite (IH _ _ Hc) by (simpl in Hn; lia). simpl length. do 2 f_equal. lia.
Qed.

(** [*]: the argument, as an [int]. *)
Lemma star_arg args n args' :
  star args = Some (n, args') →
  va_arg_int args = Ok (n, args') ∧ - 2 ^ 31 < n < 2 ^ 31.
Proof.
  unfold star, va_arg_int, va_arg. destruct args as [|x args]; [done|].
  destruct (Z.eqb_spec (s32 (u64 x)) (- 2 ^ 31)) as [|Hne]; [done|]. intros [= <- <-].
  split; [done|]. unfold s32, sw in *. change (32 - 1) with 31 in *.
  pose proof (Z.mod_pos_bound (u64 x + 2 ^ 31) (2 ^ 32)). lia.
Qed.

Lemma parse_width_chars fuel m a w c l flags args n to_left args' :
  chars_at m a (width_chars w ++ c :: l) → width_ok w →
  isdigit c = false → c ≠ 42 → c ≠ 0 → (length (width_chars w) < fuel)%nat →
  resolve_width w args = Some (n, to_left, args') →
  parse_width fuel m a flags args =
    Ok (Some (a + Z.of_nat (length (width_chars w)),
              if to_left then Z.lor flags FLAGS_LEFT else flags, n, args')) ∧ 0 ≤ n < 2 ^ 64.
Proof.
  intros Hc Hw Hnd H42 H0 Hf Hr. unfold parse_width. destruct w as [|ds|]; simpl in *.
  - injection Hr as <- <- <-. destruct Hc as (-> & _). rewrite bind_ok, Hnd.
    rewrite (proj2 (Z.eqb_neq c 42)) by done. by rewrite Z.add_0_r.
  - injection Hr as <- <- <-. destruct Hw as (Hds & d & ds' & -> & Hnz). pose proof Hc as (Hl & _).
    rewrite Hl, bind_ok, digit_chars_isdigit by (by inversion Hds).
    rewrite length_map in *. rewrite (stdio_atou_chars fuel m a (d :: ds') c l) by done.
    split; [done|apply u64_range].
  - destruct (star args) as [[n' args1]|] eqn:Es; [|done]. injection Hr as <- <- <-.
    destruct (star_arg _ _ _ Es) as [Ha Hrange]. pose proof Hc as (Hl & _).
    rewrite Hl, bind_ok. change (isdigit 42) with false. change (42 =? 42) with true. cbv iota.
    rewrite Ha, bind_ok. destruct (Z.ltb_spec n' 0); unfold unless_canceled.
    + rewrite (ADVANCE_char m a 42 c l Hc H0), bind_ok. rewrite s32_small, u64_small by lia.
      rewrite Z.abs_neq by lia. split; [done|lia].
    + rewrite (ADVANCE_char m a 42 c l Hc H0), bind_ok, Z.abs_eq by lia. split; [done|lia].
Qed.

(** [flags'] is [flags] but for the precision's bit, which is [b]. *)
Definition precision_set (flags flags' : Z) (b : bool) : Prop :=
  (∀ k, 0 ≤ k < 32 → k ≠ 11 → has flags' (Z.shiftl 1 k) = has flags (Z.shiftl 1 k)) ∧
  has flags' FLAGS_PRECISION = b.

Lemma precision_set_true flags : precision_set flags (Z.lor flags FLAGS_PRECISION) true.
Proof.
  unfold precision_set. unfold_flags. split; [|by flag_tests]. intros k Hk Hne.
  by rewrite has_set, (Z.shiftl_1_l 11), Z.pow2_bits_false, orb_false_r by lia.
Qed.

Lemma precision_set_cleared flags :
  precision_set flags (clear (Z.lor flags FLAGS_PRECISION) FLAGS_PRECISION) false.
Proof.
  destruct (precision_set_true flags) as [Ho _]. split.
  - intros k Hk Hne. unfold FLAGS_PRECISION at 2. rewrite has_unset by done.
    rewrite (Z.shiftl_1_l 11), Z.pow2_bits_false, andb_true_r by lia. by apply Ho.
  - unfold_flags. by flag_tests.
Qed.

Lemma parse_precision_chars fuel m a p c l flags args op args' :
  chars_at m a (precision_chars p ++ c :: l) → precision_ok p →
  isdigit c = false → c ∉ [42; 45; 46] → c ≠ 0 → (length (precision_chars p) < fuel)%nat →
  has flags FLAGS_PRECISION = false → resolve_precision p args = Some (op, args') →
  ∃ flags', parse_precision fuel m a flags args =
      Ok (Some (a + Z.of_nat (length (precision_chars p)), flags', default 0 op, args')) ∧
    precision_set flags flags' (match op with Some _ => true | None => false end) ∧
    (∀ n, op = Some n → 0 ≤ n < 2 ^ 64).
Proof.
  intros Hc Hp Hnd Hnc H0 Hf Hfl Hr. unfold parse_precision, unless_canceled.
  rewrite !not_elem_of_cons in Hnc. destruct Hnc as (H42 & H45 & H46 & _).
  destruct p as [|ds|]; simpl in Hc, Hr, Hf |- *.
  - injection Hr as <- <-. destruct Hc as (-> & _). rewrite bind_ok, (proj2 (Z.eqb_neq c 46)) by done.
    exists flags. rewrite Z.add_0_r. split; [done|]. split; [by split|]. by intros ? [=].
  - injection Hr as <- <-. pose proof Hc as (Hl & Hu & Hc'). rewrite Hl, bind_ok, Z.eqb_refl.
    exists (Z.lor flags FLAGS_PRECISION). split; [|split; [apply precision_set_true|]].
    2: { intros n [= <-]. apply u64_range. }
    destruct ds as [|d ds]; simpl in Hc, Hc'.
    + rewrite (ADVANCE_char m a 46 c l Hc H0), bind_ok. destruct Hc' as (-> & _).
      rewrite bind_ok, Hnd, (proj2 (Z.eqb_neq c 45)), (proj2 (Z.eqb_neq c 42)) by done. done.
    + assert (0 ≤ d < 10) as Hd by by inversion Hp.
      rewrite (ADVANCE_char m a 46 (48 + d) _ Hc), bind_ok by lia. pose proof Hc' as (Hl' & _).
      rewrite Hl', bind_ok, (proj2 (Z.eqb_neq _ 45)), digit_chars_isdigit by lia.
      rewrite (stdio_atou_chars fuel m (a + 1) (d :: ds) c l); [|done..|].
      * rewrite bind_ok, length_map. replace (a + 1 + _) with (a + Z.of_nat (S (length (d :: ds)))) by lia. done.
      * rewrite length_map in Hf. simpl in *. lia.
  - destruct (star args) as [[n args1]|] eqn:Es; [|done]. injection Hr as <- <-.
    destruct (star_arg _ _ _ Es) as [Ha Hrange]. pose proof Hc as (Hl & Hu & Hc').
    rewrite Hl, bind_ok, Z.eqb_refl, (ADVANCE_char m a 46 42 (c :: l) Hc), bind_ok by done.
    pose proof Hc' as (Hl' & _). rewrite Hl', bind_ok. change (42 =? 45) with false.
    change (isdigit 42) with false. change (42 =? 42) with true. cbv iota. rewrite Ha, bind_ok.
    assert (a + 1 + 1 = a + 2) as E2 by lia.
    destruct (Z.ltb_spec n 0); rewrite (ADVANCE_char m (a + 1) 42 c l Hc' H0), bind_ok, E2.
    + eexists. split; [done|]. split; [apply precision_set_cleared|]. by intros ? [=].
    + eexists. split; [done|]. split; [apply precision_set_true|]. intros ? [= <-]. lia.
Qed.

Definition length_bits (l : length_mod) : Z :=
  match l with
  | Lnone => 0 | Lhh => Z.lor FLAGS_SHORT FLAGS_CHAR | Lh => FLAGS_SHORT
  | Ll => FLAGS_LONG | Lll => Z.lor FLAGS_LONG FLAGS_LONG_LONG | Lz => FLAGS_LONG
  end.

Lemma parse_length_chars m a lm c l flags :
  chars_at m a (length_chars lm ++ c :: l) → c ∉ [73; 108; 104; 116; 106; 122] → c ≠ 0 →
  parse_length m a flags =
    Ok (Some (a + Z.of_nat (length (length_chars lm)), Z.lor flags (length_bits lm))).
Proof.
  intros Hc Hnc H0. rewrite !not_elem_of_cons in Hnc. destruct Hnc as (? & ? & ? & ? & ? & ? & _).
  assert (∀ a c', chars_at m a (c' :: c :: l) → ADVANCE_IN_FORMAT_STRING m a = Ok (Some (a + 1)))
    as Hadv by (intros; by eapply ADVANCE_char).
  unfold parse_length, second_char, unless_canceled. destruct lm; simpl in Hc |- *.
  - destruct Hc as (-> & _). rewrite bind_ok, !(proj2 (Z.eqb_neq c _)) by done. simpl.
    by rewrite Z.add_0_r, Z.lor_0_r.
  - pose proof Hc as (-> & Hu & Hc'). rewrite bind_ok. simpl.
    rewrite (ADVANCE_char m a 104 104 (c :: l) Hc), bind_ok by done. pose proof Hc' as (-> & _). rewrite bind_ok.
    simpl. rewrite (Hadv _ _ Hc'), bind_ok, Z.lor_assoc.
    by replace (a + 1 + 1) with (a + Z.of_nat 2) by lia.
  - pose proof Hc as (-> & Hu & Hc'). rewrite bind_ok. simpl.
    rewrite (Hadv _ _ Hc), bind_ok. destruct Hc' as (-> & _).
    by rewrite bind_ok, (proj2 (Z.eqb_neq c _)) by done.
  - pose proof Hc as (-> & Hu & Hc'). rewrite bind_ok. simpl.
    rewrite (Hadv _ _ Hc), bind_ok. destruct Hc' as (-> & _).
    by rewrite bind_ok, (proj2 (Z.eqb_neq c _)) by done.
  - pose proof Hc as (-> & Hu & Hc'). rewrite bind_ok. simpl.
    rewrite (ADVANCE_char m a 108 108 (c :: l) Hc), bind_ok by done. pose proof Hc' as (-> & _). rewrite bind_ok.
    simpl. rewrite (Hadv _ _ Hc'), bind_ok, Z.lor_assoc.
    by replace (a + 1 + 1) with (a + Z.of_nat 2) by lia.
  - pose proof Hc as (-> & Hu & Hc'). rewrite bind_ok. simpl.
    by rewrite (Hadv _ _ Hc), bind_ok.
Qed.

(** ** A whole field *)

(** A flag word as a field has it. *)
Record field_word (flags : Z) (o : opts) (lm : length_mod) : Prop := FieldWord {
  fd_zero : has flags FLAGS_ZEROPAD = o_zero o;
  fd_left : has flags FLAGS_LEFT = o_left o;
  fd_plus : has flags FLAGS_PLUS = o_plus o;
  fd_space : has flags FLAGS_SPACE = o_space o;
  fd_hash : has flags FLAGS_HASH = o_hash o;
  fd_upper : has flags FLAGS_UPPERCASE = false;
  fd_char : has flags FLAGS_CHAR = match lm with Lhh => true | _ => false end;
  fd_short : has flags FLAGS_SHORT = match lm with Lhh | Lh => true | _ => false end;
  fd_long : has flags FLAGS_LONG = match lm with Ll | Lll | Lz => true | _ => false end;
  fd_long_long : has flags FLAGS_LONG_LONG = match lm with Lll => true | _ => false end;
  fd_has_precision : has flags FLAGS_PRECISION = precise o;
  fd_pointer : has flags FLAGS_POINTER = false;
  fd_signed : has flags FLAGS_SIGNED = false;
}.

(** The options are what a format can say. *)
Record opts_ok (o : opts) : Prop := OptsOk {
  oo_width : 0 ≤ o_width o < 2 ^ 64;
  oo_precision : ∀ p, o_precision o = Some p → 0 ≤ p < 2 ^ 64;
}.

(** The flag word the parser builds. *)
Lemma field_word_built fs (to_left : bool) flags2 o lm :
  let flags1 := if to_left then Z.lor (flags_mask 0 fs) FLAGS_LEFT else flags_mask 0 fs in
  precision_set flags1 flags2 (precise o) →
  o_zero o = in_flags FZero fs → o_left o = in_flags FLeft fs || to_left →
  o_plus o = in_flags FPlus fs → o_space o = in_flags FSpace fs → o_hash o = in_flags FHash fs →
  field_word (Z.lor flags2 (length_bits lm)) o lm.
Proof.
  intros flags1 [Ho Hp] Ez El Ep Es Eh.
  assert (∀ k, 0 ≤ k < 32 → has flags1 (Z.shiftl 1 k) =
    has (flags_mask 0 fs) (Z.shiftl 1 k) || (to_left && (k =? 1))) as H1.
  { intros k Hk. unfold flags1. destruct to_left; [|by rewrite orb_false_r].
    unfold FLAGS_LEFT. rewrite has_set, (Z.shiftl_1_l 1), Z.pow2_bits_eqb by lia. by rewrite Z.eqb_sym. }
  assert (∀ k x, 0 ≤ k < 32 → k ≠ 11 → k ≠ 1 → Z.testbit (length_bits lm) k = false →
    (∀ f, Z.testbit (flag_bit f) k = bool_decide (f = x)) →
    has (Z.lor flags2 (length_bits lm)) (Z.shiftl 1 k) = in_flags x fs) as Hflag.
  { intros k x Hk H11 Hk1 Hlm Hx. rewrite has_set, Hlm, orb_false_r, Ho, H1 by lia.
    rewrite (proj2 (Z.eqb_neq k 1)), andb_false_r, orb_false_r by done. apply in_flags_mask; [lia|done]. }
  assert (∀ k, 0 ≤ k < 32 → k ≠ 11 → k ≠ 1 → (∀ f, Z.testbit (flag_bit f) k = false) →
    has (Z.lor flags2 (length_bits lm)) (Z.shiftl 1 k) = Z.testbit (length_bits lm) k) as Hother.
  { intros k Hk H11 Hk1 Hx. rewrite has_set, Ho, H1 by lia.
    rewrite (proj2 (Z.eqb_neq k 1)), andb_false_r, orb_false_r by done.
    by rewrite flags_mask_other by (lia || done). }
  split; unfold_flags.
  - rewrite Ez. apply Hflag; [lia|lia|lia|by destruct lm|by intros []].
  - rewrite El, has_set, Ho, H1 by lia. rewrite (in_flags_mask FLeft) by (lia || by intros []).
    rewrite andb_true_r. by destruct lm; rewrite ?orb_false_r.
  - rewrite Ep. apply Hflag; [lia|lia|lia|by destruct lm|by intros []].
  - rewrite Es. apply Hflag; [lia|lia|lia|by destruct lm|by intros []].
  - rewrite Eh. apply Hflag; [lia|lia|lia|by destruct lm|by intros []].
  - rewrite Hother; [by destruct lm|lia|lia|lia|by intros []].
  - rewrite Hother; [by destruct lm|lia|lia|lia|by intros []].
  - rewrite Hother; [by destruct lm|lia|lia|lia|by intros []].
  - rewrite Hother; [by destruct lm|lia|lia|lia|by intros []].
  - rewrite Hother; [by destruct lm|lia|lia|lia|by intros []].
  - rewrite has_set, Hp by lia. by destruct lm; rewrite ?orb_false_r.
  - rewrite Hother; [by destruct lm|lia|lia|lia|by intros []].
  - rewrite Hother; [by destruct lm|lia|lia|lia|by intros []].
Qed.

(** The first character behind the flags, behind the width, behind the precision. *)
Lemma length_head lm c l :
  stop c → ∃ c' l', length_chars lm ++ c :: l = c' :: l' ∧
    flag_of c' = None ∧ isdigit c' = false ∧ c' ≠ 0 ∧ c' ∉ [42; 45; 46].
Proof.
  intros (Hf & Hd & H0 & Hn). rewrite !not_elem_of_cons in Hn.
  destruct lm; simpl; eexists _, _; (split; [done|]); rewrite !not_elem_of_cons;
    split_and!; try done; try tauto; apply not_elem_of_nil.
Qed.

Lemma precision_head p c l :
  flag_of c = None → isdigit c = false → c ≠ 0 → c ∉ [42; 45; 46] →
  ∃ c' l', precision_chars p ++ c :: l = c' :: l' ∧
    flag_of c' = None ∧ isdigit c' = false ∧ c' ≠ 0 ∧ c' ≠ 42.
Proof.
  intros Hf Hd H0 Hn. rewrite !not_elem_of_cons in Hn.
  destruct p; simpl; eexists _, _; (split; [done|]); split_and!; try done; tauto.
Qed.

Lemma width_head w c l :
  width_ok w → flag_of c = None → c ≠ 0 →
  ∃ c' l', width_chars w ++ c :: l = c' :: l' ∧ flag_of c' = None ∧ c' ≠ 0.
Proof.
  intros Hw Hf H0. destruct w as [|ds|]; simpl; [by eexists _, _| |by eexists _, _].
  destruct Hw as (Hds & d & ds' & -> & Hnz). simpl. eexists _, _. split; [done|].
  inversion Hds; subst. split; [|lia]. unfold flag_of. by rewrite !(proj2 (Z.eqb_neq _ _)) by lia.
Qed.

Lemma parse_spec_chars fuel m a f c l args o args' :
  chars_at m a (37 :: map flag_char (fd_flags f) ++ width_chars (fd_width f) ++
    precision_chars (fd_precision f) ++ length_chars (fd_length f) ++ c :: l) →
  stop c → width_ok (fd_width f) → precision_ok (fd_precision f) →
  (length (field_chars f) < fuel)%nat → resolve f args = Some (o, args') →
  ∃ flags, parse_spec fuel m a args =
      Ok (Some (Spec (a + Z.of_nat (length (field_chars f))) flags (o_width o) (precision_of o) args')) ∧
    field_word flags o (fd_length f) ∧ opts_ok o.
Proof.
  intros Hc Hst Hw Hp Hfuel Hr. unfold resolve in Hr.
  destruct (resolve_width (fd_width f) args) as [[[w to_left] args1]|] eqn:Ew; [|done].
  simpl in Hr. destruct (resolve_precision (fd_precision f) args1) as [[op args2]|] eqn:Ep; [|done].
  simpl in Hr. injection Hr as <- <-.
  destruct (length_head (fd_length f) c l Hst) as (c3 & l3 & E3 & Hf3 & Hd3 & H03 & Hn3).
  destruct (precision_head (fd_precision f) c3 l3 Hf3 Hd3 H03 Hn3) as (c2 & l2 & E2 & Hf2 & Hd2 & H02 & Hn2).
  destruct (width_head (fd_width f) c2 l2 Hw Hf2 H02) as (c1 & l1 & E1 & Hf1 & H01).
  assert (length (field_chars f) = length (fd_flags f) + length (width_chars (fd_width f)) +
    length (precision_chars (fd_precision f)) + length (length_chars (fd_length f)) + 1)%nat as El.
  { unfold field_chars. rewrite !length_app, length_map. simpl. lia. }
  rewrite E3, E2, E1 in Hc. pose proof Hc as (_ & _ & Hc1).
  assert (ADVANCE_IN_FORMAT_STRING m a = Ok (Some (a + 1))) as Ea.
  { destruct (fd_flags f) as [|x fs]; simpl in Hc; [by eapply (ADVANCE_char m a 37 c1 l1)|].
    eapply (ADVANCE_char m a 37 (flag_char x)); [exact Hc|]. by destruct x. }
  pose proof (parse_flags_chars fuel m (a + 1) (fd_flags f) c1 l1 Hc1 Hf1 ltac:(lia)) as Ef.
  apply chars_at_app in Hc1 as [_ Hc1]. rewrite length_map, <-E1 in Hc1.
  set (a1 := a + 1 + Z.of_nat (length (fd_flags f))) in *.
  destruct (parse_width_chars fuel m a1 (fd_width f) c2 l2 (flags_mask 0 (fd_flags f)) args w to_left
    args1 Hc1 Hw Hd2 Hn2 H02 ltac:(lia) Ew) as [Epw Hwr].
  apply chars_at_app in Hc1 as [_ Hc1]. rewrite <-E2 in Hc1.
  set (a2 := a1 + Z.of_nat (length (width_chars (fd_width f)))) in *.
  set (flags1 := if to_left then _ else _) in Epw.
  assert (has flags1 FLAGS_PRECISION = false) as Hnp.
  { unfold flags1. unfold_flags.
    assert (has (flags_mask 0 (fd_flags f)) (Z.shiftl 1 11) = false) as E
      by (apply flags_mask_other; [lia|by intros []]).
    destruct to_left; [|done]. rewrite has_set, E by lia. done. }
  destruct (parse_precision_chars fuel m a2 (fd_precision f) c3 l3 flags1 args1 op args2 Hc1 Hp Hd3 Hn3
    H03 ltac:(lia) Hnp Ep) as (flags2 & Epp & Hset & Hpos).
  apply chars_at_app in Hc1 as [_ Hc1]. rewrite <-E3 in Hc1.
  set (a3 := a2 + Z.of_nat (length (precision_chars (fd_precision f)))) in *.
  destruct Hst as (_ & _ & H0 & Hn).
  rewrite !not_elem_of_cons in Hn.
  pose proof (parse_length_chars m a3 (fd_length f) c l flags2 Hc1
    ltac:(rewrite !not_elem_of_cons; split_and!; try tauto; apply not_elem_of_nil) H0) as Epl.
  exists (Z.lor flags2 (length_bits (fd_length f))). split_and!.
  - unfold parse_spec, unless_canceled. rewrite Ea, bind_ok, Ef, bind_ok, Epw, bind_ok, Epp, bind_ok,
      Epl, bind_ok. do 3 f_equal. unfold a3, a2, a1. lia.
  - by apply (field_word_built (fd_flags f) to_left).
  - by split.
Qed.
