(* ===== verification/PrintFormat.v ===== *)
(** * What [printf] writes

    On a stream with a function, [printf] of a format writes the text that
    PrintSpec gives for it. *)
From S2P Require Import Prelude Mem MemCopy MemSet MemCmp CString Ctype Strto Stdio Print PrintText.
From S2P Require Import PrintSpec PrintNumber PrintParse.

(** ** Arguments *)

Lemma mod_mod_pow w v x : 0 < w ≤ v → (x mod 2 ^ v) mod 2 ^ w = x mod 2 ^ w.
Proof.
  intros H. apply Z.mod_mod_divide. exists (2 ^ (v - w)).
  rewrite <-Z.pow_add_r by lia. f_equal. lia.
Qed.

Lemma sw_mod w v x : 0 < w ≤ v → sw w (x mod 2 ^ v) = sw w x.
Proof.
  intros H. unfold sw. f_equal.
  by rewrite <-Z.add_mod_idemp_l, mod_mod_pow, Z.add_mod_idemp_l by (try apply Z.pow_nonzero; lia).
Qed.

Lemma sw_sw w v x : 0 < w ≤ v → sw w (sw v x) = sw w x.
Proof.
  intros H. rewrite <-(sw_mod w v (sw v x)), <-(sw_mod w v x) by done. f_equal. unfold sw.
  rewrite Zminus_mod_idemp_l. f_equal. lia.
Qed.

Lemma s8_s32_u64 a : s8 (s32 (u64 a)) = s8 a.
Proof. unfold s8, s32, u64. by rewrite sw_sw, sw_mod by lia. Qed.
Lemma s16_s32_u64 a : s16 (s32 (u64 a)) = s16 a.
Proof. unfold s16, s32, u64. by rewrite sw_sw, sw_mod by lia. Qed.
Lemma s32_of_u64 a : s32 (u64 a) = s32 a.
Proof. unfold s32, u64. by rewrite sw_mod by lia. Qed.
Lemma s64_u64 a : s64 (u64 a) = s64 a.
Proof. unfold s64, u64. by rewrite sw_mod by lia. Qed.
Lemma u8_u32_u64 a : u8 (u32 (u64 a)) = u8 a.
Proof. unfold u8, u32, u64. by rewrite !mod_mod_pow by lia. Qed.
Lemma u16_u32_u64 a : u16 (u32 (u64 a)) = u16 a.
Proof. unfold u16, u32, u64. by rewrite !mod_mod_pow by lia. Qed.
Lemma u32_s32_u64 a : u32 (s32 (u64 a)) = u32 a.
Proof.
  rewrite s32_of_u64. unfold u32, s32, sw. rewrite Zminus_mod_idemp_l. f_equal. lia.
Qed.

Lemma STDIO_ABS_small v : 0 ≤ v < 2 ^ 64 → STDIO_ABS v = v.
Proof.
  intros Hv. unfold STDIO_ABS. destruct (Z.ltb_spec 0 v); [by apply u64_small|].
  by assert (v = 0) as -> by lia.
Qed.

Lemma sw_range w x : 0 < w → - 2 ^ (w - 1) ≤ sw w x < 2 ^ (w - 1).
Proof.
  intros Hw. unfold sw. pose proof (Z.mod_pos_bound (x + 2 ^ (w - 1)) (2 ^ w)).
  assert (2 ^ w = 2 * 2 ^ (w - 1)) by (rewrite <-Z.pow_succ_r by lia; f_equal; lia). lia.
Qed.

Lemma signed_value_range l a : - 2 ^ 63 ≤ signed_value l a < 2 ^ 63.
Proof.
  assert (∀ w, 0 < w ≤ 64 → - 2 ^ 63 ≤ sw w a < 2 ^ 63) as H.
  { intros w Hw. pose proof (sw_range w a ltac:(lia)).
    assert (2 ^ (w - 1) ≤ 2 ^ 63) by (apply Z.pow_le_mono_r; lia). lia. }
  destruct l; apply H; lia.
Qed.

Lemma unsigned_value_range l a : 0 ≤ unsigned_value l a < 2 ^ 64.
Proof.
  assert (∀ w, 0 < w ≤ 64 → 0 ≤ a mod 2 ^ w < 2 ^ 64) as H.
  { intros w Hw. pose proof (Z.mod_pos_bound a (2 ^ w)).
    assert (2 ^ w ≤ 2 ^ 64) by (apply Z.pow_le_mono_r; lia). lia. }
  destruct l; apply H; lia.
Qed.

(** ** Numbers *)

(** The flag word with which a conversion calls [print_integer]. *)
Definition base_flags (signed decimal upper : bool) (flags : Z) : Z :=
  let flags := if signed then Z.lor flags FLAGS_SIGNED else flags in
  let flags := if decimal then clear flags FLAGS_HASH else flags in
  let flags := if upper then Z.lor flags FLAGS_UPPERCASE else flags in
  if has flags FLAGS_PRECISION then clear flags FLAGS_ZEROPAD else flags.
Definition number_flags (signed decimal upper : bool) (flags : Z) : Z :=
  let flags := base_flags signed decimal upper flags in
  if signed then flags else clear flags (Z.lor FLAGS_PLUS FLAGS_SPACE).

(** An unsigned conversion has no sign. *)
Definition unsigned_opts (o : opts) : opts :=
  Opts (o_zero o) (o_left o) false false (o_hash o) (o_width o) (o_precision o).

Lemma precise_unsigned o : precise (unsigned_opts o) = precise o.
Proof. done. Qed.

Lemma number_flags_word flags o lm (signed decimal upper : bool) :
  field_word flags o lm →
  flag_word (number_flags signed decimal upper flags) (if signed then o else unsigned_opts o)
    (o_hash o && negb decimal) upper ∧
  has (number_flags signed decimal upper flags) FLAGS_POINTER = false.
Proof.
  intros [Ez El Ep Es Eh Eu _ _ _ _ Epr Ept _]. unfold number_flags, base_flags.
  assert (has (if upper then Z.lor
      (if decimal then clear (if signed then Z.lor flags FLAGS_SIGNED else flags) FLAGS_HASH
       else if signed then Z.lor flags FLAGS_SIGNED else flags) FLAGS_UPPERCASE
    else (if decimal then clear (if signed then Z.lor flags FLAGS_SIGNED else flags) FLAGS_HASH
       else if signed then Z.lor flags FLAGS_SIGNED else flags)) FLAGS_PRECISION = precise o) as ->.
  { rewrite <-Epr. unfold_flags. by destruct signed, decimal, upper; flag_tests. }
  unfold_flags. split; [|by destruct signed, decimal, upper, (precise o); flag_tests].
  split; unfold_flags; destruct signed, decimal, upper, (precise o) eqn:Epo; rewrite ?has_lor;
    flag_tests; simpl; rewrite ?precise_unsigned, ?Epo, ?orb_false_r, ?andb_true_r, ?andb_false_r,
      ?Eh, ?Ept, ?orb_false_r; done.
Qed.

Lemma number_body_unsigned o pre ds : number_body (unsigned_opts o) pre ds = number_body o pre ds.
Proof. done. Qed.

(** The value a conversion prints, and its text. *)
Lemma signed_text flags o lm v text :
  field_word flags o lm → opts_ok o → - 2 ^ 63 ≤ v < 2 ^ 63 →
  Z.of_nat (length (signed_body o v)) ≤ 32 → text = spaces (o_left o) (o_width o) (signed_body o v) →
  integer_text (STDIO_ABS v) (v <? 0) 10 (precision_of o) (o_width o)
    (number_flags true true false flags) = text.
Proof.
  intros Hf [Hw Hp] Hv Hlen ->. destruct (number_flags_word flags o lm true true false Hf) as [Hfw Hpt].
  rewrite andb_false_r in Hfw. rewrite (proj2 (long_argument v Hv)). unfold signed_body in *.
  apply (integer_text_spec _ _ _ _ _ false false); try done; [intros p E; apply (Hp p E)|lia].
Qed.

Lemma unsigned_text flags o lm base (decimal upper : bool) v text :
  field_word flags o lm → opts_ok o → 0 ≤ v < 2 ^ 64 →
  (base = 10 ∧ decimal = true ∨ (base = 16 ∨ base = 8) ∧ decimal = false ∨
   base = 2 ∧ decimal = false ∧ o_hash o = false) →
  Z.of_nat (length (unsigned_body o base upper v)) ≤ 32 →
  text = spaces (o_left o) (o_width o) (unsigned_body o base upper v) →
  integer_text v false base (precision_of o) (o_width o) (number_flags false decimal upper flags) = text.
Proof.
  intros Hf [Hw Hp] Hv Hbase Hlen ->.
  destruct (number_flags_word flags o lm false decimal upper Hf) as [Hfw Hpt].
  assert (unsigned_body o base upper v =
    number_body (unsigned_opts o)
      (if o_hash o && negb decimal then prefix base upper v (precise_digits (unsigned_opts o) base upper v)
       else sign (unsigned_opts o) false) (precise_digits (unsigned_opts o) base upper v)) as Eb.
  { unfold unsigned_body. rewrite number_body_unsigned. f_equal.
    destruct Hbase as [[-> ->]|[[_ ->]|(-> & -> & ->)]]; [|by rewrite andb_true_r|done].
    rewrite andb_false_r. by destruct (o_hash o). }
  rewrite Eb in Hlen |- *.
  change (precision_of o) with (precision_of (unsigned_opts o)).
  change (o_width o) with (o_width (unsigned_opts o)). change (o_left o) with (o_left (unsigned_opts o)).
  apply (integer_text_spec _ _ _ _ _ (o_hash o && negb decimal) upper); try done;
    [intros p E; apply (Hp p E)|lia|].
  intros [Hh Hd%negb_true_iff]%andb_true_iff. split; [done|].
  destruct Hbase as [[_ ?]|[[? _]|(_ & _ & ?)]]; [congruence|done|congruence].
Qed.

(** What a conversion makes of its character. *)
Definition conv_number (c : conversion) : bool :=
  match c with Cc | Cs | Cp => false | _ => true end.
Definition conv_signed (c : conversion) : bool := match c with Cd | Ci => true | _ => false end.
Definition conv_decimal (c : conversion) : bool :=
  match c with Cd | Ci | Cu => true | _ => false end.
Definition conv_upper (c : conversion) : bool := match c with CX => true | _ => false end.
Definition conv_base (c : conversion) : Z :=
  match c with Cx | CX => 16 | Co => 8 | Cb => 2 | _ => 10 end.

Lemma print_number_eq c p flags w pr a args st :
  conv_number c = true →
  print_number (conv_char c) (Spec p flags w pr (a :: args)) st =
  let G := base_flags (conv_signed c) (conv_decimal c) (conv_upper c) flags in
  if has G FLAGS_SIGNED then
    let v := if has G FLAGS_LONG_LONG then s64 (u64 a)
             else if has G FLAGS_LONG then s64 (u64 a)
             else if has G FLAGS_CHAR then s8 (s32 (u64 a))
             else if has G FLAGS_SHORT then s16 (s32 (u64 a)) else s32 (u64 a) in
    '(st, _) ← print_integer (STDIO_ABS v) (v <? 0) (conv_base c) pr w G st;
    Ok (st, args)
  else
    let G := clear G (Z.lor FLAGS_PLUS FLAGS_SPACE) in
    let v := if has G FLAGS_LONG_LONG then u64 a
             else if has G FLAGS_LONG then u64 a
             else STDIO_ABS (if has G FLAGS_CHAR then u8 (u32 (u64 a))
                             else if has G FLAGS_SHORT then u16 (u32 (u64 a))
                             else u32 (s32 (u64 a))) in
    '(st, _) ← print_integer v false (conv_base c) pr w G st;
    Ok (st, args).
Proof.
  by destruct c.
Qed.

Lemma base_flags_has (signed decimal upper : bool) flags k :
  0 ≤ k < 32 → k ≠ 0 → k ≠ 4 → k ≠ 5 →
  has (base_flags signed decimal upper flags) (Z.shiftl 1 k) =
  has flags (Z.shiftl 1 k) || (signed && (k =? 14)).
Proof.
  intros Hk H0 H4 H5. unfold base_flags. set (c := has _ FLAGS_PRECISION). clearbody c.
  assert (∀ i, i ≠ k → 0 ≤ i → Z.testbit (Z.shiftl 1 i) k = false) as Hoff
    by (intros; rewrite Z.shiftl_1_l; apply Z.pow2_bits_false; lia).
  unfold_flags. transitivity (has (if signed then Z.lor flags (Z.shiftl 1 14) else flags) (Z.shiftl 1 k)).
  - destruct c, decimal, upper; repeat first [rewrite has_unset by lia|rewrite has_set by lia];
      rewrite ?(Hoff 0), ?(Hoff 4), ?(Hoff 5) by lia; by rewrite ?andb_true_r, ?orb_false_r.
  - destruct signed; [|by rewrite orb_false_r]. rewrite has_set, (Z.shiftl_1_l 14), Z.pow2_bits_eqb by lia.
    by rewrite Z.eqb_sym.
Qed.

(** The tests for the length modifier. *)
Record length_word (flags : Z) (lm : length_mod) : Prop := LengthWord {
  lw_char : has flags FLAGS_CHAR = match lm with Lhh => true | _ => false end;
  lw_short : has flags FLAGS_SHORT = match lm with Lhh | Lh => true | _ => false end;
  lw_long : has flags FLAGS_LONG = match lm with Ll | Lll | Lz => true | _ => false end;
  lw_long_long : has flags FLAGS_LONG_LONG = match lm with Lll => true | _ => false end;
}.

Lemma length_word_base (signed decimal upper : bool) flags o lm :
  field_word flags o lm → length_word (base_flags signed decimal upper flags) lm.
Proof.
  intros [_ _ _ _ _ _ Hch Hsh Hlo Hll _ _ _]. unfold_flags.
  split; unfold_flags; rewrite base_flags_has by lia; cbn [Z.eqb Pos.eqb];
    by rewrite andb_false_r, orb_false_r.
Qed.

Lemma length_word_clear flags lm :
  length_word flags lm → length_word (clear flags (Z.lor FLAGS_PLUS FLAGS_SPACE)) lm.
Proof. intros [Hch Hsh Hlo Hll]. unfold_flags. by split; unfold_flags; flag_tests. Qed.

Lemma signed_argument flags lm a :
  length_word flags lm →
  (if has flags FLAGS_LONG_LONG then s64 (u64 a)
   else if has flags FLAGS_LONG then s64 (u64 a)
   else if has flags FLAGS_CHAR then s8 (s32 (u64 a))
   else if has flags FLAGS_SHORT then s16 (s32 (u64 a)) else s32 (u64 a)) = signed_value lm a.
Proof.
  intros [-> -> -> ->]. rewrite s8_s32_u64, s16_s32_u64, s32_of_u64, s64_u64. by destruct lm.
Qed.

Lemma unsigned_argument flags lm a :
  length_word flags lm →
  (if has flags FLAGS_LONG_LONG then u64 a
   else if has flags FLAGS_LONG then u64 a
   else STDIO_ABS (if has flags FLAGS_CHAR then u8 (u32 (u64 a))
                   else if has flags FLAGS_SHORT then u16 (u32 (u64 a))
                   else u32 (s32 (u64 a)))) = unsigned_value lm a.
Proof.
  intros [-> -> -> ->]. rewrite u8_u32_u64, u16_u32_u64, u32_s32_u64. pose proof (unsigned_value_range lm a).
  by destruct lm; try done; apply STDIO_ABS_small.
Qed.

(** Numbers and their arguments. *)
Lemma print_number_text c flags o lm p a args st strings text :
  device st → field_word flags o lm → opts_ok o →
  conv_number c = true → field_text strings o lm c a = Some text →
  print_number (conv_char c) (Spec p flags (o_width o) (precision_of o) (a :: args)) st =
  Ok (wrote text st, args).
Proof.
  intros Hd Hf Ho Hc Ht. rewrite print_number_eq by done. cbv zeta.
  assert (∀ v negative, integer_text v negative (conv_base c) (precision_of o) (o_width o)
      (number_flags (conv_signed c) (conv_decimal c) (conv_upper c) flags) = text →
    print_integer v negative (conv_base c) (precision_of o) (o_width o)
      (number_flags (conv_signed c) (conv_decimal c) (conv_upper c) flags) st =
    Ok (wrote text st, SYSTEM_OK)) as Hprint.
  { intros * <-. by apply print_integer_wrote, Ho. }
  assert (has (base_flags (conv_signed c) (conv_decimal c) (conv_upper c) flags) FLAGS_SIGNED =
    conv_signed c) as ->.
  { pose proof (fd_signed _ _ _ Hf) as Esg. unfold_flags. rewrite base_flags_has, Esg by lia. apply andb_true_r. }
  pose proof (length_word_base (conv_signed c) (conv_decimal c) (conv_upper c) flags o lm Hf) as Hlw.
  destruct (conv_signed c) eqn:Es.
  - rewrite (signed_argument _ lm) by done.
    assert (conv_base c = 10 ∧ conv_decimal c = true ∧ conv_upper c = false) as (Eb & Ed & Eu) by by destruct c.
    change (base_flags true ?d ?u flags) with (number_flags true d u flags).
    rewrite Hprint; [by rewrite bind_ok|]. rewrite Eb, Ed, Eu.
    assert (field_text strings o lm Cd a = Some text) as Ht' by by destruct c.
    unfold field_text in Ht'. destruct (Z.leb_spec (Z.of_nat (length (signed_body o (signed_value lm a)))) 32); [|done].
    injection Ht' as <-. by apply (signed_text flags o lm); [..|apply signed_value_range| |].
  - cbv zeta. rewrite (unsigned_argument _ lm) by by apply length_word_clear.
    change (clear (base_flags ?s ?d ?u flags) (Z.lor FLAGS_PLUS FLAGS_SPACE)) with (number_flags false d u flags).
    rewrite Hprint; [by rewrite bind_ok|].
    destruct c; try discriminate Hc; try discriminate Es; unfold field_text in Ht;
      try (destruct (o_hash o) eqn:Eh; [discriminate Ht|]);
      match type of Ht with (if ?x <=? _ then _ else _) = _ => destruct (Z.leb_spec x 32); [|discriminate Ht] end;
      injection Ht as <-; apply (unsigned_text flags o lm);
      try apply unsigned_value_range; try done; simpl; auto.
Qed.

(** ** Characters, strings and pointers *)

Lemma pad_wrote n width st :
  device st → pad n width st = Ok (wrote (replicate (Z.to_nat (width - n)) 32) st).
Proof. apply repeat_put_wrote. Qed.

(** A text between the padding of either side. *)
Lemma padded_wrote {B} flags o lm text n st (b : B) (k : io → outcome io) :
  device st → field_word flags o lm → n = Z.of_nat (length text) →
  (∀ st', device st' → io_mem st' = io_mem st → k st' = Ok (wrote text st')) →
  (st ← (if negb (has flags FLAGS_LEFT) then pad n (o_width o) st else Ok st);
   st ← k st;
   st ← (if has flags FLAGS_LEFT then pad n (o_width o) st else Ok st);
   Ok (st, b)) =
  Ok (wrote (spaces (o_left o) (o_width o) text) st, b).
Proof.
  intros Hd Hf -> Hk. rewrite (fd_left _ _ _ Hf). unfold spaces. destruct (o_left o); cbn [negb].
  - rewrite bind_ok, Hk, bind_ok, pad_wrote, bind_ok by (try apply device_wrote; done).
    by rewrite wrote_app.
  - rewrite pad_wrote, bind_ok, Hk, !bind_ok by (try apply device_wrote; done). by rewrite wrote_app.
Qed.

Lemma print_char_text flags o lm p a args st pr :
  device st → field_word flags o lm →
  print_char (Spec p flags (o_width o) pr (a :: args)) st =
  Ok (wrote (spaces (o_left o) (o_width o) [s8 (s32 a)]) st, args).
Proof.
  intros Hd Hf.
  rewrite <-(s32_of_u64 a).
  apply (padded_wrote flags o lm [s8 (s32 (u64 a))] 1 st args (put (s8 (s32 (u64 a))))); try done.
  intros. by apply put_wrote.
Qed.

(** The strings the arguments may point to. *)
Definition strings_at (m : mem) (fuel : nat) (strings : Z → option (list Z)) : Prop :=
  ∀ p s, strings p = Some s → p ≠ 0 ∧ cstring m p s ∧ (length s < fuel)%nat ∧ Z.of_nat (length s) < 2 ^ 31.

(** The loop of [%s]. *)
Lemma string_loop n m s (l : list Z) flags prec st :
  cstring m s l → io_mem st = m → device st → (length l < n)%nat → 0 ≤ prec < 2 ^ 64 →
  loop n (λ '(st, str, precision),
      c ← ldc (io_mem st) str;
      if negb (c =? 0) && (negb (has flags FLAGS_PRECISION) || negb (precision =? 0)) then
        st ← put c st;
        Ok (inl (st, u64 (str + 1), u64 (precision - 1)))
      else Ok (inr st)) (st, s, prec) =
  Ok (wrote (map s8 (if has flags FLAGS_PRECISION then take (Z.to_nat prec) l else l)) st).
Proof.
  intros Hs Hm Hd Hn Hp. pose proof (cs_at _ _ _ Hs).
  set (P := has flags FLAGS_PRECISION). clearbody P.
  cut (∀ k l2 prec st n, drop k l = l2 → (k ≤ length l)%nat → (length l2 < n)%nat → 0 ≤ prec < 2 ^ 64 →
    io_mem st = m → device st →
    loop n (λ '(st, str, precision),
      c ← ldc (io_mem st) str;
      if negb (c =? 0) && (negb P || negb (precision =? 0)) then
        st ← put c st;
        Ok (inl (st, u64 (str + 1), u64 (precision - 1)))
      else Ok (inr st)) (st, s + Z.of_nat k, prec) =
    Ok (wrote (map s8 (if P then take (Z.to_nat prec) l2 else l2)) st)).
  { intros Hc. specialize (Hc O l prec st n). rewrite Z.add_0_r in Hc. apply Hc; (done || lia). }
  clear prec st n Hm Hd Hn Hp.
  intros k l2. revert k. induction l2 as [|b l2 IH]; intros k prec st n Hk Hkl Hn Hp Hm Hd;
    (destruct n as [|n]; [simpl in Hn; lia|]); cbn [loop]; rewrite Hm.
  - assert (k = length l) as -> by (apply (f_equal length) in Hk; rewrite length_drop in Hk; simpl in Hk; lia).
    unfold ldc. rewrite (ld8_Some _ _ _ (cstring_end _ _ _ Hs)), !bind_ok. change (s8 0 =? 0) with true.
    cbn [negb andb]. rewrite bind_ok, take_nil, if_same. simpl. by rewrite wrote_nil.
  - assert (l !! k = Some b) as Hb.
    { rewrite <-(Nat.add_0_r k), <-lookup_drop, Hk. done. }
    destruct (cstring_byte _ _ _ _ _ Hs Hb) as [Hmb Hbr]. pose proof (lookup_lt_Some _ _ _ Hb).
    unfold ldc. rewrite (ld8_Some _ _ _ Hmb), !bind_ok, s8_char, (proj2 (Z.eqb_neq b 0)) by lia.
    cbn [negb andb]. destruct (negb P || negb (prec =? 0)) eqn:Eg.
    + rewrite put_wrote, !bind_ok by done.
      replace (u64 (s + Z.of_nat k + 1)) with (s + Z.of_nat (S k)) by (rewrite u64_small; lia).
      rewrite (IH (S k)); [| |lia|simpl in Hn; lia|apply u64_range|done|by apply device_wrote].
      * rewrite wrote_app. do 2 f_equal. destruct P; [|done].
        destruct (Z.eqb_spec prec 0); [done|]. rewrite u64_small by lia.
        replace (Z.to_nat prec) with (S (Z.to_nat (prec - 1))) by lia. done.
      * replace (S k) with (k + 1)%nat by lia. by rewrite <-drop_drop, Hk.
    + apply orb_false_iff in Eg as [HP%negb_false_iff Hz%negb_false_iff%Z.eqb_eq]. subst P prec.
      rewrite bind_ok. simpl. by rewrite wrote_nil.
Qed.

Lemma print_string_text fuel flags o lm strings p a args st text :
  device st → field_word flags o lm → opts_ok o → strings_at (io_mem st) fuel strings →
  field_text strings o lm Cs a = Some text →
  print_string fuel (Spec p flags (o_width o) (precision_of o) (a :: args)) st =
  Ok (wrote text st, args).
Proof.
  intros Hd Hf [_ Hpos] Hst Ht. unfold field_text in Ht.
  destruct (strings (u64 a)) as [s|] eqn:Es; [|done]. simpl in Ht. injection Ht as <-.
  destruct (Hst _ _ Es) as (Hnz & Hs & Hfu & Hlen).
  assert (0 ≤ precision_of o < 2 ^ 64) as Hpr.
  { unfold precision_of. destruct (o_precision o) as [n|]; simpl; [|lia].
    by apply Hpos. }
  set (text := match o_precision o with Some n => take (Z.to_nat n) s | None => s end).
  assert ((if has flags FLAGS_PRECISION then take (Z.to_nat (precision_of o)) s else s) = text) as Etext.
  { rewrite (fd_has_precision _ _ _ Hf). unfold precise, precision_of, text. by destruct (o_precision o). }
  unfold print_string. cbn [va_arg]. rewrite bind_ok, (proj2 (Z.eqb_neq _ 0)) by done.
  rewrite (strnlen_returns _ _ _ _ _ Hs); [|destruct (negb (precision_of o =? 0)); unfold MAX_POSSIBLE_BUFFER_SIZE; lia|done].
  rewrite bind_ok. set (len := if has flags FLAGS_PRECISION then _ else _).
  assert (len = Z.of_nat (length (map s8 text))) as ->.
  { unfold len. rewrite length_map, <-Etext, (fd_has_precision _ _ _ Hf).
    unfold precise, precision_of in *. destruct (o_precision o) as [n|]; simpl in *.
    - rewrite length_take. destruct (Z.eqb_spec n 0) as [->|]; cbn [negb].
      + destruct (Z.ltb_spec (Z.min (Z.of_nat (length s)) (MAX_POSSIBLE_BUFFER_SIZE + 1)) 0);
          unfold MAX_POSSIBLE_BUFFER_SIZE in *; lia.
      + destruct (Z.ltb_spec (Z.min (Z.of_nat (length s)) (n + 1)) n); lia.
    - unfold MAX_POSSIBLE_BUFFER_SIZE. lia. }
  apply (padded_wrote flags o lm (map s8 text) _ st args); [done|done|done|].
  intros st' Hd' Hm. rewrite <-Etext. by apply (string_loop fuel (io_mem st)).
Qed.

(** A pointer has at most sixteen digits. *)
Lemma pointer_fits (to_left : bool) v :
  0 ≤ v < 2 ^ 64 → Z.of_nat (length (unsigned_body (Opts true to_left false false true 18 None) 16 false v)) ≤ 32.
Proof.
  intros Hv. unfold unsigned_body, number_body, precise_digits, natural_digits. simpl o_hash. simpl o_precision.
  cbv iota. pose proof (number_digits_short 16 64 v 16 ltac:(lia) Hv) as Hd.
  set (ds := map _ _). assert (length ds ≤ 16)%nat as Hds.
  { unfold ds. rewrite length_map, length_rev. lia. }
  assert (length (prefix 16 false v ds) ≤ 2)%nat as Hpre by (unfold prefix; simpl; case_match; simpl; lia).
  simpl o_width. rewrite !length_app. destruct (_ && _); rewrite ?length_zeros, ?length_app; simpl; lia.
Qed.

Lemma print_pointer_text flags o lm strings p a args st text :
  device st → field_word flags o lm → field_text strings o lm Cp a = Some text →
  print_pointer (Spec p flags (o_width o) (precision_of o) (a :: args)) st = Ok (wrote text st, args).
Proof.
  intros Hd [Ez El Ep Es Eh Eu _ _ _ _ Epr Ept _] Ht. unfold field_text in Ht.
  destruct (o_plus o || o_space o || precise o) eqn:Eno; [done|].
  apply orb_false_iff in Eno as [[Hp Hs]%orb_false_iff Hpr]. rewrite Hp in Ep. rewrite Hs in Es.
  assert (precision_of o = 0) as Epz by (unfold precision_of, precise in *; by destruct (o_precision o)).
  unfold print_pointer. cbn [sp_flags sp_args sp_precision va_arg]. rewrite bind_ok, Epz.
  set (G := Z.lor flags (Z.lor FLAGS_ZEROPAD FLAGS_POINTER)).
  set (o' := Opts true (o_left o) false false true 18 None) in *.
  assert (flag_word G o' true false) as HG.
  { unfold G. unfold_flags. split; unfold_flags; rewrite ?has_lor; flag_tests; try done.
    by rewrite Epr. }
  change (8 * 2 + 2) with 18. destruct (u64 a =? 0) eqn:Ea.
  - rewrite output_reverse_wrote by (done || simpl; lia). rewrite bind_ok. do 3 f_equal.
    unfold justify. rewrite (fw_left _ _ _ _ HG), (fw_zero _ _ _ _ HG). simpl o_left. simpl.
    destruct (o_left o); by injection Ht as <-.
  - injection Ht as <-. rewrite print_integer_wrote by (done || lia). rewrite bind_ok. do 3 f_equal.
    apply (integer_text_spec (u64 a) false 16 G o' true false HG); try done.
    + apply u64_range.
    + split; [done|by left].
    + apply Z.eqb_neq in Ea. by intros [?|?].
    + by apply pointer_fits, u64_range.
Qed.

(** ** Formats *)

Lemma stop_conv c : stop (conv_char c).
Proof.
  destruct c; split_and!; try done; rewrite !not_elem_of_cons; split_and!; try done; apply not_elem_of_nil.
Qed.

Lemma stop_percent : stop 37.
Proof. split_and!; try done. rewrite !not_elem_of_cons; split_and!; try done; apply not_elem_of_nil. Qed.

(** A conversion's text is written, and its argument is used up. *)
Lemma print_spec_text fuel flags o lm strings c p a args st text :
  device st → field_word flags o lm → opts_ok o → strings_at (io_mem st) fuel strings →
  ldc (io_mem st) p = Ok (conv_char c) → field_text strings o lm c a = Some text →
  print_spec fuel (Spec p flags (o_width o) (precision_of o) (a :: args)) st =
  Ok (wrote text st, u64 (p + 1), args).
Proof.
  intros Hd Hf Ho Hs Hc Ht. unfold print_spec. cbn [sp_format]. rewrite Hc, bind_ok.
  destruct (conv_number c) eqn:En.
  - assert (is_number (conv_char c) = true) as -> by by destruct c.
    by rewrite (print_number_text c flags o lm p a args st strings text), bind_ok.
  - destruct c; try discriminate En; cbn [conv_char is_number Z.eqb Pos.eqb orb].
    + rewrite (print_char_text flags o lm), bind_ok by done. unfold field_text in Ht. by injection Ht as <-.
    + by rewrite (print_string_text fuel flags o lm strings p a args st text), bind_ok.
    + by rewrite (print_pointer_text flags o lm strings p a args st text), bind_ok.
Qed.

(** One turn of the loop over the format. *)
Lemma format_step_piece fuel strings p a l args args' text st :
  device st → strings_at (io_mem st) fuel strings → piece_ok p →
  chars_at (io_mem st) a (piece_chars p ++ l) → (length (piece_chars p) ≤ fuel)%nat →
  piece_text strings p args = Some (text, args') →
  format_step fuel (st, a, args) =
    Ok (inl (wrote text st, a + Z.of_nat (length (piece_chars p)), args')).
Proof.
  intros Hd Hs Hok Hc Hfu Ht. destruct p as [c| |f]; simpl piece_chars in *.
  - injection Ht as <- <-. destruct Hc as (Hc & Hu & _). destruct Hok as [Hr H37].
    rewrite (format_step_text _ _ _ _ c Hc), (proj2 (Z.eqb_neq c 0)) by lia.
    by rewrite put_wrote, bind_ok, Hu by done.
  - injection Ht as <- <-. pose proof Hc as (Hc1 & Hu & Hc2 & Hu2 & _).
    destruct (parse_spec_chars fuel (io_mem st) a (Field [] WNone PNone Lnone Cd) 37 l args
      (Opts false false false false false 0 None) args Hc stop_percent I I) as (flags & Ep & _); [done|done|].
    change (Z.of_nat (length (field_chars _))) with 1 in Ep.
    rewrite (format_step_spec _ _ _ _ _ Hc1 Ep). unfold print_spec. cbn [sp_format sp_args].
    rewrite Hc2, bind_ok.
    change (is_number 37) with false. change (37 =? 99) with false. change (37 =? 115) with false.
    change (37 =? 112) with false. change (37 =? 37) with true. cbv iota.
    rewrite put_wrote, !bind_ok by done. rewrite Hu2. do 4 f_equal. simpl. lia.
  - simpl in Ht. destruct (resolve f args) as [[o [|x args1]]|] eqn:Er; [done| |done].
    simpl in Ht. destruct (field_text strings o (fd_length f) (fd_conv f) x) as [t1|] eqn:Et1; [|done].
    simpl in Ht. injection Ht as <- <-. destruct Hok as [Hw Hpr]. pose proof Hc as (Hc1 & _).
    pose proof Hc as Hcs. unfold field_chars in Hc. rewrite <-app_comm_cons, <-!app_assoc in Hc.
    destruct (parse_spec_chars fuel (io_mem st) a f (conv_char (fd_conv f)) l
      args o (x :: args1) Hc (stop_conv _) Hw Hpr ltac:(simpl in Hfu; lia) Er) as (flags & Ep & Hf & Ho).
    rewrite (format_step_spec _ _ _ _ _ Hc1 Ep).
    assert (ldc (io_mem st) (a + Z.of_nat (length (field_chars f))) = Ok (conv_char (fd_conv f)) ∧
      u64 (a + Z.of_nat (length (field_chars f)) + 1) = a + Z.of_nat (length (field_chars f)) + 1) as [Hconv Hu].
    { pose proof Hc as Hc0. rewrite app_assoc, app_assoc, app_assoc in Hc0.
      rewrite app_comm_cons in Hc0. apply chars_at_app in Hc0 as [_ (Hc0 & Hu & _)].
      assert (length (field_chars f) = length (37 :: ((map flag_char (fd_flags f) ++ width_chars (fd_width f)) ++
        precision_chars (fd_precision f)) ++ length_chars (fd_length f))) as ->; [|done].
      unfold field_chars. simpl. rewrite !length_app. simpl. lia. }
    rewrite (print_spec_text fuel flags o _ strings (fd_conv f) _ x args1 st t1), bind_ok by done.
    rewrite Hu. do 4 f_equal. simpl. lia.
Qed.

(** The loop over the format. *)
Lemma format_loop n fuel strings ps a args text st :
  device st → strings_at (io_mem st) fuel strings → Forall piece_ok ps →
  chars_at (io_mem st) a (format_chars ps ++ [0]) →
  (length ps < n)%nat → (length (format_chars ps) ≤ fuel)%nat →
  format_text strings ps args = Some text →
  loop n (format_step fuel) (st, a, args) = Ok (wrote text st, SYSTEM_OK).
Proof.
  revert n a args text st. induction ps as [|p ps IH]; intros n a args text st Hd Hs Hok Hc Hn Hfu Ht;
    (destruct n as [|n]; [simpl in Hn; lia|]); cbn [loop].
  - injection Ht as <-. destruct Hc as (Hc & _). rewrite (format_step_text _ _ _ _ 0 Hc) by done.
    simpl. by rewrite wrote_nil.
  - inversion Hok as [|? ? Hp Hok']; subst. simpl in Hn, Ht.
    unfold format_chars in *. simpl concat in *. fold (format_chars ps) in *.
    rewrite length_app in Hfu. rewrite <-app_assoc in Hc.
    destruct (piece_text strings p args) as [[t args']|] eqn:Et; [|done]. simpl in Ht.
    destruct (format_text strings ps args') as [t2|] eqn:Et2; [|done]. injection Ht as <-.
    rewrite (format_step_piece fuel strings p a _ args args' t st Hd Hs Hp Hc), bind_ok by (lia || done).
    apply chars_at_app in Hc as [_ Hc].
    rewrite (IH n _ args' t2); [by rewrite wrote_app|by apply device_wrote|done..|lia|lia|done].
Qed.

Lemma piece_chars_ascii p : piece_ok p → Forall (λ c, 0 < c < 128) (piece_chars p).
Proof.
  assert (∀ ds, decimal ds → Forall (λ c, 0 < c < 128) (map (λ d, 48 + d) ds)) as Hds.
  { intros ds Hds. apply Forall_map. eapply Forall_impl; [|exact Hds]. intros d Hd. simpl in *. lia. }
  destruct p as [c| |[fs w pr lm cv]]; simpl; intros Hok.
  - constructor; [lia|done].
  - by repeat constructor.
  - destruct Hok as [Hw Hp]. constructor; [lia|]. unfold field_chars. cbn [fd_flags fd_width fd_precision fd_length fd_conv].
    rewrite !Forall_app. split_and!.
    + apply Forall_map, Forall_true. by intros [].
    + destruct w; simpl; [done|by apply Hds, Hw|by repeat constructor].
    + destruct pr; simpl; [done|constructor; [lia|by apply Hds]|by repeat constructor].
    + by destruct lm; repeat constructor.
    + by destruct cv; repeat constructor.
Qed.

Lemma format_chars_ascii ps : Forall piece_ok ps → Forall (λ c, 0 < c < 128) (format_chars ps).
Proof.
  unfold format_chars. induction 1 as [|p ps Hp Hps IH]; simpl; [done|].
  apply Forall_app. split; [by apply piece_chars_ascii|done].
Qed.

Lemma format_chars_length ps : (length ps ≤ length (format_chars ps))%nat.
Proof.
  unfold format_chars. induction ps as [|p ps IH]; simpl; [done|]. rewrite length_app.
  destruct p; simpl; lia.
Qed.

Lemma vfprintf_writes fuel strings ps fmt args text st :
  device st → cstring (io_mem st) fmt (format_chars ps) → Forall piece_ok ps →
  strings_at (io_mem st) fuel strings → (length (format_chars ps) < fuel)%nat →
  format_text strings ps args = Some text →
  vfprintf fuel fmt args st = Ok (wrote text st, SYSTEM_OK).
Proof.
  intros Hd Hs Hok Hst Hf Ht. unfold vfprintf, vsnprintf_internal, format_string.
  pose proof (format_chars_length ps).
  rewrite (format_loop fuel fuel strings ps fmt args text st Hd Hst Hok); [|  |lia|lia|done].
  - rewrite bind_ok. unfold append_termination. simpl. by destruct Hd as [[w ->] _].
  - by apply cstring_chars_at, format_chars_ascii.
Qed.

(** * Properties *)

(** C17. [vfprintf] is the C standard's.  Of a format made of characters, [%%] and
    conversions (any flags, widths and precisions, with or without stars, the
    length modifiers, and the conversions of integers, characters, strings and
    pointers), given the arguments it asks for and a stream with a function, it
    ends, answers [SYSTEM_OK] and writes exactly the text the standard gives for
    the format.  The standard's text is computed on lists, from the fields; the
    code's limits are that a number has no more than 32 characters without its
    spaces, and that strings are shorter than 2^31. *)
Theorem vfprintf_renders fuel strings ps fmt args text st :
  device st → cstring (io_mem st) fmt (format_chars ps) → Forall piece_ok ps →
  strings_at (io_mem st) fuel strings → (length (format_chars ps) < fuel)%nat →
  format_text strings ps args = Some text →
  vfprintf fuel fmt args st = Ok (wrote text st, SYSTEM_OK).
Proof. apply vfprintf_writes. Qed.

(** ["%5s|%#06lx"], printed with itself for the string and 255. *)
Definition sample_format : list piece :=
  [Conv (Field [] (WDigits [5]) PNone Lnone Cs); Char 124;
   Conv (Field [FHash; FZero] (WDigits [6]) PNone Ll Cx)].

Lemma vfprintf_renders_witness :
  vfprintf 20 4096 [4096; 255] (sample_device (text_mem (format_chars sample_format))) =
  Ok (wrote ([37; 53; 115; 124; 37; 35; 48; 54; 108; 120; 124; 48; 120; 48; 48; 102; 102])
        (sample_device (text_mem (format_chars sample_format))), SYSTEM_OK).
Proof.
  apply (vfprintf_renders 20 (λ p, if p =? 4096 then Some (format_chars sample_format) else None)
           sample_format).
  - apply sample_device_ok.
  - apply text_string; reflexivity.
  - repeat constructor; try lia; by eexists _, [].
  - intros p s. destruct (Z.eqb_spec p 4096) as [->|]; [|done]. intros [= <-].
    split; [done|]. split; [apply text_string; reflexivity|]. split; [simpl; lia|simpl; lia].
  - simpl. lia.
  - reflexivity.
Defined.
