(* ===== verification/Logger.v ===== *)
(** * The log: [kernel/logger.cpp], [logger.h], [styling.h], [glue/libc/assert.c]

    A message is a line on [stderr]: colour, tag, an arrow, the formatted text and
    the reset of the colour.  Where the linker puts a string literal is a parameter,
    a function from its characters to its address. *)
From S2P Require Import Prelude Mem MemCopy MemSet MemCmp CString Ctype Strto Stdio Print PrintText.
From S2P Require Import PrintSpec PrintNumber PrintParse PrintFormat.
From Stdlib Require String Ascii.
Import (notations) String.

(** The characters of a literal. *)
Definition chars_of (s : String.string) : list Z :=
  map (λ a, Z.of_N (Ascii.N_of_ascii a)) (String.list_ascii_of_string s).

(** ** [styling.h] and [logger.h] *)

Definition RESET_TEXT : list Z := 27 :: chars_of "[0m".
Definition newline : list Z := [10].

Definition TEXT_COLOR (r g b : String.string) : list Z :=
  27 :: chars_of "[38;2;" ++ chars_of r ++ chars_of ";" ++ chars_of g ++ chars_of ";" ++
  chars_of b ++ chars_of "m".

Definition LOG_LEVEL_TRACE : Z := 0.
Definition LOG_LEVEL_INFO : Z := 1.
Definition LOG_LEVEL_DEBUG : Z := 2.
Definition LOG_LEVEL_WARNING : Z := 3.
Definition LOG_LEVEL_ERROR : Z := 4.
Definition LOG_LEVEL_PANIC : Z := 5.

(** [struct LogStyle]: six pointers of each kind. *)
Record LogStyle := { colors : list Z; tags : list Z }.

Definition DEFAULT_TEXT_COLOR : list (list Z) :=
  [TEXT_COLOR "152" "251" "152"; TEXT_COLOR "102" "255" "102"; TEXT_COLOR "173" "216" "230";
   TEXT_COLOR "255" "255" "102"; TEXT_COLOR "255" "165" "0"; TEXT_COLOR "255" "77" "77"].
Definition DEFAULT_LEVEL_TAG : list (list Z) :=
  map chars_of ["[T]"; "[I]"; "[D]"; "[W]"; "[E]"; "[P]"]%string.

(** ** Operations *)

Section logger.
Context (lit : list Z → Z).

(** The static [style] at start-up, the one [kernel_main] sets, and the console:
    the style and the stream [stderr] with what was written to it. *)
Definition style_start : LogStyle := {| colors := replicate 6 0; tags := replicate 6 0 |}.
Definition default_style : LogStyle :=
  {| colors := map lit DEFAULT_TEXT_COLOR; tags := map lit DEFAULT_LEVEL_TAG |}.

Record console := Console { style : LogStyle; stderr : io }.
Definition set_stderr (st : io) (c : console) : console := Console (style c) st.

(** An element of an array of pointers; outside of it there is nothing to read. *)
Definition array_get (l : list Z) (i : Z) : outcome Z :=
  if i <? 0 then Fault else of_option (l !! Z.to_nat i).

Definition get_log_color (log_level : Z) (c : console) : outcome Z :=
  array_get (colors (style c)) log_level.
Definition get_level_tag (log_level : Z) (c : console) : outcome Z :=
  array_get (tags (style c)) log_level.

Definition vlog_msg (fuel : nat) (color tag format : Z) (args : list Z) (st : io) : outcome io :=
  '(st, _) ← fprintf fuel (lit (chars_of "%s%s -> ")) [color; tag] st;
  '(st, _) ← vfprintf fuel format args st;
  '(st, _) ← fputs fuel (lit (RESET_TEXT ++ newline)) st;
  Ok st.

Definition log_set_style (s : LogStyle) (c : console) : console := Console s (stderr c).

Definition log_msg (fuel : nat) (log_level format : Z) (args : list Z) (c : console) :
    outcome console :=
  color ← get_log_color log_level c;
  tag ← get_level_tag log_level c;
  st ← vlog_msg fuel color tag format args (stderr c);
  Ok (set_stderr st c).

(** The console with which [log_panik] calls [arch::halt], which does not return. *)
Definition log_panik (fuel : nat) (format : Z) (args : list Z) (c : console) : outcome console :=
  color ← get_log_color LOG_LEVEL_PANIC c;
  tag ← get_level_tag LOG_LEVEL_PANIC c;
  '(st, _) ← fprintf fuel
    (lit (chars_of "%s---------------- FATAL ERROR ----------------" ++ RESET_TEXT ++ newline))
    [color] (stderr c);
  st ← vlog_msg fuel color tag format args st;
  '(st, _) ← fprintf fuel
    (lit (chars_of "%s-------------- STOPPING SYSTEM --------------" ++ RESET_TEXT ++ newline))
    [color] st;
  Ok (set_stderr st c).

Definition log_begin_intialization (fuel : nat) (component : Z) (c : console) : outcome console :=
  color ← get_log_color LOG_LEVEL_INFO c;
  tag ← get_level_tag LOG_LEVEL_INFO c;
  '(st, _) ← fprintf fuel (lit (chars_of "%s%s -> Initializing %s")) [color; tag; component] (stderr c);
  Ok (set_stderr st c).

Definition log_end_intialization (fuel : nat) (c : console) : outcome console :=
  '(st, _) ← fprintf fuel (lit (chars_of " ... OK!" ++ RESET_TEXT ++ newline)) [] (stderr c);
  Ok (set_stderr st c).

(** The macros of [logger.h]. *)
Definition log_trace (fuel : nat) := log_msg fuel LOG_LEVEL_TRACE.
Definition log_info (fuel : nat) := log_msg fuel LOG_LEVEL_INFO.
Definition log_debug (fuel : nat) := log_msg fuel LOG_LEVEL_DEBUG.
Definition log_warning (fuel : nat) := log_msg fuel LOG_LEVEL_WARNING.
Definition log_error (fuel : nat) := log_msg fuel LOG_LEVEL_ERROR.
Definition log_panic (fuel : nat) := log_msg fuel LOG_LEVEL_PANIC.

(** [__assert_fail]: two messages, the second of which halts. *)
Definition assert_fail (fuel : nat) (assertion file line function : Z) (c : console) :
    outcome console :=
  c ← log_panic fuel
    (lit (34 :: chars_of "%s" ++ [34] ++ chars_of ": Failed assertion: line %d: function %s"))
    [file; line; function] c;
  log_panik fuel (lit (chars_of "assertion: %s")) [assertion] c.
End logger.

(** * Lemmas *)

(** ** Formats of text and fields *)

Definition text_pieces (l : list Z) : list piece := map Char l.
Definition string_piece : piece := Conv (Field [] WNone PNone Lnone Cs).

Lemma format_text_app strings ps1 ps2 args text1 args1 text2 :
  (∀ ps, format_text strings (ps1 ++ ps) args =
     (text ← format_text strings ps args1; Some (text1 ++ text))) →
  format_text strings ps2 args1 = Some text2 →
  format_text strings (ps1 ++ ps2) args = Some (text1 ++ text2).
Proof. intros H E. by rewrite H, E. Qed.

Lemma format_text_chars strings l ps args text :
  format_text strings ps args = Some text →
  format_text strings (text_pieces l ++ ps) args = Some (l ++ text).
Proof. intros H. induction l as [|c l IH]; simpl; [done|]. by rewrite IH. Qed.

Lemma format_text_string strings p s ps args text :
  strings (u64 p) = Some s → format_text strings ps args = Some text →
  format_text strings (string_piece :: ps) (p :: args) = Some (map s8 s ++ text).
Proof.
  intros Hp H. simpl. rewrite Hp. simpl. rewrite H. unfold spaces. simpl o_left. simpl o_width.
  by replace (Z.to_nat _) with O by lia.
Qed.

Lemma format_text_conv strings f ps v args t text :
  resolve f (v :: args) = Some (Opts false false false false false 0 None, v :: args) →
  field_text strings (Opts false false false false false 0 None) (fd_length f) (fd_conv f) v = Some t →
  format_text strings ps args = Some text →
  format_text strings (Conv f :: ps) (v :: args) = Some (t ++ text).
Proof. intros Hr Ht H. cbn [format_text piece_text]. rewrite Hr. simpl. rewrite Ht. simpl. by rewrite H. Qed.

(** [%d] of a number that is not negative. *)
Lemma format_text_decimal strings v ps args text :
  0 ≤ v < 2 ^ 31 → format_text strings ps args = Some text →
  format_text strings (Conv (Field [] WNone PNone Lnone Cd) :: ps) (v :: args) =
  Some (natural_digits 10 false v ++ text).
Proof.
  intros Hv. apply format_text_conv; [done|]. cbn [field_text fd_length fd_conv signed_value].
  rewrite s32_small by lia. unfold signed_body, number_body, precise_digits, sign.
  rewrite (proj2 (Z.ltb_ge v 0)), Z.abs_eq by lia. cbn [o_zero o_left o_plus o_space o_width o_precision].
  pose proof (number_digits_short 10 64 v 10 ltac:(lia) ltac:(lia)) as Hl.
  cbn [app negb andb precise o_precision]. unfold natural_digits at 1.
  rewrite length_map, length_rev, (proj2 (Z.leb_le _ _)) by lia. unfold spaces.
  by replace (Z.to_nat _) with O by lia.
Qed.

(** The check of a format that can be run. *)
Definition decimalb (ds : list Z) : bool := forallb (λ d, (0 <=? d) && (d <? 10)) ds.
Definition piece_okb (p : piece) : bool :=
  match p with
  | Char c => (0 <? c) && (c <? 128) && negb (c =? 37)
  | Percent => true
  | Conv f =>
      match fd_width f with
      | WDigits ds => decimalb ds && negb (default 0 (head ds) =? 0)
      | _ => true
      end &&
      match fd_precision f with PDigits ds => decimalb ds | _ => true end
  end.

Lemma decimalb_ok ds : decimalb ds = true → decimal ds.
Proof. induction ds as [|d ds IH]; cbn [decimalb forallb]; [constructor|].
  intros [Hd Hds]%andb_prop. constructor; [lia|by apply IH].
Qed.

Lemma pieces_okb_ok ps : forallb piece_okb ps = true → Forall piece_ok ps.
Proof.
  induction ps as [|p ps IH]; [constructor|]. cbn [forallb]. intros [Hp Hps]%andb_prop.
  constructor; [|by apply IH]. destruct p as [c| |f]; simpl in *; [lia|done|].
  apply andb_prop in Hp as [Hw Hp]. split.
  - destruct (fd_width f) as [|ds|]; simpl; [done| |done]. apply andb_prop in Hw as [Hd Hh].
    split; [by apply decimalb_ok|]. destruct ds as [|d ds]; [done|]. exists d, ds. simpl in *.
    split; [done|lia].
  - destruct (fd_precision f); [done|by apply decimalb_ok|done].
Qed.

(** ** Output *)

(** A device that takes every character. *)
Definition sound_device (st : io) : Prop :=
  device st ∧ ∃ w, write_func (io_file st) = Some w ∧ ∀ c, w c = SYSTEM_OK.

Lemma sound_device_wrote l st : sound_device st → sound_device (wrote l st).
Proof. intros [Hd Hw]. split; [by apply device_wrote|done]. Qed.

Lemma putc_sound c st : sound_device st → putc c st = Ok (wrote [c] st, SYSTEM_OK).
Proof.
  intros [Hd (w & Hw & Hok)]. unfold putc. cbn [set_position io_file write_func].
  rewrite Hw, Hok. unfold wrote, emit_char, set_position. simpl. by rewrite Hw.
Qed.

(** One round of the loop of [fputs]. *)
Lemma fputs_step st s l k b :
  sound_device st → cstring (io_mem st) s l → l !! k = Some b →
  (c ← ldc (io_mem st) (u64 (s + Z.of_nat k));
   '(st, r) ← putc c st;
   if negb (r =? SYSTEM_OK) then Ok (inr (st, SYSTEM_ERR_INTERNAL))
   else Ok (inl (A := io * Z) (B := io * Z) (st, u64 (Z.of_nat k + 1)))) =
  Ok (inl (wrote [s8 b] st, Z.of_nat (S k))).
Proof.
  intros Hd Hs Hb. destruct (cstring_byte _ _ _ _ _ Hs Hb) as [Hm Hbr].
  pose proof (lookup_lt_Some _ _ _ Hb). pose proof (cs_at _ _ _ Hs).
  rewrite !u64_small by lia. unfold ldc.
  rewrite (ld8_Some _ _ _ Hm), !bind_ok, putc_sound, bind_ok by done.
  change (negb (SYSTEM_OK =? SYSTEM_OK)) with false. cbv iota.
  by replace (Z.of_nat k + 1) with (Z.of_nat (S k)) by lia.
Qed.

Lemma fputs_sound fuel s l st :
  sound_device st → cstring (io_mem st) s l → (length l < fuel)%nat →
  fputs fuel s st = Ok (wrote (map s8 l) st, SYSTEM_OK).
Proof.
  intros Hd Hs Hf. unfold fputs. rewrite (strlen_returns _ _ _ _ Hs Hf), bind_ok, Nat2Z.id.
  cut (∀ l2 k n, drop k l = l2 → (k ≤ length l)%nat → (length l2 < n)%nat →
    loop n (λ '(st, i),
       if i <? Z.of_nat (length l) then
         c ← ldc (io_mem st) (u64 (s + i));
         '(st, r) ← putc c st;
         if negb (r =? SYSTEM_OK) then Ok (inr (st, SYSTEM_ERR_INTERNAL))
         else Ok (inl (st, u64 (i + 1)))
       else Ok (inr (st, SYSTEM_OK))) (wrote (map s8 (take k l)) st, Z.of_nat k) =
    Ok (wrote (map s8 l) st, SYSTEM_OK)).
  { intros Hc. rewrite <-(wrote_nil st) at 1 by apply Hd. apply (Hc l O); [done|lia|lia]. }
  intros l2. induction l2 as [|b l2 IH]; intros k n Hk Hkl Hn;
    (destruct n as [|n]; [simpl in Hn; lia|]); rewrite loop_S.
  - apply (f_equal length) in Hk. rewrite length_drop in Hk. simpl in Hk.
    assert (k = length l) as -> by lia. by rewrite Z.ltb_irrefl, firstn_all.
  - assert (l !! k = Some b) as Hb by (by rewrite <-(Nat.add_0_r k), <-lookup_drop, Hk).
    pose proof (lookup_lt_Some _ _ _ Hb). rewrite (proj2 (Z.ltb_lt _ _)) by lia.
    rewrite (fputs_step _ s l k b) by (done || by apply sound_device_wrote).
    rewrite bind_ok, wrote_app.
    change ([s8 b]) with (map s8 [b]). rewrite <-map_app, <-(take_S_r _ _ _ Hb).
    apply IH; [|lia|simpl in Hn; lia].
    replace (S k) with (k + 1)%nat by lia. by rewrite <-drop_drop, Hk.
Qed.

(** ** The lines of the log *)

(** A line of level [level] in the default style. *)
Definition line (level : Z) (text : list Z) : list Z :=
  nth (Z.to_nat level) DEFAULT_TEXT_COLOR [] ++ nth (Z.to_nat level) DEFAULT_LEVEL_TAG [] ++
  chars_of " -> " ++ text ++ RESET_TEXT ++ newline.

(** The same without a tag: what frames a fatal message. *)
Definition banner (text : list Z) : list Z :=
  nth (Z.to_nat LOG_LEVEL_PANIC) DEFAULT_TEXT_COLOR [] ++ text ++ RESET_TEXT ++ newline.
Definition fatal_banner : list Z :=
  banner (chars_of "---------------- FATAL ERROR ----------------").
Definition stop_banner : list Z :=
  banner (chars_of "-------------- STOPPING SYSTEM --------------").

(** The literals of [logger.cpp] and of the default style, and those of [assert.c]. *)
Definition prefix_format : list Z := chars_of "%s%s -> ".
Definition line_end : list Z := RESET_TEXT ++ newline.
Definition fatal_format : list Z :=
  chars_of "%s---------------- FATAL ERROR ----------------" ++ line_end.
Definition stop_format : list Z :=
  chars_of "%s-------------- STOPPING SYSTEM --------------" ++ line_end.
Definition begin_format : list Z := chars_of "%s%s -> Initializing %s".
Definition end_format : list Z := chars_of " ... OK!" ++ line_end.
Definition logger_literals : list (list Z) :=
  [prefix_format; line_end; fatal_format; stop_format; begin_format; end_format] ++
  DEFAULT_TEXT_COLOR ++ DEFAULT_LEVEL_TAG.
Definition place_format : list Z :=
  34 :: chars_of "%s" ++ [34] ++ chars_of ": Failed assertion: line %d: function %s".
Definition assertion_format : list Z := chars_of "assertion: %s".

Section writes.
Context (lit : list Z → Z) (fuel : nat) (strings : Z → option (list Z)).

(** A serial port that takes every character, strings, and the literals where the
    linker put them. *)
Record stream_ok (st : io) : Prop := {
  so_device : sound_device st;
  so_strings : strings_at (io_mem st) fuel strings;
  so_literals : Forall (λ l, strings (lit l) = Some l) logger_literals;
}.

(** The console after [kernel_main] has set the style. *)
Definition console_ok (c : console) : Prop :=
  stream_ok (stderr c) ∧ style c = default_style lit.

(** The console with more text on it. *)
Definition told (text : list Z) (c : console) : console := set_stderr (wrote text (stderr c)) c.

Lemma stream_ok_wrote text st : stream_ok st → stream_ok (wrote text st).
Proof. intros []. split; [by apply sound_device_wrote|done..]. Qed.

Lemma told_ok text c : console_ok c → console_ok (told text c).
Proof. intros []. split; [by apply stream_ok_wrote|done]. Qed.

Lemma told_told text1 text2 c : told text2 (told text1 c) = told (text1 ++ text2) c.
Proof. unfold told, set_stderr. simpl. by rewrite wrote_app. Qed.

(** Strings and literals. *)
Lemma string_place st p s : stream_ok st → strings p = Some s → u64 p = p.
Proof.
  intros [_ Hm _] Hp. destruct (Hm _ _ Hp) as (_ & Hs & _). pose proof (cs_at _ _ _ Hs).
  apply u64_small. lia.
Qed.

Lemma literal_string st l : stream_ok st → l ∈ logger_literals → strings (lit l) = Some l.
Proof. intros [_ _ Hl] Hin. by apply (proj1 (Forall_forall _ _) Hl), list_elem_of_In. Qed.

Lemma literal_s8 l : l ∈ logger_literals → map s8 l = l.
Proof.
  assert (Forall (λ l, map s8 l = l) logger_literals) as H.
  { apply (bool_decide_unpack _). by vm_compute. }
  intros Hl. by apply (proj1 (Forall_forall _ _) H), list_elem_of_In.
Qed.

Lemma format_text_literal st l ps args text :
  stream_ok st → l ∈ logger_literals → format_text strings ps args = Some text →
  format_text strings (string_piece :: ps) (lit l :: args) = Some (l ++ text).
Proof.
  intros Hst Hl Ht. rewrite <-(literal_s8 l) at 2 by done.
  pose proof (literal_string _ _ Hst Hl) as E.
  apply format_text_string; [|done]. by rewrite (string_place _ _ _ Hst E).
Qed.

(** The colour and the tag of a level. *)
Definition level_color (level : Z) : list Z := nth (Z.to_nat level) DEFAULT_TEXT_COLOR [].
Definition level_tag (level : Z) : list Z := nth (Z.to_nat level) DEFAULT_LEVEL_TAG [].

Lemma level_literals level : 0 ≤ level < 6 →
  level_color level ∈ logger_literals ∧ level_tag level ∈ logger_literals.
Proof.
  intros Hl. split; apply elem_of_app; right; apply elem_of_app; [left|right];
    apply list_elem_of_In, nth_In; simpl length; lia.
Qed.

Lemma array_get_default l i :
  0 ≤ i < Z.of_nat (length l) → array_get (map lit l) i = Ok (lit (nth (Z.to_nat i) l [])).
Proof.
  intros Hi. unfold array_get. rewrite (proj2 (Z.ltb_ge _ _)) by lia.
  rewrite (list_lookup_fmap lit), (nth_lookup l).
  by destruct (lookup_lt_is_Some_2 l (Z.to_nat i)) as [x ->]; [lia|].
Qed.

Lemma get_default_style c level : console_ok c → 0 ≤ level < 6 →
  get_log_color level c = Ok (lit (level_color level)) ∧
  get_level_tag level c = Ok (lit (level_tag level)).
Proof.
  intros [_ Hst] Hl. unfold get_log_color, get_level_tag. rewrite Hst.
  split; by apply array_get_default.
Qed.

(** Formats that are strings in memory, literals of the log among them. *)
Lemma vfprintf_string ps fmt args text st :
  stream_ok st → strings fmt = Some (format_chars ps) → Forall piece_ok ps →
  format_text strings ps args = Some text →
  vfprintf fuel fmt args st = Ok (wrote text st, SYSTEM_OK).
Proof.
  intros [[Hd _] Hs _] Hf Hok Ht. destruct (Hs _ _ Hf) as (_ & Hc & Hl & _).
  by apply (vfprintf_writes fuel strings ps).
Qed.

Lemma fprintf_literal l ps args text st :
  stream_ok st → l ∈ logger_literals → l = format_chars ps → Forall piece_ok ps →
  format_text strings ps args = Some text →
  fprintf fuel (lit l) args st = Ok (wrote text st, SYSTEM_OK).
Proof.
  intros Hst Hl -> Hok Ht. apply (vfprintf_string ps); try done. by apply (literal_string st).
Qed.

Lemma fputs_literal l st :
  stream_ok st → l ∈ logger_literals →
  fputs fuel (lit l) st = Ok (wrote l st, SYSTEM_OK).
Proof.
  intros Hst Hl. pose proof (literal_string _ _ Hst Hl) as E.
  destruct (so_strings _ Hst _ _ E) as (_ & Hc & Hf & _).
  rewrite (fputs_sound fuel _ l) by (done || apply Hst). by rewrite literal_s8.
Qed.

Lemma vlog_msg_writes level ps fmt args text st :
  stream_ok st → 0 ≤ level < 6 →
  strings fmt = Some (format_chars ps) → Forall piece_ok ps →
  format_text strings ps args = Some text →
  vlog_msg lit fuel (lit (level_color level)) (lit (level_tag level)) fmt args st =
  Ok (wrote (line level text) st).
Proof.
  intros Hst Hl Hf Hok Ht. destruct (level_literals level Hl) as [Hcl Htl]. unfold vlog_msg.
  rewrite (fprintf_literal (chars_of "%s%s -> ")
    (string_piece :: string_piece :: text_pieces (chars_of " -> ")) _
    (level_color level ++ level_tag level ++ chars_of " -> ")); [|done|by left|done| |].
  - rewrite bind_ok, (vfprintf_string ps _ _ text), bind_ok by (done || by apply stream_ok_wrote).
    rewrite fputs_literal, bind_ok; [|by do 2 apply stream_ok_wrote|by right; left].
    f_equal. rewrite !wrote_app. unfold line. by rewrite <-!app_assoc.
  - by apply pieces_okb_ok.
  - by do 2 (eapply format_text_literal; [done|done|]).
Qed.

Lemma log_msg_writes level ps fmt args text c :
  console_ok c → 0 ≤ level < 6 →
  strings fmt = Some (format_chars ps) → Forall piece_ok ps →
  format_text strings ps args = Some text →
  log_msg lit fuel level fmt args c = Ok (told (line level text) c).
Proof.
  intros Hc Hl Hf Hok Ht. unfold log_msg. destruct (get_default_style c level Hc Hl) as [-> ->].
  rewrite !bind_ok. by rewrite (vlog_msg_writes level ps fmt args text) by (done || apply Hc).
Qed.

Lemma log_panik_writes ps fmt args text c :
  console_ok c → strings fmt = Some (format_chars ps) → Forall piece_ok ps →
  format_text strings ps args = Some text →
  log_panik lit fuel fmt args c =
  Ok (told (fatal_banner ++ line LOG_LEVEL_PANIC text ++ stop_banner) c).
Proof.
  intros Hc Hf Hok Ht. unfold log_panik.
  destruct (get_default_style c LOG_LEVEL_PANIC Hc) as [-> ->]; [done|]. rewrite !bind_ok.
  destruct (level_literals LOG_LEVEL_PANIC) as [Hcl _]; [done|].
  rewrite (fprintf_literal _ (string_piece ::
    text_pieces (chars_of "---------------- FATAL ERROR ----------------" ++ line_end)) _
    fatal_banner); [|by apply Hc|by do 2 right; left|done|by apply pieces_okb_ok|].
  2: { by eapply format_text_literal; [apply Hc|..]. }
  rewrite bind_ok, (vlog_msg_writes _ ps fmt args text), bind_ok
    by (done || by apply stream_ok_wrote, Hc).
  rewrite (fprintf_literal _ (string_piece ::
    text_pieces (chars_of "-------------- STOPPING SYSTEM --------------" ++ line_end)) _
    stop_banner);
    [|by do 2 apply stream_ok_wrote; apply Hc|by do 3 right; left|done|by apply pieces_okb_ok|].
  2: { by eapply format_text_literal; [apply Hc|..]. }
  rewrite bind_ok. unfold told. rewrite <-!wrote_app. done.
Qed.

Lemma begin_writes component name c :
  console_ok c → strings component = Some name →
  log_begin_intialization lit fuel component c =
  Ok (told (level_color LOG_LEVEL_INFO ++ level_tag LOG_LEVEL_INFO ++
            chars_of " -> Initializing " ++ map s8 name) c).
Proof.
  intros Hc Hn. unfold log_begin_intialization.
  destruct (get_default_style c LOG_LEVEL_INFO Hc) as [-> ->]; [done|]. rewrite !bind_ok.
  destruct (level_literals LOG_LEVEL_INFO) as [Hcl Htl]; [done|].
  rewrite (fprintf_literal _ (string_piece :: string_piece ::
    (text_pieces (chars_of " -> Initializing ") ++ [string_piece])) _
    (level_color LOG_LEVEL_INFO ++ level_tag LOG_LEVEL_INFO ++ chars_of " -> Initializing " ++
     map s8 name)); [done|by apply Hc|by do 4 right; left|done|by apply pieces_okb_ok|].
  do 2 (eapply format_text_literal; [apply Hc|done|]). apply format_text_chars.
  rewrite <-(app_nil_r (map s8 name)). apply format_text_string; [|done].
  by rewrite (string_place _ _ _ (proj1 Hc) Hn).
Qed.

Lemma end_writes c :
  console_ok c →
  log_end_intialization lit fuel c = Ok (told (chars_of " ... OK!" ++ line_end) c).
Proof.
  intros Hc. unfold log_end_intialization.
  by rewrite (fprintf_literal _ (text_pieces (chars_of " ... OK!" ++ line_end)) _
    (chars_of " ... OK!" ++ line_end));
    [|by apply Hc|by do 5 right; left|done|by apply pieces_okb_ok|].
Qed.

(** The two ends of an initialisation make one line. *)
Lemma initialization_writes component name c :
  console_ok c → strings component = Some name →
  (c ← log_begin_intialization lit fuel component c; log_end_intialization lit fuel c) =
  Ok (told (line LOG_LEVEL_INFO (chars_of "Initializing " ++ map s8 name ++ chars_of " ... OK!")) c).
Proof.
  intros Hc Hn. rewrite (begin_writes _ name), bind_ok, end_writes by (done || by apply told_ok).
  rewrite told_told. unfold line. by rewrite <-!app_assoc.
Qed.
End writes.

(** The formats of [__assert_fail]. *)
Definition place_pieces : list piece :=
  Char 34 :: string_piece :: text_pieces (34 :: chars_of ": Failed assertion: line ") ++
  Conv (Field [] WNone PNone Lnone Cd) :: text_pieces (chars_of ": function ") ++ [string_piece].
Definition assertion_pieces : list piece := text_pieces (chars_of "assertion: ") ++ [string_piece].

(** * Properties *)

(** C19. A message is one line.  Once the style is set and while the serial port
    takes every character, [log_msg] of any level writes exactly the colour and the
    tag of the level, an arrow, the text the C standard gives for the format and
    the arguments, the reset of the colour and a newline; it changes nothing else,
    so that messages follow one another. *)
Theorem log_msg_line lit fuel strings level ps fmt args text c :
  console_ok lit fuel strings c → 0 ≤ level < 6 →
  strings fmt = Some (format_chars ps) → Forall piece_ok ps →
  format_text strings ps args = Some text →
  log_msg lit fuel level fmt args c = Ok (told (line level text) c) ∧
  console_ok lit fuel strings (told (line level text) c).
Proof.
  intros Hc ????. split; [by eapply log_msg_writes|by apply told_ok].
Qed.

(** C40. A failed assertion reports and stops.  [__assert_fail] writes a line
    with the file, the line and the function, then the assertion between the two
    banners of a fatal error, and calls [halt] with that console. *)
Theorem assert_fail_report lit fuel strings assertion file ln function a f g c :
  console_ok lit fuel strings c →
  strings (lit place_format) = Some place_format →
  strings (lit assertion_format) = Some assertion_format →
  strings assertion = Some a → strings file = Some f → strings function = Some g →
  0 ≤ ln < 2 ^ 31 →
  assert_fail lit fuel assertion file ln function c =
  Ok (told (line LOG_LEVEL_PANIC
              (34 :: map s8 f ++ [34] ++ chars_of ": Failed assertion: line " ++
               natural_digits 10 false ln ++ chars_of ": function " ++ map s8 g) ++
            fatal_banner ++ line LOG_LEVEL_PANIC (chars_of "assertion: " ++ map s8 a) ++
            stop_banner) c).
Proof.
  intros Hc Hp Ha Has Hfi Hg Hln. unfold assert_fail, log_panic.
  assert (∀ p s, strings p = Some s → strings (u64 p) = Some s) as Hu.
  { intros p s Hps. by rewrite (string_place _ _ _ _ _ _ (proj1 Hc) Hps). }
  rewrite (log_msg_writes lit fuel strings LOG_LEVEL_PANIC place_pieces _ _
    (34 :: map s8 f ++ [34] ++ chars_of ": Failed assertion: line " ++
     natural_digits 10 false ln ++ chars_of ": function " ++ map s8 g));
    [|done|done|done|by apply pieces_okb_ok|].
  - rewrite bind_ok, (log_panik_writes lit fuel strings assertion_pieces _ _
      (chars_of "assertion: " ++ map s8 a));
      [by rewrite told_told|by apply told_ok|done|by apply pieces_okb_ok|].
    apply format_text_chars. rewrite <-(app_nil_r (map s8 a)). apply format_text_string; [|done].
    by apply Hu.
  - apply (format_text_chars _ [34]). apply format_text_string; [by apply Hu|].
    rewrite app_assoc. apply format_text_chars. apply format_text_decimal; [done|].
    apply format_text_chars. rewrite <-(app_nil_r (map s8 g)). apply format_text_string; [|done].
    by apply Hu.
Qed.

(** ** A concrete console *)

Fixpoint holdsb (m : mem) (s : Z) (l : list Z) : bool :=
  match l with
  | [] => true
  | b :: l => bool_decide (m !! s = Some b) && holdsb m (s + 1) l
  end.

Definition cstringb (m : mem) (s : Z) (l : list Z) : bool :=
  forallb (λ b, (0 <? b) && (b <? 2 ^ 8)) l && (0 <? s) &&
  (s + Z.of_nat (length l) + 1 <? 2 ^ 64) && holdsb m s (l ++ [0]).

Lemma holdsb_ok m s l : holdsb m s l = true → holds m s l.
Proof.
  revert s. induction l as [|b l IH]; intros s H; [by intros i b|].
  apply andb_prop in H as [Hb Hl]. apply bool_decide_eq_true in Hb.
  intros [|i] c Hc; simpl in Hc.
  - injection Hc as <-. by rewrite Z.add_0_r.
  - rewrite <-(IH _ Hl _ _ Hc). f_equal. lia.
Qed.

Lemma cstringb_ok m s l : cstringb m s l = true → 0 < s ∧ cstring m s l.
Proof.
  intros [[[Hl Hs]%andb_prop He]%andb_prop Hh]%andb_prop. split; [lia|]. split.
  - clear -Hl. induction l as [|b l IH]; [constructor|].
    cbn [forallb] in Hl. apply andb_prop in Hl as [Hb Hl]. constructor; [lia|by apply IH].
  - lia.
  - by apply holdsb_ok.
Qed.

(** Strings in slots of 128 bytes from 4096 on. *)
Definition image (ls : list (list Z)) : list Z :=
  concat (map (λ l, take 128 (l ++ replicate 128 0)) ls).
Definition image_lit (ls : list (list Z)) (l : list Z) : Z :=
  4096 + 128 * Z.of_nat (default 0%nat (fst <$> list_find (l =.) ls)).
Definition image_strings (ls : list (list Z)) (p : Z) : option (list Z) :=
  if (p <? 4096) || negb ((p - 4096) mod 128 =? 0) then None
  else ls !! Z.to_nat ((p - 4096) / 128).

Lemma image_strings_at ls fuel m :
  (128 <= fuel)%nat →
  forallb (λ i, match ls !! i with
                | Some l => (Z.of_nat (length l) <? 128) && cstringb m (4096 + 128 * Z.of_nat i) l
                | None => false
                end) (seq 0 (length ls)) = true →
  strings_at m fuel (image_strings ls).
Proof.
  intros Hf H p s. unfold image_strings.
  destruct (Z.ltb_spec p 4096); [done|]. destruct (Z.eqb_spec ((p - 4096) mod 128) 0) as [Hm|]; [|done].
  simpl. intros Hs. pose proof (lookup_lt_Some _ _ _ Hs) as Hlt.
  rewrite forallb_forall in H. specialize (H (Z.to_nat ((p - 4096) / 128))).
  rewrite Hs in H. replace (4096 + _) with p in H by dlia.
  destruct (andb_prop _ _ (H ltac:(apply in_seq; lia))) as [Hl [Hp Hc]%cstringb_ok].
  split_and!; [lia|done|lia|lia].
Qed.

(** The image of the log, with what a failed assertion in [a.c] prints. *)
Definition sample_image : list (list Z) :=
  logger_literals ++ [place_format; assertion_format; chars_of "x"; chars_of "a.c"; chars_of "f"].
Definition sample_console : console :=
  Console (default_style (image_lit sample_image))
    (sample_device (list_to_map (imap (λ i b, (4096 + Z.of_nat i, b)) (image sample_image)))).

Lemma sample_console_ok :
  console_ok (image_lit sample_image) 128 (image_strings sample_image) sample_console.
Proof.
  split; [|done]. split.
  - split; [apply sample_device_ok|]. by exists (λ _, 0).
  - apply image_strings_at; [lia|]. by vm_compute.
  - apply (bool_decide_unpack _). by vm_compute.
Qed.

Lemma log_msg_line_witness :
  log_msg (image_lit sample_image) 128 LOG_LEVEL_INFO
    (image_lit sample_image assertion_format)
    [image_lit sample_image (chars_of "x")] sample_console =
  Ok (told (line LOG_LEVEL_INFO (chars_of "assertion: x")) sample_console).
Proof.
  refine (proj1 (log_msg_line _ _ _ LOG_LEVEL_INFO assertion_pieces _ _ _ _
    sample_console_ok _ _ _ _)).
  - done.
  - by vm_compute.
  - by apply pieces_okb_ok.
  - by vm_compute.
Defined.

Lemma assert_fail_report_witness :
  assert_fail (image_lit sample_image) 128 (image_lit sample_image (chars_of "x"))
    (image_lit sample_image (chars_of "a.c")) 7 (image_lit sample_image (chars_of "f"))
    sample_console =
  Ok (told (line LOG_LEVEL_PANIC (34 :: chars_of "a.c" ++ [34] ++
              chars_of ": Failed assertion: line 7: function f") ++
            fatal_banner ++ line LOG_LEVEL_PANIC (chars_of "assertion: x") ++ stop_banner)
        sample_console).
Proof.
  rewrite (assert_fail_report _ _ _ _ _ _ _ (chars_of "x") (chars_of "a.c") (chars_of "f") _
    sample_console_ok); [done|by vm_compute..].
Defined.
