(* ===== verification/LogText.v ===== *)
(** * Messages with literal formats

    The formats the kernel's messages have, read as the pieces they are written
    from, and the text of each piece; [render] computes the text of a message. *)
From S2P Require Import Prelude Mem MemCopy MemSet MemCmp CString Ctype Strto Stdio Print PrintText.
From S2P Require Import PrintSpec PrintNumber PrintParse PrintFormat Logger.
Import (notations) String.

Definition text (s : String.string) : list Z := chars_of s.

(** Numbers as [%lx], [%.16lx] and [%lu] have them. *)
Definition hex (v : Z) : list Z := natural_digits 16 false (u64 v).
Definition hex16 (v : Z) : list Z := zeros (16 - Z.of_nat (length (hex v))) ++ hex v.
Definition decimal_text (v : Z) : list Z := natural_digits 10 false (u64 v).

(** The pieces of the formats used here. *)
Definition hex_piece : piece := Conv (Field [] WNone PNone Ll Cx).
Definition hex16_piece : piece := Conv (Field [] WNone (PDigits [1; 6]) Ll Cx).
Definition decimal_piece : piece := Conv (Field [] WNone PNone Lnone Cd).
Definition pointer_piece : piece := Conv (Field [] WNone PNone Lnone Cp).
Definition long_piece : piece := Conv (Field [] WNone PNone Ll Cu).

Fixpoint pieces_of (l : list Z) : list piece :=
  match l with
  | 37 :: 115 :: l => string_piece :: pieces_of l
  | 37 :: 100 :: l => decimal_piece :: pieces_of l
  | 37 :: 112 :: l => pointer_piece :: pieces_of l
  | 37 :: 108 :: 117 :: l => long_piece :: pieces_of l
  | 37 :: 108 :: 120 :: l => hex_piece :: pieces_of l
  | 37 :: 46 :: 49 :: 54 :: 108 :: 120 :: l => hex16_piece :: pieces_of l
  | c :: l => Char c :: pieces_of l
  | [] => []
  end.

Lemma hex_length v : (length (hex v) <= 16)%nat.
Proof.
  unfold hex, natural_digits. rewrite length_map, length_rev. pose proof (u64_range v).
  pose proof (number_digits_short 16 64 (u64 v) 16 ltac:(lia) ltac:(lia)). lia.
Qed.

Lemma spaces_none l : spaces false 0 l = l.
Proof. unfold spaces. by replace (Z.to_nat _) with O by lia. Qed.

Lemma format_text_field strings f ps v args o t rest :
  resolve f (v :: args) = Some (o, v :: args) →
  field_text strings o (fd_length f) (fd_conv f) v = Some t →
  format_text strings ps args = Some rest →
  format_text strings (Conv f :: ps) (v :: args) = Some (t ++ rest).
Proof.
  intros Hr Ht H. cbn [format_text piece_text]. rewrite Hr. simpl. rewrite Ht. simpl. by rewrite H.
Qed.

Lemma format_text_hex strings v ps args rest :
  format_text strings ps args = Some rest →
  format_text strings (hex_piece :: ps) (v :: args) = Some (hex v ++ rest).
Proof.
  apply format_text_field with (o := Opts false false false false false 0 None); [done|].
  cbn [field_text fd_length fd_conv unsigned_value hex_piece]. unfold unsigned_body.
  cbn [o_hash number_body app o_zero andb precise_digits o_precision o_left o_width].
  fold (hex v). pose proof (hex_length v). rewrite (proj2 (Z.leb_le _ _)) by lia.
  by rewrite spaces_none.
Qed.

(** [%lu]. *)
Lemma format_text_long strings v ps args rest :
  format_text strings ps args = Some rest →
  format_text strings (long_piece :: ps) (v :: args) = Some (decimal_text v ++ rest).
Proof.
  apply format_text_field with (o := Opts false false false false false 0 None); [done|].
  cbn [field_text fd_length fd_conv unsigned_value long_piece]. unfold unsigned_body.
  cbn [o_hash number_body app o_zero andb precise_digits o_precision o_left o_width].
  fold (decimal_text v). assert (length (decimal_text v) <= 20)%nat.
  { unfold decimal_text, natural_digits. rewrite length_map, length_rev. pose proof (u64_range v).
    pose proof (number_digits_short 20 64 (u64 v) 10 ltac:(lia) ltac:(lia)). lia. }
  rewrite (proj2 (Z.leb_le _ _)) by lia. by rewrite spaces_none.
Qed.

(** Sixteen digits, as the precision or the width of a pointer makes them. *)
Lemma precise_hex v :
  precise_digits (Opts false false false false false 0 (Some 16)) 16 false (u64 v) = hex16 v.
Proof.
  unfold precise_digits, hex16. cbn [o_precision]. destruct (Z.eqb_spec (u64 v) 0) as [E|]; [|done].
  unfold hex. by rewrite E.
Qed.

Lemma hex16_length v : length (hex16 v) = 16%nat.
Proof.
  unfold hex16, zeros. rewrite length_app, length_replicate. pose proof (hex_length v). lia.
Qed.

Lemma format_text_hex16 strings v ps args rest :
  format_text strings ps args = Some rest →
  format_text strings (hex16_piece :: ps) (v :: args) = Some (hex16 v ++ rest).
Proof.
  apply format_text_field with (o := Opts false false false false false 0 (Some 16)); [done|].
  cbn [field_text fd_length fd_conv unsigned_value hex16_piece]. unfold unsigned_body.
  rewrite precise_hex. cbn [o_hash number_body app o_zero andb o_left o_width].
  by rewrite hex16_length, spaces_none.
Qed.

Lemma format_text_pointer strings v ps args rest :
  u64 v ≠ 0 → format_text strings ps args = Some rest →
  format_text strings (pointer_piece :: ps) (v :: args) = Some (text "0x" ++ hex16 v ++ rest).
Proof.
  intros Hv. rewrite app_assoc.
  apply format_text_field with (o := Opts false false false false false 0 None); [done|].
  cbn [field_text fd_length fd_conv pointer_piece o_plus o_space o_left orb precise o_precision].
  rewrite (proj2 (Z.eqb_neq _ _)) by done. f_equal. unfold unsigned_body.
  cbn [o_hash precise_digits o_precision]. fold (hex v). unfold prefix.
  rewrite (proj2 (Z.eqb_neq (u64 v) 0)) by done. cbn [Z.eqb Pos.eqb]. unfold number_body.
  cbn [o_zero o_left precise o_precision negb andb o_width app length].
  pose proof (hex_length v).
  assert (zeros (18 - Z.of_nat (S (S (length (hex v))))) ++ hex v = hex16 v) as ->.
  { unfold hex16. do 2 f_equal. lia. }
  unfold spaces. cbn [length]. by rewrite hex16_length.
Qed.

Lemma format_text_char strings x ps args rest :
  format_text strings ps args = Some rest →
  format_text strings (Char x :: ps) args = Some (x :: rest).
Proof. intros H. cbn [format_text piece_text]. simpl. by rewrite H. Qed.

(** ** Tactics *)

(** A [%s] whose argument is a string in memory; a file with strings of its own
    kind says how they are rendered. *)
Ltac render_string := apply format_text_string; [eassumption|].

(** Renders a format, piece by piece. *)
Ltac render_pieces :=
  lazymatch goal with
  | |- format_text _ (Char _ :: _) _ = _ => apply format_text_char; render_pieces
  | |- format_text _ [] [] = _ => exact eq_refl
  | |- format_text _ (Conv (Field [] WNone PNone Ll Cx) :: _) _ = _ =>
      apply format_text_hex; render_pieces
  | |- format_text _ (Conv (Field [] WNone (PDigits _) Ll Cx) :: _) _ = _ =>
      apply format_text_hex16; render_pieces
  | |- format_text _ (Conv (Field [] WNone PNone Ll Cu) :: _) _ = _ =>
      apply format_text_long; render_pieces
  | |- format_text _ (Conv (Field [] WNone PNone Lnone Cd) :: _) _ = _ =>
      apply format_text_decimal; [lia|render_pieces]
  | |- format_text _ (Conv (Field [] WNone PNone Lnone Cp) :: _) _ = _ =>
      apply format_text_pointer; [lia|render_pieces]
  | |- format_text _ (Conv (Field [] WNone PNone Lnone Cs) :: _) _ = _ =>
      render_string; render_pieces
  end.
Ltac render :=
  lazymatch goal with
  | |- format_text _ (pieces_of ?l) _ = _ =>
      let ps := eval vm_compute in (pieces_of l) in change (pieces_of l) with ps
  end; render_pieces.

(** The text of a message is the one given. *)
Ltac rendered :=
  etransitivity; [render|]; f_equal; rewrite ?app_nil_r; reflexivity.

(** A decidable fact about literals. *)
Ltac listed := apply (bool_decide_unpack _); by vm_compute.

(** ** Messages *)

(** A format is the characters of its pieces. *)
Definition format_ok (l : list Z) : bool :=
  bool_decide (l = format_chars (pieces_of l)) && forallb piece_okb (pieces_of l).

Section messages.
Context (lit : list Z → Z) (fuel : nat) (strings : Z → option (list Z)).

Lemma told_nil c : console_ok lit fuel strings c → told [] c = c.
Proof using Type.
  intros [[[Hd _] _ _] _]. unfold told. rewrite wrote_nil by done. by destruct c.
Qed.

Lemma literal_msg_writes level l args t c :
  console_ok lit fuel strings c → 0 ≤ level < 6 → strings (lit l) = Some l → format_ok l = true →
  format_text strings (pieces_of l) args = Some t →
  log_msg lit fuel level (lit l) args c = Ok (told (line level t) c).
Proof using Type.
  intros Hc Hl Hs [E%bool_decide_eq_true Hok]%andb_prop Ht.
  apply (log_msg_writes lit fuel strings level (pieces_of l)); try done; [by rewrite <-E|].
  by apply pieces_okb_ok.
Qed.

Lemma literal_panik_writes l args t c :
  console_ok lit fuel strings c → strings (lit l) = Some l → format_ok l = true →
  format_text strings (pieces_of l) args = Some t →
  log_panik lit fuel (lit l) args c =
  Ok (told (fatal_banner ++ line LOG_LEVEL_PANIC t ++ stop_banner) c).
Proof using Type.
  intros Hc Hs [E%bool_decide_eq_true Hok]%andb_prop Ht.
  apply (log_panik_writes lit fuel strings (pieces_of l)); try done; [by rewrite <-E|].
  by apply pieces_okb_ok.
Qed.
End messages.
