(* ===== verification/BuddyBits.v ===== *)
(** * Bits of the buddy allocator: [kernel/memory/buddy_alloc.h]

    The bit counting and integer routines at the end of the header (the 1-based
    highest bit, the next power of two, the integer square root) and the
    char-backed bitset the allocation tree is stored in.  A bitset is the
    address of its first byte in the memory. *)
From S2P Require Import Prelude Mem Bitmap.

(** ** Bits and integers *)

Definition popcount_lookup : list Z :=
   [0; 1; 1; 2; 1; 2; 2; 3; 1; 2; 2; 3; 2; 3; 3; 4; 1; 2; 2; 3; 2; 3; 3; 4; 2; 3; 3; 4; 3; 4; 4; 5;
    1; 2; 2; 3; 2; 3; 3; 4; 2; 3; 3; 4; 3; 4; 4; 5; 2; 3; 3; 4; 3; 4; 4; 5; 3; 4; 4; 5; 4; 5; 5; 6;
    1; 2; 2; 3; 2; 3; 3; 4; 2; 3; 3; 4; 3; 4; 4; 5; 2; 3; 3; 4; 3; 4; 4; 5; 3; 4; 4; 5; 4; 5; 5; 6;
    2; 3; 3; 4; 3; 4; 4; 5; 3; 4; 4; 5; 4; 5; 5; 6; 3; 4; 4; 5; 4; 5; 5; 6; 4; 5; 5; 6; 5; 6; 6; 7;
    1; 2; 2; 3; 2; 3; 3; 4; 2; 3; 3; 4; 3; 4; 4; 5; 2; 3; 3; 4; 3; 4; 4; 5; 3; 4; 4; 5; 4; 5; 5; 6;
    2; 3; 3; 4; 3; 4; 4; 5; 3; 4; 4; 5; 4; 5; 5; 6; 3; 4; 4; 5; 4; 5; 5; 6; 4; 5; 5; 6; 5; 6; 6; 7;
    2; 3; 3; 4; 3; 4; 4; 5; 3; 4; 4; 5; 4; 5; 5; 6; 3; 4; 4; 5; 4; 5; 5; 6; 4; 5; 5; 6; 5; 6; 6; 7;
    3; 4; 4; 5; 4; 5; 5; 6; 4; 5; 5; 6; 5; 6; 6; 7; 4; 5; 5; 6; 5; 6; 6; 7; 5; 6; 6; 7; 6; 7; 7; 8].

Definition popcount_byte (b : Z) : Z := nth (Z.to_nat b) popcount_lookup 0.

(** [all_set] and [count] of [highest_bit_position], pairwise. *)
Definition highest_bit_steps : list (Z * Z) :=
  [(4294967295, 32); (65535, 16); (255, 8); (15, 4); (7, 2); (3, 1); (1, 1)].

Definition highest_bit_step (vr : Z * Z) (sc : Z * Z) : Z * Z :=
  let '(value, result) := vr in
  let '(all_set, count) := sc in
  if all_set <=? value then (Z.shiftr value count, u64 (result + count)) else (value, result).

Definition highest_bit_position (value : Z) : Z :=
  let '(value, result) := foldl highest_bit_step (value, 0) highest_bit_steps in
  u64 (result + value).

Definition two_to_the_power_of (order : Z) : Z := u64 (Z.shiftl 1 order).

Definition ceiling_power_of_two (value : Z) : Z :=
  let value := u64 (value + (if value =? 0 then 1 else 0)) in
  two_to_the_power_of (u64 (highest_bit_position (u64 (value + value - 1)) - 1)).

(** [while(cursor > op) cursor >>= 2]. *)
Definition sqrt_cursor_body (op cursor : Z) : outcome (Z + Z) :=
  if op <? cursor then Ok (inl (Z.shiftr cursor 2)) else Ok (inr cursor).

(** The second loop; its state is [(op, result, cursor)]. *)
Definition sqrt_body (s : Z * Z * Z) : outcome (Z * Z * Z + Z) :=
  let '(op, result, cursor) := s in
  if cursor =? 0 then Ok (inr result) else
  let '(op, result) :=
    if u64 (result + cursor) <=? op
    then (u64 (op - u64 (result + cursor)), u64 (result + u64 (2 * cursor)))
    else (op, result) in
  Ok (inl (op, Z.shiftr result 1, Z.shiftr cursor 2)).

(** Both loops divide [cursor] by four and end at zero: 33 turns suffice. *)
Definition integer_square_root (op : Z) : outcome Z :=
  let SIZE_MAX := 2 ^ 64 - 1 in
  cursor ← loop 33 (sqrt_cursor_body op) (Z.shiftr (SIZE_MAX - Z.shiftr SIZE_MAX 1) 1);
  loop 33 sqrt_body (op, 0, cursor).

(** ** The bitset *)

Definition bitset_sizeof (elements : Z) : Z := u64 (u64 (elements + 8) - 1) / 8.

Definition bitset_index_mask : list Z := [1; 2; 4; 8; 16; 32; 64; 128].

Definition index_mask (i : Z) : Z := nth (Z.to_nat i) bitset_index_mask 0.

Definition bitset_set (m : mem) (bitset pos : Z) : outcome mem :=
  let bucket := pos / 8 in
  let index := pos mod 8 in
  x ← ld8 m (u64 (bitset + bucket));
  st8 m (u64 (bitset + bucket)) (Z.lor x (index_mask index)).

Definition bitset_clear (m : mem) (bitset pos : Z) : outcome mem :=
  let bucket := pos / 8 in
  let index := pos mod 8 in
  x ← ld8 m (u64 (bitset + bucket));
  st8 m (u64 (bitset + bucket)) (Z.land x (Z.lnot (index_mask index))).

Definition bitset_test (m : mem) (bitset pos : Z) : outcome bool :=
  let bucket := pos / 8 in
  let index := pos mod 8 in
  x ← ld8 m (u64 (bitset + bucket));
  Ok (has x (index_mask index)).

Definition bitset_char_mask : list (list Z) :=
  [[1; 3; 7; 15; 31; 63; 127; 255]; [0; 2; 6; 14; 30; 62; 126; 254];
   [0; 0; 4; 12; 28; 60; 124; 252]; [0; 0; 0; 8; 24; 56; 120; 248];
   [0; 0; 0; 0; 16; 48; 112; 240]; [0; 0; 0; 0; 0; 32; 96; 224];
   [0; 0; 0; 0; 0; 0; 64; 192]; [0; 0; 0; 0; 0; 0; 0; 128]].

Definition char_mask (i j : Z) : Z :=
  nth (Z.to_nat j) (nth (Z.to_nat i) bitset_char_mask []) 0.

Record bitset_range_t := BitsetRange {
  from_bucket : Z;
  to_bucket : Z;
  from_index : Z;
  to_index : Z;
}.

Definition bitset_range (from_pos to_pos : Z) : bitset_range_t :=
  {| from_bucket := from_pos / 8; to_bucket := to_pos / 8;
     from_index := from_pos mod 8; to_index := to_pos mod 8 |}.

(** [bitset[bucket] op= mask] *)
Definition bitset_update (m : mem) (bitset bucket : Z) (op : Z → Z) : outcome mem :=
  x ← ld8 m (u64 (bitset + bucket));
  st8 m (u64 (bitset + bucket)) (op x).

(** [while(++from_bucket != to_bucket) bitset[from_bucket] = v]; the counter
    meets [to_bucket] after their difference in turns. *)
Definition bitset_fill_body (bitset to v : Z) (s : mem * Z) : outcome (mem * Z + mem) :=
  let '(m, from) := s in
  let from := u64 (from + 1) in
  if from =? to then Ok (inr m) else
  m ← st8 m (u64 (bitset + from)) v;
  Ok (inl (m, from)).

Definition bitset_set_range (m : mem) (bitset : Z) (range : bitset_range_t) : outcome mem :=
  if from_bucket range =? to_bucket range
  then bitset_update m bitset (from_bucket range)
         (λ x, Z.lor x (char_mask (from_index range) (to_index range)))
  else
    m ← bitset_update m bitset (from_bucket range)
          (λ x, Z.lor x (char_mask (from_index range) 7));
    m ← bitset_update m bitset (to_bucket range)
          (λ x, Z.lor x (char_mask 0 (to_index range)));
    loop (Z.to_nat (u64 (to_bucket range - from_bucket range)))
      (bitset_fill_body bitset (to_bucket range) 255) (m, from_bucket range).

Definition bitset_clear_range (m : mem) (bitset : Z) (range : bitset_range_t) : outcome mem :=
  if from_bucket range =? to_bucket range
  then bitset_update m bitset (from_bucket range)
         (λ x, Z.land x (Z.lnot (char_mask (from_index range) (to_index range))))
  else
    m ← bitset_update m bitset (from_bucket range)
          (λ x, Z.land x (Z.lnot (char_mask (from_index range) 7)));
    m ← bitset_update m bitset (to_bucket range)
          (λ x, Z.land x (Z.lnot (char_mask 0 (to_index range))));
    loop (Z.to_nat (u64 (to_bucket range - from_bucket range)))
      (bitset_fill_body bitset (to_bucket range) 0) (m, from_bucket range).

(** [while(++from_bucket != to_bucket) result += popcount_byte(...)] *)
Definition bitset_count_body (m : mem) (bitset to : Z) (s : Z * Z) : outcome (Z * Z + Z) :=
  let '(result, from) := s in
  let from := u64 (from + 1) in
  if from =? to then Ok (inr result) else
  x ← ld8 m (u64 (bitset + from));
  Ok (inl (u64 (result + popcount_byte x), from)).

Definition bitset_count_range (m : mem) (bitset : Z) (range : bitset_range_t) : outcome Z :=
  if from_bucket range =? to_bucket range
  then
    x ← ld8 m (u64 (bitset + from_bucket range));
    Ok (popcount_byte (Z.land x (char_mask (from_index range) (to_index range))))
  else
    x ← ld8 m (u64 (bitset + from_bucket range));
    y ← ld8 m (u64 (bitset + to_bucket range));
    let result := popcount_byte (Z.land x (char_mask (from_index range) 7)) +
                  popcount_byte (Z.land y (char_mask 0 (to_index range))) in
    loop (Z.to_nat (u64 (to_bucket range - from_bucket range)))
      (bitset_count_body m bitset (to_bucket range)) (result, from_bucket range).

(** One turn of either shift: the bit at [at] is written to [dest]. *)
Definition bitset_move (m : mem) (bitset at_ dest : Z) : outcome mem :=
  b ← bitset_test m bitset at_;
  if (b : bool) then bitset_set m bitset dest else bitset_clear m bitset dest.

Definition bitset_shift_left_body (bitset from_pos length by_ : Z) (s : mem * Z)
    : outcome (mem * Z + mem) :=
  let '(m, i) := s in
  if negb (i <? length) then Ok (inr m) else
  let at_ := u64 (from_pos + i) in
  m ← bitset_move m bitset at_ (u64 (at_ - by_));
  Ok (inl (m, u64 (i + 1))).

Definition bitset_shift_left (m : mem) (bitset from_pos to_pos by_ : Z) : outcome mem :=
  let length := u64 (to_pos - from_pos) in
  m ← loop (S (Z.to_nat length)) (bitset_shift_left_body bitset from_pos length by_) (m, 0);
  bitset_clear_range m bitset (bitset_range length (u64 (length + by_ - 1))).

Definition bitset_shift_right_body (bitset from_pos by_ : Z) (s : mem * Z)
    : outcome (mem * Z + mem) :=
  let '(m, length) := s in
  if negb (0 <=? length) then Ok (inr m) else
  let at_ := u64 (from_pos + u64 length) in
  m ← bitset_move m bitset at_ (u64 (at_ + by_));
  Ok (inl (m, length - 1)).

(** [length] is a [ssize_t]: the loop runs [length + 1] times, down to 0. *)
Definition bitset_shift_right (m : mem) (bitset from_pos to_pos by_ : Z) : outcome mem :=
  let length := s64 (s64 to_pos - s64 from_pos) in
  m ← loop (S (Z.to_nat (length + 1))) (bitset_shift_right_body bitset from_pos by_) (m, length);
  bitset_clear_range m bitset (bitset_range from_pos (u64 (from_pos + by_ - 1))).

(** ** What a bitset represents *)

(** Bit [p] of the bitset at [a]. *)
Definition bit (m : mem) (a p : Z) : bool :=
  match m !! (a + p / 8) with
  | Some x => Z.testbit x (p mod 8)
  | None => false
  end.

(** The [n] bytes at [a] are mapped and their addresses do not wrap. *)
Record bytes_at (m : mem) (a n : Z) : Prop := BytesAt {
  ba_range : 0 ≤ a ∧ a + n ≤ 2 ^ 64;
  ba_map : mapped m a n;
  ba_bytes : bytes_ok m;
}.

(** [m'] is [m] but for bytes of [lo .. hi - 1], and has the same domain. *)
Record mem_frame (m m' : mem) (lo hi : Z) : Prop := MemFrame {
  mf_out : ∀ x, ¬ (lo ≤ x < hi) → m' !! x = m !! x;
  mf_dom : ∀ x, is_Some (m' !! x) ↔ is_Some (m !! x);
  mf_bytes : bytes_ok m → bytes_ok m';
}.

(** The number of positions among the [n] from [from] on that satisfy [f]. *)
Fixpoint count (f : Z → bool) (from : Z) (n : nat) : Z :=
  match n with
  | O => 0
  | S n' => Z.b2z (f from) + count f (from + 1) n'
  end.

(** * Lemmas *)

(** ** Integers *)

(** The 1-based position of the highest bit. *)
Definition bit_length (x : Z) : Z := if x =? 0 then 0 else Z.log2 x + 1.

Lemma bit_length_pos x : 0 < x → bit_length x = Z.log2 x + 1.
Proof. intros. unfold bit_length. by rewrite (proj2 (Z.eqb_neq _ _)) by lia. Qed.

Lemma bit_length_lt_pow2 x c : 0 ≤ x → 0 ≤ c → bit_length x ≤ c ↔ x < 2 ^ c.
Proof.
  intros Hx Hc. unfold bit_length. destruct (Z.eqb_spec x 0) as [->|].
  { split; [|lia]. intros _. apply Z.pow_pos_nonneg; lia. }
  rewrite (Z.log2_lt_pow2 x c) by lia. lia.
Qed.

Lemma bit_length_range x : 0 ≤ x < 2 ^ 64 → 0 ≤ bit_length x ≤ 64.
Proof.
  intros Hx. split; [|by apply bit_length_lt_pow2; lia].
  unfold bit_length. destruct (x =? 0); [lia|]. pose proof (Z.log2_nonneg x). lia.
Qed.

(** A step that shifts by [c] when the value is at least [2 ^ c - 1]. *)
Lemma bit_length_shift x c :
  0 ≤ x → 0 ≤ c → 2 ^ c - 1 ≤ x → bit_length x = c + bit_length (Z.shiftr x c).
Proof.
  intros Hx Hc Hle. rewrite Z.shiftr_div_pow2 by done.
  destruct (decide (x = 2 ^ c - 1)) as [E|E].
  - rewrite Z.div_small by lia. change (bit_length 0) with 0. apply Z.le_antisymm.
    + rewrite Z.add_0_r. apply bit_length_lt_pow2; lia.
    + destruct (decide (c = 0)) as [->|].
      { unfold bit_length. destruct (x =? 0); pose proof (Z.log2_nonneg x); lia. }
      assert (2 ^ (c - 1) ≤ x).
      { replace c with (c - 1 + 1) in E by lia. rewrite Z.pow_add_r in E by lia.
        pose proof (Z.pow_pos_nonneg 2 (c - 1)). lia. }
      pose proof (Z.pow_pos_nonneg 2 (c - 1) ltac:(lia) ltac:(lia)).
      rewrite bit_length_pos by lia. pose proof (Z.log2_le_mono (2 ^ (c - 1)) x).
      rewrite Z.log2_pow2 in * by lia. lia.
  - assert (2 ^ c ≤ x) by lia. pose proof (Z.pow_pos_nonneg 2 c).
    assert (0 < x / 2 ^ c) by (apply Z.div_str_pos; lia).
    rewrite !bit_length_pos by lia.
    rewrite <-Z.shiftr_div_pow2, Z.log2_shiftr by lia.
    pose proof (Z.log2_le_mono (2 ^ c) x). rewrite Z.log2_pow2 in * by lia. lia.
Qed.

Lemma returns_eq {A} (o : outcome A) (a : A) : returns o (λ x, x = a) → o = Ok a.
Proof. intros (x & -> & ->)%returns_inv. done. Qed.

(** What the steps of [highest_bit_position] keep: the result and the length of
    what is left make up the length of [x], and what is left is at most [M]. *)
Definition highest_bit_inv (x M : Z) (vr : Z * Z) : Prop :=
  0 ≤ vr.1 ≤ M ∧ 0 ≤ vr.2 ∧ vr.2 + bit_length vr.1 = bit_length x.

Lemma highest_bit_step_ok x M s c vr :
  highest_bit_inv x M vr → bit_length x ≤ 64 → 0 ≤ c → 2 ^ c - 1 ≤ s →
  highest_bit_inv x (Z.max (s - 1) (M / 2 ^ c)) (highest_bit_step vr (s, c)).
Proof.
  destruct vr as [v r]. unfold highest_bit_inv, highest_bit_step. cbn [fst snd].
  intros (Hv & Hr & Hb) Hx Hc Hs. destruct (Z.leb_spec s v); cbn [fst snd]; [|lia].
  pose proof (bit_length_shift v c ltac:(lia) Hc ltac:(lia)) as E.
  pose proof (Z.pow_pos_nonneg 2 c ltac:(lia) Hc).
  rewrite Z.shiftr_div_pow2 in * by done.
  assert (0 ≤ v / 2 ^ c) by (apply Z.div_pos; lia).
  assert (v / 2 ^ c ≤ M / 2 ^ c) by (apply Z.div_le_mono; lia).
  assert (0 ≤ bit_length (v / 2 ^ c)).
  { unfold bit_length. destruct (_ =? 0); [lia|].
    pose proof (Z.log2_nonneg (v / 2 ^ c)). lia. }
  rewrite u64_small by lia. lia.
Qed.

Lemma highest_bit_position_bit_length x :
  0 ≤ x < 2 ^ 64 → highest_bit_position x = bit_length x.
Proof.
  intros Hx. pose proof (bit_length_range x Hx) as Hb.
  unfold highest_bit_position. destruct (foldl _ _ _) as [v r] eqn:E.
  assert (highest_bit_inv x 1 (v, r)) as (Hv & Hr & Hvr).
  { rewrite <-E. unfold highest_bit_steps. cbn [foldl].
    apply (highest_bit_step_ok x 3); [|lia..].
    apply (highest_bit_step_ok x 6); [|lia..].
    apply (highest_bit_step_ok x 15); [|lia..].
    apply (highest_bit_step_ok x 255); [|lia..].
    apply (highest_bit_step_ok x 65535); [|lia..].
    apply (highest_bit_step_ok x (2 ^ 32 - 1)); [|lia..].
    apply (highest_bit_step_ok x (2 ^ 64 - 1)); [|lia..].
    unfold highest_bit_inv. cbn [fst snd]. lia. }
  cbn [fst snd] in *. assert (bit_length v = v) as Hbv.
  { assert (v = 0 ∨ v = 1) as [-> | ->] by lia; done. }
  rewrite u64_small; lia.
Qed.

Lemma two_to_the_power_of_pow2 k : 0 ≤ k < 64 → two_to_the_power_of k = 2 ^ k.
Proof.
  intros Hk. unfold two_to_the_power_of. rewrite Z.shiftl_mul_pow2, Z.mul_1_l by lia.
  apply u64_small. pose proof (Z.pow_pos_nonneg 2 k).
  pose proof (Z.pow_lt_mono_r 2 k 64). lia.
Qed.

Lemma ceiling_power_of_two_log2_up x :
  0 ≤ x ≤ 2 ^ 63 → ceiling_power_of_two x = 2 ^ Z.log2_up (Z.max x 1).
Proof.
  intros Hx. unfold ceiling_power_of_two.
  replace (x + (if x =? 0 then 1 else 0)) with (Z.max x 1)
    by (destruct (Z.eqb_spec x 0); lia).
  set (y := Z.max x 1). assert (1 ≤ y ≤ 2 ^ 63) as Hy by lia.
  rewrite (u64_small y), (u64_small (y + y - 1)) by lia.
  rewrite highest_bit_position_bit_length, bit_length_pos by lia.
  replace (y + y - 1) with (2 * (y - 1) + 1) by lia.
  replace (Z.log2 (2 * (y - 1) + 1) + 1 - 1) with (Z.log2_up y).
  2:{ destruct (decide (y = 1)) as [->|]; [done|].
      rewrite Z.log2_up_eqn, Z.log2_succ_double by lia.
      replace (Z.pred y) with (y - 1) by lia. lia. }
  assert (0 ≤ Z.log2_up y < 64) as Hk.
  { split; [apply Z.log2_up_nonneg|]. pose proof (Z.log2_up_le_mono y (2 ^ 63)).
    rewrite Z.log2_up_pow2 in * by lia. lia. }
  by rewrite u64_small, two_to_the_power_of_pow2 by lia.
Qed.

Lemma log2_up_range x : 0 ≤ x ≤ 2 ^ 63 → 0 ≤ Z.log2_up (Z.max x 1) < 64.
Proof.
  intros Hx. split; [apply Z.log2_up_nonneg|].
  pose proof (Z.log2_up_le_mono (Z.max x 1) (2 ^ 63) ltac:(lia)).
  rewrite Z.log2_up_pow2 in * by lia. lia.
Qed.

Lemma le_pow2_log2_up x : x ≤ 2 ^ Z.log2_up (Z.max x 1).
Proof.
  destruct (decide (x ≤ 1)).
  { rewrite Z.max_r by lia. by change (2 ^ Z.log2_up 1) with 1. }
  rewrite Z.max_l by lia. apply Z.log2_up_spec. lia.
Qed.

(** [ceiling_power_of_two] is the least power of two that is no less than
    its argument, for every argument that has one in a [size_t]. *)
Lemma ceiling_power_of_two_least x :
  0 ≤ x ≤ 2 ^ 63 →
  ∃ k, 0 ≤ k < 64 ∧ ceiling_power_of_two x = 2 ^ k ∧ x ≤ 2 ^ k ∧
    ∀ j, 0 ≤ j → x ≤ 2 ^ j → k ≤ j.
Proof.
  intros Hx. exists (Z.log2_up (Z.max x 1)).
  rewrite ceiling_power_of_two_log2_up by done.
  split; [by apply log2_up_range|]. split; [done|]. split; [apply le_pow2_log2_up|].
  intros j Hj Hxj. apply Z.log2_up_le_pow2; [lia..|].
  pose proof (Z.pow_pos_nonneg 2 j). lia.
Qed.

Lemma ceiling_power_of_two_least_witness :
  0 ≤ 640 ≤ 2 ^ 63 ∧
  ∃ k, 0 ≤ k < 64 ∧ ceiling_power_of_two 640 = 2 ^ k ∧ 640 ≤ 2 ^ k ∧
    ∀ j, 0 ≤ j → 640 ≤ 2 ^ j → k ≤ j.
Proof. split; [lia|]. apply (ceiling_power_of_two_least 640). lia. Defined.

(** ** The integer square root *)

Lemma pow4 k : 0 ≤ k → 4 ^ k = 2 ^ k * 2 ^ k.
Proof. intros. change 4 with (2 * 2). by rewrite Z.pow_mul_l. Qed.

Lemma shiftr_pow4 k : 0 < k → Z.shiftr (4 ^ k) 2 = 4 ^ (k - 1).
Proof.
  intros. rewrite Z.shiftr_div_pow2 by lia. replace k with (k - 1 + 1) at 1 by lia.
  rewrite Z.pow_add_r by lia. by rewrite Z.div_mul.
Qed.

(** The first loop stops at the highest power of four that is no more than [n],
    or at zero. *)
Lemma sqrt_cursor_returns n k fuel (Q : Z → Prop) :
  0 ≤ n → 0 ≤ k → (Z.to_nat k + 1 < fuel)%nat → n < 4 ^ (k + 1) →
  (n = 0 → Q 0) →
  (∀ j, 0 ≤ j ≤ k → 4 ^ j ≤ n < 4 ^ (j + 1) → Q (4 ^ j)) →
  returns (loop fuel (sqrt_cursor_body n) (4 ^ k)) Q.
Proof.
  revert k. induction fuel as [|fuel IH]; intros k Hn Hk Hf Hlt H0 HQ; [lia|].
  cbn [loop]. destruct (Z.ltb_spec n (4 ^ k)) as [Hle|Hle].
  - assert (sqrt_cursor_body n (4 ^ k) = Ok (inl (Z.shiftr (4 ^ k) 2))) as ->
      by (unfold sqrt_cursor_body; by rewrite (proj2 (Z.ltb_lt _ _) Hle)).
    rewrite bind_ok. cbv iota beta. destruct (decide (k = 0)) as [->|].
    + destruct fuel; [lia|]. assert (n = 0) as -> by (simpl in Hle; lia).
      by apply H0.
    + rewrite shiftr_pow4 by lia. apply IH; try lia; try done.
      * by replace (k - 1 + 1) with k by lia.
      * intros j Hj. apply HQ. lia.
  - assert (sqrt_cursor_body n (4 ^ k) = Ok (inr (4 ^ k))) as ->
      by (unfold sqrt_cursor_body; by rewrite (proj2 (Z.ltb_ge _ _) Hle)).
    rewrite bind_ok. apply HQ; lia.
Qed.

(** The state [(op, result, cursor)] of the second loop with [p = 2 ^ k] and
    [s] the root found so far: [p] is the place to be decided next. *)
Definition sqrt_inv (n k s : Z) : Prop :=
  0 ≤ s ∧ s + 2 ^ (k + 1) ≤ 2 ^ 32 ∧
  s * s ≤ n < (s + 2 ^ (k + 1)) * (s + 2 ^ (k + 1)).

Lemma sqrt_body_step n k s :
  sqrt_inv n k s → 0 ≤ k → 0 ≤ n < 2 ^ 64 →
  ∃ s', sqrt_inv n (k - 1) s' ∧
    sqrt_body (n - s * s, s * 2 ^ (k + 1), 4 ^ k) =
    Ok (inl (n - s' * s', s' * 2 ^ k, Z.shiftr (4 ^ k) 2)).
Proof.
  unfold sqrt_inv. intros (Hs & Hp & Hn) Hk Hlt. rewrite pow4 by done.
  pose proof (Z.pow_pos_nonneg 2 k ltac:(lia) Hk) as Hp0.
  replace (k - 1 + 1) with k by lia. rewrite Z.pow_add_r in * by lia.
  set (p := 2 ^ k) in *. change (2 ^ 1) with 2 in *.
  assert ((s + p) * (s + p) < 2 ^ 64) as H1 by nia.
  assert ((s + p) * (2 * p) < 2 ^ 64) as H2 by nia.
  assert (p * p < 2 ^ 62 + 1) as H3 by nia.
  assert (0 ≤ s * s ∧ 0 ≤ s * p ∧ 0 < p * p) as (H4 & H5 & H6) by nia.
  unfold sqrt_body. rewrite (proj2 (Z.eqb_neq (p * p) 0)) by nia.
  rewrite (u64_small (s * (p * 2) + p * p)), (u64_small (2 * (p * p))) by nia.
  destruct (Z.leb_spec (s * (p * 2) + p * p) (n - s * s)) as [Hle|Hle].
  - exists (s + p). split; [split_and!; nia|].
    rewrite !u64_small by lia. do 4 f_equal; [lia|].
    rewrite Z.shiftr_div_pow2 by lia. change (2 ^ 1) with 2.
    replace (s * (p * 2) + 2 * (p * p)) with ((s + p) * p * 2) by lia.
    by rewrite Z.div_mul.
  - exists s. split; [split_and!; nia|]. do 4 f_equal.
    rewrite Z.shiftr_div_pow2 by lia. change (2 ^ 1) with 2.
    replace (s * (p * 2)) with (s * p * 2) by lia. by rewrite Z.div_mul.
Qed.

Lemma sqrt_loop_returns n k s fuel :
  sqrt_inv n k s → 0 ≤ k → (Z.to_nat k + 1 < fuel)%nat → 0 ≤ n < 2 ^ 64 →
  loop fuel sqrt_body (n - s * s, s * 2 ^ (k + 1), 4 ^ k) = Ok (Z.sqrt n).
Proof.
  revert k s. induction fuel as [|fuel IH]; intros k s Hinv Hk Hf Hn; [lia|].
  cbn [loop]. destruct (sqrt_body_step n k s) as (s' & Hinv' & ->); [done..|].
  cbn [mbind outcome_bind]. destruct (decide (k = 0)) as [->|].
  - destruct fuel; [lia|]. cbn [loop]. unfold sqrt_body. change (Z.shiftr (4 ^ 0) 2) with 0.
    cbn. f_equal. destruct Hinv' as (? & ? & Hs'). simpl in Hs'.
    rewrite Z.mul_1_r. symmetry. apply Z.sqrt_unique. lia.
  - rewrite shiftr_pow4 by lia. replace (s' * 2 ^ k) with (s' * 2 ^ (k - 1 + 1)).
    + apply IH; [done|lia..].
    + do 2 f_equal. lia.
Qed.

(** [integer_square_root] ends for every argument and returns the square
    root rounded down. *)
Lemma integer_square_root_sqrt n :
  0 ≤ n < 2 ^ 64 → integer_square_root n = Ok (Z.sqrt n).
Proof.
  intros Hn. unfold integer_square_root.
  change (Z.shiftr _ 1) with (4 ^ 31) at 1.
  apply returns_eq. bind_step.
  apply sqrt_cursor_returns; [lia..| |].
  - intros ->. by vm_compute.
  - intros k Hk Hlt. apply (returns_intro _ (Z.sqrt n)); [|done].
    rewrite <-(Z.sub_0_r n) at 1. apply (sqrt_loop_returns n k 0); [|lia..].
    unfold sqrt_inv. rewrite !Z.add_0_l, <-pow4 by lia. split_and!; [lia| |lia|lia].
    apply Z.pow_le_mono_r; lia.
Qed.

Lemma integer_square_root_sqrt_witness :
  0 ≤ 1000003 < 2 ^ 64 ∧ integer_square_root 1000003 = Ok (Z.sqrt 1000003).
Proof. split; [lia|]. apply (integer_square_root_sqrt 1000003). lia. Defined.

(** ** Masks *)

Lemma index_mask_pow2 i : 0 ≤ i < 8 → index_mask i = 2 ^ i.
Proof. apply (forall_range (λ i, index_mask i = 2 ^ i) 0 8). by vm_compute. Qed.

(** A test of all bytes and pairs of bit positions, by evaluation. *)
Definition all_byte_masks (f : Z → Z → Z → bool) : bool :=
  forallb (λ x, forallb (λ i, forallb (f x i) (seqZ 0 8)) (seqZ 0 8)) (seqZ 0 256).

Lemma all_byte_masks_spec f x i j :
  all_byte_masks f = true → 0 ≤ x < 2 ^ 8 → 0 ≤ i < 8 → 0 ≤ j < 8 → f x i j = true.
Proof.
  unfold all_byte_masks. rewrite forallb_forall. intros H Hx Hi Hj.
  specialize (H x). rewrite forallb_forall in H.
  specialize (H ltac:(apply list_elem_of_In, elem_of_seqZ; lia) i).
  rewrite forallb_forall in H.
  apply (H ltac:(apply list_elem_of_In, elem_of_seqZ; lia) j).
  apply list_elem_of_In, elem_of_seqZ. lia.
Qed.

Lemma char_mask_testbit i j k :
  0 ≤ i < 8 → 0 ≤ j < 8 → 0 ≤ k < 8 →
  Z.testbit (char_mask i j) k = (i <=? k) && (k <=? j).
Proof.
  intros Hi Hj Hk. apply eqb_prop.
  apply (all_byte_masks_spec (λ k i j, if k <? 8
    then eqb (Z.testbit (char_mask i j) k) ((i <=? k) && (k <=? j)) else true) k i j) in Hi;
    [|by vm_compute|lia|done].
  by rewrite (proj2 (Z.ltb_lt k 8)) in Hi by lia.
Qed.

Lemma char_mask_range i j : 0 ≤ i < 8 → 0 ≤ j < 8 → 0 ≤ char_mask i j < 2 ^ 8.
Proof.
  intros Hi Hj.
  apply (all_byte_masks_spec (λ _ i j, (0 <=? char_mask i j) && (char_mask i j <? 2 ^ 8)) 0 i j)
    in Hi; [|by vm_compute|lia|done].
  apply andb_true_iff in Hi. lia.
Qed.

Lemma popcount_masked x i j :
  0 ≤ x < 2 ^ 8 → 0 ≤ i < 8 → 0 ≤ j < 8 →
  popcount_byte (Z.land x (char_mask i j)) = count (Z.testbit x) i (Z.to_nat (j - i + 1)).
Proof.
  intros Hx Hi Hj. apply Z.eqb_eq.
  apply (all_byte_masks_spec (λ x i j, popcount_byte (Z.land x (char_mask i j)) =?
    count (Z.testbit x) i (Z.to_nat (j - i + 1))) x i j); [by vm_compute|done..].
Qed.

Lemma popcount_byte_count x :
  0 ≤ x < 2 ^ 8 → popcount_byte x = count (Z.testbit x) 0 8.
Proof.
  intros Hx. transitivity (popcount_byte (Z.land x (char_mask 0 7)));
    [|by rewrite popcount_masked by lia].
  f_equal.
  change (char_mask 0 7) with (Z.ones 8). rewrite Z.land_ones by lia.
  by rewrite Z.mod_small.
Qed.

(** A byte or-ed with a mask, or cleared by one. *)
Definition write_mask (v : bool) (mask x : Z) : Z :=
  if v then Z.lor x mask else Z.land x (Z.lnot mask).

Lemma write_mask_testbit v mask x k :
  0 ≤ k → Z.testbit (write_mask v mask x) k = if Z.testbit mask k then v else Z.testbit x k.
Proof.
  intros Hk. destruct v; simpl.
  - rewrite Z.lor_spec. by destruct (Z.testbit mask k), (Z.testbit x k).
  - rewrite Z.land_spec, Z.lnot_spec by done.
    by destruct (Z.testbit mask k), (Z.testbit x k).
Qed.

(** ** Counting *)

Lemma count_app f from n1 n2 :
  count f from (n1 + n2) = count f from n1 + count f (from + Z.of_nat n1) n2.
Proof.
  revert from. induction n1 as [|n1 IH]; intros from; cbn [count Nat.add].
  { by rewrite Z.add_0_r. }
  rewrite IH. replace (from + Z.of_nat (S n1)) with (from + 1 + Z.of_nat n1) by lia. lia.
Qed.

Lemma count_ext f g from n :
  (∀ p, from ≤ p < from + Z.of_nat n → f p = g p) → count f from n = count g from n.
Proof.
  revert from. induction n as [|n IH]; intros from H; cbn [count]; [done|].
  rewrite (H from) by lia. f_equal. apply IH. intros p Hp. apply H. lia.
Qed.

Lemma count_shift f from d n : count (λ p, f (p + d)) from n = count f (from + d) n.
Proof.
  revert from. induction n as [|n IH]; intros from; cbn [count]; [done|].
  rewrite IH. do 2 f_equal. lia.
Qed.

Lemma count_range f from n : 0 ≤ count f from n ≤ Z.of_nat n.
Proof.
  revert from. induction n as [|n IH]; intros from; cbn [count]; [lia|].
  specialize (IH (from + 1)). destruct (f from); simpl; lia.
Qed.

(** A unary number: [s] bits set from [from] on, and then none. *)
Lemma count_unary f from n s :
  0 ≤ s ≤ Z.of_nat n → (∀ j, 0 ≤ j < Z.of_nat n → f (from + j) = (j <? s)) →
  count f from n = s.
Proof.
  revert from s. induction n as [|n IH]; intros from s Hs H; cbn [count]; [lia|].
  rewrite <-(Z.add_0_r from) at 1. rewrite H by lia.
  destruct (Z.ltb_spec 0 s); simpl Z.b2z.
  - rewrite (IH _ (s - 1)); [lia..|]. intros j Hj.
    replace (from + 1 + j) with (from + (j + 1)) by lia. rewrite H by lia.
    destruct (Z.ltb_spec (j + 1) s), (Z.ltb_spec j (s - 1)); lia || done.
  - rewrite (IH _ 0); [lia..|]. intros j Hj.
    replace (from + 1 + j) with (from + (j + 1)) by lia. rewrite H by lia.
    destruct (Z.ltb_spec (j + 1) s), (Z.ltb_spec j 0); lia || done.
Qed.

(** ** Frames *)

Lemma mem_frame_refl m lo hi : mem_frame m m lo hi.
Proof. by split. Qed.

Lemma mem_frame_trans m1 m2 m3 lo hi :
  mem_frame m1 m2 lo hi → mem_frame m2 m3 lo hi → mem_frame m1 m3 lo hi.
Proof.
  intros [H1 H2 H3] [H4 H5 H6]. split.
  - intros x Hx. by rewrite H4, H1.
  - intros x. by rewrite H5.
  - auto.
Qed.

Lemma mem_frame_mono m m' lo hi lo' hi' :
  mem_frame m m' lo hi → lo' ≤ lo → hi ≤ hi' → mem_frame m m' lo' hi'.
Proof. intros [H1 H2 H3] ??. split; [|done..]. intros x Hx. apply H1. lia. Qed.

Lemma bytes_at_frame m m' lo hi a n :
  mem_frame m m' lo hi → bytes_at m a n → bytes_at m' a n.
Proof.
  intros [? Hd Hb] [? Hm ?]. split; [done| |by apply Hb].
  intros x Hx. apply Hd. by apply Hm.
Qed.

Lemma bytes_at_mono m a n a' n' :
  bytes_at m a n → a ≤ a' → a' + n' ≤ a + n → bytes_at m a' n'.
Proof. intros [? Hm ?] ??. split; [lia| |done]. by eapply mapped_mono. Qed.

Lemma bit_frame m m' lo hi a p :
  mem_frame m m' lo hi → ¬ (lo ≤ a + p / 8 < hi) → bit m' a p = bit m a p.
Proof. intros [H1 _ _] H. unfold bit. by rewrite H1. Qed.

#[export] Hint Resolve mem_frame_refl bytes_at_frame : phoebe.

(** ** Updates of a bitset *)

Lemma u8_testbit x j : 0 ≤ j < 8 → Z.testbit (u8 x) j = Z.testbit x j.
Proof. intros. unfold u8. by rewrite Z.mod_pow2_bits_low by lia. Qed.

(** A store to byte [k] of a bitset. *)
Lemma bitset_store m a n k w (Q : mem → Prop) :
  bytes_at m a n → 0 ≤ k < n →
  (∀ m', mem_frame m m' (a + k) (a + k + 1) →
     (∀ p, 0 ≤ p → bit m' a p =
        if decide (p / 8 = k) then Z.testbit w (p mod 8) else bit m a p) → Q m') →
  returns (st8 m (u64 (a + k)) w) Q.
Proof.
  intros [? Hm Hb] Hk HQ. rewrite u64_small by lia.
  rewrite st8_Some by (apply Hm; lia). apply HQ.
  - split.
    + intros x Hx. rewrite lookup_insert_ne by lia. done.
    + intros x. destruct (decide (x = a + k)) as [->|].
      * rewrite lookup_insert_eq. split; [intros _; apply Hm; lia|by eexists].
      * by rewrite lookup_insert_ne.
    + intros _ x b. rewrite lookup_insert_Some. intros [[_ <-]|[_ ?]]; [apply u8_range|].
      by eapply Hb.
  - intros p Hp. unfold bit. case_decide as E.
    + rewrite E, lookup_insert_eq. apply u8_testbit. dlia.
    + by rewrite lookup_insert_ne by lia.
Qed.

Lemma bitset_load m a n k (Q : Z → Prop) :
  bytes_at m a n → 0 ≤ k < n →
  (∀ x, m !! (a + k) = Some x → 0 ≤ x < 2 ^ 8 →
     (∀ p, 0 ≤ p → p / 8 = k → bit m a p = Z.testbit x (p mod 8)) → Q x) →
  returns (ld8 m (u64 (a + k))) Q.
Proof.
  intros [? Hm Hb] Hk HQ. rewrite u64_small by lia.
  apply ld8_returns; [apply Hm; lia|]. intros x Hx. apply (HQ x Hx).
  - by eapply Hb.
  - intros p Hp <-. unfold bit. by rewrite Hx.
Qed.

Lemma bitset_update_returns m a n k f F (Q : mem → Prop) :
  bytes_at m a n → 0 ≤ k < n →
  (∀ x j, 0 ≤ j < 8 → Z.testbit (f x) j = F j (Z.testbit x j)) →
  (∀ m', mem_frame m m' (a + k) (a + k + 1) →
     (∀ p, 0 ≤ p → bit m' a p =
        if decide (p / 8 = k) then F (p mod 8) (bit m a p) else bit m a p) → Q m') →
  returns (bitset_update m a k f) Q.
Proof.
  intros Hm Hk Hf HQ. unfold bitset_update. bind_step.
  eapply bitset_load; [done..|]. intros x _ _ Hx.
  eapply bitset_store; [done..|]. intros m' Hfr Hbit. apply (HQ m' Hfr).
  intros p Hp. rewrite (Hbit p Hp). case_decide as E; [|done].
  rewrite (Hx p Hp E). apply Hf. dlia.
Qed.

(** [m'] is [m] with the bits [from .. to] of the bitset at [a] set to [v]. *)
Definition bits_set_to (v : bool) (m m' : mem) (a from to : Z) : Prop :=
  mem_frame m m' (a + from / 8) (a + to / 8 + 1) ∧
  ∀ p, 0 ≤ p → bit m' a p = if decide (from ≤ p ≤ to) then v else bit m a p.

Lemma bitset_write1_returns v m a n pos (Q : mem → Prop) :
  bytes_at m a n → 0 ≤ pos < 8 * n →
  (∀ m', bits_set_to v m m' a pos pos → Q m') →
  returns (bitset_update m a (pos / 8) (write_mask v (index_mask (pos mod 8)))) Q.
Proof.
  intros Hm Hp HQ.
  apply (bitset_update_returns m a n _ _ (λ j b, if decide (j = pos mod 8) then v else b));
    [done|dlia| |].
  - intros x j Hj. rewrite write_mask_testbit by lia.
    rewrite index_mask_pow2, Z.pow2_bits_eqb by dlia.
    destruct (Z.eqb_spec (pos mod 8) j), (decide (j = pos mod 8)); congruence.
  - intros m' Hfr Hbit. apply HQ. split; [done|]. intros p Hp'. rewrite Hbit by done.
    repeat case_decide; try done; exfalso; dlia.
Qed.

Lemma bitset_set_returns m a n pos (Q : mem → Prop) :
  bytes_at m a n → 0 ≤ pos < 8 * n → (∀ m', bits_set_to true m m' a pos pos → Q m') →
  returns (bitset_set m a pos) Q.
Proof. intros. by apply (bitset_write1_returns true m a n). Qed.

Lemma bitset_clear_returns m a n pos (Q : mem → Prop) :
  bytes_at m a n → 0 ≤ pos < 8 * n → (∀ m', bits_set_to false m m' a pos pos → Q m') →
  returns (bitset_clear m a pos) Q.
Proof. intros. by apply (bitset_write1_returns false m a n). Qed.

Lemma bitset_test_returns m a n pos (Q : bool → Prop) :
  bytes_at m a n → 0 ≤ pos < 8 * n → Q (bit m a pos) → returns (bitset_test m a pos) Q.
Proof.
  intros Hm Hp HQ. unfold bitset_test. bind_step.
  eapply bitset_load; [done|dlia|]. intros x _ _ Hx. simpl.
  rewrite index_mask_pow2, has_pow2 by dlia. by rewrite <-Hx by dlia.
Qed.

(** The whole bytes strictly between two buckets. *)
Lemma bitset_fill_returns a n v w to fuel m i (Q : mem → Prop) :
  (∀ j, 0 ≤ j < 8 → Z.testbit w j = v) → to < n →
  bytes_at m a n → 0 ≤ i < to → (Z.to_nat (to - i) ≤ fuel)%nat →
  (∀ m', mem_frame m m' (a + i + 1) (a + to) →
     (∀ p, 0 ≤ p → bit m' a p = if decide (i < p / 8 < to) then v else bit m a p) → Q m') →
  returns (loop fuel (bitset_fill_body a to w) (m, i)) Q.
Proof.
  intros Hw Hn. revert m i. induction fuel as [|fuel IH]; intros m i Hm Hi Hf HQ; [lia|].
  cbn [loop]. bind_step. unfold bitset_fill_body at 1. pose proof (ba_range _ _ _ Hm).
  rewrite (u64_small (i + 1)) by lia.
  destruct (Z.eqb_spec (i + 1) to) as [E|E]; cbn [returns].
  { apply HQ; [apply mem_frame_refl|]. intros p Hp. by rewrite decide_False by lia. }
  bind_step. eapply bitset_store; [done|lia|]. intros m1 Hfr Hb.
  apply IH; [by eapply bytes_at_frame|lia|lia|]. intros m' Hfr' Hb'. apply HQ.
  - eapply mem_frame_trans; eapply mem_frame_mono; [exact Hfr|lia..|exact Hfr'|lia|lia].
  - intros p Hp. rewrite Hb', Hb by done.
    repeat case_decide; try done; try lia. apply Hw. dlia.
Qed.

(** [bitset_set_range] and [bitset_clear_range] are one routine. *)
Lemma bitset_write_range v m a n from to (Q : mem → Prop) :
  bytes_at m a n → 0 ≤ from ≤ to → to < 8 * n →
  (∀ m', bits_set_to v m m' a from to → Q m') →
  let r := bitset_range from to in
  returns (if from_bucket r =? to_bucket r
    then bitset_update m a (from_bucket r)
           (write_mask v (char_mask (from_index r) (to_index r)))
    else
      m ← bitset_update m a (from_bucket r) (write_mask v (char_mask (from_index r) 7));
      m ← bitset_update m a (to_bucket r) (write_mask v (char_mask 0 (to_index r)));
      loop (Z.to_nat (u64 (to_bucket r - from_bucket r)))
        (bitset_fill_body a (to_bucket r) (if v then 255 else 0)) (m, from_bucket r)) Q.
Proof.
  intros Hm Hft Hn HQ. cbv zeta. unfold bitset_range.
  cbn [from_bucket to_bucket from_index to_index]. pose proof (ba_range _ _ _ Hm).
  assert (∀ i j x k, 0 ≤ i < 8 → 0 ≤ j < 8 → 0 ≤ k < 8 →
    Z.testbit (write_mask v (char_mask i j) x) k =
    if decide (i ≤ k ≤ j) then v else Z.testbit x k) as Hmask.
  { intros i j x k ???. rewrite write_mask_testbit, char_mask_testbit by lia.
    destruct (Z.leb_spec i k), (Z.leb_spec k j), (decide _); simpl; lia || done. }
  assert (0 ≤ from mod 8 < 8 ∧ 0 ≤ to mod 8 < 8) as [Hf8 Ht8] by dlia.
  destruct (Z.eqb_spec (from / 8) (to / 8)) as [E|E].
  - apply (bitset_update_returns m a n _ _
      (λ k b, if decide (from mod 8 ≤ k ≤ to mod 8) then v else b)); [done|dlia|auto|].
    intros m' Hfr Hb. apply HQ. split; [by rewrite <-E|]. intros p Hp. rewrite Hb by done.
    repeat case_decide; try done; exfalso; dlia.
  - bind_step. apply (bitset_update_returns m a n _ _
      (λ k b, if decide (from mod 8 ≤ k ≤ 7) then v else b)); [done|dlia|auto with lia|].
    intros m1 Hfr1 Hb1. bind_step. apply (bitset_update_returns m1 a n _ _
      (λ k b, if decide (0 ≤ k ≤ to mod 8) then v else b));
      [by eapply bytes_at_frame|dlia|auto with lia|].
    intros m2 Hfr2 Hb2. eapply (bitset_fill_returns a n v).
    + intros j Hj. destruct v; [|apply Z.testbit_0_l].
      change 255 with (Z.ones 8). apply Z.ones_spec_low. lia.
    + dlia.
    + eauto using bytes_at_frame.
    + dlia.
    + rewrite u64_small by dlia. lia.
    + intros m' Hfr Hb. apply HQ. split.
      * eapply mem_frame_trans; [eapply mem_frame_mono; [exact Hfr1|dlia..]|].
        eapply mem_frame_trans; eapply mem_frame_mono;
          [exact Hfr2|dlia..|exact Hfr|dlia|dlia].
      * intros p Hp. rewrite Hb, Hb2, Hb1 by done.
        repeat case_decide; try done; exfalso; dlia.
Qed.

(** Setting and clearing a range of a bitset writes the bits of the range and
    no other, whatever buckets the range spans, and touches no byte outside
    its buckets. *)
Lemma bitset_range_writes m a n from to :
  bytes_at m a n → 0 ≤ from ≤ to → to < 8 * n →
  returns (bitset_set_range m a (bitset_range from to)) (λ m', bits_set_to true m m' a from to) ∧
  returns (bitset_clear_range m a (bitset_range from to))
    (λ m', bits_set_to false m m' a from to).
Proof.
  intros Hm Hft Hn. split.
  - by apply (bitset_write_range true m a n).
  - by apply (bitset_write_range false m a n).
Qed.

Lemma bitset_range_writes_witness :
  bytes_at (mem_of 100 [170; 85; 15; 240]) 100 4 ∧
  returns (bitset_set_range (mem_of 100 [170; 85; 15; 240]) 100 (bitset_range 3 29))
    (λ m', bits_set_to true (mem_of 100 [170; 85; 15; 240]) m' 100 3 29).
Proof.
  assert (bytes_at (mem_of 100 [170; 85; 15; 240]) 100 4) as Hm.
  { split; [lia|by apply mem_of_mapped|apply mem_of_bytes_ok; repeat constructor; lia]. }
  split; [exact Hm|].
  exact (proj1 (bitset_range_writes _ 100 4 3 29 Hm ltac:(lia) ltac:(lia))).
Defined.

(** ** Counting the bits of a range *)

Lemma bitset_count_loop a n m to fuel r i (Q : Z → Prop) :
  to < n → bytes_at m a n → 0 ≤ i < to → (Z.to_nat (to - i) ≤ fuel)%nat →
  0 ≤ r → r + 8 * (to - i) < 2 ^ 64 →
  Q (r + count (bit m a) (8 * (i + 1)) (Z.to_nat (8 * (to - i - 1)))) →
  returns (loop fuel (bitset_count_body m a to) (r, i)) Q.
Proof.
  intros Hn Hm. revert r i. induction fuel as [|fuel IH]; intros r i Hi Hf Hr Hr' HQ; [lia|].
  cbn [loop]. bind_step. unfold bitset_count_body at 1. pose proof (ba_range _ _ _ Hm).
  rewrite (u64_small (i + 1)) by lia.
  destruct (Z.eqb_spec (i + 1) to) as [E|E]; cbn [returns].
  { replace (Z.to_nat (8 * (to - i - 1))) with O in HQ by lia. simpl in HQ.
    by rewrite Z.add_0_r in HQ. }
  bind_step. eapply bitset_load; [done|lia|]. intros x _ Hx Hb.
  cbn [returns].
  assert (popcount_byte x = count (bit m a) (8 * (i + 1)) 8) as Hc.
  { rewrite popcount_byte_count by done. rewrite <-(Z.add_0_l (8 * (i + 1))), <-count_shift.
    apply count_ext. intros p Hp. rewrite Hb by dlia. f_equal. dlia. }
  pose proof (count_range (bit m a) (8 * (i + 1)) 8). rewrite Hc in *.
  rewrite u64_small by lia. apply IH; [lia..|].
  replace (Z.to_nat (8 * (to - i - 1))) with (8 + Z.to_nat (8 * (to - (i + 1) - 1)))%nat
    in HQ by lia.
  rewrite count_app in HQ. replace (8 * (i + 1) + Z.of_nat 8) with (8 * (i + 1 + 1)) in HQ by lia.
  by rewrite <-Z.add_assoc.
Qed.

Lemma bitset_count_range_returns m a n from to (Q : Z → Prop) :
  bytes_at m a n → 0 ≤ from ≤ to → to < 8 * n → to < 2 ^ 63 →
  Q (count (bit m a) from (Z.to_nat (to - from + 1))) →
  returns (bitset_count_range m a (bitset_range from to)) Q.
Proof.
  intros Hm Hft Hn Hto HQ. unfold bitset_count_range, bitset_range.
  cbn [from_bucket to_bucket from_index to_index]. pose proof (ba_range _ _ _ Hm).
  assert (0 ≤ from mod 8 < 8 ∧ 0 ≤ to mod 8 < 8) as [Hf8 Ht8] by dlia.
  assert (∀ x k i j, 0 ≤ x < 2 ^ 8 → 0 ≤ k → (∀ p, 0 ≤ p → p / 8 = k → bit m a p = Z.testbit x (p mod 8)) →
    0 ≤ i < 8 → 0 ≤ j < 8 → popcount_byte (Z.land x (char_mask i j)) =
      count (bit m a) (8 * k + i) (Z.to_nat (j - i + 1))) as Hpop.
  { intros x k i j Hx Hk Hb Hi Hj. rewrite popcount_masked by done.
    rewrite (Z.add_comm (8 * k) i), <-count_shift. apply count_ext. intros p Hp.
    rewrite Hb by dlia. f_equal. dlia. }
  destruct (Z.eqb_spec (from / 8) (to / 8)) as [E|E].
  - bind_step. eapply bitset_load; [done|dlia|]. intros x _ Hx Hb. simpl.
    rewrite (Hpop x (from / 8)) by (done || dlia).
    replace (8 * (from / 8) + from mod 8) with from by dlia.
    by replace (to mod 8 - from mod 8 + 1) with (to - from + 1) by dlia.
  - bind_step. eapply bitset_load; [done|dlia|]. intros x _ Hx Hbx.
    bind_step. eapply bitset_load; [done|dlia|]. intros y _ Hy Hby.
    rewrite (Hpop x (from / 8)), (Hpop y (to / 8)) by (done || dlia).
    replace (8 * (from / 8) + from mod 8) with from by dlia. rewrite Z.add_0_r.
    pose proof (count_range (bit m a) from (Z.to_nat (7 - from mod 8 + 1))).
    pose proof (count_range (bit m a) (8 * (to / 8)) (Z.to_nat (to mod 8 - 0 + 1))).
    apply (bitset_count_loop a n); [dlia|done|dlia| |dlia|dlia|].
    { rewrite u64_small by dlia. lia. }
    replace (Z.to_nat (to - from + 1)) with
      (Z.to_nat (7 - from mod 8 + 1) + (Z.to_nat (8 * (to / 8 - from / 8 - 1)) +
       Z.to_nat (to mod 8 - 0 + 1)))%nat in HQ by dlia.
    rewrite !count_app in HQ.
    replace (from + Z.of_nat (Z.to_nat (7 - from mod 8 + 1))) with (8 * (from / 8 + 1))
      in HQ by dlia.
    replace (8 * (from / 8 + 1) + Z.of_nat (Z.to_nat (8 * (to / 8 - from / 8 - 1))))
      with (8 * (to / 8)) in HQ by dlia.
    eapply eq_ind; [exact HQ|lia].
Qed.
