(* ===== verification/BuddyPos.v ===== *)
(** * Positions of the buddy allocation tree: [kernel/memory/buddy_alloc.h]

    The nodes of the tree are numbered as those of a binary heap, and a position
    is a number with the depth of its node.  A node of depth [d] in a tree of
    order [o] keeps [o - d + 1] bits; the rows follow one another from the root
    on.  This file models the arithmetic of positions and of where the bits of a
    position are, and proves that no two positions share a bit. *)
From S2P Require Import Prelude BuddyBits.

(** ** Positions *)

Record buddy_tree_pos := TreePos { index : Z; depth : Z }.

#[global] Instance buddy_tree_pos_eq_dec : EqDecision buddy_tree_pos.
Proof. solve_decision. Defined.

Definition INVALID_POS : buddy_tree_pos := {| index := 0; depth := 0 |}.

Definition buddy_tree_root : buddy_tree_pos := {| index := 1; depth := 1 |}.

Definition buddy_tree_leftmost_child_internal (tree_order : Z) : buddy_tree_pos :=
  {| index := two_to_the_power_of (u64 (tree_order - 1)); depth := tree_order |}.

Definition buddy_tree_left_child (pos : buddy_tree_pos) : buddy_tree_pos :=
  {| index := u64 (index pos * 2); depth := u64 (depth pos + 1) |}.

Definition buddy_tree_right_child (pos : buddy_tree_pos) : buddy_tree_pos :=
  {| index := u64 (u64 (index pos * 2) + 1); depth := u64 (depth pos + 1) |}.

Definition buddy_tree_sibling (pos : buddy_tree_pos) : buddy_tree_pos :=
  {| index := Z.lxor (index pos) 1; depth := depth pos |}.

Definition buddy_tree_parent (pos : buddy_tree_pos) : buddy_tree_pos :=
  {| index := index pos / 2; depth := u64 (depth pos - 1) |}.

Definition buddy_tree_right_adjacent (pos : buddy_tree_pos) : buddy_tree_pos :=
  if index pos <? Z.lxor (u64 (index pos + 1)) (index pos)
  then INVALID_POS
  else {| index := u64 (index pos + 1); depth := depth pos |}.

(** The position in its row: the index without its highest bit. *)
Definition buddy_tree_index_internal (pos : buddy_tree_pos) : Z :=
  let mask := two_to_the_power_of (u64 (depth pos - 1)) in
  Z.land (index pos) (u64 (Z.lnot mask)).

Definition buddy_tree_index (pos : buddy_tree_pos) : Z := buddy_tree_index_internal pos.

Record buddy_tree_interval_t := TreeInterval {
  iv_from : buddy_tree_pos;
  iv_to : buddy_tree_pos;
}.

Definition buddy_tree_interval_contains (outer inner : buddy_tree_interval_t) : bool :=
  (index (iv_from outer) <=? index (iv_from inner)) &&
  (index (iv_from inner) <=? index (iv_to outer)) &&
  (index (iv_from outer) <=? index (iv_to inner)) &&
  (index (iv_to inner) <=? index (iv_to outer)).

(** ** Where the bits of a position are *)

(** [order] and [to] are [uint8_t]s: [order] comes down to [to] within 256
    turns, from above or around the wrap. *)
Definition size_for_order_body (to : Z) (s : Z * Z * Z) : outcome (Z * Z * Z + Z) :=
  let '(result, multi, order) := s in
  if order =? to then Ok (inr result) else
  Ok (inl (u64 (result + u64 (order * multi)), u64 (multi * 2), u8 (order - 1))).

Definition size_for_order (order to : Z) : outcome Z :=
  loop 257 (size_for_order_body to) (0, 1, order).

Record internal_position := InternalPos { local_offset : Z; bitset_location : Z }.

Definition buddy_tree_internal_position_order (tree_order : Z) (pos : buddy_tree_pos)
    : outcome internal_position :=
  let local_offset := u64 (u64 (tree_order - depth pos) + 1) in
  total_offset ← size_for_order (u8 tree_order) (u8 local_offset);
  let local_index := buddy_tree_index_internal pos in
  Ok {| local_offset := local_offset;
        bitset_location := u64 (total_offset + u64 (local_offset * local_index)) |}.

(** ** What they mean *)

(** The bits before the row of depth [k + 1] in a tree of order [o]. *)
Definition row_offset (o k : Z) : Z := (o - k + 2) * 2 ^ k - (o + 2).

(** The number of bits of node [i], and the first of them. *)
Definition height (o i : Z) : Z := o - Z.log2 i.
Definition location (o i : Z) : Z :=
  row_offset o (Z.log2 i) + height o i * (i - 2 ^ Z.log2 i).

(** The nodes of a tree of order [o], and their positions. *)
Definition node (o i : Z) : Prop := 1 ≤ i < 2 ^ o.
Definition pos_of (i : Z) : buddy_tree_pos := {| index := i; depth := Z.log2 i + 1 |}.

(** The orders the lemmas are about: every arena of 2^63 bytes or less has one
    below 60 with the allocator's default alignment of 64. *)
Definition order_ok (o : Z) : Prop := 1 ≤ o ≤ 58.

#[global] Instance node_dec o i : Decision (node o i).
Proof. unfold node. apply _. Defined.

(** * Lemmas *)

(** ** Logarithms of nodes *)

Lemma node_log2 o i : 0 ≤ o → node o i → 0 ≤ Z.log2 i < o.
Proof. intros ? [? ?]. split; [apply Z.log2_nonneg|]. apply Z.log2_lt_pow2; lia. Qed.

Lemma pow2_S k : 0 ≤ k → 2 ^ (k + 1) = 2 * 2 ^ k.
Proof. intros. rewrite Z.pow_add_r by lia. lia. Qed.

Lemma log2_bounds i : 1 ≤ i → 2 ^ Z.log2 i ≤ i < 2 ^ (Z.log2 i + 1).
Proof. intros. rewrite Z.add_1_r. apply Z.log2_spec. lia. Qed.

Lemma log2_left i : 1 ≤ i → Z.log2 (2 * i) = Z.log2 i + 1.
Proof. intros. rewrite Z.log2_double by lia. lia. Qed.

Lemma log2_right i : 1 ≤ i → Z.log2 (2 * i + 1) = Z.log2 i + 1.
Proof. intros. rewrite Z.log2_succ_double by lia. lia. Qed.

Lemma log2_half i : 2 ≤ i → Z.log2 (i / 2) = Z.log2 i - 1.
Proof.
  intros. change 2 with (2 ^ 1) at 1. rewrite <-Z.shiftr_div_pow2 by lia.
  rewrite Z.log2_shiftr by lia. pose proof (Z.log2_le_mono 2 i). change (Z.log2 2) with 1 in *. lia.
Qed.

Lemma pow2_le_order o k : order_ok o → k ≤ o + 1 → 2 ^ k ≤ 2 ^ 59.
Proof. unfold order_ok. intros. apply Z.pow_le_mono_r; lia. Qed.

Lemma node_bound o i : order_ok o → node o i → 1 ≤ i < 2 ^ 58.
Proof.
  intros [] []. pose proof (Z.pow_le_mono_r 2 o 58). lia.
Qed.

Lemma node_left o i : 1 ≤ o → node o i → Z.log2 i + 1 < o → node o (2 * i).
Proof.
  unfold node. intros Ho Hi Hl. pose proof (log2_bounds i ltac:(lia)).
  pose proof (Z.pow_le_mono_r 2 (Z.log2 i + 1 + 1) o ltac:(lia) ltac:(lia)).
  rewrite (pow2_S (Z.log2 i + 1)) in * by (pose proof (Z.log2_nonneg i); lia). lia.
Qed.

Lemma node_right o i : 1 ≤ o → node o i → Z.log2 i + 1 < o → node o (2 * i + 1).
Proof.
  unfold node. intros Ho Hi Hl. pose proof (log2_bounds i ltac:(lia)).
  pose proof (Z.pow_le_mono_r 2 (Z.log2 i + 1 + 1) o ltac:(lia) ltac:(lia)).
  rewrite (pow2_S (Z.log2 i + 1)) in * by (pose proof (Z.log2_nonneg i); lia). lia.
Qed.

Lemma node_parent o i : node o i → i ≠ 1 → node o (i / 2).
Proof. unfold node. intros. dlia. Qed.

(** ** Positions of nodes *)

Lemma left_child_pos_of o i :
  order_ok o → node o i → buddy_tree_left_child (pos_of i) = pos_of (2 * i).
Proof.
  intros Ho Hi. pose proof (node_bound o i Ho Hi). destruct Ho.
  pose proof (node_log2 o i ltac:(lia) Hi).
  unfold buddy_tree_left_child, pos_of. cbn [index depth].
  rewrite log2_left, !u64_small by lia. f_equal. lia.
Qed.

Lemma right_child_pos_of o i :
  order_ok o → node o i → buddy_tree_right_child (pos_of i) = pos_of (2 * i + 1).
Proof.
  intros Ho Hi. pose proof (node_bound o i Ho Hi). destruct Ho.
  pose proof (node_log2 o i ltac:(lia) Hi).
  unfold buddy_tree_right_child, pos_of. cbn [index depth].
  rewrite log2_right, (u64_small (i * 2)), !u64_small by lia. f_equal. lia.
Qed.

Lemma parent_pos_of o i :
  order_ok o → node o i → i ≠ 1 → buddy_tree_parent (pos_of i) = pos_of (i / 2).
Proof.
  intros Ho Hi H1. pose proof (node_bound o i Ho Hi). destruct Ho.
  pose proof (node_log2 o i ltac:(lia) Hi).
  unfold buddy_tree_parent, pos_of. cbn [index depth].
  rewrite log2_half, u64_small by lia. f_equal. lia.
Qed.

Lemma lxor_1_even i : 0 ≤ i → Z.lxor (2 * i) 1 = 2 * i + 1.
Proof.
  intros. rewrite <-Z.add_nocarry_lxor; [done|].
  apply Z.bits_inj'. intros k Hk. rewrite Z.land_spec, Z.bits_0.
  destruct (decide (k = 0)) as [->|].
  - by rewrite Z.testbit_even_0.
  - change 1 with (2 ^ 0). rewrite Z.pow2_bits_false by lia. apply andb_false_r.
Qed.

Lemma lxor_1_odd i : 0 ≤ i → Z.lxor (2 * i + 1) 1 = 2 * i.
Proof. intros. by rewrite <-lxor_1_even, Z.lxor_assoc, Z.lxor_nilpotent, Z.lxor_0_r. Qed.

Lemma sibling_pos_of_left i :
  1 ≤ i → buddy_tree_sibling (pos_of (2 * i)) = pos_of (2 * i + 1).
Proof.
  intros. unfold buddy_tree_sibling, pos_of. cbn [index depth].
  by rewrite lxor_1_even, log2_left, log2_right by lia.
Qed.

Lemma land_u64_lnot a b : 0 ≤ a < 2 ^ 64 → Z.land a (u64 (Z.lnot b)) = Z.ldiff a b.
Proof.
  intros Ha. apply Z.bits_inj'. intros j Hj. rewrite Z.land_spec, Z.ldiff_spec.
  destruct (Z.ltb_spec j 64).
  - unfold u64. by rewrite Z.mod_pow2_bits_low, Z.lnot_spec by lia.
  - rewrite (Z.bits_above_log2 a j); [done|lia|].
    destruct (decide (a = 0)) as [->|]; [simpl; lia|].
    pose proof (proj1 (Z.log2_lt_pow2 a 64 ltac:(lia)) ltac:(lia)). lia.
Qed.

Lemma ldiff_top_bit i : 1 ≤ i → Z.ldiff i (2 ^ Z.log2 i) = i - 2 ^ Z.log2 i.
Proof.
  intros Hi. symmetry. apply Z.sub_nocarry_ldiff. apply Z.bits_inj'. intros j Hj.
  rewrite Z.ldiff_spec, Z.bits_0, Z.pow2_bits_eqb by apply Z.log2_nonneg.
  destruct (Z.eqb_spec (Z.log2 i) j) as [<-|]; [|done]. by rewrite Z.bit_log2 by lia.
Qed.

Lemma index_internal_pos_of o i :
  order_ok o → node o i → buddy_tree_index_internal (pos_of i) = i - 2 ^ Z.log2 i.
Proof.
  intros Ho Hi. pose proof (node_bound o i Ho Hi). destruct Ho.
  pose proof (node_log2 o i ltac:(lia) Hi).
  unfold buddy_tree_index_internal, pos_of. cbn [index depth].
  replace (Z.log2 i + 1 - 1) with (Z.log2 i) by lia.
  rewrite (u64_small (Z.log2 i)), two_to_the_power_of_pow2, land_u64_lnot by lia.
  apply ldiff_top_bit. lia.
Qed.

(** ** Rows and locations *)

Lemma row_offset_0 o : row_offset o 0 = 0.
Proof. unfold row_offset. simpl. lia. Qed.

Lemma row_offset_S o k : 0 ≤ k → row_offset o (k + 1) = row_offset o k + (o - k) * 2 ^ k.
Proof. intros. unfold row_offset. rewrite pow2_S by done. lia. Qed.

Lemma row_offset_mono o k1 k2 : 0 ≤ k1 ≤ k2 → k2 ≤ o → row_offset o k1 ≤ row_offset o k2.
Proof.
  intros Hk. replace k2 with (k1 + Z.of_nat (Z.to_nat (k2 - k1))) by lia.
  induction (Z.to_nat (k2 - k1)) as [|n IH]; intros Ho; [by rewrite Z.add_0_r|].
  replace (k1 + Z.of_nat (S n)) with (k1 + Z.of_nat n + 1) in * by lia.
  rewrite row_offset_S by lia. specialize (IH ltac:(lia)).
  pose proof (Z.pow_pos_nonneg 2 (k1 + Z.of_nat n)). nia.
Qed.

Lemma row_offset_end o : row_offset o o = 2 ^ (o + 1) - o - 2 ∨ o < 0.
Proof.
  destruct (decide (o < 0)); [by right|left]. unfold row_offset.
  rewrite pow2_S by lia. lia.
Qed.

Lemma row_offset_bound o k : order_ok o → 0 ≤ k ≤ o → 0 ≤ row_offset o k < 2 ^ 59.
Proof.
  intros Ho Hk. pose proof (row_offset_mono o 0 k ltac:(lia) ltac:(lia)) as H0.
  pose proof (row_offset_mono o k o ltac:(lia) ltac:(lia)) as H1.
  rewrite row_offset_0 in H0. destruct Ho. destruct (row_offset_end o); [|lia].
  pose proof (Z.pow_le_mono_r 2 (o + 1) 59). lia.
Qed.

(** The row of a node ends where the next row begins. *)
Lemma location_row o i :
  0 ≤ o → node o i →
  row_offset o (Z.log2 i) ≤ location o i ∧
  location o i + height o i ≤ row_offset o (Z.log2 i + 1).
Proof.
  intros Ho Hi. pose proof (node_log2 o i Ho Hi). destruct Hi as [Hi _].
  pose proof (log2_bounds i Hi) as Hb. unfold location, height.
  rewrite row_offset_S by lia. rewrite pow2_S in Hb by lia. nia.
Qed.

(** The bits of different nodes do not overlap: those of a node end before
    those of any node of a higher number begin, and all of them lie within the
    bits the tree of that order is given. *)
Lemma locations_disjoint o i j :
  0 ≤ o → node o i → node o j → i < j →
  location o i + height o i ≤ location o j.
Proof.
  intros Ho Hi Hj Hij. pose proof (Z.log2_le_mono i j ltac:(lia)).
  destruct (decide (Z.log2 i = Z.log2 j)) as [E|E].
  - pose proof (node_log2 o i Ho Hi). unfold location, height. rewrite E in *. nia.
  - destruct (location_row o i Ho Hi) as [_ H1]. destruct (location_row o j Ho Hj) as [H2 _].
    pose proof (node_log2 o i Ho Hi). pose proof (node_log2 o j Ho Hj).
    pose proof (row_offset_mono o (Z.log2 i + 1) (Z.log2 j)). lia.
Qed.

Lemma location_range o i :
  order_ok o → node o i →
  0 ≤ location o i ∧ 1 ≤ height o i ≤ o ∧ location o i + height o i ≤ row_offset o o.
Proof.
  intros Ho Hi. pose proof (node_log2 o i ltac:(destruct Ho; lia) Hi).
  destruct (location_row o i ltac:(destruct Ho; lia) Hi).
  pose proof (row_offset_bound o (Z.log2 i) Ho ltac:(lia)).
  pose proof (row_offset_mono o (Z.log2 i + 1) o ltac:(lia) ltac:(lia)).
  unfold height in *. lia.
Qed.

(** The sibling's bits are next to a node's. *)
Lemma location_right o i :
  node o (2 * i) → 1 ≤ i → location o (2 * i + 1) = location o (2 * i) + height o (2 * i).
Proof.
  intros _ Hi. unfold location, height. rewrite log2_left, log2_right by done. lia.
Qed.

Lemma height_right o i : 1 ≤ i → height o (2 * i + 1) = height o (2 * i).
Proof. intros. unfold height. by rewrite log2_left, log2_right. Qed.

Lemma height_left o i : 1 ≤ i → height o (2 * i) = height o i - 1.
Proof. intros. unfold height. rewrite log2_left by done. lia. Qed.

Lemma height_half o i : 2 ≤ i → height o (i / 2) = height o i + 1.
Proof. intros. unfold height. rewrite log2_half by done. lia. Qed.

Lemma height_1 o : height o 1 = o.
Proof. unfold height. simpl. lia. Qed.

(** ** The sizes of rows *)

(** [size_for_order] comes to its end for every order and returns the first bit
    of the row whose nodes have [to] bits. *)
Lemma size_for_order_loop o k fuel :
  order_ok o → 0 ≤ k ≤ o → ∀ n, k + Z.of_nat n ≤ o → (n < fuel)%nat →
  loop fuel (size_for_order_body (o - (k + Z.of_nat n))) (row_offset o k, 2 ^ k, o - k) =
  Ok (row_offset o (k + Z.of_nat n)).
Proof.
  intros Ho Hk n. revert k fuel Hk. induction n as [|n IH]; intros k fuel Hk Hn Hf;
    (destruct fuel as [|fuel]; [lia|]); cbn [loop].
  - rewrite Z.add_0_r. unfold size_for_order_body. by rewrite Z.eqb_refl.
  - assert (size_for_order_body (o - (k + Z.of_nat (S n))) (row_offset o k, 2 ^ k, o - k) =
      Ok (inl (row_offset o (k + 1), 2 ^ (k + 1), o - (k + 1)))) as ->.
    { unfold size_for_order_body. rewrite (proj2 (Z.eqb_neq _ _)) by lia.
      pose proof (row_offset_bound o k Ho Hk). pose proof (row_offset_bound o (k + 1) Ho ltac:(lia)).
      pose proof (Z.pow_pos_nonneg 2 k). pose proof (pow2_le_order o (k + 1) Ho ltac:(lia)).
      rewrite row_offset_S, pow2_S in * by lia. destruct Ho.
      rewrite (u64_small ((o - k) * 2 ^ k)), !u64_small, u8_small by nia.
      do 3 f_equal; [f_equal|]; lia. }
    rewrite bind_ok. replace (k + Z.of_nat (S n)) with (k + 1 + Z.of_nat n) by lia.
    apply IH; lia.
Qed.

Lemma size_for_order_row o k :
  order_ok o → 0 ≤ k ≤ o → size_for_order o (o - k) = Ok (row_offset o k).
Proof.
  intros Ho Hk. unfold size_for_order. rewrite <-(row_offset_0 o).
  pose proof (size_for_order_loop o 0 257 Ho ltac:(destruct Ho; lia) (Z.to_nat k)) as H.
  rewrite Z.sub_0_r in H. replace (0 + Z.of_nat (Z.to_nat k)) with k in H by lia.
  apply H; destruct Ho; lia.
Qed.

Lemma internal_position_order_node o i :
  order_ok o → node o i →
  buddy_tree_internal_position_order o (pos_of i) =
  Ok {| local_offset := height o i; bitset_location := location o i |}.
Proof.
  intros Ho Hi. pose proof (node_log2 o i ltac:(destruct Ho; lia) Hi).
  pose proof (location_range o i Ho Hi) as (Hl & Hh & He).
  pose proof (row_offset_bound o o Ho ltac:(destruct Ho; lia)).
  unfold buddy_tree_internal_position_order.
  rewrite index_internal_pos_of with (o := o) by done. cbn [index depth pos_of].
  assert (1 ≤ o ≤ 58) as Ho' by apply Ho.
  rewrite (u64_small (o - (Z.log2 i + 1))), (u64_small (_ + 1)) by lia.
  rewrite !u8_small by lia. replace (o - (Z.log2 i + 1) + 1) with (o - Z.log2 i) by lia.
  rewrite size_for_order_row by lia || done. rewrite bind_ok. do 2 f_equal.
  unfold location, height in *.
  pose proof (row_offset_bound o (Z.log2 i) Ho ltac:(lia)).
  pose proof (log2_bounds i ltac:(destruct Hi; lia)). rewrite (u64_small (_ * _)) by nia.
  apply u64_small. lia.
Qed.
