(* ===== verification/BuddyTree.v ===== *)
(** * The buddy allocation tree: [kernel/memory/buddy_alloc.h]

    A tree is the address of a [struct buddy_tree] in the memory, followed by
    its bits and by the memo of [size_for_order], as the code lays them out.
    Every operation of the header on a tree is here; what the operations mean is
    in BuddyRep (the bits of a node) and BuddyAlloc (the nodes handed out). *)
From S2P Require Import Prelude Mem MemSet BuddyBits BuddyPos.

(** ** [struct buddy_tree] *)

(** The offsets of [size_for_order_offset], [order] and [flags], the first
    field being [upper_pos_bound], and the size of the structure. *)
Definition off_size_for_order_offset : Z := 8.
Definition off_order : Z := 16.
Definition off_flags : Z := 17.
Definition sizeof_buddy_tree : Z := 24.

Definition t_upper_pos_bound (m : mem) (t : Z) : outcome Z := ld64 m t.
Definition t_size_for_order_offset (m : mem) (t : Z) : outcome Z :=
  ld64 m (u64 (t + off_size_for_order_offset)).
Definition t_order (m : mem) (t : Z) : outcome Z := ld8 m (u64 (t + off_order)).

Definition buddy_tree_bits (t : Z) : Z := u64 (t + sizeof_buddy_tree).

(** ** Initialisation *)

(** [bitset_size] rounded as the code rounds it, by adding the remainder. *)
Definition round_to_words (bitset_size : Z) : Z :=
  if negb (bitset_size mod 8 =? 0) then u64 (bitset_size + bitset_size mod 8) else bitset_size.

Definition buddy_tree_sizeof (order : Z) : outcome Z :=
  let tree_size := sizeof_buddy_tree in
  elements ← size_for_order order 0;
  let bitset_size := round_to_words (bitset_sizeof elements) in
  let size_for_order_size := u64 ((order + 2) * 8) in
  Ok (u64 (u64 (tree_size + bitset_size) + size_for_order_size)).

Definition populate_body (t : Z) (s : mem * Z) : outcome (mem * Z + mem) :=
  let '(m, i) := s in
  order ← t_order m t;
  if negb (i <=? order) then Ok (inr m) else
  offset ← t_size_for_order_offset m t;
  size ← size_for_order order (u8 i);
  m ← st64 m (u64 (buddy_tree_bits t + 8 * u64 (offset + i))) size;
  Ok (inl (m, u64 (i + 1))).

(** The memo has an entry for every row; [order] is a [uint8_t]. *)
Definition buddy_tree_populate_size_for_order (m : mem) (t : Z) : outcome mem :=
  order ← t_order m t;
  elements ← size_for_order order 0;
  let bitset_offset := round_to_words (bitset_sizeof elements) in
  m ← st64 m (u64 (t + off_size_for_order_offset)) (bitset_offset / 8);
  offset ← t_size_for_order_offset m t;
  m ← st64 m (u64 (t + off_size_for_order_offset)) (u64 (offset + 1));
  loop 258 (populate_body t) (m, 0).

Definition buddy_tree_init (m : mem) (at_ order : Z) : outcome (mem * Z) :=
  size ← buddy_tree_sizeof order;
  let t := at_ in
  '(m, _) ← memset m at_ 0 size;
  m ← st8 m (u64 (t + off_order)) order;
  order ← t_order m t;
  m ← st64 m t (two_to_the_power_of order);
  m ← buddy_tree_populate_size_for_order m t;
  Ok (m, t).

(** ** Reading and writing the bits of a position *)

Definition buddy_tree_valid (m : mem) (t : Z) (pos : buddy_tree_pos) : outcome bool :=
  if index pos =? 0 then Ok false else
  upper ← t_upper_pos_bound m t;
  Ok (index pos <? upper).

Definition buddy_tree_order (m : mem) (t : Z) : outcome Z := t_order m t.

Definition buddy_tree_leftmost_child (m : mem) (t : Z) : outcome buddy_tree_pos :=
  order ← t_order m t;
  Ok (buddy_tree_leftmost_child_internal order).

Definition buddy_tree_size_for_order (m : mem) (t to : Z) : outcome Z :=
  offset ← t_size_for_order_offset m t;
  ld64 m (u64 (buddy_tree_bits t + 8 * u64 (offset + to))).

Definition buddy_tree_internal_position_tree (m : mem) (t : Z) (pos : buddy_tree_pos)
    : outcome internal_position :=
  order ← t_order m t;
  let local_offset := u64 (u64 (order - depth pos) + 1) in
  total_offset ← buddy_tree_size_for_order m t (u8 local_offset);
  let local_index := buddy_tree_index_internal pos in
  Ok {| local_offset := local_offset;
        bitset_location := u64 (total_offset + u64 (local_offset * local_index)) |}.

Definition write_to_internal_position (m : mem) (t : Z) (pos : internal_position) (value : Z)
    : outcome mem :=
  let bitset := buddy_tree_bits t in
  let clear_range :=
    bitset_range (bitset_location pos) (u64 (u64 (bitset_location pos + local_offset pos) - 1)) in
  m ← bitset_clear_range m bitset clear_range;
  if negb (value =? 0)
  then bitset_set_range m bitset
         (bitset_range (bitset_location pos) (u64 (u64 (bitset_location pos + value) - 1)))
  else Ok m.

Definition read_from_internal_position (m : mem) (bitset : Z) (pos : internal_position)
    : outcome Z :=
  b ← bitset_test m bitset (bitset_location pos);
  if negb b then Ok 0 else
  bitset_count_range m bitset
    (bitset_range (bitset_location pos) (u64 (u64 (bitset_location pos + local_offset pos) - 1))).

Definition compare_with_internal_position (m : mem) (bitset : Z) (pos : internal_position)
    (value : Z) : outcome bool :=
  bitset_test m bitset (u64 (u64 (bitset_location pos + value) - 1)).

(** ** Allocation *)

Definition buddy_tree_status (m : mem) (t : Z) (pos : buddy_tree_pos) : outcome Z :=
  internal ← buddy_tree_internal_position_tree m t pos;
  read_from_internal_position m (buddy_tree_bits t) internal.

(** [(size_current || size_sibling) * (min + 1)] *)
Definition target_parent (size_current size_sibling : Z) : Z :=
  u64 ((if negb (size_current =? 0) || negb (size_sibling =? 0) then 1 else 0) *
       u64 ((if size_current <=? size_sibling then size_current else size_sibling) + 1)).

(** One turn of [update_parent_chain]; its state is the memory, the position,
    its bits and its size. *)
Definition update_parent_body (t : Z) (s : mem * buddy_tree_pos * internal_position * Z)
    : outcome (mem * buddy_tree_pos * internal_position * Z + mem) :=
  let '(m, pos, pos_internal, size_current) := s in
  let bits := buddy_tree_bits t in
  if index pos =? 1 then Ok (inr m) else
  let pos_internal :=
    {| local_offset := local_offset pos_internal;
       bitset_location := u64 (bitset_location pos_internal +
         u64 (local_offset pos_internal -
              u64 (u64 (2 * local_offset pos_internal) * Z.land (index pos) 1))) |} in
  size_sibling ← read_from_internal_position m bits pos_internal;
  let pos := buddy_tree_parent pos in
  pos_internal ← buddy_tree_internal_position_tree m t pos;
  size_parent ← read_from_internal_position m bits pos_internal;
  if target_parent size_current size_sibling =? size_parent then Ok (inr m) else
  m ← write_to_internal_position m t pos_internal (target_parent size_current size_sibling);
  Ok (inl (m, pos, pos_internal, target_parent size_current size_sibling)).

(** The index is halved at every turn: it is one within 64 turns. *)
Definition update_parent_chain (m : mem) (t : Z) (pos : buddy_tree_pos)
    (pos_internal : internal_position) (size_current : Z) : outcome mem :=
  loop 65 (update_parent_body t) (m, pos, pos_internal, size_current).

Definition buddy_tree_mark (m : mem) (t : Z) (pos : buddy_tree_pos) : outcome mem :=
  internal ← buddy_tree_internal_position_tree m t pos;
  m ← write_to_internal_position m t internal (local_offset internal);
  update_parent_chain m t pos internal (local_offset internal).

Inductive buddy_tree_release_status :=
  | BUDDY_TREE_RELEASE_SUCCESS
  | BUDDY_TREE_RELEASE_FAIL_PARTIALLY_USED.

Definition buddy_tree_release (m : mem) (t : Z) (pos : buddy_tree_pos)
    : outcome (mem * buddy_tree_release_status) :=
  internal ← buddy_tree_internal_position_tree m t pos;
  value ← read_from_internal_position m (buddy_tree_bits t) internal;
  if negb (value =? local_offset internal)
  then Ok (m, BUDDY_TREE_RELEASE_FAIL_PARTIALLY_USED)
  else
    m ← write_to_internal_position m t internal 0;
    m ← update_parent_chain m t pos internal 0;
    Ok (m, BUDDY_TREE_RELEASE_SUCCESS).

(** One turn of the descent of [buddy_tree_find_free]; its state is the
    position, its depth and the status wanted below it. *)
Definition find_free_body (m : mem) (t target_depth : Z) (s : buddy_tree_pos * Z * Z)
    : outcome (buddy_tree_pos * Z * Z + buddy_tree_pos) :=
  let '(current_pos, current_depth, target_status) := s in
  let tree_bits := buddy_tree_bits t in
  if current_depth =? target_depth then Ok (inr current_pos) else
  let target_status := u8 (target_status - 1) in
  let current_depth := u64 (current_depth + 1) in
  let left_pos := buddy_tree_left_child current_pos in
  let right_pos := buddy_tree_sibling left_pos in
  left_internal ← buddy_tree_internal_position_tree m t left_pos;
  let right_internal :=
    {| local_offset := local_offset left_internal;
       bitset_location := u64 (bitset_location left_internal + local_offset left_internal) |} in
  left_busy ← compare_with_internal_position m tree_bits left_internal (target_status + 1);
  if (left_busy : bool) then Ok (inl (right_pos, current_depth, target_status)) else
  right_busy ← compare_with_internal_position m tree_bits right_internal (target_status + 1);
  if (right_busy : bool) then Ok (inl (left_pos, current_depth, target_status)) else
  right_status ← read_from_internal_position m tree_bits right_internal;
  if negb (right_status =? 0) then
    left_fuller ← compare_with_internal_position m tree_bits left_internal right_status;
    Ok (inl (if (left_fuller : bool) then left_pos else right_pos, current_depth, target_status))
  else Ok (inl (left_pos, current_depth, target_status)).

(** [target_depth] is a [uint8_t]. *)
Definition buddy_tree_find_free (m : mem) (t target_depth : Z) : outcome buddy_tree_pos :=
  let current_pos := buddy_tree_root in
  let target_status := u8 (target_depth - 1) in
  status ← buddy_tree_status m t current_pos;
  if target_status <? status then Ok INVALID_POS else
  loop 256 (find_free_body m t target_depth) (current_pos, depth current_pos, target_status).

Definition is_free_body (m : mem) (t : Z) (pos : buddy_tree_pos)
    : outcome (buddy_tree_pos + bool) :=
  valid ← buddy_tree_valid m t pos;
  if negb valid then Ok (inr true) else
  internal ← buddy_tree_internal_position_tree m t pos;
  value ← read_from_internal_position m (buddy_tree_bits t) internal;
  if negb (value =? 0) then Ok (inr (negb (value =? local_offset internal))) else
  Ok (inl (buddy_tree_parent pos)).

Definition buddy_tree_is_free (m : mem) (t : Z) (pos : buddy_tree_pos) : outcome bool :=
  status ← buddy_tree_status m t pos;
  if negb (status =? 0) then Ok false else
  loop 66 (is_free_body m t) (buddy_tree_parent pos).

Definition buddy_tree_can_shrink (m : mem) (t : Z) : outcome bool :=
  status ← buddy_tree_status m t (buddy_tree_right_child buddy_tree_root);
  if negb (status =? 0) then Ok false else
  root_internal ← buddy_tree_internal_position_tree m t buddy_tree_root;
  root_value ← read_from_internal_position m (buddy_tree_bits t) root_internal;
  Ok (negb (root_value =? local_offset root_internal)).

(** ** Intervals and walks *)

Definition interval_body (m : mem) (t : Z) (s : buddy_tree_interval_t * Z)
    : outcome (buddy_tree_interval_t * Z + buddy_tree_interval_t) :=
  let '(result, depth) := s in
  order ← t_order m t;
  if depth =? order then Ok (inr result) else
  Ok (inl ({| iv_from := buddy_tree_left_child (iv_from result);
              iv_to := buddy_tree_right_child (iv_to result) |}, u64 (depth + 1))).

Definition buddy_tree_interval (m : mem) (t : Z) (pos : buddy_tree_pos)
    : outcome buddy_tree_interval_t :=
  loop 257 (interval_body m t) ({| iv_from := pos; iv_to := pos |}, depth pos).

Record buddy_tree_walk_state := WalkState {
  starting_pos : buddy_tree_pos;
  current_pos : buddy_tree_pos;
  going_up : bool;
  walk_done : bool;
}.

Definition buddy_tree_walk_state_root : buddy_tree_walk_state :=
  {| starting_pos := buddy_tree_root; current_pos := buddy_tree_root;
     going_up := false; walk_done := false |}.

Definition walk_body (m : mem) (t : Z) (s : buddy_tree_walk_state)
    : outcome (buddy_tree_walk_state + buddy_tree_walk_state) :=
  s ← (if going_up s then
         if index (current_pos s) =? index (starting_pos s) then
           Ok {| starting_pos := starting_pos s; current_pos := current_pos s;
                 going_up := false; walk_done := true |}
         else if negb (Z.land (index (current_pos s)) 1 =? 0) then
           Ok {| starting_pos := starting_pos s;
                 current_pos := buddy_tree_parent (current_pos s);
                 going_up := true; walk_done := walk_done s |}
         else
           Ok {| starting_pos := starting_pos s;
                 current_pos := buddy_tree_right_adjacent (current_pos s);
                 going_up := false; walk_done := walk_done s |}
       else
         valid ← buddy_tree_valid m t (buddy_tree_left_child (current_pos s));
         if (valid : bool) then
           Ok {| starting_pos := starting_pos s;
                 current_pos := buddy_tree_left_child (current_pos s);
                 going_up := false; walk_done := walk_done s |}
         else
           Ok {| starting_pos := starting_pos s; current_pos := current_pos s;
                 going_up := true; walk_done := walk_done s |});
  Ok (if going_up s then inl s else inr s).

(** A walk goes up at most the depth of the tree before it goes down again or
    is done. *)
Definition buddy_tree_walk (m : mem) (t : Z) (state : buddy_tree_walk_state)
    : outcome (bool * buddy_tree_walk_state) :=
  s ← loop 67 (walk_body m t) state;
  Ok (negb (walk_done s), s).

(** ** Resizing *)

Definition grow_row_body (t : Z) (s : mem * Z * buddy_tree_pos * buddy_tree_pos)
    : outcome (mem * Z * buddy_tree_pos * buddy_tree_pos + mem) :=
  let '(m, current_order, cur_pos, next_pos) := s in
  if current_order =? 0 then Ok (inr m) else
  order ← t_order m t;
  current_internal ← buddy_tree_internal_position_order order cur_pos;
  next_internal ← buddy_tree_internal_position_order (u64 (order + 1)) next_pos;
  let node_count := two_to_the_power_of (u64 (current_order - 1)) in
  m ← bitset_shift_right m (buddy_tree_bits t) (bitset_location current_internal)
        (u64 (bitset_location current_internal + u64 (local_offset current_internal * node_count)))
        (u64 (bitset_location next_internal - bitset_location current_internal));
  let from := u64 (bitset_location next_internal + u64 (local_offset next_internal * node_count)) in
  let to := u64 (u64 (bitset_location next_internal +
                      u64 (u64 (local_offset next_internal * node_count) * 2)) - 1) in
  m ← bitset_clear_range m (buddy_tree_bits t) (bitset_range from to);
  Ok (inl (m, u64 (current_order - 1), buddy_tree_parent cur_pos, buddy_tree_parent next_pos)).

Definition grow_body (t desired_order : Z) (m : mem) : outcome (mem + mem) :=
  order ← t_order m t;
  if negb (order <? desired_order) then Ok (inr m) else
  let current_order := order in
  m ← loop 257 (grow_row_body t)
        (m, current_order, buddy_tree_leftmost_child_internal current_order,
         buddy_tree_leftmost_child_internal (u64 (current_order + 1)));
  m ← st8 m (u64 (t + off_order)) (u8 (order + 1));
  order ← t_order m t;
  m ← st64 m t (two_to_the_power_of order);
  m ← buddy_tree_populate_size_for_order m t;
  let pos := buddy_tree_right_child buddy_tree_root in
  internal ← buddy_tree_internal_position_tree m t pos;
  m ← update_parent_chain m t pos internal 0;
  Ok (inl m).

(** The order grows by one at every turn, up to a [uint8_t]. *)
Definition buddy_tree_grow (m : mem) (t desired_order : Z) : outcome mem :=
  loop 257 (grow_body t desired_order) m.

Definition shrink_row_body (t current_order next_order : Z) (s : mem * buddy_tree_pos)
    : outcome (mem * buddy_tree_pos + mem) :=
  let '(m, left_start) := s in
  valid ← buddy_tree_valid m t left_start;
  if negb valid then Ok (inr m) else
  current_internal ← buddy_tree_internal_position_order current_order left_start;
  next_internal ← buddy_tree_internal_position_order next_order (buddy_tree_parent left_start);
  let node_count := two_to_the_power_of (u64 (depth left_start - 1)) in
  m ← bitset_shift_left m (buddy_tree_bits t) (bitset_location current_internal)
        (u64 (bitset_location current_internal +
              u64 (local_offset current_internal * node_count) / 2))
        (u64 (bitset_location current_internal - bitset_location next_internal));
  Ok (inl (m, buddy_tree_left_child left_start)).

Definition shrink_body (t desired_order : Z) (m : mem) : outcome (mem + mem) :=
  order ← t_order m t;
  if negb (desired_order <? order) then Ok (inr m) else
  can_shrink ← buddy_tree_can_shrink m t;
  if negb can_shrink then Ok (inr m) else
  let current_order := order in
  let next_order := u64 (current_order - 1) in
  m ← loop 257 (shrink_row_body t current_order next_order)
        (m, buddy_tree_left_child buddy_tree_root);
  m ← st8 m (u64 (t + off_order)) (u8 next_order);
  order ← t_order m t;
  m ← st64 m t (two_to_the_power_of order);
  m ← buddy_tree_populate_size_for_order m t;
  Ok (inl m).

Definition buddy_tree_shrink (m : mem) (t desired_order : Z) : outcome mem :=
  loop 257 (shrink_body t desired_order) m.

Definition buddy_tree_resize (m : mem) (t desired_order : Z) : outcome mem :=
  order ← t_order m t;
  if order =? desired_order then Ok m else
  order ← t_order m t;
  if order <? desired_order
  then buddy_tree_grow m t desired_order
  else buddy_tree_shrink m t desired_order.
