(* ===== verification/BuddyRep.v ===== *)
(** * The bits of the buddy allocation tree

    [tree_rep m t o S] says that the bytes at [t] are a tree of order [o] whose
    node [i] holds the status [S i]: the header, the memo and, for every node,
    as many leading ones as its status.  The lemmas say what reading, comparing
    and writing a position do to [S], and that nothing else of the tree moves. *)
From stdpp Require Import functions.
From S2P Require Import Prelude Mem MemSet BuddyBits BuddyPos BuddyTree.

(** ** The layout of a tree *)

(** The bytes of the bits, of the bits as the code rounds them, the word the
    memo starts at, and the size of the whole. *)
Definition bits_bytes (o : Z) : Z := (row_offset o o + 7) / 8.
Definition rounded_bytes (o : Z) : Z := bits_bytes o + bits_bytes o mod 8.
Definition memo_word (o : Z) : Z := rounded_bytes o / 8 + 1.
Definition tree_size (o : Z) : Z := 24 + rounded_bytes o + (o + 2) * 8.

(** The address of the memo's entry for rows of [to]-bit nodes. *)
Definition memo_at (t o to : Z) : Z := t + 24 + 8 * (memo_word o + to).

(** The tree's header and memo, and the bytes it lives in. *)
Record tree_header (m : mem) (t o : Z) : Prop := TreeHeader {
  th_order : order_ok o;
  th_bytes : bytes_at m t (tree_size o);
  th_upper : ld64 m t = Ok (2 ^ o);
  th_offset : ld64 m (t + 8) = Ok (memo_word o);
  th_ord : ld8 m (t + 16) = Ok o;
  th_memo : ∀ to, 0 ≤ to ≤ o → ld64 m (memo_at t o to) = Ok (row_offset o (o - to));
}.

(** Node [i] holds [s]: that many ones, then zeros. *)
Definition node_bits (m : mem) (t o i s : Z) : Prop :=
  0 ≤ s ≤ height o i ∧
  ∀ j, 0 ≤ j < height o i → bit m (t + 24) (location o i + j) = (j <? s).

Record tree_rep (m : mem) (t o : Z) (S : Z → Z) : Prop := TreeRep {
  tr_header : tree_header m t o;
  tr_bits : ∀ i, node o i → node_bits m t o i (S i);
}.

(** * Lemmas *)

(** ** Layout *)

Lemma bits_bytes_bound o : order_ok o → 0 ≤ bits_bytes o < 2 ^ 57.
Proof.
  intros Ho. pose proof (row_offset_bound o o Ho ltac:(destruct Ho; lia)).
  unfold bits_bytes. dlia.
Qed.

Lemma layout o :
  order_ok o →
  bits_bytes o ≤ 8 * memo_word o ∧ 24 + 8 * (memo_word o + o) + 8 ≤ tree_size o ∧
  rounded_bytes o < 2 ^ 58 ∧ 0 ≤ rounded_bytes o.
Proof.
  intros Ho. pose proof (bits_bytes_bound o Ho). destruct Ho.
  unfold memo_word, tree_size, rounded_bytes. dlia.
Qed.

Lemma round_to_words_bits o : order_ok o → round_to_words (bits_bytes o) = rounded_bytes o.
Proof.
  intros Ho. pose proof (bits_bytes_bound o Ho). unfold round_to_words, rounded_bytes.
  destruct (Z.eqb_spec (bits_bytes o mod 8) 0) as [->|]; simpl; [lia|].
  rewrite u64_small; dlia.
Qed.

Lemma size_for_order_all o : order_ok o → size_for_order o 0 = Ok (row_offset o o).
Proof.
  intros Ho. rewrite <-(Z.sub_diag o). apply size_for_order_row; [done|].
  destruct Ho; lia.
Qed.

Lemma bitset_sizeof_tree o : order_ok o → bitset_sizeof (row_offset o o) = bits_bytes o.
Proof.
  intros Ho. pose proof (row_offset_bound o o Ho ltac:(destruct Ho; lia)).
  unfold bitset_sizeof, bits_bytes. rewrite (u64_small (_ + 8)), u64_small by lia.
  f_equal. lia.
Qed.

Lemma buddy_tree_sizeof_eq o : order_ok o → buddy_tree_sizeof o = Ok (tree_size o).
Proof.
  intros Ho. unfold buddy_tree_sizeof. rewrite size_for_order_all by done.
  rewrite bind_ok, bitset_sizeof_tree, round_to_words_bits by done.
  pose proof (layout o Ho) as (_ & _ & ? & ?). destruct Ho.
  unfold sizeof_buddy_tree, tree_size.
  by rewrite (u64_small (24 + _)), (u64_small (_ * _)), u64_small by lia.
Qed.

(** ** Reading words of an unchanged part *)

Lemma ld64_frame m m' lo hi a w :
  mem_frame m m' lo hi → a + 8 ≤ lo ∨ hi ≤ a → ld64 m a = Ok w → ld64 m' a = Ok w.
Proof.
  intros Hfr Ha <-. apply ld64_same. intros x Hx. apply (mf_out _ _ _ _ Hfr). lia.
Qed.

Lemma ld8_frame m m' lo hi a w :
  mem_frame m m' lo hi → ¬ (lo ≤ a < hi) → ld8 m a = Ok w → ld8 m' a = Ok w.
Proof. intros Hfr Ha <-. unfold ld8. by rewrite (mf_out _ _ _ _ Hfr). Qed.

(** A frame that leaves the header and the memo alone. *)
Lemma tree_header_frame m m' t o lo hi :
  mem_frame m m' lo hi →
  (t + 24 ≤ lo ∧ hi ≤ t + 24 + bits_bytes o) ∨ hi ≤ t ∨ t + tree_size o ≤ lo →
  tree_header m t o → tree_header m' t o.
Proof.
  intros Hfr Hlo [Ho Hb Hu Hf Hr Hm]. pose proof (layout o Ho) as (? & ? & _).
  assert (0 ≤ bits_bytes o) by (apply (bits_bytes_bound o Ho)).
  assert (32 ≤ tree_size o) by (destruct Ho; lia).
  split; [done|by eapply bytes_at_frame|..].
  - eapply ld64_frame; [done| |done]. lia.
  - eapply ld64_frame; [done| |done]. lia.
  - eapply ld8_frame; [done| |done]. lia.
  - intros to Hto. eapply ld64_frame; [done| |by apply Hm]. unfold memo_at. lia.
Qed.

Lemma tree_rep_frame m m' t o S lo hi :
  mem_frame m m' lo hi → hi ≤ t ∨ t + tree_size o ≤ lo →
  tree_rep m t o S → tree_rep m' t o S.
Proof.
  intros Hfr Hlo [Hh Hb]. split; [eapply tree_header_frame; [done| |done]; lia|].
  intros i Hi. destruct (Hb i Hi) as [Hs Hbit]. split; [done|]. intros j Hj.
  rewrite <-Hbit by done. eapply bit_frame; [done|].
  pose proof (th_order _ _ _ Hh) as Ho.
  pose proof (location_range o i Ho Hi) as (? & ? & ?).
  pose proof (layout o Ho) as (? & ? & _). unfold bits_bytes, tree_size in *. dlia.
Qed.

Lemma tree_rep_ext m t o S S' :
  (∀ i, node o i → S i = S' i) → tree_rep m t o S → tree_rep m t o S'.
Proof. intros H [Hh Hb]. split; [done|]. intros i Hi. rewrite <-H by done. auto. Qed.

(** ** Header accesses *)

Section header.
Context {m : mem} {t o : Z} (Hh : tree_header m t o).

Lemma tree_addr : 0 ≤ t ∧ t + tree_size o ≤ 2 ^ 64 ∧ 48 ≤ tree_size o.
Proof using Hh.
  pose proof (ba_range _ _ _ (th_bytes _ _ _ Hh)). pose proof (th_order _ _ _ Hh) as Ho.
  pose proof (layout o Ho) as (_ & _ & _ & ?). unfold tree_size in *. destruct Ho. lia.
Qed.

Lemma t_upper_eq : t_upper_pos_bound m t = Ok (2 ^ o).
Proof using Hh. apply Hh. Qed.

Lemma t_offset_eq : t_size_for_order_offset m t = Ok (memo_word o).
Proof using Hh.
  pose proof tree_addr. unfold t_size_for_order_offset, off_size_for_order_offset.
  rewrite u64_small by lia. apply Hh.
Qed.

Lemma t_order_eq : t_order m t = Ok o.
Proof using Hh.
  pose proof tree_addr. unfold t_order, off_order. rewrite u64_small by lia. apply Hh.
Qed.

Lemma tree_bits_eq : buddy_tree_bits t = t + 24.
Proof using Hh.
  pose proof tree_addr. unfold buddy_tree_bits, sizeof_buddy_tree. apply u64_small. lia.
Qed.

Lemma size_for_order_memo to :
  0 ≤ to ≤ o → buddy_tree_size_for_order m t to = Ok (row_offset o (o - to)).
Proof using Hh.
  intros Hto. unfold buddy_tree_size_for_order. rewrite t_offset_eq, bind_ok, tree_bits_eq.
  pose proof (th_order _ _ _ Hh) as Ho. pose proof tree_addr.
  pose proof (layout o Ho) as (? & ? & ? & ?).
  assert (0 ≤ memo_word o) by (unfold memo_word; dlia).
  rewrite (u64_small (memo_word o + to)), u64_small by lia. by apply Hh.
Qed.

Lemma internal_position_node i :
  node o i → buddy_tree_internal_position_tree m t (pos_of i) =
    Ok {| local_offset := height o i; bitset_location := location o i |}.
Proof using Hh.
  intros Hi. pose proof (th_order _ _ _ Hh) as Ho.
  pose proof (internal_position_order_node o i Ho Hi) as E.
  unfold buddy_tree_internal_position_order in E.
  unfold buddy_tree_internal_position_tree. rewrite t_order_eq, bind_ok.
  pose proof (node_log2 o i ltac:(destruct Ho; lia) Hi).
  assert (u64 (u64 (o - depth (pos_of i)) + 1) = height o i) as Hl.
  { cbn [depth pos_of]. unfold height. destruct Ho. rewrite (u64_small (o - _)), u64_small; lia. }
  rewrite Hl in *. assert (1 ≤ height o i ≤ o) by (unfold height; lia).
  destruct Ho. rewrite !u8_small in * by lia. rewrite size_for_order_memo, bind_ok by lia.
  replace (height o i) with (o - (o - height o i)) in E at 1 by lia.
  rewrite size_for_order_row, bind_ok in E by (done || lia). exact E.
Qed.

Lemma tree_valid_node i : node o i → buddy_tree_valid m t (pos_of i) = Ok true.
Proof using Hh.
  intros [? ?]. unfold buddy_tree_valid. cbn [index pos_of].
  rewrite (proj2 (Z.eqb_neq _ _)), t_upper_eq, bind_ok by lia.
  by rewrite (proj2 (Z.ltb_lt _ _)) by lia.
Qed.

Lemma tree_valid_invalid : buddy_tree_valid m t INVALID_POS = Ok false.
Proof using Hh. done. Qed.
End header.

(** ** Reading a position *)

Section read.
Context {m : mem} {t o : Z} (Hh : tree_header m t o).

Lemma bits_at : bytes_at m (t + 24) (bits_bytes o).
Proof using Hh.
  pose proof (th_order _ _ _ Hh) as Ho. pose proof (layout o Ho) as (? & ? & ? & ?).
  eapply bytes_at_mono; [apply Hh|lia|]. unfold tree_size, rounded_bytes.
  pose proof (bits_bytes_bound o Ho). destruct Ho. dlia.
Qed.

Lemma node_in_bits i :
  node o i → 0 ≤ location o i ∧ 1 ≤ height o i ≤ o ∧
  location o i + height o i ≤ 8 * bits_bytes o ∧ location o i + height o i < 2 ^ 60.
Proof using Hh.
  intros Hi. pose proof (th_order _ _ _ Hh) as Ho.
  pose proof (location_range o i Ho Hi) as (? & ? & ?).
  pose proof (row_offset_bound o o Ho ltac:(destruct Ho; lia)).
  unfold bits_bytes. dlia.
Qed.

Lemma read_node i s :
  node o i → node_bits m t o i s →
  read_from_internal_position m (t + 24)
    {| local_offset := height o i; bitset_location := location o i |} = Ok s.
Proof using Hh.
  intros Hi [Hs Hb]. pose proof (node_in_bits i Hi) as (? & ? & ? & ?).
  pose proof (th_order _ _ _ Hh) as [? ?].
  apply returns_eq. unfold read_from_internal_position. cbn [local_offset bitset_location].
  bind_step. eapply bitset_test_returns; [apply bits_at|lia|].
  pose proof (Hb 0 ltac:(lia)) as Hb0. rewrite Z.add_0_r in Hb0. rewrite Hb0.
  destruct (Z.ltb_spec 0 s); simpl; [|lia].
  rewrite (u64_small (_ + _)), u64_small by lia.
  eapply bitset_count_range_returns; [apply bits_at|lia..|].
  apply count_unary; [lia|]. intros j Hj. apply Hb. lia.
Qed.

Lemma compare_node i s v :
  node o i → node_bits m t o i s → 1 ≤ v ≤ height o i →
  compare_with_internal_position m (t + 24)
    {| local_offset := height o i; bitset_location := location o i |} v = Ok (v <=? s).
Proof using Hh.
  intros Hi [Hs Hb] Hv. pose proof (node_in_bits i Hi) as (? & ? & ? & ?).
  pose proof (th_order _ _ _ Hh) as [? ?].
  apply returns_eq. unfold compare_with_internal_position. cbn [bitset_location].
  rewrite (u64_small (_ + _)), u64_small by lia.
  eapply bitset_test_returns; [apply bits_at|lia|].
  replace (location o i + v - 1) with (location o i + (v - 1)) by lia.
  rewrite Hb by lia. destruct (Z.ltb_spec (v - 1) s), (Z.leb_spec v s); lia || done.
Qed.
End read.

(** ** Writing a position *)

Lemma bits_set_to_node v m m' t o i j from to s :
  0 ≤ o → node o i → node o j → i ≠ j →
  location o i ≤ from → to < location o i + height o i →
  bits_set_to v m m' (t + 24) from to → node_bits m t o j s → node_bits m' t o j s.
Proof.
  intros Ho Hi Hj Hij Hf Ht [_ Hb] [Hs Hbit]. split; [done|]. intros k Hk.
  assert (location o i + height o i ≤ location o j ∨ location o j + height o j ≤ location o i).
  { destruct (decide (i < j)); [left|right]; apply locations_disjoint; (done || lia). }
  assert (0 ≤ location o j).
  { destruct (location_row o j Ho Hj). pose proof (node_log2 o j Ho Hj).
    pose proof (row_offset_mono o 0 (Z.log2 j)). rewrite row_offset_0 in *. lia. }
  rewrite Hb by lia. rewrite decide_False by lia. by apply Hbit.
Qed.

Lemma tree_rep_update m m' t o S i v :
  tree_rep m t o S → mem_frame m m' (t + 24) (t + 24 + bits_bytes o) →
  node_bits m' t o i v →
  (∀ j, node o j → i ≠ j → node_bits m' t o j (S j)) →
  tree_rep m' t o (<[i := v]> S).
Proof.
  intros [Hh Hb] Hfr Hi Hj. split.
  - eapply tree_header_frame; [done|left; lia|done].
  - intros j Hjn. destruct (decide (i = j)) as [<-|].
    + by rewrite fn_lookup_insert.
    + rewrite fn_lookup_insert_ne by done. by apply Hj.
Qed.

Lemma write_node m t o S i v (Q : mem → Prop) :
  tree_rep m t o S → node o i → 0 ≤ v ≤ height o i →
  (∀ m', mem_frame m m' (t + 24) (t + 24 + bits_bytes o) →
     tree_rep m' t o (<[i := v]> S) → Q m') →
  returns (write_to_internal_position m t
    {| local_offset := height o i; bitset_location := location o i |} v) Q.
Proof.
  intros Hrep Hi Hv HQ. destruct (Hrep) as [Hh Hb]. pose proof (th_order _ _ _ Hh) as Ho.
  assert (0 ≤ o) as Ho0 by (destruct Ho; lia).
  pose proof (node_in_bits Hh i Hi) as (? & ? & ? & ?).
  unfold write_to_internal_position. rewrite (tree_bits_eq Hh).
  cbn [local_offset bitset_location].
  rewrite (u64_small (location o i + height o i)),
    (u64_small (location o i + height o i - 1)) by lia.
  bind_step. eapply (bitset_write_range false); [apply (bits_at Hh)|lia..|].
  intros m1 Hm1. destruct (Hm1) as [Hfr1 Hb1].
  assert (mem_frame m m1 (t + 24) (t + 24 + bits_bytes o)) as Hf1.
  { eapply mem_frame_mono; [done|dlia|dlia]. }
  assert (∀ j, node o j → i ≠ j → node_bits m1 t o j (S j)) as Hj1.
  { intros j Hj Hij. eapply (bits_set_to_node _ m m1 t o i j); [| | | | | |exact Hm1|]; auto; lia. }
  destruct (Z.eqb_spec v 0) as [->|Hv0]; simpl.
  - apply HQ; [done|]. eapply tree_rep_update; [done|done| |done].
    split; [lia|]. intros j Hj. rewrite Hb1 by lia. rewrite decide_True by lia.
    symmetry. apply Z.ltb_ge. lia.
  - assert (tree_header m1 t o) as Hh1 by (eapply tree_header_frame; [done|left; lia|done]).
    rewrite (u64_small (location o i + v)), (u64_small (location o i + v - 1)) by lia.
    eapply (bitset_write_range true); [apply (bits_at Hh1)|lia..|].
    intros m2 Hm2. destruct (Hm2) as [Hfr2 Hb2].
    assert (mem_frame m m2 (t + 24) (t + 24 + bits_bytes o)) as Hf2.
    { eapply mem_frame_trans; [done|]. eapply mem_frame_mono; [done|dlia|dlia]. }
    apply HQ; [done|]. eapply tree_rep_update; [done|done| |].
    + split; [lia|]. intros j Hj. rewrite Hb2, Hb1 by lia.
      destruct (Z.ltb_spec j v); repeat case_decide; lia || done.
    + intros j Hj Hij. eapply (bits_set_to_node _ m1 m2 t o i j); [| | | | | |exact Hm2|]; auto; lia.
Qed.

(** ** The operations on a represented tree *)

Section rep.
Context {m : mem} {t o : Z} {S : Z → Z} (Hrep : tree_rep m t o S).
Let Hh := tr_header _ _ _ _ Hrep.

Lemma read_rep i :
  node o i → read_from_internal_position m (buddy_tree_bits t)
    {| local_offset := height o i; bitset_location := location o i |} = Ok (S i).
Proof using Hrep.
  intros Hi. rewrite (tree_bits_eq Hh). apply (read_node Hh); [done|]. by apply Hrep.
Qed.

Lemma compare_rep i v :
  node o i → 1 ≤ v ≤ height o i → compare_with_internal_position m (buddy_tree_bits t)
    {| local_offset := height o i; bitset_location := location o i |} v = Ok (v <=? S i).
Proof using Hrep.
  intros Hi Hv. rewrite (tree_bits_eq Hh). apply (compare_node Hh); [done| |done].
  by apply Hrep.
Qed.

Lemma status_rep i : node o i → buddy_tree_status m t (pos_of i) = Ok (S i).
Proof using Hrep.
  intros Hi. unfold buddy_tree_status. rewrite (internal_position_node Hh) by done.
  rewrite bind_ok. by apply read_rep.
Qed.

Lemma rep_range i : node o i → 0 ≤ S i ≤ height o i.
Proof using Hrep. intros Hi. by apply Hrep. Qed.
End rep.

(** A status written to a node is read back from it, for every node of the
    tree and every status the node has bits for, and the status of every other
    node, the header and the memo are as before. *)
Lemma write_read_status m t o S i v :
  tree_rep m t o S → node o i → 0 ≤ v ≤ height o i →
  returns (internal ← buddy_tree_internal_position_tree m t (pos_of i);
           write_to_internal_position m t internal v)
    (λ m', buddy_tree_status m' t (pos_of i) = Ok v ∧
       (∀ j, node o j → j ≠ i →
          buddy_tree_status m' t (pos_of j) = buddy_tree_status m t (pos_of j)) ∧
       tree_header m' t o).
Proof.
  intros Hrep Hi Hv. rewrite (internal_position_node (tr_header _ _ _ _ Hrep)), bind_ok by done.
  eapply write_node; [done..|]. intros m' _ Hrep'. split_and!.
  - rewrite (status_rep Hrep') by done. by rewrite fn_lookup_insert.
  - intros j Hj Hji. rewrite (status_rep Hrep'), (status_rep Hrep) by done.
    by rewrite fn_lookup_insert_ne.
  - apply Hrep'.
Qed.

(** ** Initialisation *)

Lemma st64_frame m a v (Q : mem → Prop) :
  bytes_at m a 8 → 0 ≤ v < 2 ^ 64 →
  (∀ m', mem_frame m m' a (a + 8) → ld64 m' a = Ok v → Q m') →
  returns (st64 m a v) Q.
Proof.
  intros [Ha Hm Hb] Hv HQ. apply st64_returns; [done|]. intros m' Hm'.
  assert (mem_frame m m' a (a + 8)) as Hfr.
  { split.
    - intros x Hx. rewrite Hm'. by rewrite decide_False.
    - intros x. rewrite Hm'. case_decide; [|done]. split; [|by eexists]. intros _. by apply Hm.
    - intros _ x b. rewrite Hm'. case_decide; [|by apply Hb]. intros [= <-]. apply byte_of_range. }
  apply HQ; [done|]. apply returns_eq. apply ld64_returns.
  - apply (ba_map _ _ _ (bytes_at_frame m m' a (a + 8) a 8 Hfr ltac:(by split))).
  - by apply Hfr.
  - intros w Hw Hbytes. apply word_ext; [done..|]. intros i Hi.
    specialize (Hbytes i Hi). rewrite Hm', decide_True in Hbytes by lia.
    injection Hbytes as E. rewrite <-E. f_equal. lia.
Qed.

(** [populate_body] fills the memo from entry [i] on. *)
Lemma populate_loop m t o i fuel (Q : mem → Prop) :
  order_ok o → bytes_at m t (tree_size o) → t_order m t = Ok o →
  t_size_for_order_offset m t = Ok (memo_word o) →
  0 ≤ i ≤ o + 1 → (Z.to_nat (o + 1 - i) < fuel)%nat →
  (∀ to, 0 ≤ to < i → ld64 m (memo_at t o to) = Ok (row_offset o (o - to))) →
  (∀ m', mem_frame m m' (t + 24 + bits_bytes o) (t + tree_size o) →
     (∀ to, 0 ≤ to ≤ o → ld64 m' (memo_at t o to) = Ok (row_offset o (o - to))) → Q m') →
  returns (loop fuel (populate_body t) (m, i)) Q.
Proof.
  intros Ho. revert m i. induction fuel as [|fuel IH]; intros m i Hm Hord Hoff Hi Hf Hmemo HQ; [lia|].
  pose proof (ba_range _ _ _ Hm). pose proof (layout o Ho) as (? & ? & ? & ?).
  pose proof (bits_bytes_bound o Ho). destruct (Ho) as [??].
  assert (0 ≤ memo_word o) by (unfold memo_word; dlia).
  cbn [loop]. bind_step. unfold populate_body at 1. rewrite Hord, bind_ok.
  destruct (Z.leb_spec i o); cbn [negb returns].
  2:{ apply HQ; [apply mem_frame_refl|]. intros to Hto. apply Hmemo. lia. }
  rewrite Hoff, bind_ok, u8_small by lia.
  replace i with (o - (o - i)) at 1 by lia. rewrite size_for_order_row, bind_ok by (done || lia).
  pose proof (row_offset_bound o (o - i) Ho ltac:(lia)).
  assert (buddy_tree_bits t = t + 24) as ->
    by (unfold buddy_tree_bits, sizeof_buddy_tree; apply u64_small; unfold tree_size in *; lia).
  rewrite (u64_small (memo_word o + i)), (u64_small (_ + 8 * _)) by lia.
  bind_step. apply st64_frame; [eapply bytes_at_mono; [done|lia|lia]|lia|].
  intros m1 Hfr Hld. cbn [returns]. rewrite u64_small by lia.
  assert (0 ≤ t ∧ t + 24 ≤ t + 24 + 8 * (memo_word o + i)) as [? ?] by lia.
  apply IH; [by eapply bytes_at_frame|..|lia|lia| |].
  - unfold t_order, off_order in *. rewrite u64_small in * by lia.
    eapply ld8_frame; [done|lia|done].
  - unfold t_size_for_order_offset, off_size_for_order_offset in *. rewrite u64_small in * by lia.
    eapply ld64_frame; [done|lia|done].
  - intros to Hto. destruct (decide (to = i)) as [->|]; [done|].
    eapply ld64_frame; [done| |apply Hmemo; lia]. unfold memo_at. lia.
  - intros m' Hfr' Hm'. apply HQ; [|done]. eapply mem_frame_trans; [|done].
    eapply mem_frame_mono; [done|lia|lia].
Qed.

Lemma st8_frame m a v (Q : mem → Prop) :
  bytes_at m a 1 → 0 ≤ v < 2 ^ 8 →
  (∀ m', mem_frame m m' a (a + 1) → ld8 m' a = Ok v → Q m') → returns (st8 m a v) Q.
Proof.
  intros [Ha Hm Hb] Hv HQ. rewrite st8_Some by (apply Hm; lia). rewrite u8_small by done.
  apply HQ; [|by apply ld8_Some, lookup_insert_eq].
  split.
  - intros x Hx. by rewrite lookup_insert_ne by lia.
  - intros x. destruct (decide (x = a)) as [->|].
    + rewrite lookup_insert_eq. split; [intros _; apply Hm; lia|by eexists].
    + by rewrite lookup_insert_ne.
  - intros _ x b. rewrite lookup_insert_Some. intros [[_ <-]|[_ ?]]; [done|by eapply Hb].
Qed.

(** The header and memo [buddy_tree_populate_size_for_order] writes. *)
Lemma populate_returns m t o (Q : mem → Prop) :
  order_ok o → bytes_at m t (tree_size o) → t_order m t = Ok o →
  (∀ m1 m', mem_frame m m1 (t + 8) (t + 16) →
     mem_frame m1 m' (t + 24 + bits_bytes o) (t + tree_size o) →
     t_size_for_order_offset m' t = Ok (memo_word o) →
     (∀ to, 0 ≤ to ≤ o → ld64 m' (memo_at t o to) = Ok (row_offset o (o - to))) → Q m') →
  returns (buddy_tree_populate_size_for_order m t) Q.
Proof.
  intros Ho Hm Hord HQ. pose proof (ba_range _ _ _ Hm). pose proof (layout o Ho) as (? & ? & ? & ?).
  pose proof (bits_bytes_bound o Ho). destruct (Ho) as [??].
  assert (1 ≤ memo_word o < 2 ^ 56) by (unfold memo_word; dlia).
  assert (48 ≤ tree_size o) by (unfold tree_size; lia).
  unfold buddy_tree_populate_size_for_order, off_size_for_order_offset.
  rewrite Hord, bind_ok, size_for_order_all, bind_ok, bitset_sizeof_tree, round_to_words_bits
    by done.
  unfold t_size_for_order_offset, off_size_for_order_offset in *.
  unfold t_order, off_order in Hord. rewrite !(u64_small (t + _)) in * by lia.
  bind_step. apply st64_frame; [eapply bytes_at_mono; [done|lia|lia]|dlia|]. intros m1 Hf1 Hl1.
  rewrite Hl1, bind_ok, u64_small by dlia. change (rounded_bytes o / 8 + 1) with (memo_word o).
  bind_step. apply st64_frame;
    [eapply bytes_at_mono; [eapply bytes_at_frame; [exact Hf1|exact Hm]|lia|lia]|dlia|].
  intros m2 Hf2 Hl2. assert (mem_frame m m2 (t + 8) (t + 16)) as Hf.
  { eapply mem_frame_trans; eapply mem_frame_mono; [exact Hf1|lia..|exact Hf2|lia|lia]. }
  apply (populate_loop m2 t o); [done|by eapply bytes_at_frame|..|lia|lia|lia|].
  - unfold t_order, off_order. rewrite u64_small by lia.
    eapply ld8_frame; [exact Hf|lia|done].
  - unfold t_size_for_order_offset, off_size_for_order_offset. by rewrite u64_small by lia.
  - intros m' Hf' Hmemo. apply (HQ m2 m' Hf Hf'); [|done].
    eapply ld64_frame; [exact Hf'| |done]. lia.
Qed.

(** A tree whose bytes were cleared before its header was written: every node
    holds 0. *)
Lemma cleared_bits m m1 m' t o :
  order_ok o → filled m m1 t 0 (tree_size o) →
  (∀ k, 0 ≤ k < 8 * bits_bytes o → bit m' (t + 24) k = bit m1 (t + 24) k) →
  ∀ i, node o i → node_bits m' t o i 0.
Proof.
  intros Ho Hm1 Hsame i Hi. pose proof (location_range o i Ho Hi) as (? & ? & ?).
  pose proof (bits_bytes_bound o Ho). pose proof (layout o Ho) as (? & ? & ? & ?).
  split; [lia|]. intros j Hj. rewrite (proj2 (Z.ltb_ge j 0)) by lia.
  assert ((location o i + j) / 8 < bits_bytes o) by (unfold bits_bytes; dlia).
  rewrite Hsame by dlia. unfold bit. rewrite Hm1, decide_True by dlia. apply Z.testbit_0_l.
Qed.

Lemma filled_frame m m' D v n :
  bytes_at m D n → 0 ≤ v < 2 ^ 8 → filled m m' D v n → mem_frame m m' D (D + n).
Proof.
  intros Hb Hv Hf. split.
  - intros x Hx. rewrite Hf. by rewrite decide_False.
  - intros x. rewrite Hf. case_decide; [|done]. split; [|by eexists].
    intros _. apply Hb. lia.
  - intros Hok. by eapply filled_bytes_ok.
Qed.

Lemma tree_init_returns m t o (Q : mem * Z → Prop) :
  order_ok o → bytes_at m t (tree_size o) → t mod 8 = 0 → 0 < t → t + tree_size o < 2 ^ 64 →
  (∀ m', mem_frame m m' t (t + tree_size o) → tree_rep m' t o (λ _, 0) → Q (m', t)) →
  returns (buddy_tree_init m t o) Q.
Proof.
  intros Ho Hm Ht Ht0 Hend HQ. pose proof (layout o Ho) as (? & ? & ? & ?).
  pose proof (bits_bytes_bound o Ho). destruct (Ho) as [??].
  assert (1 ≤ memo_word o < 2 ^ 56) by (unfold memo_word; dlia).
  assert (48 ≤ tree_size o) by (unfold tree_size; lia).
  unfold buddy_tree_init. rewrite buddy_tree_sizeof_eq, bind_ok by done.
  assert (memset_excess t (tree_size o) = 0) as Hex
    by (unfold memset_excess; destruct (_ <=? _); dlia).
  bind_step. apply memset_returns; [lia| |]; rewrite Hex, Z.add_0_r.
  { split; [lia|lia|apply Hm]. }
  intros m1 Hm1. change (u8 0) with 0 in Hm1. simpl.
  pose proof (filled_frame m m1 t 0 (tree_size o) Hm ltac:(lia) Hm1) as Hf1.
  pose proof (bytes_at_frame _ _ _ _ _ _ Hf1 Hm) as Hb1.
  rewrite u64_small by (unfold off_order; lia). unfold off_order.
  bind_step. apply st8_frame; [eapply bytes_at_mono; [done|lia|lia]|lia|]. intros m2 Hf2 Hl2.
  pose proof (bytes_at_frame _ _ _ _ _ _ Hf2 Hb1) as Hb2.
  assert (t_order m2 t = Ok o) as Ho2
    by (unfold t_order, off_order; by rewrite u64_small by lia).
  rewrite Ho2, bind_ok, two_to_the_power_of_pow2 by lia.
  pose proof (Z.pow_lt_mono_r 2 o 64 ltac:(lia) ltac:(lia)).
  bind_step. apply st64_frame; [eapply bytes_at_mono; [done|lia|lia]|lia|]. intros m3 Hf3 Hl3.
  pose proof (bytes_at_frame _ _ _ _ _ _ Hf3 Hb2) as Hb3.
  assert (t_order m3 t = Ok o) as Ho3.
  { unfold t_order, off_order in *. rewrite u64_small in * by lia.
    eapply ld8_frame; [exact Hf3|lia|done]. }
  bind_step. apply populate_returns with (o := o); [done..|]. intros m4 m5 Hf4 Hf5 Hoff Hmemo.
  pose proof (bytes_at_frame _ _ _ _ _ _ Hf4 Hb3) as Hb4.
  pose proof (bytes_at_frame _ _ _ _ _ _ Hf5 Hb4) as Hb5.
  cbn [returns]. apply HQ.
  - eapply mem_frame_trans; [exact Hf1|].
    do 3 (eapply mem_frame_trans; [eapply mem_frame_mono; [eassumption|lia|lia]|]).
    eapply mem_frame_mono; [exact Hf5|lia|lia].
  - split.
    + split; [done|done|..|done].
      * eapply ld64_frame; [exact Hf5|lia|]. eapply ld64_frame; [exact Hf4|lia|done].
      * unfold t_size_for_order_offset, off_size_for_order_offset in Hoff.
        by rewrite u64_small in Hoff by lia.
      * unfold t_order, off_order in *. rewrite !u64_small in * by lia.
        eapply ld8_frame; [exact Hf5|lia|]. eapply ld8_frame; [exact Hf4|lia|done].
    + apply (cleared_bits m m1); [done|exact Hm1|]. intros k Hk.
      rewrite (bit_frame _ _ _ _ _ _ Hf5), (bit_frame _ _ _ _ _ _ Hf4),
        (bit_frame _ _ _ _ _ _ Hf3), (bit_frame _ _ _ _ _ _ Hf2) by dlia. done.
Qed.
