(* ===== verification/BuddyNodes.v ===== *)
(** * Nodes handed out by the buddy allocator

    The specification the allocation tree implements: a set of nodes, none below
    another, each of which is a block in use.  [status o A i] is what node [i]
    of a tree of order [o] has to hold for the blocks [A]: its height when the
    node is a block, zero when nothing below it is in use, and otherwise how far
    below it the largest free node is. *)
From S2P Require Import Prelude BuddyPos.

(** ** The order of nodes *)

(** Node [j] is [i] or one of the nodes below it. *)
Definition below (i j : Z) : Prop := ∃ k, 0 ≤ k ∧ j / 2 ^ k = i.

(** Neither of two nodes is below the other. *)
Definition apart (i j : Z) : Prop := ¬ below i j ∧ ¬ below j i.

(** The nodes in use: nodes of the tree, none below another. *)
Record blocks_ok (o : Z) (A : gset Z) : Prop := BlocksOk {
  bo_node : ∀ a, a ∈ A → node o a;
  bo_apart : ∀ a b, a ∈ A → b ∈ A → below a b → a = b;
}.

(** Node [i] can be handed out. *)
Definition free_node (A : gset Z) (i : Z) : Prop := ∀ a, a ∈ A → apart a i.

(** ** The status of a node *)

(** [(l || r) * (min l r + 1)] *)
Definition join_status (l r : Z) : Z :=
  if (l =? 0) && (r =? 0) then 0 else Z.min l r + 1.

(** The status of node [i] of height [n]. *)
Fixpoint stat (A : gset Z) (n : nat) (i : Z) : Z :=
  if decide (i ∈ A) then Z.of_nat n else
  match n with
  | O | 1%nat => 0
  | S n' => join_status (stat A n' (2 * i)) (stat A n' (2 * i + 1))
  end.

Definition status (o : Z) (A : gset Z) (i : Z) : Z := stat A (Z.to_nat (height o i)) i.

(** * Lemmas *)

(** ** Below *)

Lemma below_refl i : below i i.
Proof. exists 0. split; [lia|]. by rewrite Z.pow_0_r, Z.div_1_r. Qed.

Lemma below_trans i j k : below i j → below j k → below i k.
Proof.
  intros (p & Hp & <-) (q & Hq & <-). exists (q + p). split; [lia|].
  rewrite Z.pow_add_r by lia. rewrite Z.div_div; [done| |]; pose proof (Z.pow_pos_nonneg 2 q);
    pose proof (Z.pow_pos_nonneg 2 p); lia.
Qed.

Lemma below_half i j : below i (j / 2) → below i j.
Proof. intros H. eapply below_trans; [exact H|]. exists 1. split; [lia|done]. Qed.

Lemma below_left i : below i (2 * i).
Proof. exists 1. split; [lia|]. change (2 ^ 1) with 2. dlia. Qed.

Lemma below_right i : below i (2 * i + 1).
Proof. exists 1. split; [lia|]. change (2 ^ 1) with 2. dlia. Qed.

(** A node strictly above another is above its parent. *)
Lemma below_parent i j : below i j → i ≠ j → below i (j / 2).
Proof.
  intros (k & Hk & E) Hne. destruct (decide (k = 0)) as [->|].
  { by rewrite Z.pow_0_r, Z.div_1_r in E. }
  exists (k - 1). split; [lia|]. rewrite Z.div_div by (pose proof (Z.pow_pos_nonneg 2 (k - 1)); lia).
  replace 2 with (2 ^ 1) at 1 by done. rewrite <-Z.pow_add_r by lia.
  by replace (1 + (k - 1)) with k by lia.
Qed.

(** A node strictly below another is below one of its children. *)
Lemma below_child i j : below i j → i ≠ j → below (2 * i) j ∨ below (2 * i + 1) j.
Proof.
  intros (k & Hk & E) Hne. destruct (decide (k = 0)) as [->|].
  { by rewrite Z.pow_0_r, Z.div_1_r in E. }
  assert (j / 2 ^ (k - 1) / 2 = i) as E'.
  { rewrite Z.div_div by (pose proof (Z.pow_pos_nonneg 2 (k - 1)); lia).
    replace (2 ^ (k - 1) * 2) with (2 ^ k); [done|].
    replace k with (k - 1 + 1) at 1 by lia. rewrite pow2_S by lia. lia. }
  assert (j / 2 ^ (k - 1) = 2 * i ∨ j / 2 ^ (k - 1) = 2 * i + 1) as [H|H] by dlia;
    [left|right]; exists (k - 1); split; lia.
Qed.

Lemma below_le i j : 0 ≤ j → below i j → i ≤ j.
Proof.
  intros Hj (k & Hk & <-). pose proof (Z.pow_pos_nonneg 2 k).
  apply Z.div_le_upper_bound; [lia|]. nia.
Qed.

Lemma below_antisym i j : 0 ≤ i → 0 ≤ j → below i j → below j i → i = j.
Proof. intros ?? H1%below_le H2%below_le; lia. Qed.

Lemma below_pos i j : 1 ≤ i → below i j → 1 ≤ j.
Proof.
  intros Hi (k & Hk & E). pose proof (Z.pow_pos_nonneg 2 k ltac:(lia) Hk).
  destruct (decide (1 ≤ j)); [done|]. pose proof (Z.div_le_mono j 0 (2 ^ k)).
  rewrite Z.div_0_l in * by lia. lia.
Qed.

Lemma below_log2 i j : 1 ≤ i → below i j → ∃ k, 0 ≤ k ∧ Z.log2 j = Z.log2 i + k ∧ j / 2 ^ k = i.
Proof.
  intros Hi (k & Hk & E). exists k. split_and!; [done| |done].
  pose proof (Z.pow_pos_nonneg 2 k ltac:(lia) Hk).
  assert (1 ≤ j) by (apply (below_pos i); [done|by exists k]).
  pose proof (Z.log2_shiftr j k ltac:(lia)) as Hl.
  rewrite Z.shiftr_div_pow2, E in Hl by done.
  destruct (decide (Z.log2 j < k)); [|lia].
  assert (j < 2 ^ k) by (apply Z.log2_lt_pow2; lia). rewrite Z.div_small in E by lia. lia.
Qed.

(** Two nodes above a third are one below the other. *)
Lemma below_linear i j k :
  below i k → below j k → below i j ∨ below j i.
Proof.
  intros (p & Hp & <-) (q & Hq & <-). destruct (decide (p ≤ q)).
  - right. exists (q - p). split; [lia|]. pose proof (Z.pow_pos_nonneg 2 p).
    pose proof (Z.pow_pos_nonneg 2 (q - p)).
    rewrite Z.div_div, <-Z.pow_add_r by lia. do 2 f_equal. lia.
  - left. exists (p - q). split; [lia|]. pose proof (Z.pow_pos_nonneg 2 q).
    pose proof (Z.pow_pos_nonneg 2 (p - q)).
    rewrite Z.div_div, <-Z.pow_add_r by lia. do 2 f_equal. lia.
Qed.

Lemma below_node o i j : 1 ≤ i → below i j → node o j → node o i.
Proof. intros Hi Hb [??]. pose proof (below_le i j ltac:(lia) Hb). unfold node. lia. Qed.

(** Nodes below different children are apart. *)
Lemma children_apart i a b :
  1 ≤ i → below (2 * i) a → below (2 * i + 1) b → apart a b.
Proof.
  intros Hi Ha Hb. assert (∀ c, below (2 * i) c → below (2 * i + 1) c → False) as H.
  { intros c H1 H2. apply below_log2 in H1 as (k & ? & Hk & E1); [|lia].
    apply below_log2 in H2 as (k' & ? & Hk' & E2); [|lia].
    rewrite log2_left, log2_right in * by lia. assert (k = k') as -> by lia. lia. }
  split; intros Hab.
  - apply (H b); [by eapply below_trans|done].
  - apply (H a); [done|by eapply below_trans].
Qed.

(** [below] can be decided. *)
Lemma below_dec_spec i j :
  1 ≤ i → below i j ↔ Z.log2 i ≤ Z.log2 j ∧ j / 2 ^ (Z.log2 j - Z.log2 i) = i.
Proof.
  intros Hi. split.
  - intros (k & ? & Hl & E)%below_log2; [|done]. split; [lia|].
    by replace (Z.log2 j - Z.log2 i) with k by lia.
  - intros [Hl E]. exists (Z.log2 j - Z.log2 i). split; [lia|done].
Qed.

Definition belowb (i j : Z) : bool :=
  (Z.log2 i <=? Z.log2 j) && (j / 2 ^ (Z.log2 j - Z.log2 i) =? i).

Lemma belowb_spec i j : 1 ≤ i → belowb i j = true ↔ below i j.
Proof.
  intros Hi. unfold belowb. rewrite andb_true_iff, Z.leb_le, Z.eqb_eq.
  symmetry. by apply below_dec_spec.
Qed.

(** ** Blocks *)

Lemma free_node_not_in A i : free_node A i → i ∉ A.
Proof. intros H Hi. destruct (H i Hi) as [H1 _]. apply H1, below_refl. Qed.

Lemma blocks_ok_empty o : blocks_ok o ∅.
Proof. by split. Qed.

Lemma blocks_ok_insert o A i :
  blocks_ok o A → node o i → free_node A i → blocks_ok o ({[i]} ∪ A).
Proof.
  intros [Hn Ha] Hi Hf. split.
  - intros a [->%elem_of_singleton|H]%elem_of_union; auto.
  - intros a b [->%elem_of_singleton|H]%elem_of_union [->%elem_of_singleton|H']%elem_of_union Hab;
      [done| | |by apply Ha].
    + by destruct (Hf b H').
    + by destruct (Hf a H).
Qed.

Lemma blocks_ok_subset o A B : blocks_ok o A → B ⊆ A → blocks_ok o B.
Proof. intros [Hn Ha] HB. split; intros; [apply Hn|apply Ha]; auto. Qed.

(** A block that is given back was apart from the others. *)
Lemma free_node_delete o A i : blocks_ok o A → i ∈ A → free_node (A ∖ {[i]}) i.
Proof.
  intros [Hn Ha] Hi a [HaA Hne]%elem_of_difference. rewrite elem_of_singleton in Hne.
  split; intros H; apply Hne; [|symmetry]; by apply Ha.
Qed.

(** ** Statuses *)

Lemma stat_in A n i : i ∈ A → stat A n i = Z.of_nat n.
Proof. intros H. destruct n; cbn [stat]; by rewrite decide_True. Qed.

Lemma stat_range A n i : 0 ≤ stat A n i ≤ Z.of_nat n.
Proof.
  revert i. induction n as [|n IH]; intros i; cbn [stat]; [case_decide; lia|].
  case_decide; [lia|]. destruct n as [|n]; [lia|]. unfold join_status.
  pose proof (IH (2 * i)). pose proof (IH (2 * i + 1)). destruct (_ && _); lia.
Qed.

Lemma status_in o A i : 0 ≤ height o i → i ∈ A → status o A i = height o i.
Proof. intros Hh Hi. unfold status. rewrite stat_in by done. lia. Qed.

Lemma status_nonneg o A i : 0 ≤ status o A i.
Proof. apply stat_range. Qed.

Lemma status_range o A i : 0 ≤ height o i → 0 ≤ status o A i ≤ height o i.
Proof. intros Hh. unfold status. pose proof (stat_range A (Z.to_nat (height o i)) i). lia. Qed.

(** The equation the tree keeps at a node that is no block. *)
Lemma status_children o A i :
  1 ≤ i → 2 ≤ height o i → i ∉ A →
  status o A i = join_status (status o A (2 * i)) (status o A (2 * i + 1)).
Proof.
  intros Hi Hh HA. unfold status. rewrite height_right, height_left by done.
  destruct (Z.to_nat (height o i)) as [|[|n]] eqn:E; [lia|lia|].
  replace (Z.to_nat (height o i - 1)) with (S n) by lia.
  cbn [stat]. by rewrite decide_False.
Qed.

Lemma status_leaf o A i : height o i = 1 → i ∉ A → status o A i = 0.
Proof.
  intros Hh HA. unfold status. rewrite Hh. change (Z.to_nat 1) with 1%nat.
  cbn [stat]. by rewrite decide_False.
Qed.

(** The status of a node depends on the blocks below it only. *)
Lemma stat_ext A B n i :
  1 ≤ i → (∀ a, below i a → a ∈ A ↔ a ∈ B) → stat A n i = stat B n i.
Proof.
  revert i. induction n as [|n IH]; intros i Hi H; cbn [stat].
  - rewrite (decide_ext (i ∈ A) (i ∈ B)); [done|]. apply H, below_refl.
  - rewrite (decide_ext (i ∈ A) (i ∈ B)) by (apply H, below_refl).
    destruct (decide (i ∈ B)); [done|]. destruct n as [|n]; [done|].
    rewrite (IH (2 * i)), (IH (2 * i + 1)); [done|lia|..|lia|]; intros a Ha; apply H;
      (eapply below_trans; [|exact Ha]); [apply below_right|apply below_left].
Qed.

Lemma status_ext o A B i :
  1 ≤ i → (∀ a, below i a → a ∈ A ↔ a ∈ B) → status o A i = status o B i.
Proof. intros. by apply stat_ext. Qed.

Lemma join_status_0 l r : 0 ≤ l → 0 ≤ r → join_status l r = 0 ↔ l = 0 ∧ r = 0.
Proof.
  intros. unfold join_status. destruct (Z.eqb_spec l 0), (Z.eqb_spec r 0); simpl; lia.
Qed.

Lemma node_height o i : 0 ≤ o → node o i → 1 ≤ height o i ≤ o.
Proof. intros Ho Hi. pose proof (node_log2 o i Ho Hi). unfold height. lia. Qed.

Lemma node_children o i :
  0 ≤ o → node o i → 2 ≤ height o i → node o (2 * i) ∧ node o (2 * i + 1).
Proof.
  intros Ho Hi Hh. unfold height in Hh. pose proof (node_log2 o i Ho Hi).
  split; [apply node_left|apply node_right]; (done || lia).
Qed.

(** A leaf has only itself below. *)
Lemma leaf_below o i a : 0 ≤ o → node o i → height o i = 1 → node o a → below i a → a = i.
Proof.
  intros Ho Hi Hh Ha (k & Hk & Hl & E)%below_log2; [|by destruct Hi].
  pose proof (node_log2 o a Ho Ha). unfold height in Hh.
  assert (k = 0) as -> by lia. by rewrite Z.pow_0_r, Z.div_1_r in E.
Qed.

(** Induction from the leaves up. *)
Lemma node_ind_up o (P : Z → Prop) :
  0 ≤ o →
  (∀ i, node o i → (2 ≤ height o i → P (2 * i) ∧ P (2 * i + 1)) → P i) →
  ∀ i, node o i → P i.
Proof.
  intros Ho H. cut (∀ n i, node o i → (Z.to_nat (height o i) ≤ n)%nat → P i); [eauto|].
  induction n as [|n IH]; intros i Hi Hn; pose proof (node_height o i Ho Hi); [lia|].
  apply H; [done|]. intros Hh. destruct (node_children o i Ho Hi Hh).
  split; apply IH; try done; rewrite ?height_right, height_left by (destruct Hi; lia); lia.
Qed.

(** A node's status is zero when nothing at it or below it is in use. *)
Lemma status_zero o A i :
  0 ≤ o → blocks_ok o A → node o i →
  status o A i = 0 ↔ ∀ a, a ∈ A → ¬ below i a.
Proof.
  intros Ho HA. revert i. apply (node_ind_up o); [done|]. intros i Hi IH.
  pose proof (node_height o i Ho Hi) as Hh.
  destruct (decide (i ∈ A)) as [Hin|Hin].
  { rewrite status_in by (done || lia). split; [lia|]. intros H.
    destruct (H i Hin). apply below_refl. }
  destruct (decide (height o i = 1)) as [H1|H1].
  { rewrite status_leaf by done. split; [|done]. intros _ a Ha Hb.
    apply Hin. by rewrite <-(leaf_below o i a Ho Hi H1 (bo_node _ _ HA a Ha) Hb). }
  destruct (IH ltac:(lia)) as [IHl IHr]. destruct (node_children o i Ho Hi ltac:(lia)) as [Hl Hr].
  rewrite status_children by (done || lia || (destruct Hi; lia)).
  rewrite join_status_0 by apply status_nonneg.
  rewrite IHl, IHr. split.
  - intros [H2 H3] a Ha Hb. destruct (decide (i = a)) as [->|]; [done|].
    destruct (below_child i a Hb) as [?|?]; [done|by apply (H2 a)|by apply (H3 a)].
  - intros H. split; intros a Ha Hb; apply (H a Ha); (eapply below_trans; [|exact Hb]);
      [apply below_left|apply below_right].
Qed.

Lemma status_free o A i : 0 ≤ o → blocks_ok o A → node o i → free_node A i → status o A i = 0.
Proof. intros Ho HA Hi Hf. apply status_zero; [done..|]. intros a Ha Hb. by destruct (Hf a Ha). Qed.

(** A free node [s] levels below bounds a node's status. *)
Lemma status_le_free o A i j s :
  0 ≤ o → blocks_ok o A → node o j → free_node A j → 1 ≤ i → below i j →
  Z.log2 j = Z.log2 i + s → status o A i ≤ s.
Proof.
  intros Ho HA Hj Hf Hi Hb Hs. assert (0 ≤ s) as Hs0.
  { apply below_log2 in Hb as (? & ? & ? & ?); lia. }
  revert i Hi Hb Hs. pattern s. apply natlike_ind; [|clear s Hs0|done].
  - intros i Hi Hb Hs. assert (i = j) as ->.
    { apply below_log2 in Hb as (k & ? & ? & E); [|done]. assert (k = 0) as -> by lia.
      by rewrite Z.pow_0_r, Z.div_1_r in E. }
    by rewrite status_free.
  - intros s Hs0 IH i Hi Hb Hs. assert (i ≠ j) as Hne by (intros ->; lia).
    pose proof (below_node o i j Hi Hb Hj) as Hin.
    pose proof (node_log2 o j Ho Hj). assert (2 ≤ height o i) as Hh by (unfold height; lia).
    destruct (node_children o i Ho Hin Hh) as [Hl Hr].
    rewrite status_children; [|done|done|].
    2:{ intros HiA. by destruct (Hf i HiA). }
    unfold join_status. destruct (_ && _); [lia|].
    destruct (below_child i j Hb Hne) as [Hc|Hc].
    + pose proof (IH (2 * i) ltac:(lia) Hc ltac:(rewrite log2_left by lia; lia)). lia.
    + pose proof (IH (2 * i + 1) ltac:(lia) Hc ltac:(rewrite log2_right by lia; lia)). lia.
Qed.

(** ** Sets that differ in one node *)

(** [A] and [B] are the same but for node [i], and no block of either is
    strictly above [i]. *)
Record differ_at (A B : gset Z) (i : Z) : Prop := DifferAt {
  da_same : ∀ a, a ≠ i → a ∈ A ↔ a ∈ B;
  da_above : ∀ a, a ∈ A ∨ a ∈ B → below a i → a = i;
}.

(** A node that is not above [i] has the same status for both. *)
Lemma differ_at_status o A B i j :
  differ_at A B i → 1 ≤ j → ¬ below j i → status o A j = status o B j.
Proof.
  intros [Hs _] Hj Hb. apply status_ext; [done|]. intros a Ha. apply Hs. by intros ->.
Qed.

(** Once a node above [i] has the same status for both, so have all above it. *)
Lemma differ_at_up o A B i p q :
  0 ≤ o → differ_at A B i → node o p → below p i → status o A p = status o B p →
  1 ≤ q → below q p → status o A q = status o B q.
Proof.
  intros Ho Hd Hp Hb Hst Hq (k & Hk & E). revert p Hp Hb Hst E.
  pattern k. apply natlike_ind; [|clear k Hk|done].
  { intros p _ _ Hst E. by rewrite <-E, Z.pow_0_r, Z.div_1_r. }
  intros k Hk IH p Hp Hb Hst E. destruct (decide (p = 1)) as [->|Hp1].
  { rewrite <-E in Hq. rewrite Z.div_1_l in Hq; [lia|].
    pose proof (Z.pow_gt_1 2 (Z.succ k)). lia. }
  assert (2 ≤ p) by (destruct Hp; lia). pose proof (node_parent o p Hp Hp1) as Hn.
  assert (p / 2 ≠ p) by dlia.
  assert (below (p / 2) i) as Hb2 by (eapply below_trans; [|exact Hb]; apply below_half, below_refl).
  assert (∀ C, C = A ∨ C = B → p / 2 ∉ C) as HC.
  { intros C HC Hin. assert (p / 2 = i) as E2.
    { apply (da_above _ _ _ Hd); [|done]. destruct HC as [-> | ->]; auto. }
    rewrite <-E2 in Hb. apply below_le in Hb; dlia. }
  apply (IH (p / 2)); [done|done| |].
  - pose proof (height_half o p ltac:(lia)). pose proof (node_height o p Ho Hp).
    rewrite (status_children o A (p / 2)), (status_children o B (p / 2)) by (dlia || auto).
    assert (p = 2 * (p / 2) ∨ p = 2 * (p / 2) + 1) as Ep by dlia.
    assert (∀ d, d = 2 * (p / 2) ∨ d = 2 * (p / 2) + 1 → d ≠ p →
      status o A d = status o B d) as Hsib.
    { intros d Hd' Hdp. apply (differ_at_status o A B i); [done|dlia|]. intros H'.
      destruct Ep as [Ep|Ep], Hd' as [-> | ->];
        try lia; destruct (children_apart (p / 2) i i) as [[]]; try apply below_refl;
        congruence || dlia. }
    destruct Ep as [Ep|Ep].
    + rewrite <-Ep, Hst. f_equal. rewrite Ep at 1 2. apply Hsib; lia.
    + rewrite <-Ep, Hst. f_equal. apply Hsib; lia.
  - rewrite <-E, Z.pow_succ_r, Z.div_div by (done || lia || pose proof (Z.pow_pos_nonneg 2 k); lia).
    done.
Qed.
