(* ===== verification/BuddyAlloc.v ===== *)
(** * Handing out and taking back nodes

    The operations of the allocation tree against the specification of
    BuddyNodes: a tree that represents a set of blocks represents, after
    [buddy_tree_mark], that set with one more block and, after
    [buddy_tree_release], with one less; [buddy_tree_find_free] finds a free node
    of the depth it is asked for exactly when there is one. *)
From stdpp Require Import functions.
From S2P Require Import Prelude Mem BuddyBits BuddyPos BuddyTree BuddyRep BuddyNodes.

(** The tree at [t] is of order [o] and the nodes of [A] are in use. *)
Record tree_inv (m : mem) (t o : Z) (A : gset Z) : Prop := TreeInv {
  ti_rep : tree_rep m t o (status o A);
  ti_blocks : blocks_ok o A;
}.

(** An operation on the tree touches bytes of its bits only. *)
Definition bits_frame (m m' : mem) (t o : Z) : Prop :=
  mem_frame m m' (t + 24) (t + 24 + bits_bytes o).

(** ** The way up *)

Lemma join_status_comm l r : join_status l r = join_status r l.
Proof. unfold join_status. rewrite andb_comm, Z.min_comm. done. Qed.

Lemma target_parent_join l r :
  0 ≤ l < 2 ^ 60 → 0 ≤ r < 2 ^ 60 → target_parent l r = join_status l r.
Proof.
  intros Hl Hr. unfold target_parent, join_status.
  destruct (Z.leb_spec l r); [rewrite Z.min_l by lia|rewrite Z.min_r by lia];
    rewrite (u64_small (_ + 1)) by lia;
    destruct (Z.eqb_spec l 0), (Z.eqb_spec r 0); simpl; rewrite ?u64_small; lia.
Qed.

(** The other child of a node's parent. *)
Definition other (c : Z) : Z := c + 1 - 2 * (c mod 2).

Lemma other_cases c :
  2 ≤ c → (c = 2 * (c / 2) ∧ other c = 2 * (c / 2) + 1) ∨
          (c = 2 * (c / 2) + 1 ∧ other c = 2 * (c / 2)).
Proof. intros Hc. unfold other. assert (c mod 2 = 0 ∨ c mod 2 = 1) by dlia. dlia. Qed.

Lemma other_apart c : 2 ≤ c → ¬ below (other c) c.
Proof.
  intros Hc H. assert (1 ≤ c / 2) as Hp by dlia.
  destruct (children_apart (c / 2) (2 * (c / 2)) (2 * (c / 2) + 1) Hp) as [H1 H2];
    [apply below_refl..|].
  destruct (other_cases c Hc) as [[E1 E2]|[E1 E2]]; rewrite E2, E1 in H at 1;
    [apply H2|apply H1]; rewrite <-?E1 in *; congruence.
Qed.

Lemma other_location o c :
  order_ok o → node o c → 2 ≤ c →
  u64 (location o c + u64 (height o c - u64 (u64 (2 * height o c) * Z.land c 1))) =
    location o (other c) ∧
  node o (other c) ∧ height o (other c) = height o c.
Proof.
  intros Ho Hc H2. pose proof (location_range o c Ho Hc) as (Hl & Hh & He).
  pose proof (row_offset_bound o o Ho ltac:(destruct Ho; lia)).
  change 1 with (Z.ones 1). rewrite Z.land_ones by lia. change (2 ^ 1) with 2.
  assert (node o (c / 2)) as Hp by (apply node_parent; [done|lia]).
  pose proof (height_half o c H2). pose proof (node_children o (c / 2)) as Hch.
  destruct Hch as [HL HR]; [destruct Ho; lia|done|lia|].
  pose proof (location_right o (c / 2) HL ltac:(dlia)) as Hloc.
  pose proof (height_right o (c / 2) ltac:(dlia)) as Hhr.
  destruct Ho as [Ho1 Ho2]. rewrite (u64_small (2 * _)) by lia.
  destruct (other_cases c H2) as [[Ec ->]|[Ec ->]]; rewrite <-Ec in *.
  - replace (c mod 2) with 0 by dlia. rewrite Z.mul_0_r, (u64_small 0), Z.sub_0_r by lia.
    rewrite (u64_small (height o c)), u64_small by lia. done.
  - replace (c mod 2) with 1 by dlia. rewrite Z.mul_1_r, (u64_small (2 * _)) by lia.
    split_and!; [|done|lia..].
    replace (height o c - 2 * height o c) with (- height o c) by lia.
    unfold u64. rewrite Z.add_mod_idemp_r by lia.
    pose proof (location_range o (2 * (c / 2)) ltac:(done) HL).
    rewrite Z.mod_small; lia.
Qed.

(** What [update_parent_chain] has done when it has come up to [c]: the nodes
    that are not strictly above [c] are right for [B], those above for [A]. *)
Record chain_inv (m : mem) (t o : Z) (A B : gset Z) (i c : Z) (S : Z → Z) : Prop := ChainInv {
  ci_rep : tree_rep m t o S;
  ci_node : node o c;
  ci_below : below c i;
  ci_done : ∀ j, node o j → ¬ (below j c ∧ j ≠ c) → S j = status o B j;
  ci_todo : ∀ j, node o j → below j c → j ≠ c → S j = status o A j;
}.

Lemma chain_step m t o A B i c S :
  differ_at A B i → chain_inv m t o A B i c S → 2 ≤ c →
  let p := c / 2 in
  node o p ∧ p ∉ B ∧ 2 ≤ height o p ∧ S p = status o A p ∧
  join_status (status o B c) (S (other c)) = status o B p.
Proof.
  intros Hd [Hrep Hc Hb Hdone Htodo] H2 p.
  pose proof (th_order _ _ _ (tr_header _ _ _ _ Hrep)) as Ho.
  assert (node o p) as Hp by (apply node_parent; [done|lia]).
  pose proof (other_location o c Ho Hc H2) as (_ & Ho2 & _).
  pose proof (height_half o c H2). pose proof (node_height o c ltac:(destruct Ho; lia) Hc).
  assert (below p c) as Hpc by (apply below_half, below_refl).
  assert (p ≠ c) by (subst p; dlia).
  assert (p ∉ B) as HpB.
  { intros Hin. assert (p = i) as E.
    { apply (da_above _ _ _ Hd); [by right|]. by eapply below_trans. }
    rewrite <-E in Hb. apply below_le in Hb; subst p; dlia. }
  split_and!; [done|done|unfold p; lia|by apply Htodo|].
  rewrite (status_children o B p) by (done || (unfold p; lia) || (destruct Hp; lia)).
  rewrite (Hdone (other c)) by (done || (intros [? _]; by apply (other_apart c))).
  pose proof (other_cases c H2) as HC. change (c / 2) with p in HC. clearbody p.
  destruct HC as [[E1 ->]|[E1 ->]]; [|rewrite join_status_comm]; by rewrite <-E1.
Qed.

(** The chain ends at the root, or below a parent whose status is as before. *)
Lemma chain_root m t o A B i S : chain_inv m t o A B i 1 S → tree_rep m t o (status o B).
Proof.
  intros [Hrep _ _ Hdone _]. eapply tree_rep_ext; [|done]. intros j Hj.
  apply Hdone; [done|]. intros [Hj1 Hne]. apply below_le in Hj1; [|lia]. destruct Hj; lia.
Qed.

Lemma chain_stop m t o A B i c S :
  order_ok o → differ_at A B i → chain_inv m t o A B i c S → 2 ≤ c →
  status o B (c / 2) = status o A (c / 2) → tree_rep m t o (status o B).
Proof.
  intros Ho Hd Hci H2 E. destruct (chain_step m t o A B i c S Hd Hci H2) as (Hp & HpB & Hhp & HSp & Hjoin).
  destruct (Hci) as [Hrep Hc Hb Hdone Htodo]. assert (0 ≤ o) as Ho0 by (destruct Ho; lia).
  assert (below (c / 2) i) as Hpi by (eapply below_trans; [apply below_half, below_refl|done]).
  eapply tree_rep_ext; [|exact Hrep]. intros j Hj.
  destruct (decide (j = c)) as [->|Hjc]; [by apply Hdone; [|intros []]|].
  destruct (belowb j c) eqn:Ebj; [apply belowb_spec in Ebj; [|destruct Hj; lia]|].
  - rewrite Htodo by done. apply (differ_at_up o A B i (c / 2)); try done.
    + destruct Hj; lia.
    + by apply below_parent.
  - apply Hdone; [done|]. intros [Hbj _]. apply belowb_spec in Hbj; [congruence|destruct Hj; lia].
Qed.

(** Otherwise it goes on from the parent. *)
Lemma chain_up m m1 t o A B i c S :
  differ_at A B i → chain_inv m t o A B i c S → 2 ≤ c →
  tree_rep m1 t o (<[c / 2 := status o B (c / 2)]> S) →
  chain_inv m1 t o A B i (c / 2) (<[c / 2 := status o B (c / 2)]> S).
Proof.
  intros Hd Hci H2 Hrep1. destruct (chain_step m t o A B i c S Hd Hci H2) as (Hp & _ & _ & _ & _).
  destruct (Hci) as [_ _ Hb Hdone Htodo].
  assert (below (c / 2) i) as Hpi by (eapply below_trans; [apply below_half, below_refl|done]).
  split; [done|done|done|..]; intros j Hj.
  - intros Hnb. destruct (decide (c / 2 = j)) as [<-|Hne]; [by rewrite fn_lookup_insert|].
    rewrite fn_lookup_insert_ne by done. apply Hdone; [done|].
    intros [Hbj Hjc]. apply Hnb. split; [by apply below_parent|done].
  - intros Hbj Hne. rewrite fn_lookup_insert_ne by done.
    assert (below j c) as Hbj' by by apply below_half.
    apply Htodo; [done|done|]. intros ->. apply Hne. symmetry.
    apply below_le in Hbj; dlia.
Qed.

(** [update_parent_chain] makes the whole tree right. *)
Lemma update_parent_returns t o A B i fuel m c S (Q : mem → Prop) :
  differ_at A B i → chain_inv m t o A B i c S → (Z.to_nat (Z.log2 c) < fuel)%nat →
  (∀ m', bits_frame m m' t o → tree_rep m' t o (status o B) → Q m') →
  returns (loop fuel (update_parent_body t)
    (m, pos_of c, {| local_offset := height o c; bitset_location := location o c |},
     status o B c)) Q.
Proof.
  intros Hd. revert m c S. induction fuel as [|fuel IH]; intros m c S Hci Hf HQ; [lia|].
  pose proof (th_order _ _ _ (tr_header _ _ _ _ (ci_rep _ _ _ _ _ _ _ _ Hci))) as Ho.
  assert (0 ≤ o) as Ho0 by (destruct Ho; lia).
  destruct (Hci) as [Hrep Hc Hb Hdone Htodo].
  cbn [loop]. bind_step. unfold update_parent_body at 1. cbn [index pos_of].
  destruct (Z.eqb_spec c 1) as [->|Hc1]; cbn [returns].
  { apply HQ; [apply mem_frame_refl|]. by eapply chain_root. }
  assert (2 ≤ c) as H2 by (destruct Hc; lia).
  destruct (chain_step m t o A B i c S Hd Hci H2) as (Hp & HpB & Hhp & HSp & Hjoin).
  destruct (other_location o c Ho Hc H2) as (Hloc & Hoc & Hoh).
  cbn [local_offset bitset_location]. rewrite Hloc, <-Hoh, (read_rep Hrep), bind_ok by done.
  rewrite (parent_pos_of o) by done.
  rewrite (internal_position_node (tr_header _ _ _ _ Hrep)), bind_ok by done.
  rewrite (read_rep Hrep), bind_ok by done.
  pose proof (status_range o B c) as Hr1. pose proof (rep_range Hrep _ Hoc) as Hr2.
  pose proof (node_height o c Ho0 Hc). destruct (Ho) as [Ho1 Ho2].
  rewrite target_parent_join, Hjoin, HSp by lia.
  destruct (Z.eqb_spec (status o B (c / 2)) (status o A (c / 2))) as [E|E].
  - cbn [returns]. apply HQ; [apply mem_frame_refl|]. by eapply chain_stop.
  - bind_step. eapply write_node; [done..| |].
    { apply status_range. lia. }
    intros m1 Hfr Hrep1. cbn [returns].
    apply (IH m1 (c / 2) (<[c / 2 := status o B (c / 2)]> S)); [by apply (chain_up m)| |].
    + rewrite log2_half by done. pose proof (Z.log2_pos c). lia.
    + intros m' Hfr' Hrep'. apply HQ; [|done]. by eapply mem_frame_trans.
Qed.

(** ** Marking and releasing a node *)

(** Writing the status of [i] for [B], and then the way up. *)
Lemma write_and_update m t o A B i v (Q : mem → Prop) :
  tree_inv m t o A → differ_at A B i → node o i → v = status o B i →
  (∀ m', bits_frame m m' t o → tree_rep m' t o (status o B) → Q m') →
  returns
    (m ← write_to_internal_position m t
           {| local_offset := height o i; bitset_location := location o i |} v;
     update_parent_chain m t (pos_of i)
       {| local_offset := height o i; bitset_location := location o i |} v) Q.
Proof.
  intros [Hrep HA] Hd Hi -> HQ. pose proof (th_order _ _ _ (tr_header _ _ _ _ Hrep)) as Ho.
  pose proof (node_height o i ltac:(destruct Ho; lia) Hi) as Hh.
  bind_step. eapply write_node; [done..| |].
  { apply status_range. lia. }
  intros m1 Hfr Hrep1. unfold update_parent_chain.
  eapply (update_parent_returns t o A B i); [done| | |].
  - split; [exact Hrep1|done|apply below_refl|..]; intros j Hj.
    + intros Hnb. destruct (decide (i = j)) as [<-|Hne]; [by rewrite fn_lookup_insert|].
      rewrite fn_lookup_insert_ne by done. apply (differ_at_status o A B i); [done| |].
      * destruct Hj; lia.
      * intros Hb. by apply Hnb.
    + intros _ Hne. by rewrite fn_lookup_insert_ne.
  - pose proof (node_log2 o i ltac:(destruct Ho; lia) Hi). destruct Ho. lia.
  - intros m' Hfr' Hrep'. apply HQ; [|done]. by eapply mem_frame_trans.
Qed.

Lemma mark_returns m t o A i (Q : mem → Prop) :
  tree_inv m t o A → node o i → free_node A i →
  (∀ m', bits_frame m m' t o → tree_inv m' t o ({[i]} ∪ A) → Q m') →
  returns (buddy_tree_mark m t (pos_of i)) Q.
Proof.
  intros Hinv Hi Hf HQ. destruct (Hinv) as [Hrep HA].
  pose proof (th_order _ _ _ (tr_header _ _ _ _ Hrep)) as Ho.
  pose proof (node_height o i ltac:(destruct Ho; lia) Hi) as Hh.
  unfold buddy_tree_mark.
  rewrite (internal_position_node (tr_header _ _ _ _ Hrep)), bind_ok by done.
  cbn [local_offset]. apply (write_and_update m t o A ({[i]} ∪ A)); [done| |done|..].
  - split; [set_solver|]. intros a [Ha|Ha] Hb; [by destruct (Hf a Ha)|].
    apply elem_of_union in Ha as [->%elem_of_singleton|Ha]; [done|by destruct (Hf a Ha)].
  - symmetry. apply status_in; [lia|set_solver].
  - intros m' Hfr Hrep'. apply HQ; [done|]. split; [done|]. by apply blocks_ok_insert.
Qed.

Lemma release_returns m t o A i (Q : mem * buddy_tree_release_status → Prop) :
  tree_inv m t o A → i ∈ A →
  (∀ m', bits_frame m m' t o → tree_inv m' t o (A ∖ {[i]}) →
     Q (m', BUDDY_TREE_RELEASE_SUCCESS)) →
  returns (buddy_tree_release m t (pos_of i)) Q.
Proof.
  intros Hinv Hi HQ. destruct (Hinv) as [Hrep HA].
  pose proof (th_order _ _ _ (tr_header _ _ _ _ Hrep)) as Ho.
  assert (0 ≤ o) as Ho0 by (destruct Ho; lia).
  pose proof (bo_node _ _ HA i Hi) as Hin. pose proof (node_height o i Ho0 Hin) as Hh.
  assert (blocks_ok o (A ∖ {[i]})) as HB by (eapply blocks_ok_subset; [done|set_solver]).
  unfold buddy_tree_release.
  rewrite (internal_position_node (tr_header _ _ _ _ Hrep)), bind_ok by done.
  rewrite (read_rep Hrep), bind_ok, status_in by (done || lia). cbn [local_offset].
  rewrite Z.eqb_refl. cbn [negb].
  rewrite <-bind_assoc. bind_step.
  apply (write_and_update m t o A (A ∖ {[i]})); [done| |done|..].
  - split; [set_solver|]. intros a Ha Hb. apply (bo_apart _ _ HA); [set_solver|done|done].
  - symmetry. apply status_free; [done..|]. by eapply free_node_delete.
  - intros m' Hfr Hrep'. cbn [returns]. by apply HQ.
Qed.

(** Releasing a node that is not full changes nothing and says so. *)
Lemma release_partial m t o A i :
  tree_inv m t o A → node o i → status o A i ≠ height o i →
  buddy_tree_release m t (pos_of i) = Ok (m, BUDDY_TREE_RELEASE_FAIL_PARTIALLY_USED).
Proof.
  intros [Hrep HA] Hi Hne. unfold buddy_tree_release.
  rewrite (internal_position_node (tr_header _ _ _ _ Hrep)), bind_ok by done.
  rewrite (read_rep Hrep), bind_ok by done. cbn [local_offset].
  by rewrite (proj2 (Z.eqb_neq _ _)).
Qed.

(** ** Finding a free node *)

(** A child whose status is below what is wanted has no block at or above it. *)
Lemma child_unblocked o A i c ts :
  0 ≤ o → node o i → (∀ a, a ∈ A → ¬ below a i) → c / 2 = i → node o c →
  ts ≤ height o c → status o A c < ts →
  ∀ a, a ∈ A → ¬ below a c.
Proof.
  intros Ho Hi Hab Hci Hc Hts Hst a Ha Hb. destruct (decide (a = c)) as [->|Hne].
  - rewrite status_in in Hst; [lia| |done]. pose proof (node_height o c Ho Hc). lia.
  - apply (Hab a Ha). rewrite <-Hci. by apply below_parent.
Qed.

(** The child one turn of the descent goes to. *)
Definition find_free_child (o : Z) (A : gset Z) (i ts : Z) : Z :=
  if ts <=? status o A (2 * i) then 2 * i + 1
  else if ts <=? status o A (2 * i + 1) then 2 * i
  else if status o A (2 * i + 1) =? 0 then 2 * i
  else if status o A (2 * i + 1) <=? status o A (2 * i) then 2 * i else 2 * i + 1.

Lemma find_free_child_ok o A i ts :
  0 ≤ o → node o i → i ∉ A → 1 ≤ ts < height o i → status o A i ≤ ts →
  let c := find_free_child o A i ts in
  (c = 2 * i ∨ c = 2 * i + 1) ∧ status o A c ≤ ts - 1.
Proof.
  intros Ho Hi HA Hts Hst. rewrite status_children in Hst by (done || lia || (destruct Hi; lia)).
  pose proof (status_nonneg o A (2 * i)). pose proof (status_nonneg o A (2 * i + 1)).
  unfold join_status in Hst. unfold find_free_child.
  destruct (Z.leb_spec ts (status o A (2 * i))).
  { destruct (Z.eqb_spec (status o A (2 * i)) 0); simpl in Hst; [lia|].
    split; [by right|]. lia. }
  destruct (Z.leb_spec ts (status o A (2 * i + 1))); [split; [by left|lia]|].
  destruct (Z.eqb_spec (status o A (2 * i + 1)) 0); [split; [by left|lia]|].
  destruct (Z.leb_spec (status o A (2 * i + 1)) (status o A (2 * i))); split; auto; lia.
Qed.

Lemma find_free_step m t o A i d :
  tree_inv m t o A → node o i → 1 ≤ d - (Z.log2 i + 1) → d ≤ o →
  find_free_body m t d (pos_of i, Z.log2 i + 1, d - (Z.log2 i + 1)) =
  let c := find_free_child o A i (d - (Z.log2 i + 1)) in
  Ok (inl (pos_of c, Z.log2 i + 2, d - (Z.log2 i + 2))).
Proof.
  intros [Hrep HA] Hi Hd Hdo. pose proof (tr_header _ _ _ _ Hrep) as Hh.
  pose proof (th_order _ _ _ Hh) as Ho. assert (0 ≤ o) as Ho0 by (destruct Ho; lia).
  pose proof (node_log2 o i Ho0 Hi) as Hl. destruct (Ho) as [Ho1 Ho2].
  assert (2 ≤ height o i) as H2 by (unfold height; lia). assert (1 ≤ i) as Hi1 by (destruct Hi; lia).
  destruct (node_children o i Ho0 Hi H2) as [HL HR].
  pose proof (height_left o i Hi1) as HhL. pose proof (height_right o i Hi1) as HhR.
  pose proof (location_range o (2 * i) Ho HL) as (? & ? & ?).
  pose proof (row_offset_bound o o Ho ltac:(lia)).
  set (ts := d - (Z.log2 i + 1)) in *.
  assert (1 ≤ ts ≤ height o (2 * i)) as Hts by (unfold ts, height in *; lia).
  unfold find_free_body. rewrite (proj2 (Z.eqb_neq _ _)) by lia.
  rewrite (left_child_pos_of o), sibling_pos_of_left by done.
  rewrite (internal_position_node Hh), bind_ok by done. cbn [local_offset bitset_location].
  rewrite (u64_small (location o (2 * i) + _)), <-location_right by (done || lia).
  rewrite u8_small by lia. replace (ts - 1 + 1) with ts by lia.
  rewrite (compare_rep Hrep), bind_ok by (done || lia).
  replace (u64 (Z.log2 i + 1 + 1)) with (Z.log2 i + 2) by (rewrite u64_small; lia).
  replace (ts - 1) with (d - (Z.log2 i + 2)) by (unfold ts; lia).
  unfold find_free_child. rewrite <-HhR.
  destruct (ts <=? status o A (2 * i)); [done|].
  rewrite (compare_rep Hrep), bind_ok by (done || lia).
  destruct (ts <=? status o A (2 * i + 1)); [done|].
  rewrite (read_rep Hrep), bind_ok by done. pose proof (rep_range Hrep _ HR) as HSr.
  destruct (Z.eqb_spec (status o A (2 * i + 1)) 0) as [|Hne]; [done|]. cbn [negb].
  rewrite HhR, (compare_rep Hrep), bind_ok by (done || lia).
  by destruct (_ <=? _).
Qed.

Lemma find_free_loop m t o A d fuel i (Q : buddy_tree_pos → Prop) :
  tree_inv m t o A → 1 ≤ d ≤ o →
  node o i → Z.log2 i + 1 ≤ d → (Z.to_nat (d - (Z.log2 i + 1)) < fuel)%nat →
  (∀ a, a ∈ A → ¬ below a i) → status o A i ≤ d - (Z.log2 i + 1) →
  (∀ j, node o j → Z.log2 j + 1 = d → free_node A j → Q (pos_of j)) →
  returns (loop fuel (find_free_body m t d)
    (pos_of i, Z.log2 i + 1, d - (Z.log2 i + 1))) Q.
Proof.
  intros Hinv Hd. revert i. induction fuel as [|fuel IH]; intros i Hi Hl Hf Hab Hst HQ; [lia|].
  destruct (Hinv) as [Hrep HA]. pose proof (th_order _ _ _ (tr_header _ _ _ _ Hrep)) as Ho.
  assert (0 ≤ o) as Ho0 by (destruct Ho; lia). cbn [loop]. bind_step.
  destruct (decide (Z.log2 i + 1 = d)) as [E|E].
  - unfold find_free_body. rewrite (proj2 (Z.eqb_eq _ _)) by done. cbn [returns].
    apply HQ; [done..|]. intros a Ha. split; [by apply Hab|].
    pose proof (status_nonneg o A i). assert (status o A i = 0) as H0 by lia.
    rewrite status_zero in H0 by done. by apply H0.
  - rewrite (find_free_step m t o A) by (done || lia). cbv zeta. cbn [returns].
    assert (i ∉ A) as HiA by (intros Hin; apply (Hab i Hin), below_refl).
    assert (1 ≤ i) as Hi1 by (destruct Hi; lia).
    destruct (node_children o i Ho0 Hi ltac:(unfold height; lia)) as [HL HR].
    destruct (find_free_child_ok o A i (d - (Z.log2 i + 1)) Ho0 Hi HiA ltac:(unfold height; lia) Hst)
      as [Hc Hsc].
    set (c := find_free_child o A i _) in *.
    assert (Z.log2 c = Z.log2 i + 1 ∧ node o c ∧ c / 2 = i) as (Hlc & Hnc & Hci).
    { destruct Hc as [-> | ->]; rewrite ?log2_left, ?log2_right by done; split_and!; done || dlia. }
    replace (Z.log2 i + 2) with (Z.log2 c + 1) by lia.
    apply IH; [done|lia|lia| |lia|done].
    apply (child_unblocked o A i c (d - (Z.log2 i + 1))); [done..| |lia].
    unfold height. lia.
Qed.

Lemma find_free_returns m t o A d (Q : buddy_tree_pos → Prop) :
  tree_inv m t o A → 1 ≤ d ≤ o →
  ((∀ j, node o j → Z.log2 j + 1 = d → ¬ free_node A j) → Q INVALID_POS) →
  (∀ j, node o j → Z.log2 j + 1 = d → free_node A j → Q (pos_of j)) →
  returns (buddy_tree_find_free m t d) Q.
Proof.
  intros Hinv Hd HQ0 HQ. destruct (Hinv) as [Hrep HA].
  pose proof (th_order _ _ _ (tr_header _ _ _ _ Hrep)) as Ho.
  assert (0 ≤ o) as Ho0 by (destruct Ho; lia). assert (o ≤ 58) by (destruct Ho; lia).
  assert (node o 1) as H1.
  { split; [lia|]. pose proof (Z.pow_gt_1 2 o). lia. }
  unfold buddy_tree_find_free. change buddy_tree_root with (pos_of 1).
  rewrite (status_rep Hrep), bind_ok, u8_small by (done || lia).
  destruct (Z.ltb_spec (d - 1) (status o A 1)) as [Hlt|Hle].
  - cbn [returns]. apply HQ0. intros j Hj Hjd Hf.
    pose proof (status_le_free o A 1 j (d - 1) Ho0 HA Hj Hf ltac:(lia)) as Hle.
    change (Z.log2 1) with 0 in Hle.
    assert (below 1 j); [|specialize (Hle ltac:(done) ltac:(lia)); lia].
    exists (Z.log2 j). split; [apply Z.log2_nonneg|].
    pose proof (log2_bounds j ltac:(destruct Hj; lia)) as Hb. rewrite pow2_S in Hb by apply Z.log2_nonneg.
    symmetry. apply Z.div_unique with (j - 2 ^ Z.log2 j); lia.
  - cbn [depth pos_of]. apply (find_free_loop m t o A d 256 1); try done.
    + change (Z.log2 1) with 0. lia.
    + change (Z.log2 1) with 0. lia.
    + intros a Ha Hb. pose proof (bo_node _ _ HA a Ha) as [Ha1 _].
      pose proof (below_le a 1 ltac:(lia) Hb). assert (a = 1) as -> by lia.
      rewrite status_in, height_1 in Hle by (done || rewrite height_1; lia). lia.
Qed.

(** A node the tree finds free is free: no block in use is below it or above
    it, and it has the depth asked for.  When the tree answers that there is
    none, there is none: every node of that depth is in use, wholly or in part.
    The search ends and changes nothing. *)
Lemma find_free_sound_complete m t o A d :
  tree_inv m t o A → 1 ≤ d ≤ o →
  returns (buddy_tree_find_free m t d) (λ pos,
    (pos = INVALID_POS ∧ ∀ j, node o j → Z.log2 j + 1 = d → ¬ free_node A j) ∨
    ∃ j, pos = pos_of j ∧ depth pos = d ∧ node o j ∧ free_node A j).
Proof.
  intros Hinv Hd. apply (find_free_returns m t o A d); [done..| |].
  - intros H. by left.
  - intros j Hj Hjd Hf. right. by exists j.
Qed.

(** [buddy_tree_mark] on a free node adds it to the blocks in use and
    [buddy_tree_release] of a block takes it away again: the tree is back to the
    set it had, every status on the way to the root being recomputed; both end,
    and neither writes outside the bits of the tree. *)
Lemma mark_release m t o A i :
  tree_inv m t o A → node o i → free_node A i →
  returns (buddy_tree_mark m t (pos_of i)) (λ m',
    bits_frame m m' t o ∧ tree_inv m' t o ({[i]} ∪ A) ∧
    returns (buddy_tree_release m' t (pos_of i)) (λ '(m'', st),
      st = BUDDY_TREE_RELEASE_SUCCESS ∧ bits_frame m m'' t o ∧ tree_inv m'' t o A)).
Proof.
  intros Hinv Hi Hf. eapply mark_returns; [done..|]. intros m' Hfr Hinv'.
  split_and!; [done|done|]. eapply release_returns; [done|set_solver|].
  intros m'' Hfr' Hinv''. split_and!; [done|by eapply mem_frame_trans|].
  replace A with (({[i]} ∪ A) ∖ {[i]}); [done|].
  pose proof (free_node_not_in A i Hf). set_solver.
Qed.
