(* ===== verification/Buddy.v ===== *)
(** * The buddy allocator's interface: [kernel/memory/buddy_alloc.h]

    A [struct buddy] is an address in the memory, with its tree behind it; the
    arena it manages is elsewhere in the same memory.  Pointers are addresses
    and [NULL] is 0.  Operations that change the memory return it.  The two
    debug printers ([buddy_debug], [buddy_tree_debug], [bitset_debug]) only print
    and are left out; of [buddy_tree_check_invariant] the printing is. *)
From S2P Require Import Prelude Mem MemCopy MemSet BuddyBits BuddyPos BuddyTree.

Definition NULL : Z := 0.

Definition BUDDY_ALLOC_ALIGN : Z := 64.
Definition BUDDY_RELATIVE_MODE : Z := 1.

(** ** [struct buddy] *)

(** The offsets of [alignment], [arena] and [buddy_flags], the first field being
    [memory_size], and the size and alignment of the structure. *)
Definition off_alignment : Z := 8.
Definition off_arena : Z := 16.
Definition off_buddy_flags : Z := 24.
Definition sizeof_buddy : Z := 32.
Definition alignof_buddy : Z := 8.

Definition b_memory_size (m : mem) (b : Z) : outcome Z := ld64 m b.
Definition b_alignment (m : mem) (b : Z) : outcome Z := ld64 m (u64 (b + off_alignment)).
Definition b_arena (m : mem) (b : Z) : outcome Z := ld64 m (u64 (b + off_arena)).
Definition b_buddy_flags (m : mem) (b : Z) : outcome Z := ld64 m (u64 (b + off_buddy_flags)).

Definition buddy_tree_of (b : Z) : Z := u64 (b + sizeof_buddy).

Definition is_valid_alignment (alignment : Z) : bool := ceiling_power_of_two alignment =? alignment.

Definition buddy_tree_order_for_memory (memory_size alignment : Z) : Z :=
  let blocks := memory_size / alignment in
  highest_bit_position (ceiling_power_of_two blocks).

Definition buddy_relative_mode (m : mem) (b : Z) : outcome Z :=
  flags ← b_buddy_flags m b;
  Ok (Z.land (u32 flags) BUDDY_RELATIVE_MODE).

Definition buddy_main (m : mem) (b : Z) : outcome Z :=
  relative ← buddy_relative_mode m b;
  if negb (relative =? 0)
  then main_offset ← b_arena m b; Ok (u64 (b - main_offset))
  else b_arena m b.

Definition buddy_effective_memory_size (m : mem) (b : Z) : outcome Z :=
  memory_size ← b_memory_size m b;
  Ok (ceiling_power_of_two memory_size).

Definition buddy_virtual_slots (m : mem) (b : Z) : outcome Z :=
  memory_size ← b_memory_size m b;
  effective_memory_size ← buddy_effective_memory_size m b;
  if effective_memory_size =? memory_size then Ok 0 else
  alignment ← b_alignment m b;
  Ok (u64 (effective_memory_size - memory_size) / alignment).

Definition size_for_depth (m : mem) (b depth : Z) : outcome Z :=
  memory_size ← b_memory_size m b;
  Ok (Z.shiftr (ceiling_power_of_two memory_size) (u64 (depth - 1))).

Definition depth_for_size_body (requested_size : Z) (s : Z * Z) : outcome (Z * Z + Z) :=
  let '(depth, effective_memory_size) := s in
  if negb (Z.shiftr (effective_memory_size / requested_size) 1 =? 0)
  then Ok (inl (u64 (depth + 1), Z.shiftr effective_memory_size 1))
  else Ok (inr depth).

(** The size is halved at every turn. *)
Definition depth_for_size (m : mem) (b requested_size : Z) : outcome Z :=
  alignment ← b_alignment m b;
  let requested_size := if requested_size <? alignment then alignment else requested_size in
  effective_memory_size ← buddy_effective_memory_size m b;
  loop 66 (depth_for_size_body requested_size) (1, effective_memory_size).

Definition address_for_position (m : mem) (b : Z) (pos : buddy_tree_pos) : outcome Z :=
  block_size ← size_for_depth m b (depth pos);
  let addr := u64 (block_size * buddy_tree_index pos) in
  main ← buddy_main m b;
  Ok (u64 (main + addr)).

Definition deepest_position_for_offset (m : mem) (b offset : Z) : outcome buddy_tree_pos :=
  alignment ← b_alignment m b;
  let i := offset / alignment in
  pos ← buddy_tree_leftmost_child m (buddy_tree_of b);
  Ok {| index := u64 (index pos + i); depth := depth pos |}.

Definition position_for_address_body (m : mem) (t : Z) (pos : buddy_tree_pos)
    : outcome (buddy_tree_pos + option buddy_tree_pos) :=
  status ← buddy_tree_status m t pos;
  if negb (status =? 0) then Ok (inr (Some pos)) else
  let pos := buddy_tree_parent pos in
  valid ← buddy_tree_valid m t pos;
  if negb valid then Ok (inr None) else Ok (inl pos).

Definition position_for_address (m : mem) (b addr : Z) : outcome buddy_tree_pos :=
  main ← buddy_main m b;
  let offset := u64 (addr - main) in
  alignment ← b_alignment m b;
  if negb (offset mod alignment =? 0) then Ok INVALID_POS else
  let tree := buddy_tree_of b in
  pos ← deepest_position_for_offset m b offset;
  found ← loop 66 (position_for_address_body m tree) pos;
  match found with
  | None => Ok INVALID_POS
  | Some pos =>
      addr' ← address_for_position m b pos;
      if negb (addr' =? addr) then Ok INVALID_POS else Ok pos
  end.

(** ** Initialisation *)

(** [if(state) buddy_tree_mark(...); else buddy_tree_release(...);] *)
Definition toggle (m : mem) (t : Z) (pos : buddy_tree_pos) (state : bool) : outcome mem :=
  if state then buddy_tree_mark m t pos
  else '(m, _) ← buddy_tree_release m t pos; Ok m.

Definition toggle_virtual_body (b : Z) (state : bool) (s : mem * buddy_tree_pos * Z)
    : outcome (mem * buddy_tree_pos * Z + mem) :=
  let '(m, pos, delta) := s in
  let tree := buddy_tree_of b in
  if delta =? 0 then Ok (inr m) else
  current_pos_size ← size_for_depth m b (depth pos);
  if delta =? current_pos_size then m ← toggle m tree pos state; Ok (inr m)
  else if delta <=? current_pos_size / 2 then Ok (inl (m, buddy_tree_right_child pos, delta))
  else
    m ← toggle m tree (buddy_tree_right_child pos) state;
    Ok (inl (m, buddy_tree_left_child pos, u64 (delta - current_pos_size / 2))).

(** The position goes one level down at every turn. *)
Definition buddy_toggle_virtual_slots (m : mem) (b : Z) (state : bool) : outcome mem :=
  memory_size ← b_memory_size m b;
  effective_memory_size ← buddy_effective_memory_size m b;
  if effective_memory_size =? memory_size then Ok m else
  let delta := u64 (effective_memory_size - memory_size) in
  loop 66 (toggle_virtual_body b state) (m, buddy_tree_right_child buddy_tree_root, delta).

Definition buddy_sizeof_alignment (memory_size alignment : Z) : outcome Z :=
  if negb (is_valid_alignment alignment) then Ok 0 else
  if memory_size <? alignment then Ok 0 else
  let order := buddy_tree_order_for_memory memory_size alignment in
  tree_size ← buddy_tree_sizeof (u8 order);
  Ok (u64 (sizeof_buddy + tree_size)).

Definition buddy_sizeof (memory_size : Z) : outcome Z :=
  buddy_sizeof_alignment memory_size BUDDY_ALLOC_ALIGN.

(** [memory_size -= memory_size % alignment], when there is a remainder. *)
Definition trim (memory_size alignment : Z) : Z :=
  if negb (memory_size mod alignment =? 0)
  then u64 (memory_size - memory_size mod alignment) else memory_size.

Definition buddy_init_alignment (m : mem) (at_ main memory_size alignment : Z)
    : outcome (mem * Z) :=
  if at_ =? NULL then Ok (m, NULL) else
  if main =? NULL then Ok (m, NULL) else
  if at_ =? main then Ok (m, NULL) else
  if negb (is_valid_alignment alignment) then Ok (m, NULL) else
  if negb (at_ mod alignof_buddy =? 0) then Ok (m, NULL) else
  if negb (main mod 8 =? 0) then Ok (m, NULL) else
  let memory_size := trim memory_size alignment in
  buddy_size ← buddy_sizeof_alignment memory_size alignment;
  if buddy_size =? 0 then Ok (m, NULL) else
  let order := buddy_tree_order_for_memory memory_size alignment in
  let buddy := at_ in
  m ← st64 m (u64 (buddy + off_arena)) main;
  m ← st64 m buddy memory_size;
  m ← st64 m (u64 (buddy + off_buddy_flags)) 0;
  m ← st64 m (u64 (buddy + off_alignment)) alignment;
  '(m, _) ← buddy_tree_init m (u64 (buddy + sizeof_buddy)) (u8 order);
  m ← buddy_toggle_virtual_slots m buddy true;
  Ok (m, buddy).

Definition buddy_init (m : mem) (at_ main memory_size : Z) : outcome (mem * Z) :=
  buddy_init_alignment m at_ main memory_size BUDDY_ALLOC_ALIGN.

Record buddy_embed_check := EmbedCheck {
  can_fit : bool;
  embed_offset : Z;
  embed_buddy_size : Z;
}.

Definition buddy_embed_offset (memory_size alignment : Z) : outcome buddy_embed_check :=
  buddy_size ← buddy_sizeof_alignment memory_size alignment;
  let fits := negb (memory_size <=? buddy_size) in
  let offset := u64 (memory_size - buddy_size) in
  let '(fits, buddy_size, offset) :=
    if negb (offset mod alignof_buddy =? 0) then
      let buddy_size := u64 (buddy_size + offset mod alignof_buddy) in
      (fits && negb (memory_size <=? buddy_size), buddy_size, u64 (memory_size - buddy_size))
    else (fits, buddy_size, offset) in
  Ok (if fits : bool
      then {| can_fit := true; embed_offset := offset; embed_buddy_size := buddy_size |}
      else {| can_fit := false; embed_offset := 0; embed_buddy_size := 0 |}).

Definition buddy_embed_alignment (m : mem) (main memory_size alignment : Z)
    : outcome (mem * Z) :=
  if main =? NULL then Ok (m, NULL) else
  if negb (is_valid_alignment alignment) then Ok (m, NULL) else
  check_result ← buddy_embed_offset memory_size alignment;
  if negb (can_fit check_result) then Ok (m, NULL) else
  '(m, buddy) ← buddy_init_alignment m (u64 (main + embed_offset check_result)) main
                  (embed_offset check_result) alignment;
  if buddy =? NULL then Ok (m, NULL) else
  flags ← b_buddy_flags m buddy;
  m ← st64 m (u64 (buddy + off_buddy_flags)) (Z.lor flags BUDDY_RELATIVE_MODE);
  m ← st64 m (u64 (buddy + off_arena)) (u64 (buddy - main));
  Ok (m, buddy).

Definition buddy_embed (m : mem) (main memory_size : Z) : outcome (mem * Z) :=
  buddy_embed_alignment m main memory_size BUDDY_ALLOC_ALIGN.

Definition buddy_get_embed_at_alignment (main memory_size alignment : Z) : outcome Z :=
  check_result ← buddy_embed_offset memory_size alignment;
  Ok (if negb (can_fit check_result) then NULL else u64 (main + embed_offset check_result)).

Definition buddy_get_embed_at (main memory_size : Z) : outcome Z :=
  buddy_get_embed_at_alignment main memory_size BUDDY_ALLOC_ALIGN.

(** ** Allocation *)

Definition buddy_malloc (m : mem) (b requested_size : Z) : outcome (mem * Z) :=
  if b =? NULL then Ok (m, NULL) else
  let requested_size := if requested_size =? 0 then 1 else requested_size in
  memory_size ← b_memory_size m b;
  if memory_size <? requested_size then Ok (m, NULL) else
  target_depth ← depth_for_size m b requested_size;
  let tree := buddy_tree_of b in
  pos ← buddy_tree_find_free m tree (u8 target_depth);
  valid ← buddy_tree_valid m tree pos;
  if negb valid then Ok (m, NULL) else
  m ← buddy_tree_mark m tree pos;
  addr ← address_for_position m b pos;
  Ok (m, addr).

Definition buddy_calloc (m : mem) (b members_count member_size : Z) : outcome (mem * Z) :=
  let '(members_count, member_size) :=
    if (members_count =? 0) || (member_size =? 0) then (1, 1) else (members_count, member_size) in
  if negb (u64 (members_count * member_size) / members_count =? member_size)
  then Ok (m, NULL) else
  let total_size := u64 (members_count * member_size) in
  '(m, result) ← buddy_malloc m b total_size;
  if negb (result =? NULL) then
    '(m, _) ← memset m result 0 total_size;
    Ok (m, result)
  else Ok (m, result).

Definition buddy_free (m : mem) (b ptr : Z) : outcome mem :=
  if b =? NULL then Ok m else
  if ptr =? NULL then Ok m else
  main ← buddy_main m b;
  memory_size ← b_memory_size m b;
  if (ptr <? main) || (u64 (main + memory_size) <=? ptr) then Ok m else
  let tree := buddy_tree_of b in
  pos ← position_for_address m b ptr;
  valid ← buddy_tree_valid m tree pos;
  if negb valid then Ok m else
  '(m, _) ← buddy_tree_release m tree pos;
  Ok m.

Definition buddy_realloc (m : mem) (b ptr requested_size : Z) (ignore_data : bool)
    : outcome (mem * Z) :=
  if ptr =? NULL then buddy_malloc m b requested_size else
  if requested_size =? 0 then m ← buddy_free m b ptr; Ok (m, NULL) else
  memory_size ← b_memory_size m b;
  if memory_size <? requested_size then Ok (m, NULL) else
  let tree := buddy_tree_of b in
  origin ← position_for_address m b ptr;
  valid ← buddy_tree_valid m tree origin;
  if negb valid then Ok (m, NULL) else
  let current_depth := depth origin in
  target_depth ← depth_for_size m b requested_size;
  '(m, _) ← buddy_tree_release m tree origin;
  new_pos ← buddy_tree_find_free m tree (u8 target_depth);
  valid ← buddy_tree_valid m tree new_pos;
  if negb valid then m ← buddy_tree_mark m tree origin; Ok (m, NULL) else
  if index origin =? index new_pos then m ← buddy_tree_mark m tree origin; Ok (m, ptr) else
  destination ← address_for_position m b new_pos;
  m ← (if negb ignore_data then
         source ← address_for_position m b origin;
         size ← size_for_depth m b (if target_depth <? current_depth then current_depth
                                    else target_depth);
         '(m, _) ← memmove m destination source size;
         Ok m
       else Ok m);
  m ← buddy_tree_mark m tree new_pos;
  Ok (m, destination).

Definition buddy_reallocarray (m : mem) (b ptr members_count member_size : Z) (ignore_data : bool)
    : outcome (mem * Z) :=
  if (members_count =? 0) || (member_size =? 0) then buddy_realloc m b ptr 0 ignore_data else
  if negb (u64 (members_count * member_size) / members_count =? member_size)
  then Ok (m, NULL)
  else buddy_realloc m b ptr (u64 (members_count * member_size)) ignore_data.

Inductive buddy_safe_free_status :=
  | BUDDY_SAFE_FREE_SUCCESS
  | BUDDY_SAFE_FREE_BUDDY_IS_NULL
  | BUDDY_SAFE_FREE_INVALID_ADDRESS
  | BUDDY_SAFE_FREE_SIZE_MISMATCH
  | BUDDY_SAFE_FREE_ALREADY_FREE.

Definition buddy_safe_free (m : mem) (b ptr requested_size : Z)
    : outcome (mem * buddy_safe_free_status) :=
  if b =? NULL then Ok (m, BUDDY_SAFE_FREE_BUDDY_IS_NULL) else
  if ptr =? NULL then Ok (m, BUDDY_SAFE_FREE_INVALID_ADDRESS) else
  main ← buddy_main m b;
  memory_size ← b_memory_size m b;
  if (ptr <? main) || (u64 (main + memory_size) <=? ptr)
  then Ok (m, BUDDY_SAFE_FREE_INVALID_ADDRESS) else
  let tree := buddy_tree_of b in
  pos ← position_for_address m b ptr;
  valid ← buddy_tree_valid m tree pos;
  if negb valid then Ok (m, BUDDY_SAFE_FREE_INVALID_ADDRESS) else
  allocated_size_for_depth ← size_for_depth m b (depth pos);
  alignment ← b_alignment m b;
  let requested_size := if requested_size <? alignment then alignment else requested_size in
  if allocated_size_for_depth <? requested_size then Ok (m, BUDDY_SAFE_FREE_SIZE_MISMATCH) else
  if requested_size <=? allocated_size_for_depth / 2
  then Ok (m, BUDDY_SAFE_FREE_SIZE_MISMATCH) else
  '(m, status) ← buddy_tree_release m tree pos;
  Ok (m, match status with
         | BUDDY_TREE_RELEASE_FAIL_PARTIALLY_USED => BUDDY_SAFE_FREE_INVALID_ADDRESS
         | BUDDY_TREE_RELEASE_SUCCESS => BUDDY_SAFE_FREE_SUCCESS
         end).
