(* ===== verification/BuddyQuery.v ===== *)
(** * Ranges, queries and resizing of the buddy allocator: [kernel/memory/buddy_alloc.h]

    The parts of the interface the kernel does not call: reserving ranges,
    asking for the state of the arena, walking its slots and resizing it.  The
    loops over the tree take the number of its nodes as their fuel: a walk comes
    by every node at most once. *)
From S2P Require Import Prelude Mem MemCopy BuddyBits BuddyPos BuddyTree Buddy.

(** ** Reserving ranges *)

Definition toggle_range_body (t alignment : Z) (state : bool) (s : mem * buddy_tree_pos * Z)
    : outcome (mem * buddy_tree_pos * Z + mem) :=
  let '(m, pos, requested_size) := s in
  if requested_size =? 0 then Ok (inr m) else
  m ← toggle m t pos state;
  let requested_size :=
    if requested_size <? alignment then 0 else u64 (requested_size - alignment) in
  Ok (inl (m, {| index := u64 (index pos + 1); depth := depth pos |}, requested_size)).

(** One leaf at a time; the size comes down by the alignment at every turn. *)
Definition buddy_toggle_range_reservation (m : mem) (b ptr requested_size : Z) (state : bool)
    : outcome mem :=
  if b =? NULL then Ok m else
  if ptr =? NULL then Ok m else
  if requested_size =? 0 then Ok m else
  main ← buddy_main m b;
  memory_size ← b_memory_size m b;
  if (ptr <? main) || (u64 (main + memory_size) <? u64 (ptr + requested_size)) then Ok m else
  let tree := buddy_tree_of b in
  let offset := u64 (ptr - main) in
  pos ← deepest_position_for_offset m b offset;
  alignment ← b_alignment m b;
  loop (S (S (Z.to_nat (requested_size / alignment)))) (toggle_range_body tree alignment state)
    (m, pos, requested_size).

Definition buddy_reserve_range (m : mem) (b ptr requested_size : Z) : outcome mem :=
  buddy_toggle_range_reservation m b ptr requested_size true.

Definition buddy_unsafe_release_range (m : mem) (b ptr requested_size : Z) : outcome mem :=
  buddy_toggle_range_reservation m b ptr requested_size false.

(** ** Is a part of the arena free? *)

Definition is_free_climb_body (m : mem) (t : Z) (query_range : buddy_tree_interval_t)
    (s : buddy_tree_pos * buddy_tree_interval_t * buddy_tree_interval_t)
    : outcome (buddy_tree_pos * buddy_tree_interval_t * buddy_tree_interval_t +
               buddy_tree_pos * buddy_tree_interval_t) :=
  let '(pos, current_test_range, parent_test_range) := s in
  if buddy_tree_interval_contains query_range parent_test_range then
    let pos := buddy_tree_parent pos in
    let current_test_range := parent_test_range in
    parent_test_range ← buddy_tree_interval m t (buddy_tree_parent pos);
    Ok (inl (pos, current_test_range, parent_test_range))
  else Ok (inr (pos, current_test_range)).

Definition buddy_is_free_body (m : mem) (t : Z) (query_range : buddy_tree_interval_t)
    (pos : buddy_tree_pos) : outcome (buddy_tree_pos + bool) :=
  valid ← buddy_tree_valid m t pos;
  if negb (valid && (index pos <? index (iv_to query_range))) then Ok (inr true) else
  current_test_range ← buddy_tree_interval m t pos;
  parent_test_range ← buddy_tree_interval m t (buddy_tree_parent pos);
  '(pos, current_test_range) ← loop 66 (is_free_climb_body m t query_range)
                                 (pos, current_test_range, parent_test_range);
  free ← buddy_tree_is_free m t pos;
  if negb free then Ok (inr false) else
  Ok (inl (buddy_tree_right_adjacent (iv_to current_test_range))).

Definition buddy_is_free (m : mem) (b from : Z) : outcome bool :=
  effective_memory_size ← buddy_effective_memory_size m b;
  virtual_slots ← buddy_virtual_slots m b;
  alignment ← b_alignment m b;
  let to := u64 (effective_memory_size -
                 u64 ((if negb (virtual_slots =? 0) then virtual_slots else 1) * alignment)) in
  let tree := buddy_tree_of b in
  query_from ← deepest_position_for_offset m b from;
  query_to ← deepest_position_for_offset m b to;
  let query_range := {| iv_from := query_from; iv_to := query_to |} in
  pos ← deepest_position_for_offset m b from;
  upper ← t_upper_pos_bound m tree;
  loop (S (Z.to_nat upper)) (buddy_is_free_body m tree query_range) pos.

Definition buddy_can_shrink (m : mem) (b : Z) : outcome bool :=
  if b =? NULL then Ok false else
  memory_size ← b_memory_size m b;
  buddy_is_free m b (memory_size / 2).

Definition buddy_is_empty (m : mem) (b : Z) : outcome bool :=
  if b =? NULL then Ok false else buddy_is_free m b 0.

Definition buddy_is_full (m : mem) (b : Z) : outcome bool :=
  if b =? NULL then Ok false else
  let tree := buddy_tree_of b in
  status ← buddy_tree_status m tree buddy_tree_root;
  order ← buddy_tree_order m tree;
  Ok (status =? order).

(** ** Sizes *)

Definition buddy_arena_size (m : mem) (b : Z) : outcome Z :=
  if b =? NULL then Ok 0 else b_memory_size m b.

(** [state.going_up = 1] *)
Definition set_going_up (s : buddy_tree_walk_state) : buddy_tree_walk_state :=
  {| starting_pos := starting_pos s; current_pos := current_pos s;
     going_up := true; walk_done := walk_done s |}.

(** The status of a node all of whose space is in use. *)
Definition full_status (tree_order : Z) (pos : buddy_tree_pos) : Z :=
  u64 (u64 (tree_order - depth pos) + 1).

(** [while(buddy_tree_walk(tree, &state))] after a turn with result [r]. *)
Definition walk_on {R} (m : mem) (t : Z) (r : R) (state : buddy_tree_walk_state)
    : outcome (R * buddy_tree_walk_state + R) :=
  '(more, state) ← buddy_tree_walk m t state;
  Ok (if more : bool then inl (r, state) else inr r).

Definition arena_free_size_body (m : mem) (b tree_order : Z) (s : Z * buddy_tree_walk_state)
    : outcome (Z * buddy_tree_walk_state + Z) :=
  let '(result, state) := s in
  let tree := buddy_tree_of b in
  pos_status ← buddy_tree_status m tree (current_pos state);
  if pos_status =? full_status tree_order (current_pos state)
  then walk_on m tree result (set_going_up state)
  else if pos_status =? 0 then
    size ← size_for_depth m b (depth (current_pos state));
    walk_on m tree (u64 (result + size)) (set_going_up state)
  else walk_on m tree result state.

Definition buddy_arena_free_size (m : mem) (b : Z) : outcome Z :=
  let tree := buddy_tree_of b in
  tree_order ← buddy_tree_order m tree;
  upper ← t_upper_pos_bound m tree;
  loop (S (Z.to_nat upper)) (arena_free_size_body m b tree_order)
    (0, buddy_tree_walk_state_root).

(** ** Walking the slots *)

(** The callback's type: given the context, the address, the slot's size and
    whether it is allocated, it may change the memory and returns a pointer. *)
Definition walk_callback : Type := mem → Z → Z → Z → bool → outcome (mem * Z).

Definition buddy_walk_body (fp : walk_callback) (ctx b main effective_memory_size tree_order : Z)
    (s : mem * buddy_tree_walk_state)
    : outcome (mem * buddy_tree_walk_state + mem * Z) :=
  let '(m, state) := s in
  let tree := buddy_tree_of b in
  let next (m : mem) (state : buddy_tree_walk_state) :=
    ('(more, state) ← buddy_tree_walk m tree state;
     Ok (if more : bool then inl (m, state) else inr (m, NULL))) in
  pos_status ← buddy_tree_status m tree (current_pos state);
  if negb (pos_status =? full_status tree_order (current_pos state)) then next m state else
  let test_pos := buddy_tree_left_child (current_pos state) in
  valid ← buddy_tree_valid m tree test_pos;
  test_status ← (if (valid : bool) then buddy_tree_status m tree test_pos else Ok 0);
  if negb (test_status =? 0) then next m state else
  let pos_size := Z.shiftr effective_memory_size (u64 (depth (current_pos state) - 1)) in
  addr ← address_for_position m b (current_pos state);
  memory_size ← b_memory_size m b;
  if memory_size <? u64 (u64 (addr - main) + pos_size) then Ok (inr (m, NULL)) else
  '(m, callback_result) ← fp m ctx addr pos_size (0 <? pos_status);
  if negb (callback_result =? NULL) then Ok (inr (m, callback_result)) else
  next m (set_going_up state).

(** A null function pointer is [None]. *)
Definition buddy_walk (m : mem) (b : Z) (fp : option walk_callback) (ctx : Z)
    : outcome (mem * Z) :=
  if b =? NULL then Ok (m, NULL) else
  match fp with
  | None => Ok (m, NULL)
  | Some fp =>
      main ← buddy_main m b;
      effective_memory_size ← buddy_effective_memory_size m b;
      let tree := buddy_tree_of b in
      tree_order ← buddy_tree_order m tree;
      upper ← t_upper_pos_bound m tree;
      loop (S (Z.to_nat upper)) (buddy_walk_body fp ctx b main effective_memory_size tree_order)
        (m, buddy_tree_walk_state_root)
  end.

(** ** Fragmentation *)

Definition fragmentation_body (m : mem) (t tree_order : Z) (s : Z * Z * buddy_tree_walk_state)
    : outcome (Z * Z * buddy_tree_walk_state + Z * Z) :=
  let '(quality, total_free_size, state) := s in
  pos_status ← buddy_tree_status m t (current_pos state);
  if pos_status =? 0 then
    let virtual_size := two_to_the_power_of (u64 (tree_order - depth (current_pos state)) mod 63) in
    walk_on m t (u64 (quality + u64 (virtual_size * virtual_size)),
                 u64 (total_free_size + virtual_size)) (set_going_up state)
  else if pos_status =? full_status tree_order (current_pos state)
  then walk_on m t (quality, total_free_size) (set_going_up state)
  else walk_on m t (quality, total_free_size) state.

Definition buddy_tree_fragmentation (m : mem) (t : Z) : outcome Z :=
  let fractional_bits := 8 in
  let fractional_mask := 255 in
  tree_order ← buddy_tree_order m t;
  root_status ← buddy_tree_status m t buddy_tree_root;
  if root_status =? 0 then Ok 0 else
  upper ← t_upper_pos_bound m t;
  '(quality, total_free_size) ← loop (S (Z.to_nat upper)) (fragmentation_body m t tree_order)
                                  (0, 0, buddy_tree_walk_state_root);
  if total_free_size =? 0 then Ok 0 else
  root ← integer_square_root quality;
  let quality_percent := u64 (Z.shiftl root fractional_bits) / total_free_size in
  let quality_percent := u64 (quality_percent * quality_percent) in
  let quality_percent := Z.shiftr quality_percent fractional_bits in
  Ok (u8 (fractional_mask - Z.land quality_percent fractional_mask)).

Definition buddy_fragmentation (m : mem) (b : Z) : outcome Z :=
  if b =? NULL then Ok 0 else buddy_tree_fragmentation m (buddy_tree_of b).

(** ** The self-check *)

(** One turn of [buddy_tree_check_invariant]: the statuses are those of [pos],
    not of the position the walk is at. *)
Definition check_invariant_body (m : mem) (t : Z) (pos : buddy_tree_pos)
    (s : bool * buddy_tree_walk_state) : outcome (bool * buddy_tree_walk_state + bool) :=
  let '(fail, state) := s in
  current_internal ← buddy_tree_internal_position_tree m t pos;
  current_status ← read_from_internal_position m (buddy_tree_bits t) current_internal;
  left_child_status ← buddy_tree_status m t (buddy_tree_left_child pos);
  right_child_status ← buddy_tree_status m t (buddy_tree_right_child pos);
  let violated :=
    if negb (left_child_status =? 0) || negb (right_child_status =? 0) then
      let min := if left_child_status <=? right_child_status
                 then left_child_status else right_child_status in
      negb (current_status =? u64 (min + 1))
    else (0 <? current_status) && (current_status <? local_offset current_internal) in
  walk_on m t (fail || violated) state.

Definition buddy_tree_check_invariant (m : mem) (t : Z) (pos : buddy_tree_pos) : outcome bool :=
  upper ← t_upper_pos_bound m t;
  loop (S (Z.to_nat upper)) (check_invariant_body m t pos)
    (false, {| starting_pos := buddy_tree_root; current_pos := pos;
               going_up := false; walk_done := false |}).

(** ** Resizing *)

Definition buddy_resize_standard (m : mem) (b new_memory_size : Z) : outcome (mem * Z) :=
  alignment ← b_alignment m b;
  let new_memory_size := trim new_memory_size alignment in
  free ← buddy_is_free m b new_memory_size;
  if negb free then Ok (m, NULL) else
  m ← buddy_toggle_virtual_slots m b false;
  alignment ← b_alignment m b;
  let new_buddy_tree_order := buddy_tree_order_for_memory new_memory_size alignment in
  m ← buddy_tree_resize m (buddy_tree_of b) (u8 new_buddy_tree_order);
  m ← st64 m b new_memory_size;
  m ← buddy_toggle_virtual_slots m b true;
  Ok (m, b).

Definition buddy_resize_embedded (m : mem) (b new_memory_size : Z) : outcome (mem * Z) :=
  alignment ← b_alignment m b;
  check_result ← buddy_embed_offset new_memory_size alignment;
  if negb (can_fit check_result) then Ok (m, NULL) else
  '(m, resized) ← buddy_resize_standard m b (embed_offset check_result);
  if resized =? NULL then Ok (m, NULL) else
  main ← buddy_main m b;
  main' ← buddy_main m b;
  let buddy_destination := u64 (main' + embed_offset check_result) in
  '(m, _) ← memmove m buddy_destination resized (embed_buddy_size check_result);
  m ← st64 m (u64 (buddy_destination + off_arena)) (u64 (buddy_destination - main));
  Ok (m, buddy_destination).

Definition buddy_resize (m : mem) (b new_memory_size : Z) : outcome (mem * Z) :=
  memory_size ← b_memory_size m b;
  if new_memory_size =? memory_size then Ok (m, b) else
  relative ← buddy_relative_mode m b;
  if negb (relative =? 0)
  then buddy_resize_embedded m b new_memory_size
  else buddy_resize_standard m b new_memory_size.
