(* ===== verification/BuddyInv.v ===== *)
(** * Arenas of the buddy allocator

    The geometry of an arena (which bytes a node stands for), and the invariant
    of an initialised allocator: its header describes the arena, and its tree
    represents the blocks handed out together with the virtual slots, the nodes
    that cover what is missing to a power of two. *)
From S2P Require Import Prelude Mem BuddyBits BuddyPos BuddyTree BuddyRep BuddyNodes BuddyAlloc.
From S2P Require Import Buddy.

(** ** Geometry *)

(** Node [i] covers the leaves [first_leaf o i .. end_leaf o i - 1], counted
    from the left. *)
Definition span (o i : Z) : Z := 2 ^ (height o i - 1).
Definition first_leaf (o i : Z) : Z := (i - 2 ^ Z.log2 i) * span o i.
Definition end_leaf (o i : Z) : Z := first_leaf o i + span o i.

(** The node of a leaf. *)
Definition leaf (o x : Z) : Z := 2 ^ (o - 1) + x.

(** ** Arenas *)

(** An allocator at [ar_at] for [ar_leaves] units of [2 ^ ar_shift] bytes from
    [ar_main] on. *)
Record arena := Arena { ar_at : Z; ar_main : Z; ar_shift : Z; ar_leaves : Z }.

Definition ar_align (r : arena) : Z := 2 ^ ar_shift r.
Definition ar_size (r : arena) : Z := ar_align r * ar_leaves r.
Definition ar_order (r : arena) : Z := Z.log2_up (ar_leaves r) + 1.
Definition ar_tree (r : arena) : Z := ar_at r + 32.

(** The bytes of the allocator itself. *)
Definition ar_meta (r : arena) : Z := 32 + tree_size (ar_order r).

Record arena_ok (r : arena) : Prop := ArenaOk {
  ao_at : 0 < ar_at r ∧ ar_at r + ar_meta r < 2 ^ 64 ∧ ar_at r mod 8 = 0;
  ao_main : 0 < ar_main r ∧ ar_main r + ar_size r < 2 ^ 64;
  ao_shift : 0 ≤ ar_shift r;
  ao_leaves : 1 ≤ ar_leaves r;
  ao_size : ar_size r ≤ 2 ^ 63;
  ao_order : order_ok (ar_order r);
}.

(** The bytes of a node. *)
Definition block_addr (r : arena) (i : Z) : Z :=
  ar_main r + ar_align r * first_leaf (ar_order r) i.
Definition block_size (r : arena) (i : Z) : Z := ar_align r * span (ar_order r) i.

(** A node that lies in the arena, not in its virtual slots. *)
Definition real_node (r : arena) (i : Z) : Prop :=
  node (ar_order r) i ∧ end_leaf (ar_order r) i ≤ ar_leaves r.

(** The nodes of [V] cover the leaves from [n] on. *)
Definition covers_from (o n : Z) (V : gset Z) : Prop :=
  ∀ x, 0 ≤ x < 2 ^ (o - 1) →
    (∃ v, v ∈ V ∧ node o v ∧ first_leaf o v ≤ x < end_leaf o v) ↔ n ≤ x.

(** ** The invariant *)

Record buddy_header (m : mem) (r : arena) : Prop := BuddyHeader {
  bh_bytes : bytes_at m (ar_at r) (ar_meta r);
  bh_size : ld64 m (ar_at r) = Ok (ar_size r);
  bh_align : ld64 m (ar_at r + 8) = Ok (ar_align r);
  bh_main : buddy_main m (ar_at r) = Ok (ar_main r);
}.

Record buddy_inv (m : mem) (r : arena) (V B : gset Z) : Prop := BuddyInv {
  bi_arena : arena_ok r;
  bi_header : buddy_header m r;
  bi_tree : tree_inv m (ar_tree r) (ar_order r) (V ∪ B);
  bi_virtual : covers_from (ar_order r) (ar_leaves r) V;
  bi_disjoint : V ## B;
}.

(** An allocator whose blocks in use are the nodes [B]. *)
Definition buddy_ok (m : mem) (r : arena) (B : gset Z) : Prop := ∃ V, buddy_inv m r V B.

(** An operation that touches no byte but the allocator's own. *)
Definition meta_frame (m m' : mem) (r : arena) : Prop :=
  mem_frame m m' (ar_at r) (ar_at r + ar_meta r).

(** * Lemmas *)

(** ** Leaves *)

Lemma span_pos o i : 0 ≤ o → node o i → 1 ≤ span o i.
Proof.
  intros Ho Hi. pose proof (node_height o i Ho Hi). unfold span.
  pose proof (Z.pow_pos_nonneg 2 (height o i - 1)). lia.
Qed.

Lemma span_half o i :
  1 ≤ i → 2 ≤ height o i → span o i = 2 * span o (2 * i) ∧ span o (2 * i + 1) = span o (2 * i).
Proof.
  intros Hi Hh. unfold span. rewrite height_right, height_left by done. split; [|done].
  replace (height o i - 1) with (height o i - 1 - 1 + 1) at 1 by lia. apply pow2_S. lia.
Qed.

Lemma first_leaf_left o i :
  1 ≤ i → 2 ≤ height o i →
  first_leaf o (2 * i) = first_leaf o i ∧
  first_leaf o (2 * i + 1) = first_leaf o i + span o (2 * i).
Proof.
  intros Hi Hh. destruct (span_half o i Hi Hh) as [E1 E2]. unfold first_leaf.
  rewrite E2, log2_left, log2_right, pow2_S by (done || apply Z.log2_nonneg). nia.
Qed.

Lemma pow2_order o i : 0 ≤ o → node o i → 2 ^ Z.log2 i * span o i = 2 ^ (o - 1).
Proof.
  intros Ho Hi. pose proof (node_log2 o i Ho Hi). unfold span, height.
  rewrite <-Z.pow_add_r by lia. f_equal. lia.
Qed.

Lemma leaves_range o i :
  0 ≤ o → node o i → 0 ≤ first_leaf o i ∧ end_leaf o i ≤ 2 ^ (o - 1).
Proof.
  intros Ho Hi. pose proof (span_pos o i Ho Hi). pose proof (pow2_order o i Ho Hi).
  pose proof (log2_bounds i ltac:(destruct Hi; lia)) as Hb.
  rewrite pow2_S in Hb by apply Z.log2_nonneg. unfold end_leaf, first_leaf. nia.
Qed.

Lemma leaf_node o x :
  1 ≤ o → 0 ≤ x < 2 ^ (o - 1) → node o (leaf o x) ∧ Z.log2 (leaf o x) = o - 1.
Proof.
  intros Ho Hx. unfold leaf, node. pose proof (pow2_S (o - 1) ltac:(lia)) as E.
  replace (o - 1 + 1) with o in E by lia. split; [lia|].
  apply Z.log2_unique; [lia|]. rewrite <-Z.add_1_r, pow2_S by lia. lia.
Qed.

(** A leaf is below the nodes that cover it. *)
Lemma below_leaf o i x :
  1 ≤ o → node o i → 0 ≤ x < 2 ^ (o - 1) →
  below i (leaf o x) ↔ first_leaf o i ≤ x < end_leaf o i.
Proof.
  intros Ho Hi Hx. destruct (leaf_node o x Ho Hx) as [Hn Hl].
  pose proof (node_log2 o i ltac:(lia) Hi). pose proof (span_pos o i ltac:(lia) Hi) as Hs.
  rewrite below_dec_spec, Hl by (destruct Hi; lia).
  replace (2 ^ (o - 1 - Z.log2 i)) with (span o i) by (unfold span, height; f_equal; lia).
  unfold leaf. rewrite <-(pow2_order o i) by (done || lia).
  rewrite Z.add_comm, Z.div_add by lia. unfold end_leaf, first_leaf.
  split.
  - intros [_ E]. assert (x / span o i = i - 2 ^ Z.log2 i) as <- by lia. dlia.
  - intros Hx'. split; [lia|]. cut (x / span o i = i - 2 ^ Z.log2 i); [lia|].
    symmetry. apply Z.div_unique with (x - (i - 2 ^ Z.log2 i) * span o i); lia.
Qed.

(** Nodes that are apart cover different leaves, and conversely. *)
Lemma apart_leaves o i j :
  1 ≤ o → node o i → node o j →
  apart i j ↔ end_leaf o i ≤ first_leaf o j ∨ end_leaf o j ≤ first_leaf o i.
Proof.
  intros Ho Hi Hj. pose proof (span_pos o i ltac:(lia) Hi). pose proof (span_pos o j ltac:(lia) Hj).
  pose proof (leaves_range o i ltac:(lia) Hi). pose proof (leaves_range o j ltac:(lia) Hj).
  split.
  - intros [Hn1 Hn2]. destruct (decide (end_leaf o i ≤ first_leaf o j)); [by left|].
    destruct (decide (end_leaf o j ≤ first_leaf o i)); [by right|]. exfalso.
    set (x := Z.max (first_leaf o i) (first_leaf o j)).
    destruct (below_linear i j (leaf o x)) as [?|?]; [..|done|done];
      apply below_leaf; try done; unfold end_leaf in *; lia.
  - intros Hd. assert (∀ a c, node o a → node o c →
      end_leaf o a ≤ first_leaf o c ∨ end_leaf o c ≤ first_leaf o a → ¬ below a c) as Hap.
    { intros a c Ha Hc Hac Hb. pose proof (span_pos o c ltac:(lia) Hc).
      pose proof (leaves_range o c ltac:(lia) Hc).
      assert (below c (leaf o (first_leaf o c))) as Hb1
        by (apply below_leaf; [done..| |]; unfold end_leaf in *; lia).
      assert (below a (leaf o (first_leaf o c))) as Hb2 by by eapply below_trans.
      apply below_leaf in Hb2; [|done|done|]; unfold end_leaf in *; lia. }
    split; apply Hap; try done. lia.
Qed.

(** ** Sizes of arenas *)

Section arena.
Context {r : arena} (Hr : arena_ok r).

Lemma ar_order_pos : 1 ≤ ar_order r ≤ 58.
Proof using Hr. apply Hr. Qed.

Lemma ar_align_pos : 1 ≤ ar_align r.
Proof using Hr.
  unfold ar_align. pose proof (Z.pow_pos_nonneg 2 (ar_shift r)).
  pose proof (ao_shift _ Hr). lia.
Qed.

(** The effective memory size. *)
Lemma ar_effective :
  ceiling_power_of_two (ar_size r) = ar_align r * 2 ^ (ar_order r - 1).
Proof using Hr.
  pose proof ar_align_pos. pose proof (ao_leaves _ Hr). pose proof (ao_size _ Hr).
  rewrite ceiling_power_of_two_log2_up by (unfold ar_size in *; nia).
  rewrite Z.max_l by (unfold ar_size in *; nia).
  unfold ar_size, ar_align. rewrite Z.mul_comm, Z.log2_up_mul_pow2 by (apply Hr || lia).
  unfold ar_order. rewrite Z.pow_add_r by (apply Hr || apply Z.log2_up_nonneg).
  do 2 f_equal. lia.
Qed.

Lemma ar_leaves_le : ar_leaves r ≤ 2 ^ (ar_order r - 1).
Proof using Hr.
  pose proof (ao_leaves _ Hr). unfold ar_order.
  replace (Z.log2_up (ar_leaves r) + 1 - 1) with (Z.log2_up (ar_leaves r)) by lia.
  pose proof (le_pow2_log2_up (ar_leaves r)). by rewrite Z.max_l in * by lia.
Qed.

Lemma ar_effective_le : ar_align r * 2 ^ (ar_order r - 1) ≤ 2 ^ 63.
Proof using Hr.
  rewrite <-ar_effective. pose proof (ao_size _ Hr). pose proof ar_align_pos.
  pose proof (ao_leaves _ Hr).
  rewrite ceiling_power_of_two_log2_up by (unfold ar_size in *; nia).
  apply Z.pow_le_mono_r; [lia|]. pose proof (log2_up_range (ar_size r)).
  unfold ar_size in *. nia.
Qed.

Lemma block_size_shift i :
  node (ar_order r) i →
  Z.shiftr (ceiling_power_of_two (ar_size r)) (Z.log2 i) = block_size r i.
Proof using Hr.
  intros Hi. pose proof ar_order_pos. rewrite ar_effective, Z.shiftr_div_pow2 by apply Z.log2_nonneg.
  rewrite <-(pow2_order _ i) by (done || lia). unfold block_size.
  pose proof (Z.pow_pos_nonneg 2 (Z.log2 i) ltac:(lia) (Z.log2_nonneg i)).
  replace (ar_align r * (2 ^ Z.log2 i * span (ar_order r) i))
    with (ar_align r * span (ar_order r) i * 2 ^ Z.log2 i) by lia.
  apply Z.div_mul. lia.
Qed.

(** A real node's bytes are in the arena. *)
Lemma block_in_arena i :
  real_node r i →
  ar_main r ≤ block_addr r i ∧ block_addr r i + block_size r i ≤ ar_main r + ar_size r ∧
  ar_align r ≤ block_size r i.
Proof using Hr.
  intros [Hi He]. pose proof ar_order_pos. pose proof ar_align_pos.
  pose proof (leaves_range (ar_order r) i ltac:(lia) Hi). pose proof (span_pos (ar_order r) i ltac:(lia) Hi).
  unfold block_addr, block_size, ar_size, end_leaf in *. nia.
Qed.

(** A free node of an arena whose virtual slots are taken is real. *)
Lemma free_node_real V B i :
  covers_from (ar_order r) (ar_leaves r) V → node (ar_order r) i →
  free_node (V ∪ B) i → real_node r i.
Proof using Hr.
  intros Hc Hi Hf. pose proof ar_order_pos. split; [done|].
  pose proof (leaves_range (ar_order r) i ltac:(lia) Hi). pose proof (span_pos (ar_order r) i ltac:(lia) Hi).
  destruct (decide (end_leaf (ar_order r) i ≤ ar_leaves r)); [done|]. exfalso.
  destruct (proj2 (Hc (end_leaf (ar_order r) i - 1) ltac:(unfold end_leaf in *; lia)) ltac:(lia))
    as (v & Hv & Hvn & Hx).
  pose proof (Hf v ltac:(set_solver)) as Hap. rewrite (apart_leaves (ar_order r)) in Hap by (done || lia).
  unfold end_leaf in *. lia.
Qed.
End arena.

(** The blocks of an allocator are real nodes. *)
Lemma buddy_inv_real m r V B i : buddy_inv m r V B → i ∈ B → real_node r i.
Proof.
  intros [Hr _ Ht Hc Hd] Hi. destruct Ht as [_ [Hn Ha]].
  apply (free_node_real Hr V (B ∖ {[i]})); [done|apply Hn; set_solver|].
  intros a Hain. assert (a ≠ i) by set_solver. split; intros Hb; apply H; [|symmetry];
    apply Ha; set_solver.
Qed.

(** ** Frames *)

Lemma buddy_main_frame m m' b lo hi w :
  mem_frame m m' lo hi → b + 32 ≤ lo ∨ hi ≤ b → 0 ≤ b → b + 32 ≤ 2 ^ 64 →
  buddy_main m b = Ok w → buddy_main m' b = Ok w.
Proof.
  intros Hfr Hlo Hb0 Hb1 <-.
  assert (∀ d, 0 ≤ d ≤ 24 → ld64 m' (u64 (b + d)) = ld64 m (u64 (b + d))) as Hsame.
  { intros d Hd. rewrite u64_small by lia. apply ld64_same. intros x Hx.
    apply (mf_out _ _ _ _ Hfr). lia. }
  unfold buddy_main, buddy_relative_mode, b_arena, b_buddy_flags, off_arena, off_buddy_flags.
  by rewrite !Hsame by lia.
Qed.

Lemma buddy_header_frame m m' r lo hi :
  mem_frame m m' lo hi → ar_at r + 32 ≤ lo ∨ hi ≤ ar_at r → arena_ok r →
  buddy_header m r → buddy_header m' r.
Proof.
  intros Hfr Hlo Hr [Hb Hs Ha Hm]. pose proof (ao_at _ Hr) as (? & ? & _).
  pose proof (layout _ (ao_order _ Hr)) as (_ & _ & _ & ?).
  assert (32 ≤ ar_meta r).
  { unfold ar_meta, tree_size. pose proof (ar_order_pos Hr). lia. }
  split.
  - by eapply bytes_at_frame.
  - eapply ld64_frame; [done|lia|done].
  - eapply ld64_frame; [done|lia|done].
  - eapply buddy_main_frame; [done|lia|lia|lia|done].
Qed.

(** A change of the tree's bits leaves the header alone. *)
Lemma bits_frame_meta m m' r :
  arena_ok r → bits_frame m m' (ar_tree r) (ar_order r) → meta_frame m m' r.
Proof.
  intros Hr Hfr. pose proof (layout _ (ao_order _ Hr)) as (? & ? & ? & ?).
  pose proof (bits_bytes_bound _ (ao_order _ Hr)). pose proof (ar_order_pos Hr).
  eapply mem_frame_mono; [exact Hfr|unfold ar_tree; lia|].
  unfold ar_tree, ar_meta. lia.
Qed.

Lemma bits_frame_header m m' r :
  arena_ok r → bits_frame m m' (ar_tree r) (ar_order r) → buddy_header m r → buddy_header m' r.
Proof. intros Hr Hfr. eapply buddy_header_frame; [done|unfold ar_tree; lia|done]. Qed.
