(* ===== verification/BuddyMalloc.v ===== *)
(** * Allocating and freeing: the promises of [buddy_malloc] and [buddy_free]

    An initialised allocator is a set of blocks in use.  [buddy_malloc] adds a
    free block of the least size that fits, or returns [NULL] and leaves
    everything as it is exactly when no free block is large enough;
    [buddy_free], given any address at all, removes the block that starts there
    if there is one, and otherwise does nothing. *)
From S2P Require Import Prelude Mem BuddyBits BuddyPos BuddyTree BuddyRep BuddyNodes BuddyAlloc.
From S2P Require Import Buddy BuddyInv.

(** ** Reading the header *)

Section header.
Context {m : mem} {r : arena} (Hr : arena_ok r) (Hh : buddy_header m r).

Lemma ar_addr : 0 < ar_at r ∧ ar_at r + 32 < 2 ^ 64 ∧ 32 ≤ ar_meta r ∧
  ar_at r + ar_meta r < 2 ^ 64.
Proof using Hr.
  pose proof (ao_at _ Hr) as (? & ? & _). pose proof (layout _ (ao_order _ Hr)) as (_ & _ & _ & ?).
  pose proof (ar_order_pos Hr). unfold ar_meta, tree_size in *. lia.
Qed.

Lemma b_memory_size_eq : b_memory_size m (ar_at r) = Ok (ar_size r).
Proof using Hh. apply Hh. Qed.

Lemma b_alignment_eq : b_alignment m (ar_at r) = Ok (ar_align r).
Proof using Hr Hh.
  pose proof ar_addr. unfold b_alignment, off_alignment. rewrite u64_small by lia. apply Hh.
Qed.

Lemma buddy_tree_of_eq : buddy_tree_of (ar_at r) = ar_tree r.
Proof using Hr. pose proof ar_addr. unfold buddy_tree_of, sizeof_buddy, ar_tree. apply u64_small. lia. Qed.

Lemma effective_eq :
  buddy_effective_memory_size m (ar_at r) = Ok (ar_align r * 2 ^ (ar_order r - 1)).
Proof using Hr Hh.
  unfold buddy_effective_memory_size. rewrite b_memory_size_eq, bind_ok. by rewrite (ar_effective Hr).
Qed.

Lemma size_for_depth_node i :
  node (ar_order r) i → size_for_depth m (ar_at r) (depth (pos_of i)) = Ok (block_size r i).
Proof using Hr Hh.
  intros Hi. pose proof (ar_order_pos Hr). pose proof (node_log2 (ar_order r) i ltac:(lia) Hi).
  unfold size_for_depth. rewrite b_memory_size_eq, bind_ok. cbn [depth pos_of].
  replace (Z.log2 i + 1 - 1) with (Z.log2 i) by lia. rewrite u64_small by lia.
  by rewrite (block_size_shift Hr).
Qed.

(** The address of a node whose first leaf is in the arena. *)
Lemma address_node i :
  node (ar_order r) i → first_leaf (ar_order r) i < ar_leaves r →
  address_for_position m (ar_at r) (pos_of i) = Ok (block_addr r i).
Proof using Hr Hh.
  intros Hi Hf. pose proof (ar_order_pos Hr). pose proof (ar_align_pos Hr).
  pose proof (leaves_range (ar_order r) i ltac:(lia) Hi) as [? _]. pose proof (ao_main _ Hr).
  unfold address_for_position. rewrite size_for_depth_node, bind_ok by done.
  rewrite (bh_main _ _ Hh), bind_ok. unfold buddy_tree_index.
  rewrite (index_internal_pos_of (ar_order r)) by (done || apply Hr).
  replace (block_size r i * (i - 2 ^ Z.log2 i)) with (ar_align r * first_leaf (ar_order r) i)
    by (unfold block_size, first_leaf; lia).
  unfold block_addr, ar_size in *. rewrite (u64_small (_ * _)), u64_small by nia. done.
Qed.
End header.

(** ** The depth of a size *)

(** [depth_for_size] ends at the deepest nodes that hold the size. *)
Lemma depth_for_size_loop o al req d fuel (Q : Z → Prop) :
  1 ≤ al → al ≤ req → o ≤ 58 → 1 ≤ d ≤ o → req ≤ al * 2 ^ (o - d) →
  (Z.to_nat (o - d) < fuel)%nat →
  (∀ d', 1 ≤ d' ≤ o → req ≤ al * 2 ^ (o - d') < 2 * req → Q d') →
  returns (loop fuel (depth_for_size_body req) (d, al * 2 ^ (o - d))) Q.
Proof.
  intros Hal Hreq Ho. revert d. induction fuel as [|fuel IH]; intros d Hd Hfit Hf HQ; [lia|].
  cbn [loop]. bind_step. unfold depth_for_size_body at 1.
  rewrite Z.shiftr_div_pow2 by lia. change (2 ^ 1) with 2. rewrite Z.div_div by lia.
  pose proof (Z.pow_pos_nonneg 2 (o - d)).
  destruct (Z.eqb_spec (al * 2 ^ (o - d) / (req * 2)) 0) as [E|E]; cbn [negb returns].
  - apply HQ; [done|]. split; [done|]. dlia.
  - assert (req * 2 ≤ al * 2 ^ (o - d)).
    { destruct (decide (req * 2 ≤ al * 2 ^ (o - d))); [done|].
      destruct E. apply Z.div_small. lia. }
    assert (d ≠ o) as Hdo.
    { intros ->. rewrite Z.sub_diag in *. simpl in *. lia. }
    replace (o - d) with (o - (d + 1) + 1) in * by lia. rewrite pow2_S in * by lia.
    rewrite u64_small by lia. rewrite Z.shiftr_div_pow2 by lia. change (2 ^ 1) with 2.
    replace (al * (2 * 2 ^ (o - (d + 1)))) with (al * 2 ^ (o - (d + 1)) * 2) by lia.
    rewrite Z.div_mul by lia. apply IH; (done || lia).
Qed.

Lemma depth_for_size_returns m r req (Q : Z → Prop) :
  arena_ok r → buddy_header m r → 0 ≤ req ≤ ar_size r →
  (∀ d, 1 ≤ d ≤ ar_order r →
     Z.max req (ar_align r) ≤ ar_align r * 2 ^ (ar_order r - d) < 2 * Z.max req (ar_align r) →
     Q d) →
  returns (depth_for_size m (ar_at r) req) Q.
Proof.
  intros Hr Hh Hreq HQ. unfold depth_for_size.
  rewrite (b_alignment_eq Hr Hh), bind_ok, (effective_eq Hr Hh), bind_ok.
  pose proof (ar_order_pos Hr). pose proof (ar_align_pos Hr). pose proof (ar_leaves_le Hr).
  replace (if req <? ar_align r then ar_align r else req) with (Z.max req (ar_align r))
    by (destruct (Z.ltb_spec req (ar_align r)); lia).
  apply (depth_for_size_loop (ar_order r)); [done|lia|lia|lia| |lia|done].
  pose proof (Z.pow_pos_nonneg 2 (ar_order r - 1)). unfold ar_size in *. nia.
Qed.

(** ** [buddy_malloc] *)

(** Node [i] is a block for a request of [req] bytes: it holds them, and no
    block of half its size would. *)
Definition fits (r : arena) (req i : Z) : Prop :=
  req ≤ block_size r i ∧ (block_size r i < 2 * req ∨ block_size r i = ar_align r).

Lemma block_size_depth r i d :
  node (ar_order r) i → Z.log2 i + 1 = d → block_size r i = ar_align r * 2 ^ (ar_order r - d).
Proof. intros _ Hd. unfold block_size, span, height. do 2 f_equal. lia. Qed.

(** A free node has free nodes below it at every depth. *)
Lemma free_node_below o A i k :
  0 ≤ o → node o i → blocks_ok o A → free_node A i → 0 ≤ k → Z.log2 i + k < o →
  ∃ j, node o j ∧ Z.log2 j = Z.log2 i + k ∧ below i j ∧ free_node A j.
Proof.
  intros Ho Hi HA Hf Hk. pattern k. apply natlike_ind; [|clear k Hk|done].
  { intros _. exists i. rewrite Z.add_0_r. auto using below_refl. }
  intros k Hk IH Hlt. destruct IH as (j & Hj & Hl & Hb & Hfj); [lia|].
  destruct (node_children o j Ho Hj ltac:(unfold height; lia)) as [HL _].
  exists (2 * j). rewrite log2_left by (destruct Hj; lia).
  split_and!; [done|lia|by eapply below_trans, below_left|].
  intros a Ha. destruct (Hfj a Ha) as [H1 H2]. split; intros H.
  - apply H1. destruct (decide (a = 2 * j)) as [->|Hne].
    + exfalso. apply H2, below_left.
    + pose proof (below_parent a (2 * j) H Hne) as Hp. by replace (2 * j / 2) with j in Hp by dlia.
  - apply H2. eapply below_trans; [apply below_left|done].
Qed.

(** Two blocks do not share a byte. *)
Definition blocks_disjoint (r : arena) (i j : Z) : Prop :=
  block_addr r i + block_size r i ≤ block_addr r j ∨
  block_addr r j + block_size r j ≤ block_addr r i.

Lemma apart_blocks_disjoint r i j :
  arena_ok r → node (ar_order r) i → node (ar_order r) j → apart i j → blocks_disjoint r i j.
Proof.
  intros Hr Hi Hj Ha. pose proof (ar_order_pos Hr). pose proof (ar_align_pos Hr).
  rewrite (apart_leaves (ar_order r)) in Ha by (done || lia).
  unfold blocks_disjoint, block_addr, block_size, end_leaf in *. nia.
Qed.

(** The virtual slots are apart from every real node. *)
Lemma virtual_apart m r V B i v :
  buddy_inv m r V B → real_node r i → v ∈ V → apart v i.
Proof.
  intros [Hr _ Ht Hc _] [Hi He] Hv. pose proof (ar_order_pos Hr).
  pose proof (bo_node _ _ (ti_blocks _ _ _ _ Ht) v ltac:(set_solver)) as Hvn.
  pose proof (leaves_range (ar_order r) v ltac:(lia) Hvn).
  pose proof (span_pos (ar_order r) v ltac:(lia) Hvn).
  apply (apart_leaves (ar_order r)); [lia|done|done|]. right.
  cut (ar_leaves r ≤ first_leaf (ar_order r) v); [lia|].
  apply (Hc (first_leaf (ar_order r) v)); [unfold end_leaf in *; lia|].
  exists v. unfold end_leaf. split_and!; (done || lia).
Qed.

Lemma free_node_union m r V B i :
  buddy_inv m r V B → real_node r i → free_node B i → free_node (V ∪ B) i.
Proof.
  intros Hinv Hi Hf a [Ha|Ha]%elem_of_union; [|by apply Hf]. by eapply virtual_apart.
Qed.

(** The search for a block of the depth a request needs. *)
Lemma find_block_returns m r V B d req (Q : buddy_tree_pos → Prop) :
  buddy_inv m r V B → 1 ≤ d ≤ ar_order r → 1 ≤ req →
  Z.max req (ar_align r) ≤ ar_align r * 2 ^ (ar_order r - d) < 2 * Z.max req (ar_align r) →
  ((∀ i, real_node r i → req ≤ block_size r i → ¬ free_node B i) → Q INVALID_POS) →
  (∀ i, real_node r i → free_node (V ∪ B) i → Z.log2 i + 1 = d → fits r req i → Q (pos_of i)) →
  returns (buddy_tree_find_free m (ar_tree r) d) Q.
Proof.
  intros Hinv Hdo Hreq Hfit HQ0 HQ. destruct (Hinv) as [Hr Hh Ht Hc Hd].
  pose proof (ar_order_pos Hr) as Ho. pose proof (ar_align_pos Hr).
  pose proof (Z.pow_pos_nonneg 2 (ar_order r - d) ltac:(lia) ltac:(lia)).
  apply (find_free_returns _ _ _ _ _ _ Ht Hdo).
  - intros Hnone. apply HQ0. intros i Hi Hs Hf%(free_node_union m r V B i Hinv Hi).
    pose proof (proj1 Hi) as Hin. pose proof (node_log2 (ar_order r) i ltac:(lia) Hin).
    pose proof (block_in_arena Hr i Hi) as (_ & _ & Hal).
    rewrite (block_size_depth r i (Z.log2 i + 1)) in Hs, Hal by done.
    assert (Z.log2 i + 1 ≤ d) as Hle.
    { destruct (decide (Z.log2 i + 1 ≤ d)); [done|]. exfalso.
      assert (2 * 2 ^ (ar_order r - (Z.log2 i + 1)) ≤ 2 ^ (ar_order r - d)); [|nia].
      rewrite <-pow2_S by lia. apply Z.pow_le_mono_r; lia. }
    destruct (free_node_below (ar_order r) (V ∪ B) i (d - (Z.log2 i + 1)))
      as (j & Hj & Hjl & _ & Hjf); [lia|done|apply Ht|done|lia|lia|].
    by apply (Hnone j Hj ltac:(lia)).
  - intros i Hi Hid Hf. apply HQ; [by eapply free_node_real|done|done|].
    unfold fits. rewrite (block_size_depth r i d) by done. split; [lia|].
    destruct (decide (ar_align r ≤ req)); [left; lia|right].
    rewrite Z.max_r in Hfit by lia. assert (2 ^ (ar_order r - d) = 1) as -> by nia. lia.
Qed.

(** Taking a free block into use, and giving one back. *)
Lemma mark_block m r V B i (Q : mem → Prop) :
  buddy_inv m r V B → real_node r i → free_node (V ∪ B) i →
  (∀ m', bits_frame m m' (ar_tree r) (ar_order r) → buddy_inv m' r V ({[i]} ∪ B) → Q m') →
  returns (buddy_tree_mark m (ar_tree r) (pos_of i)) Q.
Proof.
  intros [Hr Hh Ht Hc Hd] Hi Hf HQ. eapply mark_returns; [done|apply Hi|done|].
  intros m' Hfr Ht'. pose proof (free_node_not_in _ _ Hf). apply HQ; [done|].
  split; [done|by eapply bits_frame_header| |done|set_solver].
  by replace (V ∪ ({[i]} ∪ B)) with ({[i]} ∪ (V ∪ B)) by set_solver.
Qed.

Lemma release_block m r V B a (Q : mem * buddy_tree_release_status → Prop) :
  buddy_inv m r V B → a ∈ B →
  (∀ m', bits_frame m m' (ar_tree r) (ar_order r) → buddy_inv m' r V (B ∖ {[a]}) →
     Q (m', BUDDY_TREE_RELEASE_SUCCESS)) →
  returns (buddy_tree_release m (ar_tree r) (pos_of a)) Q.
Proof.
  intros [Hr Hh Ht Hc Hd] Ha HQ. eapply release_returns; [done|set_solver|]. intros m' Hfr Ht'.
  apply HQ; [done|]. split; [done|by eapply bits_frame_header| |done|set_solver].
  by replace (V ∪ B ∖ {[a]}) with ((V ∪ B) ∖ {[a]}) by set_solver.
Qed.

Lemma first_leaf_real r i : arena_ok r → real_node r i → first_leaf (ar_order r) i < ar_leaves r.
Proof.
  intros Hr [Hi He]. pose proof (ar_order_pos Hr).
  pose proof (span_pos (ar_order r) i ltac:(lia) Hi). unfold end_leaf in He. lia.
Qed.

Lemma buddy_malloc_returns m r V B req (Q : mem * Z → Prop) :
  buddy_inv m r V B → 0 ≤ req < 2 ^ 64 →
  ((∀ i, real_node r i → Z.max req 1 ≤ block_size r i → ¬ free_node B i) → Q (m, NULL)) →
  (∀ m' i, real_node r i → free_node (V ∪ B) i → fits r (Z.max req 1) i →
     bits_frame m m' (ar_tree r) (ar_order r) →
     buddy_inv m' r V ({[i]} ∪ B) → Q (m', block_addr r i)) →
  returns (buddy_malloc m (ar_at r) req) Q.
Proof.
  intros Hinv Hreq HQ0 HQ. destruct (Hinv) as [Hr Hh Ht _ _].
  pose proof (ar_addr Hr). pose proof (ar_order_pos Hr) as Ho.
  unfold buddy_malloc. rewrite (proj2 (Z.eqb_neq (ar_at r) NULL)) by (unfold NULL; lia).
  replace (if req =? 0 then 1 else req) with (Z.max req 1)
    by (destruct (Z.eqb_spec req 0); lia).
  rewrite (b_memory_size_eq Hh), bind_ok.
  destruct (Z.ltb_spec (ar_size r) (Z.max req 1)) as [Hlt|Hle].
  { apply HQ0. intros i Hi Hs. pose proof (block_in_arena Hr i Hi). lia. }
  bind_step. apply depth_for_size_returns; [done..|lia|]. intros d Hdo Hfit.
  rewrite (buddy_tree_of_eq Hr), u8_small by lia.
  bind_step. apply (find_block_returns m r V B d (Z.max req 1)); [done|done|lia|done| |].
  - intros Hnone. change (buddy_tree_valid m (ar_tree r) INVALID_POS) with (Ok false).
    rewrite bind_ok. by apply HQ0.
  - intros i Hi Hf Hid Hfi.
    rewrite (tree_valid_node (tr_header _ _ _ _ (ti_rep _ _ _ _ Ht))), bind_ok by apply Hi.
    cbn [negb]. bind_step. eapply mark_block; [done..|]. intros m' Hfr Hinv'.
    rewrite (address_node Hr (bi_header _ _ _ _ Hinv')), bind_ok
      by (apply Hi || by apply first_leaf_real).
    by apply HQ.
Qed.

(** ** What the client sees *)

(** C12. [buddy_malloc] on an allocator with the blocks [B] in use, for every
    size: either it returns [NULL] with the memory as it was, and then no free
    block of the arena holds the size; or it returns the address of a block
    that was free, lies in the arena, holds the size and would not if it were
    half as large, and shares no byte with any block in use; the allocator then
    has that block in use as well, and only its own bytes changed. *)
Theorem buddy_malloc_spec m r B req :
  buddy_ok m r B → 0 ≤ req < 2 ^ 64 →
  returns (buddy_malloc m (ar_at r) req) (λ '(m', p),
    (p = NULL ∧ m' = m ∧
     ∀ i, real_node r i → Z.max req 1 ≤ block_size r i → ¬ free_node B i) ∨
    ∃ i, p = block_addr r i ∧ i ∉ B ∧ fits r (Z.max req 1) i ∧
      ar_main r ≤ p ∧ p + block_size r i ≤ ar_main r + ar_size r ∧
      (∀ a, a ∈ B → blocks_disjoint r a i) ∧
      buddy_ok m' r ({[i]} ∪ B) ∧ meta_frame m m' r).
Proof.
  intros [V Hinv] Hreq. destruct (Hinv) as [Hr _ Ht _ _].
  apply (buddy_malloc_returns m r V B); [done..| |].
  - intros Hnone. left. split_and!; [done..|]. intros i Hi Hs Hf.
    by apply (Hnone i Hi Hs).
  - intros m' i Hi Hf Hfit Hfr Hinv'. right. exists i. pose proof (free_node_not_in _ _ Hf).
    destruct (block_in_arena Hr i Hi) as (? & ? & _). split_and!; try done.
    + set_solver.
    + intros a Ha. apply apart_blocks_disjoint; [done| |apply Hi|apply Hf; set_solver].
      apply (bo_node _ _ (ti_blocks _ _ _ _ Ht)). set_solver.
    + by exists V.
    + by apply bits_frame_meta.
Qed.

(** ** Finding the block an address belongs to *)

(** Going up from the leaf of an address, past the nodes with nothing in use
    below them. *)
Lemma position_loop m t o A y fuel c (Q : option buddy_tree_pos → Prop) :
  tree_inv m t o A → node o y → node o c → below c y →
  (Z.to_nat (Z.log2 c) < fuel)%nat →
  (∀ d, below c d → below d y → d ≠ c → status o A d = 0) →
  ((∀ d, 1 ≤ d → below d y → status o A d = 0) → Q None) →
  (∀ i, node o i → below i y → status o A i ≠ 0 →
     (∀ d, below i d → below d y → d ≠ i → status o A d = 0) → Q (Some (pos_of i))) →
  returns (loop fuel (position_for_address_body m t) (pos_of c)) Q.
Proof.
  intros Hinv Hy. destruct (Hinv) as [Hrep HA]. pose proof (tr_header _ _ _ _ Hrep) as Hh.
  pose proof (th_order _ _ _ Hh) as Ho. revert c.
  induction fuel as [|fuel IH]; intros c Hc Hb Hf Hz HQ0 HQ; [lia|].
  cbn [loop]. bind_step. unfold position_for_address_body at 1.
  rewrite (status_rep Hrep), bind_ok by done.
  destruct (Z.eqb_spec (status o A c) 0) as [E|E]; cbn [negb]; [|by apply HQ].
  destruct (decide (c = 1)) as [->|Hc1].
  - assert (buddy_tree_valid m t (buddy_tree_parent (pos_of 1)) = Ok false) as -> by done.
    cbn [mbind outcome_bind negb returns]. apply HQ0. intros d Hd Hdy.
    destruct (decide (d = 1)) as [->|]; [done|]. apply Hz; [|done|done].
    destruct (below_linear 1 d y Hb Hdy) as [?|H]; [done|].
    apply below_le in H; lia.
  - rewrite (parent_pos_of o) by done.
    pose proof (node_parent o c Hc Hc1) as Hp.
    rewrite (tree_valid_node Hh), bind_ok by done. cbn [negb returns].
    apply IH; [done| | | |done|done].
    + eapply below_trans; [apply below_half, below_refl|done].
    + rewrite log2_half by (destruct Hc; lia). pose proof (Z.log2_pos c). destruct Hc. lia.
    + intros d Hd Hdy Hne. destruct (decide (d = c)) as [->|Hdc]; [done|]. apply Hz; [|done|done].
      destruct (below_linear c d y Hb Hdy) as [?|H]; [done|]. exfalso.
      pose proof (below_parent d c H Hdc) as H'. destruct Hp as [Hp _].
      pose proof (below_pos (c / 2) d Hp Hd). apply Hne. apply below_antisym; (done || lia).
Qed.

(** A node with a status that is neither zero nor its height is no block, and a
    node found by going up is a block unless its status is such. *)
Lemma found_status o A i y :
  0 ≤ o → blocks_ok o A → node o i → node o y → below i y → height o y = 1 →
  status o A i ≠ 0 → (∀ d, below i d → below d y → d ≠ i → status o A d = 0) →
  i ∈ A ∨ status o A i ≠ height o i.
Proof.
  intros Ho HA Hi Hy Hb Hleaf Hs Hz. destruct (decide (i ∈ A)) as [|Hni]; [by left|right].
  pose proof (node_height o i Ho Hi). destruct (decide (height o i = 1)) as [H1|H1].
  { by rewrite status_leaf in Hs. }
  assert (1 ≤ i) as Hi1 by (destruct Hi; lia).
  assert (i ≠ y) as Hiy by (intros ->; lia).
  rewrite status_children in * by (done || lia). unfold join_status in *.
  pose proof (status_nonneg o A (2 * i)). pose proof (status_nonneg o A (2 * i + 1)).
  assert (status o A (2 * i) = 0 ∨ status o A (2 * i + 1) = 0) as Hc.
  { destruct (below_child i y Hb Hiy) as [H'|H']; [left|right]; apply Hz; try done; try lia;
      [apply below_left|apply below_right]. }
  destruct (_ && _); lia.
Qed.

Lemma deepest_position_eq m r V B x :
  buddy_inv m r V B → 0 ≤ x < ar_leaves r →
  deepest_position_for_offset m (ar_at r) (ar_align r * x) = Ok (pos_of (leaf (ar_order r) x)).
Proof.
  intros [Hr Hh Ht _ _] Hx. pose proof (ar_order_pos Hr). pose proof (ar_align_pos Hr).
  pose proof (ar_leaves_le Hr). unfold deepest_position_for_offset.
  rewrite (b_alignment_eq Hr Hh), bind_ok, (buddy_tree_of_eq Hr).
  unfold buddy_tree_leftmost_child.
  rewrite (t_order_eq (tr_header _ _ _ _ (ti_rep _ _ _ _ Ht))), !bind_ok.
  unfold buddy_tree_leftmost_child_internal. cbn [index depth].
  destruct (leaf_node (ar_order r) x ltac:(lia) ltac:(lia)) as [Hn Hl].
  unfold pos_of. rewrite Hl. rewrite (u64_small (ar_order r - 1)), two_to_the_power_of_pow2 by lia.
  pose proof (node_bound _ _ (ao_order _ Hr) Hn) as Hb.
  replace (ar_align r * x / ar_align r) with x by (rewrite Z.mul_comm, Z.div_mul; lia).
  unfold leaf in *. rewrite u64_small by lia. do 2 f_equal. lia.
Qed.

(** The block that starts at the address of leaf [x] is found from that leaf. *)
Lemma block_at_leaf m r V B a x i :
  buddy_inv m r V B → a ∈ B → 0 ≤ x < ar_leaves r →
  block_addr r a = ar_main r + ar_align r * x →
  node (ar_order r) i → below i (leaf (ar_order r) x) →
  status (ar_order r) (V ∪ B) i ≠ 0 →
  (∀ d, below i d → below d (leaf (ar_order r) x) → d ≠ i →
     status (ar_order r) (V ∪ B) d = 0) →
  i = a.
Proof.
  intros Hinv Ha Hx Hp Hi Hb Hs Hz. destruct (Hinv) as [Hr _ Ht _ _].
  pose proof (ar_order_pos Hr). pose proof (ar_align_pos Hr). pose proof (ar_leaves_le Hr).
  pose proof (ti_blocks _ _ _ _ Ht) as HA.
  pose proof (bo_node _ _ HA a ltac:(set_solver)) as Han.
  pose proof (span_pos (ar_order r) a ltac:(lia) Han).
  assert (first_leaf (ar_order r) a = x) as Hfl by (unfold block_addr in Hp; nia).
  assert (below a (leaf (ar_order r) x)) as Hay
    by (apply below_leaf; unfold end_leaf; (done || lia)).
  assert (0 ≤ height (ar_order r) a) by (pose proof (node_height (ar_order r) a ltac:(lia) Han); lia).
  destruct (decide (i = a)) as [|Hne]; [done|]. exfalso.
  destruct (below_linear i a (leaf (ar_order r) x) Hb Hay) as [Hia|Hai].
  - pose proof (Hz a Hia Hay ltac:(done)) as E.
    rewrite status_in in E by (done || set_solver).
    pose proof (node_height (ar_order r) a ltac:(lia) Han). lia.
  - apply Hs. apply status_zero; [lia|done|done|]. intros c Hc Hic.
    assert (a = c) as <- by (apply (bo_apart _ _ HA); [set_solver|done|by eapply below_trans]).
    apply Hne. apply below_antisym; [destruct Hi; lia|destruct Han; lia|done|done].
Qed.

(** Where no node above leaf [x] has blocks, no block starts at that leaf. *)
Lemma no_block_at_leaf m r V B a x :
  buddy_inv m r V B → a ∈ B → 0 ≤ x < ar_leaves r →
  (∀ d, 1 ≤ d → below d (leaf (ar_order r) x) → status (ar_order r) (V ∪ B) d = 0) →
  ar_main r + ar_align r * x ≠ block_addr r a.
Proof.
  intros [Hr _ Ht _ _] Ha Hx Hz Hpa. pose proof (ar_order_pos Hr). pose proof (ar_align_pos Hr).
  pose proof (ar_leaves_le Hr). pose proof (ti_blocks _ _ _ _ Ht) as HA.
  pose proof (bo_node _ _ HA a ltac:(set_solver)) as Han.
  pose proof (span_pos (ar_order r) a ltac:(lia) Han).
  assert (first_leaf (ar_order r) a = x) as Hfl by (unfold block_addr in Hpa; nia).
  assert (below a (leaf (ar_order r) x)) as Hay by (apply below_leaf; unfold end_leaf; (done || lia)).
  pose proof (Hz a ltac:(destruct Han; lia) Hay) as E0.
  pose proof (node_height (ar_order r) a ltac:(lia) Han).
  rewrite status_in in E0 by (lia || set_solver). lia.
Qed.

(** What the search ends on above leaf [x], if it ends on something: a block that
    starts there, or a node some of whose blocks are taken. *)
Lemma found_at_leaf m r V B i x :
  let p := ar_main r + ar_align r * x in let o := ar_order r in
  buddy_inv m r V B → 0 ≤ x < ar_leaves r → node o i → below i (leaf o x) →
  status o (V ∪ B) i ≠ 0 → (∀ d, below i d → below d (leaf o x) → d ≠ i → status o (V ∪ B) d = 0) →
  (∀ a, a ∈ B → p = block_addr r a → i = a) ∧
  (i ∈ B ∨ status o (V ∪ B) i ≠ height o i).
Proof.
  intros p o Hinv Hx Hi Hb Hs Hz. destruct (Hinv) as [Hr _ Ht Hc _]. split.
  { intros a Ha Hpa. by apply (block_at_leaf m r V B a x i). }
  pose proof (ar_order_pos Hr). pose proof (ar_leaves_le Hr). subst o.
  destruct (leaf_node (ar_order r) x ltac:(lia) ltac:(lia)) as [Hy Hyl].
  destruct (found_status (ar_order r) (V ∪ B) i (leaf (ar_order r) x)) as [Hin|Hne];
    [lia|apply Ht|done|done|done|unfold height; lia|done|done| |by right].
  left. apply elem_of_union in Hin as [HiV|]; [|done]. exfalso.
  pose proof (proj1 (Hc x ltac:(lia))) as Hcx. enough (ar_leaves r ≤ x) by lia.
  apply Hcx. exists i. split_and!; [done|done|apply below_leaf; (done || lia)..].
Qed.

Lemma position_for_address_returns m r V B p (Q : buddy_tree_pos → Prop) :
  buddy_inv m r V B → ar_main r ≤ p < ar_main r + ar_size r →
  (∀ a, a ∈ B → p = block_addr r a → Q (pos_of a)) →
  ((∀ a, a ∈ B → p ≠ block_addr r a) → Q INVALID_POS) →
  (∀ i, node (ar_order r) i → status (ar_order r) (V ∪ B) i ≠ height (ar_order r) i →
     (∀ a, a ∈ B → p ≠ block_addr r a) → Q (pos_of i)) →
  returns (position_for_address m (ar_at r) p) Q.
Proof.
  intros Hinv Hp HQa HQ0 HQi. destruct (Hinv) as [Hr Hh Ht Hc _].
  pose proof (ar_order_pos Hr). pose proof (ar_align_pos Hr). pose proof (ar_leaves_le Hr).
  pose proof (ao_main _ Hr). pose proof (ti_blocks _ _ _ _ Ht) as HA.
  unfold position_for_address.
  rewrite (bh_main _ _ Hh), bind_ok, (b_alignment_eq Hr Hh), bind_ok.
  rewrite u64_small by lia.
  destruct (Z.eqb_spec ((p - ar_main r) mod ar_align r) 0) as [E|E]; cbn [negb].
  2:{ apply HQ0. intros a _ ->. apply E. unfold block_addr.
      replace (ar_main r + ar_align r * first_leaf (ar_order r) a - ar_main r)
        with (first_leaf (ar_order r) a * ar_align r) by lia.
      apply Z.mod_mul. lia. }
  set (x := (p - ar_main r) / ar_align r).
  assert (p - ar_main r = ar_align r * x) as Hpx by (unfold x; rewrite Z.mul_comm; apply Z_div_exact_full_2 in E; lia).
  assert (0 ≤ x < ar_leaves r) as Hx by (unfold ar_size in *; nia).
  rewrite Hpx, (deepest_position_eq m r V B) by done. rewrite bind_ok, (buddy_tree_of_eq Hr).
  destruct (leaf_node (ar_order r) x ltac:(lia) ltac:(lia)) as [Hy Hyl].
  assert (height (ar_order r) (leaf (ar_order r) x) = 1) as Hyh by (unfold height; lia).
  bind_step. apply (position_loop m (ar_tree r) (ar_order r) (V ∪ B) (leaf (ar_order r) x));
    [done|done|done|apply below_refl|lia|..].
  - intros d Hd Hdy Hne. exfalso. apply Hne.
    apply (leaf_below (ar_order r)); [lia|done|done| |done].
    eapply below_node; [|exact Hdy|done].
    eapply below_pos; [|exact Hd]. destruct Hy; lia.
  - intros Hz. cbn [mbind outcome_bind returns]. apply HQ0. intros a Ha Hpa.
    apply (no_block_at_leaf m r V B a x); [done..|]. rewrite <-Hpa. lia.
  - intros i Hi Hb Hs Hz. destruct (found_at_leaf m r V B i x) as [Hia Hin]; [done..|].
    assert (first_leaf (ar_order r) i ≤ x < end_leaf (ar_order r) i) as Hfx
      by (apply below_leaf; (done || lia)).
    cbn [mbind outcome_bind]. rewrite (address_node Hr Hh) by (done || lia). rewrite bind_ok.
    replace (ar_main r + ar_align r * x) with p in Hia by lia.
    destruct (Z.eqb_spec (block_addr r i) p) as [Ep|Ep]; cbn [negb returns].
    2:{ apply HQ0. intros a Ha Hpa. apply Ep. by rewrite (Hia a Ha Hpa). }
    destruct Hin as [Hin|Hne]; [by apply HQa|].
    destruct (decide (set_Exists (λ a, p = block_addr r a) B)) as [(a & Ha & Hpa)|Hno].
    + by rewrite (Hia a Ha Hpa) in *; apply HQa.
    + apply HQi; [done|done|]. intros a Ha Hpa. apply Hno. by exists a.
Qed.

(** ** [buddy_free] *)

Lemma buddy_free_returns m r V B p (Q : mem → Prop) :
  buddy_inv m r V B →
  (∀ m' a, a ∈ B → p = block_addr r a → bits_frame m m' (ar_tree r) (ar_order r) →
     buddy_inv m' r V (B ∖ {[a]}) → Q m') →
  ((∀ a, a ∈ B → p ≠ block_addr r a) → Q m) →
  returns (buddy_free m (ar_at r) p) Q.
Proof.
  intros Hinv HQa HQ0. destruct (Hinv) as [Hr Hh Ht Hc Hd].
  pose proof (ar_addr Hr). pose proof (ao_main _ Hr). pose proof (ar_align_pos Hr).
  assert (∀ a, a ∈ B → ar_main r ≤ block_addr r a < ar_main r + ar_size r) as Hrange.
  { intros a Ha. pose proof (block_in_arena Hr a (buddy_inv_real m r V B a Hinv Ha)). lia. }
  unfold buddy_free, NULL. rewrite (proj2 (Z.eqb_neq (ar_at r) 0)) by lia.
  destruct (Z.eqb_spec p 0) as [->|Hp0].
  { apply HQ0. intros a Ha Hpa. specialize (Hrange a Ha). lia. }
  rewrite (bh_main _ _ Hh), bind_ok, (b_memory_size_eq Hh), bind_ok.
  pose proof (ao_leaves _ Hr). assert (0 ≤ ar_size r) by (unfold ar_size; nia).
  rewrite u64_small by lia.
  destruct (Z.ltb_spec p (ar_main r)) as [|Hge]; cbn [orb].
  { apply HQ0. intros a Ha Hpa. specialize (Hrange a Ha). lia. }
  destruct (Z.leb_spec (ar_main r + ar_size r) p) as [|Hlt].
  { apply HQ0. intros a Ha Hpa. specialize (Hrange a Ha). lia. }
  rewrite (buddy_tree_of_eq Hr). pose proof (tr_header _ _ _ _ (ti_rep _ _ _ _ Ht)) as Hth.
  bind_step. apply (position_for_address_returns m r V B p _ Hinv); [lia|..].
  - intros a Ha Hpa. pose proof (bo_node _ _ (ti_blocks _ _ _ _ Ht) a ltac:(set_solver)) as Han.
    rewrite (tree_valid_node Hth), bind_ok by done. cbn [negb].
    bind_step. eapply release_block; [done..|]. intros m' Hfr Hinv'. cbn [returns].
    by apply (HQa m' a).
  - intros Hno. change (buddy_tree_valid m (ar_tree r) INVALID_POS) with (Ok false).
    rewrite bind_ok. by apply HQ0.
  - intros i Hi Hne Hno. rewrite (tree_valid_node Hth), bind_ok by done. cbn [negb].
    rewrite (release_partial _ _ _ _ _ Ht Hi Hne), bind_ok. by apply HQ0.
Qed.

(** C28. [buddy_free], given any address whatever: when a block in use starts
    there, that block and no other is taken back, and only the allocator's own
    bytes change; any other address, [NULL] included, one inside a block or one
    in the free part of the arena, leaves the memory as it was. *)
Theorem buddy_free_spec m r B p :
  buddy_ok m r B →
  returns (buddy_free m (ar_at r) p) (λ m',
    (∃ a, a ∈ B ∧ p = block_addr r a ∧ buddy_ok m' r (B ∖ {[a]}) ∧ meta_frame m m' r) ∨
    (m' = m ∧ ∀ a, a ∈ B → p ≠ block_addr r a)).
Proof.
  intros [V Hinv]. apply (buddy_free_returns m r V B); [done| |].
  - intros m' a Ha Hp Hfr Hinv'. left. exists a. split_and!; [done|done|by exists V|].
    apply bits_frame_meta; [apply Hinv|done].
  - intros Hno. by right.
Qed.

(** What [buddy_malloc] hands out, [buddy_free] takes back: the allocator is
    left with the blocks it had. *)
Theorem buddy_malloc_free m r B req :
  buddy_ok m r B → 0 ≤ req < 2 ^ 64 →
  returns ('(m', p) ← buddy_malloc m (ar_at r) req; buddy_free m' (ar_at r) p)
    (λ m', buddy_ok m' r B).
Proof.
  intros [V Hinv] Hreq. bind_step. apply (buddy_malloc_returns m r V B); [done..| |].
  - intros _. apply (buddy_free_returns m r V B); [done| |].
    + intros m' a Ha Hp _ _. exfalso.
      pose proof (block_in_arena (bi_arena _ _ _ _ Hinv) a (buddy_inv_real m r V B a Hinv Ha)).
      pose proof (ao_main _ (bi_arena _ _ _ _ Hinv)). unfold NULL in Hp. lia.
    + intros _. by exists V.
  - intros m' i Hi Hf _ _ Hinv'. pose proof (free_node_not_in _ _ Hf).
    apply (buddy_free_returns m' r V ({[i]} ∪ B)); [done| |].
    + intros m'' a Ha Hp _ Hinv''. exists V.
      assert (a = i) as ->; [|by replace ((({[i]} ∪ B) ∖ {[i]})) with B in Hinv'' by set_solver].
      destruct (decide (a = i)) as [|Hne]; [done|]. exfalso.
      destruct (Hinv') as [Hr _ Ht _ _]. pose proof (ar_order_pos Hr). pose proof (ar_align_pos Hr).
      pose proof (ti_blocks _ _ _ _ Ht) as HA.
      assert (node (ar_order r) a) as Han by (apply HA; set_solver).
      assert (blocks_disjoint r a i) as Hdis.
      { apply apart_blocks_disjoint; [done|done|apply Hi|].
        split; intros H'; apply Hne; [|symmetry]; apply (bo_apart _ _ HA); set_solver. }
      pose proof (span_pos (ar_order r) a ltac:(lia) Han).
      pose proof (span_pos (ar_order r) i ltac:(lia) (proj1 Hi)).
      unfold blocks_disjoint, block_size in Hdis. nia.
    + intros Hno. exfalso. by apply (Hno i ltac:(set_solver)).
Qed.
