(* ===== verification/BuddyInit.v ===== *)
(** * Setting up an allocator: [buddy_init] and [buddy_embed]

    [buddy_init_alignment] and [buddy_embed_alignment] establish the invariant of
    BuddyInv with no block in use: the tree is empty but for the virtual slots,
    which cover exactly the leaves past the end of the arena.  An embedded
    allocator lies behind the arena it manages, in the same range of memory. *)
From stdpp Require Import functions.
From S2P Require Import Prelude Mem BuddyBits BuddyPos BuddyTree BuddyRep BuddyNodes BuddyAlloc.
From S2P Require Import Buddy BuddyInv BuddyMalloc.

(** ** Virtual slots *)

(** A node that ends where the covered leaves begin is free. *)
Lemma free_before o A e i :
  1 ≤ o → blocks_ok o A → covers_from o e A → node o i → end_leaf o i ≤ e → free_node A i.
Proof.
  intros Ho HA Hc Hi He a Ha. pose proof (bo_node _ _ HA a Ha) as Han.
  pose proof (leaves_range o a ltac:(lia) Han). pose proof (span_pos o a ltac:(lia) Han).
  apply (apart_leaves o); [done..|]. right.
  cut (e ≤ first_leaf o a); [lia|].
  apply (Hc (first_leaf o a)); [unfold end_leaf in *; lia|].
  exists a. unfold end_leaf. split_and!; (done || lia).
Qed.

Lemma covers_insert o A i :
  1 ≤ o → node o i → covers_from o (end_leaf o i) A →
  covers_from o (first_leaf o i) ({[i]} ∪ A).
Proof.
  intros Ho Hi Hc x Hx. pose proof (span_pos o i ltac:(lia) Hi). split.
  - intros (v & [->%elem_of_singleton|Hv]%elem_of_union & Hvn & Hvx); [lia|].
    pose proof (proj1 (Hc x Hx) (ex_intro _ v (conj Hv (conj Hvn Hvx)))).
    unfold end_leaf in *. lia.
  - intros Hle. destruct (decide (x < end_leaf o i)).
    + exists i. split_and!; [set_solver|done|lia|done].
    + destruct (proj2 (Hc x Hx)) as (v & ? & ? & ?); [lia|]. exists v.
      split_and!; [set_solver|done|lia|lia].
Qed.

Lemma covers_none o : covers_from o (2 ^ (o - 1)) ∅.
Proof. intros x Hx. split; [intros (v & Hv & _); set_solver|lia]. Qed.

(** The two halves of a node that is not a leaf. *)
Record halves (o c : Z) : Prop := Halves {
  hv_left : node o (2 * c);
  hv_right : node o (2 * c + 1);
  hv_span : span o c = 2 * span o (2 * c) ∧ span o (2 * c + 1) = span o (2 * c);
  hv_height : height o (2 * c) = height o c - 1 ∧ height o (2 * c + 1) = height o c - 1;
  hv_end_right : end_leaf o (2 * c + 1) = end_leaf o c;
  hv_end_left : end_leaf o (2 * c) = first_leaf o (2 * c + 1);
}.

Lemma node_halves o c : 1 ≤ o → node o c → height o c ≠ 1 → halves o c.
Proof.
  intros Ho Hc H1. pose proof (node_height o c ltac:(lia) Hc). destruct (Hc) as [? _].
  destruct (span_half o c) as [Hs1 Hs2]; [lia|lia|].
  destruct (first_leaf_left o c) as [Hf1 Hf2]; [lia|lia|].
  destruct (node_children o c) as [HL HR]; [lia|done|lia|].
  pose proof (height_left o c ltac:(lia)). pose proof (height_right o c ltac:(lia)).
  split; unfold end_leaf; (done || lia).
Qed.

(** Marking the last [e] leaves below node [c], the leaves behind [c] being
    covered already. *)
Lemma toggle_virtual_loop r fuel m c e V (Q : mem → Prop) :
  arena_ok r → buddy_header m r → tree_inv m (ar_tree r) (ar_order r) V →
  covers_from (ar_order r) (end_leaf (ar_order r) c) V →
  node (ar_order r) c → 1 ≤ e ≤ span (ar_order r) c →
  (Z.to_nat (height (ar_order r) c) < fuel)%nat →
  (∀ m' V', bits_frame m m' (ar_tree r) (ar_order r) →
     tree_inv m' (ar_tree r) (ar_order r) V' →
     covers_from (ar_order r) (end_leaf (ar_order r) c - e) V' → Q m') →
  returns (loop fuel (toggle_virtual_body (ar_at r) true) (m, pos_of c, ar_align r * e)) Q.
Proof.
  intros Hr. pose proof (ar_order_pos Hr) as Ho. pose proof (ar_align_pos Hr).
  revert m c e V. induction fuel as [|fuel IH]; intros m c e V Hh Ht Hc Hcn He Hf HQ; [lia|].
  pose proof (node_height (ar_order r) c ltac:(lia) Hcn).
  cbn [loop]. bind_step. unfold toggle_virtual_body at 1.
  rewrite (proj2 (Z.eqb_neq (ar_align r * e) 0)) by nia.
  rewrite (size_for_depth_node Hr Hh), bind_ok, (buddy_tree_of_eq Hr) by done.
  unfold block_size, toggle.
  destruct (Z.eqb_spec (ar_align r * e) (ar_align r * span (ar_order r) c)) as [E|E].
  - assert (e = span (ar_order r) c) as -> by nia. bind_step.
    eapply mark_returns; [done|done|eapply (free_before (ar_order r)); [lia|apply Ht|done|done|lia]|].
    intros m' Hfr Ht'. cbn [returns]. apply (HQ m' ({[c]} ∪ V) Hfr Ht').
    replace (end_leaf (ar_order r) c - span (ar_order r) c) with (first_leaf (ar_order r) c)
      by (unfold end_leaf; lia).
    apply covers_insert; [lia|done|done].
  - assert (height (ar_order r) c ≠ 1) as Hh1.
    { intros H1. unfold span in *. rewrite H1 in *. simpl in *. assert (e = 1) by lia. lia. }
    destruct (node_halves (ar_order r) c) as [HL HR [Hs1 Hs2] [Hhl Hhr] HeR HeL]; [lia|done|done|].
    replace (ar_align r * span (ar_order r) c / 2) with (ar_align r * span (ar_order r) (2 * c)).
    2: { rewrite Hs1. replace (ar_align r * (2 * span (ar_order r) (2 * c)))
           with (ar_align r * span (ar_order r) (2 * c) * 2) by lia. by rewrite Z.div_mul. }
    rewrite (right_child_pos_of (ar_order r)), (left_child_pos_of (ar_order r))
      by (done || apply Hr).
    destruct (Z.leb_spec (ar_align r * e) (ar_align r * span (ar_order r) (2 * c))) as [Hle|Hlt].
    + cbn [returns]. apply (IH m (2 * c + 1) e V); [done|done|by rewrite HeR|done|nia|lia|].
      by rewrite HeR.
    + bind_step. eapply mark_returns; [done|done| |].
      { eapply (free_before (ar_order r)); [lia|apply Ht|done|done|lia]. }
      intros m1 Hfr Ht1. cbn [returns].
      pose proof (ar_effective_le Hr). pose proof (leaves_range (ar_order r) c ltac:(lia) Hcn).
      rewrite u64_small by (unfold end_leaf in *; nia).
      replace (ar_align r * e - ar_align r * span (ar_order r) (2 * c))
        with (ar_align r * (e - span (ar_order r) (2 * c))) by lia.
      apply (IH m1 (2 * c) _ ({[2 * c + 1]} ∪ V)); [by eapply bits_frame_header|done| |done|nia|lia|].
      * rewrite HeL. apply covers_insert; [lia|done|by rewrite HeR].
      * intros m' V' Hfr' Ht' Hc'. apply (HQ m' V'); [by eapply mem_frame_trans|done|].
        replace (end_leaf (ar_order r) c - e)
          with (end_leaf (ar_order r) (2 * c) - (e - span (ar_order r) (2 * c)))
          by (unfold end_leaf in *; lia).
        done.
Qed.

(** An arena that does not fill its tree fills more than half of it. *)
Lemma partial_arena r :
  arena_ok r → ar_leaves r < 2 ^ (ar_order r - 1) →
  2 ≤ ar_order r ∧ 2 ^ (ar_order r - 1) < 2 * ar_leaves r.
Proof.
  intros Hr Hlt. pose proof (ar_order_pos Hr). pose proof (ao_leaves _ Hr).
  assert (1 < ar_leaves r) as Hl1.
  { destruct (decide (ar_leaves r = 1)) as [E1|]; [|lia]. unfold ar_order in *.
    rewrite E1 in Hlt. change (2 ^ (Z.log2_up 1 + 1 - 1)) with 1 in Hlt. lia. }
  pose proof (Z.log2_up_spec (ar_leaves r) Hl1). pose proof (Z.log2_up_pos (ar_leaves r) Hl1).
  unfold ar_order in *. split; [lia|].
  replace (Z.log2_up (ar_leaves r) + 1 - 1) with (Z.pred (Z.log2_up (ar_leaves r)) + 1) by lia.
  rewrite pow2_S by lia. lia.
Qed.

(** The right half of the tree. *)
Lemma root_right o :
  2 ≤ o → node o 1 ∧ node o 3 ∧ 2 ^ (o - 1) = 2 * span o 3 ∧ end_leaf o 3 = 2 ^ (o - 1) ∧ height o 3 = o - 1.
Proof.
  intros Ho. assert (node o 1) as Hn1 by (split; [lia|]; pose proof (Z.pow_gt_1 2 o); lia).
  destruct (node_children o 1) as [_ H3]; [lia|done|rewrite height_1; lia|].
  assert (height o 3 = o - 1) as Hh by (unfold height; change (Z.log2 3) with 1; lia).
  assert (span o 3 = 2 ^ (o - 2)) as Hs3 by (unfold span; rewrite Hh; f_equal; lia).
  assert (2 ^ (o - 1) = 2 * 2 ^ (o - 2)) as Hp2 by (rewrite <-pow2_S by lia; f_equal; lia).
  split_and!; [done|exact H3|by rewrite Hs3| |done].
  unfold end_leaf, first_leaf. rewrite Hs3. change (Z.log2 3) with 1. lia.
Qed.

Lemma toggle_virtual_returns m r (Q : mem → Prop) :
  arena_ok r → buddy_header m r → tree_inv m (ar_tree r) (ar_order r) ∅ →
  (∀ m', bits_frame m m' (ar_tree r) (ar_order r) → buddy_ok m' r ∅ → Q m') →
  returns (buddy_toggle_virtual_slots m (ar_at r) true) Q.
Proof.
  intros Hr Hh Ht HQ. pose proof (ar_order_pos Hr) as Ho. pose proof (ar_align_pos Hr).
  pose proof (ar_effective_le Hr). pose proof (ar_leaves_le Hr). pose proof (ao_leaves _ Hr).
  assert (∀ m' V, bits_frame m m' (ar_tree r) (ar_order r) →
    tree_inv m' (ar_tree r) (ar_order r) V →
    covers_from (ar_order r) (ar_leaves r) V → Q m') as HQ'.
  { intros m' V Hfr Ht' Hc. apply HQ; [done|]. exists V.
    split; [done|by eapply bits_frame_header|by rewrite union_empty_r_L|done|set_solver]. }
  unfold buddy_toggle_virtual_slots.
  rewrite (b_memory_size_eq Hh), bind_ok, (effective_eq Hr Hh), bind_ok.
  destruct (Z.eqb_spec (ar_align r * 2 ^ (ar_order r - 1)) (ar_size r)) as [E|E].
  - cbn [returns]. apply (HQ' m ∅); [apply mem_frame_refl|done|].
    replace (ar_leaves r) with (2 ^ (ar_order r - 1)) by (unfold ar_size in E; nia).
    apply covers_none.
  - assert (ar_leaves r < 2 ^ (ar_order r - 1)) as Hlt by (unfold ar_size in E; nia).
    destruct (partial_arena r Hr Hlt) as [Ho2 Hhalf].
    destruct (root_right (ar_order r) Ho2) as (Hn1 & H3 & Hp2 & He3 & Hh3).
    replace (ar_align r * 2 ^ (ar_order r - 1) - ar_size r)
      with (ar_align r * (2 ^ (ar_order r - 1) - ar_leaves r)) by (unfold ar_size; lia).
    rewrite u64_small by nia. change buddy_tree_root with (pos_of 1).
    rewrite (right_child_pos_of (ar_order r)) by (done || apply Hr). change (2 * 1 + 1) with 3 in *.
    apply (toggle_virtual_loop r 66 m 3 _ ∅); try done.
    + rewrite He3. apply covers_none.
    + lia.
    + lia.
    + intros m' V Hfr Ht' Hc. apply (HQ' m' V Hfr Ht'). rewrite He3 in Hc.
      by replace (2 ^ (ar_order r - 1) - (2 ^ (ar_order r - 1) - ar_leaves r))
        with (ar_leaves r) in Hc by lia.
Qed.

(** ** [buddy_init_alignment] *)

Lemma valid_alignment_pow2 k : 0 ≤ k ≤ 63 → is_valid_alignment (2 ^ k) = true.
Proof.
  intros Hk. unfold is_valid_alignment. apply Z.eqb_eq.
  pose proof (Z.pow_pos_nonneg 2 k). pose proof (Z.pow_le_mono_r 2 k 63).
  rewrite ceiling_power_of_two_log2_up by lia. rewrite Z.max_l by lia.
  by rewrite Z.log2_up_pow2 by lia.
Qed.

Section sizes.
Context {r : arena} (Hr : arena_ok r).

Lemma ar_shift_le : ar_shift r ≤ 63.
Proof using Hr.
  pose proof (ao_size _ Hr). pose proof (ao_leaves _ Hr). pose proof (ar_align_pos Hr).
  destruct (decide (ar_shift r ≤ 63)); [done|]. exfalso.
  pose proof (Z.pow_le_mono_r 2 64 (ar_shift r)). unfold ar_size, ar_align in *. nia.
Qed.

Lemma order_for_memory_eq :
  buddy_tree_order_for_memory (ar_size r) (ar_align r) = ar_order r.
Proof using Hr.
  pose proof (ar_align_pos Hr). pose proof (ao_leaves _ Hr). pose proof (ar_order_pos Hr).
  unfold buddy_tree_order_for_memory, ar_size.
  rewrite Z.mul_comm, Z.div_mul by lia.
  assert (ar_leaves r ≤ 2 ^ 63) by (pose proof (ao_size _ Hr); unfold ar_size in *; nia).
  rewrite ceiling_power_of_two_log2_up by lia. rewrite Z.max_l by lia. unfold ar_order in *.
  pose proof (Z.pow_pos_nonneg 2 (Z.log2_up (ar_leaves r)) ltac:(lia) (Z.log2_up_nonneg _)).
  pose proof (Z.pow_lt_mono_r 2 (Z.log2_up (ar_leaves r)) 64).
  rewrite highest_bit_position_bit_length, bit_length_pos by lia.
  by rewrite Z.log2_pow2 by apply Z.log2_up_nonneg.
Qed.

Lemma sizeof_alignment_eq :
  buddy_sizeof_alignment (ar_size r) (ar_align r) = Ok (ar_meta r).
Proof using Hr.
  pose proof (ar_align_pos Hr). pose proof (ao_leaves _ Hr). pose proof (ar_order_pos Hr).
  pose proof (ar_shift_le). pose proof (ao_shift _ Hr). pose proof (ao_at _ Hr).
  pose proof (layout _ (ao_order _ Hr)) as (_ & _ & ? & ?).
  unfold buddy_sizeof_alignment. unfold ar_align at 1. rewrite valid_alignment_pow2 by lia.
  cbn [negb]. rewrite (proj2 (Z.ltb_ge (ar_size r) _)) by (unfold ar_size; nia).
  rewrite order_for_memory_eq, u8_small, buddy_tree_sizeof_eq, bind_ok by (lia || apply Hr).
  f_equal. unfold sizeof_buddy, ar_meta, tree_size in *. apply u64_small. lia.
Qed.
End sizes.

(** The header's four words. *)
Lemma header_writes {A} m r (K : mem → outcome A) (Q : A → Prop) :
  arena_ok r → bytes_at m (ar_at r) (ar_meta r) →
  (∀ m', mem_frame m m' (ar_at r) (ar_at r + 32) → buddy_header m' r →
     b_buddy_flags m' (ar_at r) = Ok 0 → returns (K m') Q) →
  returns
    (m ← st64 m (u64 (ar_at r + off_arena)) (ar_main r);
     m ← st64 m (ar_at r) (ar_size r);
     m ← st64 m (u64 (ar_at r + off_buddy_flags)) 0;
     m ← st64 m (u64 (ar_at r + off_alignment)) (ar_align r);
     K m) Q.
Proof.
  intros Hr Hb HQ. pose proof (ar_addr Hr) as (? & ? & ? & ?). pose proof (ao_main _ Hr).
  pose proof (ar_align_pos Hr). pose proof (ao_leaves _ Hr). pose proof (ao_size _ Hr).
  assert (0 ≤ ar_size r ∧ ar_align r ≤ ar_size r) as [??] by (unfold ar_size in *; nia).
  unfold off_arena, off_buddy_flags, off_alignment. rewrite !u64_small by lia.
  bind_step. apply st64_frame; [eapply bytes_at_mono; [exact Hb|lia|lia]|lia|].
  intros m1 Hf1 Hl1. pose proof (bytes_at_frame _ _ _ _ _ _ Hf1 Hb) as Hb1.
  bind_step. apply st64_frame; [eapply bytes_at_mono; [exact Hb1|lia|lia]|lia|].
  intros m2 Hf2 Hl2. pose proof (bytes_at_frame _ _ _ _ _ _ Hf2 Hb1) as Hb2.
  bind_step. apply st64_frame; [eapply bytes_at_mono; [exact Hb2|lia|lia]|lia|].
  intros m3 Hf3 Hl3. pose proof (bytes_at_frame _ _ _ _ _ _ Hf3 Hb2) as Hb3.
  bind_step. apply st64_frame; [eapply bytes_at_mono; [exact Hb3|lia|lia]|lia|].
  intros m4 Hf4 Hl4.
  assert (ld64 m4 (ar_at r + 24) = Ok 0) as Hflags by (eapply ld64_frame; [exact Hf4|lia|done]).
  apply HQ; [| |by unfold b_buddy_flags, off_buddy_flags; rewrite u64_small by lia].
  - eapply mem_frame_trans; [eapply mem_frame_mono; [exact Hf1|lia|lia]|].
    eapply mem_frame_trans; [eapply mem_frame_mono; [exact Hf2|lia|lia]|].
    eapply mem_frame_trans; eapply mem_frame_mono; [exact Hf3|lia|lia|exact Hf4|lia|lia].
  - split.
    + by eapply bytes_at_frame.
    + eapply ld64_frame; [exact Hf4|lia|]. eapply ld64_frame; [exact Hf3|lia|done].
    + done.
    + unfold buddy_main, buddy_relative_mode, b_buddy_flags, b_arena, off_arena, off_buddy_flags.
      rewrite !u64_small by lia.
      rewrite Hflags, !bind_ok. simpl.
      eapply ld64_frame; [exact Hf4|lia|]. eapply ld64_frame; [exact Hf3|lia|].
      eapply ld64_frame; [exact Hf2|lia|done].
Qed.

(** The arguments [buddy_init_alignment] accepts, for an arena of [size] bytes
    that is trimmed to whole units. *)
Record init_args (m : mem) (r : arena) (size : Z) : Prop := InitArgs {
  ia_arena : arena_ok r;
  ia_distinct : ar_at r ≠ ar_main r;
  ia_main : ar_main r mod 8 = 0;
  ia_size : ar_size r ≤ size < ar_size r + ar_align r;
  ia_bytes : bytes_at m (ar_at r) (ar_meta r);
}.

Lemma trim_eq m r size : init_args m r size → trim size (ar_align r) = ar_size r.
Proof.
  intros [Hr _ _ Hs _]. pose proof (ar_align_pos Hr). pose proof (ao_main _ Hr).
  assert (size mod ar_align r = size - ar_size r) as Hm.
  { symmetry. apply Z.mod_unique with (ar_leaves r); unfold ar_size in *; lia. }
  unfold trim. rewrite Hm. destruct (Z.eqb_spec (size - ar_size r) 0); cbn [negb]; [lia|].
  replace (size - (size - ar_size r)) with (ar_size r) by lia.
  pose proof (ao_leaves _ Hr). apply u64_small. unfold ar_size in *. pose proof (ao_at _ Hr). nia.
Qed.

Lemma flags_frame m m' b lo hi w :
  mem_frame m m' lo hi → b + 32 ≤ lo → 0 ≤ b → b + 32 ≤ 2 ^ 64 →
  b_buddy_flags m b = Ok w → b_buddy_flags m' b = Ok w.
Proof.
  intros Hfr Hlo ??. unfold b_buddy_flags, off_buddy_flags. rewrite u64_small by lia.
  apply (ld64_frame _ _ _ _ _ _ Hfr). lia.
Qed.

Lemma buddy_init_returns m r size (Q : mem * Z → Prop) :
  init_args m r size →
  (∀ m', meta_frame m m' r → buddy_ok m' r ∅ → b_buddy_flags m' (ar_at r) = Ok 0 →
     Q (m', ar_at r)) →
  returns (buddy_init_alignment m (ar_at r) (ar_main r) size (ar_align r)) Q.
Proof.
  intros Hargs HQ. destruct (Hargs) as [Hr Hne Hmain Hs Hb].
  pose proof (ar_addr Hr) as (? & ? & ? & ?). pose proof (ao_at _ Hr) as (_ & _ & Hat8).
  pose proof (ao_main _ Hr). pose proof (ar_order_pos Hr) as Ho. pose proof (ar_shift_le Hr).
  pose proof (ao_shift _ Hr). unfold buddy_init_alignment, NULL, alignof_buddy.
  rewrite (proj2 (Z.eqb_neq (ar_at r) 0)), (proj2 (Z.eqb_neq (ar_main r) 0)),
    (proj2 (Z.eqb_neq (ar_at r) (ar_main r))) by lia.
  unfold ar_align at 1. rewrite valid_alignment_pow2 by lia. rewrite Hat8, Hmain.
  cbn [negb Z.eqb]. rewrite (trim_eq m r size), (sizeof_alignment_eq Hr), bind_ok by done.
  rewrite (proj2 (Z.eqb_neq (ar_meta r) 0)) by lia.
  rewrite (order_for_memory_eq Hr), u8_small by lia.
  change (u64 (ar_at r + sizeof_buddy)) with (buddy_tree_of (ar_at r)).
  rewrite (buddy_tree_of_eq Hr).
  apply header_writes; [done|done|]. intros m1 Hf1 Hh1 Hfl1.
  pose proof (bytes_at_frame _ _ _ _ _ _ Hf1 Hb) as Hb1.
  bind_step. apply tree_init_returns; [apply Hr| |unfold ar_tree; dlia|unfold ar_tree; lia| |].
  { eapply bytes_at_mono; [exact Hb1|unfold ar_tree; lia|unfold ar_tree, ar_meta; lia]. }
  { unfold ar_tree, ar_meta in *. lia. }
  intros m2 Hf2 Hrep. pose proof (bytes_at_frame _ _ _ _ _ _ Hf2 Hb1) as Hb2.
  assert (buddy_header m2 r) as Hh2
    by (eapply buddy_header_frame; [exact Hf2|unfold ar_tree; lia|done|done]).
  bind_step. apply toggle_virtual_returns; [done|done| |].
  { split; [|apply blocks_ok_empty]. eapply tree_rep_ext; [|exact Hrep].
    intros i Hi. symmetry. apply status_free; [lia|apply blocks_ok_empty|done|].
    intros a Ha. set_solver. }
  intros m3 Hf3 Hok. cbn [returns]. apply HQ; [|done|].
  - eapply mem_frame_trans; [eapply mem_frame_mono; [exact Hf1|lia|lia]|].
    eapply mem_frame_trans; [|by apply bits_frame_meta].
    eapply mem_frame_mono; [exact Hf2|unfold ar_tree; lia|unfold ar_tree, ar_meta; lia].
  - eapply flags_frame; [exact Hf3|unfold ar_tree; lia|lia|lia|].
    eapply flags_frame; [exact Hf2|unfold ar_tree; lia|lia|lia|done].
Qed.

(** C27. [buddy_init_alignment] sets up an allocator with no block in use, for
    every arena that is a multiple of a power of two and every position of the
    allocator: its own bytes are the only ones that change, all loops end, and
    the slots past the end of the arena can not be handed out. *)
Theorem buddy_init_spec m r size :
  init_args m r size →
  returns (buddy_init_alignment m (ar_at r) (ar_main r) size (ar_align r)) (λ '(m', b),
    b = ar_at r ∧ meta_frame m m' r ∧ buddy_ok m' r ∅).
Proof. intros Hargs. by apply buddy_init_returns. Qed.

(** Every other call returns [NULL] and leaves the memory alone. *)
Lemma buddy_init_rejects m b main size al :
  b = NULL ∨ main = NULL ∨ b = main ∨ is_valid_alignment al = false ∨
    b mod 8 ≠ 0 ∨ main mod 8 ≠ 0 →
  buddy_init_alignment m b main size al = Ok (m, NULL).
Proof.
  intros H. unfold buddy_init_alignment, alignof_buddy.
  destruct (Z.eqb_spec b NULL); [done|]. destruct (Z.eqb_spec main NULL); [done|].
  destruct (Z.eqb_spec b main); [done|]. destruct (is_valid_alignment al); [|done].
  destruct (Z.eqb_spec (b mod 8) 0); [|done]. destruct (Z.eqb_spec (main mod 8) 0); [|done].
  exfalso. destruct_or! H; congruence.
Qed.

(** An arena smaller than the alignment is refused. *)
Lemma buddy_init_too_small m b main size al :
  is_valid_alignment al = true → 0 ≤ size < al →
  buddy_init_alignment m b main size al = Ok (m, NULL).
Proof.
  intros Hal Hs. unfold buddy_init_alignment, alignof_buddy. rewrite Hal.
  destruct (Z.eqb_spec b NULL); [done|]. destruct (Z.eqb_spec main NULL); [done|].
  destruct (Z.eqb_spec b main); [done|].
  destruct (Z.eqb_spec (b mod 8) 0); [|done]. destruct (Z.eqb_spec (main mod 8) 0); [|done].
  cbn [negb].
  assert (trim size al = 0) as ->.
  { unfold trim. rewrite Z.mod_small by done. destruct (Z.eqb_spec size 0); [done|].
    cbn [negb]. by rewrite Z.sub_diag. }
  unfold buddy_sizeof_alignment. rewrite Hal. cbn [negb].
  by rewrite (proj2 (Z.ltb_lt 0 al)) by lia.
Qed.

(** ** [buddy_embed_alignment] *)

(** Whether and where an allocator fits behind its arena. *)
Lemma embed_offset_fits size al c :
  0 ≤ size < 2 ^ 64 → buddy_embed_offset size al = Ok c → can_fit c = true →
  ∃ meta, buddy_sizeof_alignment size al = Ok meta ∧ (0 ≤ meta →
    0 < embed_offset c ∧ embed_offset c + meta ≤ size ∧
    embed_offset c + embed_buddy_size c = size ∧ embed_offset c mod 8 = 0).
Proof.
  intros Hs. unfold buddy_embed_offset, alignof_buddy.
  destruct (buddy_sizeof_alignment size al) as [meta| | | |]; try done.
  rewrite bind_ok. intros Hc Hfit. exists meta. split; [done|]. intros Hm. revert Hc Hfit.
  destruct (Z.leb_spec size meta) as [Hle|Hlt].
  { destruct (negb (u64 (size - meta) mod 8 =? 0)); intros [= <-]; done. }
  rewrite (u64_small (size - meta)) by lia.
  destruct (Z.eqb_spec ((size - meta) mod 8) 0) as [E|E]; cbn [negb andb].
  { intros [= <-] _. cbn [embed_offset embed_buddy_size]. split_and!; lia. }
  assert (0 ≤ (size - meta) mod 8 < 8 ∧ (size - meta) mod 8 ≤ size - meta) as [??] by dlia.
  rewrite (u64_small (meta + _)) by lia.
  destruct (Z.leb_spec size (meta + (size - meta) mod 8)) as [Hle|Hlt']; intros [= <-]; [done|].
  cbn [embed_offset embed_buddy_size]. intros _.
  rewrite u64_small by lia. split_and!; [lia|lia|lia|dlia].
Qed.

(** It is refused only for want of room, and the offset is near the end. *)
Lemma embed_offset_room size al c meta :
  0 ≤ size < 2 ^ 64 → buddy_embed_offset size al = Ok c →
  buddy_sizeof_alignment size al = Ok meta → 0 ≤ meta → meta + 8 ≤ size →
  can_fit c = true ∧ size - meta - 8 < embed_offset c.
Proof.
  intros Hs Hc Hmeta Hm Hroom. revert Hc. unfold buddy_embed_offset, alignof_buddy.
  rewrite Hmeta, bind_ok. rewrite (proj2 (Z.leb_gt size meta)) by lia.
  rewrite (u64_small (size - meta)) by lia.
  destruct (Z.eqb_spec ((size - meta) mod 8) 0) as [E|E]; cbn [negb andb].
  { intros [= <-]. cbn [can_fit embed_offset]. split; [done|lia]. }
  assert (0 ≤ (size - meta) mod 8 < 8) by dlia.
  rewrite (u64_small (meta + _)), (proj2 (Z.leb_gt _ _)) by lia. cbn [negb].
  intros [= <-]. cbn [can_fit embed_offset]. rewrite u64_small by lia. split; [done|lia].
Qed.

(** A larger arena needs no smaller an allocator. *)
Lemma tree_size_mono o o' : order_ok o → order_ok o' → o ≤ o' → tree_size o ≤ tree_size o'.
Proof.
  intros Ho Ho' Hle.
  assert (∀ p, order_ok p → order_ok (p + 1) → tree_size p ≤ tree_size (p + 1)) as Hstep.
  { intros p Hp Hp'. destruct (Hp) as [??]. unfold tree_size, rounded_bytes.
    assert (bits_bytes p ≤ bits_bytes (p + 1)); [|dlia].
    unfold bits_bytes. destruct (row_offset_end p) as [-> |]; [|lia].
    destruct (row_offset_end (p + 1)) as [-> |]; [|lia]. apply Z.div_le_mono; [lia|].
    rewrite (pow2_S (p + 1)) by lia. pose proof (Z.pow_gt_1 2 (p + 1)). lia. }
  destruct Ho as [??], Ho' as [??].
  replace o' with (o + Z.of_nat (Z.to_nat (o' - o))) by lia.
  assert (∀ n, o + Z.of_nat n ≤ o' → tree_size o ≤ tree_size (o + Z.of_nat n)) as H'.
  { induction n as [|n IH]; intros Hn; [by rewrite Z.add_0_r|].
    transitivity (tree_size (o + Z.of_nat n)); [apply IH; lia|].
    replace (o + Z.of_nat (S n)) with (o + Z.of_nat n + 1) by lia.
    apply Hstep; split; lia. }
  apply H'. lia.
Qed.

(** The memory an allocator is to be embedded in: [size] bytes from [main] on,
    in units of [2 ^ k]. *)
Record embed_args (m : mem) (main size k : Z) : Prop := EmbedArgs {
  ea_main : 0 < main ∧ main mod 8 = 0 ∧ main + size < 2 ^ 64;
  ea_shift : 0 ≤ k ≤ 63;
  ea_size : 2 ^ k ≤ size ≤ 2 ^ 63;
  ea_order : order_ok (Z.log2_up (size / 2 ^ k) + 1);
  ea_bytes : bytes_at m main size;
}.

Lemma sizeof_alignment_size size k :
  0 ≤ k ≤ 63 → 2 ^ k ≤ size ≤ 2 ^ 63 → order_ok (Z.log2_up (size / 2 ^ k) + 1) →
  buddy_sizeof_alignment size (2 ^ k) = Ok (32 + tree_size (Z.log2_up (size / 2 ^ k) + 1)).
Proof.
  intros Hk Hs Ho. pose proof (Z.pow_pos_nonneg 2 k ltac:(lia) ltac:(lia)).
  assert (1 ≤ size / 2 ^ k ≤ 2 ^ 63).
  { split; [apply Z.div_le_lower_bound; lia|].
    transitivity size; [|lia]. apply Z.div_le_upper_bound; [lia|]. nia. }
  unfold buddy_sizeof_alignment. rewrite valid_alignment_pow2 by lia. cbn [negb].
  rewrite (proj2 (Z.ltb_ge size _)) by lia. unfold buddy_tree_order_for_memory.
  rewrite ceiling_power_of_two_log2_up, Z.max_l by lia.
  set (q := size / 2 ^ k) in *. pose proof (Z.log2_up_nonneg q). destruct (Ho) as [? ?].
  pose proof (Z.pow_pos_nonneg 2 (Z.log2_up q)). pose proof (Z.pow_lt_mono_r 2 (Z.log2_up q) 64).
  rewrite highest_bit_position_bit_length, bit_length_pos, Z.log2_pow2 by lia.
  rewrite u8_small, buddy_tree_sizeof_eq, bind_ok by (done || lia).
  pose proof (layout _ Ho) as (_ & _ & ? & ?). f_equal. apply u64_small.
  unfold sizeof_buddy, tree_size. lia.
Qed.

(** The arena an embedded allocator manages. *)
Definition embedded_arena (main off k : Z) : arena :=
  {| ar_at := main + off; ar_main := main; ar_shift := k; ar_leaves := off / 2 ^ k |}.

Lemma embedded_arena_ok m main size k off meta :
  embed_args m main size k → meta = 32 + tree_size (Z.log2_up (size / 2 ^ k) + 1) →
  2 ^ k ≤ off → off mod 8 = 0 → off + meta ≤ size →
  init_args m (embedded_arena main off k) off ∧
  main + off + ar_meta (embedded_arena main off k) ≤ main + size ∧
  ar_size (embedded_arena main off k) ≤ off.
Proof.
  intros [Hm Hk Hs Ho Hb] -> Hoff Hoff8 Hfit.
  pose proof (Z.pow_pos_nonneg 2 k ltac:(lia) ltac:(lia)).
  set (r := embedded_arena main off k).
  assert (1 ≤ off / 2 ^ k) as Hl by (apply Z.div_le_lower_bound; lia).
  assert (off / 2 ^ k ≤ size / 2 ^ k) as Hll.
  { apply Z.div_le_mono; [lia|]. pose proof (layout _ Ho). destruct Ho. unfold tree_size in *. lia. }
  pose proof (Z.log2_up_le_mono _ _ Hll). pose proof (Z.log2_up_nonneg (off / 2 ^ k)).
  assert (order_ok (ar_order r)) as Hor.
  { unfold ar_order, r. cbn [ar_leaves embedded_arena]. destruct Ho. split; lia. }
  assert (ar_meta r ≤ 32 + tree_size (Z.log2_up (size / 2 ^ k) + 1)) as Hmeta.
  { unfold ar_meta. apply Z.add_le_mono_l. apply tree_size_mono; [done|done|].
    unfold ar_order, r. cbn [ar_leaves embedded_arena]. lia. }
  assert (ar_size r ≤ off < ar_size r + 2 ^ k) as Hsz.
  { unfold ar_size, ar_align, r. cbn [ar_leaves ar_shift embedded_arena].
    pose proof (Z.div_mod off (2 ^ k) ltac:(lia)). pose proof (Z.mod_pos_bound off (2 ^ k)). lia. }
  assert (0 ≤ tree_size (ar_order r)) as Hts.
  { pose proof (layout _ Hor). destruct Hor. unfold tree_size. lia. }
  assert (32 ≤ ar_meta r) by (unfold ar_meta; lia).
  assert (ar_at r = main + off ∧ ar_main r = main ∧ ar_shift r = k ∧ ar_leaves r = off / 2 ^ k ∧
    ar_align r = 2 ^ k) as (Eat & Emain & Esh & Elv & Eal) by done.
  clearbody r. split_and!; [|lia..].
  assert (arena_ok r) as Hr.
  { split; rewrite ?Eat, ?Emain, ?Esh, ?Elv; [|lia|lia|lia|lia|done].
    split_and!; [lia|lia|dlia]. }
  split; rewrite ?Eat, ?Emain, ?Eal; [done|lia|lia|lia|].
  eapply bytes_at_mono; [exact Hb|lia|lia].
Qed.

(** Turning a fresh allocator into an embedded one. *)
Lemma embed_header m r (Q : mem * Z → Prop) :
  buddy_ok m r ∅ → ar_main r < ar_at r → b_buddy_flags m (ar_at r) = Ok 0 →
  (∀ m', mem_frame m m' (ar_at r) (ar_at r + 32) → buddy_ok m' r ∅ → Q (m', ar_at r)) →
  returns
    (flags ← b_buddy_flags m (ar_at r);
     m ← st64 m (u64 (ar_at r + off_buddy_flags)) (Z.lor flags BUDDY_RELATIVE_MODE);
     m ← st64 m (u64 (ar_at r + off_arena)) (u64 (ar_at r - ar_main r));
     Ok (m, ar_at r)) Q.
Proof.
  intros [V [Hr Hh Ht Hc Hd]] Hlt Hfl HQ. pose proof (ar_addr Hr) as (? & ? & ? & ?).
  pose proof (ao_main _ Hr). rewrite Hfl, bind_ok. change (Z.lor 0 BUDDY_RELATIVE_MODE) with 1.
  unfold off_buddy_flags, off_arena. rewrite !u64_small by lia.
  pose proof (bh_bytes _ _ Hh) as Hb.
  bind_step. apply st64_frame; [eapply bytes_at_mono; [exact Hb|lia|lia]|lia|].
  intros m1 Hf1 Hl1. pose proof (bytes_at_frame _ _ _ _ _ _ Hf1 Hb) as Hb1.
  bind_step. apply st64_frame; [eapply bytes_at_mono; [exact Hb1|lia|lia]|lia|].
  intros m2 Hf2 Hl2. cbn [returns].
  assert (mem_frame m m2 (ar_at r + 16) (ar_at r + 32)) as Hf.
  { eapply mem_frame_trans; eapply mem_frame_mono; [exact Hf1|lia|lia|exact Hf2|lia|lia]. }
  apply HQ; [eapply mem_frame_mono; [exact Hf|lia|lia]|]. exists V.
  split; [done| | |done|done].
  - split.
    + by eapply bytes_at_frame.
    + eapply ld64_frame; [exact Hf|lia|apply Hh].
    + eapply ld64_frame; [exact Hf|lia|apply Hh].
    + unfold buddy_main, buddy_relative_mode, b_buddy_flags, b_arena, off_arena, off_buddy_flags.
      rewrite !u64_small by lia.
      assert (ld64 m2 (ar_at r + 24) = Ok 1) as Hl24
        by (eapply ld64_frame; [exact Hf2|lia|exact Hl1]).
      rewrite Hl24, !bind_ok. simpl.
      rewrite Hl2, bind_ok, u64_small by lia. f_equal. lia.
  - destruct Ht as [Hrep HA]. split; [|done].
    eapply tree_rep_frame; [exact Hf|unfold ar_tree; lia|exact Hrep].
Qed.

Lemma buddy_embed_returns m main size k (Q : mem * Z → Prop) :
  embed_args m main size k →
  (size < 40 + tree_size (Z.log2_up (size / 2 ^ k) + 1) + 2 ^ k → Q (m, NULL)) →
  (∀ m' r, ar_main r = main → ar_align r = 2 ^ k → ar_main r + ar_size r ≤ ar_at r →
     ar_at r + ar_meta r ≤ main + size → meta_frame m m' r → buddy_ok m' r ∅ →
     Q (m', ar_at r)) →
  returns (buddy_embed_alignment m main size (2 ^ k)) Q.
Proof.
  intros Hargs HQ0 HQ. destruct (Hargs) as [Hm Hk Hs Ho Hb]. unfold buddy_embed_alignment, NULL.
  rewrite (proj2 (Z.eqb_neq main 0)) by lia. rewrite valid_alignment_pow2 by lia. cbn [negb].
  pose proof (sizeof_alignment_size size k Hk Hs Ho) as Hsz.
  pose proof (Z.pow_pos_nonneg 2 k ltac:(lia) ltac:(lia)).
  pose proof (layout _ Ho) as (_ & _ & ? & ?).
  assert (0 ≤ tree_size (Z.log2_up (size / 2 ^ k) + 1)) by (destruct Ho; unfold tree_size; lia).
  destruct (buddy_embed_offset size (2 ^ k)) as [c| | | |] eqn:Ec;
    try (unfold buddy_embed_offset in Ec; rewrite Hsz in Ec; revert Ec; simpl;
         destruct (negb _); done).
  assert (40 + tree_size (Z.log2_up (size / 2 ^ k) + 1) + 2 ^ k ≤ size →
    can_fit c = true ∧ 2 ^ k ≤ embed_offset c) as Hroom.
  { intros Hle. destruct (embed_offset_room size (2 ^ k) c _ ltac:(lia) Ec Hsz ltac:(lia) ltac:(lia)).
    split; [done|lia]. }
  rewrite bind_ok. destruct (can_fit c) eqn:Efit; cbn [negb].
  2:{ apply HQ0. destruct (decide (size < 40 + tree_size (Z.log2_up (size / 2 ^ k) + 1) + 2 ^ k));
      [done|]. destruct Hroom; [lia|done]. }
  destruct (embed_offset_fits size (2 ^ k) c ltac:(lia) Ec Efit) as (meta & Emeta & Hoff).
  rewrite Hsz in Emeta. injection Emeta as <-. destruct Hoff as (Hoff & Hfit & _ & Hoff8); [lia|].
  set (off := embed_offset c) in *. rewrite (u64_small (main + off)) by lia.
  bind_step. destruct (decide (2 ^ k ≤ off)) as [Hle|Hlt].
  - destruct (embedded_arena_ok m main size k off _ Hargs eq_refl Hle Hoff8 Hfit)
      as (Hinit & Hend & Hsize).
    apply (buddy_init_returns m (embedded_arena main off k) off _ Hinit).
    intros m1 Hf1 Hok Hfl. cbn [ar_at embedded_arena] in *.
    rewrite (proj2 (Z.eqb_neq (main + off) 0)) by lia.
    apply (embed_header m1 (embedded_arena main off k)); [done|simpl; lia|done|].
    intros m2 Hf2 Hok2. apply HQ; [done|done|simpl; lia|simpl in *; lia| |done].
    eapply mem_frame_trans; [exact Hf1|]. eapply mem_frame_mono; [exact Hf2|lia|].
    pose proof (ar_addr (ia_arena _ _ _ Hinit)). simpl in *. lia.
  - rewrite buddy_init_too_small; [|by apply valid_alignment_pow2; lia|lia..].
    cbn [returns]. apply HQ0. destruct (decide (size < 40 + tree_size (Z.log2_up (size / 2 ^ k) + 1) + 2 ^ k));
      [done|]. destruct Hroom; lia.
Qed.

(** C33. [buddy_embed_alignment] puts the allocator behind the arena it manages,
    both in the [size] bytes it is given: it returns [NULL] with the memory as it
    was, or the address of an allocator with no block in use, whose arena starts
    at [main] and ends before the allocator, which itself ends within the range;
    nothing outside the allocator is written. *)
Theorem buddy_embed_spec m main size k :
  embed_args m main size k →
  returns (buddy_embed_alignment m main size (2 ^ k)) (λ '(m', b),
    (b = NULL ∧ m' = m) ∨
    ∃ r, b = ar_at r ∧ ar_main r = main ∧ ar_align r = 2 ^ k ∧
      ar_main r + ar_size r ≤ ar_at r ∧ ar_at r + ar_meta r ≤ main + size ∧
      meta_frame m m' r ∧ buddy_ok m' r ∅).
Proof.
  intros Hargs. apply (buddy_embed_returns m main size k); [done|intros _; by left|].
  intros m' r ??????. right. exists r. split_and!; done.
Qed.
