(* ===== verification/BuddyData.v ===== *)
(** * What is in the blocks: [buddy_calloc] and [buddy_realloc]

    The arena's bytes belong to the clients.  A client that writes them leaves
    the allocator as it is; [buddy_calloc] hands out a block of zeros, and
    [buddy_realloc] keeps what a block holds, through [memset] and [memmove] of
    the kernel's C library. *)
From S2P Require Import Prelude Mem MemCopy MemSet BuddyBits BuddyPos BuddyTree BuddyRep.
From S2P Require Import BuddyNodes BuddyAlloc Buddy BuddyInv BuddyMalloc.

(** The arena can be accessed, lies apart from its allocator, and is aligned to
    words. *)
Record arena_data (m : mem) (r : arena) : Prop := ArenaData {
  ad_bytes : bytes_at m (ar_main r) (ar_size r);
  ad_apart : ar_main r + ar_size r ≤ ar_at r ∨ ar_at r + ar_meta r ≤ ar_main r;
  ad_aligned : ar_main r mod 8 = 0 ∧ 3 ≤ ar_shift r;
  ad_words : word_mapped m;
  ad_end : ar_main r + ar_size r + 8 ≤ 2 ^ 64;
}.

(** Memory that differs in the bytes of block [i] and the allocator's only. *)
Definition same_outside (m m' : mem) (r : arena) (i : Z) : Prop :=
  ∀ x, ¬ (block_addr r i ≤ x < block_addr r i + block_size r i) →
       ¬ (ar_at r ≤ x < ar_at r + ar_meta r) → m' !! x = m !! x.

(** ** Frames *)

(** Writes outside the allocator's bytes do not concern it. *)
Lemma buddy_inv_frame m m' r V B lo hi :
  mem_frame m m' lo hi → hi ≤ ar_at r ∨ ar_at r + ar_meta r ≤ lo →
  buddy_inv m r V B → buddy_inv m' r V B.
Proof.
  intros Hfr Hlo [Hr Hh Ht Hc Hd]. pose proof (ar_addr Hr) as (? & ? & ? & ?).
  split; [done| | |done|done].
  - eapply buddy_header_frame; [exact Hfr|lia|done|done].
  - destruct Ht as [Hrep HA]. split; [|done].
    eapply tree_rep_frame; [exact Hfr|unfold ar_tree, ar_meta in *; lia|done].
Qed.

Lemma word_mapped_frame m m' lo hi : mem_frame m m' lo hi → word_mapped m → word_mapped m'.
Proof.
  intros Hfr Hw x y Hxy Hx. apply (mf_dom _ _ _ _ Hfr). apply (Hw x y Hxy).
  by apply (mf_dom _ _ _ _ Hfr).
Qed.

Lemma arena_data_frame m m' r lo hi : mem_frame m m' lo hi → arena_data m r → arena_data m' r.
Proof.
  intros Hfr []. split; try done; [by eapply bytes_at_frame|by eapply word_mapped_frame].
Qed.

(** A client may write anything into the arena: an allocator is not affected
    by changes of memory outside its own bytes, whatever blocks are in use. *)
Theorem client_writes m m' r B :
  buddy_ok m r B → arena_data m r →
  mem_frame m m' (ar_main r) (ar_main r + ar_size r) →
  buddy_ok m' r B ∧ arena_data m' r.
Proof.
  intros [V Hinv] Hd Hfr. split; [|by eapply arena_data_frame].
  exists V. eapply buddy_inv_frame; [exact Hfr| |exact Hinv]. destruct Hd. lia.
Qed.

(** A block of a real node can be accessed. *)
Lemma block_bytes m r i :
  arena_ok r → arena_data m r → real_node r i → bytes_at m (block_addr r i) (block_size r i).
Proof.
  intros Hr Hd Hi. destruct (block_in_arena Hr i Hi) as (? & ? & ?).
  eapply bytes_at_mono; [apply Hd|lia|lia].
Qed.

Lemma block_aligned m r i : arena_data m r → block_addr r i mod 8 = 0.
Proof.
  intros [_ _ [Hm Hs] _ _]. unfold block_addr, ar_align.
  replace (ar_shift r) with (3 + (ar_shift r - 3)) by lia. rewrite Z.pow_add_r by lia.
  change (2 ^ 3) with 8. rewrite <-Z.mul_assoc, (Z.mul_comm 8), Z.mod_add by lia. done.
Qed.

Lemma copied_frame m m' D S n :
  bytes_at m S n → bytes_at m D n → copied m m' D S n → mem_frame m m' D (D + n).
Proof.
  intros HbS HbD Hc. split.
  - intros x Hx. rewrite Hc. by rewrite decide_False.
  - intros x. rewrite Hc. case_decide; [|done]. split; intros _; [apply HbD; lia|].
    apply (ba_map _ _ _ HbS). lia.
  - intros Hok. by eapply copied_bytes_ok.
Qed.

(** ** [buddy_calloc] *)

(** What [buddy_calloc] may do for [total] bytes; the memory was [m]. *)
Definition calloc_result (m : mem) (r : arena) (V B : gset Z) (total : Z) (m' : mem) (p : Z)
    : Prop :=
  (p = NULL ∧ m' = m ∧
   (2 ^ 64 ≤ total ∨ ∀ i, real_node r i → total ≤ block_size r i → ¬ free_node B i)) ∨
  ∃ i, p = block_addr r i ∧ i ∉ B ∧ free_node B i ∧ fits r total i ∧
    (∀ x, p ≤ x < p + total → m' !! x = Some 0) ∧
    same_outside m m' r i ∧ buddy_inv m' r V ({[i]} ∪ B) ∧ arena_data m' r.

(** The members and their size, and the bytes they come to, which are at least one. *)
Definition calloc_total (n s : Z) : Z := if decide (n = 0 ∨ s = 0) then 1 else n * s.

Lemma buddy_calloc_returns m r V B n s :
  buddy_inv m r V B → arena_data m r → 0 ≤ n < 2 ^ 64 → 0 ≤ s < 2 ^ 64 →
  returns (buddy_calloc m (ar_at r) n s) (λ '(m', p), calloc_result m r V B (calloc_total n s) m' p).
Proof.
  intros Hinv Hd Hn Hs. set (total := calloc_total n s). pose proof (bi_arena _ _ _ _ Hinv) as Hr.
  unfold buddy_calloc.
  assert (∃ a b, (if (n =? 0) || (s =? 0) then (1, 1) else (n, s)) = (a, b) ∧ 1 ≤ a < 2 ^ 64 ∧
    1 ≤ b < 2 ^ 64 ∧ a * b = total) as (a & b & -> & Ha & Hb & Hab).
  { unfold total, calloc_total. destruct (Z.eqb_spec n 0), (Z.eqb_spec s 0), (decide _); simpl;
      try lia; eexists _, _; split_and!; try reflexivity; lia. }
  destruct (Z.eqb_spec (u64 (a * b) / a) b) as [E|E]; cbn [negb].
  2:{ cbn [returns]. left. split_and!; [done|done|left]. rewrite <-Hab.
      destruct (decide (2 ^ 64 ≤ a * b)); [done|]. destruct E.
      rewrite u64_small by nia. rewrite Z.mul_comm, Z.div_mul; lia. }
  assert (a * b < 2 ^ 64) as Hlt.
  { pose proof (u64_range (a * b)). destruct (decide (a * b < 2 ^ 64)); [done|]. exfalso.
    pose proof (Z.mul_div_le (u64 (a * b)) a ltac:(lia)). rewrite E in *. nia. }
  assert (1 ≤ total < 2 ^ 64) as Ht by nia. clear Hn Hs E Hlt. clearbody total.
  rewrite Hab, u64_small by lia. bind_step.
  apply (buddy_malloc_returns m r V B total _ Hinv ltac:(lia)).
  - intros Hno. rewrite Z.max_l in Hno by lia. cbn [negb NULL Z.eqb returns].
    left. split_and!; [done|done|by right].
  - intros m1 i Hi Hf Hfit Hfr Hinv1. pose proof (free_node_not_in _ _ Hf). rewrite Z.max_l in Hfit by lia.
    destruct (block_in_arena Hr i Hi) as (Hlo & Hhi & _). pose proof (ao_main _ Hr).
    rewrite (proj2 (Z.eqb_neq (block_addr r i) NULL)) by (unfold NULL; lia). cbn [negb].
    pose proof (bits_frame_meta _ _ _ Hr Hfr) as Hm1.
    pose proof (arena_data_frame _ _ _ _ _ Hm1 Hd) as Hd1. pose proof (ad_end _ _ Hd).
    destruct (Hfit) as [Hsz _].
    pose proof (block_bytes m1 r i Hr Hd1 Hi) as Hbb.
    assert (bytes_at m1 (block_addr r i) total) as Hbt
      by (eapply bytes_at_mono; [exact Hbb|lia|lia]).
    assert (memset_excess (block_addr r i) total = 0) as Hex.
    { pose proof (block_aligned m1 r i Hd1). unfold memset_excess. destruct (_ <=? _); dlia. }
    bind_step. apply memset_returns; rewrite ?Hex, ?Z.add_0_r;
      [lia|split; [lia|lia|apply Hbt]|].
    change (u8 0) with 0. intros m2 Hfill. cbn [returns]. right. exists i.
    pose proof (filled_frame m1 m2 (block_addr r i) 0 total Hbt ltac:(lia) Hfill) as Hm2.
    split_and!; [done|set_solver|intros c Hcb; apply Hf; set_solver|done| | | |
      by eapply arena_data_frame].
    + intros x Hx. rewrite Hfill. by rewrite decide_True.
    + intros x Hx Hmeta. rewrite Hfill, decide_False by lia. by apply Hm1.
    + eapply buddy_inv_frame; [exact Hm2| |done]. pose proof (ad_apart _ _ Hd). lia.
Qed.

(** C35. [buddy_calloc] of [n] members of [s] bytes: [NULL] with the memory as it
    was when the product overflows a [size_t] or no free block holds it, and
    otherwise a block that was free, whose first [n * s] bytes are zero; a call
    for no bytes is one for one byte.  Nothing else of the arena changes. *)
Theorem buddy_calloc_spec m r B n s :
  buddy_ok m r B → arena_data m r → 0 ≤ n < 2 ^ 64 → 0 ≤ s < 2 ^ 64 →
  let total := if decide (n = 0 ∨ s = 0) then 1 else n * s in
  returns (buddy_calloc m (ar_at r) n s) (λ '(m', p),
    (p = NULL ∧ m' = m ∧
     (2 ^ 64 ≤ total ∨ ∀ i, real_node r i → total ≤ block_size r i → ¬ free_node B i)) ∨
    ∃ i, p = block_addr r i ∧ i ∉ B ∧ free_node B i ∧ fits r total i ∧
      (∀ x, p ≤ x < p + total → m' !! x = Some 0) ∧
      same_outside m m' r i ∧ buddy_ok m' r ({[i]} ∪ B) ∧ arena_data m' r).
Proof.
  intros [V Hinv] Hd Hn Hs total. pose proof (buddy_calloc_returns m r V B n s Hinv Hd Hn Hs) as Hret.
  eapply returns_mono; [exact Hret|].
  intros [m' p] [?|(i & ? & ? & ? & ? & ? & ? & ? & ?)]; [by left|].
  right. exists i. split_and!; try done. by exists V.
Qed.

(** ** [buddy_realloc] *)

(** The block of a pointer is found again. *)
Lemma position_for_block m r V B a :
  buddy_inv m r V B → a ∈ B → position_for_address m (ar_at r) (block_addr r a) = Ok (pos_of a).
Proof.
  intros Hinv Ha. destruct (Hinv) as [Hr _ Ht _ _]. apply returns_eq.
  pose proof (block_in_arena Hr a (buddy_inv_real m r V B a Hinv Ha)). pose proof (ar_align_pos Hr).
  apply (position_for_address_returns m r V B); [done|lia| | |].
  - intros b Hb Hp. f_equal. pose proof (ti_blocks _ _ _ _ Ht) as HA.
    pose proof (ar_order_pos Hr).
    assert (node (ar_order r) a ∧ node (ar_order r) b) as [Han Hbn] by (split; apply HA; set_solver).
    pose proof (span_pos (ar_order r) a ltac:(lia) Han).
    pose proof (span_pos (ar_order r) b ltac:(lia) Hbn).
    destruct (decide (b = a)) as [|Hne]; [done|]. exfalso.
    assert (apart a b) as Hap.
    { split; intros H'; apply Hne; [symmetry|]; apply (bo_apart _ _ HA); set_solver. }
    pose proof (apart_blocks_disjoint r a b Hr Han Hbn Hap) as Hdis.
    unfold blocks_disjoint, block_size in Hdis. nia.
  - intros Hno. by destruct (Hno a Ha).
  - intros i _ _ Hno. by destruct (Hno a Ha).
Qed.

(** Moving what a block holds to a block found after its release. *)
Lemma realloc_move m r V B a i n (Q : mem → Prop) :
  buddy_inv m r V B → arena_data m r → real_node r a → real_node r i →
  0 ≤ n ≤ block_size r a → n ≤ block_size r i →
  (∀ m', mem_frame m m' (block_addr r i) (block_addr r i + n) →
     copied m m' (block_addr r i) (block_addr r a) n → buddy_inv m' r V B → Q m') →
  returns ('(m, _) ← memmove m (block_addr r i) (block_addr r a) n; Ok m) Q.
Proof.
  intros Hinv Hd Ha Hi Hn Hni HQ. pose proof (bi_arena _ _ _ _ Hinv) as Hr.
  destruct (block_in_arena Hr a Ha) as (? & ? & _). destruct (block_in_arena Hr i Hi) as (? & ? & _).
  pose proof (ao_main _ Hr). pose proof (ad_end _ _ Hd).
  pose proof (block_bytes m r a Hr Hd Ha) as Hba. pose proof (block_bytes m r i Hr Hd Hi) as Hbi.
  assert (bytes_at m (block_addr r a) n) as Hbna by (eapply bytes_at_mono; [exact Hba|lia|lia]).
  assert (bytes_at m (block_addr r i) n) as Hbni by (eapply bytes_at_mono; [exact Hbi|lia|lia]).
  bind_step. apply memmove_returns.
  - split; [split; [lia|lia|lia|apply Hba|apply Hbni|apply Hbna]|apply Hd|lia|lia].
  - intros m' Hc. cbn [returns]. pose proof (copied_frame _ _ _ _ _ Hbna Hbni Hc) as Hfr.
    apply HQ; [done|done|]. eapply buddy_inv_frame; [exact Hfr| |done].
    pose proof (ad_apart _ _ Hd). lia.
Qed.

Lemma block_size_mono r i j :
  node (ar_order r) i → node (ar_order r) j → arena_ok r → Z.log2 i ≤ Z.log2 j →
  block_size r j ≤ block_size r i.
Proof.
  intros Hi Hj Hr Hl. pose proof (ar_order_pos Hr). pose proof (ar_align_pos Hr).
  pose proof (node_log2 (ar_order r) j ltac:(lia) Hj). unfold block_size, span, height.
  apply Z.mul_le_mono_nonneg_l; [lia|]. apply Z.pow_le_mono_r; lia.
Qed.

(** What [buddy_realloc] may do with block [a]; the memory was [m]. *)
Definition realloc_result (m : mem) (r : arena) (V B : gset Z) (a req : Z) (m' : mem) (p : Z)
    : Prop :=
  (p = NULL ∧ meta_frame m m' r ∧ buddy_inv m' r V B ∧
   ∀ i, real_node r i → req ≤ block_size r i → ¬ free_node (B ∖ {[a]}) i) ∨
  (p = block_addr r a ∧ fits r req a ∧ meta_frame m m' r ∧ buddy_inv m' r V B) ∨
  ∃ i, p = block_addr r i ∧ fits r req i ∧ free_node (B ∖ {[a]}) i ∧
    (∀ k, 0 ≤ k < Z.min (block_size r a) (block_size r i) →
       m' !! (p + k) = m !! (block_addr r a + k)) ∧
    same_outside m m' r i ∧ buddy_inv m' r V ({[i]} ∪ B ∖ {[a]}) ∧ arena_data m' r.

(** After the release of [a]: putting it back, or moving to block [i]. *)
Section after_release.
Context {m m1 : mem} {r : arena} {V B : gset Z} {a : Z}.
Context (Hinv : buddy_inv m r V B) (Ha : a ∈ B).
Context (Hf1 : bits_frame m m1 (ar_tree r) (ar_order r)) (Hinv1 : buddy_inv m1 r V (B ∖ {[a]})).

Let Hr : arena_ok r := bi_arena _ _ _ _ Hinv.

Lemma put_back (Q : mem → Prop) :
  (∀ m', meta_frame m m' r → buddy_inv m' r V B → Q m') →
  returns (buddy_tree_mark m1 (ar_tree r) (pos_of a)) Q.
Proof using Hinv Ha Hf1 Hinv1.
  intros HQ. eapply mark_block; [exact Hinv1|apply (buddy_inv_real m r V B a Hinv Ha)| |].
  - pose proof (free_node_delete (ar_order r) (V ∪ B) a) as Hf.
    replace (V ∪ B ∖ {[a]}) with ((V ∪ B) ∖ {[a]})
      by (pose proof (bi_disjoint _ _ _ _ Hinv); set_solver).
    apply Hf; [apply Hinv|set_solver].
  - intros m2 Hf2 Hinv2. apply HQ.
    + apply bits_frame_meta; [done|]. by eapply mem_frame_trans.
    + replace ({[a]} ∪ B ∖ {[a]}) with B in Hinv2; [done|].
      apply set_eq. intros x. destruct (decide (x = a)); set_solver.
Qed.

Lemma move_to i n req (Q : mem * Z → Prop) :
  arena_data m r → real_node r i → free_node (V ∪ B ∖ {[a]}) i → fits r req i →
  n = Z.min (block_size r a) (block_size r i) →
  (∀ m' , realloc_result m r V B a req m' (block_addr r i) → Q (m', block_addr r i)) →
  returns
    (m ← ('(m, _) ← memmove m1 (block_addr r i) (block_addr r a) n; Ok m);
     m ← buddy_tree_mark m (ar_tree r) (pos_of i);
     Ok (m, block_addr r i)) Q.
Proof using Hinv Ha Hf1 Hinv1.
  intros Hd Hi Hf Hfit -> HQ. pose proof (bits_frame_meta _ _ _ Hr Hf1) as Hm1.
  pose proof (buddy_inv_real m r V B a Hinv Ha) as Hareal.
  pose proof (ar_align_pos Hr).
  destruct (block_in_arena Hr a Hareal) as (? & ? & ?).
  destruct (block_in_arena Hr i Hi) as (? & ? & ?).
  pose proof (arena_data_frame _ _ _ _ _ Hm1 Hd) as Hd1.
  bind_step. apply (realloc_move m1 r V (B ∖ {[a]}) a i); [done|done|done|done|lia|lia|].
  intros m2 Hf2 Hc Hinv2. bind_step. eapply mark_block; [done..|].
  intros m3 Hf3 Hinv3. cbn [returns]. pose proof (bits_frame_meta _ _ _ Hr Hf3) as Hm3.
  pose proof (ad_apart _ _ Hd) as Hap. apply HQ. right; right. exists i. split_and!; try done.
  - intros b Hb. apply Hf. set_solver.
  - intros k Hk. rewrite (mf_out _ _ _ _ Hm3) by lia. rewrite Hc, decide_True by lia.
    rewrite (mf_out _ _ _ _ Hm1) by lia. f_equal. lia.
  - intros x Hx Hxm. rewrite (mf_out _ _ _ _ Hm3) by done.
    rewrite (mf_out _ _ _ _ Hf2) by lia. by apply Hm1.
  - eapply arena_data_frame; [exact Hm3|]. by eapply arena_data_frame.
Qed.
End after_release.

Lemma buddy_realloc_returns m r V B a req (Q : mem * Z → Prop) :
  buddy_inv m r V B → arena_data m r → a ∈ B → 1 ≤ req →
  (∀ m' p, realloc_result m r V B a req m' p → Q (m', p)) →
  returns (buddy_realloc m (ar_at r) (block_addr r a) req false) Q.
Proof.
  intros Hinv Hd Ha Hreq HQ. destruct (Hinv) as [Hr Hh Ht _ _].
  pose proof (buddy_inv_real m r V B a Hinv Ha) as Hareal.
  destruct (block_in_arena Hr a Hareal) as (Halo & _ & _).
  pose proof (ao_main _ Hr). pose proof (ar_order_pos Hr) as Ho.
  unfold buddy_realloc, NULL. rewrite (proj2 (Z.eqb_neq (block_addr r a) 0)) by lia.
  rewrite (proj2 (Z.eqb_neq req 0)), (b_memory_size_eq Hh), bind_ok by lia.
  destruct (Z.ltb_spec (ar_size r) req) as [Hlt|Hle].
  { apply HQ. left. split_and!; [done|apply mem_frame_refl|done|]. intros i Hi Hsz.
    pose proof (block_in_arena Hr i Hi). lia. }
  rewrite (position_for_block m r V B a Hinv Ha), bind_ok, (buddy_tree_of_eq Hr).
  rewrite (tree_valid_node (tr_header _ _ _ _ (ti_rep _ _ _ _ Ht))), bind_ok by apply Hareal.
  cbn [negb depth pos_of index].
  bind_step. apply depth_for_size_returns; [done|done|lia|]. intros d Hdo Hfit.
  bind_step. eapply release_block; [done..|]. intros m1 Hf1 Hinv1.
  pose proof (tr_header _ _ _ _ (ti_rep _ _ _ _ (bi_tree _ _ _ _ Hinv1))) as Hth1.
  rewrite u8_small by lia.
  bind_step. apply (find_block_returns m1 r V (B ∖ {[a]}) d req); [done|done|lia|done| |].
  - intros Hnone. change (buddy_tree_valid m1 (ar_tree r) INVALID_POS) with (Ok false).
    rewrite bind_ok. cbn [negb]. bind_step. apply (put_back Hinv Ha Hf1 Hinv1). intros m2 Hm2 Hinv2.
    cbn [returns]. apply HQ. by left.
  - intros i Hi Hf Hid Hfi. rewrite (tree_valid_node Hth1), bind_ok by apply Hi.
    cbn [negb index pos_of]. destruct (Z.eqb_spec a i) as [<-|Hai].
    { bind_step. apply (put_back Hinv Ha Hf1 Hinv1). intros m2 Hm2 Hinv2. cbn [returns].
      apply HQ. right; left. done. }
    pose proof (bi_header _ _ _ _ Hinv1) as Hh1.
    rewrite (address_node Hr Hh1 i), bind_ok by (apply Hi || by apply first_leaf_real).
    rewrite (address_node Hr Hh1 a), bind_ok by (apply Hareal || by apply first_leaf_real).
    assert (size_for_depth m1 (ar_at r) (if d <? Z.log2 a + 1 then Z.log2 a + 1 else d) =
      Ok (Z.min (block_size r a) (block_size r i))) as ->.
    { destruct (Z.ltb_spec d (Z.log2 a + 1)).
      - change (Z.log2 a + 1) with (depth (pos_of a)).
        rewrite (size_for_depth_node Hr Hh1 a) by apply Hareal. rewrite Z.min_l; [done|].
        apply block_size_mono; [apply Hi|apply Hareal|done|lia].
      - rewrite <-Hid. change (Z.log2 i + 1) with (depth (pos_of i)).
        rewrite (size_for_depth_node Hr Hh1 i) by apply Hi. rewrite Z.min_r; [done|].
        apply block_size_mono; [apply Hareal|apply Hi|done|lia]. }
    rewrite bind_ok. apply (move_to Hinv Ha Hf1 Hinv1 i _ req); [done..|]. intros m' Hres.
    by apply HQ.
Qed.

(** C34. [buddy_realloc] of a block in use to a size of at least one byte: it
    returns [NULL] and the block stays in use, as nothing large enough is free
    even without it; or it returns the same pointer; or it returns a block that
    was free or part of the old one and that holds the new size, the bytes of
    the old block up to the smaller size have been moved to it although the two
    may overlap, and the old block is given back.  In the first two cases no byte
    of the arena changes. *)
Theorem buddy_realloc_spec m r B a req :
  buddy_ok m r B → arena_data m r → a ∈ B → 1 ≤ req < 2 ^ 64 →
  returns (buddy_realloc m (ar_at r) (block_addr r a) req false) (λ '(m', p),
    (p = NULL ∧ meta_frame m m' r ∧ buddy_ok m' r B ∧
     ∀ i, real_node r i → req ≤ block_size r i → ¬ free_node (B ∖ {[a]}) i) ∨
    (p = block_addr r a ∧ fits r req a ∧ meta_frame m m' r ∧ buddy_ok m' r B) ∨
    ∃ i, p = block_addr r i ∧ fits r req i ∧ free_node (B ∖ {[a]}) i ∧
      (∀ k, 0 ≤ k < Z.min (block_size r a) (block_size r i) →
         m' !! (p + k) = m !! (block_addr r a + k)) ∧
      same_outside m m' r i ∧ buddy_ok m' r ({[i]} ∪ B ∖ {[a]}) ∧ arena_data m' r).
Proof.
  intros [V Hinv] Hd Ha Hreq. apply (buddy_realloc_returns m r V B); [done|done|done|lia|].
  intros m' p [(? & ? & ? & ?)|[(? & ? & ? & ?)|(i & ? & ? & ? & ? & ? & ? & ?)]].
  - left. split_and!; [done|done|by exists V|done].
  - right; left. split_and!; [done|done|done|by exists V].
  - right; right. exists i. split_and!; try done. by exists V.
Qed.
