(* ===== verification/BuddyWalk.v ===== *)
(** * Walking the tree, and the free space of an arena

    [buddy_tree_walk] takes a walk from one node of the tree to the next, from
    the root down, left before right.  The loops of the header that walk a whole
    tree are folds over its nodes; for [buddy_arena_free_size] the fold is the
    number of units of the arena that are in no block in use. *)
From S2P Require Import Prelude Mem BuddyBits BuddyPos BuddyTree BuddyRep BuddyNodes BuddyAlloc.
From S2P Require Import Buddy BuddyQuery BuddyInv BuddyMalloc.

(** A walk from the root that is at node [i]. *)
Definition walk_at (i : Z) (up : bool) : buddy_tree_walk_state :=
  {| starting_pos := buddy_tree_root; current_pos := pos_of i;
     going_up := up; walk_done := false |}.

Definition walk_over : buddy_tree_walk_state :=
  {| starting_pos := buddy_tree_root; current_pos := buddy_tree_root;
     going_up := false; walk_done := true |}.

(** The node a walk comes to when it is done with node [i] and those below it. *)
Inductive after : Z → option Z → Prop :=
  | after_root : after 1 None
  | after_left i : 1 ≤ i → after (2 * i) (Some (2 * i + 1))
  | after_right i x : 1 ≤ i → after i x → after (2 * i + 1) x.

(** A fold over the [n] rows of the tree from node [i] on, which does not go
    below the nodes that satisfy [stop]. *)
Fixpoint visit {R} (stop : Z → bool) (step : Z → R → R) (n : nat) (i : Z) (r : R) : R :=
  match n with
  | O => r
  | S n' =>
      if stop i then step i r
      else visit stop step n' (2 * i + 1) (visit stop step n' (2 * i) (step i r))
  end.

(** No block in use covers unit [x]. *)
Definition unit_free (o : Z) (A : gset Z) (x : Z) : bool :=
  bool_decide (set_Forall (λ a, ¬ (first_leaf o a ≤ x < end_leaf o a)) A).

(** The number of units of an arena that no block in use covers. *)
Definition free_units (r : arena) (B : gset Z) : Z :=
  count (unit_free (ar_order r) B) 0 (Z.to_nat (ar_leaves r)).

(** * Lemmas *)

(** ** One step of a walk *)

Definition walk_result (x : option Z) : bool * buddy_tree_walk_state :=
  match x with Some j => (true, walk_at j false) | None => (false, walk_over) end.

Lemma land_1 x : Z.land x 1 = x mod 2.
Proof. change 1 with (Z.ones 1) at 1. by rewrite Z.land_ones. Qed.

Section walk.
Context {m : mem} {t o : Z} (Hh : tree_header m t o).

Lemma walk_step_up_left i :
1 ≤ i → node o (2 * i) → walk_body m t (walk_at (2 * i) true) = Ok (inr (walk_at (2 * i + 1) false)).
Proof using Hh.
intros Hi Hn. pose proof (node_bound o _ (th_order _ _ _ Hh) Hn). unfold walk_body.
cbn [going_up walk_at current_pos starting_pos index buddy_tree_root pos_of].
rewrite (proj2 (Z.eqb_neq (2 * i) 1)) by lia. rewrite land_1.
replace (2 * i mod 2) with 0 by dlia. cbn [negb Z.eqb]. rewrite bind_ok.
unfold buddy_tree_right_adjacent. cbn [index depth pos_of]. rewrite (u64_small (2 * i + 1)) by lia.
replace (Z.lxor (2 * i + 1) (2 * i)) with 1
  by (rewrite <-lxor_1_even, (Z.lxor_comm (2 * i)), Z.lxor_assoc, Z.lxor_nilpotent by lia; done).
rewrite (proj2 (Z.ltb_ge _ _)) by lia. cbn [going_up].
unfold walk_at, pos_of. rewrite log2_right, log2_left by lia. done.
Qed.

Lemma walk_step_up_right i :
1 ≤ i → node o (2 * i + 1) →
walk_body m t (walk_at (2 * i + 1) true) = Ok (inl (walk_at i true)).
Proof using Hh.
intros Hi Hn. pose proof (th_order _ _ _ Hh) as Ho. unfold walk_body.
cbn [going_up walk_at current_pos starting_pos]. cbn [index buddy_tree_root pos_of].
rewrite (proj2 (Z.eqb_neq (2 * i + 1) 1)) by lia. rewrite land_1.
replace ((2 * i + 1) mod 2) with 1 by dlia. cbn [negb Z.eqb]. rewrite bind_ok. cbn [going_up].
fold (pos_of (2 * i + 1)). rewrite (parent_pos_of o) by (done || lia).
by replace ((2 * i + 1) / 2) with i by dlia.
Qed.

Lemma walk_up_loop i x :
after i x → node o i → ∀ fuel, (Z.to_nat (Z.log2 i) < fuel)%nat →
loop fuel (walk_body m t) (walk_at i true) = Ok (walk_result x).2.
Proof using Hh.
intros Hx. induction Hx as [|i Hi|i x Hi Hx IH]; intros Hn [|fuel] Hf; try lia; cbn [loop].
- done.
- by rewrite walk_step_up_left, bind_ok.
- rewrite walk_step_up_right, bind_ok by done. apply IH.
  + replace i with ((2 * i + 1) / 2) by dlia. apply node_parent; [done|lia].
  + rewrite log2_right in Hf by lia. pose proof (Z.log2_nonneg i). lia.
Qed.

Lemma walk_up i x :
node o i → after i x → buddy_tree_walk m t (walk_at i true) = Ok (walk_result x).
Proof using Hh.
intros Hi Hx. pose proof (th_order _ _ _ Hh) as Ho. destruct (Ho) as [? ?].
pose proof (node_log2 o i ltac:(lia) Hi). unfold buddy_tree_walk.
rewrite (walk_up_loop i x Hx Hi) by lia. rewrite bind_ok. by destruct x.
Qed.

Lemma walk_step_down i :
node o i → 2 ≤ height o i →
walk_body m t (walk_at i false) = Ok (inr (walk_at (2 * i) false)).
Proof using Hh.
intros Hi H2. pose proof (th_order _ _ _ Hh) as Ho.
destruct (node_children o i ltac:(destruct Ho; lia) Hi H2) as [HL _].
unfold walk_body. cbn [going_up walk_at current_pos].
by rewrite (left_child_pos_of o), (tree_valid_node Hh), bind_ok.
Qed.

Lemma walk_step_turn i :
node o i → height o i = 1 → walk_body m t (walk_at i false) = Ok (inl (walk_at i true)).
Proof using Hh.
intros Hi H1. pose proof (th_order _ _ _ Hh) as Ho. pose proof (node_bound o i Ho Hi).
unfold walk_body. cbn [going_up walk_at current_pos]. rewrite (left_child_pos_of o) by done.
unfold buddy_tree_valid. cbn [index pos_of]. rewrite (proj2 (Z.eqb_neq (2 * i) 0)) by lia.
rewrite (t_upper_eq Hh), bind_ok. rewrite (proj2 (Z.ltb_ge _ _)); [done|].
pose proof (log2_bounds i ltac:(lia)). unfold height in H1.
pose proof (Z.log2_nonneg i). replace o with (Z.log2 i + 1) by lia. rewrite pow2_S in * by lia. lia.
Qed.

Lemma walk_down i :
node o i → 2 ≤ height o i →
buddy_tree_walk m t (walk_at i false) = Ok (true, walk_at (2 * i) false).
Proof using Hh. intros Hi H2. unfold buddy_tree_walk. cbn [loop]. by rewrite walk_step_down. Qed.

Lemma walk_leaf i x :
node o i → height o i = 1 → after i x →
buddy_tree_walk m t (walk_at i false) = Ok (walk_result x).
Proof using Hh.
intros Hi H1 Hx. pose proof (th_order _ _ _ Hh) as [? ?].
pose proof (node_log2 o i ltac:(lia) Hi). unfold buddy_tree_walk.
rewrite (loop_S 66), walk_step_turn, bind_ok by done.
rewrite (walk_up_loop i x Hx Hi) by lia. rewrite bind_ok. by destruct x.
Qed.
End walk.

(** ** A walk over the whole tree *)

Lemma after_exists i : 1 ≤ i → ∃ x, after i x.
Proof.
  intros Hi. pattern i. apply (Zlt_lower_bound_ind _ 1); [|done]. clear i Hi. intros i IH Hi.
  destruct (decide (i = 1)) as [->|]; [by eexists; constructor|].
  destruct (decide (i mod 2 = 0)).
  - exists (Some (i + 1)). replace i with (2 * (i / 2)) by dlia. constructor. dlia.
  - destruct (IH (i / 2)) as [x Hx]; [dlia|]. exists x.
    replace i with (2 * (i / 2) + 1) by dlia. constructor; [dlia|done].
Qed.

Section fold.
Context {m : mem} {t o : Z} (Hh : tree_header m t o) {R : Type}.
Context (stop : Z → bool) (step : Z → R → R).
Context (body : R * buddy_tree_walk_state → outcome (R * buddy_tree_walk_state + R)).

(** What the loops do at a node: the result changes, and a node that stops the
  walk is left upwards. *)
Hypothesis body_step : ∀ r i, node o i →
body (r, walk_at i false) = walk_on m t (step i r) (walk_at i (stop i)).

(** The loop at node [i] comes to the node after [i] with the fold over the
  nodes from [i] on, after at most as many turns as there are such nodes. *)
Lemma walk_subtree n : ∀ i x r K (Q : R → Prop) fuel,
node o i → height o i = Z.of_nat n → after i x → 0 ≤ K →
2 ^ Z.of_nat n - 1 + K ≤ Z.of_nat fuel →
match x with
| None => Q (visit stop step n i r)
| Some j => ∀ fuel', K ≤ Z.of_nat fuel' →
    returns (loop fuel' body (visit stop step n i r, walk_at j false)) Q
end →
returns (loop fuel body (r, walk_at i false)) Q.
Proof using Hh body_step.
pose proof (th_order _ _ _ Hh) as Ho. destruct (Ho) as [Ho1 Ho2].
induction n as [|n IH]; intros i x r K Q fuel Hi Hn Hx HK Hf HQ.
{ pose proof (node_height o i ltac:(lia) Hi). lia. }
pose proof (Z.pow_pos_nonneg 2 (Z.of_nat n) ltac:(lia) ltac:(lia)).
rewrite Nat2Z.inj_succ, <-Z.add_1_r, pow2_S in Hf by lia.
destruct fuel as [|fuel]; [lia|]. rewrite loop_S, body_step by done. unfold walk_on.
assert (Hup : stop i = true ∨ n = O →
  buddy_tree_walk m t (walk_at i (stop i)) = Ok (walk_result x)).
{ intros [-> | ->]; [by apply (walk_up Hh)|]. destruct (stop i); [by apply (walk_up Hh)|].
  by apply (walk_leaf Hh). }
cbn [visit] in HQ.
destruct (decide (stop i = true ∨ n = O)) as [Hs|Hs].
- rewrite (Hup Hs), bind_ok.
  replace (if stop i then _ else _) with (step i r) in HQ.
  2:{ destruct Hs as [-> | ->]; [done|]. by destruct (stop i). }
  destruct x as [j|]; cbn [walk_result fst snd]; rewrite bind_ok; [|done]. apply HQ. lia.
- destruct (stop i); [naive_solver|]. destruct n as [|n]; [naive_solver|].
  assert (2 ≤ height o i) as H2 by lia.
  destruct (node_children o i ltac:(lia) Hi H2) as [HL HR]. pose proof (node_log2 o i ltac:(lia) Hi).
  assert (1 ≤ i) as Hi1 by apply Hi.
  rewrite (walk_down Hh), bind_ok by done. cbn [fst]. rewrite bind_ok.
  apply (IH (2 * i) (Some (2 * i + 1)) _ (2 ^ Z.of_nat (S n) - 1 + K)); [done| | |lia|lia|].
  { rewrite height_left by done. lia. } { by constructor. }
  intros fuel' Hf'. apply (IH (2 * i + 1) x _ K); [done| | |lia|lia|done].
  { rewrite height_right, height_left by done. lia. } { by constructor. }
Qed.

(** A loop over the whole tree ends, and returns the fold over its nodes. *)
Lemma walk_returns r (Q : R → Prop) :
Q (visit stop step (Z.to_nat o) 1 r) →
returns (loop (S (Z.to_nat (2 ^ o))) body (r, walk_at 1 false)) Q.
Proof using Hh body_step.
intros HQ. destruct (th_order _ _ _ Hh) as [Ho1 Ho2].
pose proof (Z.pow_pos_nonneg 2 o ltac:(lia) ltac:(lia)).
apply (walk_subtree (Z.to_nat o) 1 None r 0); [| |constructor|lia| |done].
- split; [lia|]. pose proof (Z.pow_le_mono_r 2 1 o). lia.
- rewrite height_1. lia.
- rewrite Z2Nat.id by lia. lia.
Qed.
End fold.

(** ** Units in no block *)

Lemma unit_free_spec o A x :
  unit_free o A x = true ↔ ∀ a, a ∈ A → ¬ (first_leaf o a ≤ x < end_leaf o a).
Proof. unfold unit_free. rewrite bool_decide_eq_true. done. Qed.

Lemma unit_free_false o A x a :
  a ∈ A → first_leaf o a ≤ x < end_leaf o a → unit_free o A x = false.
Proof.
  intros Ha Hx. apply not_true_iff_false. rewrite unit_free_spec. intros H. by apply (H a).
Qed.

Lemma count_all f from n b :
  (∀ x, from ≤ x < from + Z.of_nat n → f x = b) → count f from n = if b then Z.of_nat n else 0.
Proof.
  intros H. apply count_unary; [destruct b; lia|]. intros j Hj. rewrite H by lia.
  destruct b; [symmetry; apply Z.ltb_lt; lia|symmetry; apply Z.ltb_ge; lia].
Qed.

Section units.
Context {o : Z} {A : gset Z} (Ho : 1 ≤ o) (HA : blocks_ok o A).

Lemma unit_free_leaf x :
0 ≤ x < 2 ^ (o - 1) → unit_free o A x = true → free_node A (leaf o x).
Proof using Ho HA.
intros Hx Hu a Ha. rewrite unit_free_spec in Hu. destruct (leaf_node o x Ho Hx) as [Hl Hlog].
pose proof (bo_node _ _ HA a Ha) as Han. split; intros Hb.
- apply (Hu a Ha). by apply below_leaf.
- apply (Hu a Ha). apply below_leaf; [done..|].
  rewrite (leaf_below o (leaf o x) a) by (done || unfold height; lia). apply below_refl.
Qed.

(** The units of a node in use, of a free node and of any other. *)
Lemma units_full i :
node o i → status o A i = height o i → count (unit_free o A) (first_leaf o i) (Z.to_nat (span o i)) = 0.
Proof using Ho HA.
intros Hi Hs. pose proof (span_pos o i ltac:(lia) Hi). apply (count_all _ _ _ false).
intros x Hx. rewrite Z2Nat.id in Hx by lia. apply not_true_iff_false. intros Hu.
destruct (leaves_range o i ltac:(lia) Hi). assert (0 ≤ x < 2 ^ (o - 1)) by (unfold end_leaf in *; lia).
pose proof (unit_free_leaf x ltac:(lia) Hu) as Hf. destruct (leaf_node o x Ho ltac:(lia)) as [Hl Hlog].
pose proof (status_le_free o A i (leaf o x) (o - 1 - Z.log2 i) ltac:(lia) HA Hl Hf) as Hle.
unfold height in *. assert (1 ≤ i) by apply Hi.
rewrite below_leaf in Hle by done. unfold end_leaf in *. lia.
Qed.

Lemma units_free i :
node o i → free_node A i → count (unit_free o A) (first_leaf o i) (Z.to_nat (span o i)) = span o i.
Proof using Ho HA.
intros Hi Hf. pose proof (span_pos o i ltac:(lia) Hi).
transitivity (Z.of_nat (Z.to_nat (span o i))); [|lia]. apply (count_all _ _ _ true).
intros x Hx. rewrite Z2Nat.id in Hx by lia. apply unit_free_spec. intros a Ha.
pose proof (bo_node _ _ HA a Ha) as Han.
pose proof (proj1 (apart_leaves o a i Ho Han Hi) (Hf a Ha)). unfold end_leaf in *. lia.
Qed.

Lemma units_children i :
node o i → 2 ≤ height o i →
count (unit_free o A) (first_leaf o i) (Z.to_nat (span o i)) =
count (unit_free o A) (first_leaf o (2 * i)) (Z.to_nat (span o (2 * i))) +
count (unit_free o A) (first_leaf o (2 * i + 1)) (Z.to_nat (span o (2 * i + 1))).
Proof using Ho.
intros Hi H2. assert (1 ≤ i) by apply Hi.
destruct (span_half o i ltac:(done) H2) as [-> ->]. destruct (first_leaf_left o i ltac:(done) H2) as [-> ->].
destruct (node_children o i ltac:(lia) Hi H2) as [HL _]. pose proof (span_pos o _ ltac:(lia) HL).
replace (first_leaf o i + span o (2 * i)) with (first_leaf o i + Z.of_nat (Z.to_nat (span o (2 * i))))
  by lia.
rewrite <-count_app. f_equal. lia.
Qed.
End units.

(** ** The free size of an arena *)

Definition free_stop (o : Z) (A : gset Z) (i : Z) : bool :=
  (status o A i =? height o i) || (status o A i =? 0).

Definition free_step (r : arena) (A : gset Z) (i res : Z) : Z :=
  if status (ar_order r) A i =? height (ar_order r) i then res
  else if status (ar_order r) A i =? 0 then u64 (res + block_size r i) else res.

(** The fold adds up the units of the free nodes: no unit of a node that is
    visited belongs to a block above the node. *)
Lemma visit_units r A n i res :
  arena_ok r → blocks_ok (ar_order r) A → node (ar_order r) i →
  height (ar_order r) i = Z.of_nat n → (∀ a, a ∈ A → below a i → a = i) →
  0 ≤ res → res + block_size r i < 2 ^ 64 →
  visit (free_stop (ar_order r) A) (free_step r A) n i res =
  res + ar_align r * count (unit_free (ar_order r) A) (first_leaf (ar_order r) i)
                       (Z.to_nat (span (ar_order r) i)).
Proof.
  intros Hr HA. pose proof (ar_order_pos Hr) as Ho. pose proof (ar_align_pos Hr).
  revert i res. set (o := ar_order r) in *.
  induction n as [|n IH]; intros i res Hi Hn Ha Hres Hlt.
  { pose proof (node_height o i ltac:(lia) Hi). lia. }
  assert (1 ≤ i) as Hi1 by apply Hi. cbn [visit]. unfold free_stop at 1, free_step at 1 4. fold o.
  destruct (Z.eqb_spec (status o A i) (height o i)) as [Hs|Hs]; cbn [orb].
  { rewrite units_full by (done || lia). lia. }
  assert (i ∉ A) as HiA by (intros H'; apply Hs, status_in; [lia|done]).
  destruct (Z.eqb_spec (status o A i) 0) as [Hz|Hz].
  { rewrite units_free; [|lia|done|done|].
    { unfold block_size in *. fold o in Hlt |- *. pose proof (span_pos o i ltac:(lia) Hi).
      apply u64_small. nia. }
    intros a Ha'. pose proof (proj1 (status_zero o A i ltac:(lia) HA Hi) Hz a Ha') as Hb.
    split; [|done]. intros Hb'. by rewrite (Ha a Ha' Hb') in Ha'. }
  destruct (decide (height o i = 1)) as [H1|H1].
  { pose proof (status_leaf o A i H1 HiA). done. }
  pose proof (node_height o i ltac:(lia) Hi).
  destruct (node_children o i ltac:(lia) Hi ltac:(lia)) as [HL HR].
  destruct (span_half o i Hi1 ltac:(lia)) as [Hsp Hsp'].
  pose proof (span_pos o _ ltac:(lia) HL). unfold block_size in *. fold o in Hlt. fold o in IH.
  assert (Hup : ∀ c a, c / 2 = i → a ∈ A → below a c → a = c).
  { intros c a Hc Ha' Hb. destruct (decide (a = c)) as [|Hne]; [done|].
    pose proof (below_parent a c Hb Hne) as Hp. rewrite Hc in Hp.
    by rewrite (Ha a Ha' Hp) in Ha'. }
  pose proof (count_range (unit_free o A) (first_leaf o (2 * i)) (Z.to_nat (span o (2 * i)))).
  rewrite units_children by (done || lia).
  rewrite (IH (2 * i)), IH.
  - lia.
  - done.
  - rewrite height_right, height_left by done. lia.
  - intros a. apply Hup. dlia.
  - nia.
  - nia.
  - done.
  - rewrite height_left by done. lia.
  - intros a. apply Hup. dlia.
  - done.
  - nia.
Qed.

(** The virtual slots cover what is past the arena's end. *)
Lemma free_units_eq r V B :
  arena_ok r → covers_from (ar_order r) (ar_leaves r) V → blocks_ok (ar_order r) (V ∪ B) →
  count (unit_free (ar_order r) (V ∪ B)) 0 (Z.to_nat (2 ^ (ar_order r - 1))) = free_units r B.
Proof.
  intros Hr Hc HA. pose proof (ar_leaves_le Hr). pose proof (ao_leaves _ Hr). unfold free_units.
  replace (Z.to_nat (2 ^ (ar_order r - 1))) with
    (Z.to_nat (ar_leaves r) + Z.to_nat (2 ^ (ar_order r - 1) - ar_leaves r))%nat by lia.
  rewrite count_app, (count_all _ (0 + _) _ false).
  - rewrite Z.add_0_r. apply count_ext. intros x Hx. apply eq_true_iff_eq. rewrite !unit_free_spec.
    split; intros Hu a Ha; [by apply Hu; set_solver|].
    apply elem_of_union in Ha as [Ha|Ha]; [|by apply Hu]. intros Hax.
    assert (ar_leaves r ≤ x); [|lia]. apply Hc; [lia|]. exists a. split_and!; [done| |by apply Hax..].
    apply (bo_node _ _ HA). set_solver.
  - intros x Hx. destruct (proj2 (Hc x ltac:(lia)) ltac:(lia)) as (v & Hv & _ & Hvx).
    apply (unit_free_false _ _ _ v); [set_solver|done].
Qed.

(** C36. [buddy_arena_free_size] ends, its walk of the whole tree taking at most
    one turn for every node, and returns the size of the units of the arena that
    are in no block in use; the virtual slots do not count. *)
Theorem arena_free_size_spec m r B :
  buddy_ok m r B → buddy_arena_free_size m (ar_at r) = Ok (ar_align r * free_units r B).
Proof.
  intros [V [Hr Hh [Hrep HA] Hc _]]. pose proof (tr_header _ _ _ _ Hrep) as Hth.
  pose proof (ar_order_pos Hr) as Ho. pose proof (ar_effective_le Hr).
  apply returns_eq. unfold buddy_arena_free_size. rewrite (buddy_tree_of_eq Hr).
  unfold buddy_tree_order. rewrite (t_order_eq Hth), (t_upper_eq Hth), !bind_ok.
  apply (walk_returns Hth (free_stop (ar_order r) (V ∪ B)) (free_step r (V ∪ B))).
  - intros res i Hi. unfold arena_free_size_body. cbn [current_pos walk_at].
    rewrite (buddy_tree_of_eq Hr), (status_rep Hrep), bind_ok by done.
    assert (full_status (ar_order r) (pos_of i) = height (ar_order r) i) as ->.
    { pose proof (node_log2 (ar_order r) i ltac:(lia) Hi). unfold full_status, height. cbn [depth pos_of].
      rewrite (u64_small (ar_order r - (Z.log2 i + 1))), u64_small; lia. }
    unfold free_stop, free_step.
    destruct (_ =? height _ i); [done|]. cbn [orb]. destruct (_ =? 0); [|done].
    by rewrite (size_for_depth_node Hr Hh), bind_ok.
  - assert (node (ar_order r) 1) as H1.
    { split; [lia|]. pose proof (Z.pow_le_mono_r 2 1 (ar_order r)). lia. }
    rewrite visit_units; [|done..|rewrite height_1; lia| |lia|].
    + rewrite Z.add_0_l. f_equal. rewrite <-(free_units_eq r V B) by done.
      unfold span. rewrite height_1. by replace (first_leaf (ar_order r) 1) with 0.
    + intros a Ha Hb. pose proof (bo_node _ _ HA a Ha) as [Ha1 _].
      pose proof (below_le a 1 ltac:(lia) Hb). lia.
    + pose proof (ar_align_pos Hr). unfold block_size, span. rewrite height_1. lia.
Qed.
