(* ===== verification/BuddyChecks.v ===== *)
(** * Questions to the buddy allocator, and a free that checks

    What [buddy_safe_free], [buddy_is_full] and [buddy_arena_size] answer of an
    initialised allocator. *)
From S2P Require Import Prelude Mem BuddyBits BuddyPos BuddyTree BuddyRep BuddyNodes BuddyAlloc.
From S2P Require Import Buddy BuddyQuery BuddyInv BuddyMalloc BuddyWalk.

(** ** Full arenas *)

Section full.
Context {o : Z} {A : gset Z} (Ho : 1 ≤ o) (HA : blocks_ok o A).

(** A node without free units, none of them in a block above it, is full. *)
Lemma units_status_full i :
  node o i → (∀ a, a ∈ A → below a i → a = i) →
  (∀ x, first_leaf o i ≤ x < end_leaf o i → unit_free o A x = false) →
  status o A i = height o i.
Proof using Ho HA.
  revert i. apply (node_ind_up o (λ i, (∀ a, a ∈ A → below a i → a = i) →
    (∀ x, first_leaf o i ≤ x < end_leaf o i → unit_free o A x = false) →
    status o A i = height o i)); [lia|].
  intros i Hi IH Habove Hunits. pose proof (node_height o i ltac:(lia) Hi) as Hh.
  destruct (decide (i ∈ A)) as [Hin|Hin]; [by apply status_in; [lia|]|].
  assert (1 ≤ i) as Hi1 by apply Hi. destruct (decide (height o i = 1)) as [H1|H1].
  - exfalso. pose proof (leaves_range o i ltac:(lia) Hi). assert (span o i = 1) as Hsp by (unfold span; by rewrite H1).
    assert (unit_free o A (first_leaf o i) = false) as Hu by (apply Hunits; unfold end_leaf; lia).
    apply not_true_iff_false in Hu. apply Hu, unit_free_spec. intros a Ha Hx.
    pose proof (bo_node _ _ HA a Ha) as Han. apply Hin.
    assert (0 ≤ first_leaf o i < 2 ^ (o - 1)) as Hr by (unfold end_leaf in *; lia).
    assert (below a (leaf o (first_leaf o i))) as Hb by by apply below_leaf.
    assert (below i (leaf o (first_leaf o i))) as Hbi by (apply below_leaf; [done..|unfold end_leaf; lia]).
    destruct (leaf_node o (first_leaf o i) Ho Hr) as [Hln _].
    assert (leaf o (first_leaf o i) = i) as El by by apply (leaf_below o i); [lia|..].
    rewrite El in Hb. by rewrite <-(Habove a Ha Hb).
  - destruct (IH ltac:(lia)) as [IHl IHr]. destruct (span_half o i Hi1 ltac:(lia)) as [E1 E2].
    destruct (first_leaf_left o i Hi1 ltac:(lia)) as [F1 F2].
    destruct (node_children o i ltac:(lia) Hi ltac:(lia)) as [Hl Hr].
    pose proof (span_pos o (2 * i) ltac:(lia) Hl).
    assert (∀ a c, a ∈ A → below a c → c / 2 = i → a = c) as Hup.
    { intros a c Ha Hac Hc. destruct (decide (a = c)) as [|Hne]; [done|]. exfalso. apply Hin.
      rewrite <-(Habove a Ha); [done|]. rewrite <-Hc. by apply below_parent. }
    rewrite status_children by (done || lia). unfold join_status. rewrite IHl, IHr.
    + pose proof (node_height o _ ltac:(lia) Hl) as Hhl. rewrite height_right, height_left by done.
      rewrite height_left in Hhl by done. rewrite (proj2 (Z.eqb_neq (height o i - 1) 0)) by lia.
      cbn [andb]. lia.
    + intros a Ha Hac. apply (Hup a _ Ha Hac). dlia.
    + intros x Hx. apply Hunits. unfold end_leaf in *. lia.
    + intros a Ha Hac. apply (Hup a _ Ha Hac). dlia.
    + intros x Hx. apply Hunits. unfold end_leaf in *. lia.
Qed.
End full.

Lemma count_none f from n : count f from n = 0 → ∀ x, from ≤ x < from + Z.of_nat n → f x = false.
Proof.
  revert from. induction n as [|n IH]; intros from; cbn [count]; [lia|]. intros Hc x Hx.
  pose proof (count_range f (from + 1) n). destruct (f from) eqn:E; simpl in Hc; [lia|].
  destruct (decide (x = from)) as [->|]; [done|]. apply (IH (from + 1)); lia.
Qed.

Lemma node_root o : 1 ≤ o → node o 1.
Proof. intros Ho. split; [lia|]. pose proof (Z.pow_le_mono_r 2 1 o). lia. Qed.

(** The root of a full arena has the greatest status, and no other root. *)
Lemma root_full m r V B :
  buddy_inv m r V B →
  status (ar_order r) (V ∪ B) 1 = ar_order r ↔ free_units r B = 0.
Proof.
  intros [Hr _ [_ HA] Hc _]. pose proof (ar_order_pos Hr) as Ho.
  pose proof (node_root (ar_order r) ltac:(lia)) as H1.
  rewrite <-(free_units_eq r V B) by done. split; intros H.
  - assert (1 ≤ ar_order r) as Ho1 by lia. pose proof (units_full Ho1 HA 1 H1) as Hu.
    unfold span in Hu. rewrite height_1 in Hu. by apply Hu.
  - rewrite <-(height_1 (ar_order r)) at 2. apply units_status_full; [lia|done|done| |].
    + intros a Ha Hb. pose proof (bo_node _ _ HA a Ha) as [Ha1 _].
      pose proof (below_le a 1 ltac:(lia) Hb). lia.
    + intros x Hx. eapply count_none; [exact H|]. unfold end_leaf, span in Hx.
      rewrite height_1 in Hx. change (first_leaf (ar_order r) 1) with 0 in Hx.
      pose proof (Z.pow_pos_nonneg 2 (ar_order r - 1)). lia.
Qed.

(** ** [buddy_safe_free] *)

(** The size asked for is one the block would have been handed out for. *)
Definition safe_size (r : arena) (a req : Z) : Prop :=
  block_size r a / 2 < Z.max req (ar_align r) ≤ block_size r a.

#[global] Instance safe_size_dec r a req : Decision (safe_size r a req).
Proof. unfold safe_size. apply _. Defined.

(** The checks of the size, at a node. *)
Lemma safe_free_at m r V B i req (K : outcome (mem * buddy_safe_free_status)) :
  buddy_inv m r V B → node (ar_order r) i → 0 ≤ req →
  (allocated_size_for_depth ← size_for_depth m (ar_at r) (depth (pos_of i));
   alignment ← b_alignment m (ar_at r);
   let requested_size := if req <? alignment then alignment else req in
   if allocated_size_for_depth <? requested_size then Ok (m, BUDDY_SAFE_FREE_SIZE_MISMATCH) else
   if requested_size <=? allocated_size_for_depth / 2
   then Ok (m, BUDDY_SAFE_FREE_SIZE_MISMATCH) else K) =
  if decide (safe_size r i req) then K else Ok (m, BUDDY_SAFE_FREE_SIZE_MISMATCH).
Proof.
  intros Hinv Hi Hreq. destruct (Hinv) as [Hr Hh _ _ _].
  rewrite (size_for_depth_node Hr Hh), bind_ok by done. rewrite (b_alignment_eq Hr Hh), bind_ok.
  cbv zeta. replace (if req <? ar_align r then ar_align r else req) with (Z.max req (ar_align r))
    by (destruct (Z.ltb_spec req (ar_align r)); lia).
  unfold safe_size. destruct (Z.ltb_spec (block_size r i) (Z.max req (ar_align r))).
  { by rewrite decide_False by lia. }
  destruct (Z.leb_spec (Z.max req (ar_align r)) (block_size r i / 2)); by case_decide; try lia.
Qed.

(** What [buddy_safe_free] may answer, and what it leaves. *)
Definition safe_freed (m : mem) (r : arena) (B : gset Z) (p req : Z)
    (res : mem * buddy_safe_free_status) : Prop :=
  let '(m', st) := res in
  (∃ a, a ∈ B ∧ p = block_addr r a ∧
     if decide (safe_size r a req)
     then st = BUDDY_SAFE_FREE_SUCCESS ∧ buddy_ok m' r (B ∖ {[a]}) ∧ meta_frame m m' r
     else st = BUDDY_SAFE_FREE_SIZE_MISMATCH ∧ m' = m) ∨
  ((∀ a, a ∈ B → p ≠ block_addr r a) ∧ m' = m ∧
   (st = BUDDY_SAFE_FREE_INVALID_ADDRESS ∨ st = BUDDY_SAFE_FREE_SIZE_MISMATCH)).

Lemma safe_free_found m r V B p req :
  buddy_inv m r V B → ar_main r ≤ p < ar_main r + ar_size r → 0 ≤ req →
  returns (
    pos ← position_for_address m (ar_at r) p;
    valid ← buddy_tree_valid m (ar_tree r) pos;
    if negb valid then Ok (m, BUDDY_SAFE_FREE_INVALID_ADDRESS) else
    allocated_size_for_depth ← size_for_depth m (ar_at r) (depth pos);
    alignment ← b_alignment m (ar_at r);
    let requested_size := if req <? alignment then alignment else req in
    if allocated_size_for_depth <? requested_size then Ok (m, BUDDY_SAFE_FREE_SIZE_MISMATCH) else
    if requested_size <=? allocated_size_for_depth / 2
    then Ok (m, BUDDY_SAFE_FREE_SIZE_MISMATCH) else
    '(m, status) ← buddy_tree_release m (ar_tree r) pos;
    Ok (m, match status with
           | BUDDY_TREE_RELEASE_FAIL_PARTIALLY_USED => BUDDY_SAFE_FREE_INVALID_ADDRESS
           | BUDDY_TREE_RELEASE_SUCCESS => BUDDY_SAFE_FREE_SUCCESS
           end)) (safe_freed m r B p req).
Proof.
  intros Hinv Hp Hreq. destruct (Hinv) as [Hr Hh Ht Hc Hd].
  pose proof (tr_header _ _ _ _ (ti_rep _ _ _ _ Ht)) as Hth. bind_step.
  apply (position_for_address_returns m r V B p _ Hinv); [done|..].
  - intros a Ha Hpa. pose proof (bo_node _ _ (ti_blocks _ _ _ _ Ht) a ltac:(set_solver)) as Han.
    rewrite (tree_valid_node Hth), bind_ok by done. cbn [negb].
    rewrite (safe_free_at m r V B a) by done. case_decide as Hsz.
    + bind_step. eapply release_block; [done..|]. intros m' Hfr Hinv'. cbn [returns]. left.
      exists a. split_and!; [done|done|]. rewrite decide_True by done.
      split_and!; [done|by exists V|by apply bits_frame_meta; [apply Hinv|]].
    + cbn [returns]. left. exists a. split_and!; [done|done|]. by rewrite decide_False.
  - intros Hno. change (buddy_tree_valid m (ar_tree r) INVALID_POS) with (Ok false).
    rewrite bind_ok. cbn [negb returns]. right. split_and!; [done|done|by left].
  - intros i Hi Hne Hno. rewrite (tree_valid_node Hth), bind_ok by done. cbn [negb].
    rewrite (safe_free_at m r V B i) by done. case_decide.
    + rewrite (release_partial _ _ _ _ _ Ht Hi Hne), bind_ok. cbn [returns]. right.
      split_and!; [done|done|by left].
    + cbn [returns]. right. split_and!; [done|done|by right].
Qed.

Lemma buddy_safe_free_returns m r V B p req :
  buddy_inv m r V B → 0 ≤ req →
  returns (buddy_safe_free m (ar_at r) p req) (safe_freed m r B p req).
Proof.
  intros Hinv Hreq. destruct (Hinv) as [Hr Hh Ht Hc Hd].
  pose proof (ar_addr Hr). pose proof (ao_main _ Hr). pose proof (ar_align_pos Hr).
  pose proof (ao_leaves _ Hr). assert (0 ≤ ar_size r) by (unfold ar_size; nia).
  assert (¬ (ar_main r ≤ p < ar_main r + ar_size r) →
    safe_freed m r B p req (m, BUDDY_SAFE_FREE_INVALID_ADDRESS)) as Hout.
  { intros Hp. right. split_and!; [|done|by left]. intros a Ha ->. apply Hp.
    pose proof (block_in_arena Hr a (buddy_inv_real m r V B a Hinv Ha)). lia. }
  unfold buddy_safe_free, NULL. rewrite (proj2 (Z.eqb_neq (ar_at r) 0)) by lia.
  destruct (Z.eqb_spec p 0) as [->|Hp0]; [apply Hout; lia|].
  rewrite (bh_main _ _ Hh), bind_ok, (b_memory_size_eq Hh), bind_ok. rewrite u64_small by lia.
  destruct (Z.ltb_spec p (ar_main r)); cbn [orb]; [apply Hout; lia|].
  destruct (Z.leb_spec (ar_main r + ar_size r) p); [apply Hout; lia|].
  rewrite (buddy_tree_of_eq Hr). by apply (safe_free_found m r V B).
Qed.

(** * Properties *)

(** [buddy_safe_free] of any address and size: when a block in use starts there
    whose size is the least that holds what is asked for, that block and no other
    is taken back; any other size is refused as a mismatch; an address at which no
    block starts is refused, for its size where it is in a larger block's place.
    What is refused leaves the memory as it was, and a block that is free already
    is no case of its own. *)
Theorem buddy_safe_free_spec m r B p req :
  buddy_ok m r B → 0 ≤ req →
  returns (buddy_safe_free m (ar_at r) p req) (safe_freed m r B p req).
Proof. intros [V Hinv] Hreq. by apply (buddy_safe_free_returns m r V B). Qed.

(** [buddy_is_full] tells whether every unit of the arena is in a block in use. *)
Theorem buddy_is_full_spec m r B :
  buddy_ok m r B → buddy_is_full m (ar_at r) = Ok (free_units r B =? 0).
Proof.
  intros [V Hinv]. destruct (Hinv) as [Hr Hh [Hrep HA] _ _].
  pose proof (tr_header _ _ _ _ Hrep) as Hth. pose proof (ar_order_pos Hr).
  pose proof (ar_addr Hr). unfold buddy_is_full, NULL.
  rewrite (proj2 (Z.eqb_neq (ar_at r) 0)) by lia. rewrite (buddy_tree_of_eq Hr).
  change buddy_tree_root with (pos_of 1).
  rewrite (status_rep Hrep), bind_ok by (apply node_root; lia).
  unfold buddy_tree_order. rewrite (t_order_eq Hth), bind_ok. f_equal.
  pose proof (root_full m r V B Hinv) as Hf.
  destruct (Z.eqb_spec (free_units r B) 0); [apply Z.eqb_eq|apply Z.eqb_neq]; tauto.
Qed.

(** [buddy_arena_size] is the size of the units, the rest of what was given to
    the allocator not counted. *)
Theorem buddy_arena_size_spec m r B :
  buddy_ok m r B → buddy_arena_size m (ar_at r) = Ok (ar_align r * ar_leaves r).
Proof.
  intros [V [Hr Hh _ _ _]]. pose proof (ar_addr Hr). unfold buddy_arena_size, NULL.
  rewrite (proj2 (Z.eqb_neq (ar_at r) 0)) by lia. apply (b_memory_size_eq Hh).
Qed.
