(* ===== verification/BuddyResize.v ===== *)
(** * Shrinking an arena loses blocks

    [buddy_tree_shrink] moves the rows of the left half of the tree with
    [bitset_shift_left], which is given the end of the row it moves and then
    clears bits counted from the start of the bitset, not from the end of the
    moved row: bits of rows that have been moved before.  [buddy_is_free], which
    decides whether an arena can be cut, does not look at the last unit, or looks
    at one that is not of the arena.  The theorems run the code on a tree and on
    arenas. *)
From S2P Require Import Prelude Mem MemCopy MemSet BuddyBits BuddyPos BuddyTree Buddy BuddyQuery.

(** A tree of order 4 at [t] with nodes 5 and 8 in use, shrunk to order 3: the
    statuses of the nodes that stand for them afterwards, 3 and 4, and the node
    of depth 3 that is found free. *)
Definition shrink_marked (m : mem) (t : Z) : outcome (Z * Z * buddy_tree_pos) :=
  '(m, _) ← buddy_tree_init m t 4;
  m ← buddy_tree_mark m t {| index := 8; depth := 4 |};
  m ← buddy_tree_mark m t {| index := 5; depth := 3 |};
  m ← buddy_tree_shrink m t 3;
  left ← buddy_tree_status m t {| index := 4; depth := 3 |};
  right ← buddy_tree_status m t {| index := 3; depth := 2 |};
  found ← buddy_tree_find_free m t 3;
  Ok (left, right, found).

(** Two blocks from an arena, which is resized, and a block from the resized
    arena: the two blocks' addresses, the resized arena and the third block's. *)
Definition resize_in_use (m : mem) (b main size alignment new_size : Z)
    : outcome (Z * Z * Z * Z) :=
  '(m, b) ← buddy_init_alignment m b main size alignment;
  '(m, p) ← buddy_malloc m b alignment;
  '(m, q) ← buddy_malloc m b alignment;
  '(m, b') ← buddy_resize m b new_size;
  '(m, p') ← buddy_malloc m b' alignment;
  Ok (p, q, b', p').

(** The blocks of [size] bytes at the addresses [ps] freed one after the other. *)
Definition free_all (m : mem) (b : Z) (ps : list Z) : outcome mem :=
  fold_left (λ (acc : outcome mem) p, m ← acc; buddy_free m b p) ps (Ok m).

(** An arena of eight units in use whose first seven are freed: whether it is free
    from its last unit on, the arena cut to the seven units, and its size. *)
Definition resize_last_unit (m : mem) (b main : Z) : outcome (bool * Z * Z) :=
  '(m, b) ← buddy_init_alignment m b main 512 64;
  '(m, _) ← fold_left (λ (acc : outcome (mem * Z)) _, '(m, _) ← acc; buddy_malloc m b 64) (seq 0 8) (Ok (m, 0));
  m ← free_all m b (map (λ i, main + 64 * Z.of_nat i) (seq 0 7));
  free ← buddy_is_free m b 448;
  '(m, b') ← buddy_resize m b 448;
  size ← buddy_arena_size m b';
  Ok (free, b', size).

(** A fresh arena of three units of 64 bytes: whether it is empty. *)
Definition fresh_is_empty (m : mem) (b main : Z) : outcome bool :=
  '(m, b) ← buddy_init_alignment m b main 192 64;
  buddy_is_empty m b.

Definition zeros_at_4096 : mem := mem_of 4096 (replicate 512 0).

(** Shrinking a tree loses the blocks in use: their statuses come out as free,
    and the search hands out a leaf that is in use. *)
Theorem shrink_loses_marks :
  shrink_marked zeros_at_4096 4096 = Ok (0, 0, {| index := 4; depth := 3 |}).
Proof. by vm_compute. Qed.


(** [buddy_is_free] stops before the last unit: an arena whose last unit is in use
    is cut to the units before it. *)
Theorem resize_cuts_block_in_use :
  resize_last_unit zeros_at_4096 4096 8192 = Ok (true, 4096, 448).
Proof. by vm_compute. Qed.

(** [buddy_is_free] goes on to the first unit behind the arena, which is marked as
    in use: an arena of three units of which none is in use is not empty. *)
Theorem fresh_arena_not_empty : fresh_is_empty zeros_at_4096 4096 8192 = Ok false.
Proof. by vm_compute. Qed.
