(* ===== verification/BuddySamples.v ===== *)
(** * Instances of the buddy allocator's theorems

    An arena of seven units of 64 bytes, one unit short of a power of two, with
    its allocator behind it in a memory of 560 bytes; the memory after
    [buddy_init_alignment], after a first [buddy_malloc], and the theorems of the
    other files at these inputs. *)
From S2P Require Import Prelude Mem MemCopy MemSet BuddyBits BuddyPos BuddyTree BuddyRep.
From S2P Require Import BuddyNodes BuddyAlloc Buddy BuddyQuery BuddyInv BuddyMalloc BuddyInit BuddyData.
From S2P Require Import BuddyWalk.

Definition sample_arena : arena :=
  {| ar_at := 4544; ar_main := 4096; ar_shift := 6; ar_leaves := 7 |}.

Definition sample_memory : mem := mem_of 4096 (replicate 560 0).

(** The memory of a call that returns. *)
Definition memory_of {A} (o : outcome (mem * A)) : mem :=
  match o with Ok (m, _) => m | _ => ∅ end.

Definition sample_init : mem :=
  memory_of (buddy_init_alignment sample_memory 4544 4096 500 64).

Definition sample_malloc : mem := memory_of (buddy_malloc sample_init 4544 64).

(** The tree of order 4 with no block in use. *)
Definition sample_tree : mem := memory_of (buddy_tree_init sample_memory 4096 4).

(** * Lemmas *)

Lemma memory_of_returns {A} (o : outcome (mem * A)) (Q : mem → Prop) :
  returns o (λ '(m, _), Q m) → Q (memory_of o).
Proof. destruct o as [[m a]| | | |]; naive_solver. Qed.

Lemma sample_bytes a n : 4096 ≤ a → a + n ≤ 4656 → bytes_at sample_memory a n.
Proof.
  intros Ha Hn. split; [lia| |].
  - intros x Hx. apply mem_of_is_Some. rewrite length_replicate. lia.
  - apply mem_of_bytes_ok, Forall_replicate. lia.
Qed.

Lemma sample_arena_ok : arena_ok sample_arena.
Proof. by split; vm_compute. Qed.

Lemma sample_init_args : init_args sample_memory sample_arena 500.
Proof.
  split; [apply sample_arena_ok|done|done|by vm_compute|].
  apply sample_bytes; vm_compute; congruence.
Qed.

Lemma sample_arena_data m : meta_frame sample_memory m sample_arena → arena_data m sample_arena.
Proof.
  intros Hfr. eapply arena_data_frame; [exact Hfr|]. split; [|by left; vm_compute|by vm_compute| |by vm_compute].
  - apply sample_bytes; vm_compute; congruence.
  - by apply mem_of_word_mapped.
Qed.

Lemma sample_init_ok : buddy_ok sample_init sample_arena ∅ ∧ arena_data sample_init sample_arena.
Proof.
  apply (memory_of_returns _ (λ m, buddy_ok m sample_arena ∅ ∧ arena_data m sample_arena)).
  apply (buddy_init_returns sample_memory sample_arena 500); [apply sample_init_args|].
  intros m' Hfr Hok _. split; [done|by apply sample_arena_data].
Qed.

Lemma byte_frame m a v lo hi :
  lo ≤ a < hi → 0 ≤ v < 2 ^ 8 → is_Some (m !! a) → mem_frame m (<[a := v]> m) lo hi.
Proof.
  intros Ha Hv Hm. split.
  - intros x Hx. apply lookup_insert_ne. lia.
  - intros x. rewrite lookup_insert_is_Some. destruct (decide (a = x)) as [->|]; naive_solver.
  - intros Hb x y. rewrite lookup_insert_Some. intros [[? ?]|[? Hx]]; [lia|by apply (Hb x)].
Qed.

Lemma sample_malloc_ok :
  ∃ i, buddy_ok sample_malloc sample_arena {[i]} ∧ arena_data sample_malloc sample_arena.
Proof.
  apply (memory_of_returns _
    (λ m, ∃ i, buddy_ok m sample_arena {[i]} ∧ arena_data m sample_arena)).
  destruct sample_init_ok as [[V Hinv] Hd].
  apply (buddy_malloc_returns _ sample_arena V ∅); [done|lia| |].
  - intros Hno. exfalso. apply (Hno 8); [by vm_compute|by vm_compute|]. intros a. set_solver.
  - intros m' i Hi _ _ Hfr Hinv'. exists i. rewrite union_empty_r_L in Hinv'.
    split; [by exists V|]. eapply arena_data_frame; [|exact Hd].
    eapply bits_frame_meta; [apply sample_arena_ok|exact Hfr].
Qed.

Lemma sample_tree_inv : tree_inv sample_tree 4096 4 ∅.
Proof.
  apply (memory_of_returns _ (λ m, tree_inv m 4096 4 ∅)).
  apply tree_init_returns; [by split|apply sample_bytes; by vm_compute|done|done|done|].
  intros m' _ Hrep. split; [|apply blocks_ok_empty].
  eapply tree_rep_ext; [|exact Hrep]. intros i Hi. symmetry.
  apply status_free; [done|apply blocks_ok_empty|done|]. intros a Ha. set_solver.
Qed.

(** * The theorems at these inputs *)

Lemma write_read_status_witness :
  tree_inv sample_tree 4096 4 ∅ ∧
  returns (internal ← buddy_tree_internal_position_tree sample_tree 4096 (pos_of 5);
           write_to_internal_position sample_tree 4096 internal 2)
    (λ m', buddy_tree_status m' 4096 (pos_of 5) = Ok 2 ∧
       (∀ j, node 4 j → j ≠ 5 →
          buddy_tree_status m' 4096 (pos_of j) = buddy_tree_status sample_tree 4096 (pos_of j)) ∧
       tree_header m' 4096 4).
Proof.
  split; [exact sample_tree_inv|].
  apply (write_read_status sample_tree 4096 4 (status 4 ∅) 5 2).
  - apply sample_tree_inv.
  - by vm_compute.
  - by vm_compute.
Defined.

Lemma find_free_sound_complete_witness :
  tree_inv sample_tree 4096 4 ∅ ∧
  returns (buddy_tree_find_free sample_tree 4096 3) (λ pos,
    (pos = INVALID_POS ∧ ∀ j, node 4 j → Z.log2 j + 1 = 3 → ¬ free_node ∅ j) ∨
    ∃ j, pos = pos_of j ∧ depth pos = 3 ∧ node 4 j ∧ free_node ∅ j).
Proof.
  split; [exact sample_tree_inv|].
  apply (find_free_sound_complete sample_tree 4096 4 ∅ 3 sample_tree_inv). lia.
Defined.

Lemma mark_release_witness :
  tree_inv sample_tree 4096 4 ∅ ∧
  returns (buddy_tree_mark sample_tree 4096 (pos_of 6)) (λ m',
    bits_frame sample_tree m' 4096 4 ∧ tree_inv m' 4096 4 ({[6]} ∪ ∅) ∧
    returns (buddy_tree_release m' 4096 (pos_of 6)) (λ '(m'', st),
      st = BUDDY_TREE_RELEASE_SUCCESS ∧ bits_frame sample_tree m'' 4096 4 ∧
      tree_inv m'' 4096 4 ∅)).
Proof.
  split; [exact sample_tree_inv|].
  apply (mark_release sample_tree 4096 4 ∅ 6 sample_tree_inv).
  - by vm_compute.
  - intros a. set_solver.
Defined.

Lemma buddy_malloc_spec_witness :
  buddy_ok sample_init sample_arena ∅ ∧
  returns (buddy_malloc sample_init 4544 100) (λ '(m', p),
    (p = NULL ∧ m' = sample_init ∧
     ∀ i, real_node sample_arena i → Z.max 100 1 ≤ block_size sample_arena i → ¬ free_node ∅ i) ∨
    ∃ i, p = block_addr sample_arena i ∧ i ∉ (∅ : gset Z) ∧ fits sample_arena (Z.max 100 1) i ∧
      ar_main sample_arena ≤ p ∧
      p + block_size sample_arena i ≤ ar_main sample_arena + ar_size sample_arena ∧
      (∀ a, a ∈ (∅ : gset Z) → blocks_disjoint sample_arena a i) ∧
      buddy_ok m' sample_arena ({[i]} ∪ ∅) ∧ meta_frame sample_init m' sample_arena).
Proof.
  split; [apply sample_init_ok|].
  apply (buddy_malloc_spec sample_init sample_arena ∅ 100 (proj1 sample_init_ok)). lia.
Defined.

Lemma buddy_free_spec_witness :
  ∃ i, buddy_ok sample_malloc sample_arena {[i]} ∧
  returns (buddy_free sample_malloc 4544 4160) (λ m',
    (∃ a, a ∈ ({[i]} : gset Z) ∧ 4160 = block_addr sample_arena a ∧
       buddy_ok m' sample_arena ({[i]} ∖ {[a]}) ∧ meta_frame sample_malloc m' sample_arena) ∨
    (m' = sample_malloc ∧ ∀ a, a ∈ ({[i]} : gset Z) → 4160 ≠ block_addr sample_arena a)).
Proof.
  destruct sample_malloc_ok as (i & Hok & _). exists i. split; [exact Hok|].
  exact (buddy_free_spec sample_malloc sample_arena {[i]} 4160 Hok).
Defined.

Lemma buddy_malloc_free_witness :
  buddy_ok sample_init sample_arena ∅ ∧
  returns ('(m', p) ← buddy_malloc sample_init 4544 65; buddy_free m' 4544 p)
    (λ m', buddy_ok m' sample_arena ∅).
Proof.
  split; [apply sample_init_ok|].
  apply (buddy_malloc_free sample_init sample_arena ∅ 65 (proj1 sample_init_ok)). lia.
Defined.

Lemma buddy_init_spec_witness :
  init_args sample_memory sample_arena 500 ∧
  returns (buddy_init_alignment sample_memory 4544 4096 500 64) (λ '(m', b),
    b = 4544 ∧ meta_frame sample_memory m' sample_arena ∧ buddy_ok m' sample_arena ∅).
Proof.
  split; [exact sample_init_args|].
  exact (buddy_init_spec sample_memory sample_arena 500 sample_init_args).
Defined.

Lemma buddy_embed_spec_witness :
  embed_args sample_memory 4096 560 6 ∧
  returns (buddy_embed_alignment sample_memory 4096 560 64) (λ '(m', b),
    (b = NULL ∧ m' = sample_memory) ∨
    ∃ r, b = ar_at r ∧ ar_main r = 4096 ∧ ar_align r = 2 ^ 6 ∧
      ar_main r + ar_size r ≤ ar_at r ∧ ar_at r + ar_meta r ≤ 4096 + 560 ∧
      meta_frame sample_memory m' r ∧ buddy_ok m' r ∅).
Proof.
  assert (embed_args sample_memory 4096 560 6) as Hargs.
  { split; [done|done|done|by split|by apply sample_bytes]. }
  split; [exact Hargs|]. exact (buddy_embed_spec sample_memory 4096 560 6 Hargs).
Defined.

Lemma client_writes_witness :
  buddy_ok sample_init sample_arena ∅ ∧ arena_data sample_init sample_arena ∧
  buddy_ok (<[4100 := 7]> sample_init) sample_arena ∅.
Proof.
  destruct sample_init_ok as [Hok Hd]. split; [exact Hok|]. split; [exact Hd|].
  refine (proj1 (client_writes sample_init _ sample_arena ∅ Hok Hd _)).
  apply byte_frame; [by vm_compute|lia|]. apply Hd. by vm_compute.
Defined.

Lemma buddy_calloc_spec_witness :
  buddy_ok sample_init sample_arena ∅ ∧ arena_data sample_init sample_arena ∧
  returns (buddy_calloc sample_init 4544 5 20) (λ '(m', p),
    (p = NULL ∧ m' = sample_init ∧
     (2 ^ 64 ≤ 100 ∨
      ∀ i, real_node sample_arena i → 100 ≤ block_size sample_arena i → ¬ free_node ∅ i)) ∨
    ∃ i, p = block_addr sample_arena i ∧ i ∉ (∅ : gset Z) ∧ free_node ∅ i ∧
      fits sample_arena 100 i ∧ (∀ x, p ≤ x < p + 100 → m' !! x = Some 0) ∧
      same_outside sample_init m' sample_arena i ∧ buddy_ok m' sample_arena ({[i]} ∪ ∅) ∧
      arena_data m' sample_arena).
Proof.
  destruct sample_init_ok as [Hok Hd]. split; [exact Hok|]. split; [exact Hd|].
  exact (buddy_calloc_spec sample_init sample_arena ∅ 5 20 Hok Hd ltac:(lia) ltac:(lia)).
Defined.

Lemma buddy_realloc_spec_witness :
  ∃ a, buddy_ok sample_malloc sample_arena {[a]} ∧ arena_data sample_malloc sample_arena ∧
  returns (buddy_realloc sample_malloc 4544 (block_addr sample_arena a) 100 false) (λ '(m', p),
    (p = NULL ∧ meta_frame sample_malloc m' sample_arena ∧ buddy_ok m' sample_arena {[a]} ∧
     ∀ i, real_node sample_arena i → 100 ≤ block_size sample_arena i →
       ¬ free_node ({[a]} ∖ {[a]}) i) ∨
    (p = block_addr sample_arena a ∧ fits sample_arena 100 a ∧
     meta_frame sample_malloc m' sample_arena ∧ buddy_ok m' sample_arena {[a]}) ∨
    ∃ i, p = block_addr sample_arena i ∧ fits sample_arena 100 i ∧
      free_node ({[a]} ∖ {[a]}) i ∧
      (∀ k, 0 ≤ k < Z.min (block_size sample_arena a) (block_size sample_arena i) →
         m' !! (p + k) = sample_malloc !! (block_addr sample_arena a + k)) ∧
      same_outside sample_malloc m' sample_arena i ∧
      buddy_ok m' sample_arena ({[i]} ∪ {[a]} ∖ {[a]}) ∧ arena_data m' sample_arena).
Proof.
  destruct sample_malloc_ok as (a & Hok & Hd). exists a.
  split; [exact Hok|]. split; [exact Hd|].
  exact (buddy_realloc_spec sample_malloc sample_arena {[a]} a 100 Hok Hd
    (proj2 (elem_of_singleton a a) eq_refl) ltac:(lia)).
Defined.

Lemma arena_free_size_spec_witness :
  buddy_ok sample_init sample_arena ∅ ∧
  buddy_arena_free_size sample_init 4544 = Ok (64 * free_units sample_arena ∅).
Proof.
  split; [apply sample_init_ok|].
  exact (arena_free_size_spec sample_init sample_arena ∅ (proj1 sample_init_ok)).
Defined.
