(* ===== verification/Heap.v ===== *)
(** * The kernel heap: [kernel/memory/heap.cpp], [memory.cpp] and [libs/malloc.cpp]

    A range of the kernel's address space with a buddy allocator at its end, and
    a mutex that every operation holds while it calls the allocator.  The C
    library's [malloc] family calls these operations, and so do C++'s [new] and
    [delete].  The heap is reached through the page tables: the memory the
    processor sees through them is a parameter, [mmu]. *)
From S2P Require Import Prelude Mem MemCopy MemSet Lock Addr Physical Frames Paging PagingMap Virtual.
From S2P Require Import Bitmap BuddyBits BuddyPos BuddyTree BuddyRep BuddyNodes BuddyAlloc.
From S2P Require Import Buddy BuddyInv BuddyMalloc BuddyInit BuddyData BuddySamples.

(** ** State *)

(** The globals of [heap.cpp] and the memory at the heap's addresses. *)
Record heap := Heap {
  heap_mem : mem;
  heap_arena : Z;
  heap_buddy : Z;
  heap_lock : TicketLock;
}.

Definition heap_start : heap :=
  {| heap_mem := ∅; heap_arena := NULL; heap_buddy := NULL; heap_lock := TicketLock_init |}.

(** [std::bit_ceil] *)
Definition bit_ceil (x : Z) : Z := if x <=? 1 then 1 else 2 ^ Z.log2_up x.

(** [lock::ScopedLock guard(heap_lock)] around a call of the allocator: the
    guard locks before the call and unlocks when the function returns. *)
Definition guarded {R} (call : mem → Z → outcome (mem * R)) (h : heap) : outcome (heap * R) :=
  l ← mutex_lock (heap_lock h);
  '(m, x) ← call (heap_mem h) (heap_buddy h);
  Ok ({| heap_mem := m; heap_arena := heap_arena h; heap_buddy := heap_buddy h;
         heap_lock := mutex_unlock l |}, x).

(** ** Operations *)

Definition heap_malloc (size : Z) (h : heap) : outcome (heap * Z) :=
  if size =? 0 then Ok (h, NULL) else
  guarded (λ m b, buddy_malloc m b size) h.

Definition heap_calloc (nmemb size : Z) (h : heap) : outcome (heap * Z) :=
  if (size =? 0) || (nmemb =? 0) then Ok (h, NULL) else
  guarded (λ m b, buddy_calloc m b nmemb size) h.

Definition heap_realloc (ptr size : Z) (h : heap) : outcome (heap * Z) :=
  if (ptr =? NULL) || (size =? 0) then Ok (h, NULL) else
  guarded (λ m b, buddy_realloc m b ptr size false) h.

Definition heap_free (ptr : Z) (h : heap) : outcome heap :=
  if ptr =? NULL then Ok h else
  '(h, _) ← guarded (λ m b, m ← buddy_free m b ptr; Ok (m, tt)) h;
  Ok h.

(** [malloc], [calloc], [realloc] and [free] of the C library, and what the
    allocating and freeing operators of C++ come down to. *)
Definition malloc (size : Z) (h : heap) : outcome (heap * Z) := heap_malloc size h.
Definition calloc (nmemb size : Z) (h : heap) : outcome (heap * Z) := heap_calloc nmemb size h.
Definition realloc (ptr new_size : Z) (h : heap) : outcome (heap * Z) := heap_realloc ptr new_size h.
Definition free (ptr : Z) (h : heap) : outcome heap := heap_free ptr h.
Definition operator_new (size : Z) (h : heap) : outcome (heap * Z) := malloc size h.
Definition operator_delete (ptr : Z) (h : heap) : outcome heap := free ptr h.

(** ** Start-up *)

Section init.
Context `{hh : Hhdm, pmode : PagingMode} (mmu : vm phys → mem).

(** [assert] is active, as in the rest of the development. *)
Definition heap_init (kernel_virtual_base : Z) (s : vm phys) (h : heap) : outcome (vm phys * heap) :=
let stats := physical_get_status (vm_frames s) in
let arena_size := bit_ceil (total_pages stats / 16) in
'(s, arena) ← virtual_allocate (highest_physical_addr stats) kernel_virtual_base arena_size
                (Z.lor MAP_WRITE MAP_READ) s;
'(m, b) ← buddy_embed (mmu s) arena (u64 (arena_size * PAGE_SIZE));
_ ← assert (negb (b =? NULL));
Ok (s, {| heap_mem := m; heap_arena := arena; heap_buddy := b; heap_lock := heap_lock h |}).

(** [memory::initialize]: the three parts one after the other, from the globals
  [p] of the physical memory manager, the boot loader's memory map and the
  kernel's bases.  The page map starts as its default constructor leaves it. *)
Definition memory_initialize (huge_page : bool) (memmaps : list limine_memmap_entry)
  (virtual_base physical_base kernel_size : Z) (p : phys) : outcome (vm phys * heap) :=
'(p, memmaps) ← physical_initialize memmaps p;
s ← virtual_initialize huge_page memmaps virtual_base physical_base kernel_size
      (Vm p 0 TicketLock_init false []);
heap_init virtual_base s heap_start.
End init.

(** ** Clients *)

(** The allocations a client holds: their pointers and sizes. *)
Abbreviation allocations := (gmap Z Z).

Inductive heap_op :=
  | Malloc (n : Z)
  | Calloc (n s : Z)
  | Realloc (p n : Z)
  | Free (p : Z)
  | Write (p : Z).

(** The allocation an operation is given. *)
Definition touched (op : heap_op) : option Z :=
  match op with Realloc p _ | Free p | Write p => Some p | _ => None end.

Definition hand_out (p n : Z) (L : allocations) : allocations :=
  if p =? NULL then L else <[p := n]> L.

(** What a client may do: allocate, resize and free its allocations, and write
    into them. *)
Inductive heap_step : heap * allocations → heap_op → heap * allocations → Prop :=
  | step_malloc n h L h' p :
      0 ≤ n < 2 ^ 64 → heap_malloc n h = Ok (h', p) →
      heap_step (h, L) (Malloc n) (h', hand_out p n L)
  | step_calloc n s h L h' p :
      0 ≤ n < 2 ^ 64 → 0 ≤ s < 2 ^ 64 → heap_calloc n s h = Ok (h', p) →
      heap_step (h, L) (Calloc n s) (h', hand_out p (n * s) L)
  | step_realloc q k n h L h' p :
      L !! q = Some k → 0 ≤ n < 2 ^ 64 → heap_realloc q n h = Ok (h', p) →
      heap_step (h, L) (Realloc q n) (h', if p =? NULL then L else <[p := n]> (delete q L))
  | step_free q k h L h' :
      L !! q = Some k → heap_free q h = Ok h' →
      heap_step (h, L) (Free q) (h', delete q L)
  | step_write q k h L m :
      L !! q = Some k → mem_frame (heap_mem h) m q (q + k) →
      heap_step (h, L) (Write q)
        ({| heap_mem := m; heap_arena := heap_arena h; heap_buddy := heap_buddy h;
            heap_lock := heap_lock h |}, L).

(** A client's run. *)
Inductive heap_run : heap * allocations → heap * allocations → Prop :=
  | run_nil c : heap_run c c
  | run_step c op c' c'' : heap_run c c' → heap_step c' op c'' → heap_run c c''.

(** ** The invariant *)

(** The heap manages arena [r] with blocks [B] in use, and nobody holds its lock. *)
Record heap_ok (h : heap) (r : arena) (B : gset Z) : Prop := HeapOk {
  ho_buddy : buddy_ok (heap_mem h) r B;
  ho_data : arena_data (heap_mem h) r;
  ho_at : heap_buddy h = ar_at r;
  ho_lock : lock_free (heap_lock h);
}.

(** The allocations are the blocks in use, and fit in them. *)
Record allocations_ok (r : arena) (B : gset Z) (L : allocations) : Prop := AllocationsOk {
  al_block : ∀ p n, L !! p = Some n → ∃ a, a ∈ B ∧ p = block_addr r a ∧ 0 ≤ n ≤ block_size r a;
  al_known : ∀ a, a ∈ B → is_Some (L !! block_addr r a);
}.

Definition heap_rel (r : arena) (c : heap * allocations) : Prop :=
  ∃ B, heap_ok c.1 r B ∧ allocations_ok r B c.2.

(** * Lemmas *)

Lemma guarded_returns {R} (call : mem → Z → outcome (mem * R)) h (Q : heap * R → Prop) :
  lock_free (heap_lock h) →
  returns (call (heap_mem h) (heap_buddy h)) (λ '(m, x), ∀ l, lock_free l →
    Q ({| heap_mem := m; heap_arena := heap_arena h; heap_buddy := heap_buddy h; heap_lock := l |}, x)) →
  returns (guarded call h) Q.
Proof.
  intros Hl Hc. destruct (mutex_lock_free _ Hl) as (l & Hlk & Hheld). unfold guarded.
  rewrite Hlk, bind_ok. bind_step. eapply returns_mono; [exact Hc|].
  intros [m x] HQ. apply HQ. by apply mutex_unlock_held.
Qed.

(** ** Blocks in use and allocations *)

Section blocks.
Context {m : mem} {r : arena} {V B : gset Z} (Hinv : buddy_inv m r V B).

Lemma in_use_disjoint a b : a ∈ B → b ∈ B → a ≠ b → blocks_disjoint r a b.
Proof using Hinv.
intros Ha Hb Hne. destruct (Hinv) as [Hr _ [_ HA] _ _].
apply apart_blocks_disjoint; [done|apply HA; set_solver..|].
split; intros Hab; apply Hne; [|symmetry]; apply (bo_apart _ _ HA); set_solver.
Qed.

Lemma in_use_arena a :
a ∈ B → 0 < block_addr r a ∧ ar_main r ≤ block_addr r a ∧
  block_addr r a + block_size r a ≤ ar_main r + ar_size r ∧ 1 ≤ block_size r a.
Proof using Hinv.
intros Ha. pose proof (bi_arena _ _ _ _ Hinv) as Hr. pose proof (ao_main _ Hr).
pose proof (ar_align_pos Hr).
destruct (block_in_arena Hr a (buddy_inv_real m r V B a Hinv Ha)). lia.
Qed.

Lemma in_use_inj a b : a ∈ B → b ∈ B → block_addr r a = block_addr r b → a = b.
Proof using Hinv.
intros Ha Hb E. destruct (decide (a = b)) as [|Hne]; [done|].
pose proof (in_use_disjoint a b Ha Hb Hne) as Hd.
pose proof (in_use_arena a Ha). pose proof (in_use_arena b Hb). unfold blocks_disjoint in Hd. lia.
Qed.

Lemma allocations_free L a :
allocations_ok r B L → a ∈ B → allocations_ok r (B ∖ {[a]}) (delete (block_addr r a) L).
Proof using Hinv.
intros HL Ha. split.
- intros p n [Hne Hp]%lookup_delete_Some. destruct (al_block _ _ _ HL p n Hp) as (b & Hb & -> & ?).
  exists b. split; [|done]. set_solver.
- intros b [Hb Hne]%elem_of_difference. rewrite lookup_delete_ne; [by apply HL|].
  intros E. apply Hne, elem_of_singleton. symmetry. by apply in_use_inj.
Qed.
End blocks.

Lemma allocations_insert m r V B L i n :
  buddy_inv m r V ({[i]} ∪ B) → i ∉ B → allocations_ok r B L → 0 ≤ n ≤ block_size r i →
  allocations_ok r ({[i]} ∪ B) (<[block_addr r i := n]> L).
Proof.
  intros Hinv Hi HL Hn. split.
  - intros p k [[<- <-]|[_ Hp]]%lookup_insert_Some; [exists i; set_solver|].
    destruct (al_block _ _ _ HL p k Hp) as (a & ? & ? & ?). exists a. set_solver.
  - intros a Ha. rewrite lookup_insert_is_Some'. apply elem_of_union in Ha as [Ha|Ha].
    + left. by apply elem_of_singleton in Ha as ->.
    + right. by apply HL.
Qed.

(** The other allocations are as they were, and so are their bytes. *)
Definition kept (o : option Z) (c c' : heap * allocations) : Prop :=
  ∀ q k, c.2 !! q = Some k → o ≠ Some q →
    c'.2 !! q = Some k ∧ ∀ x, q ≤ x < q + k → heap_mem c'.1 !! x = heap_mem c.1 !! x.

(** Bytes of blocks in use other than [a] do not change with the allocator's own
    bytes and those of a block [i] apart from them. *)
Lemma bytes_kept m m' r V B i a b k x :
  buddy_inv m r V B → arena_data m r → same_outside m m' r i →
  blocks_disjoint r b i → b ∈ B → b ≠ a → 0 ≤ k ≤ block_size r b →
  block_addr r b ≤ x < block_addr r b + k → m' !! x = m !! x.
Proof.
  intros Hinv Hd Hso Hdis Hb Hba Hk Hx. pose proof (in_use_arena Hinv b Hb).
  pose proof (ad_apart _ _ Hd). unfold blocks_disjoint in Hdis. apply Hso; lia.
Qed.

(** ** The operations *)

Section ops.
Context {h : heap} {r : arena} {L : allocations}.

(** [Q] is what is to be shown of a state the operation [op] leads to. *)
Definition op_ok (o : option Z) (c' : heap * allocations) : Prop :=
heap_rel r c' ∧ kept o (h, L) c'.

Lemma unchanged_ok o : heap_rel r (h, L) → op_ok o (h, L).
Proof. intros Hrel. split; [done|]. by intros q k Hq _. Qed.

(** A new block. *)
Lemma insert_ok m' V B i n b l :
buddy_inv (heap_mem h) r V B → arena_data (heap_mem h) r → allocations_ok r B L →
buddy_inv m' r V ({[i]} ∪ B) → i ∉ B → same_outside (heap_mem h) m' r i → arena_data m' r →
0 ≤ n ≤ block_size r i → b = ar_at r → lock_free l →
op_ok None ({| heap_mem := m'; heap_arena := heap_arena h; heap_buddy := b; heap_lock := l |},
            hand_out (block_addr r i) n L).
Proof.
intros Hinv Hd HL Hinv' Hi Hso Hd' Hn -> Hl.
pose proof (in_use_arena Hinv' i ltac:(set_solver)). unfold hand_out.
rewrite (proj2 (Z.eqb_neq _ NULL)) by (unfold NULL; lia). split.
- exists ({[i]} ∪ B). split; [|by eapply allocations_insert]. split; [by exists V|done..].
- intros q k Hq _. cbn [fst snd] in *. destruct (al_block _ _ _ HL q k Hq) as (b & Hb & -> & Hk).
  assert (b ≠ i) as Hbi by set_solver.
  pose proof (in_use_disjoint Hinv' b i ltac:(set_solver) ltac:(set_solver) Hbi) as Hdis.
  split.
  + rewrite lookup_insert_ne; [done|]. intros E. apply Hbi. symmetry.
    apply (in_use_inj Hinv'); [set_solver..|done].
  + intros x Hx. by apply (bytes_kept _ _ r V B i i b k).
Qed.

Hypothesis Hrel : heap_rel r (h, L).

Lemma heap_malloc_returns n :
0 ≤ n < 2 ^ 64 →
returns (heap_malloc n h) (λ '(h', p), op_ok None (h', hand_out p n L)).
Proof using Hrel.
intros Hn. unfold heap_malloc. destruct (Z.eqb_spec n 0) as [->|Hn0]; [by apply unchanged_ok|].
destruct Hrel as (B & [[V Hinv] Hd Hat Hl] & HL). cbn [fst snd] in *.
apply guarded_returns; [done|]. rewrite Hat.
apply (buddy_malloc_returns _ r V B); [done|done| |].
- intros _ l Hl'. split; [|by intros q k Hq _].
  exists B. split; [|done]. split; [by exists V|done..].
- intros m' i Hi Hf [Hsz _] Hfr Hinv' l Hl'. pose proof (bits_frame_meta _ _ _ (bi_arena _ _ _ _ Hinv) Hfr) as Hm.
  apply (insert_ok m' V B); try done.
  + pose proof (free_node_not_in _ _ Hf). set_solver.
  + intros x _ Hx. by apply Hm.
  + by eapply arena_data_frame.
  + lia.
Qed.

Lemma heap_calloc_returns n s :
0 ≤ n < 2 ^ 64 → 0 ≤ s < 2 ^ 64 →
returns (heap_calloc n s h) (λ '(h', p), op_ok None (h', hand_out p (n * s) L)).
Proof using Hrel.
intros Hn Hs. unfold heap_calloc. destruct (Z.eqb_spec s 0); [by apply unchanged_ok|].
destruct (Z.eqb_spec n 0); cbn [orb]; [by apply unchanged_ok|].
destruct Hrel as (B & [[V Hinv] Hd Hat Hl] & HL). cbn [fst snd] in *.
apply guarded_returns; [done|]. rewrite Hat.
eapply returns_mono; [by apply (buddy_calloc_returns _ r V B)|].
unfold calloc_total. rewrite decide_False by lia.
intros [m' p] [(-> & -> & _)|(i & -> & Hi & _ & [Hsz _] & _ & Hso & Hinv' & Hd')] l Hl'.
- split; [|by intros q k Hq _]. exists B. split; [|done]. split; [by exists V|done..].
- apply (insert_ok m' V B); try done. nia.
Qed.

Lemma heap_free_returns q k :
L !! q = Some k → returns (heap_free q h) (λ h', op_ok (Some q) (h', delete q L)).
Proof using Hrel.
intros Hq. destruct Hrel as (B & [[V Hinv] Hd Hat Hl] & HL). cbn [fst snd] in *.
destruct (al_block _ _ _ HL q k Hq) as (a & Ha & -> & Hk).
pose proof (in_use_arena Hinv a Ha). unfold heap_free.
rewrite (proj2 (Z.eqb_neq _ NULL)) by (unfold NULL; lia). bind_step.
apply guarded_returns; [done|]. rewrite Hat. bind_step.
apply (buddy_free_returns _ r V B); [done| |].
- intros m' a' Ha' E Hfr Hinv'. cbn [returns]. intros l Hl'.
  rewrite <-(in_use_inj Hinv a a' Ha Ha' E) in *.
  pose proof (bits_frame_meta _ _ _ (bi_arena _ _ _ _ Hinv) Hfr) as Hm. split.
  + exists (B ∖ {[a]}). split; [|by apply (allocations_free Hinv)].
    split; [by exists V|by eapply arena_data_frame|done|done].
  + intros p n Hp Hne. cbn [fst snd] in *. split.
    * rewrite lookup_delete_ne; [done|]. congruence.
    * intros x Hx. destruct (al_block _ _ _ HL p n Hp) as (b & Hb & -> & Hn).
      pose proof (in_use_arena Hinv b Hb). pose proof (ad_apart _ _ Hd). apply Hm. lia.
- intros Hno. by destruct (Hno a Ha).
Qed.
(** The bytes of other blocks, when the allocator's own bytes change only. *)
Lemma meta_kept m' V B o L' b l :
buddy_inv (heap_mem h) r V B → arena_data (heap_mem h) r → allocations_ok r B L →
meta_frame (heap_mem h) m' r → (∀ p, o ≠ Some p → L' !! p = L !! p) →
kept o (h, L) ({| heap_mem := m'; heap_arena := heap_arena h; heap_buddy := b;
                  heap_lock := l |}, L').
Proof using Type.
intros Hinv Hd HL Hm HL' p k Hp Hne. cbn [fst snd] in *. split; [by rewrite HL'|].
intros x Hx. destruct (al_block _ _ _ HL p k Hp) as (c & Hc & -> & Hk).
pose proof (in_use_arena Hinv c Hc). pose proof (ad_apart _ _ Hd). apply Hm. lia.
Qed.

Lemma heap_realloc_returns q k n :
L !! q = Some k → 0 ≤ n < 2 ^ 64 →
returns (heap_realloc q n h) (λ '(h', p),
  op_ok (Some q) (h', if p =? NULL then L else <[p := n]> (delete q L))).
Proof using Hrel.
intros Hq Hn. destruct Hrel as (B & [[V Hinv] Hd Hat Hl] & HL). cbn [fst snd] in *.
destruct (al_block _ _ _ HL q k Hq) as (a & Ha & -> & Hk).
pose proof (in_use_arena Hinv a Ha) as Haa. unfold heap_realloc.
assert (block_addr r a ≠ NULL) as Hnn by (unfold NULL; lia).
rewrite (proj2 (Z.eqb_neq _ NULL)) by done. cbn [orb].
destruct (Z.eqb_spec n 0) as [|Hn0]; [by apply unchanged_ok|].
apply guarded_returns; [done|]. rewrite Hat.
apply (buddy_realloc_returns _ r V B); [done|done|done|lia|].
pose proof (allocations_free Hinv L a HL Ha) as HL'.
intros m' p [(-> & Hm & Hinv' & _)|[(-> & [Hsz _] & Hm & Hinv')|Hmv]] l Hl'.
- split; [|by apply (meta_kept m' V B)]. exists B.
  split; [split; [by exists V|by eapply arena_data_frame|done|done]|done].
- rewrite (proj2 (Z.eqb_neq _ NULL)) by done. split.
  + assert ({[a]} ∪ B ∖ {[a]} = B) as E by (symmetry; apply union_difference_singleton_L, Ha).
    exists B. split; [split; [by exists V|by eapply arena_data_frame|done|done]|]. cbn [snd].
    rewrite <-E. apply (allocations_insert m' r V); [by rewrite E|set_solver|done|lia].
  + apply (meta_kept m' V B); try done. intros p Hp.
    rewrite lookup_insert_ne, lookup_delete_ne by congruence. done.
- destruct Hmv as (i & -> & [Hsz _] & Hf & _ & Hso & Hinv' & Hd').
  pose proof (free_node_not_in _ _ Hf) as Hni.
  pose proof (in_use_arena Hinv' i ltac:(set_solver)).
  rewrite (proj2 (Z.eqb_neq _ NULL)) by (unfold NULL; lia). split.
  + exists ({[i]} ∪ B ∖ {[a]}). split; [split; [by exists V|done..]|].
    by apply (allocations_insert m' r V); [..|lia].
  + intros p m Hp Hne. cbn [fst snd] in *. destruct (al_block _ _ _ HL p m Hp) as (b & Hb & -> & Hm).
    assert (b ≠ a) as Hba by congruence. assert (b ≠ i) as Hbi by set_solver.
    assert (b ∈ {[i]} ∪ B ∖ {[a]} ∧ i ∈ {[i]} ∪ B ∖ {[a]}) as [Hb' Hi'] by set_solver.
    split.
    * rewrite lookup_insert_ne, lookup_delete_ne; [done|congruence|].
      intros E. apply Hbi. symmetry. by apply (in_use_inj Hinv').
    * intros x Hx. apply (bytes_kept _ _ r V B i a b m); try done.
      by apply (in_use_disjoint Hinv').
Qed.

Lemma heap_write_ok q k m :
L !! q = Some k → mem_frame (heap_mem h) m q (q + k) →
op_ok (Some q) ({| heap_mem := m; heap_arena := heap_arena h; heap_buddy := heap_buddy h;
                   heap_lock := heap_lock h |}, L).
Proof using Hrel.
intros Hq Hfr. destruct Hrel as (B & [[V Hinv] Hd Hat Hl] & HL). cbn [fst snd] in *.
destruct (al_block _ _ _ HL q k Hq) as (a & Ha & -> & Hk).
pose proof (in_use_arena Hinv a Ha). pose proof (ad_apart _ _ Hd). split.
- exists B. split; [|done]. split; [|by eapply arena_data_frame|done|done].
  exists V. eapply buddy_inv_frame; [exact Hfr|lia|done].
- intros p n Hp Hne. split; [done|]. intros x Hx. cbn [fst snd] in *.
  destruct (al_block _ _ _ HL p n Hp) as (b & Hb & -> & Hn).
  assert (b ≠ a) as Hba by congruence.
  pose proof (in_use_disjoint Hinv b a Hb Ha Hba) as Hdis. unfold blocks_disjoint in Hdis.
  apply Hfr. lia.
Qed.

Lemma heap_step_ok op c' : heap_step (h, L) op c' → op_ok (touched op) c'.
Proof using Hrel.
intros Hs. inversion Hs as [n h1 L1 h' p Hn Hop|n s h1 L1 h' p Hn Hs' Hop|q k n h1 L1 h' p Hq Hn Hop|
  q k h1 L1 h' Hq Hop|q k h1 L1 m Hq Hfr]; subst; cbn [touched].
- pose proof (heap_malloc_returns n Hn) as Hr. by rewrite Hop in Hr.
- pose proof (heap_calloc_returns n s Hn Hs') as Hr. by rewrite Hop in Hr.
- pose proof (heap_realloc_returns q k n Hq Hn) as Hr. by rewrite Hop in Hr.
- pose proof (heap_free_returns q k Hq) as Hr. by rewrite Hop in Hr.
- by apply (heap_write_ok q k m).
Qed.
End ops.

(** ** What the invariant means for the allocations *)

Lemma heap_rel_arena r h L p n :
  heap_rel r (h, L) → L !! p = Some n →
  p ≠ NULL ∧ ar_main r ≤ p ∧ p + n ≤ ar_main r + ar_size r.
Proof.
  intros (B & [[V Hinv] _ _ _] & HL) Hp. destruct (al_block _ _ _ HL p n Hp) as (a & Ha & -> & ?).
  pose proof (in_use_arena Hinv a Ha). unfold NULL. lia.
Qed.

Lemma heap_rel_disjoint r h L p n q k :
  heap_rel r (h, L) → L !! p = Some n → L !! q = Some k → p ≠ q → p + n ≤ q ∨ q + k ≤ p.
Proof.
  intros (B & [[V Hinv] _ _ _] & HL) Hp Hq Hne.
  destruct (al_block _ _ _ HL p n Hp) as (a & Ha & -> & ?).
  destruct (al_block _ _ _ HL q k Hq) as (b & Hb & -> & ?).
  assert (a ≠ b) as Hab by congruence.
  pose proof (in_use_disjoint Hinv a b Ha Hb Hab) as Hd. unfold blocks_disjoint in Hd. lia.
Qed.

(** ** Start-up *)

Lemma bit_ceil_pow2 x : 0 ≤ x < 2 ^ 48 → ∃ j, 0 ≤ j ≤ 48 ∧ bit_ceil x = 2 ^ j.
Proof.
  intros Hx. unfold bit_ceil. destruct (Z.leb_spec x 1); [by exists 0|].
  exists (Z.log2_up x). split; [|done]. split; [apply Z.log2_up_nonneg|].
  apply Z.log2_up_le_pow2; lia.
Qed.

(** An arena of a page or more has room for its allocator. *)
Lemma tree_size_room o : 7 ≤ o ≤ 58 → 40 + tree_size o + 64 ≤ 2 ^ (o + 5).
Proof.
  intros Ho. pose proof (Z.pow_gt_lin_r 2 (o - 2) ltac:(lia) ltac:(lia)) as Hlin.
  assert (2 ^ 5 ≤ 2 ^ (o - 2)) as Hp by (apply Z.pow_le_mono_r; lia).
  change (2 ^ 5) with 32 in Hp. replace (o + 5) with (7 + (o - 2)) by lia.
  rewrite Z.pow_add_r by lia. change (2 ^ 7) with 128.
  destruct (row_offset_end o) as [E|]; [|lia].
  replace (o + 1) with (3 + (o - 2)) in E by lia. rewrite Z.pow_add_r in E by lia.
  change (2 ^ 3) with 8 in E. unfold tree_size, rounded_bytes, bits_bytes. rewrite E. dlia.
Qed.

(** The memory at an arena of [size] bytes, as the page tables show it. *)
Record arena_mapped (m : mem) (p size : Z) : Prop := ArenaMapped {
  am_bytes : bytes_at m p size;
  am_words : word_mapped m;
  am_page : 0 < p ∧ p mod PAGE_SIZE = 0;
  am_end : p + size + 8 ≤ 2 ^ 64;
}.

Lemma embed_pages m p j h (Q : mem * Z → Prop) :
  0 ≤ j ≤ 48 → arena_mapped m p (2 ^ j * PAGE_SIZE) → lock_free (heap_lock h) →
  (∀ m' b r, ar_main r = p → ar_main r + ar_size r ≤ ar_at r →
     ar_at r + ar_meta r ≤ p + 2 ^ j * PAGE_SIZE → b ≠ NULL →
     heap_ok {| heap_mem := m'; heap_arena := p; heap_buddy := b; heap_lock := heap_lock h |} r ∅ →
     Q (m', b)) →
  returns (buddy_embed m p (2 ^ j * PAGE_SIZE)) Q.
Proof.
  intros Hj [Hb Hw [Hp Hpage] Hend] Hl HQ.
  assert (2 ^ j * PAGE_SIZE = 2 ^ (j + 12)) as Esz by (rewrite Z.pow_add_r by lia; done).
  rewrite Esz in *. assert (2 ^ (j + 12) / 2 ^ 6 = 2 ^ (j + 6)) as Ediv.
  { rewrite <-Z.pow_sub_r by lia. f_equal. lia. }
  assert (2 ^ 12 ≤ 2 ^ (j + 12) ≤ 2 ^ 60) as Hs by (split; apply Z.pow_le_mono_r; lia).
  unfold PAGE_SIZE in Hpage. assert (p mod 8 = 0) as Hp8 by dlia.
  assert (Z.log2_up (2 ^ (j + 6)) = j + 6) as Elog by (apply Z.log2_up_pow2; lia).
  apply (buddy_embed_returns m p (2 ^ (j + 12)) 6).
  - split; [split_and!; [done|done|lia]|done| |rewrite Ediv, Elog; split; lia|done].
    change (2 ^ 6) with 64. lia.
  - rewrite Ediv, Elog. pose proof (tree_size_room (j + 7) ltac:(lia)) as Hroom.
    replace (j + 7 + 5) with (j + 12) in Hroom by lia. change (2 ^ 6) with 64.
    replace (j + 6 + 1) with (j + 7) by lia. lia.
  - intros m' r Emain Eal Hle Hmeta Hfr Hok. destruct (Hok) as [V [Hr _ _ _ _]].
    apply (HQ m' (ar_at r) r); [done|done|lia|pose proof (ao_at _ Hr); unfold NULL; lia|].
    assert (ar_shift r = 6) as Esh.
    { apply (Z.pow_inj_r 2); [lia|apply Hr|lia|done]. }
    split; [done| |done|done]. cbn [heap_mem]. eapply arena_data_frame; [exact Hfr|].
    pose proof (layout _ (ao_order _ Hr)) as (_ & _ & _ & ?). pose proof (ar_order_pos Hr).
    assert (0 ≤ ar_meta r) by (unfold ar_meta, tree_size; lia).
    split; [|by left|rewrite Emain, Esh; split; [done|lia]|done|lia].
    rewrite Emain. eapply bytes_at_mono; [exact Hb|lia|lia].
Qed.

(** * Properties *)

(** Start-up of the heap: with the range that [virtual_allocate] returns
    mapped, [heap_init] ends without a panic, and the heap it sets up, arena,
    allocator and all, lies in that range; no block is in use and the lock is
    free. *)
Theorem heap_init_establishes `{hh : Hhdm, pmode : PagingMode} (mmu : vm phys → mem)
    kernel_base (s s' : vm phys) h p :
  let stats := physical_get_status (vm_frames s) in
  let arena_size := bit_ceil (total_pages stats / 16) in
  0 ≤ total_pages stats < 2 ^ 52 → lock_free (heap_lock h) →
  virtual_allocate (highest_physical_addr stats) kernel_base arena_size
    (Z.lor MAP_WRITE MAP_READ) s = Ok (s', p) →
  arena_mapped (mmu s') p (arena_size * PAGE_SIZE) →
  returns (heap_init mmu kernel_base s h) (λ '(s'', h'), s'' = s' ∧ ∃ r,
    heap_ok h' r ∅ ∧ ar_main r = p ∧ ar_main r + ar_size r ≤ ar_at r ∧
    ar_at r + ar_meta r ≤ p + arena_size * PAGE_SIZE).
Proof.
  intros stats arena_size Htot Hl Hva Hmap. unfold heap_init. fold stats. fold arena_size.
  rewrite Hva, bind_ok.
  destruct (bit_ceil_pow2 (total_pages stats / 16)) as (j & Hj & Ej); [dlia|].
  fold arena_size in Ej. rewrite Ej in *.
  assert (2 ^ j ≤ 2 ^ 48) by (apply Z.pow_le_mono_r; lia).
  rewrite u64_small by (pose proof (Z.pow_pos_nonneg 2 j); unfold PAGE_SIZE; lia).
  bind_step. apply (embed_pages _ p j h); [done..|].
  intros m b r Emain Hle Hmeta Hb Hok. rewrite (proj2 (Z.eqb_neq b NULL)) by done.
  cbn [negb assert]. rewrite bind_ok. cbn [returns]. split; [done|]. by exists r.
Qed.

(** C2. Every run of a client is safe: starting from a heap whose allocations are
    in order, after any sequence of allocations, resizes, frees and writes into
    its own allocations, every allocation lies in the arena, no two of them
    overlap, and the next operation ends, whichever it is. *)
Theorem heap_run_safe r c h L :
  heap_rel r c → heap_run c (h, L) →
  (∀ p n, L !! p = Some n → p ≠ NULL ∧ ar_main r ≤ p ∧ p + n ≤ ar_main r + ar_size r) ∧
  (∀ p n q k, L !! p = Some n → L !! q = Some k → p ≠ q → p + n ≤ q ∨ q + k ≤ p) ∧
  (∀ n, 0 ≤ n < 2 ^ 64 → ∃ c', heap_step (h, L) (Malloc n) c') ∧
  (∀ n s, 0 ≤ n < 2 ^ 64 → 0 ≤ s < 2 ^ 64 → ∃ c', heap_step (h, L) (Calloc n s) c') ∧
  (∀ p k n, L !! p = Some k → 0 ≤ n < 2 ^ 64 → ∃ c', heap_step (h, L) (Realloc p n) c') ∧
  (∀ p k, L !! p = Some k → ∃ c', heap_step (h, L) (Free p) c').
Proof.
  intros Hrel Hrun. assert (heap_rel r (h, L)) as Hrel'.
  { revert Hrel. induction Hrun as [c|c op [h1 L1] c'' Hrun IH Hs]; [done|]. intros Hrel.
    by apply (heap_step_ok (IH Hrel) op c''). }
  split_and!.
  - intros p n. by apply (heap_rel_arena r h L).
  - intros p n q k. by apply (heap_rel_disjoint r h L).
  - intros n Hn. destruct (returns_inv _ _ (heap_malloc_returns Hrel' n Hn)) as ([h' p] & E & _).
    eexists. by apply step_malloc.
  - intros n s Hn Hs.
    destruct (returns_inv _ _ (heap_calloc_returns Hrel' n s Hn Hs)) as ([h' p] & E & _).
    eexists. by apply step_calloc.
  - intros p k n Hp Hn.
    destruct (returns_inv _ _ (heap_realloc_returns Hrel' p k n Hp Hn)) as ([h' p'] & E & _).
    eexists. by eapply step_realloc.
  - intros p k Hp. destruct (returns_inv _ _ (heap_free_returns Hrel' p k Hp)) as (h' & E & _).
    eexists. by eapply step_free.
Qed.

(** C26. An operation on one allocation, or a new one, leaves all the others as
    they are, with every byte the client has written to them, and keeps the
    heap's invariant. *)
Theorem heap_step_keeps r c op c' :
  heap_rel r c → heap_step c op c' →
  heap_rel r c' ∧ ∀ q k, c.2 !! q = Some k → touched op ≠ Some q →
    c'.2 !! q = Some k ∧ ∀ x, q ≤ x < q + k → heap_mem c'.1 !! x = heap_mem c.1 !! x.
Proof. destruct c as [h L]. intros Hrel Hs. by apply (heap_step_ok Hrel). Qed.

(** [realloc] of a null pointer allocates nothing. *)
Lemma realloc_null n h : realloc NULL n h = Ok (h, NULL).
Proof. done. Qed.

(** * Instances *)

Definition sample_heap : heap :=
  {| heap_mem := sample_init; heap_arena := 4096; heap_buddy := 4544;
     heap_lock := TicketLock_init |}.

Lemma sample_heap_rel : heap_rel sample_arena (sample_heap, ∅).
Proof.
  destruct sample_init_ok as [Hok Hd]. exists ∅. split; [by split|]. cbn [snd].
  split; [by intros p n Hp%lookup_empty_Some|set_solver].
Qed.

Lemma heap_run_safe_witness :
  ∃ h p, heap_run (sample_heap, ∅) (h, hand_out p 100 ∅) ∧
    ∀ p' n, hand_out p 100 ∅ !! p' = Some n →
      p' ≠ NULL ∧ 4096 ≤ p' ∧ p' + n ≤ 4096 + ar_size sample_arena.
Proof.
  destruct (returns_inv _ _ (heap_malloc_returns sample_heap_rel 100 ltac:(lia)))
    as ([h p] & E & _).
  exists h, p. assert (heap_run (sample_heap, ∅) (h, hand_out p 100 ∅)) as Hrun.
  { eapply run_step; [apply run_nil|]. apply step_malloc; [lia|exact E]. }
  split; [exact Hrun|].
  exact (proj1 (heap_run_safe sample_arena _ _ _ sample_heap_rel Hrun)).
Defined.

Lemma heap_step_keeps_witness :
  ∃ c', heap_step (sample_heap, ∅) (Malloc 100) c' ∧ heap_rel sample_arena c'.
Proof.
  destruct (returns_inv _ _ (heap_malloc_returns sample_heap_rel 100 ltac:(lia)))
    as ([h p] & E & _).
  assert (heap_step (sample_heap, ∅) (Malloc 100) (h, hand_out p 100 ∅)) as Hs
    by (apply step_malloc; [lia|exact E]).
  eexists. split; [exact Hs|].
  exact (proj1 (heap_step_keeps sample_arena _ _ _ sample_heap_rel Hs)).
Defined.

(** Physical memory of sixteen pages, of which the first eleven are in the
    direct map, and the address space of an empty page map. *)
#[local] Existing Instance sample_hhdm.
#[local] Existing Instance sample_mode.

Definition sample_phys_16 : phys :=
  {| phys_mem := <[4096 := 15]> (<[4097 := 0]>
       (mem_of (2 ^ 47) (replicate (Z.to_nat 45056) 0)));
     phys_stats := {| highest_physical_addr := 65536; lowest_usable_addr := 4096;
                      highest_usable_addr := 65536; total_pages := 16; usable_pages := 16;
                      used_pages := 4; free_pages := 12 |};
     phys_bitmap := {| buffer_ := 4096; size_ := 16 |};
     phys_lock := TicketLock_init;
     bitmap_last_index := 4 |}.

Definition sample_space : vm phys :=
  Vm sample_phys_16 (2 ^ 47 + 3 * 4096) TicketLock_init false [].

Lemma sample_allocate :
  returns (virtual_allocate 65536 (2 ^ 47 + 2 ^ 20) 1 (Z.lor MAP_WRITE MAP_READ) sample_space)
    (λ '(_, p), p = 2 ^ 47 + 65536).
Proof. by vm_compute. Qed.

(** The page tables show zeros at the heap. *)
Definition sample_mmu (_ : vm phys) : mem := mem_of (2 ^ 47 + 65536) (replicate (Z.to_nat 4096) 0).

Lemma sample_arena_mapped s : arena_mapped (sample_mmu s) (2 ^ 47 + 65536) 4096.
Proof.
  unfold sample_mmu. split; [split|..]; [lia| | |by apply mem_of_word_mapped|by split|lia].
  - intros x Hx. apply mem_of_is_Some. rewrite length_replicate. lia.
  - apply mem_of_bytes_ok, Forall_replicate. lia.
Qed.

Lemma heap_init_establishes_witness :
  ∃ s', returns (heap_init sample_mmu (2 ^ 47 + 2 ^ 20) sample_space heap_start) (λ '(s'', h'),
    s'' = s' ∧ ∃ r, heap_ok h' r ∅ ∧ ar_main r = 2 ^ 47 + 65536 ∧
      ar_main r + ar_size r ≤ ar_at r ∧ ar_at r + ar_meta r ≤ 2 ^ 47 + 65536 + 1 * PAGE_SIZE).
Proof.
  destruct (returns_inv _ _ sample_allocate) as ([s' p] & E & ->). exists s'.
  apply (heap_init_establishes sample_mmu (2 ^ 47 + 2 ^ 20) sample_space s' heap_start
           (2 ^ 47 + 65536)).
  - cbn. lia.
  - split; [reflexivity|]. cbn. lia.
  - exact E.
  - exact (sample_arena_mapped s').
Defined.
