(* ===== verification/Serial.v ===== *)
(** * Calls under a lock: [ScopedLock guard(lock)] with several threads

    Threads that call the functions of a component whose bodies run while a
    [TicketLock] is held.  The accesses of the lock interleave as in Lock; a body
    reads the component's state after the guard has locked, and what it computes
    from that is stored later, before the guard unlocks, while other threads run
    in between.  If two bodies could run at once one would be lost; that they
    cannot makes every run a serial one. *)
From S2P Require Import Prelude Lock.

Section serial.
(** The component's state, its calls, their results, and the body of a call.
    A client may make the calls that what it called before, with its results,
    allows. *)
Context {S C R : Type} (body : C → S → outcome (S * R)) (allowed : list (C * R) → C → Prop).

(** ** Threads *)

(** What a thread is at: outside the component, in a call whose body has not begun,
    has read the state, or has stored its result. *)
Inductive phase :=
  | Idle
  | Called (c : C)
  | Computing (c : C) (s : S)
  | Stored (c : C) (r : R).

(** An entry of the history: the thread, its call and the result. *)
Abbreviation entry := (nat * C * R)%type.

(** The lock, what the threads are at (in the lock's operations, and in their
    calls), the state, and the calls whose bodies have stored their results. *)
Record machine := Machine {
  mc_lock : TicketLock;
  mc_pcs : gmap nat pc;
  mc_phases : gmap nat phase;
  mc_state : S;
  mc_history : list entry;
}.

Definition calls_of (i : nat) (hist : list entry) : list (C * R) :=
  omap (λ e : entry, let '(j, c, r) := e in if decide (j = i) then Some (c, r) else None) hist.

(** The part of the lock's accesses that the guard's constructor makes: [lock], not
    [try_lock]. *)
Definition locking (p p' : pc) : Prop :=
  match p, p' with
  | Outside, Waiting _ | Waiting _, Waiting _ | Waiting _, Holding => True
  | _, _ => False
  end.

Inductive machine_step : machine → nat → machine → Prop :=
  | ms_call l pcs phs s hist i c :
      phs !! i = Some Idle → allowed (calls_of i hist) c →
      machine_step (Machine l pcs phs s hist) i (Machine l pcs (<[i := Called c]> phs) s hist)
  | ms_lock l pcs phs s hist i c p l' p' :
      phs !! i = Some (Called c) → pcs !! i = Some p → locking p p' → thread_step l p l' p' →
      machine_step (Machine l pcs phs s hist) i (Machine l' (<[i := p']> pcs) phs s hist)
  | ms_read l pcs phs s hist i c :
      phs !! i = Some (Called c) → pcs !! i = Some Holding →
      machine_step (Machine l pcs phs s hist) i (Machine l pcs (<[i := Computing c s]> phs) s hist)
  | ms_store l pcs phs s hist i c s0 s' r :
      phs !! i = Some (Computing c s0) → pcs !! i = Some Holding → body c s0 = Ok (s', r) →
      machine_step (Machine l pcs phs s hist) i
                   (Machine l pcs (<[i := Stored c r]> phs) s' (hist ++ [(i, c, r)]))
  | ms_unlock l pcs phs s hist i c r p l' p' :
      phs !! i = Some (Stored c r) → pcs !! i = Some p → inside p = true → thread_step l p l' p' →
      machine_step (Machine l pcs phs s hist) i (Machine l' (<[i := p']> pcs) phs s hist)
  | ms_return l pcs phs s hist i c r :
      phs !! i = Some (Stored c r) → pcs !! i = Some Outside →
      machine_step (Machine l pcs phs s hist) i (Machine l pcs (<[i := Idle]> phs) s hist).

(** The states [n] threads reach from the state [s0] of the component. *)
Inductive runs (n : nat) (s0 : S) : machine → Prop :=
  | runs_init :
      runs n s0 (Machine TicketLock_init (gset_to_gmap Outside (set_seq 0 n))
                   (gset_to_gmap Idle (set_seq 0 n)) s0 [])
  | runs_step m i m' : runs n s0 m → machine_step m i m' → runs n s0 m'.

(** ** The serial component *)

(** The calls of [hist], one after the other, each allowed to its thread. *)
Inductive serial (s0 : S) : list entry → S → Prop :=
  | serial_nil : serial s0 [] s0
  | serial_call hist s i c s' r :
      serial s0 hist s → allowed (calls_of i hist) c → body c s = Ok (s', r) →
      serial s0 (hist ++ [(i, c, r)]) s'.

(** * Lemmas *)

Definition lock_part (m : machine) : system := {| sys_lock := mc_lock m; sys_pc := mc_pcs m |}.

Lemma runs_reachable n s0 m : runs n s0 m → reachable n (lock_part m).
Proof using Type.
  induction 1 as [|m i m' Hr IH Hs]; [constructor|].
  destruct Hs; try exact IH; (eapply reachable_step; [exact IH|by econstructor]).
Qed.

(** Where a thread in a phase can be in the lock's operations. *)
Definition phase_at (ph : phase) (p : pc) : Prop :=
  match ph with
  | Idle => p = Outside
  | Called _ => p = Outside ∨ (∃ t, p = Waiting t) ∨ p = Holding
  | Computing _ _ => p = Holding
  | Stored _ _ => p = Outside ∨ inside p = true
  end.

(** What is known of a thread's call. *)
Definition phase_ok (s : S) (hist : list entry) (i : nat) (ph : phase) : Prop :=
  match ph with
  | Idle => True
  | Called c => allowed (calls_of i hist) c
  | Computing c s0 => allowed (calls_of i hist) c ∧ s0 = s
  | Stored c r => ∃ before, calls_of i hist = before ++ [(c, r)]
  end.

Record machine_ok (n : nat) (s0 : S) (m : machine) : Prop := MachineOk {
  mo_pcs : dom (mc_pcs m) = set_seq 0 n;
  mo_phases : dom (mc_phases m) = set_seq 0 n;
  mo_at : ∀ i p ph, mc_pcs m !! i = Some p → mc_phases m !! i = Some ph → phase_at ph p;
  mo_ok : ∀ i ph, mc_phases m !! i = Some ph → phase_ok (mc_state m) (mc_history m) i ph;
  mo_serial : serial s0 (mc_history m) (mc_state m);
}.

Lemma calls_of_app i h1 h2 : calls_of i (h1 ++ h2) = calls_of i h1 ++ calls_of i h2.
Proof using Type. apply omap_app. Qed.

Lemma calls_of_other i j c r hist : i ≠ j → calls_of i (hist ++ [(j, c, r)]) = calls_of i hist.
Proof using Type.
  intros Hne. rewrite calls_of_app. unfold calls_of at 2. cbn [omap list_omap].
  rewrite decide_False by done. by rewrite app_nil_r.
Qed.

Lemma calls_of_own i c r hist : calls_of i (hist ++ [(i, c, r)]) = calls_of i hist ++ [(c, r)].
Proof using Type.
  rewrite calls_of_app. unfold calls_of at 2. cbn [omap list_omap]. by rewrite decide_True.
Qed.

(** Two threads are never both in a body. *)
Lemma runs_exclusive n s0 m i j p p' :
  Z.of_nat n < 2 ^ 64 → runs n s0 m → mc_pcs m !! i = Some p → mc_pcs m !! j = Some p' →
  inside p = true → inside p' = true → i = j.
Proof using Type.
  intros Hn Hr Hi Hj Hp Hp'.
  destruct (reachable_queue n _ Hn (runs_reachable _ _ _ Hr)) as (q & Hq & _).
  pose proof (qr_inside _ _ Hq i p Hi Hp). pose proof (qr_inside _ _ Hq j p' Hj Hp'). congruence.
Qed.

(** A thread alone moves on; the others keep their places and what is known of
    their calls. *)
Lemma machine_ok_thread n s0 l pcs phs s hist i p p' ph' l' s' hist' :
  machine_ok n s0 (Machine l pcs phs s hist) → pcs !! i = Some p → is_Some (phs !! i) →
  phase_at ph' p' → phase_ok s' hist' i ph' →
  (∀ j ph, j ≠ i → phs !! j = Some ph → phase_ok s hist j ph → phase_ok s' hist' j ph) →
  serial s0 hist' s' →
  machine_ok n s0 (Machine l' (<[i := p']> pcs) (<[i := ph']> phs) s' hist').
Proof using Type.
  intros [Hpd Hfd Hat Hok Hse] Hp Hph Hat' Hok' Hothers Hse'. cbn in *. split; cbn.
  - rewrite dom_insert_lookup_L; [done|by eexists].
  - by rewrite dom_insert_lookup_L.
  - intros j pj phj. rewrite !lookup_insert_Some.
    intros [[<- <-]|[Hne Hpj]] [[? <-]|[? Hphj]]; try done. by apply (Hat j).
  - intros j phj. rewrite lookup_insert_Some. intros [[<- <-]|[Hne Hphj]]; [done|].
    apply Hothers; [done|done|by apply Hok].
  - done.
Qed.

(** The other threads are in no body while [i] is. *)
Lemma no_other_body n s0 m i j c s1 :
  Z.of_nat n < 2 ^ 64 → runs n s0 m → machine_ok n s0 m →
  mc_pcs m !! i = Some Holding → j ≠ i → mc_phases m !! j ≠ Some (Computing c s1).
Proof using Type.
  intros Hn Hr [Hpd Hfd Hat _ _] Hi Hne Hj.
  assert (is_Some (mc_pcs m !! j)) as [p Hp].
  { apply elem_of_dom. rewrite Hpd, <-Hfd. apply elem_of_dom. by eexists. }
  pose proof (Hat _ _ _ Hp Hj) as ->. apply Hne.
  by apply (runs_exclusive n s0 m j i Holding Holding).
Qed.

Lemma machine_place n s0 m i ph :
  machine_ok n s0 m → mc_phases m !! i = Some ph →
  ∃ p, mc_pcs m !! i = Some p ∧ phase_at ph p ∧ phase_ok (mc_state m) (mc_history m) i ph.
Proof using Type.
  intros [Hpd Hfd Hat Hok _] Hph.
  assert (is_Some (mc_pcs m !! i)) as [p Hp].
  { apply elem_of_dom. rewrite Hpd, <-Hfd. apply elem_of_dom. by eexists. }
  exists p. split_and!; [done|by apply (Hat i)|by apply Hok].
Qed.

(** Another thread's call, stored, changes nothing for a thread in no body. *)
Lemma phase_ok_stored s hist s' i j c r ph :
  (∀ c s, ph ≠ Computing c s) → j ≠ i →
  phase_ok s hist j ph → phase_ok s' (hist ++ [(i, c, r)]) j ph.
Proof using Type.
  intros Hn Hne. destruct ph as [|c1|c1 s1|c1 r1]; cbn [phase_ok]; rewrite ?calls_of_other by done;
    try done. by destruct (Hn c1 s1).
Qed.

Lemma machine_step_ok n s0 m i m' :
  Z.of_nat n < 2 ^ 64 → runs n s0 m → machine_ok n s0 m → machine_step m i m' →
  machine_ok n s0 m'.
Proof using Type.
  intros Hn Hr Hm Hs. pose proof (no_other_body n s0 m) as Hno.
  pose proof (mo_serial _ _ _ Hm) as Hse.
  destruct Hs as [l pcs phs s hist i c Hph Hall|l pcs phs s hist i c p l' p' Hph Hp Hlk Hst|
    l pcs phs s hist i c Hph Hp|l pcs phs s hist i c s1 s' r Hph Hp Hb|
    l pcs phs s hist i c r p l' p' Hph Hp Hin Hst|l pcs phs s hist i c r Hph Hp];
    destruct (machine_place _ _ _ _ _ Hm Hph) as (p0 & Hp0 & Hat & Hok); cbn in *;
    assert (is_Some (phs !! i)) as Hsome by by eexists.
  - rewrite <-(insert_id pcs i p0) by done. subst p0.
    apply (machine_ok_thread n s0 l pcs phs s hist i Outside Outside); try done. by left.
  - rewrite <-(insert_id phs i _ Hph).
    apply (machine_ok_thread n s0 l pcs phs s hist i p p'); try done.
    destruct p, p'; try done; cbn; eauto.
  - rewrite <-(insert_id pcs i Holding) by done.
    by apply (machine_ok_thread n s0 l pcs phs s hist i Holding Holding).
  - rewrite <-(insert_id pcs i Holding) by done.
    apply (machine_ok_thread n s0 l pcs phs s hist i Holding Holding); try done.
    + by right.
    + cbn [phase_ok]. rewrite calls_of_own. by eexists.
    + intros j ph Hne Hj. apply phase_ok_stored; [|done]. intros c2 s2 ->.
      by apply (Hno i j c2 s2).
    + destruct Hok as [Hall ->]. by apply (serial_call _ _ s).
  - rewrite <-(insert_id phs i _ Hph).
    apply (machine_ok_thread n s0 l pcs phs s hist i p p'); try done.
    inversion Hst; subst; try done; cbn; eauto.
  - rewrite <-(insert_id pcs i Outside) by done.
    by apply (machine_ok_thread n s0 l pcs phs s hist i Outside Outside).
Qed.

Lemma runs_ok n s0 m : Z.of_nat n < 2 ^ 64 → runs n s0 m → machine_ok n s0 m.
Proof using Type.
  intros Hn. induction 1 as [|m i m' Hr IH Hs]; [|by eapply machine_step_ok].
  split; cbn.
  - apply dom_gset_to_gmap.
  - apply dom_gset_to_gmap.
  - intros i p ph. rewrite !lookup_gset_to_gmap_Some. by intros [_ <-] [_ <-].
  - intros i ph. rewrite lookup_gset_to_gmap_Some. by intros [_ <-].
  - constructor.
Qed.

(** ** No deadlock *)

(** In an unlock there is always a next access, which is not where it was. *)
Lemma unlock_goes_on l p : inside p = true → ∃ l' p', thread_step l p l' p' ∧ p' ≠ p.
Proof using Type.
  destruct p as [| | | | | |current| |current]; try done; intros _.
  - exists l, UnlockServing. by split; [constructor|].
  - exists l, (UnlockNext (serving_ticket_ l)). by split; [constructor|].
  - destruct (decide (current = next_ticket_ l)).
    + exists l, Outside. by split; [constructor|].
    + exists l, UnlockLoad. by split; [constructor|].
  - exists l, (UnlockStore (serving_ticket_ l)). by split; [constructor|].
  - eexists _, Outside. by split; [constructor|].
Qed.

Lemma machine_pcs_ne l l' pcs pcs' phs phs' s s' hist hist' i p p' :
  pcs !! i = Some p → pcs' !! i = Some p' → p' ≠ p →
  Machine l' pcs' phs' s' hist' ≠ Machine l pcs phs s hist.
Proof using Type. intros Hp Hp' Hne E. injection E as -> -> -> -> ->. congruence. Qed.

Lemma machine_phases_ne l l' pcs pcs' phs phs' s s' hist hist' i ph ph' :
  phs !! i = Some ph → phs' !! i = Some ph' → ph' ≠ ph →
  Machine l' pcs' phs' s' hist' ≠ Machine l pcs phs s hist.
Proof using Type. intros Hp Hp' Hne E. injection E as -> -> -> -> ->. congruence. Qed.

(** A thread is in a body that does not end: it panics, say, and so the machine
    halts. *)
Definition in_failing_body (m : machine) : Prop :=
  ∃ i c, mc_phases m !! i = Some (Computing c (mc_state m)) ∧
    allowed (calls_of i (mc_history m)) c ∧ ∀ s' r, body c (mc_state m) ≠ Ok (s', r).

(** A thread inside the lock can go on, if its body ends. *)
Lemma inside_goes_on n s0 m i p :
  machine_ok n s0 m → mc_pcs m !! i = Some p → inside p = true →
  (∃ m', machine_step m i m' ∧ m' ≠ m) ∨ in_failing_body m.
Proof using Type.
  intros Hm Hp Hin.
  assert (is_Some (mc_phases m !! i)) as [ph Hph].
  { apply elem_of_dom. rewrite (mo_phases _ _ _ Hm), <-(mo_pcs _ _ _ Hm). apply elem_of_dom. by eexists. }
  destruct (machine_place _ _ _ _ _ Hm Hph) as (p0 & Hp0 & Hat & Hok).
  destruct m as [l pcs phs s hist]. cbn in *. assert (p0 = p) as -> by congruence.
  destruct ph as [|c|c s1|c r]; cbn in Hat, Hok.
  - by subst.
  - left. destruct Hat as [->|[[t ->]| ->]]; try done. eexists. split; [by eapply ms_read|].
    by eapply machine_phases_ne; [exact Hph|apply lookup_insert_eq|].
  - subst p. destruct Hok as [Hall ->].
    destruct (body c s) as [[s' r]| | | |] eqn:Hb;
      [left|right; exists i, c; cbn; (split_and!; [done|done|by rewrite Hb])..].
    eexists. split; [by eapply ms_store|].
    by eapply machine_phases_ne; [exact Hph|apply lookup_insert_eq|].
  - left. destruct (unlock_goes_on l p Hin) as (l' & p' & Hst & Hne).
    eexists. split; [by eapply ms_unlock|].
    by eapply machine_pcs_ne; [exact Hp|apply lookup_insert_eq|].
Qed.

(** While a call is on its way some thread can do more than spin, but for bodies
    that fail. *)
Lemma runs_progress n s0 m i ph :
  Z.of_nat n < 2 ^ 64 → runs n s0 m → mc_phases m !! i = Some ph → ph ≠ Idle →
  (∃ j m', machine_step m j m' ∧ m' ≠ m) ∨ in_failing_body m.
Proof using Type.
  intros Hn Hr Hph Hne. pose proof (runs_ok n s0 m Hn Hr) as Hm.
  destruct (reachable_queue n _ Hn (runs_reachable _ _ _ Hr)) as (q & Hq & _).
  destruct q as [|j q].
  - destruct (machine_place _ _ _ _ _ Hm Hph) as (p & Hp & Hat & Hok).
    assert (ticket_of (mc_lock m) p = None) as Ht.
    { destruct (ticket_of _ p) eqn:E; [|done].
      by pose proof (qr_queued _ _ Hq i p Hp (ex_intro _ _ E)) as Hin%elem_of_nil. }
    left. exists i. destruct m as [l pcs phs s hist]. cbn in *.
    destruct ph as [|c|c s1|c r]; cbn in Hat; [done| |by subst|].
    + destruct Hat as [->|[[t ->]| ->]]; try done. eexists.
      split; [eapply ms_lock; [done|done|by instantiate (1 := Waiting (next_ticket_ l))|by apply step_lock]|].
      by eapply machine_pcs_ne; [exact Hp|apply lookup_insert_eq|].
    + destruct Hat as [->|Hin]; [|by destruct p]. eexists. split; [by eapply ms_return|].
      by eapply machine_phases_ne; [exact Hph|apply lookup_insert_eq|].
  - destruct (qr_ticket _ _ Hq O j eq_refl) as (p & Hp & Ht). cbn in *.
    rewrite Z.add_0_r, u64_small in Ht by apply (qr_serving _ _ Hq).
    destruct (inside p) eqn:Hin.
    { destruct (inside_goes_on n s0 m j p Hm Hp Hin) as [[m' Hm']|]; [left|by right]. by exists j, m'. }
    left. exists j.
    destruct p as [| | |t| | | | |]; try done. injection Ht as ->.
    assert (is_Some (mc_phases m !! j)) as [phj Hphj].
    { apply elem_of_dom. rewrite (mo_phases _ _ _ Hm), <-(mo_pcs _ _ _ Hm). apply elem_of_dom. by eexists. }
    pose proof (mo_at _ _ _ Hm j _ _ Hp Hphj) as Hat. destruct m as [l pcs phs s hist]. cbn in *.
    destruct phj as [|c|c s1|c r]; cbn in Hat; [done| |done|by destruct Hat].
    eexists. split; [eapply ms_lock; [done|done| |by apply step_enter]; done|].
    by eapply machine_pcs_ne; [exact Hp|apply lookup_insert_eq|].
Qed.

Lemma runs_go_on n s0 m i ph :
  Z.of_nat n < 2 ^ 64 → runs n s0 m → mc_phases m !! i = Some ph → ph ≠ Idle →
  (∀ j c, allowed (calls_of j (mc_history m)) c → ∃ s' r, body c (mc_state m) = Ok (s', r)) →
  ∃ j m', machine_step m j m' ∧ m' ≠ m.
Proof using Type.
  intros Hn Hr Hph Hne Htot.
  destruct (runs_progress n s0 m i ph Hn Hr Hph Hne) as [|(j & c & _ & Hall & Hf)]; [done|].
  destruct (Htot j c Hall) as (s' & r & Hb). by destruct (Hf s' r).
Qed.
End serial.
