(* ===== verification/Shares.v ===== *)
(** * What threads hold

    Several threads that take things from a component and give them back: pointers
    with sizes, say.  What all hold together, split among them, and what each
    holds after its calls of a serial history. *)
From S2P Require Import Prelude Lock Serial.

Abbreviation shares := (gmap Z Z).

(** [L], split among the threads. *)
Record split_among (L : shares) (f : nat → shares) : Prop := SplitAmong {
  sa_part : ∀ i p n, f i !! p = Some n → L !! p = Some n;
  sa_apart : ∀ i j p, is_Some (f i !! p) → is_Some (f j !! p) → i = j;
  sa_all : ∀ p n, L !! p = Some n → ∃ i, f i !! p = Some n;
}.

(** Only thread [i]'s part changes. *)
Definition change (f : nat → shares) (i : nat) (L : shares) : nat → shares :=
  λ j, if decide (j = i) then L else f j.

Lemma change_eq f i L : change f i L i = L.
Proof. unfold change. by rewrite decide_True. Qed.
Lemma change_ne f i j L : j ≠ i → change f i L j = f j.
Proof. intros. unfold change. by rewrite decide_False. Qed.

Lemma split_insert L f i p n :
  split_among L f → L !! p = None → split_among (<[p := n]> L) (change f i (<[p := n]> (f i))).
Proof.
  intros [Hp Ha Hall] Hf. assert (∀ j, f j !! p = None) as Hfj.
  { intros j. destruct (f j !! p) eqn:E; [|done]. apply Hp in E. congruence. }
  assert (∀ j q k, change f i (<[p := n]> (f i)) j !! q = Some k ↔
    (q = p ∧ j = i ∧ n = k) ∨ (q ≠ p ∧ f j !! q = Some k)) as Hc.
  { intros j q k. destruct (decide (j = i)) as [->|].
    - rewrite change_eq, lookup_insert_Some. naive_solver.
    - rewrite change_ne by done. destruct (decide (q = p)) as [->|]; [rewrite Hfj|]; naive_solver. }
  split.
  - intros j q k. rewrite Hc, lookup_insert_Some. naive_solver.
  - intros j k q [x Hx] [y Hy]. rewrite Hc in Hx, Hy.
    destruct Hx as [(? & -> & _)|[? Hx]], Hy as [(? & -> & _)|[? Hy]]; try done.
    by apply (Ha j k q); eexists.
  - intros q k. rewrite lookup_insert_Some. intros [[<- <-]|[Hne Hq]].
    + exists i. rewrite Hc. by left.
    + destruct (Hall q k Hq) as [j Hj]. exists j. rewrite Hc. by right.
Qed.

Lemma split_delete L f i p :
  split_among L f → is_Some (f i !! p) → split_among (delete p L) (change f i (delete p (f i))).
Proof.
  intros [Hp Ha Hall] Hi.
  assert (∀ j q k, change f i (delete p (f i)) j !! q = Some k ↔ q ≠ p ∧ f j !! q = Some k) as Hc.
  { intros j q k. destruct (decide (j = i)) as [->|Hne].
    - rewrite change_eq, lookup_delete_Some. naive_solver.
    - rewrite change_ne by done. split; [|naive_solver]. intros Hq. split; [|done].
      intros ->. apply Hne, (Ha j i p); [by eexists|done]. }
  split.
  - intros j q k. rewrite Hc, lookup_delete_Some. naive_solver.
  - intros j k q [x Hx] [y Hy]. rewrite Hc in Hx, Hy. by apply (Ha j k q); eexists; [apply Hx|apply Hy].
  - intros q k [Hne Hq]%lookup_delete_Some. destruct (Hall q k Hq) as [j Hj]. exists j.
    rewrite Hc. done.
Qed.

Lemma split_ext L f g : (∀ j, f j = g j) → split_among L f → split_among L g.
Proof.
  intros E [Hp Ha Hall]. split.
  - intros j. rewrite <-E. apply Hp.
  - intros j k. rewrite <-(E j), <-(E k). apply Ha.
  - intros p n Hq. destruct (Hall p n Hq) as [j Hj]. exists j. by rewrite <-E.
Qed.

Lemma split_same L f i : split_among L f → split_among L (change f i (f i)).
Proof.
  apply split_ext. intros j. destruct (decide (j = i)) as [->|]; [by rewrite change_eq|].
  by rewrite change_ne.
Qed.

(** ** Histories *)

Section holdings.
Context {C R : Type} (after : shares → C * R → shares).

(** What a thread holds after its calls. *)
Definition holdings (calls : list (C * R)) : shares := foldl after ∅ calls.

Lemma holdings_snoc calls e : holdings (calls ++ [e]) = after (holdings calls) e.
Proof using Type. unfold holdings. by rewrite foldl_app. Qed.

(** A call changes the part of its thread. *)
Lemma holdings_step (hist : list (nat * C * R)) i c r j :
  holdings (calls_of j (hist ++ [(i, c, r)])) =
  change (λ j, holdings (calls_of j hist)) i (after (holdings (calls_of i hist)) (c, r)) j.
Proof using Type.
  destruct (decide (j = i)) as [->|].
  - by rewrite change_eq, calls_of_own, holdings_snoc.
  - by rewrite change_ne, calls_of_other.
Qed.

Lemma holdings_nil : split_among ∅ (λ i, holdings (calls_of i ([] : list (nat * C * R)))).
Proof using Type.
  split.
  - intros i p n. unfold holdings. simpl. by rewrite lookup_empty.
  - intros i j p [x Hx]. unfold holdings in Hx. simpl in Hx. by rewrite lookup_empty in Hx.
  - intros p n. by rewrite lookup_empty.
Qed.
End holdings.
