(* ===== verification/PhysThreads.v ===== *)
(** * Physical memory under several threads

    Calls of [physical_allocate] and [physical_free] from threads that share the
    allocator, with the accesses of [phys_lock] interleaved as in Serial.  A
    thread gives back the runs of pages that it was handed out itself. *)
From S2P Require Import Prelude Mem Lock Bitmap Addr Physical Frames Serial Shares.

(** ** Calls *)

(** The calls that take the lock; [physical_allocate(0)] and
    [physical_free(nullptr, ..)] return before it. *)
Inductive phys_call :=
  | PAllocate (count : Z)
  | PFree (ptr count : Z).

Section threads.
Context `{hh : Hhdm}.

(** What runs while the guard holds the lock. *)
Definition phys_body (c : phys_call) (s : phys) : outcome (phys * Z) :=
  match c with
  | PAllocate count => allocate_locked count s
  | PFree ptr count => s ← free_locked ptr count s; Ok (s, 0)
  end.

(** What a call leaves of the runs of pages held: their addresses and lengths. *)
Definition after_phys (L : shares) (e : phys_call * Z) : shares :=
  let '(c, r) := e in
  match c with
  | PAllocate count => <[r := count]> L
  | PFree ptr _ => delete ptr L
  end.

(** A thread allocates one page or more, and gives back whole runs that it holds. *)
Definition phys_allowed (calls : list (phys_call * Z)) (c : phys_call) : Prop :=
  match c with
  | PAllocate count => 0 < count < 2 ^ 64
  | PFree ptr count => holdings after_phys calls !! ptr = Some count
  end.

Abbreviation phys_threads := (runs phys_body phys_allowed).
Abbreviation phys_machine := (machine (S := phys) (C := phys_call) (R := Z)).

(** What thread [i] holds in a state. *)
Definition runs_of (i : nat) (m : phys_machine) : shares :=
  holdings after_phys (calls_of i (mc_history m)).

(** ** The invariant *)

(** The allocator as a body leaves it, its lock released. *)
Definition released (s : phys) : phys := set_lock (mutex_unlock (phys_lock s)) s.

Lemma released_body s : set_lock (phys_lock s) (released s) = s.
Proof using Type. by destruct s. Qed.

(** How many pages are held. *)
Definition total (L : shares) : Z := map_fold (λ _ n acc, n + acc) 0 L.

Lemma total_insert L p n : L !! p = None → total (<[p := n]> L) = n + total L.
Proof using Type. intros Hp. unfold total. rewrite map_fold_insert_L; [done|intros; lia|done]. Qed.

Lemma total_delete L p n : L !! p = Some n → total (delete p L) = total L - n.
Proof using Type.
  intros Hp. pose proof (total_insert (delete p L) p n (lookup_delete_eq _ _)) as H.
  rewrite insert_delete_id in H by done. lia.
Qed.

Lemma total_nonneg L : (∀ p n, L !! p = Some n → 0 < n) → 0 ≤ total L.
Proof using Type.
  induction L as [|p n L Hp IH] using map_ind; intros Hpos; [done|].
  rewrite total_insert by done. assert (0 ≤ total L).
  { apply IH. intros q k Hq. apply (Hpos q). rewrite lookup_insert_ne; [done|congruence]. }
  specialize (Hpos p n). rewrite lookup_insert_eq in Hpos. specialize (Hpos eq_refl). lia.
Qed.

(** The run of [n] pages at address [p] is in use and can be given back. *)
Record run_held (s : phys) (p n : Z) : Prop := RunHeld {
  rh_aligned : p mod PAGE_SIZE = 0;
  rh_pos : 0 < p ∧ 0 < n;
  rh_used : pages (p / PAGE_SIZE) n ## pool_free (pool_of s);
  rh_pages : ∀ i, p / PAGE_SIZE ≤ i < p / PAGE_SIZE + n →
    page_ok (phys_mem s) (phys_bitmap s) (page_limit s) i;
}.

Record runs_held (s : phys) (L : shares) : Prop := RunsHeld {
  rn_lock : lock_held (phys_lock s);
  rn_ok : phys_ok (released s);
  rn_run : ∀ p n, L !! p = Some n → run_held s p n;
  rn_apart : ∀ p q n k, L !! p = Some n → L !! q = Some k → p ≠ q →
    p + n * PAGE_SIZE ≤ q ∨ q + k * PAGE_SIZE ≤ p;
  rn_total : total L ≤ used_pages (phys_stats s);
}.

Lemma runs_held_start s l : phys_ok s → lock_held l → runs_held (set_lock l s) ∅.
Proof using Type.
  intros Hok Hl. pose proof Hok as []. split.
  - done.
  - unfold released. simpl. destruct Hok. split; try done. by apply mutex_unlock_held.
  - intros p n. by rewrite lookup_empty.
  - intros p q n k. by rewrite lookup_empty.
  - unfold total. rewrite map_fold_empty. simpl. lia.
Qed.

(** ** One call *)

(** A run stays held while pages outside it change hands. *)
Lemma run_held_mono s s' p n :
  (∀ x, is_Some (phys_mem s !! x) → is_Some (phys_mem s' !! x)) →
  phys_bitmap s' = phys_bitmap s → page_limit s' = page_limit s →
  pages (p / PAGE_SIZE) n ## pool_free (pool_of s') → run_held s p n → run_held s' p n.
Proof using Type.
  intros Hd Hb Hlim Hfree []. split; [done|done|done|]. intros i Hi. rewrite Hb, Hlim.
  eapply page_ok_mono; [exact Hd|]. by apply rh_pages0.
Qed.

(** Runs without a common page are apart. *)
Lemma runs_apart p q n k :
  p mod PAGE_SIZE = 0 → q mod PAGE_SIZE = 0 → 0 < n → 0 < k →
  pages (p / PAGE_SIZE) n ## pages (q / PAGE_SIZE) k →
  p + n * PAGE_SIZE ≤ q ∨ q + k * PAGE_SIZE ≤ p.
Proof using Type.
  intros Hp Hq Hn Hk Hd. set (a := p / PAGE_SIZE) in *. set (b := q / PAGE_SIZE) in *.
  assert (a + n ≤ b ∨ b + k ≤ a) as Hab.
  { destruct (decide (a + n ≤ b)); [by left|]. destruct (decide (b + k ≤ a)); [by right|].
    exfalso. apply (Hd (Z.max a b)); apply elem_of_pages; lia. }
  unfold a, b, PAGE_SIZE in *. clear Hd. dlia.
Qed.

Lemma runs_held_insert s s' L p n :
  runs_held s L → 0 < n → pages p n ⊆ pool_free (pool_of s) → phys_lock s' = phys_lock s →
  allocated (released s) p n (released s') →
  L !! (p * PAGE_SIZE) = None ∧ runs_held s' (<[p * PAGE_SIZE := n]> L).
Proof using Type.
  intros [Hl Hok Hrun Hap Htot] Hn Hsub Hlk [Hok' Hpool Hused Hbm Hzero Hmap Hby Hext].
  assert (∀ q k, L !! q = Some k → pages (q / PAGE_SIZE) k ## pages p n) as Hnew.
  { intros q k Hq i Hi Hip. by apply (rh_used _ _ _ (Hrun q k Hq) i Hi), Hsub. }
  assert (p * PAGE_SIZE / PAGE_SIZE = p) as Ep by (unfold PAGE_SIZE; dlia).
  assert ((p * PAGE_SIZE) mod PAGE_SIZE = 0) as Em by (unfold PAGE_SIZE; dlia).
  assert (page_limit s' = page_limit s) as Hlim by apply (f_equal pool_limit Hpool).
  assert (pool_free (pool_of s') = pool_free (pool_of s) ∖ pages p n) as Hfree
    by apply (f_equal pool_free Hpool).
  assert (∀ i, p ≤ i < p + n → page_ok (phys_mem s) (phys_bitmap s) (page_limit s) i) as Hpg.
  { intros i Hi. apply (ph_pages _ Hok), Hsub, elem_of_pages. done. }
  assert (L !! (p * PAGE_SIZE) = None) as Hno.
  { destruct (L !! (p * PAGE_SIZE)) as [k|] eqn:E; [|done]. exfalso.
    destruct (rh_pos _ _ _ (Hrun _ _ E)) as [_ Hk]. specialize (Hnew _ _ E). rewrite Ep in Hnew.
    apply (Hnew p); apply elem_of_pages; lia. }
  assert (run_held s' (p * PAGE_SIZE) n) as Hheld.
  { destruct (pg_range _ _ _ _ (Hpg p ltac:(lia))) as [? _].
    split; rewrite ?Ep; [done|unfold PAGE_SIZE; lia|rewrite Hfree; set_solver|].
    intros i Hi. change (phys_bitmap s') with (phys_bitmap (released s')). rewrite Hbm, Hlim.
    eapply page_ok_mono; [exact Hmap|]. by apply Hpg. }
  assert (∀ q k, L !! q = Some k → run_held s' q k) as Hold.
  { intros q k Hq. apply (run_held_mono s s'); [exact Hmap|exact Hbm|done| |by apply Hrun].
    rewrite Hfree. pose proof (rh_used _ _ _ (Hrun q k Hq)). set_solver. }
  split; [done|]. split.
  - by rewrite Hlk.
  - done.
  - intros q k [[<- <-]|[_ Hq]]%lookup_insert_Some; [done|by apply Hold].
  - assert (∀ q k, L !! q = Some k → p * PAGE_SIZE + n * PAGE_SIZE ≤ q ∨ q + k * PAGE_SIZE ≤ p * PAGE_SIZE)
      as Hpq.
    { intros q k Hq. destruct (Hrun q k Hq) as [Hqa [_ Hqn] _ _].
      apply runs_apart; [done|done|done|done|]. rewrite Ep. symmetry. by apply Hnew. }
    intros q1 q2 n1 n2. rewrite !lookup_insert_Some.
    intros [[<- <-]|[_ H1]] [[<- <-]|[_ H2]] Hne; [done|by apply Hpq| |by apply Hap].
    pose proof (Hpq _ _ H1). tauto.
  - rewrite total_insert by done. change (phys_stats s') with (phys_stats (released s')).
    rewrite Hused. change (phys_stats (released s)) with (phys_stats s). lia.
Qed.

Lemma runs_disjoint p q n k :
  p mod PAGE_SIZE = 0 → q mod PAGE_SIZE = 0 →
  p + n * PAGE_SIZE ≤ q ∨ q + k * PAGE_SIZE ≤ p →
  pages (p / PAGE_SIZE) n ## pages (q / PAGE_SIZE) k.
Proof using Type.
  intros Hp Hq Hd i Hi%elem_of_pages Hj%elem_of_pages. unfold PAGE_SIZE in *. dlia.
Qed.

Lemma total_bound s L p n : runs_held s L → L !! p = Some n → n ≤ total L.
Proof using Type.
  intros Hr Hp. pose proof (total_delete L p n Hp).
  assert (0 ≤ total (delete p L)); [|lia]. apply total_nonneg.
  intros q k [_ Hq]%lookup_delete_Some. apply (rn_run _ _ Hr q k Hq).
Qed.

Lemma runs_held_delete s s' L p n :
  runs_held s L → L !! p = Some n → phys_lock s' = phys_lock s →
  given_back (released s) (p / PAGE_SIZE) n (released s') → runs_held s' (delete p L).
Proof using Type.
  intros Hr Hp Hlk [Hok' Hpool Hbm [_ [Hmap _]] Hst]. pose proof (total_bound s L p n Hr Hp) as Hn.
  destruct (Hr) as [Hl Hok Hrun Hap Htot].
  assert (page_limit s' = page_limit s) as Hlim by apply (f_equal pool_limit Hpool).
  assert (pool_free (pool_of s') = pool_free (pool_of s) ∪ pages (p / PAGE_SIZE) n) as Hfree
    by apply (f_equal pool_free Hpool).
  split.
  - by rewrite Hlk.
  - done.
  - intros q k [Hne Hq]%lookup_delete_Some. pose proof (Hrun q k Hq) as Hqr.
    apply (run_held_mono s s'); [exact Hmap|exact Hbm|done| |done].
    rewrite Hfree. pose proof (rh_used _ _ _ Hqr).
    assert (pages (q / PAGE_SIZE) k ## pages (p / PAGE_SIZE) n); [|set_solver].
    apply runs_disjoint; [apply Hqr|by apply (Hrun p n)|]. apply Hap; [done|done|congruence].
  - intros q1 q2 n1 n2 [_ H1]%lookup_delete_Some [_ H2]%lookup_delete_Some. by apply Hap.
  - rewrite (total_delete L p n) by done. change (phys_stats s') with (phys_stats (released s')).
    rewrite Hst. change (phys_stats (released s)) with (phys_stats s). unfold count_used.
    cbn [used_pages]. pose proof (ph_used _ Hok) as (? & ? & ?). change (phys_stats (released s))
      with (phys_stats s) in *.
    pose proof (ph_free _ Hok). change (phys_stats (released s)) with (phys_stats s) in *.
    destruct (rh_pos _ _ _ (Hrun p n Hp)). rewrite u64_small by lia. lia.
Qed.

(** What the calls need of what all hold. *)
Definition phys_pre (L : shares) (c : phys_call) : Prop :=
  match c with
  | PAllocate count => 0 < count < 2 ^ 64
  | PFree ptr count => L !! ptr = Some count
  end.

(** A body fails only for want of a free run of pages. *)
Definition no_run (c : phys_call) (s : phys) : Prop :=
  ∃ count, c = PAllocate count ∧ pool_find count (pool_of s) = None.

Lemma phys_body_cases s L c :
  runs_held s L → phys_pre L c →
  no_run c s ∧ phys_body c s = Panic ∨
  ∃ s' r, phys_body c s = Ok (s', r) ∧ runs_held s' (after_phys L (c, r)) ∧
    (∀ count, c = PAllocate count → L !! r = None).
Proof using Type.
  intros Hr Hpre. destruct (Hr) as [Hl Hok Hrun _ Htot].
  destruct c as [count|ptr count]; cbn [phys_pre phys_body after_phys] in *;
    rewrite <-(released_body s).
  - destruct (pool_find count (pool_of s)) as [p|] eqn:Hf; [right|left].
    + destruct (returns_inv (allocate_locked count (set_lock (phys_lock s) (released s)))
        (λ '(s', r), r = p * PAGE_SIZE ∧ phys_lock s' = phys_lock s ∧
           allocated (released s) p count (set_lock (mutex_unlock (phys_lock s)) s')))
        as ([s' r] & -> & -> & Hlk & Hal).
      { apply (allocate_locked_returns (released s) (phys_lock s) count _ p); [done..|].
        intros s' Hlk Hal. by split_and!. }
      rewrite <-Hlk in Hal. change (set_lock (mutex_unlock (phys_lock s')) s') with (released s') in Hal.
      destruct (runs_held_insert s s' L p count Hr ltac:(lia) (pool_find_run _ _ _ Hf) Hlk Hal) as [Hno Hr'].
      exists s', (p * PAGE_SIZE). split_and!; [done|done|]. by intros ? _.
    + split; [by exists count|]. by apply allocate_locked_panics.
  - right. destruct (Hrun ptr count Hpre) as [Hal [Hp Hc] Hus Hpg].
    assert (ptr / PAGE_SIZE * PAGE_SIZE = ptr) as E by (unfold PAGE_SIZE in *; dlia).
    pose proof (total_bound s L ptr count Hr Hpre).
    destruct (returns_inv (free_locked ptr count (set_lock (phys_lock s) (released s)))
      (λ s', phys_lock s' = phys_lock s ∧
         given_back (released s) (ptr / PAGE_SIZE) count (set_lock (mutex_unlock (phys_lock s)) s')))
      as (s' & -> & Hlk & Hgb).
    { rewrite <-E at 1. apply (free_locked_returns (released s) (phys_lock s)); [done|done|split; [lia|]|done|done|].
      - change (phys_stats (released s)) with (phys_stats s). lia.
      - intros s' Hlk Hgb. by split. }
    rewrite bind_ok. exists s', 0. split_and!; [done| |done].
    rewrite <-Hlk in Hgb. by apply (runs_held_delete s s' L ptr count).
Qed.

(** ** Serial runs *)

Lemma phys_allowed_pre L f i calls c :
  split_among L f → f i = holdings after_phys calls → phys_allowed calls c → phys_pre L c.
Proof using Type.
  intros Hs E. destruct c as [count|ptr count]; cbn [phys_allowed phys_pre]; [done|].
  rewrite <-E. apply Hs.
Qed.

Lemma split_phys L f i calls c r :
  split_among L f → f i = holdings after_phys calls → phys_allowed calls c →
  (∀ count, c = PAllocate count → L !! r = None) →
  split_among (after_phys L (c, r)) (change f i (after_phys (f i) (c, r))).
Proof using Type.
  intros Hs E Hall Hr. destruct c as [count|ptr count]; cbn [after_phys phys_allowed] in *.
  - apply split_insert; [done|]. by apply (Hr count).
  - apply split_delete; [done|]. rewrite E. by exists count.
Qed.

Lemma serial_phys s0 l hist s :
  phys_ok s0 → lock_held l → serial phys_body phys_allowed (set_lock l s0) hist s →
  ∃ L, runs_held s L ∧ split_among L (λ i, holdings after_phys (calls_of i hist)).
Proof using Type.
  intros Hok Hl. induction 1 as [|hist s i c s' r Hse (L & Hr & Hs) Hall Hb].
  - exists ∅. split; [by apply runs_held_start|apply holdings_nil].
  - pose proof (phys_allowed_pre L _ i _ c Hs eq_refl Hall) as Hpre.
    destruct (phys_body_cases s L c Hr Hpre) as [[_ E]|(s1 & r1 & E & Hr1 & Hno)]; [congruence|].
    rewrite E in Hb. injection Hb as -> ->. exists (after_phys L (c, r)). split; [done|].
    eapply split_ext; [intros j; symmetry; apply holdings_step|].
    by apply (split_phys L (λ j, holdings after_phys (calls_of j hist)) i (calls_of i hist)).
Qed.
End threads.

(** * Properties *)

(** C4. Physical memory is safe for threads.  Threads that call [physical_allocate]
    and [physical_free], with every access of [phys_lock] interleaved and each
    body reading the allocator in one step and storing its result in a later one,
    leave the allocator well-formed between bodies; the runs of pages they hold
    are in use, and no two of them, of different threads or of one, have a page in
    common; and as long as a call is on its way some thread can do more than spin,
    unless one is about to panic because no run of free pages fits its request. *)
Theorem phys_threads_safe `{hh : Hhdm} n s0 l (m : machine) :
  Z.of_nat n < 2 ^ 64 → phys_ok s0 → lock_held l →
  runs phys_body phys_allowed n (set_lock l s0) m →
  phys_ok (released (mc_state m)) ∧
  (∀ i p k, runs_of i m !! p = Some k → run_held (mc_state m) p k) ∧
  (∀ i j p q k k', runs_of i m !! p = Some k → runs_of j m !! q = Some k' → (i, p) ≠ (j, q) →
     p + k * PAGE_SIZE ≤ q ∨ q + k' * PAGE_SIZE ≤ p) ∧
  (∀ i ph, mc_phases m !! i = Some ph → ph ≠ Idle →
     (∃ j m', machine_step phys_body phys_allowed m j m' ∧ m' ≠ m) ∨
     ∃ j c, mc_phases m !! j = Some (Computing c (mc_state m)) ∧ no_run c (mc_state m) ∧
       phys_body c (mc_state m) = Panic).
Proof.
  intros Hn Hok Hl Hr. pose proof (runs_ok _ _ n _ m Hn Hr) as Hm.
  destruct (serial_phys s0 l _ _ Hok Hl (mo_serial _ _ _ _ _ Hm)) as (L & Hrel & Hs).
  split_and!.
  - apply Hrel.
  - intros i p k Hp. apply (rn_run _ _ Hrel). by apply (sa_part _ _ Hs i).
  - intros i j p q k k' Hp Hq Hne. apply (rn_apart _ _ Hrel);
      [by apply (sa_part _ _ Hs i)|by apply (sa_part _ _ Hs j)|]. intros ->. apply Hne.
    f_equal. by apply (sa_apart _ _ Hs i j q); eexists.
  - intros i ph Hph Hne.
    destruct (runs_progress _ _ n _ m i ph Hn Hr Hph Hne) as [|(j & c & Hj & Hall & Hf)]; [by left|].
    right. exists j, c. split; [done|].
    pose proof (phys_allowed_pre L _ j _ c Hs eq_refl Hall) as Hpre.
    by destruct (phys_body_cases _ L c Hrel Hpre) as [?|(s' & r & E & _)]; [|destruct (Hf s' r)].
Qed.

(** Two threads on the eight pages of Physical's example, one of which asks for two
    of them. *)
Lemma phys_threads_safe_witness :
  let l := {| next_ticket_ := 1; serving_ticket_ := 0 |} in
  ∃ m : machine, runs (phys_body (hh := sample_hhdm)) phys_allowed 2 (set_lock l sample_phys) m ∧
    mc_phases m !! 1%nat = Some (Called (PAllocate 2)) ∧
    phys_ok (H := sample_hhdm) (released (mc_state m)).
Proof.
  intros l.
  assert (∃ m : machine, runs (phys_body (hh := sample_hhdm)) phys_allowed 2 (set_lock l sample_phys) m ∧
    mc_phases m !! 1%nat = Some (Called (PAllocate 2))) as (m & Hr & Hph).
  { eexists. split.
    - eapply runs_step; [apply runs_init|]. apply (ms_call _ _ _ _ _ _ _ 1%nat (PAllocate 2)).
      + by vm_compute.
      + simpl. lia.
    - by vm_compute. }
  exists m. split; [exact Hr|]. split; [exact Hph|].
  refine (proj1 (phys_threads_safe (hh := sample_hhdm) 2 sample_phys l m _ _ _ Hr)).
  - lia.
  - exact sample_phys_ok.
  - split; [reflexivity|simpl; lia].
Defined.
