(* ===== verification/HeapThreads.v ===== *)
(** * The heap under several threads

    Calls of [heap.cpp] from threads that share the heap, with the lock's accesses
    interleaved as in Serial.  A client gives back what it was handed out itself. *)
From S2P Require Import Prelude Mem MemCopy MemSet Lock Addr Physical Frames Paging PagingMap Virtual.
From S2P Require Import Bitmap BuddyBits BuddyPos BuddyTree BuddyRep BuddyNodes BuddyAlloc.
From S2P Require Import Buddy BuddyInv BuddyMalloc BuddyInit BuddyData BuddySamples Heap Serial Shares.

(** ** Calls *)

(** The calls of the heap that take its lock; those of size zero or for a null
    pointer return before it. *)
Inductive heap_call :=
  | CMalloc (size : Z)
  | CCalloc (nmemb size : Z)
  | CRealloc (ptr size : Z)
  | CFree (ptr : Z).

(** What runs while the guard holds the lock, in the memory the threads share. *)
Definition heap_body (b : Z) (c : heap_call) (m : mem) : outcome (mem * Z) :=
  match c with
  | CMalloc size => buddy_malloc m b size
  | CCalloc nmemb size => buddy_calloc m b nmemb size
  | CRealloc ptr size => buddy_realloc m b ptr size false
  | CFree ptr => m ← buddy_free m b ptr; Ok (m, NULL)
  end.

(** What a call leaves of allocations. *)
Definition after_call (L : allocations) (e : heap_call * Z) : allocations :=
  let '(c, r) := e in
  match c with
  | CMalloc n => hand_out r n L
  | CCalloc n s => hand_out r (n * s) L
  | CRealloc p n => if r =? NULL then L else <[r := n]> (delete p L)
  | CFree p => delete p L
  end.

(** What a thread holds after its calls. *)
Abbreviation held := (holdings after_call).

(** The calls a client may make: sizes are 64-bit words, and it resizes and frees
    what it holds. *)
Definition heap_allowed (calls : list (heap_call * Z)) (c : heap_call) : Prop :=
  match c with
  | CMalloc n => 0 < n < 2 ^ 64
  | CCalloc n s => 0 < n < 2 ^ 64 ∧ 0 < s < 2 ^ 64
  | CRealloc p n => is_Some (held calls !! p) ∧ 0 < n < 2 ^ 64
  | CFree p => is_Some (held calls !! p)
  end.

Abbreviation heap_threads b := (runs (heap_body b) heap_allowed).
Abbreviation heap_machine := (machine (S := mem) (C := heap_call) (R := Z)).

(** What thread [i] holds in a state. *)
Definition holds_of (i : nat) (m : heap_machine) : allocations := held (calls_of i (mc_history m)).

(** * Lemmas *)

(** ** Calls as operations of the sequential heap *)

Definition call_op (c : heap_call) : heap_op :=
  match c with
  | CMalloc n => Malloc n
  | CCalloc n s => Calloc n s
  | CRealloc p n => Realloc p n
  | CFree p => Free p
  end.

(** What has to hold of the allocations for a call. *)
Definition call_pre (L : allocations) (c : heap_call) : Prop :=
  match c with
  | CMalloc n => 0 < n < 2 ^ 64
  | CCalloc n s => 0 < n < 2 ^ 64 ∧ 0 < s < 2 ^ 64
  | CRealloc p n => is_Some (L !! p) ∧ 0 < n < 2 ^ 64
  | CFree p => is_Some (L !! p)
  end.

Lemma guarded_body {R} (call : mem → Z → outcome (mem * R)) h m x :
  lock_free (heap_lock h) → call (heap_mem h) (heap_buddy h) = Ok (m, x) →
  ∃ l, guarded call h = Ok ({| heap_mem := m; heap_arena := heap_arena h;
    heap_buddy := heap_buddy h; heap_lock := l |}, x).
Proof.
  intros Hl Hc. destruct (mutex_lock_free _ Hl) as (l & Hlk & Hheld). unfold guarded.
  rewrite Hlk, bind_ok, Hc, bind_ok. by eexists.
Qed.

Lemma call_step c h L m r :
  lock_free (heap_lock h) → (∀ p n, L !! p = Some n → p ≠ NULL) → call_pre L c →
  heap_body (heap_buddy h) c (heap_mem h) = Ok (m, r) →
  ∃ h', heap_step (h, L) (call_op c) (h', after_call L (c, r)) ∧ heap_mem h' = m ∧
    heap_buddy h' = heap_buddy h.
Proof.
  intros Hl Hnn Hpre Hb. destruct c as [n|n s|p n|p]; cbn [call_op after_call call_pre heap_body] in *.
  - destruct (guarded_body (λ m b, buddy_malloc m b n) _ _ _ Hl Hb) as (l & E).
    exists (Heap m (heap_arena h) (heap_buddy h) l). split; [|done]. apply step_malloc; [lia|].
    unfold heap_malloc. rewrite (proj2 (Z.eqb_neq n 0)) by lia. exact E.
  - destruct (guarded_body (λ m b, buddy_calloc m b n s) _ _ _ Hl Hb) as (l & E).
    exists (Heap m (heap_arena h) (heap_buddy h) l). split; [|done]. apply step_calloc; [lia|lia|].
    unfold heap_calloc. rewrite (proj2 (Z.eqb_neq s 0)), (proj2 (Z.eqb_neq n 0)) by lia. exact E.
  - destruct Hpre as [[k Hk] Hn].
    destruct (guarded_body (λ m b, buddy_realloc m b p n false) _ _ _ Hl Hb) as (l & E).
    exists (Heap m (heap_arena h) (heap_buddy h) l). split; [|done].
    eapply step_realloc; [exact Hk|lia|].
    unfold heap_realloc. rewrite (proj2 (Z.eqb_neq p NULL)), (proj2 (Z.eqb_neq n 0)) by (lia || by eapply Hnn).
    exact E.
  - destruct Hpre as [k Hk]. destruct (buddy_free _ _ p) as [m'| | | |] eqn:E; try done.
    rewrite bind_ok in Hb. injection Hb as -> <-.
    destruct (guarded_body (λ m b, m ← buddy_free m b p; Ok (m, tt)) h m tt Hl) as (l & Eg).
    { by rewrite E. }
    exists (Heap m (heap_arena h) (heap_buddy h) l). split; [|done]. eapply step_free; [exact Hk|].
    unfold heap_free. rewrite (proj2 (Z.eqb_neq p NULL)) by by eapply Hnn. by rewrite Eg.
Qed.

(** ** New allocations *)

(** The invariant does not say which of two sizes that fit an allocation has. *)
Lemma heap_rel_resize r h L q k k' :
  heap_rel r (h, L) → L !! q = Some k → 0 ≤ k' ≤ 1 → heap_rel r (h, <[q := k']> L).
Proof.
  intros (B & Hok & HL) Hq Hk'. destruct (Hok) as [[V Hinv] _ _ _]. exists B. split; [done|].
  cbn [snd] in *. split.
  - intros p n [[<- <-]|[_ Hp]]%lookup_insert_Some; [|by apply HL].
    destruct (al_block _ _ _ HL q k Hq) as (a & Ha & -> & _). exists a.
    pose proof (in_use_arena Hinv a Ha). split_and!; [done|done|lia|lia].
  - intros a Ha. rewrite lookup_insert_is_Some'. right. by apply HL.
Qed.

(** So what an operation hands out was not allocated: the operation would do the
    same if it had another size. *)
Lemma call_fresh rr h L c m r :
  heap_rel rr (h, L) → call_pre L c → heap_body (heap_buddy h) c (heap_mem h) = Ok (m, r) →
  r ≠ NULL → touched (call_op c) = Some r ∨ L !! r = None.
Proof.
  intros Hrel Hpre Hb Hr. destruct (decide (touched (call_op c) = Some r)) as [|Ht]; [by left|].
  right. destruct (L !! r) as [k|] eqn:Hk; [exfalso|done].
  set (k' := if k =? 0 then 1 else 0).
  assert (k' ≠ k) as Hne by (unfold k'; destruct (Z.eqb_spec k 0); lia).
  assert (heap_rel rr (h, <[r := k']> L)) as Hrel2.
  { apply (heap_rel_resize rr h L r k); [done|done|]. unfold k'. destruct (k =? 0); lia. }
  assert (call_pre (<[r := k']> L) c) as Hpre2.
  { destruct c; cbn [call_pre] in *; rewrite ?lookup_insert_is_Some'; tauto. }
  assert (∀ L1, heap_rel rr (h, L1) → call_pre L1 c → is_Some (L1 !! r) →
    after_call L1 (c, r) !! r = L1 !! r) as Hkeep.
  { intros L1 Hrel1 Hpre1 [k1 Hk1].
    destruct (call_step c h L1 m r) as (h' & Hs & _); [|by intros p n; eapply heap_rel_arena|done|done|].
    { by destruct Hrel1 as (B & [] & _). }
    destruct (heap_step_ok Hrel1 _ _ Hs) as [_ Hkept].
    destruct (Hkept r k1 Hk1 Ht) as [E _]. cbn [snd] in E. congruence. }
  pose proof (Hkeep L Hrel Hpre ltac:(by eexists)) as E1.
  pose proof (Hkeep _ Hrel2 Hpre2 ltac:(rewrite lookup_insert_eq; by eexists)) as E2.
  rewrite Hk in E1. rewrite lookup_insert_eq in E2.
  destruct c as [n|n s|p n|p]; cbn [after_call touched call_op] in *; unfold hand_out in *;
    rewrite ?(proj2 (Z.eqb_neq r NULL)) in * by done; try (rewrite lookup_insert_eq in *; congruence).
  cbn [heap_body] in Hb. destruct (buddy_free _ _ p); try done. rewrite bind_ok in Hb. by injection Hb.
Qed.

(** ** Who holds what *)

Lemma split_hand_out L f i p n :
  split_among L f → (p ≠ NULL → L !! p = None) →
  split_among (hand_out p n L) (change f i (hand_out p n (f i))).
Proof.
  intros Hs Hf. unfold hand_out. destruct (Z.eqb_spec p NULL); [by apply split_same|].
  by apply split_insert; auto.
Qed.

Lemma split_call L f i c r :
  split_among L f → call_pre (f i) c → (r ≠ NULL → touched (call_op c) = Some r ∨ L !! r = None) →
  split_among (after_call L (c, r)) (change f i (after_call (f i) (c, r))).
Proof.
  intros Hs Hpre Hr. destruct c as [n|n s|p n|p]; cbn [after_call touched call_op call_pre] in *.
  - apply split_hand_out; [done|]. intros H. by destruct (Hr H).
  - apply split_hand_out; [done|]. intros H. by destruct (Hr H).
  - destruct (Z.eqb_spec r NULL) as [|Hn]; [by apply split_same|]. destruct Hpre as [Hp _].
    pose proof (split_delete L f i p Hs Hp) as Hd.
    pose proof (split_insert _ _ i r n Hd) as Hi. rewrite change_eq in Hi.
    eapply split_ext; [|apply Hi].
    + intros j. destruct (decide (j = i)) as [->|]; [by rewrite !change_eq|]. by rewrite !change_ne.
    + destruct (Hr Hn) as [[= <-]|HL]; [by rewrite lookup_delete_eq|].
      by apply lookup_delete_None; right.
  - by apply split_delete.
Qed.

(** ** Serial runs *)

Lemma held_pre L f i calls c :
  split_among L f → f i = held calls → heap_allowed calls c → call_pre (f i) c ∧ call_pre L c.
Proof.
  intros Hs E. assert (∀ p, is_Some (held calls !! p) → is_Some (L !! p)) as H.
  { intros p [n Hn]. rewrite <-E in Hn. exists n. by apply Hs in Hn. }
  rewrite E. destruct c; cbn [heap_allowed call_pre]; naive_solver.
Qed.

(** What is known after a serial run: it is one of the sequential heap, whose
    allocations are those of the threads. *)
Record serial_heap (rr : arena) (h0 : heap) (hist : list (nat * heap_call * Z)) (m : mem) (h : heap)
    (L : allocations) : Prop := SerialHeap {
  sh_run : heap_run (h0, ∅) (h, L);
  sh_mem : heap_mem h = m;
  sh_buddy : heap_buddy h = heap_buddy h0;
  sh_rel : heap_rel rr (h, L);
  sh_split : split_among L (λ i, held (calls_of i hist));
}.

Lemma serial_call_heap rr h0 hist m h L i c m' r :
  serial_heap rr h0 hist m h L → heap_allowed (calls_of i hist) c →
  heap_body (heap_buddy h0) c m = Ok (m', r) →
  ∃ h', serial_heap rr h0 (hist ++ [(i, c, r)]) m' h' (after_call L (c, r)).
Proof.
  intros [Hrun Hm Hbu Hrel Hs] Hall Hb.
  destruct (held_pre _ _ i _ _ Hs eq_refl Hall) as [Hpi HpL]. rewrite <-Hm, <-Hbu in Hb.
  destruct (call_step c h L m' r) as (h' & Hst & Hm' & Hbu'); [|by intros p n; eapply heap_rel_arena|done..|].
  { by destruct Hrel as (B & [] & _). }
  exists h'. split.
  - by eapply run_step.
  - done.
  - congruence.
  - by apply (heap_step_ok Hrel _ _ Hst).
  - eapply split_ext; [intros j; symmetry; apply holdings_step|].
    apply (split_call L (λ j, held (calls_of j hist)) i); [done|done|].
    by apply (call_fresh rr h L c m').
Qed.

Lemma serial_heap_run rr h0 hist m :
  heap_rel rr (h0, ∅) →
  serial (heap_body (heap_buddy h0)) heap_allowed (heap_mem h0) hist m →
  ∃ h L, serial_heap rr h0 hist m h L.
Proof.
  intros Hrel. induction 1 as [|hist m i c m' r Hse (h & L & IH) Hall Hb].
  - exists h0, ∅. split; [constructor|done|done|done|apply holdings_nil].
  - destruct (serial_call_heap _ _ _ _ _ _ _ _ _ _ IH Hall Hb) as [h' Hh']. by eexists _, _.
Qed.

(** Bodies of allowed calls end. *)
Lemma guarded_inv {R} (call : mem → Z → outcome (mem * R)) h (Q : heap * R → Prop) :
  returns (guarded call h) Q → ∃ m x, call (heap_mem h) (heap_buddy h) = Ok (m, x).
Proof.
  unfold guarded. destruct (mutex_lock (heap_lock h)); [|done..]. rewrite bind_ok.
  destruct (call (heap_mem h) (heap_buddy h)) as [[m x]| | | |]; [|done..]. by eexists _, _.
Qed.

Lemma body_total rr h L c :
  heap_rel rr (h, L) → call_pre L c →
  ∃ m r, heap_body (heap_buddy h) c (heap_mem h) = Ok (m, r).
Proof.
  intros Hrel Hpre.
  assert (∀ p n, L !! p = Some n → (p =? NULL) = false) as Hnn.
  { intros p n Hp. apply Z.eqb_neq. by eapply heap_rel_arena. }
  destruct c as [n|n s|p n|p]; cbn [call_pre heap_body] in *.
  - pose proof (heap_malloc_returns Hrel n ltac:(lia)) as H. unfold heap_malloc in H.
    rewrite (proj2 (Z.eqb_neq n 0)) in H by lia. by apply guarded_inv in H.
  - pose proof (heap_calloc_returns Hrel n s ltac:(lia) ltac:(lia)) as H. unfold heap_calloc in H.
    rewrite (proj2 (Z.eqb_neq n 0)), (proj2 (Z.eqb_neq s 0)) in H by lia. by apply guarded_inv in H.
  - destruct Hpre as [[k Hk] Hn].
    pose proof (heap_realloc_returns Hrel p k n Hk ltac:(lia)) as H. unfold heap_realloc in H.
    rewrite (Hnn p k Hk), (proj2 (Z.eqb_neq n 0)) in H by lia. by apply guarded_inv in H.
  - destruct Hpre as [k Hk]. pose proof (heap_free_returns Hrel p k Hk) as H. unfold heap_free in H.
    rewrite (Hnn p k Hk) in H.
    destruct (buddy_free (heap_mem h) (heap_buddy h) p) as [m| | | |] eqn:E; [by eexists _, _|exfalso..];
      unfold guarded in H; destruct (mutex_lock (heap_lock h)); try done; rewrite bind_ok, E in H; done.
Qed.

(** * Properties *)

(** C3. The heap is safe for threads.  Threads that call [heap_malloc],
    [heap_calloc], [heap_realloc] and [heap_free], with every access of the heap's
    ticket lock interleaved and each body reading the heap in one step and storing
    its result in a later one, behave like one client that makes the calls one
    after the other: the shared memory is that of a sequential run with the
    allocations all threads hold.  So what two threads hold, or one holds twice,
    never overlaps and lies in the arena; and as long as a call is on its way, some
    thread can do more than spin. *)
Theorem heap_threads_safe n rr h0 m :
  Z.of_nat n < 2 ^ 64 → heap_rel rr (h0, ∅) →
  heap_threads (heap_buddy h0) n (heap_mem h0) m →
  (∃ h L, heap_run (h0, ∅) (h, L) ∧ heap_mem h = mc_state m ∧
     ∀ p k, L !! p = Some k ↔ ∃ i, holds_of i m !! p = Some k) ∧
  (∀ i j p k q l, holds_of i m !! p = Some k → holds_of j m !! q = Some l → (i, p) ≠ (j, q) →
     p + k ≤ q ∨ q + l ≤ p) ∧
  (∀ i p k, holds_of i m !! p = Some k → ar_main rr ≤ p ∧ p + k ≤ ar_main rr + ar_size rr) ∧
  (∀ i ph, mc_phases m !! i = Some ph → ph ≠ Idle →
     ∃ j m', machine_step (heap_body (heap_buddy h0)) heap_allowed m j m' ∧ m' ≠ m).
Proof.
  intros Hn Hrel0 Hr. pose proof (runs_ok _ _ n _ m Hn Hr) as Hm.
  destruct (serial_heap_run rr h0 _ _ Hrel0 (mo_serial _ _ _ _ _ Hm)) as (h & L & [Hrun Hmem Hbu Hrel Hs]).
  split_and!.
  - exists h, L. split_and!; [done|done|]. intros p k. split; [by apply Hs|].
    intros [i Hi]. by apply Hs in Hi.
  - intros i j p k q l Hp Hq Hne. destruct (decide (p = q)) as [<-|Hpq].
    + destruct Hne. f_equal. by apply (sa_apart _ _ Hs i j p); eexists.
    + apply (heap_rel_disjoint rr h L); [done|by apply (sa_part _ _ Hs i)|by apply (sa_part _ _ Hs j)|done].
  - intros i p k Hp. apply (heap_rel_arena rr h L p k Hrel). by apply (sa_part _ _ Hs i).
  - intros i ph Hph Hne. apply (runs_go_on _ _ n (heap_mem h0) m i ph Hn Hr Hph Hne).
    intros j c Hall. rewrite <-Hmem, <-Hbu. apply (body_total rr h L); [done|].
    by apply (held_pre _ _ j _ _ Hs eq_refl).
Qed.

(** Two threads on the sample arena, one of which is about to take the lock. *)
Lemma heap_threads_safe_witness :
  ∃ m, heap_threads 4544 2 sample_init m ∧ mc_phases m !! 1%nat = Some (Called (CMalloc 100)) ∧
    ∃ j m', machine_step (heap_body 4544) heap_allowed m j m' ∧ m' ≠ m.
Proof.
  assert (∃ m, heap_threads 4544 2 sample_init m ∧
    mc_phases m !! 1%nat = Some (Called (CMalloc 100))) as (m & Hr & Hph).
  { eexists. split.
    - eapply runs_step; [apply runs_init|]. apply (ms_call _ _ _ _ _ _ _ 1%nat (CMalloc 100)).
      + by vm_compute.
      + simpl. lia.
    - by vm_compute. }
  exists m. split; [exact Hr|]. split; [exact Hph|].
  apply (proj2 (proj2 (proj2 (heap_threads_safe 2 sample_arena sample_heap m ltac:(lia)
    sample_heap_rel Hr))) 1%nat _ Hph). discriminate.
Defined.
