(* ===== verification/Boot.v ===== *)
(** * Start-up of the memory: [kernel/memory/memory.cpp]

    [memory::initialize] from the boot loader's memory map to a working heap: the
    physical allocator, the kernel's page tables on its frames, and the heap in
    the address space between the direct map and the kernel, put together. *)
From S2P Require Import Prelude Mem Bitmap Lock Addr Physical PhysicalInit Frames Paging PagingWalk.
From S2P Require Import PagingMap PagingRange Caching Translate Virtual VirtualInit VirtualAlloc.
From S2P Require Import UserMap Spaces.
From S2P Require Import BuddyInv BuddyData Buddy Heap.

(** What the processor's memory management unit promises about the memory a
    program sees: in the direct map's half of the addresses, pages with valid,
    writable entries are bytes that can be read and written. *)
Definition mmu_shows `{hh : Hhdm, pmode : PagingMode} (mmu : vm phys → mem) : Prop :=
  ∀ s T p n, tree_ok s T → hhdm_offset ≤ p → p mod PAGE_SIZE = 0 → 0 ≤ n →
    p + n * PAGE_SIZE + 8 ≤ 2 ^ 64 →
    (∀ k, 0 ≤ k < n → let v := entry_of s T (p + k * PAGE_SIZE) in
       is_valid v = true ∧ entry_has_flags v PAGE_FLAG_WRITABLE = true) →
    arena_mapped (mmu s) p (n * PAGE_SIZE).

Lemma heap_entry_writable a :
  entry_has_flags (Z.lor a (parse_flags (Z.lor MAP_WRITE MAP_READ))) PAGE_FLAG_WRITABLE = true.
Proof.
  unfold entry_has_flags, PAGE_FLAG_WRITABLE. rewrite Z.shiftl_1_l, has_pow2, Z.lor_spec by lia.
  by rewrite orb_true_r.
Qed.

(** The pages of the heap, and where the search for them starts. *)
Definition heap_pages (ext : Z * Z) : Z := bit_ceil (ext.1 / 16).
Definition heap_base `{Hhdm} (ext : Z * Z) : Z := to_higher_half ext.2.

(** There is room between the direct map and the kernel. *)
Record heap_room `{hh : Hhdm, pmode : PagingMode} (ext : Z * Z) (kernel_base : Z) : Prop := HeapRoom {
  hr_total : 0 ≤ ext.1 < 2 ^ 52;
  hr_tables : heap_pages ext ≤ all_pages;
  hr_base : hhdm_offset ≤ heap_base ext ∧ heap_base ext mod PAGE_SIZE = 0;
  hr_end : heap_base ext + heap_pages ext * PAGE_SIZE ≤ kernel_base;
  hr_top : kernel_base + 8 ≤ 2 ^ 64;
}.

Section boot.
Context `{hh : Hhdm, pmode : PagingMode} (mmu : vm phys → mem).
Hypothesis shows : mmu_shows mmu.

(** The heap in a range of [n] pages that had no valid entries before. *)
Record heap_placed (s : vm phys) T (n kernel_base : Z) (s' : vm phys) T' (h : heap) (r : arena) : Prop :=
  HeapPlaced {
  hp_tree : tree_ok s' T';
  hp_sub : T ⊆ T';
  hp_hw : head (vm_hw s') = Some (WriteCr3 (from_higher_half (top_lvl_ s')));
  hp_lock : lock_free (lock_ s');
  hp_ok : heap_ok h r ∅;
  hp_free : range_free s T (ar_main r) n;
  hp_meta : ar_main r + ar_size r ≤ ar_at r;
  hp_end : ar_at r + ar_meta r ≤ ar_main r + n * PAGE_SIZE;
  hp_kernel : ar_main r + n * PAGE_SIZE ≤ kernel_base;
  hp_others : ∀ va, (∀ k, 0 ≤ k < n → page_number va ≠ page_number (ar_main r + k * PAGE_SIZE)) →
    entry_of s' T' va = entry_of s T va;
}.

(** A page of a free range is none that has a valid entry. *)
Lemma range_free_valid (s : vm phys) T p n va k :
  range_free s T p n → 0 ≤ k < n → is_valid (entry_of s T va) = true →
  page_number va ≠ page_number (p + k * PAGE_SIZE).
Proof using Type.
  intros Hf Hk Hv He%page_key. destruct He as [E1 E2]. specialize (Hf k Hk).
  unfold page_free, entry_of in Hf. unfold entry_of in Hv. rewrite <-E1, <-E2 in Hf. congruence.
Qed.

Lemma heap_init_or_panics kernel_base (s : vm phys) T h (Q : vm phys * heap → Prop) :
  let ext := extent (vm_frames s) in
  tree_ok s T → lock_free (lock_ s) → page_zero_blank s → lock_free (heap_lock h) →
  heap_room ext kernel_base →
  (∀ s' T' h' r, heap_placed s T (heap_pages ext) kernel_base s' T' h' r →
     heap_base ext ≤ ar_main r → Q (s', h')) →
  or_panics (heap_init mmu kernel_base s h) Q.
Proof using shows.
  intros ext Ht Hl Hz Hh [Htot Htab [Hb Hal] Hend Htop] HQ. pose proof (hhdm_bounds s T Ht). unfold heap_init, physical_get_status.
  change (total_pages (phys_stats (vm_frames s)) / 16) with (ext.1 / 16).
  fold (heap_pages ext). unfold virtual_allocate.
  change (to_higher_half (highest_physical_addr (phys_stats (vm_frames s)))) with (heap_base ext).
  destruct (bit_ceil_pow2 (ext.1 / 16)) as (j & Hj & Ej); [dlia|]. fold (heap_pages ext) in Ej.
  set (n := heap_pages ext) in *. assert (0 < n) as Hn by (rewrite Ej; lia).
  apply or_panics_bind, (virtual_allocate_between_or_panics s T); [done|done|done|done|lia|lia|lia| |].
  - intros i s1 T1 fs Hi (Hbound & Hfree & _) Hlen Hf. set (p := heap_base ext + i * PAGE_SIZE) in *.
    assert (0 < p ∧ p mod PAGE_SIZE = 0 ∧ heap_base ext ≤ p ∧ p + n * PAGE_SIZE ≤ kernel_base)
      as (Hp0 & Hp1 & Hp2 & Hp3).
    { unfold p, PAGE_SIZE in *. split_and!; [lia|dlia|lia|]. destruct Hbound as [->|[_ ?]]; lia. }
    rewrite u64_small by (unfold PAGE_SIZE in *; lia). right. bind_step.
    assert (arena_mapped (mmu (load s1)) p (n * PAGE_SIZE)) as Hmap.
    { apply (shows _ T1); [apply tree_ok_load, Hf|lia|done|lia|lia|]. intros k Hk.
      destruct (lookup_lt_is_Some_2 fs (Z.to_nat k)) as [f Hfk]; [lia|].
      pose proof (fi_pages _ _ _ _ _ _ _ _ Hf _ _ Hfk) as He. rewrite Z.add_0_l, Z2Nat.id in He by lia.
      change (entry_of (load s1)) with (entry_of s1). rewrite He.
      split; [by apply is_valid_entry|apply heap_entry_writable]. }
    rewrite Ej in Hmap |- *. apply (embed_pages _ p j h); [done..|].
    intros m b r Emain Hle Hmeta Hnz Hok. rewrite (proj2 (Z.eqb_neq b NULL)) by done.
    cbn [negb assert]. rewrite bind_ok. cbn [returns]. rewrite <-Ej in Hmeta. rewrite <-Emain in *.
    apply (HQ _ T1 _ r); [|done].
    split; [apply tree_ok_load, Hf|apply Hf|done|apply Hf|done|done|done|done|done|]. intros va Hva.
    change (entry_of (load s1)) with (entry_of s1). apply (fi_others _ _ _ _ _ _ _ _ Hf).
    intros k Hk. rewrite Z.add_0_l. apply Hva. lia.
  - intros _. left. done.
Qed.
(** The mappings that were there still are. *)
Lemma heap_keeps (s : vm phys) T n kb s' T' h r va :
  heap_placed s T n kb s' T' h r → is_valid (entry_of s T va) = true →
  entry_of s' T' va = entry_of s T va.
Proof using Type.
  intros [] Hv. apply hp_others0. intros k Hk. by apply (range_free_valid s T _ n).
Qed.

(** Physical page 0 is neither the bitmap's nor a frame, so it stays as the boot
    loader left it. *)
Lemma page_zero_steady m memmaps e0 (a : phys) (s : vm phys) :
  boot_ok m memmaps e0 → (∀ i, 0 ≤ i < 512 → ld64 m (hhdm_offset + 8 * i) = Ok 0) →
  (∀ x, in_bitmap (phys_bitmap a) x →
     0 ≤ x - (hhdm_offset + base e0) < 8 * bitmap_bytes memmaps) →
  (∀ x, ¬ (0 ≤ x - (hhdm_offset + base e0) < 8 * bitmap_bytes memmaps) → phys_mem a !! x = m !! x) →
  fr_steady a (vm_frames s) → page_zero_blank s.
Proof using Type.
  intros [_ Hmap _ _ _ He0 _ _] Hz Hbm Hm [_ _ Hlow] i Hi. rewrite <-(Hz i Hi). apply ld64_same. intros x Hx.
  destruct (bitmap_entry_Some _ _ _ He0) as (Hin & Hu & _).
  pose proof (memmap_ok_entry _ _ Hmap Hin Hu) as [[Hb _] _ _].
  unfold PAGE_SIZE in Hb. etrans; [apply Hlow|apply Hm; lia].
  - intros Hpx%Hbm. lia.
  - intros f Hf. unfold in_frame, frame_base, PAGE_SIZE. lia.
Qed.
End boot.

Lemma direct_entry_valid j v : direct_entry j v → is_valid v = true.
Proof. by intros [-> | [_ ->]]; apply is_valid_entry. Qed.

(** What start-up ends with. *)
Definition booted `{hh : Hhdm, pmode : PagingMode} (memmaps : list limine_memmap_entry)
    (vb pb size : Z) (c : vm phys * heap) : Prop :=
  let memmaps' := without_bitmap (bitmap_bytes memmaps) memmaps in
  let '(s, h) := c in ∃ T r,
    tree_ok s T ∧ upper_tables T ∧ lock_free (lock_ s) ∧
    head (vm_hw s) = Some (WriteCr3 (from_higher_half (top_lvl_ s))) ∧ heap_ok h r ∅ ∧
    heap_base (map_extent memmaps) ≤ ar_main r ∧ ar_main r + ar_size r ≤ ar_at r ∧
    ar_at r + ar_meta r ≤ vb ∧
    (∀ k, 0 ≤ k < kernel_pages size → entry_of s T (vb + k * PAGE_SIZE) =
       Z.lor (pb + k * PAGE_SIZE) (parse_flags KERNEL_FLAGS)) ∧
    (∀ j, 0 ≤ j < LOW_PAGES ∨ Exists (λ e, entry_page e j) memmaps' →
       (∀ k, 0 ≤ k < kernel_pages size →
          page_number (hhdm_offset + j * PAGE_SIZE) ≠ page_number (vb + k * PAGE_SIZE)) →
       direct_entry j (entry_of s T (hhdm_offset + j * PAGE_SIZE))).

(** Start-up as a whole. *)
Lemma memory_initialize_or_panics `{hh : Hhdm, pmode : PagingMode} mmu limit huge_page m memmaps e0
    vb pb size :
  mmu_shows mmu → boot_ok m memmaps e0 →
  (∀ i, 0 ≤ i < 512 → ld64 m (hhdm_offset + 8 * i) = Ok 0) →
  let memmaps' := without_bitmap (bitmap_bytes memmaps) memmaps in
  direct_ok limit → limit * PAGE_SIZE ≤ 2 ^ 63 → Forall (entry_within limit) memmaps' →
  kernel_within vb pb size → heap_room (map_extent memmaps) vb →
  or_panics (memory_initialize mmu huge_page memmaps vb pb size (phys_start m))
    (booted memmaps vb pb size).
Proof.
  intros Hmmu Hboot Hz memmaps' Hd Htop Hall Hk Hroom. unfold memory_initialize.
  apply or_panics_bind, returns_or_panics, (physical_initialize_returns m memmaps e0); [done|].
  intros a Hok _ _ Hext Hbm Hm. apply or_panics_bind.
  apply (virtual_initialize_or_panics limit); [done|by split|done|done|done|done|].
  intros s T [Ht Hup Hl _ Hkern Hdirect Hst]. pose proof (st_extent _ _ Hst) as Hext'.
  change (extent (vm_frames s) = extent a) in Hext'. rewrite Hext in Hext'.
  apply (heap_init_or_panics mmu Hmmu vb s T); [done|done| |by split|by rewrite Hext'|].
  { by eapply page_zero_steady. }
  rewrite Hext'. intros s' T' h r Hp Hbase. unfold booted. exists T', r. pose proof Hp as [].
  split_and!; [done|by eapply upper_tables_mono|done|done|done|done|done|lia| |].
  - intros k Hkk. rewrite (heap_keeps s T _ _ _ _ _ _ _ Hp); [by apply Hkern|].
    rewrite Hkern by done. by apply is_valid_entry.
  - intros j Hj Hno. specialize (Hdirect j Hj Hno).
    rewrite (heap_keeps s T _ _ _ _ _ _ _ Hp); [done|]. by eapply direct_entry_valid.
Qed.

(** ** The address space, as the processor sees it *)

(** The kernel and the direct map are in whole pages of addresses that can be
    translated. *)
Record places_ok `{hh : Hhdm, pmode : PagingMode} (limit vb pb size : Z) : Prop := PlacesOk {
  pl_virtual : vb mod PAGE_SIZE = 0;
  pl_physical : pb mod PAGE_SIZE = 0 ∧ 0 ≤ pb ∧ pb + kernel_pages size * PAGE_SIZE ≤ 2 ^ 52;
  pl_kernel : ∀ o, 0 ≤ o < kernel_pages size * PAGE_SIZE → canonical (vb + o);
  pl_limit : limit * PAGE_SIZE ≤ 2 ^ 52;
  pl_direct : ∀ a, 0 ≤ a < limit * PAGE_SIZE → canonical (hhdm_offset + a);
}.

(** Place [o] of a run of pages is in page [o / PAGE_SIZE]. *)
Lemma place_in_page b o :
  b mod PAGE_SIZE = 0 →
  (b + o) / PAGE_SIZE = (b + o / PAGE_SIZE * PAGE_SIZE) / PAGE_SIZE ∧ (b + o) mod PAGE_SIZE = o mod PAGE_SIZE.
Proof. unfold PAGE_SIZE. dlia. Qed.

(** An address whose page's entry is known. *)
Lemma translate_place `{hh : Hhdm, pmode : PagingMode} (s : vm phys) T b o f flags :
  tree_ok s T → b mod PAGE_SIZE = 0 → canonical (b + o) → small_flags flags →
  0 ≤ f * PAGE_SIZE < 2 ^ 52 →
  entry_of s T (b + o / PAGE_SIZE * PAGE_SIZE) = Z.lor (f * PAGE_SIZE) (parse_flags flags) →
  translate DEFAULT_PAT s (b + o) = page_translation flags f (b + o).
Proof.
  intros Ht Hb Hc Hs Hf He. destruct (place_in_page b o Hb) as [Hp _].
  pose proof (canonical_same_page _ _ Hc (eq_sym Hp)) as Hc'.
  apply canonical_page, page_key in Hp as [E1 E2]; [|done|done].
  rewrite (translate_entry _ s T) by done. unfold entry_of in *. rewrite E1, E2, He.
  by apply mapped_translation.
Qed.

(** What the processor makes of the kernel's addresses and of the direct map. *)
Record kernel_view `{hh : Hhdm, pmode : PagingMode} (memmaps : list limine_memmap_entry)
    (vb pb size : Z) (s : vm phys) : Prop := KernelView {
  kv_cr3 : head (vm_hw s) = Some (WriteCr3 (from_higher_half (top_lvl_ s)));
  kv_kernel : ∀ o, 0 ≤ o < kernel_pages size * PAGE_SIZE →
    translate DEFAULT_PAT s (vb + o) =
      Some (Translation (pb + o) (Rights true false true) false WriteBack);
  kv_direct : ∀ a,
    0 ≤ a < FOUR_GIB ∨ Exists (λ e, entry_page e (a / PAGE_SIZE)) memmaps →
    (∀ o, 0 ≤ o < kernel_pages size * PAGE_SIZE → hhdm_offset + a ≠ vb + o) →
    ∃ t, translate DEFAULT_PAT s (hhdm_offset + a) =
           Some (Translation a (Rights true false false) false t) ∧
      (t = WriteBack ∨ t = WriteCombining ∧ FOUR_GIB ≤ a);
}.

Lemma page_range a n : 0 ≤ a < n * PAGE_SIZE ↔ 0 ≤ a / PAGE_SIZE < n.
Proof. unfold PAGE_SIZE. dlia. Qed.

Lemma page_place a : a / PAGE_SIZE * PAGE_SIZE + a mod PAGE_SIZE = a.
Proof. unfold PAGE_SIZE. dlia. Qed.

Lemma aligned_sum b o : b mod PAGE_SIZE = 0 → (b / PAGE_SIZE + o) * PAGE_SIZE = b + o * PAGE_SIZE.
Proof. unfold PAGE_SIZE. dlia. Qed.

Lemma entry_page_limit limit e j :
  entry_within limit e → entry_page e j → LOW_PAGES ≤ j < limit.
Proof. unfold entry_within, entry_page, last_page, PAGE_SIZE. dlia. Qed.

(** An address outside the kernel is in none of its pages. *)
Lemma outside_kernel `{hh : Hhdm, pmode : PagingMode} limit vb pb size a k :
  places_ok limit vb pb size → hhdm_offset mod PAGE_SIZE = 0 → 0 ≤ a < limit * PAGE_SIZE →
  (∀ o, 0 ≤ o < kernel_pages size * PAGE_SIZE → hhdm_offset + a ≠ vb + o) →
  0 ≤ k < kernel_pages size →
  page_number (hhdm_offset + a / PAGE_SIZE * PAGE_SIZE) ≠ page_number (vb + k * PAGE_SIZE).
Proof.
  intros [Hv _ Hck _ Hcd] Hal Ha Hout Hk He. apply canonical_page in He.
  - apply (Hout (k * PAGE_SIZE + a mod PAGE_SIZE)); unfold PAGE_SIZE in *; dlia.
  - apply Hcd. unfold PAGE_SIZE in *. dlia.
  - apply Hck. unfold PAGE_SIZE. lia.
Qed.

Section view.
Context `{hh : Hhdm, pmode : PagingMode} (limit vb pb size : Z) (s : vm phys) (T : gmap (list Z) Z).
Hypothesis places : places_ok limit vb pb size.
Hypothesis tree : tree_ok s T.

Lemma kernel_translates o :
  (∀ k, 0 ≤ k < kernel_pages size → entry_of s T (vb + k * PAGE_SIZE) =
     Z.lor (pb + k * PAGE_SIZE) (parse_flags KERNEL_FLAGS)) →
  0 ≤ o < kernel_pages size * PAGE_SIZE →
  translate DEFAULT_PAT s (vb + o) =
    Some (Translation (pb + o) (Rights true false true) false WriteBack).
Proof using places tree.
  intros Hk Ho. destruct places as [Hv (Hp & Hp0 & Hp52) Hck _ _].
  pose proof (proj1 (page_range o (kernel_pages size)) Ho) as Hpo.
  rewrite (translate_place s T vb o (pb / PAGE_SIZE + o / PAGE_SIZE) KERNEL_FLAGS);
    [|done|done|by apply Hck|by split|..]; rewrite ?(aligned_sum pb) by done.
  - unfold page_translation. rewrite (aligned_sum pb), (proj2 (place_in_page vb o Hv)) by done.
    by rewrite <-Z.add_assoc, page_place.
  - pose proof (page_place o). unfold PAGE_SIZE in *. lia.
  - by apply Hk.
Qed.

(** A page of the direct map. *)
Lemma direct_translates a flags :
  0 ≤ a < limit * PAGE_SIZE → small_flags flags → has flags MAP_READ = true →
  entry_of s T (hhdm_offset + a / PAGE_SIZE * PAGE_SIZE) =
    Z.lor (a / PAGE_SIZE * PAGE_SIZE) (parse_flags flags) →
  translate DEFAULT_PAT s (hhdm_offset + a) =
    Some (Translation a (Rights (has flags MAP_WRITE) (has flags MAP_USER) (has flags MAP_EXEC))
            (has flags MAP_GLOBAL) (flags_type flags)).
Proof using places tree.
  intros Ha Hs Hr He. destruct places as [_ _ _ Hlim Hcd].
  destruct (fr_hhdm _ (tr_frames _ _ tree)) as [_ Hal].
  rewrite (translate_place s T hhdm_offset a (a / PAGE_SIZE) flags); [|done|done|by apply Hcd|done| |done].
  - unfold page_translation. by rewrite Hr, (proj2 (place_in_page hhdm_offset a Hal)), page_place.
  - pose proof (page_place a). pose proof (Z.mod_pos_bound a PAGE_SIZE eq_refl).
    apply page_range in Ha. unfold PAGE_SIZE in *. lia.
Qed.

Lemma address_space_view memmaps :
  LOW_PAGES ≤ limit → Forall (entry_within limit) memmaps →
  head (vm_hw s) = Some (WriteCr3 (from_higher_half (top_lvl_ s))) →
  (∀ k, 0 ≤ k < kernel_pages size → entry_of s T (vb + k * PAGE_SIZE) =
     Z.lor (pb + k * PAGE_SIZE) (parse_flags KERNEL_FLAGS)) →
  (∀ j, 0 ≤ j < LOW_PAGES ∨ Exists (λ e, entry_page e j) memmaps →
     (∀ k, 0 ≤ k < kernel_pages size →
        page_number (hhdm_offset + j * PAGE_SIZE) ≠ page_number (vb + k * PAGE_SIZE)) →
     direct_entry j (entry_of s T (hhdm_offset + j * PAGE_SIZE))) →
  kernel_view memmaps vb pb size s.
Proof using places tree.
  intros Hlow Hall Hcr3 Hk Hd. destruct (fr_hhdm _ (tr_frames _ _ tree)) as [_ Hal].
  split; [done|by intros; apply kernel_translates|]. intros a Ha Hout.
  assert (0 ≤ a / PAGE_SIZE < limit ∧
    (0 ≤ a / PAGE_SIZE < LOW_PAGES ∨ Exists (λ e, entry_page e (a / PAGE_SIZE)) memmaps)) as [Hlim Hj].
  { destruct Ha as [Ha|He].
    - change FOUR_GIB with (LOW_PAGES * PAGE_SIZE) in Ha. apply page_range in Ha. split; [lia|by left].
    - split; [|by right]. apply Exists_exists in He as (e & Hin & He). rewrite Forall_forall in Hall.
      pose proof (entry_page_limit limit e _ (Hall e Hin) He). assert (0 ≤ LOW_PAGES) by done. lia. }
  apply page_range in Hlim. destruct (Hd _ Hj) as [He|[Hge He]].
  - intros k Hkk. by apply (outside_kernel limit vb pb size).
  - exists WriteBack. split; [|by left]. by rewrite (direct_translates a LOW_FLAGS).
  - exists WriteCombining. split; [by rewrite (direct_translates a FB_FLAGS)|]. right. split; [done|].
    change FOUR_GIB with (LOW_PAGES * PAGE_SIZE). pose proof (page_place a).
    pose proof (Z.mod_pos_bound a PAGE_SIZE eq_refl). unfold PAGE_SIZE in *. lia.
Qed.
End view.

(** * Properties *)



(** The page map of start-up can be the first of many: calls of it and of the page
    maps made from it for users do to these mappings what [Spaces.mapping_run]
    says, which begin with every page of the kernel at its place. *)
Theorem memory_initialize_spaces `{hh : Hhdm, pmode : PagingMode} mmu limit huge_page m memmaps e0
    vb pb size calls :
  mmu_shows mmu → boot_ok m memmaps e0 →
  (∀ i, 0 ≤ i < 512 → ld64 m (hhdm_offset + 8 * i) = Ok 0) →
  let memmaps' := without_bitmap (bitmap_bytes memmaps) memmaps in
  direct_ok limit → limit * PAGE_SIZE ≤ 2 ^ 63 → Forall (entry_within limit) memmaps' →
  kernel_within vb pb size → heap_room (map_extent memmaps) vb →
  or_panics (memory_initialize mmu huge_page memmaps vb pb size (phys_start m)) (λ '(s, _), ∃ mp,
    (∀ k, 0 ≤ k < kernel_pages size → at_page mp 0 (vb + k * PAGE_SIZE) =
       Z.lor (pb + k * PAGE_SIZE) (parse_flags KERNEL_FLAGS)) ∧
    (ops_ok calls mp →
     or_panics (space_run huge_page calls (first_space s)) (λ '(sys, rs),
       rs = (mapping_run calls mp).2 ∧ refines sys (mapping_run calls mp).1))).
Proof.
  intros Hmmu Hboot Hz memmaps' Hd Htop Hall Hk Hroom.
  eapply or_panics_mono; [by apply (memory_initialize_or_panics mmu limit huge_page m memmaps e0)|].
  intros [s h] (T & r & Ht & Hup & Hl & _ & _ & _ & _ & _ & Hkern & _).
  destruct (first_refines s T Ht Hup Hl) as [Hr He]. exists (first_mappings s T). split.
  - intros k Hkk. rewrite He. by apply Hkern.
  - by apply space_run_refines.
Qed.

#[local] Existing Instance sample_hhdm.
#[local] Existing Instance sample_mode.

(** A memory management unit that shows zeros, whatever the state. *)
Definition zeros_below (top : Z) : mem := gset_to_gmap 0 (list_to_set (seqZ 0 top)).
Definition zero_mmu (_ : vm phys) : mem := zeros_below (2 ^ 64).

Lemma zeros_below_lookup top x v : zeros_below top !! x = Some v ↔ 0 ≤ x < top ∧ v = 0.
Proof.
  unfold zeros_below. rewrite lookup_gset_to_gmap_Some, elem_of_list_to_set, elem_of_seqZ.
  naive_solver lia.
Qed.
#[local] Opaque zeros_below.

Lemma zero_mmu_shows {pmode : PagingMode} : mmu_shows zero_mmu.
Proof.
  intros s T p n _ Hp Hal Hn Hend _. change hhdm_offset with (2 ^ 47) in Hp. unfold zero_mmu.
  assert (0 ≤ n * PAGE_SIZE) by (unfold PAGE_SIZE; lia).
  split; [split|..]; [lia| | | |lia|lia].
  - intros x Hx. exists 0. apply zeros_below_lookup. lia.
  - intros x v [_ ->]%zeros_below_lookup. lia.
  - intros x y Hxy [v [Hx _]%zeros_below_lookup]. exists 0. apply zeros_below_lookup. dlia.
Qed.

Lemma sample_boot_zero i : 0 ≤ i < 512 → ld64 sample_boot_mem (2 ^ 47 + 8 * i) = Ok 0.
Proof.
  intros Hi. apply ld64_zero; [apply sample_boot_ok|]. intros x Hx. unfold sample_boot_mem.
  rewrite mem_of_lookup by lia. apply lookup_replicate_2. lia.
Qed.


(** The same machine with five levels, where the example's direct map is canonical. *)
Definition sample_mode_max : PagingMode := true.
#[local] Existing Instance sample_mode_max.

Lemma sample_places : places_ok (LOW_PAGES + 16) 0xffffffff80000000 0x200000 0x4800.
Proof.
  split; [done|by vm_compute| |by vm_compute|]; unfold canonical; change half_space with (2 ^ 56);
    change hhdm_offset with (2 ^ 47).
  - intros o Ho. change (kernel_pages 0x4800 * PAGE_SIZE) with 0x5000 in Ho. lia.
  - intros a Ha. change ((LOW_PAGES + 16) * PAGE_SIZE) with 0x100010000 in Ha. lia.
Qed.

