(* ===== verification/Gdt.v ===== *)
(** * The processor's descriptor tables: [kernel/arch/amd64/cpu/gdt.cpp], [idt.cpp]

    The global descriptor table with its task segment, the interrupt descriptor
    table.  The structures are packed: [segment_word], [tss_words] and
    [gate_words] give the words the processor reads, the decoding functions after
    them the fields of its manual.  The loads of the tables are events. *)
From S2P Require Import Prelude Lock.

(** ** Segments *)

Definition GDT_ACCESSED : Z := Z.shiftl 1 0.
Definition GDT_READWRITE : Z := Z.shiftl 1 1.
Definition GDT_CONFORMING : Z := Z.shiftl 1 2.
Definition GDT_EXECUTABLE : Z := Z.shiftl 1 3.
Definition GDT_SEGMENT : Z := Z.shiftl 1 4.
Definition GDT_USER : Z := Z.shiftl 3 5.
Definition GDT_PRESENT : Z := Z.shiftl 1 7.
Definition GDT_LONG_MODE_GRANULARITY : Z := Z.shiftl 1 1.
Definition GDT_DB : Z := Z.shiftl 1 2.
Definition GDT_GRANULARITY : Z := Z.shiftl 1 3.
Definition GDT_KERNEL_CODE : Z := 1.
Definition GDT_KERNEL_DATA : Z := 2.
Definition GDT_USER_DATA : Z := 3.
Definition GDT_USER_CODE : Z := 4.
Definition GDT_DATA_SEGMENT : Z := Z.lor (Z.lor GDT_PRESENT GDT_SEGMENT) GDT_READWRITE.
Definition GDT_CODE_SEGMENT : Z := Z.lor GDT_DATA_SEGMENT GDT_EXECUTABLE.

(** [limit_high] and [granularity] are fields of four bits. *)
Record GdtSegment := {
  gs_limit : Z;
  gs_base_low : Z;
  gs_base_mid : Z;
  gs_access : Z;
  gs_limit_high : Z;
  gs_granularity : Z;
  gs_base_high : Z;
}.

Definition GdtSegment_create_entry (base limit granularity access : Z) : GdtSegment :=
  {| gs_limit := u16 (Z.land limit 0xffff);
     gs_base_low := u16 (Z.land base 0xffff);
     gs_base_mid := u8 (u16 (Z.land (Z.shiftr base 16) 0xff));
     gs_access := access;
     gs_limit_high := Z.land (Z.land (Z.shiftr limit 16) 0x0f) 15;
     gs_granularity := Z.land granularity 15;
     gs_base_high := u8 (Z.land (Z.shiftr base 24) 0xff) |}.

(** The overload without base and limit. *)
Definition GdtSegment_create_flat (granularity access : Z) : GdtSegment :=
  GdtSegment_create_entry 0 0xffffffff granularity access.

Record TssSegment := {
  ts_limit : Z;
  ts_base_low : Z;
  ts_base_mid : Z;
  ts_flags_low : Z;
  ts_flags_high : Z;
  ts_base_high : Z;
  ts_base_upper : Z;
  ts_reserved : Z;
}.

Definition sizeof_Tss : Z := 104.

Definition TssSegment_create_entry (tss : Z) : TssSegment :=
  let base := tss in
  {| ts_limit := u16 (sizeof_Tss - 1);
     ts_base_low := u16 (Z.land base 0xffff);
     ts_base_mid := u8 (Z.land (Z.shiftr base 16) 0xff);
     ts_flags_low := 0x89;
     ts_flags_high := 0;
     ts_base_high := u8 (Z.land (Z.shiftr base 24) 0xff);
     ts_base_upper := u32 (Z.land (Z.shiftr base 32) 0xffffffff);
     ts_reserved := 0 |}.

Record GdtTable := { gt_table : list GdtSegment; gt_tss : TssSegment }.

Definition sizeof_GdtTable : Z := 5 * 8 + 16.

(** The interrupt flag, the table registers and the task register. *)
Inductive cpu_event :=
  | DisableInterrupts
  | EnableInterrupts
  | LoadGdt (limit base : Z)
  | LoadTss
  | LoadIdt (limit base : Z).

(** The addresses of the tables are the linker's. *)
Definition gdt_initialize (tss gdt_table : Z) (lock : TicketLock)
    : outcome (GdtTable * TicketLock * list cpu_event) :=
  lock ← mutex_lock lock;
  let table :=
    {| gt_table :=
         [GdtSegment_create_entry 0 0 0 0;
          GdtSegment_create_flat (Z.lor GDT_LONG_MODE_GRANULARITY GDT_GRANULARITY) GDT_CODE_SEGMENT;
          GdtSegment_create_flat (Z.lor GDT_DB GDT_GRANULARITY) GDT_DATA_SEGMENT;
          GdtSegment_create_flat (Z.lor GDT_DB GDT_GRANULARITY) (Z.lor GDT_DATA_SEGMENT GDT_USER);
          GdtSegment_create_flat (Z.lor GDT_LONG_MODE_GRANULARITY GDT_GRANULARITY)
            (Z.lor GDT_CODE_SEGMENT GDT_USER)];
       gt_tss := TssSegment_create_entry tss |} in
  Ok (table, mutex_unlock lock, [LoadGdt (u16 (sizeof_GdtTable - 1)) gdt_table; LoadTss]).

(** ** Gates *)

Definition EXCEPTION_BREAKPOINT : Z := 3.
Definition EXCEPTION_PAGE_FAULT : Z := 14.
Definition IDT_INTERRUPT_GATE : Z := 0xe.
Definition IDT_DPL0 : Z := 0.
Definition IDT_DPL3 : Z := 3.
Definition MAX_IDT_ENTRIES : Z := 256.
Definition KERNEL_CODE_SELECTOR : Z := 0x08.

Definition TYPE_ATTRIBUTE_PRESENT : Z := Z.shiftl 1 7.
Definition TYPE_ATTRIBUTE_DPL (x : Z) : Z := Z.shiftl x 5.

Definition idt_attribute (type dpl : Z) : Z :=
  let ret := TYPE_ATTRIBUTE_PRESENT in
  let ret := u8 (Z.lor ret (TYPE_ATTRIBUTE_DPL dpl)) in
  u8 (Z.lor ret type).

Record IdtSegment := {
  is_base_low : Z;
  is_selector : Z;
  is_ist : Z;
  is_type_attributes : Z;
  is_base_mid : Z;
  is_base_high : Z;
  is_reserved : Z;
}.

Definition IdtSegment_zero : IdtSegment :=
  {| is_base_low := 0; is_selector := 0; is_ist := 0; is_type_attributes := 0;
     is_base_mid := 0; is_base_high := 0; is_reserved := 0 |}.

Definition IdtSegment_create_entry (handler ist type dpl selector : Z) : IdtSegment :=
  let base := handler in
  {| is_base_low := u16 (Z.land base 0xffff);
     is_selector := selector;
     is_ist := ist;
     is_type_attributes := idt_attribute type dpl;
     is_base_mid := u16 (Z.land (Z.shiftr base 16) 0xffff);
     is_base_high := u32 (Z.land (Z.shiftr base 32) 0xffffffff);
     is_reserved := 0 |}.

(** The [switch]: the breakpoint's case has no [break] and goes on into the
    default. *)
Definition vector_dpl (vector dpl : Z) : Z :=
  let dpl := if vector =? EXCEPTION_BREAKPOINT then IDT_DPL3 else dpl in
  IDT_DPL0.

(** [isr_table] is assembly. *)
Definition idt_body (isr_table : Z → Z) (s : list IdtSegment * Z * Z)
    : outcome (list IdtSegment * Z * Z + list IdtSegment) :=
  let '(idt_table, vector, dpl) := s in
  if negb (vector <? MAX_IDT_ENTRIES) then Ok (inr idt_table) else
  let dpl := vector_dpl vector dpl in
  let entry := IdtSegment_create_entry (isr_table vector) 0 IDT_INTERRUPT_GATE dpl
                 KERNEL_CODE_SELECTOR in
  Ok (inl (<[Z.to_nat vector := entry]> idt_table, vector + 1, dpl)).

Definition sizeof_IdtTable : Z := 256 * 16.

Definition interrupts_initialize (isr_table : Z → Z) (idt_table : Z)
    : outcome (list IdtSegment * list cpu_event) :=
  table ← loop 257 (idt_body isr_table) (replicate 256 IdtSegment_zero, 0, IDT_DPL0);
  Ok (table, [LoadIdt (u16 (sizeof_IdtTable - 1)) idt_table]).

Definition cpu_initialize (isr_table : Z → Z) (tss gdt_table idt_table : Z) (lock : TicketLock)
    : outcome (GdtTable * list IdtSegment * TicketLock * list cpu_event) :=
  '(gdt, lock, e1) ← gdt_initialize tss gdt_table lock;
  '(idt, e2) ← interrupts_initialize isr_table idt_table;
  Ok (gdt, idt, lock, [DisableInterrupts] ++ e1 ++ e2 ++ [EnableInterrupts]).

(** ** What the processor makes of the tables *)

(** A packed segment as the word the processor reads; the first bit field is in
    the low bits. *)
Definition segment_word (g : GdtSegment) : Z :=
  gs_limit g + 2 ^ 16 * gs_base_low g + 2 ^ 32 * gs_base_mid g + 2 ^ 40 * gs_access g +
  2 ^ 48 * gs_limit_high g + 2 ^ 52 * gs_granularity g + 2 ^ 56 * gs_base_high g.

(** Bits [lo .. lo + n - 1] of a word. *)
Definition bits_of (lo n w : Z) : Z := (w / 2 ^ lo) mod 2 ^ n.

Definition segment_base (w : Z) : Z := bits_of 16 24 w + 2 ^ 24 * bits_of 56 8 w.
Definition segment_limit (w : Z) : Z := bits_of 0 16 w + 2 ^ 16 * bits_of 48 4 w.
Definition segment_access (w : Z) : Z := bits_of 40 8 w.
Definition segment_flags (w : Z) : Z := bits_of 52 4 w.

Definition tss_words (t : TssSegment) : Z * Z :=
  (ts_limit t + 2 ^ 16 * ts_base_low t + 2 ^ 32 * ts_base_mid t + 2 ^ 40 * ts_flags_low t +
   2 ^ 48 * ts_flags_high t + 2 ^ 56 * ts_base_high t,
   ts_base_upper t + 2 ^ 32 * ts_reserved t).

(** A gate's two words, and the offset, selector and attributes in them. *)
Definition gate_words (g : IdtSegment) : Z * Z :=
  (is_base_low g + 2 ^ 16 * is_selector g + 2 ^ 32 * is_ist g + 2 ^ 40 * is_type_attributes g +
   2 ^ 48 * is_base_mid g,
   is_base_high g + 2 ^ 32 * is_reserved g).

Definition gate_offset (w : Z * Z) : Z :=
  bits_of 0 16 w.1 + 2 ^ 16 * bits_of 48 16 w.1 + 2 ^ 32 * bits_of 0 32 w.2.
Definition gate_selector (w : Z * Z) : Z := bits_of 16 16 w.1.
Definition gate_ist (w : Z * Z) : Z := bits_of 32 3 w.1.
Definition gate_type (w : Z * Z) : Z := bits_of 40 4 w.1.
Definition gate_dpl (w : Z * Z) : Z := bits_of 45 2 w.1.
Definition gate_present (w : Z * Z) : bool := bits_of 47 1 w.1 =? 1.

(** * Lemmas *)

(** The masks and shifts of the code as arithmetic. *)
Lemma land_mask x n : 0 ≤ n → Z.land x (Z.ones n) = x mod 2 ^ n.
Proof. apply Z.land_ones. Qed.

Ltac mask_arith :=
  change 0xffff with (Z.ones 16); change 0xff with (Z.ones 8); change 0xffffffff with (Z.ones 32);
  change 0x0f with (Z.ones 4); rewrite ?land_mask, ?Z.shiftr_div_pow2 by lia;
  unfold u8, u16, u32.

(** ** The tables *)

(** The fields of a word put together from seven parts. *)
Lemma word_fields l bl bm ac lh fl bh :
  0 ≤ l < 2 ^ 16 → 0 ≤ bl < 2 ^ 16 → 0 ≤ bm < 2 ^ 8 → 0 ≤ ac < 2 ^ 8 → 0 ≤ lh < 2 ^ 4 →
  0 ≤ fl < 2 ^ 4 → 0 ≤ bh < 2 ^ 8 →
  let w := l + 2 ^ 16 * bl + 2 ^ 32 * bm + 2 ^ 40 * ac + 2 ^ 48 * lh + 2 ^ 52 * fl + 2 ^ 56 * bh in
  segment_base w = bl + 2 ^ 16 * bm + 2 ^ 24 * bh ∧ segment_limit w = l + 2 ^ 16 * lh ∧
  segment_flags w = fl ∧ segment_access w = ac.
Proof.
  intros. unfold segment_base, segment_limit, segment_flags, segment_access, bits_of.
  split_and!; dlia.
Qed.

(** A segment's base, limit, access byte and flags are where the processor looks
    for them; the limit keeps its low twenty bits. *)
Lemma segment_word_decodes base limit granularity access :
  0 ≤ base < 2 ^ 32 → 0 ≤ limit < 2 ^ 32 → 0 ≤ granularity < 2 ^ 4 → 0 ≤ access < 2 ^ 8 →
  let w := segment_word (GdtSegment_create_entry base limit granularity access) in
  segment_base w = base ∧ segment_limit w = limit mod 2 ^ 20 ∧
  segment_flags w = granularity ∧ segment_access w = access.
Proof.
  intros Hb Hl Hg Ha. unfold segment_word, GdtSegment_create_entry.
  cbn [gs_limit gs_base_low gs_base_mid gs_access gs_limit_high gs_granularity gs_base_high].
  change 15 with (Z.ones 4). mask_arith.
  edestruct word_fields as (E1 & E2 & E3 & E4);
    [| | | | | | |cbv zeta; rewrite E1, E2, E3, E4; split_and!]; dlia.
Qed.

Lemma tss_base_decodes tss :
  0 ≤ tss < 2 ^ 64 →
  let w := tss_words (TssSegment_create_entry tss) in
  segment_base w.1 + 2 ^ 32 * bits_of 0 32 w.2 = tss ∧ segment_limit w.1 = sizeof_Tss - 1 ∧
  segment_access w.1 = 0x89.
Proof.
  intros Ht. unfold tss_words, TssSegment_create_entry. cbn [fst snd ts_limit ts_base_low ts_base_mid
    ts_flags_low ts_flags_high ts_base_high ts_base_upper ts_reserved]. cbv zeta. mask_arith.
  change (u16 (sizeof_Tss - 1)) with 103. change ((sizeof_Tss - 1) mod 2 ^ 16) with 103.
  set (bl := (tss mod 2 ^ 16) mod 2 ^ 16). set (bm := ((tss / 2 ^ 16) mod 2 ^ 8) mod 2 ^ 8).
  set (bh := ((tss / 2 ^ 24) mod 2 ^ 8) mod 2 ^ 8).
  assert (0 ≤ bl < 2 ^ 16 ∧ 0 ≤ bm < 2 ^ 8 ∧ 0 ≤ bh < 2 ^ 8) as (? & ? & ?) by (unfold bl, bm, bh; dlia).
  destruct (word_fields 103 bl bm 0x89 0 0 bh) as (E1 & E2 & _ & E4); try lia.
  rewrite !Z.mul_0_r, !Z.add_0_r in *. rewrite E1, E2, E4. split_and!; [|done|done].
  unfold bits_of, bl, bm, bh. rewrite Z.pow_0_r, Z.div_1_r, !Z.mod_mod by lia.
  clear - Ht. dlia.
Qed.

(** A gate with a handler in the kernel's code segment. *)
Record gate_ok (handler dpl : Z) (g : IdtSegment) : Prop := GateOk {
  gk_offset : gate_offset (gate_words g) = handler;
  gk_selector : gate_selector (gate_words g) = KERNEL_CODE_SELECTOR;
  gk_type : gate_type (gate_words g) = IDT_INTERRUPT_GATE;
  gk_ist : gate_ist (gate_words g) = 0;
  gk_dpl : gate_dpl (gate_words g) = dpl;
  gk_present : gate_present (gate_words g) = true;
}.

Lemma gate_decodes handler dpl :
  0 ≤ handler < 2 ^ 64 → 0 ≤ dpl < 4 →
  gate_ok handler dpl (IdtSegment_create_entry handler 0 IDT_INTERRUPT_GATE dpl KERNEL_CODE_SELECTOR).
Proof.
  intros Hh Hd.
  assert (idt_attribute IDT_INTERRUPT_GATE dpl = 0x8e + 32 * dpl) as Ea.
  { assert (dpl = 0 ∨ dpl = 1 ∨ dpl = 2 ∨ dpl = 3) as Hd' by lia.
    by destruct Hd' as [->|[->|[->| ->]]]. }
  split; unfold gate_offset, gate_selector, gate_type, gate_ist, gate_dpl, gate_present, bits_of,
    gate_words, IdtSegment_create_entry; rewrite Ea;
    cbn [fst snd is_base_low is_selector is_ist is_type_attributes is_base_mid is_base_high is_reserved];
    mask_arith; unfold KERNEL_CODE_SELECTOR, IDT_INTERRUPT_GATE; try apply Z.eqb_eq; dlia.
Qed.

(** The loop fills the table in the order of the vectors. *)
Lemma idt_loop isr_table (Q : list IdtSegment → Prop) :
  (∀ table, length table = 256%nat →
     (∀ v, 0 ≤ v < 256 → table !! Z.to_nat v =
        Some (IdtSegment_create_entry (isr_table v) 0 IDT_INTERRUPT_GATE IDT_DPL0
                KERNEL_CODE_SELECTOR)) → Q table) →
  returns (loop 257 (idt_body isr_table) (replicate 256 IdtSegment_zero, 0, IDT_DPL0)) Q.
Proof.
  intros HQ.
  apply (loop_returns _ (λ '(table, v, _), length table = 256%nat ∧ 0 ≤ v ≤ 256 ∧
    ∀ u, 0 ≤ u < v → table !! Z.to_nat u =
      Some (IdtSegment_create_entry (isr_table u) 0 IDT_INTERRUPT_GATE IDT_DPL0
              KERNEL_CODE_SELECTOR)) (λ '(_, v, _), Z.to_nat (256 - v))).
  - intros [[table v] dpl] (Hlen & Hv & Ht). unfold idt_body, MAX_IDT_ENTRIES.
    destruct (Z.ltb_spec v 256); cbn [negb returns].
    + split; [|lia]. rewrite length_insert. split_and!; [done|lia|lia|].
      intros u Hu. destruct (decide (u = v)) as [->|].
      * apply list_lookup_insert_eq. lia.
      * rewrite list_lookup_insert_ne by lia. apply Ht. lia.
    + apply HQ; [done|]. intros u Hu. apply Ht. lia.
  - split_and!; [by rewrite length_replicate|lia|lia|lia].
  - lia.
Qed.

(** * Properties *)

(** The descriptor tables, as the processor reads them after
    [gdt::initialize]: a null segment, kernel code and data of ring 0 and user
    data and code of ring 3 at the selectors of [registers.h], flat, present and
    the code in long mode; then a 64-bit task segment with the address of [tss]
    to its last bit.  The lock is free again, and the table's size is loaded with
    its address. *)
Theorem gdt_initialize_segments tss table lock :
  0 ≤ tss < 2 ^ 64 → lock_free lock →
  returns (gdt_initialize tss table lock) (λ '(gdt, lock', events),
    segment_word <$> gt_table gdt =
      [0; 0x00af9a000000ffff; 0x00cf92000000ffff; 0x00cff2000000ffff; 0x00affa000000ffff] ∧
    segment_base (tss_words (gt_tss gdt)).1 + 2 ^ 32 * bits_of 0 32 (tss_words (gt_tss gdt)).2 = tss ∧
    segment_limit (tss_words (gt_tss gdt)).1 = sizeof_Tss - 1 ∧
    segment_access (tss_words (gt_tss gdt)).1 = 0x89 ∧
    events = [LoadGdt 55 table; LoadTss] ∧ lock_free lock').
Proof.
  intros Ht Hl. destruct (mutex_lock_free _ Hl) as (l & Hlk & Hheld). unfold gdt_initialize.
  rewrite Hlk, bind_ok. cbn [returns]. split; [by vm_compute|].
  destruct (tss_base_decodes tss Ht) as (E1 & E2 & E3).
  split_and!; [exact E1|exact E2|exact E3|done|by apply mutex_unlock_held].
Qed.

(** After [interrupts::initialize], which ends, every one of the 256 vectors
    has a present interrupt gate to its entry of [isr_table], in the kernel's
    code segment, that only ring 0 may call: the breakpoint's too, although its
    case of the [switch] asks for ring 3. *)
Theorem idt_initialize_gates isr_table idt_table :
  (∀ v, 0 ≤ v < 256 → 0 ≤ isr_table v < 2 ^ 64) →
  returns (interrupts_initialize isr_table idt_table) (λ '(table, events),
    length table = 256%nat ∧ events = [LoadIdt 4095 idt_table] ∧
    ∀ v, 0 ≤ v < 256 → ∃ g, table !! Z.to_nat v = Some g ∧ gate_ok (isr_table v) 0 g).
Proof.
  intros Hisr. unfold interrupts_initialize. bind_step. apply idt_loop.
  intros table Hlen Ht. cbn [returns]. split_and!; [done|done|]. intros v Hv.
  eexists. split; [by apply Ht|]. apply gate_decodes; [by apply Hisr|unfold IDT_DPL0; lia].
Qed.

Lemma gdt_initialize_segments_witness :
  returns (gdt_initialize 0xffffffff80012340 0xffffffff80020000 TicketLock_init)
    (λ '(gdt, lock', events),
      segment_word <$> gt_table gdt =
        [0; 0x00af9a000000ffff; 0x00cf92000000ffff; 0x00cff2000000ffff; 0x00affa000000ffff] ∧
      segment_base (tss_words (gt_tss gdt)).1 + 2 ^ 32 * bits_of 0 32 (tss_words (gt_tss gdt)).2 =
        0xffffffff80012340 ∧
      segment_limit (tss_words (gt_tss gdt)).1 = sizeof_Tss - 1 ∧
      segment_access (tss_words (gt_tss gdt)).1 = 0x89 ∧
      events = [LoadGdt 55 0xffffffff80020000; LoadTss] ∧ lock_free lock').
Proof.
  apply (gdt_initialize_segments 0xffffffff80012340 0xffffffff80020000 TicketLock_init).
  - lia.
  - split; [reflexivity|simpl; lia].
Defined.

Lemma idt_initialize_gates_witness :
  returns (interrupts_initialize (λ v, 0xffffffff80000000 + 64 * v) 4096) (λ '(table, events),
    length table = 256%nat ∧ events = [LoadIdt 4095 4096] ∧
    ∀ v, 0 ≤ v < 256 →
      ∃ g, table !! Z.to_nat v = Some g ∧ gate_ok (0xffffffff80000000 + 64 * v) 0 g).
Proof. apply (idt_initialize_gates (λ v, 0xffffffff80000000 + 64 * v) 4096). lia. Defined.
