(* ===== verification/Trap.v ===== *)
(** * Exceptions, stack traces and static destructors

    What the kernel does with an exception ([kernel/arch/amd64/cpu/idt.cpp]), how
    it follows the frame pointers of a stack ([kernel/libs/trace.c]), and the
    table of [kernel/libs/__cxa_atexit.c].  A message to the log is a value;
    TrapLog has its text. *)
From S2P Require Import Prelude Mem Gdt.

(** ** [dump_stacktrace] *)

Definition STACKTRACE_MAX : Z := 64.

(** A [struct Stackframe]: the next frame and the return address. *)
Definition frame_next (m : mem) (frame : Z) : outcome Z := ld64 m frame.
Definition frame_return_address (m : mem) (frame : Z) : outcome Z := ld64 m (u64 (frame + 8)).

(** One turn; its state is the frame, [i] and what was logged, oldest first. *)
Definition stacktrace_body (m : mem) (s : Z * Z * list (Z * Z))
    : outcome (Z * Z * list (Z * Z) + list (Z * Z)) :=
  let '(frame, i, out) := s in
  if frame =? 0 then Ok (inr out) else
  if negb (i <? STACKTRACE_MAX) then Ok (inr out) else
  let i := i + 1 in
  address ← frame_return_address m frame;
  frame ← frame_next m frame;
  if address =? 0 then Ok (inr out) else
  Ok (inl (frame, i, out ++ [(i, address)])).

(** From the frame of the caller. *)
Definition dump_stacktrace (m : mem) (frame : Z) : outcome (list (Z * Z)) :=
  loop 66 (stacktrace_body m) (frame, 0, []).

(** ** Exceptions *)

Record Iframe := {
  rdi : Z; rsi : Z; rbp : Z; rbx : Z; rdx : Z; rcx : Z; rax : Z;
  r8 : Z; r9 : Z; r10 : Z; r11 : Z; r12 : Z; r13 : Z; r14 : Z; r15 : Z;
  vector : Z;
  err_code : Z;
  ip : Z; cs : Z; flags : Z;
  user_sp : Z; user_ss : Z;
}.

Definition PAGE_FAULT_PRESENT : Z := Z.shiftl 1 0.
Definition PAGE_FAULT_WRITE : Z := Z.shiftl 1 1.
Definition PAGE_FAULT_USER : Z := Z.shiftl 1 2.
Definition PAGE_FAULT_RESERVE_WRITE : Z := Z.shiftl 1 3.
Definition PAGE_FAULT_INSTRUCTION_FETCH : Z := Z.shiftl 1 4.
Definition PAGE_FAULT_SHADOW_STACK : Z := Z.shiftl 1 6.

(** What a page fault's report says: the instruction, the stack, the address, the
    code, and by the code's bits who did what. *)
Record page_fault := {
  pf_instruction : Z * Z;
  pf_stack : Z * Z;
  pf_address : Z;
  pf_code : Z;
  pf_user : bool;
  pf_write : bool;
  pf_fetch : bool;
  pf_reserved : bool;
  pf_shadow : bool;
  pf_present : bool;
}.

(** The messages of the handlers; the last one halts. *)
Inductive report :=
  | Stacktrace (frames : list (Z * Z))
  | PageFault (pf : page_fault)
  | Registers (values : list Z)
  | UnhandledException (vector : Z)
  | InterruptTriggered (vector : Z)
  | NmiCalled.

(** The values in the order of the six messages, with their labels
    [CS RIP EFL RAX RBX RCX RDX RSI RBP RSP R8 .. R15 EC USP USS]. *)
Definition dump_interrupt_frame (f : Iframe) : report :=
  Registers
    [cs f; ip f; flags f; rax f; rbx f; rcx f; rdx f; rsi f; rbp f; rsi f; r8 f; r9 f;
     r10 f; r11 f; r12 f; r13 f; r14 f; r15 f; err_code f; user_sp f; user_ss f].

Definition flag_set (x mask : Z) : bool := negb (Z.land x mask =? 0).

Definition dump_page_fault_error (f : Iframe) (cr2 : Z) : report :=
  let error_code := err_code f in
  let virt_addr := cr2 in
  let ssp := Z.land (user_ss f) 0xffffffff in
  let sp := user_sp f in
  let cs := Z.land (cs f) 0xffffffff in
  PageFault
    {| pf_instruction := (cs, ip f);
       pf_stack := (ssp, sp);
       pf_address := virt_addr;
       pf_code := error_code;
       pf_user := flag_set error_code PAGE_FAULT_USER;
       pf_write := flag_set error_code PAGE_FAULT_WRITE;
       pf_fetch := flag_set error_code PAGE_FAULT_INSTRUCTION_FETCH;
       pf_reserved := flag_set error_code PAGE_FAULT_RESERVE_WRITE;
       pf_shadow := flag_set error_code PAGE_FAULT_SHADOW_STACK;
       pf_present := flag_set error_code PAGE_FAULT_PRESENT |}.

(** [cpu::interrupts::exception_handler]; [frame] is the handler's own frame and
    [cr2] the faulting address, from the processor. *)
Definition interrupts_exception_handler (m : mem) (frame cr2 : Z) (f : Iframe)
    : outcome (list report) :=
  trace ← dump_stacktrace m frame;
  Ok ([Stacktrace trace] ++
      (if err_code f =? EXCEPTION_PAGE_FAULT then [dump_page_fault_error f cr2] else []) ++
      [dump_interrupt_frame f; UnhandledException (vector f)]).

(** The entry from assembly; [log_panik] does not return. *)
Definition exception_handler (m : mem) (frame cr2 : Z) (f : Iframe) : outcome (list report) :=
  if vector f <? 0x20 then interrupts_exception_handler m frame cr2 f
  else Ok [InterruptTriggered (vector f)].

Definition nmi_handler : list report := [NmiCalled].

(** ** [__cxa_atexit] *)

Definition ATEXIT_MAX_FUNCS : Z := 128.

Record AtExitFunc := { destructor_func : Z; obj_ptr : Z; dso_handle : Z }.

Definition AtExitFunc_zero : AtExitFunc :=
  {| destructor_func := 0; obj_ptr := 0; dso_handle := 0 |}.

Record atexit := { atexit_funcs : list AtExitFunc; atexit_func_count : Z }.

Definition atexit_start : atexit :=
  {| atexit_funcs := replicate 128 AtExitFunc_zero; atexit_func_count := 0 |}.

Definition cxa_atexit (func objptr dso : Z) (s : atexit) : atexit * Z :=
  if ATEXIT_MAX_FUNCS <=? atexit_func_count s then (s, -1) else
  let entry := {| destructor_func := func; obj_ptr := objptr; dso_handle := dso |} in
  ({| atexit_funcs := <[Z.to_nat (atexit_func_count s) := entry]> (atexit_funcs s);
      atexit_func_count := u32 (atexit_func_count s + 1) |}, 0).

(** ** What they mean *)

(** A stack as linked frames: each frame's address and the return address in it,
    up to a null link or a null return address. *)
Fixpoint frames_at (m : mem) (frame : Z) (l : list Z) : Prop :=
  match l with
  | [] => frame = 0 ∨ (frame ≠ 0 ∧ ld64 m (u64 (frame + 8)) = Ok 0 ∧ ∃ next, ld64 m frame = Ok next)
  | address :: l' =>
      frame ≠ 0 ∧ address ≠ 0 ∧ ld64 m (u64 (frame + 8)) = Ok address ∧
      ∃ next, ld64 m frame = Ok next ∧ frames_at m next l'
  end.

(** The frames [F] can be read and lead to one another or end: a stack that may
    be corrupt, and may have a cycle. *)
Definition frames_closed (m : mem) (F : gset Z) : Prop :=
  ∀ frame, frame ∈ F → (∃ a, ld64 m (u64 (frame + 8)) = Ok a) ∧
    ∃ next, ld64 m frame = Ok next ∧ (next = 0 ∨ next ∈ F).

(** The functions registered, in order. *)
Definition registered (s : atexit) : list AtExitFunc :=
  take (Z.to_nat (atexit_func_count s)) (atexit_funcs s).

Record atexit_ok (s : atexit) : Prop := AtexitOk {
  ae_length : length (atexit_funcs s) = 128%nat;
  ae_count : 0 ≤ atexit_func_count s ≤ 128;
}.

(** * Lemmas *)

Lemma stacktrace_loop m l : ∀ frame i out fuel,
  0 ≤ i ≤ 64 → frames_at m frame l → (Z.to_nat (64 - i) + 1 ≤ fuel)%nat →
  loop fuel (stacktrace_body m) (frame, i, out) =
  Ok (out ++ imap (λ k a, (i + 1 + Z.of_nat k, a)) (take (Z.to_nat (64 - i)) l)).
Proof.
  induction l as [|a l IH]; intros frame i out fuel Hi Hl Hf;
    (destruct fuel as [|fuel]; [lia|]); rewrite loop_S; unfold stacktrace_body at 2; unfold STACKTRACE_MAX.
  - rewrite take_nil; cbn [imap]. rewrite app_nil_r.
    destruct Hl as [->|(Hn & Ha & next & Hx)]; [done|]. rewrite (proj2 (Z.eqb_neq frame 0)) by done.
    destruct (i <? 64); cbn [negb]; [|done]. unfold frame_return_address, frame_next.
    by rewrite Ha, bind_ok, Hx, bind_ok.
  - destruct Hl as (Hn & Ha & Hr & next & Hx & Hl). rewrite (proj2 (Z.eqb_neq frame 0)) by done.
    destruct (Z.ltb_spec i 64); cbn [negb].
    + unfold frame_return_address, frame_next. rewrite Hr, bind_ok, Hx, bind_ok.
      rewrite (proj2 (Z.eqb_neq a 0)) by done. rewrite bind_ok.
      rewrite IH by (done || lia). replace (Z.to_nat (64 - i)) with (S (Z.to_nat (64 - (i + 1)))) by lia.
      cbn [take imap]. rewrite <-app_assoc. do 2 f_equal. cbn [app]. f_equal; [f_equal; lia|].
      apply imap_ext. intros k x _. cbn. f_equal. lia.
    + rewrite bind_ok. replace (Z.to_nat (64 - i)) with O by lia. cbn [take imap].
      by rewrite app_nil_r.
Qed.

Lemma stacktrace_returns m F frame i out fuel :
  frames_closed m F → frame = 0 ∨ frame ∈ F → 0 ≤ i ≤ 64 → Z.of_nat (length out) = i →
  (Z.to_nat (64 - i) + 1 ≤ fuel)%nat →
  returns (loop fuel (stacktrace_body m) (frame, i, out)) (λ out', (length out' ≤ 64)%nat).
Proof.
  intros Hm HF Hi Hlen Hf.
  apply (loop_returns _
    (λ '(frame, i, out), (frame = 0 ∨ frame ∈ F) ∧ 0 ≤ i ≤ 64 ∧ Z.of_nat (length out) = i)
    (λ '(_, i, _), Z.to_nat (64 - i))); [|done|lia].
  clear frame HF i out Hi Hlen Hf. intros [[frame i] out] (HF & Hi & Hlen).
  unfold stacktrace_body, STACKTRACE_MAX. destruct (Z.eqb_spec frame 0) as [|Hn]; [cbn; lia|].
  destruct (Z.ltb_spec i 64); cbn [negb]; [|cbn; lia].
  destruct HF as [|HF]; [done|]. destruct (Hm frame HF) as [[a Ha] (next & Hx & Hnext)].
  unfold frame_return_address, frame_next.
  rewrite Ha, bind_ok, Hx, bind_ok. destruct (a =? 0); cbn [returns]; [lia|].
  rewrite length_app. cbn. split; [|lia]. split; [done|lia].
Qed.

Lemma registered_next s :
  atexit_ok s → atexit_func_count s < 128 → ∀ f o d,
  let s' := (cxa_atexit f o d s).1 in
  atexit_ok s' ∧ registered s' =
    registered s ++ [{| destructor_func := f; obj_ptr := o; dso_handle := d |}].
Proof.
  intros [Hlen Hc] Hlt f o d. unfold cxa_atexit, ATEXIT_MAX_FUNCS.
  rewrite (proj2 (Z.leb_gt _ _)) by lia. cbn [fst]. rewrite u32_small by lia. split.
  - split; cbn; [by rewrite length_insert|lia].
  - unfold registered. cbn [atexit_func_count atexit_funcs].
    replace (Z.to_nat (atexit_func_count s + 1)) with (S (Z.to_nat (atexit_func_count s))) by lia.
    rewrite (take_S_r _ _ {| destructor_func := f; obj_ptr := o; dso_handle := d |}).
    + by rewrite take_insert_ge.
    + apply list_lookup_insert_eq. lia.
Qed.

(** * Properties *)

(** The trace of a stack that is in order: the return addresses of its
    frames, numbered from one, up to the first 64 of them. *)
Theorem stacktrace_follows_frames m frame l :
  frames_at m frame l →
  dump_stacktrace m frame = Ok (imap (λ k a, (1 + Z.of_nat k, a)) (take 64 l)).
Proof. intros Hl. unfold dump_stacktrace. by rewrite (stacktrace_loop m l) by (done || lia). Qed.

(** Whatever a stack's frames hold, and even if they are linked in a cycle,
    the trace ends, with no more than 64 entries. *)
Theorem stacktrace_ends m F frame :
  frames_closed m F → frame ∈ F → returns (dump_stacktrace m frame) (λ out, (length out ≤ 64)%nat).
Proof. intros Hm HF. apply (stacktrace_returns m F); [done|by right|lia|done|lia]. Qed.

(** An exception reports the stack, then the registers and its vector, and in
    between a page fault exactly when its error code is the number of the page
    fault's vector: the vector itself is not asked for, and a page fault, whose
    code is a set of flags, is as a rule not reported as one. *)
Theorem page_fault_report_by_error_code m frame cr2 f l :
  frames_at m frame l → 0 ≤ vector f < 0x20 →
  ∃ reports, exception_handler m frame cr2 f = Ok reports ∧
    head reports = Some (Stacktrace (imap (λ k a, (1 + Z.of_nat k, a)) (take 64 l))) ∧
    (∃ pre, reports = pre ++ [dump_interrupt_frame f; UnhandledException (vector f)]) ∧
    ((∃ pf, PageFault pf ∈ reports) ↔ err_code f = EXCEPTION_PAGE_FAULT).
Proof.
  intros Hl Hv. unfold exception_handler. rewrite (proj2 (Z.ltb_lt _ _)) by lia.
  unfold interrupts_exception_handler, dump_stacktrace.
  rewrite (stacktrace_loop m l), bind_ok by (done || lia). eexists. split; [done|].
  split; [done|]. split; [by rewrite app_assoc; eexists|].
  destruct (Z.eqb_spec (err_code f) EXCEPTION_PAGE_FAULT) as [E|E].
  - split; [done|]. intros _. unfold dump_page_fault_error. eexists. right. left.
  - split; [|done]. intros [pf Hpf]. unfold dump_interrupt_frame in Hpf. set_solver.
Qed.

(** [__cxa_atexit] keeps the first 128 functions registered, in order, and
    refuses every other one without a change. *)
Theorem atexit_registers l :
  let s := foldl (λ s e, (cxa_atexit (destructor_func e) (obj_ptr e) (dso_handle e) s).1)
             atexit_start l in
  registered s = take 128 l ∧
  ∀ f o d, (cxa_atexit f o d s).2 = if decide (length l < 128)%nat then 0 else -1.
Proof.
  cut (∀ s, atexit_ok s → let s' := foldl (λ s e, (cxa_atexit (destructor_func e) (obj_ptr e)
      (dso_handle e) s).1) s l in
    atexit_ok s' ∧ registered s' = registered s ++ take (Z.to_nat (128 - atexit_func_count s)) l ∧
    atexit_func_count s' = Z.min 128 (atexit_func_count s + Z.of_nat (length l))).
  { intros H. destruct (H atexit_start) as (_ & Hr & Hc); [by split|]. cbv zeta in *.
    set (s := foldl _ atexit_start l) in *. clearbody s. split; [by rewrite Hr|].
    intros f o d. unfold cxa_atexit, ATEXIT_MAX_FUNCS. rewrite Hc. cbn [atexit_func_count atexit_start].
    destruct (Z.leb_spec 128 (Z.min 128 (0 + Z.of_nat (length l)))), (decide _); try done; lia. }
  induction l as [|[f o d] l IH]; intros s Hs; cbn [foldl].
  { destruct (Hs). cbv zeta. rewrite take_nil, app_nil_r. cbn [length]. split_and!; [done|done|lia]. }
  destruct (decide (atexit_func_count s < 128)) as [Hlt|Hge].
  - destruct (registered_next s Hs Hlt f o d) as [Hs' Hr']. cbn [destructor_func obj_ptr dso_handle].
    destruct (IH _ Hs') as (Hok & Hr & Hc).
    assert (atexit_func_count (cxa_atexit f o d s).1 = atexit_func_count s + 1) as E.
    { unfold cxa_atexit, ATEXIT_MAX_FUNCS. destruct Hs.
      rewrite (proj2 (Z.leb_gt _ _)) by lia. cbn. by rewrite u32_small by lia. }
    split_and!; [done| |].
    + rewrite Hr, Hr', E, <-app_assoc. f_equal.
      replace (Z.to_nat (128 - atexit_func_count s)) with
        (S (Z.to_nat (128 - (atexit_func_count s + 1)))) by (destruct Hs; lia). done.
    + rewrite Hc, E. cbn [length]. lia.
  - assert (atexit_func_count s = 128) as E by (destruct Hs; lia).
    assert ((cxa_atexit f o d s).1 = s) as Es.
    { unfold cxa_atexit, ATEXIT_MAX_FUNCS. by rewrite (proj2 (Z.leb_le _ _)) by lia. }
    cbn [destructor_func obj_ptr dso_handle]. rewrite Es. destruct (IH s Hs) as (Hok & Hr & Hc).
    split_and!; [done| |].
    + rewrite Hr, E. done.
    + rewrite Hc, E. cbn [length]. lia.
Qed.

(** * Instances *)

(** Two frames, the second the last. *)
Definition sample_stack : mem :=
  mem_of 4096 ([16; 16; 0; 0; 0; 0; 0; 0] ++ [7; 0; 0; 0; 0; 0; 0; 0] ++
               [0; 0; 0; 0; 0; 0; 0; 0] ++ [9; 0; 0; 0; 0; 0; 0; 0]).

Lemma sample_frames : frames_at sample_stack 4096 [7; 9].
Proof.
  split; [done|]. split; [done|]. split; [by vm_compute|]. exists 4112. split; [by vm_compute|].
  split; [done|]. split; [done|]. split; [by vm_compute|]. exists 0. split; [by vm_compute|]. by left.
Qed.

Lemma stacktrace_follows_frames_witness :
  dump_stacktrace sample_stack 4096 = Ok [(1, 7); (2, 9)].
Proof. exact (stacktrace_follows_frames sample_stack 4096 [7; 9] sample_frames). Defined.

(** A frame linked to itself. *)
Definition sample_cycle : mem :=
  mem_of 4096 ([0; 16; 0; 0; 0; 0; 0; 0] ++ [7; 0; 0; 0; 0; 0; 0; 0]).

Lemma stacktrace_ends_witness :
  frames_closed sample_cycle {[4096]} ∧
  returns (dump_stacktrace sample_cycle 4096) (λ out, (length out ≤ 64)%nat).
Proof.
  assert (frames_closed sample_cycle {[4096]}) as Hc.
  { intros frame ->%elem_of_singleton. split; [exists 7; by vm_compute|].
    exists 4096. split; [by vm_compute|]. right. set_solver. }
  split; [exact Hc|]. apply (stacktrace_ends sample_cycle {[4096]} 4096 Hc). set_solver.
Defined.

Definition sample_iframe (code : Z) : Iframe :=
  {| rdi := 1; rsi := 2; rbp := 3; rbx := 4; rdx := 5; rcx := 6; rax := 7;
     r8 := 8; r9 := 9; r10 := 10; r11 := 11; r12 := 12; r13 := 13; r14 := 14; r15 := 15;
     vector := 14; err_code := code; ip := 0x1000; cs := 8; flags := 2;
     user_sp := 0x2000; user_ss := 16 |}.

(** A write to a page that is not present: a page fault that is not reported. *)
Lemma page_fault_report_by_error_code_witness :
  ∃ reports, exception_handler sample_stack 4096 0x5000 (sample_iframe 2) = Ok reports ∧
    ¬ ∃ pf, PageFault pf ∈ reports.
Proof.
  destruct (page_fault_report_by_error_code sample_stack 4096 0x5000 (sample_iframe 2) [7; 9]
    sample_frames) as (reports & E & _ & _ & Hpf); [simpl; lia|].
  exists reports. split; [exact E|]. rewrite Hpf. discriminate.
Defined.
