(* ===== verification/TrapLog.v ===== *)
(** * The text of the exception handlers: [idt.cpp], [libs/trace.c]

    The handlers of Trap with their messages as the log writes them, and what each
    report reads like on the console. *)
From S2P Require Import Prelude Mem MemCopy MemSet MemCmp CString Ctype Strto Stdio Print PrintText.
From S2P Require Import PrintSpec PrintNumber PrintParse PrintFormat Logger LogText Gdt Trap.
Import (notations) String.

(** ** The handlers *)

Section handlers.
Context (lit : list Z → Z) (fuel : nat).

Definition panic_msg (format : list Z) : list Z → console → outcome console :=
  log_panic lit fuel (lit format).
Definition print_stacktrace_body (s : Z * Z * console) : outcome (Z * Z * console + console) :=
  let '(frame, i, c) := s in
  if frame =? 0 then Ok (inr c) else
  if negb (i <? STACKTRACE_MAX) then Ok (inr c) else
  let i := i + 1 in
  address ← frame_return_address (io_mem (stderr c)) frame;
  frame ← frame_next (io_mem (stderr c)) frame;
  if address =? 0 then Ok (inr c) else
  c ← log_trace lit fuel (lit (text "Frame #%d -> %p")) [i; address] c;
  Ok (inl (frame, i, c)).

Definition print_stacktrace (frame : Z) (c : console) : outcome console :=
  loop 66 print_stacktrace_body (frame, 0, c).

Definition print_interrupt_frame (f : Iframe) (c : console) : outcome console :=
  c ← panic_msg (text "CS : 0x%.16lx RIP: 0x%.16lx EFL: 0x%.16lx") [cs f; ip f; flags f] c;
  c ← panic_msg (text "RAX: 0x%.16lx RBX: 0x%.16lx RCX: 0x%.16lx") [rax f; rbx f; rcx f] c;
  c ← panic_msg (text "RDX: 0x%.16lx RSI: 0x%.16lx RBP: 0x%.16lx") [rdx f; rsi f; rbp f] c;
  c ← panic_msg (text "RSP: 0x%.16lx R8 : 0x%.16lx R9 : 0x%.16lx") [rsi f; r8 f; r9 f] c;
  c ← panic_msg (text "R10: 0x%.16lx R11: 0x%.16lx R12: 0x%.16lx") [r10 f; r11 f; r12 f] c;
  c ← panic_msg (text "R13: 0x%.16lx R14: 0x%.16lx R15: 0x%.16lx") [r13 f; r14 f; r15 f] c;
  panic_msg (text "EC : 0x%.16lx USP: 0x%.16lx USS: 0x%.16lx") [err_code f; user_sp f; user_ss f] c.

(** The string one of two literals the code chooses by a bit of the error code. *)
Definition choose (error_code mask : Z) (yes no : String.string) : Z :=
  if flag_set error_code mask then lit (text yes) else lit (text no).

Definition print_page_fault_error (f : Iframe) (cr2 : Z) (c : console) : outcome console :=
  let error_code := err_code f in
  let virt_addr := cr2 in
  let ssp := Z.land (user_ss f) 0xffffffff in
  let sp := user_sp f in
  let cs := Z.land (cs f) 0xffffffff in
  let ip := ip f in
  c ← panic_msg (text "<PAGE FAULT> Instruction Pointer  = 0x%lx:0x%lx") [cs; ip] c;
  c ← panic_msg (text "<PAGE FAULT> Stack Pointer        = 0x%lx:0x%lx") [ssp; sp] c;
  c ← panic_msg (text "<PAGE FAULT> Fault Linear Address = 0x%lx") [virt_addr] c;
  c ← panic_msg (text "<PAGE FAULT> Error Code Value     = 0x%lx") [error_code] c;
  panic_msg (text "<PAGE FAULT> Error Code Type      = %s %s %s%s %s, %s")
    [choose error_code PAGE_FAULT_USER "user" "supervisor";
     choose error_code PAGE_FAULT_WRITE "write" "read";
     choose error_code PAGE_FAULT_INSTRUCTION_FETCH "instruction" "data";
     choose error_code PAGE_FAULT_RESERVE_WRITE "reserved write" "";
     choose error_code PAGE_FAULT_SHADOW_STACK "shadow stack" "";
     choose error_code PAGE_FAULT_PRESENT "protection violation" "page not present"] c.

(** The consoles with which the handlers halt. *)
Definition print_interrupts_exception (frame cr2 : Z) (f : Iframe) (c : console) : outcome console :=
  c ← print_stacktrace frame c;
  c ← (if err_code f =? EXCEPTION_PAGE_FAULT then print_page_fault_error f cr2 c else Ok c);
  c ← print_interrupt_frame f c;
  log_panik lit fuel (lit (text "Unhandled Exception 0x%lx!")) [vector f] c.

Definition print_exception (frame cr2 : Z) (f : Iframe) (c : console) : outcome console :=
  if vector f <? 0x20 then print_interrupts_exception frame cr2 f c
  else log_panik lit fuel (lit (text "Interrupt 0x%.16lx triggered!")) [vector f] c.

Definition print_nmi (c : console) : outcome console :=
  log_panik lit fuel (lit (text "nmi_handler()  called!")) [] c.
End handlers.

(** ** What a report reads like *)

Definition frame_line (fr : Z * Z) : list Z :=
  line LOG_LEVEL_TRACE
    (text "Frame #" ++ natural_digits 10 false fr.1 ++ text " -> 0x" ++ hex16 fr.2).

(** Registers, three to a line. *)
Definition register_text (r : String.string * Z) : list Z := text r.1 ++ text ": 0x" ++ hex16 r.2.
Fixpoint register_lines (l : list (String.string * Z)) : list Z :=
  match l with
  | x :: y :: z :: l =>
      line LOG_LEVEL_PANIC
        (register_text x ++ text " " ++ register_text y ++ text " " ++ register_text z) ++
      register_lines l
  | _ => []
  end.
Definition register_names : list String.string :=
  ["CS "; "RIP"; "EFL"; "RAX"; "RBX"; "RCX"; "RDX"; "RSI"; "RBP"; "RSP"; "R8 "; "R9 ";
   "R10"; "R11"; "R12"; "R13"; "R14"; "R15"; "EC "; "USP"; "USS"]%string.

Definition word (b : bool) (yes no : String.string) : list Z := text (if b then yes else no).
Definition page_fault_line (what : String.string) (value : list Z) : list Z :=
  line LOG_LEVEL_PANIC (text "<PAGE FAULT> " ++ text what ++ text " = " ++ value).
Definition page_fault_lines (pf : page_fault) : list Z :=
  page_fault_line "Instruction Pointer "
    (text "0x" ++ hex (pf_instruction pf).1 ++ text ":0x" ++ hex (pf_instruction pf).2) ++
  page_fault_line "Stack Pointer       "
    (text "0x" ++ hex (pf_stack pf).1 ++ text ":0x" ++ hex (pf_stack pf).2) ++
  page_fault_line "Fault Linear Address" (text "0x" ++ hex (pf_address pf)) ++
  page_fault_line "Error Code Value    " (text "0x" ++ hex (pf_code pf)) ++
  page_fault_line "Error Code Type     "
    (word (pf_user pf) "user" "supervisor" ++ text " " ++ word (pf_write pf) "write" "read" ++
     text " " ++ word (pf_fetch pf) "instruction" "data" ++
     word (pf_reserved pf) "reserved write" "" ++ text " " ++
     word (pf_shadow pf) "shadow stack" "" ++ text ", " ++
     word (pf_present pf) "protection violation" "page not present").

Definition fatal (l : list Z) : list Z := fatal_banner ++ line LOG_LEVEL_PANIC l ++ stop_banner.
Definition report_text (r : report) : list Z :=
  match r with
  | Stacktrace frames => concat (map frame_line frames)
  | PageFault pf => page_fault_lines pf
  | Registers values => register_lines (zip register_names values)
  | UnhandledException v => fatal (text "Unhandled Exception 0x" ++ hex v ++ text "!")
  | InterruptTriggered v => fatal (text "Interrupt 0x" ++ hex16 v ++ text " triggered!")
  | NmiCalled => fatal (text "nmi_handler()  called!")
  end.

(** * Lemmas *)

Lemma ldn_ok_range n m a v : bytes_ok m → ldn n m a = Ok v → 0 ≤ v < 2 ^ (8 * Z.of_nat n).
Proof.
  intros Hb. revert a v. induction n as [|n IH]; intros a v; [intros [= <-]; simpl; lia|].
  cbn [ldn]. unfold ld8. destruct (m !! a) as [b|] eqn:Eb; [|done]. cbn [of_option]. rewrite bind_ok.
  destruct (ldn n m (a + 1)) as [w| | | |] eqn:E; try done. rewrite bind_ok. intros [= <-].
  apply IH in E. apply Hb in Eb.
  replace (8 * Z.of_nat (S n)) with (8 + 8 * Z.of_nat n) by lia. rewrite Z.pow_add_r by lia. nia.
Qed.

Lemma ld64_ok_range m a v : bytes_ok m → ld64 m a = Ok v → 0 ≤ v < 2 ^ 64.
Proof. intros Hb. by apply (ldn_ok_range 8). Qed.

Section prints.
Context (lit : list Z → Z) (fuel : nat) (strings : Z → option (list Z)).

(** The literals of the handlers. *)
Definition trap_formats : list (list Z) := map text
  ["Frame #%d -> %p"; "CS : 0x%.16lx RIP: 0x%.16lx EFL: 0x%.16lx";
   "RAX: 0x%.16lx RBX: 0x%.16lx RCX: 0x%.16lx"; "RDX: 0x%.16lx RSI: 0x%.16lx RBP: 0x%.16lx";
   "RSP: 0x%.16lx R8 : 0x%.16lx R9 : 0x%.16lx"; "R10: 0x%.16lx R11: 0x%.16lx R12: 0x%.16lx";
   "R13: 0x%.16lx R14: 0x%.16lx R15: 0x%.16lx"; "EC : 0x%.16lx USP: 0x%.16lx USS: 0x%.16lx";
   "<PAGE FAULT> Instruction Pointer  = 0x%lx:0x%lx";
   "<PAGE FAULT> Stack Pointer        = 0x%lx:0x%lx";
   "<PAGE FAULT> Fault Linear Address = 0x%lx"; "<PAGE FAULT> Error Code Value     = 0x%lx";
   "<PAGE FAULT> Error Code Type      = %s %s %s%s %s, %s";
   "Unhandled Exception 0x%lx!"; "Interrupt 0x%.16lx triggered!"; "nmi_handler()  called!"]%string.
Definition trap_words : list (list Z) := map text
  ["user"; "supervisor"; "write"; "read"; "instruction"; "data"; "reserved write"; "shadow stack";
   ""; "protection violation"; "page not present"]%string.

(** A console with these where the linker put them. *)
Definition trap_console (c : console) : Prop :=
  console_ok lit fuel strings c ∧
  Forall (λ l, strings (lit l) = Some l) (trap_formats ++ trap_words).

Lemma trap_told t c : trap_console c → trap_console (told t c).
Proof. intros [? ?]. split; [by apply told_ok|done]. Qed.

Lemma trap_format l : l ∈ trap_formats → format_ok l = true.
Proof.
  assert (Forall (λ l, format_ok l = true) trap_formats) as H by listed.
  intros Hl. by apply (proj1 (Forall_forall _ _) H), list_elem_of_In.
Qed.

Lemma trap_literal c l :
  trap_console c → l ∈ trap_formats ++ trap_words → strings (lit l) = Some l.
Proof. intros [_ H] Hl. by apply (proj1 (Forall_forall _ _) H), list_elem_of_In. Qed.

Lemma trap_msg_writes level l args t c :
  trap_console c → 0 ≤ level < 6 → l ∈ trap_formats →
  format_text strings (pieces_of l) args = Some t →
  log_msg lit fuel level (lit l) args c = Ok (told (line level t) c).
Proof.
  intros Hc Hl Hin Ht. apply (literal_msg_writes lit fuel strings); try done;
    [apply Hc| |by apply trap_format].
  apply (trap_literal c); [done|]. apply elem_of_app. by left.
Qed.

Lemma trap_panik_writes l args t c :
  trap_console c → l ∈ trap_formats → format_text strings (pieces_of l) args = Some t →
  log_panik lit fuel (lit l) args c = Ok (told (fatal t) c).
Proof.
  intros Hc Hin Ht. apply (literal_panik_writes lit fuel strings); try done;
    [apply Hc| |by apply trap_format].
  apply (trap_literal c); [done|]. apply elem_of_app. by left.
Qed.

(** A word chosen by a bit is one of the literals. *)
Lemma choose_string c error_code mask yes no :
  trap_console c → text yes ∈ trap_words → text no ∈ trap_words →
  strings (u64 (choose lit error_code mask yes no)) = Some (word (flag_set error_code mask) yes no).
Proof.
  intros Hc Hy Hn. unfold choose, word.
  assert (∀ l, l ∈ trap_words → strings (u64 (lit l)) = Some l) as H.
  { intros l Hl. assert (strings (lit l) = Some l) as E.
    { apply (trap_literal c); [done|]. apply elem_of_app. by right. }
    by rewrite (string_place _ _ _ _ _ _ (proj1 (proj1 Hc)) E). }
  destruct (flag_set _ _); by apply H.
Qed.

Lemma word_s8 l : l ∈ trap_words → map s8 l = l.
Proof.
  assert (Forall (λ l, map s8 l = l) trap_words) as H by (apply (bool_decide_unpack _); by vm_compute).
  intros Hl. by apply (proj1 (Forall_forall _ _) H), list_elem_of_In.
Qed.

Lemma format_text_choice c error_code mask yes no ps args rest :
  trap_console c → text yes ∈ trap_words → text no ∈ trap_words →
  format_text strings ps args = Some rest →
  format_text strings (string_piece :: ps) (choose lit error_code mask yes no :: args) =
  Some (word (flag_set error_code mask) yes no ++ rest).
Proof.
  intros Hc Hy Hn Hr. rewrite <-(word_s8 (word _ yes no)) by (unfold word; by destruct flag_set).
  apply format_text_string; [by apply (choose_string c)|done].
Qed.

(** One message of the handlers, of text [t]; [place] says which format it is. *)
Ltac render_string ::= eapply format_text_choice; [eassumption|listed|listed|].
Ltac message t :=
  rewrite (trap_msg_writes _ _ _ t);
  [|repeat apply trap_told; eassumption|done|listed|rendered].

Definition registers (n1 n2 n3 : String.string) (v1 v2 v3 : Z) : list Z :=
  register_text (n1, v1) ++ text " " ++ register_text (n2, v2) ++ text " " ++ register_text (n3, v3).

Lemma print_registers f c :
  trap_console c →
  print_interrupt_frame lit fuel f c = Ok (told (report_text (dump_interrupt_frame f)) c).
Proof.
  intros Hc. unfold print_interrupt_frame, panic_msg, log_panic.
  message (registers "CS " "RIP" "EFL" (cs f) (ip f) (flags f)). rewrite bind_ok.
  message (registers "RAX" "RBX" "RCX" (rax f) (rbx f) (rcx f)). rewrite bind_ok.
  message (registers "RDX" "RSI" "RBP" (rdx f) (rsi f) (rbp f)). rewrite bind_ok.
  message (registers "RSP" "R8 " "R9 " (rsi f) (r8 f) (r9 f)). rewrite bind_ok.
  message (registers "R10" "R11" "R12" (r10 f) (r11 f) (r12 f)). rewrite bind_ok.
  message (registers "R13" "R14" "R15" (r13 f) (r14 f) (r15 f)). rewrite bind_ok.
  message (registers "EC " "USP" "USS" (err_code f) (user_sp f) (user_ss f)).
  rewrite !told_told. do 2 f_equal.
  cbn [report_text dump_interrupt_frame register_names zip zip_with register_lines].
  by rewrite app_nil_r.
Qed.

Lemma print_page_fault f cr2 c :
  trap_console c →
  print_page_fault_error lit fuel f cr2 c = Ok (told (report_text (dump_page_fault_error f cr2)) c).
Proof.
  intros Hc. unfold print_page_fault_error, panic_msg, log_panic.
  message (text "<PAGE FAULT> Instruction Pointer  = 0x" ++ hex (Z.land (cs f) 0xffffffff) ++
    text ":0x" ++ hex (ip f)). rewrite bind_ok.
  message (text "<PAGE FAULT> Stack Pointer        = 0x" ++ hex (Z.land (user_ss f) 0xffffffff) ++
    text ":0x" ++ hex (user_sp f)). rewrite bind_ok.
  message (text "<PAGE FAULT> Fault Linear Address = 0x" ++ hex cr2). rewrite bind_ok.
  message (text "<PAGE FAULT> Error Code Value     = 0x" ++ hex (err_code f)). rewrite bind_ok.
  message (text "<PAGE FAULT> Error Code Type      = " ++
    (word (flag_set (err_code f) PAGE_FAULT_USER) "user" "supervisor" ++ text " " ++
     word (flag_set (err_code f) PAGE_FAULT_WRITE) "write" "read" ++ text " " ++
     word (flag_set (err_code f) PAGE_FAULT_INSTRUCTION_FETCH) "instruction" "data" ++
     word (flag_set (err_code f) PAGE_FAULT_RESERVE_WRITE) "reserved write" "" ++ text " " ++
     word (flag_set (err_code f) PAGE_FAULT_SHADOW_STACK) "shadow stack" "" ++ text ", " ++
     word (flag_set (err_code f) PAGE_FAULT_PRESENT) "protection violation" "page not present")).
  by rewrite !told_told.
Qed.

(** The stack trace on the console follows the one kept as a list: one turn, and
    the loop. *)
Lemma print_stacktrace_step frame i out r c :
  trap_console c → bytes_ok (io_mem (stderr c)) → 0 ≤ i →
  stacktrace_body (io_mem (stderr c)) (frame, i, out) = Ok r →
  match r with
  | inr res => res = out ∧ print_stacktrace_body lit fuel (frame, i, c) = Ok (inr c)
  | inl (frame', i', out') => ∃ x, i' = i + 1 ∧ out' = out ++ [x] ∧
      print_stacktrace_body lit fuel (frame, i, c) = Ok (inl (frame', i', told (frame_line x) c))
  end.
Proof.
  intros Hc Hb Hi. unfold stacktrace_body, print_stacktrace_body.
  destruct (frame =? 0); [by intros [= <-]|].
  destruct (Z.ltb_spec i STACKTRACE_MAX) as [Hlt|]; cbn [negb]; [|by intros [= <-]].
  destruct (frame_return_address _ frame) as [a| | | |] eqn:Ea; try done. rewrite !bind_ok.
  destruct (frame_next _ frame) as [next| | | |]; try done. rewrite !bind_ok.
  destruct (Z.eqb_spec a 0) as [->|Ha]; [by intros [= <-]|]. intros [= <-].
  exists (i + 1, a). split; [done|]. split; [done|]. apply ld64_ok_range in Ea; [|done].
  unfold STACKTRACE_MAX in Hlt. unfold log_trace.
  rewrite (trap_msg_writes _ _ _ (text "Frame #" ++ natural_digits 10 false (i + 1) ++
    text " -> 0x" ++ hex16 a)); [done|done|done|listed|].
  assert (u64 a ≠ 0) by (by rewrite u64_small). rendered.
Qed.

Lemma print_stacktrace_loop n frame i out res c :
  trap_console c → bytes_ok (io_mem (stderr c)) → 0 ≤ i →
  loop n (stacktrace_body (io_mem (stderr c))) (frame, i, out) = Ok res →
  ∃ l, res = out ++ l ∧
  loop n (print_stacktrace_body lit fuel) (frame, i, c) =
  Ok (told (concat (map frame_line l)) c).
Proof.
  revert frame i out res c. induction n as [|n IH]; intros frame i out res c Hc Hb Hi; [done|].
  rewrite !loop_S.
  destruct (stacktrace_body _ _) as [r| | | |] eqn:E; try done. rewrite bind_ok.
  pose proof (print_stacktrace_step _ _ _ _ _ Hc Hb Hi E) as H. destruct r as [[[frame' i'] out']|res'].
  - destruct H as (x & -> & -> & ->). rewrite bind_ok. intros Hr.
    destruct (IH _ (i + 1) _ _ (told (frame_line x) c) (trap_told _ _ Hc) Hb ltac:(lia) Hr) as (l & -> & ->).
    exists (x :: l). rewrite <-app_assoc. by rewrite told_told.
  - destruct H as [-> ->]. rewrite bind_ok. intros [= <-]. exists []. rewrite app_nil_r.
    split; [done|]. rewrite (told_nil lit fuel strings); [done|apply Hc].
Qed.

Lemma print_stacktrace_writes frame frames c :
  trap_console c → bytes_ok (io_mem (stderr c)) →
  dump_stacktrace (io_mem (stderr c)) frame = Ok frames →
  print_stacktrace lit fuel frame c = Ok (told (report_text (Stacktrace frames)) c).
Proof.
  intros Hc Hb Hr. unfold print_stacktrace.
  by destruct (print_stacktrace_loop 66 frame 0 [] frames c Hc Hb ltac:(lia) Hr) as (l & -> & ->).
Qed.

(** The reports of a handler as text, in order. *)
Definition reports_text (l : list report) : list Z := concat (map report_text l).

Lemma reports_cons r l : reports_text (r :: l) = report_text r ++ reports_text l.
Proof. done. Qed.

Lemma reports_app l1 l2 : reports_text (l1 ++ l2) = reports_text l1 ++ reports_text l2.
Proof. unfold reports_text. by rewrite map_app, concat_app. Qed.

Lemma print_exception_writes frame cr2 f reports c :
  trap_console c → bytes_ok (io_mem (stderr c)) →
  exception_handler (io_mem (stderr c)) frame cr2 f = Ok reports →
  print_exception lit fuel frame cr2 f c = Ok (told (reports_text reports) c).
Proof.
  intros Hc Hb. unfold exception_handler, print_exception. destruct (vector f <? 0x20).
  - unfold interrupts_exception_handler, print_interrupts_exception.
    destruct (dump_stacktrace _ frame) as [frames| | | |] eqn:E; try done.
    rewrite bind_ok, (print_stacktrace_writes _ _ _ Hc Hb E), bind_ok. intros [= <-].
    set (c1 := told _ c). assert (trap_console c1) as Hc1 by by apply trap_told.
    assert ((if err_code f =? EXCEPTION_PAGE_FAULT then print_page_fault_error lit fuel f cr2 c1
             else Ok c1) =
            Ok (told (reports_text (if err_code f =? EXCEPTION_PAGE_FAULT
                                    then [dump_page_fault_error f cr2] else [])) c1)) as ->.
    { destruct (err_code f =? _); [|rewrite (told_nil lit fuel strings); [done|apply Hc1]].
      rewrite print_page_fault by done. unfold reports_text. cbn [map concat]. by rewrite app_nil_r. }
    rewrite bind_ok, print_registers, bind_ok by by apply trap_told.
    rewrite (trap_panik_writes _ _ (text "Unhandled Exception 0x" ++ hex (vector f) ++ text "!"));
      [|by do 2 apply trap_told|listed|rendered].
    unfold c1. rewrite !told_told. rewrite reports_cons, reports_app, !reports_cons.
    by rewrite app_nil_r.
  - intros [= <-].
    rewrite (trap_panik_writes _ _ (text "Interrupt 0x" ++ hex16 (vector f) ++ text " triggered!"));
      [|done|listed|rendered]. unfold reports_text. cbn [map concat]. by rewrite app_nil_r.
Qed.
End prints.

(** * Properties *)

(** C18. What an exception leaves on the console.  On any readable stack, corrupt
    or cyclic ones included, the handler comes to its end, and the console it halts
    with has exactly the text of the reports of Trap's handler, in order: the
    numbered return addresses, after them a page fault's five lines if the error
    code is the page fault's vector, the registers three to a line with sixteen
    digits each, and the vector between the banners of a fatal error. *)
Theorem exception_console lit fuel strings F frame cr2 f c :
  trap_console lit fuel strings c → bytes_ok (io_mem (stderr c)) →
  frames_closed (io_mem (stderr c)) F → frame ∈ F →
  ∃ reports, exception_handler (io_mem (stderr c)) frame cr2 f = Ok reports ∧
    print_exception lit fuel frame cr2 f c = Ok (told (reports_text reports) c).
Proof.
  intros Hc Hb HF Hin.
  assert (∃ reports, exception_handler (io_mem (stderr c)) frame cr2 f = Ok reports) as [reports E].
  { unfold exception_handler, interrupts_exception_handler. destruct (_ <? _); [|by eexists].
    destruct (returns_inv (dump_stacktrace (io_mem (stderr c)) frame) (λ _, True)) as (l & -> & _);
      [|by eexists].
    eapply returns_mono; [|done].
    apply (stacktrace_returns _ F); [done|by right|lia|done|lia]. }
  exists reports. split; [done|]. by eapply print_exception_writes.
Qed.

(** ** A concrete exception *)

(** The image of the log with the handlers' literals, and behind it a stack of two
    frames. *)
Definition trap_image : list (list Z) := logger_literals ++ trap_formats ++ trap_words.
Definition trap_stack : Z := 4096 + 128 * Z.of_nat (length trap_image).
Definition word_bytes (v : Z) : list Z := map (byte_of v) [0; 1; 2; 3; 4; 5; 6; 7].
Definition trap_mem : mem :=
  mem_of 4096 (image trap_image ++ word_bytes (trap_stack + 16) ++ word_bytes 0x1234 ++
               word_bytes 0 ++ word_bytes 0x5678).
Definition trap_sample : console :=
  Console (default_style (image_lit trap_image)) (sample_device trap_mem).

Lemma trap_sample_ok : trap_console (image_lit trap_image) 128 (image_strings trap_image) trap_sample.
Proof.
  split; [split; [split|done]|].
  - split; [apply sample_device_ok|]. by exists (λ _, 0).
  - apply image_strings_at; [lia|]. by vm_compute.
  - apply (bool_decide_unpack _). by vm_compute.
  - apply (bool_decide_unpack _). by vm_compute.
Qed.

(** A breakpoint. *)
Lemma exception_console_witness :
  ∃ text, print_exception (image_lit trap_image) 128 trap_stack 0 (sample_iframe 0) trap_sample =
    Ok (told text trap_sample) ∧
    text = frame_line (1, 0x1234) ++ frame_line (2, 0x5678) ++
           report_text (dump_interrupt_frame (sample_iframe 0)) ++
           fatal (chars_of "Unhandled Exception 0xe!").
Proof.
  destruct (exception_console (image_lit trap_image) 128 (image_strings trap_image)
    {[trap_stack; trap_stack + 16]} trap_stack 0 (sample_iframe 0) trap_sample trap_sample_ok)
    as (reports & E & Hp).
  - apply mem_of_bytes_ok. apply (bool_decide_unpack _). by vm_compute.
  - intros frame [->%elem_of_singleton | ->%elem_of_singleton]%elem_of_union.
    + split; [exists 0x1234; by vm_compute|]. exists (trap_stack + 16). split; [by vm_compute|].
      right. set_solver.
    + split; [exists 0x5678; by vm_compute|]. exists 0. split; [by vm_compute|by left].
  - set_solver.
  - exists (reports_text reports). split; [exact Hp|].
    assert (exception_handler (io_mem (stderr trap_sample)) trap_stack 0 (sample_iframe 0) =
      Ok [Stacktrace [(1, 0x1234); (2, 0x5678)]; dump_interrupt_frame (sample_iframe 0);
          UnhandledException 14]) as E2 by by vm_compute.
    rewrite E2 in E. injection E as <-. by vm_compute.
Defined.
