(* ===== verification/Cpuid.v ===== *)
(** * Processor features: [kernel/arch/amd64/cpu/features.cpp], [features.h]

    [read_cpuid] runs the [cpuid] instruction for leaves the processor has, and
    [test_feature] reads one bit of a leaf.  The instruction is the processor's:
    a parameter.  The highest leaf is asked for once and kept in a static
    variable, which is the state. *)
From S2P Require Import Prelude Stdio.

Definition SYSTEM_ERR_INVALID_ARGS : Z := -10.

(** The four registers, and a feature's leaf, register and bit. *)
Record CpuidLeaf := { values : list Z }.
Record CpuidBit := { leaf : Z; word : Z; bit_ : Z }.

Definition CpuidLeaf_zero : CpuidLeaf := {| values := [0; 0; 0; 0] |}.

(** [CPUID_BIT] *)
Definition CPUID_BIT (l w b : Z) : CpuidBit := {| leaf := l; word := w; bit_ := b |}.

Definition CPUID_BASE : Z := 0.
Definition CPUID_MODEL_FEATURES : Z := 0x1.
Definition CPUID_THERMAL_AND_POWER : Z := 0x6.
Definition CPUID_EXTENDED_FEATURE_FLAGS : Z := 0x7.
Definition CPUID_EXT_BASE : Z := 0x80000000.
Definition CPUID_FEATS : Z := 0x80000001.
Definition CPUID_ADDR_WIDTH : Z := 0x80000008.

(** The header's features of each leaf, as [(word, bit)], in its order. *)
Definition model_features : list CpuidBit :=
  (λ '(w, b), CPUID_BIT CPUID_MODEL_FEATURES w b) <$>
    [(2, 0); (2, 3); (2, 5); (2, 8); (2, 9); (2, 15); (2, 17); (2, 19); (2, 20); (2, 21);
     (2, 24); (2, 25); (2, 26); (2, 28); (2, 30); (2, 31); (3, 0); (3, 11); (3, 19); (3, 22);
     (3, 23); (3, 24); (3, 25); (3, 26); (3, 29)].
Definition thermal_features : list CpuidBit :=
  (λ '(w, b), CPUID_BIT CPUID_THERMAL_AND_POWER w b) <$>
    [(0, 0); (0, 1); (0, 4); (0, 6); (0, 7); (0, 8); (0, 9); (0, 10); (0, 14); (2, 0); (2, 3)].
Definition extended_features : list CpuidBit :=
  (λ '(w, b), CPUID_BIT CPUID_EXTENDED_FEATURE_FLAGS w b) <$>
    [(1, 0); (1, 1); (1, 5); (1, 7); (1, 9); (1, 10); (1, 16); (1, 17); (1, 18); (1, 20);
     (1, 21); (1, 23); (1, 24); (1, 25); (1, 26); (1, 27); (1, 28); (1, 30); (1, 31); (2, 1);
     (2, 2); (2, 3); (2, 6); (2, 11); (2, 12); (2, 14); (3, 2); (3, 3); (3, 10); (3, 26);
     (3, 27); (3, 28); (3, 29); (3, 31)].
Definition amd_features : list CpuidBit :=
  [CPUID_BIT CPUID_FEATS 2 22; CPUID_BIT CPUID_FEATS 3 11; CPUID_BIT CPUID_FEATS 3 20;
   CPUID_BIT CPUID_FEATS 3 26; CPUID_BIT CPUID_FEATS 3 27; CPUID_BIT CPUID_ADDR_WIDTH 1 3].

Definition FEATURE_HUGE_PAGE : CpuidBit := CPUID_BIT CPUID_FEATS 3 26.
Definition FEATURE_SSE3 : CpuidBit := CPUID_BIT CPUID_MODEL_FEATURES 2 0.

Section cpuid.
(** The instruction: the registers [eax] to [edx] for a leaf and a subleaf. *)
Context (cpuid : Z → Z → CpuidLeaf).

(** What [ecx] holds when the highest leaf is asked for. *)
Context (ecx : Z).

Definition value (l : CpuidLeaf) (w : Z) : Z := nth (Z.to_nat w) (values l) 0.

(** The static [cpuid_max], the leaf and the result. *)
Definition read_cpuid (leaf_num subleaf_num cpuid_max : Z) : Z * CpuidLeaf * Z :=
  let cpuid_max :=
    if cpuid_max =? 0 then value (cpuid (Z.land leaf_num 0x80000000) ecx) 0 else cpuid_max in
  if cpuid_max <? leaf_num then (cpuid_max, CpuidLeaf_zero, SYSTEM_ERR_INVALID_ARGS)
  else (cpuid_max, cpuid leaf_num subleaf_num, SYSTEM_OK).

Definition test_feature (b : CpuidBit) (cpuid_max : Z) : Z * bool :=
  if (3 <? word b) || (31 <? bit_ b) then (cpuid_max, false) else
  let '(cpuid_max, l, ret) := read_cpuid (leaf b) 0 cpuid_max in
  if negb (ret =? SYSTEM_OK) then (cpuid_max, false) else
  (cpuid_max, negb (Z.land (u32 (Z.shiftl 1 (bit_ b))) (value l (word b)) =? 0)).

(** ** What is asked for *)

(** The highest leaf of a leaf's class, basic or extended. *)
Definition class_max (l : Z) : Z := value (cpuid (Z.land l 0x80000000) ecx) 0.

Definition has_feature (b : CpuidBit) : bool :=
  (leaf b <=? class_max (leaf b)) && Z.testbit (value (cpuid (leaf b) 0) (word b)) (bit_ b).

Definition bit_ok (b : CpuidBit) : Prop := 0 ≤ leaf b ∧ 0 ≤ word b ≤ 3 ∧ 0 ≤ bit_ b ≤ 31.

#[global] Instance bit_ok_dec b : Decision (bit_ok b).
Proof. unfold bit_ok. apply _. Defined.

(** * Lemmas *)

Lemma land_pow2_testbit x k : 0 ≤ k → negb (Z.land (2 ^ k) x =? 0) = Z.testbit x k.
Proof using Type.
  intros Hk. rewrite Z.land_comm. destruct (Z.eqb_spec (Z.land x (2 ^ k)) 0) as [E|E]; cbn [negb].
  - symmetry. apply (f_equal (λ z, Z.testbit z k)) in E.
    rewrite Z.land_spec, Z.pow2_bits_true, andb_true_r, Z.bits_0 in E by done. done.
  - symmetry. destruct (Z.testbit x k) eqn:Ex; [done|]. destruct E. apply Z.bits_inj'.
    intros n Hn. rewrite Z.land_spec, Z.bits_0, Z.pow2_bits_eqb by done.
    destruct (Z.eqb_spec k n) as [<-|]; [by rewrite Ex|apply andb_false_r].
Qed.

(** The answer while the static variable holds [cpuid_max]. *)
Lemma test_feature_eq b cpuid_max :
  bit_ok b → let max := if cpuid_max =? 0 then class_max (leaf b) else cpuid_max in
  test_feature b cpuid_max =
    (max, (leaf b <=? max) && Z.testbit (value (cpuid (leaf b) 0) (word b)) (bit_ b)).
Proof using Type.
  intros (Hl & Hw & Hb). cbv zeta. unfold test_feature, read_cpuid.
  rewrite (proj2 (Z.ltb_ge 3 _)), (proj2 (Z.ltb_ge 31 _)) by lia. cbn [orb].
  fold (class_max (leaf b)). set (max := if cpuid_max =? 0 then _ else _).
  rewrite Z.leb_antisym. destruct (max <? leaf b); cbn [negb andb]; [done|]. cbn [Z.eqb SYSTEM_OK negb].
  rewrite Z.shiftl_1_l, u32_small, land_pow2_testbit; [done|lia|].
  pose proof (Z.pow_pos_nonneg 2 (bit_ b)). pose proof (Z.pow_lt_mono_r 2 (bit_ b) 32). lia.
Qed.

(** * Properties *)

(** The first feature that is asked for is answered as the processor says:
    the bit of a leaf it has. *)
Theorem test_feature_first b :
  bit_ok b → (test_feature b 0).2 = has_feature b.
Proof using Type. intros Hb. by rewrite test_feature_eq. Qed.

(** The class of the first leaf asked for sticks.  When it was a basic one,
    every extended leaf is refused from then on, whatever the processor has; when
    it was an extended one, the highest basic leaf is not looked at any more. *)
Theorem test_feature_class_sticks b b' :
  bit_ok b → bit_ok b' → 0 < class_max (leaf b) →
  let max := (test_feature b 0).1 in
  (class_max (leaf b) < 0x80000000 → 0x80000000 ≤ leaf b' → (test_feature b' max).2 = false) ∧
  (0x80000000 ≤ class_max (leaf b) → leaf b' < 0x80000000 →
   (test_feature b' max).2 = Z.testbit (value (cpuid (leaf b') 0) (word b')) (bit_ b')).
Proof using Type.
  intros Hb Hb' Hpos. rewrite test_feature_eq by done. cbn [fst Z.eqb].
  rewrite test_feature_eq by done. rewrite (proj2 (Z.eqb_neq (class_max (leaf b)) 0)) by lia.
  cbn [snd]. split; intros H1 H2.
  - by rewrite (proj2 (Z.leb_gt _ _)) by lia.
  - by rewrite (proj2 (Z.leb_le _ _)) by lia.
Qed.
End cpuid.

(** No two features of the header are the same bit, and all of them can be asked
    for. *)
Lemma features_distinct :
  let all := model_features ++ thermal_features ++ extended_features ++ amd_features in
  length all = 76%nat ∧
  Forall bit_ok all ∧ NoDup ((λ b, (leaf b, word b, bit_ b)) <$> all).
Proof.
  cbv zeta. split; [done|]. split.
  - apply (bool_decide_unpack _). by vm_compute.
  - apply (bool_decide_unpack _). by vm_compute.
Qed.

(** A processor with basic leaves to 0x16 and extended ones to 0x80000008. *)
Definition sample_cpuid (l subleaf : Z) : CpuidLeaf :=
  if l =? 0 then {| values := [0x16; 0; 0; 0] |}
  else if l =? 0x80000000 then {| values := [0x80000008; 0; 0; 0] |}
  else {| values := [0xffffffff; 0xffffffff; 0xffffffff; 0xffffffff] |}.

Lemma test_feature_first_witness :
  (test_feature sample_cpuid 0 FEATURE_HUGE_PAGE 0).2 = has_feature sample_cpuid 0 FEATURE_HUGE_PAGE ∧
  has_feature sample_cpuid 0 FEATURE_HUGE_PAGE = true.
Proof.
  split; [|by vm_compute]. apply (test_feature_first sample_cpuid 0 FEATURE_HUGE_PAGE).
  apply (bool_decide_unpack _). by vm_compute.
Defined.

(** Asking for SSE3 first makes huge pages disappear. *)
Lemma test_feature_class_sticks_witness :
  (test_feature sample_cpuid 0 FEATURE_HUGE_PAGE (test_feature sample_cpuid 0 FEATURE_SSE3 0).1).2 =
    false.
Proof.
  refine (proj1 (test_feature_class_sticks sample_cpuid 0 FEATURE_SSE3 FEATURE_HUGE_PAGE _ _ _) _ _);
    [apply (bool_decide_unpack _); by vm_compute..|by vm_compute|by vm_compute|by vm_compute].
Defined.
