(* ===== verification/Uart.v ===== *)
(** * The serial port: [kernel/arch/amd64/drivers/uart/uart.cpp], [drivers.cpp]

    A 16550 behind eight I/O ports.  The chip is a parameter, a state with what
    reading and writing a port do to it; [putc] polls it, and ends when it
    becomes ready. *)
From S2P Require Import Prelude Stdio.

(** ** Registers *)

Definition UART_COM_PORT_1 : Z := 0x3f8.
Definition UART_DATA : Z := 0.
Definition UART_INTERRUPT : Z := 1.
Definition UART_INTERRUPT_IDENTIFACTOR : Z := 2.
Definition UART_LINE_CONTROL : Z := 3.
Definition UART_MODEM_CONTROL : Z := 4.
Definition UART_LINE_STATUS : Z := 5.
Definition UART_BAUD_RATE_LOW : Z := UART_DATA.
Definition UART_BAUD_RATE_HIGH : Z := UART_INTERRUPT.
Definition UART_FIFO_CONTROLLER : Z := UART_INTERRUPT_IDENTIFACTOR.
Definition UART_LINE_DS_8 : Z := 3.
Definition UART_LINE_DLAB_STATUS : Z := Z.shiftl 1 7.
Definition UART_MODEM_DTR : Z := Z.shiftl 1 0.
Definition UART_MODEM_RTS : Z := Z.shiftl 1 1.
Definition UART_MODEM_OUT1 : Z := Z.shiftl 1 2.
Definition UART_MODEM_OUT2 : Z := Z.shiftl 1 3.
Definition UART_MODEM_LOOPBACK : Z := Z.shiftl 1 4.
Definition UART_LINE_TRANSMITTER_BUF_EMPTY : Z := Z.shiftl 1 5.
Definition UART_ENABLE_FIFO : Z := Z.shiftl 1 0.
Definition UART_FIFO_CLEAR_RECEIVE : Z := Z.shiftl 1 1.
Definition UART_FIFO_CLEAR_TRANSMIT : Z := Z.shiftl 1 2.
Definition UART_FIFO_TRIGGER_LEVEL4 : Z := Z.shiftl 3 6.

Definition SYSTEM_ERR_IO_INVALID : Z := -47.

(** ** Operations *)

Section uart.
(** The chip: [inb] and [outb] of the processor, on a state of the chip. *)
Context {D : Type} (inp : Z → D → Z * D) (outp : Z → Z → D → D).

(** The global [uart_port], and the chip. *)
Record uart := Uart { uart_port : Z; uart_chip : D }.

Definition write_register (reg val : Z) (s : uart) : uart :=
  {| uart_port := uart_port s; uart_chip := outp (u16 (uart_port s + reg)) (u8 val) (uart_chip s) |}.

Definition read_register (reg : Z) (s : uart) : Z * uart :=
  let '(v, d) := inp (u16 (uart_port s + reg)) (uart_chip s) in
  (u8 v, {| uart_port := uart_port s; uart_chip := d |}).

(** The [while] loop of [putc]. *)
Definition putc_body (s : uart) : outcome (uart + uart) :=
  let '(v, s) := read_register UART_LINE_STATUS s in
  if Z.land v UART_LINE_TRANSMITTER_BUF_EMPTY =? 0 then Ok (inl s) else Ok (inr s).

Definition uart_putc (fuel : nat) (c : Z) (s : uart) : outcome (uart * Z) :=
  s ← loop fuel putc_body s;
  Ok (write_register UART_DATA c s, SYSTEM_OK).

Definition set_port (port : Z) (s : uart) : uart :=
  {| uart_port := port; uart_chip := uart_chip s |}.

Definition uart_initialize (s : uart) : uart * Z :=
  let s := write_register UART_INTERRUPT_IDENTIFACTOR 0 s in
  let s := write_register UART_LINE_CONTROL UART_LINE_DLAB_STATUS s in
  let s := write_register UART_BAUD_RATE_LOW 3 s in
  let s := write_register UART_BAUD_RATE_HIGH 0 s in
  let s := write_register UART_LINE_CONTROL UART_LINE_DS_8 s in
  let s := write_register UART_FIFO_CONTROLLER
             (Z.lor (Z.lor (Z.lor UART_ENABLE_FIFO UART_FIFO_CLEAR_RECEIVE)
                       UART_FIFO_CLEAR_TRANSMIT) UART_FIFO_TRIGGER_LEVEL4) s in
  let s := write_register UART_MODEM_CONTROL
             (Z.lor (Z.lor (Z.lor UART_MODEM_RTS UART_MODEM_DTR) UART_MODEM_OUT2)
                UART_MODEM_LOOPBACK) s in
  let s := write_register UART_DATA 0xae s in
  let '(v, s) := read_register UART_DATA s in
  if negb (v =? 0xae) then (s, SYSTEM_ERR_IO_INVALID) else
  let s := write_register UART_MODEM_CONTROL
             (Z.lor (Z.lor (Z.lor UART_MODEM_RTS UART_MODEM_DTR) UART_MODEM_OUT1)
                UART_MODEM_OUT2) s in
  (s, SYSTEM_OK).

(** The stream behind [stdin], [stdout] and [stderr]: its function is [putc],
    which answers [SYSTEM_OK] whenever it answers. *)
Definition simple_file : FILE := File (2 ^ 31 - 1) 0 0 (Some (λ _, SYSTEM_OK)).

(** The result of [uart::initialize] is looked at and dropped. *)
Definition arch_initialize (s : uart) : uart * FILE :=
  let s := set_port UART_COM_PORT_1 s in
  let '(s, ret) := uart_initialize s in
  (s, simple_file).

(** ** Polling *)

Definition poll (s : uart) : uart := (read_register UART_LINE_STATUS s).2.
Definition polls (n : nat) (s : uart) : uart := Nat.iter n poll s.

(** The transmitter's buffer is empty. *)
Definition ready (s : uart) : bool :=
  negb (Z.land (read_register UART_LINE_STATUS s).1 UART_LINE_TRANSMITTER_BUF_EMPTY =? 0).

(** The chip becomes ready after [n] polls, and not before. *)
Definition ready_after (n : nat) (s : uart) : Prop :=
  ready (polls n s) = true ∧ ∀ k, (k < n)%nat → ready (polls k s) = false.

(** * Lemmas *)

Lemma putc_body_eq s : putc_body s = Ok (if ready s then inr (poll s) else inl (poll s)).
Proof using Type.
  unfold putc_body, ready, poll. destruct (read_register UART_LINE_STATUS s) as [v s'].
  cbn [fst snd]. by destruct (_ =? 0).
Qed.

Lemma polls_poll n s : polls n (poll s) = polls (S n) s.
Proof using Type. unfold polls. by rewrite Nat.iter_succ_r. Qed.

Lemma putc_loop n : ∀ s fuel,
  ready_after n s → (n < fuel)%nat → loop fuel putc_body s = Ok (polls (S n) s).
Proof using Type.
  induction n as [|n IH]; intros s [|fuel] [Hr Hb] Hf; try lia;
    rewrite loop_S, putc_body_eq, bind_ok.
  - change (ready (polls 0 s)) with (ready s) in Hr. by rewrite Hr.
  - rewrite (Hb O ltac:(lia) : ready s = false). rewrite IH; [by rewrite polls_poll| |lia].
    split; [by rewrite polls_poll|]. intros k Hk. rewrite polls_poll. apply Hb. lia.
Qed.

(** * Properties *)

(** C38. [putc] ends when the transmitter becomes ready, after one more poll than
    it was not; it has then written the character once, to the data register,
    and nothing else. *)
Theorem putc_ends n fuel c s :
  ready_after n s → (n < fuel)%nat →
  uart_putc fuel c s = Ok (write_register UART_DATA c (polls (S n) s), SYSTEM_OK).
Proof using Type. intros Hr Hf. unfold uart_putc. by rewrite (putc_loop n). Qed.

(** A transmitter that never becomes ready makes [putc] spin for ever. *)
Lemma putc_spins fuel c s :
  (∀ n, ready (polls n s) = false) → uart_putc fuel c s = NoFuel.
Proof using Type.
  intros Hb. unfold uart_putc. cut (loop fuel putc_body s = NoFuel); [by intros ->|].
  revert s Hb. induction fuel as [|fuel IH]; intros s Hb; [done|].
  rewrite loop_S, putc_body_eq, (Hb O : ready s = false), bind_ok. apply IH.
  intros n. rewrite polls_poll. apply Hb.
Qed.
End uart.

Arguments Uart {D}.
Arguments uart_port {D}.
Arguments uart_chip {D}.

(** ** A chip that keeps what is written *)

(** The writes to the chip, oldest first; reading the data port gives [echo]. *)
Definition log_outp (port val : Z) (d : list (Z * Z)) : list (Z * Z) := d ++ [(port, val)].
Definition log_inp (echo : Z) (port : Z) (d : list (Z * Z)) : Z * list (Z * Z) := (echo, d).

(** The state of the line control register after the writes [d]. *)
Definition line_control (port : Z) (d : list (Z * Z)) : Z :=
  foldl (λ v '(p, x), if p =? port + UART_LINE_CONTROL then x else v) 0 d.

(** The writes of [uart::initialize] as pairs of a register and a value. *)
Definition setup_writes : list (Z * Z) :=
  [(UART_FIFO_CONTROLLER, 0); (UART_LINE_CONTROL, 0x80); (UART_DATA, 3); (UART_INTERRUPT, 0);
   (UART_LINE_CONTROL, 3); (UART_FIFO_CONTROLLER, 0xc7); (UART_MODEM_CONTROL, 0x1b);
   (UART_DATA, 0xae)].
Definition on_port (port : Z) : list (Z * Z) → list (Z * Z) := map (λ '(r, v), (port + r, v)).

Lemma uart_initialize_trace port echo :
  0 ≤ port → port + 7 < 2 ^ 16 → 0 ≤ echo < 2 ^ 8 →
  uart_initialize (log_inp echo) log_outp (Uart port []) =
  if echo =? 0xae
  then (Uart port (on_port port (setup_writes ++ [(UART_MODEM_CONTROL, 0x0f)])), SYSTEM_OK)
  else (Uart port (on_port port setup_writes), SYSTEM_ERR_IO_INVALID).
Proof.
  intros Hp Hp' He.
  assert (Hu : ∀ r, 0 ≤ r ≤ 7 → u16 (port + r) = port + r) by (intros; apply u16_small; lia).
  unfold uart_initialize, write_register, read_register, log_inp, log_outp.
  cbn [uart_port uart_chip app]. rewrite !Hu by done.
  rewrite (u8_small echo) by lia. by destruct (echo =? 0xae) eqn:E.
Qed.

Lemma line_control_on_port port w :
  line_control port (on_port port w) =
  foldl (λ v '(r, x), if r =? UART_LINE_CONTROL then x else v) 0 w.
Proof.
  unfold line_control. generalize 0.
  induction w as [|[r x] w IH]; intros v; cbn [foldl on_port map]; [done|].
  rewrite <-IH. unfold on_port. f_equal.
  destruct (Z.eqb_spec (port + r) (port + UART_LINE_CONTROL)),
    (Z.eqb_spec r UART_LINE_CONTROL); done || lia.
Qed.

(** The writes before one to [reg] are a prefix of the list. *)
Lemma on_port_split port w pre reg val post :
  on_port port w = pre ++ (port + reg, val) :: post →
  ∃ v post', w = v ++ (reg, val) :: post' ∧ pre = on_port port v.
Proof.
  revert pre. induction w as [|[r x] w IH]; intros [|y pre] H; [done..| |];
    cbn [on_port map app] in H; fold (on_port port w) in H.
  - injection H as H1 H2 H3. subst. assert (r = reg) as -> by lia. by exists [], w.
  - injection H as H1 H2. subst. destruct (IH _ H2) as (v & post' & -> & ->).
    by exists ((r, x) :: v), post'.
Qed.

(** [uart::initialize] succeeds exactly when the chip loops the byte it is
    sent back; it has then opened the divisor latch, written the divisor 3 and
    left the latch closed, with eight data bits, and loop-back off.  No write
    reaches the interrupt enable register, which is port 1 while the latch is
    closed: the zero meant for it goes to the FIFO control register. *)
Theorem uart_initialize_writes port echo :
  0 ≤ port → port + 7 < 2 ^ 16 → 0 ≤ echo < 2 ^ 8 →
  let '(s, ret) := uart_initialize (log_inp echo) log_outp (Uart port []) in
  (ret = SYSTEM_OK ↔ echo = 0xae) ∧ line_control port (uart_chip s) = UART_LINE_DS_8 ∧
  (ret = SYSTEM_OK →
     ∃ pre, uart_chip s = pre ++ [(port + UART_MODEM_CONTROL, 0x0f)]) ∧
  ∀ pre val post, uart_chip s = pre ++ (port + UART_INTERRUPT, val) :: post →
    Z.testbit (line_control port pre) 7 = true.
Proof.
  intros Hp Hp' He. rewrite uart_initialize_trace by done.
  destruct (Z.eqb_spec echo 0xae) as [->|Hn]; cbn [uart_chip]; rewrite line_control_on_port;
    (split; [done|]); (split; [done|]); (split; [by eexists (on_port port setup_writes)|]);
    intros pre val post (w & post' & Hw & ->)%on_port_split; rewrite line_control_on_port;
    unfold setup_writes in Hw; repeat (destruct w as [|? w]; simplify_eq/=; try done).
Qed.

Theorem uart_initialize_writes_witness :
  let '(s, ret) := uart_initialize (log_inp 0xae) log_outp (Uart UART_COM_PORT_1 []) in
  (ret = SYSTEM_OK ↔ 0xae = 0xae) ∧
  line_control UART_COM_PORT_1 (uart_chip s) = UART_LINE_DS_8 ∧
  (ret = SYSTEM_OK → ∃ pre, uart_chip s = pre ++ [(UART_COM_PORT_1 + UART_MODEM_CONTROL, 0x0f)]) ∧
  ∀ pre val post, uart_chip s = pre ++ (UART_COM_PORT_1 + UART_INTERRUPT, val) :: post →
    Z.testbit (line_control UART_COM_PORT_1 pre) 7 = true.
Proof. apply (uart_initialize_writes UART_COM_PORT_1 0xae); by vm_compute. Defined.

(** A chip that is busy for the polls left, and keeps the bytes it gets. *)
Definition busy_inp (port : Z) (d : nat * list Z) : Z * (nat * list Z) :=
  match d with (O, l) => (32, (O, l)) | (S n, l) => (0, (n, l)) end.
Definition busy_outp (port val : Z) (d : nat * list Z) : nat * list Z := (d.1, d.2 ++ [val]).

Theorem putc_ends_witness :
  uart_putc busy_inp busy_outp 4 65 (Uart UART_COM_PORT_1 (2%nat, [])) =
  Ok (write_register busy_outp UART_DATA 65
        (polls busy_inp 3 (Uart UART_COM_PORT_1 (2%nat, []))), SYSTEM_OK).
Proof.
  apply (putc_ends busy_inp busy_outp 2); [|lia]. split; [done|].
  intros [|[|k]] Hk; [done..|lia].
Defined.
