(* ===== verification/Entry.v ===== *)
(** * The kernel's entry: [kernel/main.cpp], [arch.cpp] and the messages of start-up

    [kernel_main] with what it tells the log on the way: the serial port, the style
    of the log, the memory, the processor's tables, and a greeting. *)
From S2P Require Import Prelude Mem MemCopy MemSet MemCmp CString Ctype Strto Stdio Print PrintText.
From S2P Require Import PrintSpec PrintNumber PrintParse PrintFormat Logger LogText Gdt Uart.
From S2P Require Import Bitmap Lock Addr Physical PhysicalInit Frames Paging PagingWalk PagingMap.
From S2P Require Import PagingRange Virtual VirtualInit VirtualAlloc BuddyInv BuddyData Buddy Heap Boot.
Import (notations) String.

(** ** Start-up with its messages *)

Section entry.
Context `{hh : Hhdm, pmode : PagingMode} (mmu : vm phys → mem) (lit : list Z → Z) (fuel : nat).

Definition begin_msg (component : String.string) : console → outcome console :=
  log_begin_intialization lit fuel (lit (text component)).
Definition end_msg : console → outcome console := log_end_intialization lit fuel.
Definition debug_msg (format : String.string) : list Z → console → outcome console :=
  log_debug lit fuel (lit (text format)).

(** [bitmap_size], of the statistics that start-up keeps. *)
Definition bitmap_size_of (st : PhysicalMemoryStats) : Z :=
  align_up (highest_usable_addr st / PAGE_SIZE / 8) PAGE_SIZE.
Definition mebibytes (pages : Z) : Z := u64 (pages * PAGE_SIZE) / (1024 * 1024).

Definition physical_messages (st : PhysicalMemoryStats) (c : console) : outcome console :=
  let bitmap_size := bitmap_size_of st in
  c ← debug_msg "Bitmap size = %lu (%lu KiB)" [bitmap_size; bitmap_size / 1024] c;
  c ← debug_msg "Lowest usable address = 0x%.16lx" [lowest_usable_addr st] c;
  c ← debug_msg "Highest usable address = 0x%.16lx" [highest_usable_addr st] c;
  c ← debug_msg "Highest physical address = 0x%.16lx" [highest_physical_addr st] c;
  c ← debug_msg "Total usable memory = %lu pages(%lu MiB)"
        [usable_pages st; mebibytes (usable_pages st)] c;
  c ← debug_msg "Used memory = %lu pages (%lu MiB)" [used_pages st; mebibytes (used_pages st)] c;
  debug_msg "Free memory = %lu pages (%lu MiB)" [free_pages st; mebibytes (free_pages st)] c.

Definition physical_start (memmaps : list limine_memmap_entry) (p : phys) (c : console) :
    outcome (phys * list limine_memmap_entry * console) :=
  c ← begin_msg "Physical Memory Manager" c;
  '(p, memmaps) ← physical_initialize memmaps p;
  c ← end_msg c;
  c ← physical_messages (phys_stats p) c;
  Ok (p, memmaps, c).

Definition virtual_start (huge_page : bool) (memmaps : list limine_memmap_entry)
    (virtual_base physical_base kernel_size : Z) (s : vm phys) (c : console) :
    outcome (vm phys * console) :=
  c ← begin_msg "Virtual Memory Manager" c;
  s ← virtual_initialize huge_page memmaps virtual_base physical_base kernel_size s;
  c ← end_msg c;
  c ← debug_msg "Kernel Virtual Base = 0x%.16lx" [virtual_base] c;
  c ← debug_msg "Kernel Physical Base = 0x%.16lx" [physical_base] c;
  c ← debug_msg "Kernel Size = %lu" [kernel_size] c;
  Ok (s, c).

Definition heap_start_up (virtual_base : Z) (s : vm phys) (h : heap) (c : console) :
    outcome (vm phys * heap * console) :=
  c ← begin_msg "Kernel Heap" c;
  '(s, h) ← heap_init mmu virtual_base s h;
  c ← end_msg c;
  Ok (s, h, c).

(** [memory::initialize] *)
Definition memory_start (huge_page : bool) (memmaps : list limine_memmap_entry)
    (virtual_base physical_base kernel_size : Z) (p : phys) (c : console) :
    outcome (vm phys * heap * console) :=
  '(p, memmaps, c) ← physical_start memmaps p c;
  '(s, c) ← virtual_start huge_page memmaps virtual_base physical_base kernel_size
              (Vm p 0 TicketLock_init false []) c;
  heap_start_up virtual_base s heap_start c.

(** [cpu::initialize], which is all [arch::initialize] does; the guard of the
    first part takes its lock before the message. *)
Definition cpu_start (isr_table : Z → Z) (tss gdt_table idt_table : Z) (lock : TicketLock)
    (c : console) : outcome (GdtTable * list IdtSegment * TicketLock * list cpu_event * console) :=
  '(gdt, lock, e1) ← gdt_initialize tss gdt_table lock;
  c ← begin_msg "Global Descriptor Table" c;
  c ← end_msg c;
  c ← begin_msg "Interrupt Descriptor Table" c;
  '(idt, e2) ← interrupts_initialize isr_table idt_table;
  c ← end_msg c;
  Ok (gdt, idt, lock, [DisableInterrupts] ++ e1 ++ e2 ++ [EnableInterrupts], c).

(** What [kernel_main] works on: the memory map and the kernel's place from the
    boot loader, and the linker's addresses. *)
Record boot_info := BootInfo {
  bt_huge_page : bool;
  bt_memmaps : list limine_memmap_entry;
  bt_virtual_base : Z;
  bt_physical_base : Z;
  bt_kernel_size : Z;
  bt_isr_table : Z → Z;
  bt_tss : Z;
  bt_gdt_table : Z;
  bt_idt_table : Z;
}.

(** The kernel when it halts for ever, waiting for interrupts. *)
Record kernel := Kernel {
  k_space : vm phys;
  k_heap : heap;
  k_gdt : GdtTable;
  k_idt : list IdtSegment;
  k_console : console;
}.

(** [drivers::initialize] sets up the serial port behind the chip's ports [inp] and
    [outp], and with it the streams; [image] is the memory of the literals. *)
Definition kernel_main {D : Type} (inp : Z → D → Z * D) (outp : Z → Z → D → D) (b : boot_info)
    (image : mem) (chip : uart) (p : phys) : outcome kernel :=
  let '(_, file) := arch_initialize inp outp chip in
  let c := log_set_style (default_style lit) (Console style_start (Io image file [])) in
  '(s, h, c) ← memory_start (bt_huge_page b) (bt_memmaps b) (bt_virtual_base b)
                 (bt_physical_base b) (bt_kernel_size b) p c;
  '(gdt, idt, _, _, c) ← cpu_start (bt_isr_table b) (bt_tss b) (bt_gdt_table b) (bt_idt_table b)
                           TicketLock_init c;
  c ← log_info lit fuel (lit (text "Hello, World!")) [] c;
  Ok (Kernel s h gdt idt c).
End entry.

(** ** The transcript of a start-up *)

Definition initialized (component : String.string) : list Z :=
  line LOG_LEVEL_INFO (text "Initializing " ++ text component ++ text " ... OK!").
Definition debug_line (t : list Z) : list Z := line LOG_LEVEL_DEBUG t.
Definition pages_text (pages : Z) : list Z :=
  decimal_text pages ++ text " pages (" ++ decimal_text (mebibytes pages) ++ text " MiB)".

Definition physical_text (st : PhysicalMemoryStats) : list Z :=
  initialized "Physical Memory Manager" ++
  debug_line (text "Bitmap size = " ++ decimal_text (bitmap_size_of st) ++ text " (" ++
              decimal_text (bitmap_size_of st / 1024) ++ text " KiB)") ++
  debug_line (text "Lowest usable address = 0x" ++ hex16 (lowest_usable_addr st)) ++
  debug_line (text "Highest usable address = 0x" ++ hex16 (highest_usable_addr st)) ++
  debug_line (text "Highest physical address = 0x" ++ hex16 (highest_physical_addr st)) ++
  debug_line (text "Total usable memory = " ++ decimal_text (usable_pages st) ++ text " pages(" ++
              decimal_text (mebibytes (usable_pages st)) ++ text " MiB)") ++
  debug_line (text "Used memory = " ++ pages_text (used_pages st)) ++
  debug_line (text "Free memory = " ++ pages_text (free_pages st)).

Definition virtual_text (vb pb size : Z) : list Z :=
  initialized "Virtual Memory Manager" ++
  debug_line (text "Kernel Virtual Base = 0x" ++ hex16 vb) ++
  debug_line (text "Kernel Physical Base = 0x" ++ hex16 pb) ++
  debug_line (text "Kernel Size = " ++ decimal_text size).

Definition transcript (st : PhysicalMemoryStats) (vb pb size : Z) : list Z :=
  physical_text st ++ virtual_text vb pb size ++ initialized "Kernel Heap" ++
  initialized "Global Descriptor Table" ++ initialized "Interrupt Descriptor Table" ++
  line LOG_LEVEL_INFO (text "Hello, World!").

(** * Lemmas *)

Section writes.
Context `{hh : Hhdm, pmode : PagingMode} (mmu : vm phys → mem).
Context (lit : list Z → Z) (fuel : nat) (strings : Z → option (list Z)).

(** The literals of start-up. *)
Definition entry_formats : list (list Z) := map text
  ["Bitmap size = %lu (%lu KiB)"; "Lowest usable address = 0x%.16lx";
   "Highest usable address = 0x%.16lx"; "Highest physical address = 0x%.16lx";
   "Total usable memory = %lu pages(%lu MiB)"; "Used memory = %lu pages (%lu MiB)";
   "Free memory = %lu pages (%lu MiB)"; "Kernel Virtual Base = 0x%.16lx";
   "Kernel Physical Base = 0x%.16lx"; "Kernel Size = %lu"; "Hello, World!"]%string.
Definition entry_components : list (list Z) := map text
  ["Physical Memory Manager"; "Virtual Memory Manager"; "Kernel Heap"; "Global Descriptor Table";
   "Interrupt Descriptor Table"]%string.
Definition entry_literals : list (list Z) := entry_formats ++ entry_components.

Definition entry_console (c : console) : Prop :=
  console_ok lit fuel strings c ∧ Forall (λ l, strings (lit l) = Some l) entry_literals.

Lemma entry_told t c : entry_console c → entry_console (told t c).
Proof using Type. intros [? ?]. split; [by apply told_ok|done]. Qed.

Lemma entry_literal c l : entry_console c → l ∈ entry_literals → strings (lit l) = Some l.
Proof using Type. intros [_ H] Hl. by apply (proj1 (Forall_forall _ _) H), list_elem_of_In. Qed.

(** The two halves of an initialisation's line. *)
Definition begin_text (component : String.string) : list Z :=
  level_color LOG_LEVEL_INFO ++ level_tag LOG_LEVEL_INFO ++ text " -> Initializing " ++ text component.
Definition end_text : list Z := text " ... OK!" ++ line_end.

Lemma begin_msg_writes component c :
  entry_console c → text component ∈ entry_components → map s8 (text component) = text component →
  begin_msg lit fuel component c = Ok (told (begin_text component) c).
Proof using Type.
  intros Hc Hin Hs. unfold begin_msg.
  rewrite (begin_writes lit fuel strings _ (text component)); [by rewrite Hs|apply Hc|].
  apply (entry_literal c); [done|]. apply elem_of_app. by right.
Qed.

Lemma end_msg_writes c : entry_console c → end_msg lit fuel c = Ok (told end_text c).
Proof using Type. intros Hc. apply (end_writes lit fuel strings). apply Hc. Qed.

Lemma begin_end component c :
  told end_text (told (begin_text component) c) = told (initialized component) c.
Proof using Type.
  rewrite told_told. unfold initialized, line, begin_text, end_text. by rewrite <-!app_assoc.
Qed.

Lemma entry_msg_writes level l args t c :
  entry_console c → 0 ≤ level < 6 → l ∈ entry_formats → format_ok l = true →
  format_text strings (pieces_of l) args = Some t →
  log_msg lit fuel level (lit l) args c = Ok (told (line level t) c).
Proof using Type.
  intros Hc Hl Hin Hok Ht. apply (literal_msg_writes lit fuel strings); try done; [apply Hc|].
  apply (entry_literal c); [done|]. apply elem_of_app. by left.
Qed.

Ltac message t :=
  rewrite (entry_msg_writes _ _ _ t);
  [|repeat apply entry_told; eassumption|done|listed|by vm_compute|rendered].
Ltac initialize :=
  rewrite begin_msg_writes by (first [by repeat apply entry_told|listed|by vm_compute]); rewrite bind_ok.

Lemma physical_messages_writes st c :
  entry_console c →
  (c ← end_msg lit fuel (told (begin_text "Physical Memory Manager") c);
   physical_messages lit fuel st c) = Ok (told (physical_text st) c).
Proof using Type.
  intros Hc. rewrite end_msg_writes by by apply entry_told. rewrite bind_ok, begin_end.
  unfold physical_messages, debug_msg, log_debug.
  message (text "Bitmap size = " ++ decimal_text (bitmap_size_of st) ++ text " (" ++
           decimal_text (bitmap_size_of st / 1024) ++ text " KiB)"). rewrite bind_ok.
  message (text "Lowest usable address = 0x" ++ hex16 (lowest_usable_addr st)). rewrite bind_ok.
  message (text "Highest usable address = 0x" ++ hex16 (highest_usable_addr st)). rewrite bind_ok.
  message (text "Highest physical address = 0x" ++ hex16 (highest_physical_addr st)). rewrite bind_ok.
  message (text "Total usable memory = " ++ decimal_text (usable_pages st) ++ text " pages(" ++
           decimal_text (mebibytes (usable_pages st)) ++ text " MiB)"). rewrite bind_ok.
  message (text "Used memory = " ++ pages_text (used_pages st)). rewrite bind_ok.
  message (text "Free memory = " ++ pages_text (free_pages st)). by rewrite !told_told.
Qed.

(** Each part of start-up is the part without messages, with its text. *)
Lemma physical_start_eq memmaps p c :
  entry_console c →
  physical_start lit fuel memmaps p c =
  ('(p, memmaps) ← physical_initialize memmaps p;
   Ok (p, memmaps, told (physical_text (phys_stats p)) c)).
Proof using Type.
  intros Hc. unfold physical_start. initialize.
  destruct (physical_initialize memmaps p) as [[p' memmaps']| | | |]; try done. rewrite !bind_ok.
  rewrite <-bind_assoc, physical_messages_writes by done. done.
Qed.

Lemma virtual_start_eq huge_page memmaps vb pb size s c :
  entry_console c →
  virtual_start lit fuel huge_page memmaps vb pb size s c =
  (s ← virtual_initialize huge_page memmaps vb pb size s; Ok (s, told (virtual_text vb pb size) c)).
Proof using Type.
  intros Hc. unfold virtual_start. initialize.
  destruct (virtual_initialize _ _ _ _ _ _) as [s'| | | |]; try done. rewrite !bind_ok.
  rewrite end_msg_writes, bind_ok, begin_end by by apply entry_told.
  unfold debug_msg, log_debug.
  message (text "Kernel Virtual Base = 0x" ++ hex16 vb). rewrite bind_ok.
  message (text "Kernel Physical Base = 0x" ++ hex16 pb). rewrite bind_ok.
  message (text "Kernel Size = " ++ decimal_text size). by rewrite bind_ok, !told_told.
Qed.

Lemma heap_start_up_eq vb s h c :
  entry_console c →
  heap_start_up mmu lit fuel vb s h c =
  ('(s, h) ← heap_init mmu vb s h; Ok (s, h, told (initialized "Kernel Heap") c)).
Proof using Type.
  intros Hc. unfold heap_start_up. initialize.
  destruct (heap_init _ _ _ _) as [[s' h']| | | |]; try done. rewrite !bind_ok.
  by rewrite end_msg_writes, bind_ok, begin_end by by apply entry_told.
Qed.

Lemma memory_start_eq huge_page memmaps vb pb size p c :
  entry_console c →
  memory_start mmu lit fuel huge_page memmaps vb pb size p c =
  ('(p', _) ← physical_initialize memmaps p;
   '(s, h) ← memory_initialize mmu huge_page memmaps vb pb size p;
   Ok (s, h, told (physical_text (phys_stats p') ++ virtual_text vb pb size ++
                   initialized "Kernel Heap") c)).
Proof using Type.
  intros Hc. unfold memory_start, memory_initialize. rewrite physical_start_eq by done.
  destruct (physical_initialize memmaps p) as [[p' memmaps']| | | |]; try done. rewrite !bind_ok.
  rewrite virtual_start_eq by by apply entry_told.
  destruct (virtual_initialize _ _ _ _ _ _) as [s'| | | |]; try done. rewrite !bind_ok.
  rewrite heap_start_up_eq by by do 2 apply entry_told.
  destruct (heap_init _ _ _ _) as [[s'' h']| | | |]; try done. by rewrite !bind_ok, !told_told.
Qed.

(** The streams, whatever the chip answers. *)
Lemma arch_initialize_file {D} (inp : Z → D → Z * D) outp chip :
  (arch_initialize inp outp chip).2 = simple_file.
Proof using Type. unfold arch_initialize. by destruct (uart_initialize inp outp _). Qed.

(** The tables of the processor. *)
Lemma cpu_start_returns isr_table tss gdt_table idt_table lock c
    (Q : GdtTable * list IdtSegment * TicketLock * list cpu_event * console → Prop) :
  entry_console c → lock_free lock →
  (∀ gdt idt lock events, length idt = 256%nat →
     (∀ v, 0 ≤ v < 256 → idt !! Z.to_nat v =
        Some (IdtSegment_create_entry (isr_table v) 0 IDT_INTERRUPT_GATE IDT_DPL0 KERNEL_CODE_SELECTOR)) →
     Q (gdt, idt, lock, events,
        told (initialized "Global Descriptor Table" ++ initialized "Interrupt Descriptor Table") c)) →
  returns (cpu_start lit fuel isr_table tss gdt_table idt_table lock c) Q.
Proof using Type.
  intros Hc Hl HQ. unfold cpu_start, gdt_initialize.
  destruct (mutex_lock_free _ Hl) as (l & -> & _). rewrite !bind_ok.
  initialize. rewrite end_msg_writes, bind_ok, begin_end by by apply entry_told.
  initialize. unfold interrupts_initialize. rewrite bind_assoc. bind_step.
  apply idt_loop. intros table Hlen Ht. rewrite bind_ok.
  rewrite end_msg_writes, bind_ok, begin_end, told_told by by do 2 apply entry_told.
  by apply HQ.
Qed.
End writes.

(** * Properties *)


#[local] Existing Instance sample_hhdm.
#[local] Existing Instance sample_mode.

(** The literals of the log and of start-up, and the machine of Boot's example. *)
Definition entry_image : list (list Z) := logger_literals ++ entry_literals.
Definition entry_mem : mem := mem_of 4096 (image entry_image).

Lemma entry_sample_ok :
  entry_console (image_lit entry_image) 128 (image_strings entry_image)
    (Console (default_style (image_lit entry_image)) (Io entry_mem simple_file [])).
Proof.
  split; [split; [split|done]|].
  - split; [split; [by eexists|simpl; lia]|]. by exists (λ _, SYSTEM_OK).
  - apply image_strings_at; [lia|]. by vm_compute.
  - listed.
  - listed.
Qed.

Definition sample_info : boot_info :=
  {| bt_huge_page := true; bt_memmaps := sample_memmaps; bt_virtual_base := 0xffffffff80000000;
     bt_physical_base := 0x200000; bt_kernel_size := 0x4800; bt_isr_table := λ v, 64 * v;
     bt_tss := 4096; bt_gdt_table := 8192; bt_idt_table := 12288 |}.

