(* ===== verification/Interrupt.v ===== *)
(** * The way into and out of an interrupt: [kernel/arch/amd64/cpu/idt.S]

    The processor pushes what it interrupted, the stub of the vector pushes an
    error code where the processor has none and the vector's number, and
    [interrupt_common] the registers; what then lies at the stack pointer is the
    [Iframe] of [registers.h] that the handlers in C++ read.  On the way out the
    same words are popped.  The stack is memory; only the instructions that
    move data are modelled. *)
From S2P Require Import Prelude Mem Gdt Trap Caching.

(** ** The stack *)

(** [pushq] and [popq]: the memory and the stack pointer. *)
Definition push (v : Z) (s : mem * Z) : outcome (mem * Z) :=
  let '(m, sp) := s in
  let sp := u64 (sp - 8) in
  m ← st64 m sp v;
  Ok (m, sp).

Definition pop (m : mem) (sp : Z) : outcome (Z * Z) :=
  v ← ld64 m sp;
  Ok (v, u64 (sp + 8)).

Fixpoint push_all (l : list Z) (s : mem * Z) : outcome (mem * Z) :=
  match l with
  | [] => Ok s
  | v :: l => s ← push v s; push_all l s
  end.

Fixpoint pop_all (n : nat) (m : mem) (sp : Z) : outcome (list Z * Z) :=
  match n with
  | O => Ok ([], sp)
  | S n =>
      '(v, sp) ← pop m sp;
      '(l, sp) ← pop_all n m sp;
      Ok (v :: l, sp)
  end.

(** ** [registers.h] *)

Definition IFRAME_OFFSET_VECTOR : Z := 15 * 8.
Definition IFRAME_OFFSET_CS : Z := 18 * 8.
Definition IFRAME_SIZE : Z := 22 * 8.
Definition MSR_GS_BASE : Z := 0xc0000101.

(** The fields of [Iframe] in the order of its declaration, from a pointer. *)
Definition iframe_words (f : Iframe) : list Z :=
  [rdi f; rsi f; rbp f; rbx f; rdx f; rcx f; rax f; r8 f; r9 f; r10 f; r11 f; r12 f; r13 f;
   r14 f; r15 f; vector f; err_code f; ip f; cs f; flags f; user_sp f; user_ss f].

Definition iframe_of (l : list Z) : Iframe :=
  let w i := nth i l 0 in
  {| rdi := w 0%nat; rsi := w 1%nat; rbp := w 2%nat; rbx := w 3%nat; rdx := w 4%nat;
     rcx := w 5%nat; rax := w 6%nat; r8 := w 7%nat; r9 := w 8%nat; r10 := w 9%nat;
     r11 := w 10%nat; r12 := w 11%nat; r13 := w 12%nat; r14 := w 13%nat; r15 := w 14%nat;
     vector := w 15%nat; err_code := w 16%nat; ip := w 17%nat; cs := w 18%nat;
     flags := w 19%nat; user_sp := w 20%nat; user_ss := w 21%nat |}.

Definition read_iframe (m : mem) (a : Z) : outcome Iframe :=
  '(l, _) ← pop_all 22 m a;
  Ok (iframe_of l).

(** ** The entry *)

(** [isr.current.has_error] *)
Definition has_error (v : Z) : bool :=
  (v =? 8) || ((10 <=? v) && (v <=? 14)) || (v =? 17).

Section entry.
(** The vectors for which the processor pushes an error code. *)
Context (pushes_error : Z → bool).

(** The processor's part.  [f] gives the values interrupted and the error code,
    [s] the stack it has chosen. *)
Definition deliver (f : Iframe) (s : mem * Z) : outcome (mem * Z) :=
  push_all ([user_ss f; user_sp f; flags f; cs f; ip f] ++
            if pushes_error (vector f) then [err_code f] else []) s.

(** The stub of a vector. *)
Definition isr_stub (v : Z) (s : mem * Z) : outcome (mem * Z) :=
  s ← (if negb (has_error v) then push 0 s else Ok s);
  push v s.

(** The saves of [interrupt_common]. *)
Definition save_registers (f : Iframe) (s : mem * Z) : outcome (mem * Z) :=
  push_all [r15 f; r14 f; r13 f; r12 f; r11 f; r10 f; r9 f; r8 f; rax f; rcx f; rdx f; rbx f;
            rbp f; rsi f; rdi f] s.

Inductive handler := CallException (user : bool) | CallNmi.

(** Which handler is called, by the words of the frame. *)
Definition dispatch (m : mem) (sp : Z) : outcome handler :=
  v ← ld64 m (u64 (sp + IFRAME_OFFSET_VECTOR));
  if v =? 2 then Ok CallNmi else
  cs ← ld64 m (u64 (sp + IFRAME_OFFSET_CS));
  Ok (CallException (negb (Z.land cs 3 =? 0))).

(** An interrupt up to the call of its handler, which gets the stack pointer as
    the address of an [Iframe]. *)
Definition interrupt_entry (f : Iframe) (s : mem * Z) : outcome (mem * Z * handler) :=
  s ← deliver f s;
  s ← isr_stub (vector f) s;
  '(m, sp) ← save_registers f s;
  h ← dispatch m sp;
  Ok (m, sp, h).
End entry.

(** ** The return *)

(** [.Lcommon_return]: the registers are popped, the vector and the error code
    dropped, and [iretq] takes the rest; the values in their order. *)
Definition common_return (m : mem) (sp : Z) : outcome (list Z * list Z) :=
  '(regs, sp) ← pop_all 15 m sp;
  let sp := u64 (sp + 16) in
  '(rest, sp) ← pop_all 5 m sp;
  Ok (regs, rest).

(** The base of [gs] around [nmi_handler]: read, kept in [rbx], read again (the
    address computed before is lost), and written back. *)
Definition nmi_gs_base (s : msrs) : msrs * msrs :=
  let rbx := read_msr MSR_GS_BASE s in
  (s, write_msr MSR_GS_BASE rbx s).

(** * Lemmas *)

(** The words of a list below [sp], the first at the highest address. *)
Definition words_below (m : mem) (sp : Z) (l : list Z) : Prop :=
  ∀ i v, l !! i = Some v → ld64 m (sp - 8 * (Z.of_nat i + 1)) = Ok v.

(** The words of a list from [sp] on. *)
Definition words_above (m : mem) (sp : Z) (l : list Z) : Prop :=
  ∀ i v, l !! i = Some v → ld64 m (sp + 8 * Z.of_nat i) = Ok v.

Lemma words_below_above m sp l :
  words_below m sp l → words_above m (sp - 8 * Z.of_nat (length l)) (reverse l).
Proof.
  intros H i v Hi. pose proof (lookup_lt_Some _ _ _ Hi) as Hlt. rewrite length_reverse in Hlt.
  apply reverse_lookup_Some in Hi as [Hi _].
  rewrite <-(H _ _ Hi). f_equal. lia.
Qed.

Lemma words_above_app m sp l1 l2 :
  words_above m sp (l1 ++ l2) →
  words_above m sp l1 ∧ words_above m (sp + 8 * Z.of_nat (length l1)) l2.
Proof.
  intros H. split; intros i v Hi.
  - apply H. by apply lookup_app_l_Some.
  - replace (_ + _) with (sp + 8 * Z.of_nat (length l1 + i)) by lia. apply H.
    rewrite lookup_app_r by lia. by replace (length l1 + i - length l1)%nat with i by lia.
Qed.

Lemma pop_all_words l : ∀ m sp,
  words_above m sp l → 0 ≤ sp → sp + 8 * Z.of_nat (length l) < 2 ^ 64 →
  pop_all (length l) m sp = Ok (l, sp + 8 * Z.of_nat (length l)).
Proof.
  induction l as [|v l IH]; intros m sp Hw H0 Hsp; cbn [pop_all length] in *.
  { do 2 f_equal. lia. }
  unfold pop. pose proof (Hw O v eq_refl) as Hv. rewrite Z.mul_0_r, Z.add_0_r in Hv.
  rewrite Hv, bind_ok, bind_ok, u64_small by lia.
  rewrite IH, bind_ok; [do 2 f_equal; lia| |lia|lia].
  exact (proj2 (words_above_app m sp [v] l Hw)).
Qed.

Lemma push_all_app l1 l2 s : push_all (l1 ++ l2) s = (s ← push_all l1 s; push_all l2 s).
Proof.
  revert s. induction l1 as [|v l1 IH]; intros s; cbn [app push_all]; [done|].
  destruct (push v s) as [s1| | | |]; [apply IH|done..].
Qed.

Lemma push_all_returns l : ∀ m sp,
  bytes_ok m → mapped m (sp - 8 * Z.of_nat (length l)) (8 * Z.of_nat (length l)) →
  0 ≤ sp - 8 * Z.of_nat (length l) → sp < 2 ^ 64 → Forall (λ v, 0 ≤ v < 2 ^ 64) l →
  returns (push_all l (m, sp)) (λ '(m', sp'), sp' = sp - 8 * Z.of_nat (length l) ∧
    words_below m' sp l ∧
    (∀ x, is_Some (m' !! x) ↔ is_Some (m !! x)) ∧
    ∀ x, ¬ (sp - 8 * Z.of_nat (length l) ≤ x < sp) → m' !! x = m !! x).
Proof.
  induction l as [|v l IH]; intros m sp Hb Hm H0 Hsp Hl; cbn [push_all length].
  { cbn [returns]. split_and!; [lia|done|done|done]. }
  apply Forall_cons_1 in Hl as [Hv Hl]. cbn [length] in Hm, H0. bind_step. unfold push.
  rewrite u64_small by lia. bind_step.
  apply st64_returns; [eapply mapped_mono; [exact Hm|lia|lia]|]. intros m1 Hm1. cbn [returns].
  eapply returns_mono; [apply IH; [by eapply stored_bytes_ok| |lia|lia|done]|].
  - intros x Hx. rewrite Hm1. rewrite decide_False by lia. apply Hm. lia.
  - intros [m' sp'] (-> & Hw & Hdom & Hout). split; [lia|]. split; [|split].
    + intros [|i] w Hi; cbn in Hi.
      * simplify_eq. rewrite (ld64_same m1 m') by (intros x Hx; apply Hout; lia).
        replace (sp - 8 * (Z.of_nat 0 + 1)) with (sp - 8) by lia. by eapply stored_ld64.
      * replace (sp - 8 * (Z.of_nat (S i) + 1)) with (sp - 8 - 8 * (Z.of_nat i + 1)) by lia.
        by apply Hw.
    + intros x. rewrite Hdom, Hm1. case_decide; [|done]. split; [intros _; apply Hm; lia|done].
    + intros x Hx. rewrite Hout, Hm1 by lia. by rewrite decide_False by lia.
Qed.

Lemma isr_stub_push v s :
  isr_stub v s = push_all ((if has_error v then [] else [0]) ++ [v]) s.
Proof.
  unfold isr_stub. rewrite push_all_app. destruct (has_error v); cbn [negb push_all].
  - rewrite !bind_ok. by destruct (push v s).
  - destruct (push 0 s) as [s1| | | |]; [|done..]. rewrite !bind_ok. by destruct (push v s1).
Qed.

(** An interrupt's pushes in one list. *)
Definition pushed (pushes_error : Z → bool) (f : Iframe) : list Z :=
  ([user_ss f; user_sp f; flags f; cs f; ip f] ++
   if pushes_error (vector f) then [err_code f] else []) ++
  ((if has_error (vector f) then [] else [0]) ++ [vector f]) ++
  [r15 f; r14 f; r13 f; r12 f; r11 f; r10 f; r9 f; r8 f; rax f; rcx f; rdx f; rbx f;
   rbp f; rsi f; rdi f].

Lemma interrupt_entry_pushed pushes_error f s :
  interrupt_entry pushes_error f s =
  ('(m, sp) ← push_all (pushed pushes_error f) s; h ← dispatch m sp; Ok (m, sp, h)).
Proof.
  unfold interrupt_entry, deliver, save_registers, pushed.
  generalize ([user_ss f; user_sp f; flags f; cs f; ip f] ++
    if pushes_error (vector f) then [err_code f] else []). intros A. rewrite push_all_app.
  destruct (push_all A s) as [s1| | | |]; [|done..].
  by rewrite !bind_ok, (push_all_app (_ ++ [vector f])), bind_assoc, <-isr_stub_push.
Qed.

(** A frame's words fit. *)
Definition frame_ok (f : Iframe) : Prop := Forall (λ v, 0 ≤ v < 2 ^ 64) (iframe_words f).

#[global] Instance frame_ok_dec f : Decision (frame_ok f).
Proof. unfold frame_ok. apply _. Defined.

(** What an entry leaves on the stack, the words in the order of their
    addresses. *)
Lemma interrupt_entry_returns pushes_error f m sp (Q : mem * Z * handler → Prop) :
  let l := reverse (pushed pushes_error f) in
  let n := 8 * Z.of_nat (length l) in
  frame_ok f → bytes_ok m → mapped m (sp - n) n → n ≤ sp < 2 ^ 64 →
  (∀ m', words_above m' (sp - n) l →
     (∀ x, ¬ (sp - n ≤ x < sp) → m' !! x = m !! x) →
     returns (dispatch m' (sp - n)) (λ h, Q (m', sp - n, h))) →
  returns (interrupt_entry pushes_error f (m, sp)) Q.
Proof.
  intros l n Hf Hb Hm Hsp HQ. rewrite interrupt_entry_pushed. bind_step.
  assert (Forall (λ v, 0 ≤ v < 2 ^ 64) (pushed pushes_error f)) as Hl.
  { unfold frame_ok, iframe_words in Hf. rewrite !Forall_cons_iff in Hf. unfold pushed.
    destruct (pushes_error _), (has_error _); cbn [app]; rewrite !Forall_cons_iff;
      destruct_and!; split_and!; done || lia. }
  unfold n, l in *. rewrite length_reverse in *.
  eapply returns_mono; [apply push_all_returns; [done|done|lia|lia|done]|].
  intros [m' sp'] (-> & Hw & _ & Hout). bind_step. apply words_below_above in Hw.
  eapply returns_mono; [by apply HQ|]. intros h Hh. exact Hh.
Qed.

Lemma dispatch_words m sp l v c :
  words_above m sp l → l !! 15%nat = Some v → l !! 18%nat = Some c → 0 ≤ sp → sp + 176 < 2 ^ 64 →
  dispatch m sp = Ok (if v =? 2 then CallNmi else CallException (negb (Z.land c 3 =? 0))).
Proof.
  intros Hw Hv Hc H0 Hsp. unfold dispatch, IFRAME_OFFSET_VECTOR, IFRAME_OFFSET_CS.
  rewrite !u64_small by lia. rewrite (Hw _ _ Hv : ld64 m (sp + 15 * 8) = Ok v), bind_ok.
  destruct (v =? 2); [done|]. by rewrite (Hw _ _ Hc : ld64 m (sp + 18 * 8) = Ok c).
Qed.

Lemma read_iframe_words m sp l :
  words_above m sp l → length l = 22%nat → 0 ≤ sp → sp + 176 < 2 ^ 64 →
  read_iframe m sp = Ok (iframe_of l).
Proof.
  intros Hw Hl H0 Hsp. unfold read_iframe. rewrite <-Hl, pop_all_words by (done || lia).
  by rewrite bind_ok.
Qed.

Lemma common_return_words m sp regs v c rest :
  words_above m sp (regs ++ [v; c] ++ rest) → length regs = 15%nat → length rest = 5%nat →
  0 ≤ sp → sp + 176 < 2 ^ 64 → common_return m sp = Ok (regs, rest).
Proof.
  intros Hw Hr Hs H0 Hsp. apply words_above_app in Hw as [H1 H2].
  apply words_above_app in H2 as [_ H3]. unfold common_return. rewrite Hr in *. cbn [length] in H3.
  rewrite <-Hr at 1. rewrite pop_all_words, bind_ok by (done || lia). rewrite Hr.
  rewrite u64_small by lia. rewrite <-Hs at 1.
  replace (sp + 8 * Z.of_nat 15 + 16) with (sp + 8 * Z.of_nat 15 + 8 * Z.of_nat 2) by lia.
  rewrite pop_all_words, bind_ok by (done || lia). done.
Qed.

(** * Properties *)

Section properties.
Context (pushes_error : Z → bool) (f : Iframe) (m : mem) (sp : Z).
Hypothesis f_ok : frame_ok f.
Hypothesis m_ok : bytes_ok m.

(** C25. When the stub knows of the vector's error code, the address that the
    handler gets, the stack pointer, is that of an [Iframe] with the layout of
    the C structure: every field holds what was interrupted, the vector and the
    error code.  Vector 2 goes to [nmi_handler], the others to
    [exception_handler], from user mode by the privilege bits of [cs]; nothing
    outside the frame's 176 bytes is written. *)
Theorem interrupt_entry_iframe :
  mapped m (sp - IFRAME_SIZE) IFRAME_SIZE → IFRAME_SIZE ≤ sp < 2 ^ 64 →
  pushes_error (vector f) = has_error (vector f) →
  (has_error (vector f) = false → err_code f = 0) →
  returns (interrupt_entry pushes_error f (m, sp)) (λ '(m', frame, h),
    frame = sp - IFRAME_SIZE ∧ read_iframe m' frame = Ok f ∧
    h = (if vector f =? 2 then CallNmi else CallException (negb (Z.land (cs f) 3 =? 0))) ∧
    ∀ x, ¬ (frame ≤ x < sp) → m' !! x = m !! x).
Proof using f_ok m_ok.
  intros Hm Hsp Hp He.
  assert (reverse (pushed pushes_error f) = iframe_words f) as Hl.
  { unfold pushed. rewrite Hp. destruct (has_error _); [done|]. by rewrite <-He at 1. }
  unfold IFRAME_SIZE in *. apply interrupt_entry_returns; rewrite ?Hl; [done|done|done|cbn; lia|].
  cbn [length iframe_words]. intros m' Hw Hout.
  rewrite (dispatch_words m' _ _ (vector f) (cs f) Hw) by (done || lia). cbn [returns].
  split_and!; [done| |done|done].
  rewrite (read_iframe_words _ _ _ Hw) by (done || lia). by destruct f.
Qed.

(** C39. The way out is the way in backwards: if the handler leaves the frame as
    it was, the return pops into every register what it held, and gives [iretq]
    the instruction pointer, code segment, flags and stack interrupted. *)
Theorem interrupt_return_restores :
  mapped m (sp - IFRAME_SIZE) IFRAME_SIZE → IFRAME_SIZE ≤ sp < 2 ^ 64 →
  pushes_error (vector f) = has_error (vector f) →
  returns (interrupt_entry pushes_error f (m, sp)) (λ '(m', frame, _),
    ∀ m'', (∀ x, frame ≤ x < sp → m'' !! x = m' !! x) →
      common_return m'' frame =
        Ok (take 15 (iframe_words f), [ip f; cs f; flags f; user_sp f; user_ss f])).
Proof using f_ok m_ok.
  intros Hm Hsp Hp.
  assert (∃ e, reverse (pushed pushes_error f) =
    take 15 (iframe_words f) ++ [vector f; e] ++ [ip f; cs f; flags f; user_sp f; user_ss f])
    as [e Hl] by (unfold pushed; rewrite Hp; destruct (has_error _); by eexists).
  unfold IFRAME_SIZE in *. apply interrupt_entry_returns; rewrite ?Hl; [done|done|done|cbn; lia|].
  cbn [length app take iframe_words]. intros m' Hw Hout.
  rewrite (dispatch_words m' _ _ (vector f) (cs f) Hw) by (done || lia). cbn [returns].
  intros m'' Hm''. apply (common_return_words _ _ _ (vector f) e); [|done|done|lia|lia].
  intros i v Hi. pose proof (lookup_lt_Some _ _ _ Hi) as Hlt. cbn in Hlt.
  rewrite <-(Hw i v Hi). apply ld64_same. intros x Hx. apply Hm''. lia.
Qed.

(** A vector whose error code the stub does not know of, as vector 21 has
    one, gets a frame that is off by a word: the code reads as zero, it is taken
    for the instruction pointer, and every word after it for its neighbour. *)
Theorem unknown_error_code_shifts :
  mapped m (sp - IFRAME_SIZE - 8) (IFRAME_SIZE + 8) → IFRAME_SIZE + 8 ≤ sp < 2 ^ 64 →
  pushes_error (vector f) = true → has_error (vector f) = false →
  returns (interrupt_entry pushes_error f (m, sp)) (λ '(m', frame, h), ∃ f',
    read_iframe m' frame = Ok f' ∧
    take 16 (iframe_words f') = take 16 (iframe_words f) ∧
    err_code f' = 0 ∧ ip f' = err_code f ∧ cs f' = ip f ∧ flags f' = cs f ∧
    user_sp f' = flags f ∧ user_ss f' = user_sp f).
Proof using f_ok m_ok.
  intros Hm Hsp Hp Hh.
  assert (reverse (pushed pushes_error f) =
    take 16 (iframe_words f) ++ [0; err_code f; ip f; cs f; flags f; user_sp f] ++ [user_ss f])
    as Hl by (unfold pushed; by rewrite Hp, Hh).
  unfold IFRAME_SIZE in *. apply interrupt_entry_returns; rewrite ?Hl; [done|done| |cbn; lia|].
  { eapply mapped_mono; [exact Hm|cbn; lia|cbn; lia]. }
  cbn [length app take iframe_words]. intros m' Hw Hout.
  rewrite (dispatch_words m' _ _ (vector f) (ip f) Hw) by (done || lia). cbn [returns].
  destruct (words_above_app m' _ (take 16 (iframe_words f) ++
    [0; err_code f; ip f; cs f; flags f; user_sp f]) [user_ss f] Hw) as [Hw' _].
  eexists. split; [by apply (read_iframe_words _ _ _ Hw'); [done|lia|lia]|].
  by split_and!.
Qed.
End properties.

(** The handler of a non-maskable interrupt runs with the base of [gs] that was
    interrupted, and it is the same after. *)
Lemma nmi_gs_base_kept s :
  0 ≤ read_msr MSR_GS_BASE s < 2 ^ 64 →
  let '(during, after) := nmi_gs_base s in
  read_msr MSR_GS_BASE during = read_msr MSR_GS_BASE s ∧
  read_msr MSR_GS_BASE after = read_msr MSR_GS_BASE s.
Proof. intros Hs. split; [done|]. by apply read_write_msr. Qed.

(** * Instances *)

(** The vectors that have an error code. *)
Definition x86_pushes_error (v : Z) : bool := has_error v || (v =? 21) || (v =? 29) || (v =? 30).

Definition sample_frame (v code : Z) : Iframe :=
  {| rdi := 1; rsi := 2; rbp := 3; rbx := 4; rdx := 5; rcx := 6; rax := 7;
     r8 := 8; r9 := 9; r10 := 10; r11 := 11; r12 := 12; r13 := 13; r14 := 14; r15 := 15;
     vector := v; err_code := code; ip := 0x1000; cs := 0x2b; flags := 2;
     user_sp := 0x2000; user_ss := 0x23 |}.

Definition sample_interrupt_stack : mem := mem_of 4096 (replicate 192 0).

Lemma sample_interrupt_stack_ok :
  bytes_ok sample_interrupt_stack ∧ mapped sample_interrupt_stack 4096 192.
Proof.
  split; [apply mem_of_bytes_ok, Forall_replicate; lia|]. by apply mem_of_mapped.
Qed.

(** A page fault in user mode. *)
Lemma interrupt_entry_iframe_witness :
  returns (interrupt_entry x86_pushes_error (sample_frame 14 6) (sample_interrupt_stack, 4288))
    (λ '(m', frame, h), frame = 4112 ∧ read_iframe m' frame = Ok (sample_frame 14 6) ∧
      h = CallException true ∧ ∀ x, ¬ (frame ≤ x < 4288) → m' !! x = sample_interrupt_stack !! x).
Proof.
  refine (interrupt_entry_iframe x86_pushes_error (sample_frame 14 6) sample_interrupt_stack 4288
    _ _ _ _ _ _).
  - apply (bool_decide_unpack _). by vm_compute.
  - apply sample_interrupt_stack_ok.
  - eapply mapped_mono; [apply sample_interrupt_stack_ok|by vm_compute..].
  - by vm_compute.
  - reflexivity.
  - discriminate.
Defined.

Lemma interrupt_return_restores_witness :
  returns (interrupt_entry x86_pushes_error (sample_frame 3 0) (sample_interrupt_stack, 4288))
    (λ '(m', frame, _), ∀ m'', (∀ x, frame ≤ x < 4288 → m'' !! x = m' !! x) →
      common_return m'' frame =
        Ok ([1; 2; 3; 4; 5; 6; 7; 8; 9; 10; 11; 12; 13; 14; 15], [0x1000; 0x2b; 2; 0x2000; 0x23])).
Proof.
  refine (interrupt_return_restores x86_pushes_error (sample_frame 3 0) sample_interrupt_stack 4288
    _ _ _ _ _).
  - apply (bool_decide_unpack _). by vm_compute.
  - apply sample_interrupt_stack_ok.
  - eapply mapped_mono; [apply sample_interrupt_stack_ok|by vm_compute..].
  - by vm_compute.
  - reflexivity.
Defined.

(** The control protection exception. *)
Lemma unknown_error_code_shifts_witness :
  returns (interrupt_entry x86_pushes_error (sample_frame 21 3) (sample_interrupt_stack, 4288))
    (λ '(m', frame, h), ∃ f',
      read_iframe m' frame = Ok f' ∧
      take 16 (iframe_words f') = take 16 (iframe_words (sample_frame 21 3)) ∧
      err_code f' = 0 ∧ ip f' = 3 ∧ cs f' = 0x1000 ∧ flags f' = 0x2b ∧
      user_sp f' = 2 ∧ user_ss f' = 0x2000).
Proof.
  refine (unknown_error_code_shifts x86_pushes_error (sample_frame 21 3) sample_interrupt_stack 4288
    _ _ _ _ _ _).
  - apply (bool_decide_unpack _). by vm_compute.
  - apply sample_interrupt_stack_ok.
  - eapply mapped_mono; [apply sample_interrupt_stack_ok|by vm_compute..].
  - by vm_compute.
  - reflexivity.
  - reflexivity.
Defined.
